(* ===== verification/_CoqProject ===== *)
-Q . S2P
Prelude.v
Types.v
Validator.v
Queue.v
Ids.v
Session.v
Serializer.v
SqlText.v
Sqlite.v
Store.v
StoreSpec.v
SchemaSpec.v
StoreIface.v
StoreHealth.v
Refinement.v
Statements.v
Pipeline.v
Admission.v
Worker.v
Tokens.v
Wakeup.v
Skeleton.v
Threads.v
Deadlines.v
Paths.v
Stdio.v
FileSink.v
FileSinkSpec.v
FileSinkLog.v
Client.v
AdmissionSpec.v
Invariant.v
WorkerSpec.v
WorkerRun.v
Guarantees.v
Accounting.v
Delivery.v
Progress.v
FileProgress.v
ClientSpec.v
Game.v
Findings.v
