(* ===== verification/Prelude.v ===== *)
(** * PlayerTrace: a verification library

    PlayerTrace is a C++ telemetry SDK for games. An application creates a
    Client, opens a session and tracks events; a background worker writes the
    accepted events to a SQLite database and delivers them, in order, to a sink.
    Consent can be revoked and granted at any time, and a revocation must remove
    everything collected before it.

    ** Parts and files

    - Prelude.v (this file): 64-bit arithmetic written out on [Z], strings as
      byte sequences, the state monad [M] with its notation, total Hoare triples
      [hoare], tactics and shared lemmas.
    - Types.v: the public value types (include/playertrace).
    - Validator.v: EventValidator, with UTF-8 checking (src/event_validator.cpp).
    - Queue.v: EventQueue, the bounded FIFO (src/event_queue.cpp).
    - Ids.v: IdGenerator, the 64-bit Mersenne twister and version 4 identifiers
      (src/id_generator.cpp).
    - Session.v: SessionManager (src/session_manager.cpp).
    - Serializer.v: JsonSerializer, timestamps and wire format
      (src/json_serializer.cpp). The JSON library is a parameter: [dump] writes
      a value, [accept] recognizes JSON text.
    - SqlText.v, Sqlite.v, Store.v: the text checks of stored schemas, the SQLite
      interface with its documented behaviour ([SqliteApi], [SqliteSpec],
      [RollbackReliable]) and an executable connection (Module [RefDb]), and
      every function of SqliteStore (src/sqlite_store.cpp).
    - StoreSpec.v, SchemaSpec.v: SqliteStore against that interface: what each
      operation commits on every path, failures of any statement included, and
      that the schema inspection accepts exactly schema version 3.
    - StoreIface.v, Refinement.v: the contract the rest of the system uses
      ([StoreOps], [StoreLaws]), its implementation by SqliteStore, and an
      abstract durable store which SqliteStore refines.
    - StoreHealth.v: the other half of the contract ([StoreWorks]): on a
      connection without failures every operation succeeds.
    - Statements.v: what sqlite3.h documents about live statements and open
      handles ([HandleSpec]), and that the guards of the store release them.
    - Pipeline.v: the shared state: [Pipeline], [Stats], [WorkerCore], [Impl] and
      [Sys], all of them together (src/internal/pipeline.hpp, stats.hpp,
      worker.hpp and the members of Client::Impl).
    - Admission.v: the critical sections of Client::Impl (src/client.cpp) and the
      step of another thread, [perform].
    - Worker.v, Tokens.v: WorkerCore::run and what it calls (src/worker.cpp), and
      the answers to flush tokens.
    - Wakeup.v: the condition variables: the worker asleep in pop_wait, threads
      asleep in wait_flush and wait_finished, and who wakes them
      (src/event_queue.cpp, src/worker.cpp).
    - Skeleton.v: the worker of Worker.v refines the one of Wakeup.v.
    - Threads.v: the handle of the worker's thread, and who joins it
      (src/worker.cpp, src/client.cpp).
    - Deadlines.v: the arithmetic of the time limits (src/client.cpp).
    - Paths.v: the registry of claimed paths (src/path_registry.cpp).
    - Stdio.v: a C stream over a file, executable: the buffer of the stream, what
      each call hands to the operating system, failures of any call at any byte,
      and the contents a loss of power can leave.
    - FileSink.v: FileSink, the default sink (src/file_sink.cpp), in its POSIX
      build.
    - FileSinkSpec.v, FileSinkLog.v: FileSink against that file: triples for each
      operation, and an append-only log which FileSink refines.
    - Client.v: the public calls, recovery and creation (src/client.cpp).
    - AdmissionSpec.v, Invariant.v, WorkerSpec.v, WorkerRun.v, Guarantees.v: what
      the sections of other threads do ([client_move]), the invariant of the
      whole system and the assertions other threads cannot break, triples for
      every step of the worker, whole runs, and the theorems about them.
    - Accounting.v: the count of outstanding events against what is stored and
      waiting, through every step of the worker and of other threads.
    - Delivery.v: the whole system over a FileSink.
    - Progress.v, FileProgress.v: what the worker, and the worker over a FileSink,
      achieve when nothing fails.
    - ClientSpec.v: contracts of the public calls.
    - Game.v: the example program (examples/simulated_game.cpp), from the first
      launch to the delivery after the restart, evaluated.
    - Findings.v: concrete runs in which the code does not keep a promise of its
      documentation: two interleavings of a new grant with the worker, the longest
      time limits, and three of FileSink.

    ** Concurrency

    The worker is one sequential computation. Before every access to state that
    other threads use there is an interleaving point ([shared], [env]), where the
    schedule, an arbitrary list held in the state, runs any number of steps of
    other threads: tracking, sessions, consent changes, flush submissions,
    closing of admission, stop requests and cancellation of the sink. The
    theorems quantify over the schedule. What is one step:

    - a section under [admission_mutex_] that admits events, starts or ends a
      session, submits a flush or closes admission. Its only effect on the
      worker's side is on the queue, on atomics that the worker reads one at a
      time, and on counters;
    - one access to shared state of a revocation, whose section under
      [admission_mutex_] (consent, generation, queue, counters, retry buffer,
      error slot) the worker can observe half done: [consent_step]; while it
      lasts, sections of other threads wait ([admission]);
    - a section under [store_mutex] of another thread, or of the worker except
      the insertion: [insert_at_boundary] reads the consent, then the generation,
      then inserts, and other threads go on meanwhile with all that does not need
      the store ([storing]).

    ClientSpec.v shows that the steps of set_consent together are the call. In
    these files a wait is over when the computation that happens meanwhile, an
    argument, has run; Wakeup.v is the model of the waits themselves, a step
    relation over any number of client threads in which sleeping, waking, waking
    too early and running out of time are steps. Skeleton.v joins the two: what a
    run of Worker.v does to the queue, the flags and the tokens is a run of
    Wakeup.v.

    The model is sequentially consistent, as the code's atomics are (they use
    the default memory order).

    ** What the theorems show

    - Guarantees.v: beside any schedule and with any failures of the store and
      the sink, nothing revoked stays stored, at most one batch per revocation
      is given to the sink while consent is not granted, no accepted event is
      lost, the loops of the worker end, a flush that answers Ok has settled every event
      accepted before it, no flush waits forever, and what the sink is given is
      what was accepted, as the serializer writes it.
    - Accounting.v: unless consent is granted anew, durable storage stays within
      max_pending_events, and the count that admission checks neither wraps nor
      falls below what is stored, queued or held for retry.
    - FileSinkLog.v: a write appends all its lines or none, the complete lines of
      the file are those of a log through failures, crashes and restarts, the
      search for the last complete line is exact, a failed sink is inert.
    - Delivery.v: with a durable FileSink, an accepted event is still held or has
      its own line in the file, and the file holds nothing else.
    - Progress.v, FileProgress.v: when nothing fails, flush() answers Ok and
      everything stored or waiting was delivered exactly once and in order, and
      is in the file.
    - ClientSpec.v, Tokens.v, Paths.v: admission accepts under exactly its six
      conditions; replacing a session is all or nothing; consent fails closed;
      recovery honours an unfinished revocation; creation claims its path or
      leaves no trace; what is tracked was validated and filtered; shutdown
      never claims more than it did; configuration limits; flush answers are
      exact; a path has one owner.
    - Wakeup.v: no wake-up is lost; a thread that waits for a flush is woken, and
      a worker that was asked to stop ends, by a bounded number of steps of the
      worker, without any time running out.
    - Threads.v, Deadlines.v: the thread is joined exactly once and never by
      itself; the waits of shutdown keep within its limit.
    - StoreSpec.v, SchemaSpec.v, Refinement.v: transactions are atomic,
      acknowledgement and fetching are exact, counts are exact, opening is safe,
      the accepted schema is exactly version 3, and SqliteStore refines the
      abstract store.
    - Statements.v: whichever calls fail, no statement is left unfinalized and
      closing the database succeeds.
    - Skeleton.v: the worker beside any schedule refines the model of sleeping
      and waking.
    - Validator.v, Queue.v, Ids.v, Session.v, Serializer.v: the leaf components
      do what they document.

    ** Bounds and fuel

    [deliver_loop] and [drain_loop] take a bound on their iterations;
    Guarantees.v shows that one more than the stored rows plus six for every
    section of the schedule plus three is enough, whatever happens: an event
    costs three units while it is queued, two in the worker's hands and one when
    stored, and a section admits at most two events. Ordinals are assumed to
    stay below 2^63, which SQLite's integers need; the 64-bit wrap-around is
    written out. [run_loop] is bounded by [rounds], as the loop of the thread is
    meant to run until it is asked to stop. [scan_blocks] gets one block more
    than the size of the file divided by the size of a block, and always ends
    within that. In Wakeup.v the number of rounds a flush pass takes is a
    parameter; Guarantees.v bounds it.

    ** Assumptions about stdio

    The theorems about FileSink hold for a library that is [Dependable]: a
    failed flush drops the bytes it could not write, and opening an existing
    file for update does not fail for a passing reason. Findings.v shows what
    happens without each of them. A call can fail after any part of its bytes
    has reached the file. A loss of power leaves one of the contents the file
    has had since it was last synced, the bytes of a write being added one by
    one; the entry of a new file in its directory is taken to be as durable as
    the file.

    ** Not modelled

    The Windows build of FileSink, the failure of thread creation, the memory
    allocator, the system's clocks (their readings are data), and the libraries
    under third_party. Callbacks are recorded in order; what they do
    is not modelled, except that they may call the client, which is a section of
    the schedule. *)
From Stdlib Require Export Ascii ZArith Lia Sorted.
From stdpp Require Export base strings gmap pretty numbers list.

#[export] Set Warnings "-clear-no-such-hyp,-register-all".

Declare Scope pt_scope.
Delimit Scope pt_scope with pt.

(** * Machine integers

    [std::uint64_t], [std::size_t] (64-bit targets) and [std::int64_t] are
    kept as [Z]; wrap-around is written out where the code can reach it. *)

(** Arithmetic modulo 2^64, as performed on [std::uint64_t]. *)
Definition wrap64 (z : Z) : Z := (z mod 18446744073709551616)%Z.

(** [std::numeric_limits<std::uint64_t>::max()]. *)
Definition uint64_max : Z := 18446744073709551615%Z.

(** [static_cast<std::int64_t>] of a 64-bit pattern (two's complement). *)
Definition to_int64 (z : Z) : Z :=
  ((z + 9223372036854775808) mod 18446744073709551616 - 9223372036854775808)%Z.

(** [std::numeric_limits<int>::max()]. *)
Definition int_max : Z := 2147483647%Z.

(** * Strings as byte sequences *)

(** The unsigned value of one [char]. *)
Definition byte_val (c : Ascii.ascii) : Z := Z.of_N (Ascii.N_of_ascii c).

(** The characters of a [std::string]. *)
Definition chars (s : string) : list Ascii.ascii := String.list_ascii_of_string s.

(** The string made of the given characters. *)
Definition of_chars (l : list Ascii.ascii) : string := String.string_of_list_ascii l.

(** The bytes of a [std::string] as [unsigned char] values. *)
Definition bytes (s : string) : list Z := byte_val <$> chars s.

(** [std::string::size()]. *)
Definition ssize (s : string) : Z := Z.of_nat (String.length s).

(** [std::string::c_str()] as a C function reads it: up to the first NUL. *)
Fixpoint c_str (s : string) : string :=
  match s with
  | String.EmptyString => ""
  | String.String c s' => if Ascii.eqb c Ascii.zero then "" else String.String c (c_str s')
  end.

(** [std::vector<T>::size()]. *)
Definition vsize {A} (l : list A) : Z := Z.of_nat (length l).

(** [std::to_string] on an integer. *)
Definition to_string (z : Z) : string := pretty z.

(** * The state monad used for stateful code *)

(** A computation that reads and writes a state of type [S]. *)
Definition M (S A : Type) : Type := S -> A * S.

(** Return a value and leave the state alone. *)
Definition mreturn {S A} (a : A) : M S A := fun s => (a, s).

(** Sequence two computations. *)
Definition mthen {S A B} (m : M S A) (k : A -> M S B) : M S B :=
  fun s => let '(a, s') := m s in k a s'.

(** Read a projection of the state. *)
Definition mget {S A} (f : S -> A) : M S A := fun s => (f s, s).

(** Apply a state update. *)
Definition mput {S} (f : S -> S) : M S unit := fun s => (tt, f s).

Notation "'let*' x ':=' m 'in' k" := (mthen m (fun x => k))
  (at level 10, x pattern, m at level 99, k at level 200) : pt_scope.

Notation "m ';;' k" := (mthen m (fun _ => k))
  (at level 100, k at level 200, right associativity) : pt_scope.

(** An invariant of the state that a computation preserves. *)
Definition preserves {S A} (I : S -> Prop) (m : M S A) : Prop :=
  forall s, I s -> I (snd (m s)).

(** What a computation establishes from a precondition: a total Hoare triple. *)
Definition hoare {S A} (P : S -> Prop) (m : M S A) (Q : A -> S -> Prop) : Prop :=
  forall s, P s -> Q (fst (m s)) (snd (m s)).

(** * Automation *)

Create HintDb playertrace.

(** Splits the conditionals of the goal and of the context, keeping equations. *)
Ltac split_ifs :=
  repeat match goal with
  | |- context [if ?b then _ else _] => destruct b eqn:?
  | H : context [if ?b then _ else _] |- _ => destruct b eqn:?
  end.

(** Turns boolean comparisons of the context into propositions. *)
Ltac bool_to_prop :=
  repeat match goal with
  | H : (_ && _) = true |- _ => apply andb_true_iff in H; destruct H
  | H : (_ && _) = false |- _ => apply andb_false_iff in H
  | H : (_ || _) = false |- _ => apply orb_false_iff in H; destruct H
  | H : (_ || _) = true |- _ => apply orb_true_iff in H
  | H : negb _ = true |- _ => apply negb_true_iff in H
  | H : negb _ = false |- _ => apply negb_false_iff in H
  | H : (_ =? _)%Z = true |- _ => apply Z.eqb_eq in H
  | H : (_ =? _)%Z = false |- _ => apply Z.eqb_neq in H
  | H : (_ <=? _)%Z = true |- _ => apply Z.leb_le in H
  | H : (_ <=? _)%Z = false |- _ => apply Z.leb_gt in H
  | H : (_ <? _)%Z = true |- _ => apply Z.ltb_lt in H
  | H : (_ <? _)%Z = false |- _ => apply Z.ltb_ge in H
  end.

(** * Shared lemmas *)

Lemma wrap64_small z : (0 <= z < 18446744073709551616)%Z -> wrap64 z = z.
Proof. intros H. apply Z.mod_small, H. Qed.

Lemma wrap64_range z : (0 <= wrap64 z < 18446744073709551616)%Z.
Proof. apply Z.mod_pos_bound. lia. Qed.

Lemma to_int64_small z : (-9223372036854775808 <= z < 9223372036854775808)%Z -> to_int64 z = z.
Proof. intros Hz. unfold to_int64. rewrite Z.mod_small by lia. lia. Qed.

Lemma length_chars s : length (chars s) = String.length s.
Proof. induction s as [|c s IH]; simpl; [done|]. by rewrite IH. Qed.

Lemma chars_of_chars l : chars (of_chars l) = l.
Proof. apply String.list_ascii_of_string_of_list_ascii. Qed.

Lemma of_chars_chars s : of_chars (chars s) = s.
Proof. apply String.string_of_list_ascii_of_string. Qed.

Lemma byte_val_range c : (0 <= byte_val c < 256)%Z.
Proof.
  unfold byte_val. pose proof (Ascii.N_ascii_bounded c). lia.
Qed.

Lemma preserves_return {S A} (I : S -> Prop) (a : A) : preserves I (mreturn a).
Proof. by intros s H. Qed.

Lemma preserves_get {S A} (I : S -> Prop) (f : S -> A) : preserves I (mget f).
Proof. by intros s H. Qed.

Lemma preserves_then {S A B} (I : S -> Prop) (m : M S A) (k : A -> M S B) :
  preserves I m -> (forall a, preserves I (k a)) -> preserves I (mthen m k).
Proof.
  intros Hm Hk s Hs. unfold mthen. specialize (Hm s Hs).
  destruct (m s) as [a s']. by apply Hk.
Qed.

#[export] Hint Resolve preserves_return preserves_get : playertrace.

(** Reading first. *)
Lemma mget_then {S A B} (f : S -> A) (k : A -> M S B) s : mthen (mget f) k s = k (f s) s.
Proof. done. Qed.

Lemma hoare_return {S A} (P : S -> Prop) (a : A) (Q : A -> S -> Prop) :
  (forall s, P s -> Q a s) -> hoare P (mreturn a) Q.
Proof. intros H s Hs. by apply H. Qed.

Lemma hoare_get {S A} (P : S -> Prop) (f : S -> A) (Q : A -> S -> Prop) :
  (forall s, P s -> Q (f s) s) -> hoare P (mget f) Q.
Proof. intros H s Hs. by apply H. Qed.

Lemma hoare_put {S} (P : S -> Prop) (f : S -> S) (Q : unit -> S -> Prop) :
  (forall s, P s -> Q tt (f s)) -> hoare P (mput f) Q.
Proof. intros H s Hs. by apply H. Qed.

Lemma hoare_then {S A B} (P : S -> Prop) (R : A -> S -> Prop) (Q : B -> S -> Prop)
    (m : M S A) (k : A -> M S B) :
  hoare P m R -> (forall a, hoare (R a) (k a) Q) -> hoare P (mthen m k) Q.
Proof.
  intros Hm Hk s Hs. unfold mthen. specialize (Hm s Hs).
  destruct (m s) as [a s']. by apply Hk.
Qed.

Lemma hoare_conseq {S A} (P P' : S -> Prop) (Q Q' : A -> S -> Prop) (m : M S A) :
  hoare P' m Q' -> (forall s, P s -> P' s) -> (forall a s, Q' a s -> Q a s) -> hoare P m Q.
Proof. intros Hm HP HQ s Hs. apply HQ, Hm, HP, Hs. Qed.

Lemma hoare_pre {S A} (P P' : S -> Prop) (Q : A -> S -> Prop) (m : M S A) :
  hoare P' m Q -> (forall s, P s -> P' s) -> hoare P m Q.
Proof. intros Hm HP s Hs. apply Hm, HP, Hs. Qed.

(** Triples whose precondition is impossible, has a witness or carries a fact. *)
Lemma hoare_false {S A} (m : M S A) Q : hoare (fun _ => False) m Q.
Proof. by intros s []. Qed.

Lemma hoare_exists {S A X} (P : X -> S -> Prop) (m : M S A) Q :
  (forall x, hoare (P x) m Q) -> hoare (fun s => exists x, P x s) m Q.
Proof. intros Hx s [x Hs]. by apply (Hx x). Qed.

Lemma hoare_fact {S A} (P : S -> Prop) (F : Prop) (m : M S A) Q :
  (F -> hoare P m Q) -> hoare (fun s => P s /\ F) m Q.
Proof. intros HF s [Hs Hf]. by apply HF. Qed.

Lemma hoare_given {S A} (F : Prop) (P : S -> Prop) (m : M S A) Q :
  (F -> hoare P m Q) -> hoare (fun s => F /\ P s) m Q.
Proof. intros HF s [Hf Hs]. by apply HF. Qed.

(** Two triples for the same computation. *)
Lemma hoare_conj {S A} (P P' : S -> Prop) (Q Q' : A -> S -> Prop) (m : M S A) :
  hoare P m Q -> hoare P' m Q' -> hoare (fun s => P s /\ P' s) m (fun a s => Q a s /\ Q' a s).
Proof. intros H H' s [Hs Hs']. split; [by apply H|by apply H']. Qed.

(** Reading the state, then going on with what was read. *)
Lemma hoare_read {S A B} (P : S -> Prop) (f : S -> A) (k : A -> M S B) Q :
  (forall x, hoare (fun s => P s /\ f s = x) (k x) Q) -> hoare P (mthen (mget f) k) Q.
Proof. intros Hk s Hs. rewrite mget_then. by apply (Hk (f s) s). Qed.

(** A decidable property of bytes can be checked by enumeration. *)
Lemma byte_check (P : Z -> Prop) `{forall c, Decision (P c)} c :
  forallb (fun c => bool_decide (P c)) (seqZ 0 256) = true -> (0 <= c < 256)%Z -> P c.
Proof.
  intros Hall Hc. rewrite forallb_forall in Hall.
  apply (bool_decide_eq_true_1 (P c)), Hall.
  apply list_elem_of_In, elem_of_seqZ. lia.
Qed.

(** Proves a goal about the byte [c] by running it on the 256 bytes. *)
Ltac by_byte_enumeration c :=
  pattern c; apply (byte_check _ c); [vm_compute; reflexivity | assumption].

(** Bit operations on disjoint ranges are additions. *)
Lemma lor_shiftl_add a b n :
  (0 <= n)%Z -> (0 <= b < 2 ^ n)%Z -> Z.lor (Z.shiftl a n) b = (a * 2 ^ n + b)%Z.
Proof.
  intros Hn Hb. rewrite <- Z.shiftl_mul_pow2 by done.
  rewrite <- Z.add_lor_land.
  assert (Z.land (Z.shiftl a n) b = 0%Z) as ->; [|by rewrite Z.add_0_r].
  apply Z.bits_inj'. intros k Hk. rewrite Z.land_spec, Z.bits_0.
  destruct (Z.ltb_spec k n).
  - rewrite Z.shiftl_spec_low by lia. done.
  - destruct (Z.eq_dec b 0%Z) as [->|]; [by rewrite Z.bits_0, andb_false_r|].
    rewrite (Z.bits_above_log2 b k); [by rewrite andb_false_r|lia|].
    apply Z.log2_lt_pow2; [lia|].
    eapply Z.lt_le_trans; [apply Hb|]. apply Z.pow_le_mono_r; lia.
Qed.

Lemma nth_drop_cons {A} (d : A) (l : list A) i :
  (i < length l)%nat -> drop i l = nth i l d :: drop (S i) l.
Proof.
  revert i. induction l as [|x l IH]; intros i Hi; simpl in *; [lia|].
  destruct i as [|i]; [done|]. simpl. apply IH. lia.
Qed.

Lemma nth_add_drop {A} (d : A) (l : list A) i k : nth (i + k) l d = nth k (drop i l) d.
Proof.
  revert l. induction i as [|i IH]; intros l; [done|].
  destruct l as [|x l]; simpl; [by destruct k|]. apply IH.
Qed.

Lemma vsize_nonneg {A} (l : list A) : (0 <= vsize l)%Z.
Proof. unfold vsize. lia. Qed.

Lemma vsize_app {A} (l k : list A) : vsize (l ++ k) = (vsize l + vsize k)%Z.
Proof. unfold vsize. rewrite length_app. lia. Qed.

Lemma vsize_cons {A} (x : A) (l : list A) : vsize (x :: l) = (1 + vsize l)%Z.
Proof. unfold vsize. simpl. lia. Qed.

Lemma vsize_nil {A} : vsize (@nil A) = 0%Z.
Proof. done. Qed.

Create Rewrite HintDb vsize.
#[export] Hint Rewrite @vsize_app @vsize_cons @vsize_nil : vsize.

(** Checks a boolean property on [n] consecutive integers from [lo]. *)
Definition range_check (P : Z -> bool) (lo : Z) (n : positive) : bool * Z :=
  Pos.iter (fun bi => (fst bi && P (snd bi), (snd bi + 1)%Z)) (true, lo) n.

Lemma range_check_sound P lo n i :
  fst (range_check P lo n) = true -> (lo <= i < lo + Z.pos n)%Z -> P i = true.
Proof.
  assert (snd (range_check P lo n) = (lo + Z.pos n)%Z /\
          (fst (range_check P lo n) = true ->
           forall j, (lo <= j < lo + Z.pos n)%Z -> P j = true)) as [_ H]; [|by eauto].
  unfold range_check. induction n as [|n [IH1 IH2]] using Pos.peano_ind.
  - cbn [Pos.iter fst snd]. split; [lia|]. intros H j Hj. bool_to_prop.
    by replace j with lo by lia.
  - rewrite Pos.iter_succ. cbn [fst snd]. rewrite IH1. split; [lia|]. intros H j Hj.
    apply andb_true_iff in H as [Ha Hb].
    destruct (Z.eq_dec j (lo + Z.pos n)%Z) as [->|]; [done|]. apply IH2; [done|lia].
Qed.

(** What is in front of a known suffix. *)
Lemma take_before_suffix {A} (l pre rest : list A) :
  l = pre ++ rest -> take (length l - length rest) l ++ rest = l.
Proof. intros ->. by rewrite length_app, Nat.add_sub, take_app_length. Qed.
