(* ===== verification/Types.v ===== *)
(** Value types of the public API.

    Status and error codes (include/playertrace/result.hpp), consent and log
    levels (consent.hpp, logger.hpp), property values and events (event.hpp),
    the event builder (event_builder.hpp), the sink payload (sink.hpp), the
    configuration (config.hpp), and the enum-to-string functions of
    src/event.cpp. *)
From Stdlib Require Import SpecFloat.
From S2P Require Import Prelude.

Local Open Scope Z_scope.

(** * Status *)

(** [enum class ErrorCode]. *)
Inductive ErrorCode : Type :=
| Ok
| InvalidConfig
| InvalidEventName
| InvalidProperty
| ReservedKey
| ValueTooLarge
| TooManyProperties
| DuplicateKey
| QueueFull
| StorageFull
| ConsentDenied
| NotStarted
| AlreadyShutdown
| StorageError
| SinkError
| Timeout
| Internal.

#[export] Instance ErrorCode_eq_dec : EqDecision ErrorCode.
Proof. solve_decision. Defined.

(** [class Status]: a code and a message. *)
Record Status : Type := mkStatus { code : ErrorCode; message : string }.

#[export] Instance Status_eq_dec : EqDecision Status.
Proof. solve_decision. Defined.

(** The default constructor [Status()]. *)
Definition status_ok : Status := mkStatus Ok "".

(** [Status::ok()]. *)
Definition ok (s : Status) : bool := bool_decide (code s = Ok).

(** [class Result<T>]: a status, a value slot and the presence flag. *)
Record Result (T : Type) : Type := mkResult {
  res_status : Status;
  res_value : option T;   (* [None] is the value-initialized slot *)
  has_value : bool
}.
Arguments mkResult {T} _ _ _.
Arguments res_status {T} _.
Arguments res_value {T} _.
Arguments has_value {T} _.

(** [Result(T value)]. *)
Definition result_of_value {T} (v : T) : Result T := mkResult status_ok (Some v) true.

(** [Result(Status status)]. *)
Definition result_of_status {T} (s : Status) : Result T := mkResult s None false.

(** [Result::ok()]. *)
Definition result_ok {T} (r : Result T) : bool := ok (res_status r) && has_value r.

(** [to_string(ErrorCode)]. *)
Definition to_string_ErrorCode (c : ErrorCode) : string :=
  match c with
  | Ok => "Ok"
  | InvalidConfig => "InvalidConfig"
  | InvalidEventName => "InvalidEventName"
  | InvalidProperty => "InvalidProperty"
  | ReservedKey => "ReservedKey"
  | ValueTooLarge => "ValueTooLarge"
  | TooManyProperties => "TooManyProperties"
  | DuplicateKey => "DuplicateKey"
  | QueueFull => "QueueFull"
  | StorageFull => "StorageFull"
  | ConsentDenied => "ConsentDenied"
  | NotStarted => "NotStarted"
  | AlreadyShutdown => "AlreadyShutdown"
  | StorageError => "StorageError"
  | SinkError => "SinkError"
  | Timeout => "Timeout"
  | Internal => "Internal"
  end.

(** * Consent and log levels *)

(** [enum class ConsentState]. *)
Inductive ConsentState : Type := Unknown | Denied | Granted.

#[export] Instance ConsentState_eq_dec : EqDecision ConsentState.
Proof. solve_decision. Defined.

(** [to_string(ConsentState)]. *)
Definition to_string_ConsentState (s : ConsentState) : string :=
  match s with
  | Unknown => "Unknown"
  | Denied => "Denied"
  | Granted => "Granted"
  end.

(** [enum class LogLevel]. *)
Inductive LogLevel : Type := Debug | Info | Warn | Error.

#[export] Instance LogLevel_eq_dec : EqDecision LogLevel.
Proof. solve_decision. Defined.

(** [to_string(LogLevel)]. *)
Definition to_string_LogLevel (l : LogLevel) : string :=
  match l with
  | Debug => "Debug"
  | Info => "Info"
  | Warn => "Warn"
  | Error => "Error"
  end.

(** [version()]. *)
Definition version : string := "0.1.0".

(** * Doubles

    IEEE-754 binary64, in the Standard Library's specification format. *)

Definition double : Type := spec_float.
Definition dprec : Z := 53.
Definition demax : Z := 1024.

(** [static_cast<double>] of an [std::int64_t]: rounded to nearest even. *)
Definition double_of_int (z : Z) : double := binary_normalize dprec demax z 0 false.

(** The division [a / b] on doubles. *)
Definition double_div (a b : double) : double := SFdiv dprec demax a b.

(** [std::isfinite]. *)
Definition isfinite (d : double) : bool :=
  match d with
  | S754_zero _ => true
  | S754_infinity _ => false
  | S754_nan => false
  | S754_finite _ _ _ => true
  end.

(** * Properties and events *)

(** [class PropertyValue]: exactly one of the four supported types. *)
Inductive PropertyValue : Type :=
| PVBool (b : bool)
| PVInt (z : Z)
| PVDouble (d : double)
| PVString (s : string).

(** The constructor from a C string: a null pointer is stored as "". *)
Definition PropertyValue_of_cstr (s : option string) : PropertyValue :=
  PVString (match s with Some t => t | None => "" end).

(** [using Property = std::pair<std::string, PropertyValue>]. *)
Definition Property : Type := string * PropertyValue.

(** [using Properties = std::vector<Property>]. *)
Definition Properties : Type := list Property.

(** [kEventSchemaVersion]. *)
Definition kEventSchemaVersion : Z := 1.

(** [struct Event]. *)
Record Event : Type := mkEvent {
  event_id : string;
  app_id : string;
  name : string;
  schema_version : Z;
  timestamp_ms : Z;
  session_id : string;
  player_id : string;
  sequence : Z;
  properties : Properties
}.

(** [class EventBuilder]. *)
Record EventBuilder : Type := mkEventBuilder {
  builder_name : string;
  builder_properties : Properties
}.

(** [EventBuilder(std::string)]. *)
Definition event_builder (n : string) : EventBuilder := mkEventBuilder n [].

(** [EventBuilder::set]: appends, keeping insertion order. *)
Definition builder_set (b : EventBuilder) (k : string) (v : PropertyValue) : EventBuilder :=
  mkEventBuilder (builder_name b) (builder_properties b ++ [(k, v)]).

(** * Sink payload *)

(** [struct SerializedEvent]. *)
Record SerializedEvent : Type := mkSerialized { se_event_id : string; se_json : string }.

#[export] Instance SerializedEvent_eq_dec : EqDecision SerializedEvent.
Proof. solve_decision. Defined.

(** [struct EventBatch]. *)
Definition EventBatch : Type := list SerializedEvent.

(** * Configuration *)

(** What a user callback does when it is called: it returns or it throws. *)
Inductive callback_result (A : Type) : Type :=
| Returns (a : A)
| Throws.
Arguments Returns {A} _.
Arguments Throws {A}.

(** [using PropertyFilter]: the callback that keeps or drops a property. *)
Definition PropertyFilter : Type := string -> PropertyValue -> callback_result bool.

(** [struct Config]. The sink and the log and error callbacks are supplied by
    the application; the record keeps whether they are installed. *)
Record Config : Type := mkConfig {
  cfg_app_id : string;
  cfg_storage_path : string;
  cfg_consent : ConsentState;
  cfg_sink : bool;                 (* [sink != nullptr] *)
  cfg_max_queue_size : Z;
  cfg_batch_size : Z;
  cfg_batch_interval : Z;          (* milliseconds *)
  cfg_max_pending_events : Z;
  cfg_max_name_length : Z;
  cfg_max_properties : Z;
  cfg_max_string_length : Z;
  cfg_max_player_id_length : Z;
  cfg_log_callback : bool;
  cfg_error_callback : bool;
  cfg_property_filter : option PropertyFilter
}.

(** The member initializers of [struct Config]. *)
Definition default_config : Config :=
  mkConfig "" "" Unknown false 10000 100 1000 100000 64 64 1024 128 false false None.

(** * Lemmas *)

Lemma ok_true s : ok s = true <-> code s = Ok.
Proof. unfold ok. apply bool_decide_eq_true. Qed.

Lemma ok_false s : ok s = false <-> code s <> Ok.
Proof. unfold ok. apply bool_decide_eq_false. Qed.

Lemma ok_status_ok : ok status_ok = true.
Proof. done. Qed.

Lemma to_string_ErrorCode_inj c1 c2 :
  to_string_ErrorCode c1 = to_string_ErrorCode c2 -> c1 = c2.
Proof. by destruct c1, c2. Qed.

#[export] Hint Resolve ok_status_ok : playertrace.
