(* ===== verification/Validator.v ===== *)
(** The event validator: src/event_validator.cpp and
    src/internal/event_validator.hpp.

    Pure validation of event names, property keys and values and player
    identifiers. The UTF-8 check is the byte loop of the source (index [i],
    lead-byte masks, continuation bytes folded into a code point); it is
    related below to the encoding table of RFC 3629. *)
From S2P Require Import Prelude Types.

Local Open Scope Z_scope.

(** * Definitions *)

(** [class EventValidator]: the four limits. *)
Record EventValidator : Type := mkValidator {
  max_name_length_ : Z;
  max_properties_ : Z;
  max_string_length_ : Z;
  max_player_id_length_ : Z
}.

(** [is_first_char]. *)
Definition is_first_char (c : Ascii.ascii) : bool :=
  let v := byte_val c in
  ((65 <=? v) && (v <=? 90)) || ((97 <=? v) && (v <=? 122)) || (v =? 95).

(** [is_rest_char]. *)
Definition is_rest_char (c : Ascii.ascii) : bool :=
  let v := byte_val c in
  is_first_char c || ((48 <=? v) && (v <=? 57)) || (v =? 46) || (v =? 45).

(** The lead-byte dispatch of [is_valid_utf8]: the number of continuation
    bytes and the payload bits of the lead byte. *)
Definition utf8_lead (c : Z) : option (nat * Z) :=
  if Z.land c 0xE0 =? 0xC0 then Some (1%nat, Z.land c 0x1F)
  else if Z.land c 0xF0 =? 0xE0 then Some (2%nat, Z.land c 0x0F)
  else if Z.land c 0xF8 =? 0xF0 then Some (3%nat, Z.land c 0x07)
  else None.

(** The inner [for] loop: folds [extra] continuation bytes, starting at
    [p[i + k]], into the code point. [cp] stays below 2^21, so the
    [std::uint32_t] shift never overflows. *)
Fixpoint utf8_cont (p : list Z) (i k extra : nat) (cp : Z) : option Z :=
  match extra with
  | O => Some cp
  | S extra' =>
      let cc := nth (i + k) p 0 in
      if negb (Z.land cc 0xC0 =? 0x80) then None
      else utf8_cont p i (S k) extra' (Z.lor (Z.shiftl cp 6) (Z.land cc 0x3F))
  end.

(** One iteration of the [while] loop at index [i]: the next index, or [None]
    for [return false]. *)
Definition utf8_step (p : list Z) (n i : nat) : option nat :=
  let c := nth i p 0 in
  if c <? 0x80 then Some (i + 1)%nat
  else
    match utf8_lead c with
    | None => None
    | Some (extra, cp0) =>
        if (n <=? i + extra)%nat then None
        else
          match utf8_cont p i 1 extra cp0 with
          | None => None
          | Some cp =>
              if (extra =? 1)%nat && (cp <? 0x80) then None
              else if (extra =? 2)%nat && (cp <? 0x800) then None
              else if (extra =? 3)%nat && (cp <? 0x10000) then None
              else if 0x10FFFF <? cp then None
              else if (0xD800 <=? cp) && (cp <=? 0xDFFF) then None
              else Some (i + (extra + 1))%nat
          end
    end.

(** The [while (i < n)] loop; [None] when the fuel runs out. *)
Fixpoint utf8_loop (fuel : nat) (p : list Z) (n i : nat) : option bool :=
  if (n <=? i)%nat then Some true
  else
    match fuel with
    | O => None
    | S fuel' =>
        match utf8_step p n i with
        | None => Some false
        | Some j => utf8_loop fuel' p n j
        end
    end.

(** [EventValidator::is_valid_utf8]. Every iteration advances [i], so [n]
    iterations are enough (lemma [utf8_loop_total]). *)
Definition is_valid_utf8 (text : string) : bool :=
  let p := bytes text in
  default false (utf8_loop (length p) p (length p) 0).

(** [kReserved]: the reserved top-level field names. *)
Definition kReserved : list string :=
  ["event_id"; "app_id"; "name"; "schema_version"; "timestamp"; "timestamp_ms";
   "session_id"; "player_id"; "seq"; "properties"].

(** [EventValidator::is_reserved_key]. *)
Definition is_reserved_key (key : string) : bool :=
  if bool_decide (key ∈ kReserved) then true
  else String.prefix "pt_" key.

(** [EventValidator::validate_identifier]. *)
Definition validate_identifier (v : EventValidator) (id : string) (bad_code : ErrorCode)
    : Status :=
  match chars id with
  | [] => mkStatus bad_code "identifier must not be empty"
  | front :: _ =>
      if max_name_length_ v <? ssize id then
        mkStatus bad_code ("identifier '" +:+ id +:+ "' exceeds max length of " +:+
                           to_string (max_name_length_ v))
      else if negb (is_first_char front) then
        mkStatus bad_code ("identifier '" +:+ id +:+
                           "' must start with a letter or underscore")
      else if negb (forallb is_rest_char (chars id)) then
        mkStatus bad_code ("identifier '" +:+ id +:+ "' contains an invalid character")
      else status_ok
  end.

(** [EventValidator::validate_name]. *)
Definition validate_name (v : EventValidator) (n : string) : Status :=
  validate_identifier v n InvalidEventName.

(** [EventValidator::validate_player_id]. *)
Definition validate_player_id (v : EventValidator) (player_id : string) : Status :=
  if bool_decide (player_id = "") then status_ok
  else if max_player_id_length_ v <? ssize player_id then
    mkStatus ValueTooLarge ("player_id exceeds max length of " +:+
                            to_string (max_player_id_length_ v) +:+ " bytes")
  else if negb (is_valid_utf8 player_id) then
    mkStatus InvalidProperty "player_id is not well-formed UTF-8"
  else status_ok.

(** The [switch (value.type())] of [validate_properties]. *)
Definition validate_value (v : EventValidator) (key : string) (value : PropertyValue)
    : Status :=
  match value with
  | PVString s =>
      if max_string_length_ v <? ssize s then
        mkStatus ValueTooLarge ("string value for '" +:+ key +:+
                                "' exceeds max length of " +:+
                                to_string (max_string_length_ v))
      else if negb (is_valid_utf8 s) then
        mkStatus InvalidProperty ("string value for '" +:+ key +:+
                                  "' is not well-formed UTF-8")
      else status_ok
  | PVDouble d =>
      if negb (isfinite d) then
        mkStatus InvalidProperty ("double value for '" +:+ key +:+ "' must be finite")
      else status_ok
  | PVBool _ | PVInt _ => status_ok
  end.

(** The [for] loop of [validate_properties]; [seen] is the set of keys met. *)
Fixpoint validate_properties_loop (v : EventValidator) (seen : gset string)
    (props : Properties) : Status :=
  match props with
  | [] => status_ok
  | (key, value) :: rest =>
      let name_status := validate_identifier v key InvalidProperty in
      if negb (ok name_status) then name_status
      else if is_reserved_key key then
        mkStatus ReservedKey ("property key '" +:+ key +:+ "' is reserved")
      else if bool_decide (key ∈ seen) then
        mkStatus DuplicateKey ("duplicate property key '" +:+ key +:+ "'")
      else
        let value_status := validate_value v key value in
        if negb (ok value_status) then value_status
        else validate_properties_loop v ({[key]} ∪ seen) rest
  end.

(** [EventValidator::validate_properties]. *)
Definition validate_properties (v : EventValidator) (props : Properties) : Status :=
  if max_properties_ v <? vsize props then
    mkStatus TooManyProperties ("event has " +:+ to_string (vsize props) +:+
                                " properties; max is " +:+
                                to_string (max_properties_ v))
  else validate_properties_loop v ∅ props.

(** ** Reference definitions *)

(** A Unicode scalar value: a code point that is not a surrogate half. *)
Definition scalar_value (cp : Z) : Prop :=
  0 <= cp < 0xD800 \/ 0xE000 <= cp <= 0x10FFFF.

(** The UTF-8 encoding of a scalar value (RFC 3629, section 3). *)
Definition utf8_encode (cp : Z) : list Z :=
  if cp <? 0x80 then [cp]
  else if cp <? 0x800 then [0xC0 + cp / 64; 0x80 + cp mod 64]
  else if cp <? 0x10000 then
    [0xE0 + cp / 4096; 0x80 + cp / 64 mod 64; 0x80 + cp mod 64]
  else
    [0xF0 + cp / 262144; 0x80 + cp / 4096 mod 64; 0x80 + cp / 64 mod 64;
     0x80 + cp mod 64].

(** Well-formed UTF-8: the concatenated encodings of scalar values. *)
Definition utf8_well_formed (text : string) : Prop :=
  exists cps, Forall scalar_value cps /\ bytes text = concat (utf8_encode <$> cps).

(** An identifier the documentation allows: [A-Za-z_][A-Za-z0-9_.-]*, at most
    [max] bytes. *)
Definition identifier_allowed (max : Z) (id : string) : Prop :=
  exists front rest,
    chars id = front :: rest /\ is_first_char front = true /\
    Forall (fun c => is_rest_char c = true) rest /\ ssize id <= max.

(** A value the schema allows under the limits [v]. *)
Definition value_allowed (v : EventValidator) (value : PropertyValue) : Prop :=
  match value with
  | PVString s => ssize s <= max_string_length_ v /\ utf8_well_formed s
  | PVDouble d => isfinite d = true
  | PVBool _ | PVInt _ => True
  end.

(** A reserved key: a top-level field name or the SDK prefix. *)
Definition key_reserved (key : string) : Prop :=
  key ∈ kReserved \/ exists rest, key = "pt_" +:+ rest.

(** A property the schema allows, taken alone. *)
Definition property_allowed (v : EventValidator) (kv : Property) : Prop :=
  identifier_allowed (max_name_length_ v) (fst kv) /\
  ~ key_reserved (fst kv) /\ value_allowed v (snd kv).

(** The reason for which a value is refused, with its error code. *)
Definition value_fault (v : EventValidator) (value : PropertyValue) (c : ErrorCode) : Prop :=
  match value with
  | PVString s =>
      (max_string_length_ v < ssize s /\ c = ValueTooLarge) \/
      (ssize s <= max_string_length_ v /\ ~ utf8_well_formed s /\ c = InvalidProperty)
  | PVDouble d => isfinite d = false /\ c = InvalidProperty
  | PVBool _ | PVInt _ => False
  end.

(** The reason for which the property [(key, value)] is refused after the keys
    [before], with its error code: the checks in the order of the source. *)
Inductive property_fault (v : EventValidator) (before : list string)
    (key : string) (value : PropertyValue) : ErrorCode -> Prop :=
| fault_identifier :
    ~ identifier_allowed (max_name_length_ v) key ->
    property_fault v before key value InvalidProperty
| fault_reserved :
    identifier_allowed (max_name_length_ v) key -> key_reserved key ->
    property_fault v before key value ReservedKey
| fault_duplicate :
    identifier_allowed (max_name_length_ v) key -> ~ key_reserved key ->
    key ∈ before -> property_fault v before key value DuplicateKey
| fault_value c :
    identifier_allowed (max_name_length_ v) key -> ~ key_reserved key ->
    key ∉ before -> value_fault v value c -> property_fault v before key value c.

(** * Lemmas: the UTF-8 loop *)

Lemma bytes_range text : Forall (fun c => 0 <= c < 256) (bytes text).
Proof. apply Forall_fmap, Forall_true. intros c. apply byte_val_range. Qed.

Lemma nth_byte_range (p : list Z) i :
  Forall (fun c => 0 <= c < 256) p -> (i < length p)%nat -> 0 <= nth i p 0 < 256.
Proof. intros Hp Hi. eapply List.Forall_forall in Hp; [exact Hp|]. apply nth_In, Hi. Qed.

(** What the lead-byte masks say of a byte, by enumeration. *)
Lemma utf8_lead_spec c :
  0 <= c < 256 ->
  utf8_lead c =
    if (192 <=? c) && (c <? 224) then Some (1%nat, c - 192)
    else if (224 <=? c) && (c <? 240) then Some (2%nat, c - 224)
    else if (240 <=? c) && (c <? 248) then Some (3%nat, c - 240)
    else None.
Proof.
  intros Hc. by_byte_enumeration c.
Qed.

Lemma cont_mask_spec c :
  0 <= c < 256 -> (Z.land c 0xC0 =? 0x80) = (128 <=? c) && (c <? 192).
Proof.
  intros Hc. by_byte_enumeration c.
Qed.

Lemma cont_bits_spec c : 128 <= c < 192 -> Z.land c 0x3F = c - 128.
Proof.
  intros Hc. change 0x3F with (Z.ones 6). rewrite Z.land_ones by lia.
  symmetry. apply (Z.mod_unique_pos c (2 ^ 6) 2); lia.
Qed.

(** One continuation byte folds into the code point, or rejects. *)
Lemma utf8_cont_S p i k extra cp :
  Forall (fun c => 0 <= c < 256) p -> (i + k < length p)%nat ->
  utf8_cont p i k (S extra) cp =
    let cc := nth (i + k) p 0 in
    if (128 <=? cc) && (cc <? 192)
    then utf8_cont p i (S k) extra (cp * 64 + (cc - 128)) else None.
Proof.
  intros Hp Hlt. cbn [utf8_cont].
  pose proof (nth_byte_range p (i + k) Hp Hlt) as Hcc.
  rewrite cont_mask_spec by done. cbv zeta.
  destruct (_ && _) eqn:E; simpl; [|done]. bool_to_prop.
  rewrite lor_shiftl_add by (rewrite ?cont_bits_spec; lia).
  by rewrite cont_bits_spec by lia.
Qed.

(** The arithmetic that recovers the encoded bytes from a code point. *)
Lemma utf8_encode_2 a b :
  0xC0 <= a < 0xE0 -> 0x80 <= b < 0xC0 -> 0x80 <= (a - 0xC0) * 64 + (b - 0x80) ->
  utf8_encode ((a - 0xC0) * 64 + (b - 0x80)) = [a; b].
Proof.
  intros. unfold utf8_encode.
  destruct (Z.ltb_spec ((a - 0xC0) * 64 + (b - 0x80)) 0x80); [lia|].
  destruct (Z.ltb_spec ((a - 0xC0) * 64 + (b - 0x80)) 0x800); [|lia].
  f_equal; [|f_equal]; Z.to_euclidean_division_equations; lia.
Qed.

Lemma utf8_encode_3 a b c :
  0xE0 <= a < 0xF0 -> 0x80 <= b < 0xC0 -> 0x80 <= c < 0xC0 ->
  0x800 <= ((a - 0xE0) * 64 + (b - 0x80)) * 64 + (c - 0x80) ->
  utf8_encode (((a - 0xE0) * 64 + (b - 0x80)) * 64 + (c - 0x80)) = [a; b; c].
Proof.
  intros. set (cp := ((a - 0xE0) * 64 + (b - 0x80)) * 64 + (c - 0x80)) in *.
  unfold utf8_encode.
  destruct (Z.ltb_spec cp 0x80); [lia|]. destruct (Z.ltb_spec cp 0x800); [lia|].
  destruct (Z.ltb_spec cp 0x10000); [|lia].
  repeat f_equal; subst cp; Z.to_euclidean_division_equations; lia.
Qed.

Lemma utf8_encode_4 a b c d :
  0xF0 <= a < 0xF8 -> 0x80 <= b < 0xC0 -> 0x80 <= c < 0xC0 -> 0x80 <= d < 0xC0 ->
  0x10000 <= (((a - 0xF0) * 64 + (b - 0x80)) * 64 + (c - 0x80)) * 64 + (d - 0x80) ->
  utf8_encode ((((a - 0xF0) * 64 + (b - 0x80)) * 64 + (c - 0x80)) * 64 + (d - 0x80))
  = [a; b; c; d].
Proof.
  intros. set (cp := (((a - 0xF0) * 64 + (b - 0x80)) * 64 + (c - 0x80)) * 64 + (d - 0x80)) in *.
  unfold utf8_encode.
  destruct (Z.ltb_spec cp 0x80); [lia|]. destruct (Z.ltb_spec cp 0x800); [lia|].
  destruct (Z.ltb_spec cp 0x10000); [lia|].
  repeat f_equal; subst cp; Z.to_euclidean_division_equations; lia.
Qed.

(** Runs the continuation loop and keeps the accepting branch. *)
Ltac utf8_folds :=
  repeat (rewrite utf8_cont_S by (assumption || lia); cbv zeta;
          match goal with
          | |- context [if (128 <=? ?x) && (?x <? 192) then _ else _] =>
              destruct ((128 <=? x) && (x <? 192)) eqn:?; [|done]
          end);
  cbn [utf8_cont Nat.eqb andb]; split_ifs; try done; bool_to_prop.

(** Runs one iteration on the bytes [Hnth] gives, taking the accepting branch. *)
Ltac utf8_accepts Hnth :=
  match goal with |- context [?c <? 128] => destruct (Z.ltb_spec c 128);
    [Z.to_euclidean_division_equations; lia|] end;
  rewrite utf8_lead_spec by (Z.to_euclidean_division_equations; lia);
  repeat match goal with
  | |- context [if (?a <=? ?c) && (?c <? ?b) then Some _ else _] =>
      destruct (Z.leb_spec a c); destruct (Z.ltb_spec c b); cbn [andb];
      try (Z.to_euclidean_division_equations; lia)
  end;
  match goal with |- context [(length ?p <=? ?k)%nat] =>
    destruct (Nat.leb_spec (length p) k); [lia|] end;
  repeat (rewrite utf8_cont_S by (assumption || lia); cbv zeta;
          rewrite Hnth; cbn [nth];
          match goal with
          | |- context [if (128 <=? ?x) && (?x <? 192) then _ else _] =>
              destruct (Z.leb_spec 128 x), (Z.ltb_spec x 192); cbn [andb];
              try (Z.to_euclidean_division_equations; lia)
          end);
  cbn [utf8_cont Nat.eqb andb]; split_ifs; bool_to_prop;
  try (exfalso; Z.to_euclidean_division_equations; lia); f_equal; lia.

Section Utf8Step.
Context (p : list Z) (Hp : Forall (fun c => 0 <= c < 256) p).

(** An accepted iteration consumed exactly one encoded scalar value. *)
Lemma utf8_step_sound i j :
  (i < length p)%nat -> utf8_step p (length p) i = Some j ->
  exists cp, scalar_value cp /\ drop i p = utf8_encode cp ++ drop j p /\ (i < j)%nat.
Proof.
  intros Hi. pose proof (nth_byte_range p i Hp Hi) as Hc. unfold utf8_step, scalar_value.
  destruct (Z.ltb_spec (nth i p 0) 0x80) as [Hlt|Hge].
  { intros [= <-]. exists (nth i p 0). unfold utf8_encode.
    destruct (Z.ltb_spec (nth i p 0) 0x80); [|lia].
    rewrite Nat.add_1_r, (nth_drop_cons 0) by done. split_and!; [lia|done|lia]. }
  rewrite utf8_lead_spec by done.
  set (c := nth i p 0) in *.
  destruct ((192 <=? c) && (c <? 224)) eqn:E1;
    [|destruct ((224 <=? c) && (c <? 240)) eqn:E2;
    [|destruct ((240 <=? c) && (c <? 248)) eqn:E3; [|done]]];
    (match goal with |- context [(length p <=? ?k)%nat] =>
       destruct (Nat.leb_spec (length p) k) as [|Hlen] end; [done|]).
  - utf8_folds. intros [= <-]. exists ((c - 192) * 64 + (nth (i + 1) p 0 - 128)).
    rewrite utf8_encode_2, !(nth_drop_cons 0 p) by lia. split_and!; [lia| |lia].
    simpl. repeat (f_equal; try lia).
  - utf8_folds. intros [= <-].
    exists (((c - 224) * 64 + (nth (i + 1) p 0 - 128)) * 64 + (nth (i + 2) p 0 - 128)).
    rewrite utf8_encode_3, !(nth_drop_cons 0 p) by lia. split_and!; [lia| |lia].
    simpl. repeat (f_equal; try lia).
  - utf8_folds. intros [= <-].
    exists ((((c - 240) * 64 + (nth (i + 1) p 0 - 128)) * 64 + (nth (i + 2) p 0 - 128)) * 64
            + (nth (i + 3) p 0 - 128)).
    rewrite utf8_encode_4, !(nth_drop_cons 0 p) by lia. split_and!; [lia| |lia].
    simpl. repeat (f_equal; try lia).
Qed.

(** An encoded scalar value at [i] is accepted, and skipped as a whole. *)
Lemma utf8_step_complete i cp rest :
  scalar_value cp -> drop i p = utf8_encode cp ++ rest ->
  utf8_step p (length p) i = Some (i + length (utf8_encode cp))%nat.
Proof.
  intros Hcp Hd.
  assert (length p - i = length (utf8_encode cp) + length rest)%nat as Hlen.
  { by rewrite <- length_app, <- Hd, length_drop. }
  assert (forall k, nth (i + k) p 0 = nth k (utf8_encode cp ++ rest) 0) as Hnth.
  { intros k. by rewrite nth_add_drop, Hd. }
  pose proof (Hnth 0%nat) as H0. rewrite Nat.add_0_r in H0.
  unfold utf8_step. rewrite H0. unfold scalar_value in Hcp. revert Hlen Hnth. clear H0 Hd.
  unfold utf8_encode.
  destruct (Z.ltb_spec cp 0x80); [|destruct (Z.ltb_spec cp 0x800);
    [|destruct (Z.ltb_spec cp 0x10000)]]; cbn [app nth length]; intros Hlen Hnth.
  - destruct (Z.ltb_spec cp 0x80); [done|lia].
  - utf8_accepts Hnth.
  - utf8_accepts Hnth.
  - utf8_accepts Hnth.
Qed.
(** Every iteration advances the index, so [length p - i] iterations suffice. *)
Lemma utf8_loop_total fuel i :
  (length p - i <= fuel)%nat -> is_Some (utf8_loop fuel p (length p) i).
Proof.
  revert i. induction fuel as [|fuel IH]; intros i Hf; simpl;
    destruct (Nat.leb_spec (length p) i); try (by eexists); [lia|].
  destruct (utf8_step p (length p) i) as [j|] eqn:E; [|by eexists].
  apply utf8_step_sound in E as (_ & _ & _ & ?); [|done]. apply IH. lia.
Qed.

Lemma utf8_loop_true fuel i :
  (length p - i <= fuel)%nat ->
  utf8_loop fuel p (length p) i = Some true <->
  exists cps, Forall scalar_value cps /\ drop i p = concat (utf8_encode <$> cps).
Proof.
  revert i. induction fuel as [|fuel IH]; intros i Hf; simpl;
    destruct (Nat.leb_spec (length p) i) as [Hi|Hi]; try lia.
  1, 2: split; [intros _; exists []; by rewrite drop_ge|done].
  split.
  - destruct (utf8_step p (length p) i) as [j|] eqn:E; [|done].
    apply utf8_step_sound in E as (cp & Hcp & Hd & ?); [|done]. intros Hl.
    apply IH in Hl as (cps & Hall & Hd'); [|lia].
    exists (cp :: cps). split; [by constructor|].
    rewrite fmap_cons, Hd, Hd'. done.
  - intros ([|cp cps] & Hall & Hd); [by apply (f_equal length) in Hd; rewrite length_drop in Hd; simpl in Hd; lia|].
    inversion Hall as [|? ? Hcp Hall']; subst.
    rewrite fmap_cons in Hd. cbn [concat] in Hd.
    rewrite (utf8_step_complete i cp _ Hcp Hd). apply IH.
    { assert (0 < length (utf8_encode cp))%nat by (unfold utf8_encode; split_ifs; simpl; lia). lia. }
    exists cps. split; [done|]. by rewrite <- drop_drop, Hd, drop_app_length.
Qed.
End Utf8Step.

(** The byte loop decides RFC 3629 well-formedness. *)
Lemma is_valid_utf8_iff text : is_valid_utf8 text = true <-> utf8_well_formed text.
Proof.
  unfold is_valid_utf8. pose proof (bytes_range text) as Hb.
  pose proof (utf8_loop_true _ Hb (length (bytes text)) 0) as Hl.
  destruct (utf8_loop_total _ Hb (length (bytes text)) 0) as [b Eb]; [lia|].
  rewrite Eb in *. simpl. rewrite <- Hl by lia. split; [by intros ->|by intros [= ->]].
Qed.

(** * Lemmas: identifiers and values *)

Lemma first_char_is_rest c : is_first_char c = true -> is_rest_char c = true.
Proof. unfold is_rest_char. by intros ->. Qed.

Lemma validate_identifier_cases v id bad :
  bad <> Ok ->
  (validate_identifier v id bad = status_ok /\ identifier_allowed (max_name_length_ v) id) \/
  (code (validate_identifier v id bad) = bad /\ ~ identifier_allowed (max_name_length_ v) id).
Proof.
  intros Hbad. unfold validate_identifier, identifier_allowed.
  destruct (chars id) as [|front rest] eqn:E; [right; split; [done|by intros (? & ? & [=] & _)]|].
  destruct (Z.ltb_spec (max_name_length_ v) (ssize id));
    [right; split; [done|]; intros (? & ? & [= <- <-] & _ & _ & ?); lia|].
  destruct (is_first_char front) eqn:Ef; simpl;
    [|right; split; [done|]; intros (? & ? & [= <- <-] & ? & _); congruence].
  rewrite (first_char_is_rest _ Ef). simpl.
  destruct (forallb is_rest_char rest) eqn:Er; simpl.
  - left. split; [done|]. exists front, rest. split_and!; try done.
    apply List.Forall_forall. by apply forallb_forall.
  - right. split; [done|]. intros (? & ? & [= <- <-] & _ & Hall & _).
    rewrite List.Forall_forall, <- forallb_forall in Hall. congruence.
Qed.

Lemma is_reserved_key_iff key : is_reserved_key key = true <-> key_reserved key.
Proof.
  unfold is_reserved_key, key_reserved. case_bool_decide as H; [naive_solver|].
  assert (String.prefix "pt_" key = true <-> exists rest, key = "pt_" +:+ rest) as ->.
  { split.
    - do 3 (destruct key as [|? key]; [done|]; cbn [String.prefix];
            destruct (Ascii.ascii_dec _ _) as [<-|]; [|done]).
      intros _. by exists key.
    - intros [rest ->]. clear H. cbn. by destruct rest. }
  naive_solver.
Qed.

Lemma validate_value_ok v key value :
  ok (validate_value v key value) = true <-> value_allowed v value.
Proof.
  unfold validate_value, value_allowed. destruct value as [b|z|d|s]; try done.
  - by destruct (isfinite d).
  - destruct (Z.ltb_spec (max_string_length_ v) (ssize s)); simpl; [split; [done|lia]|].
    rewrite <- is_valid_utf8_iff. destruct (is_valid_utf8 s); simpl; split; naive_solver.
Qed.

Lemma validate_value_ok_eq v key value :
  ok (validate_value v key value) = true -> validate_value v key value = status_ok.
Proof.
  unfold validate_value. destruct value; try done; split_ifs; done.
Qed.

(** The loop accepts exactly the allowed properties with fresh, distinct keys. *)
Lemma validate_properties_loop_ok v seen props :
  validate_properties_loop v seen props = status_ok <->
  Forall (property_allowed v) props /\ NoDup (fst <$> props) /\
  (forall k, k ∈ fst <$> props -> k ∉ seen).
Proof.
  revert seen. induction props as [|[key value] props IH]; intros seen.
  { split; [|done]. intros _. split_and!; [constructor|constructor|]. set_solver. }
  rewrite fmap_cons, Forall_cons, NoDup_cons. cbn [validate_properties_loop fst].
  unfold property_allowed at 1. cbn [fst snd].
  destruct (validate_identifier_cases v key InvalidProperty) as [[-> Hid]|[Hc Hid]]; [done| |].
  2: { unfold ok. rewrite bool_decide_eq_false_2 by congruence. simpl. split; [|naive_solver].
       intros He. rewrite He in Hc. done. }
  simpl. destruct (is_reserved_key key) eqn:Er.
  { apply is_reserved_key_iff in Er. split; [done|naive_solver]. }
  rewrite <- is_reserved_key_iff, Er. case_bool_decide as Hseen.
  { split; [done|]. intros (_ & _ & Hf). destruct (Hf key); [left|done]. }
  rewrite <- (validate_value_ok v key value).
  destruct (ok (validate_value v key value)) eqn:Ev; simpl.
  - rewrite IH. split.
    + intros (? & ? & Hf). split_and!; try done; [set_solver|]. intros k [->|Hk]%elem_of_cons; set_solver.
    + intros ([(_ & _ & _) ?] & [? ?] & Hf). split_and!; try done.
      intros k Hk. specialize (Hf k). set_solver.
  - split; [intros He; by rewrite He in Ev|naive_solver].
Qed.

Lemma validate_value_fault v key value :
  ok (validate_value v key value) = false ->
  value_fault v value (code (validate_value v key value)).
Proof.
  unfold validate_value, value_fault. destruct value as [b|z|d|s]; try done.
  - by destruct (isfinite d).
  - destruct (Z.ltb_spec (max_string_length_ v) (ssize s)); [intros _; by left|].
    destruct (is_valid_utf8 s) eqn:E; [done|]. intros _. right. split_and!; try done.
    rewrite <- is_valid_utf8_iff. congruence.
Qed.

(** A refusal names the first offending property and its reason. *)
Lemma validate_properties_loop_fault v (seen : gset string) before props :
  (forall k, k ∈ seen <-> k ∈ before) ->
  code (validate_properties_loop v seen props) <> Ok ->
  exists pre key value post,
    props = pre ++ (key, value) :: post /\ Forall (property_allowed v) pre /\
    property_fault v (before ++ pre.*1) key value
      (code (validate_properties_loop v seen props)).
Proof.
  revert seen before. induction props as [|[key value] props IH]; intros seen before Hs; [done|].
  cbn [validate_properties_loop].
  destruct (validate_identifier_cases v key InvalidProperty) as [[-> Hid]|[Hc Hid]]; [done| |].
  2: { assert (ok (validate_identifier v key InvalidProperty) = false) as Hno
         by (apply ok_false; congruence).
       rewrite Hno. cbn [negb]. rewrite Hc. intros _. exists [], key, value, props.
       split_and!; [done|constructor|]. by apply fault_identifier. }
  rewrite ok_status_ok. cbn [negb].
  destruct (is_reserved_key key) eqn:Er.
  { intros _. exists [], key, value, props. split_and!; [done|constructor|].
    apply fault_reserved; [done|]. by apply is_reserved_key_iff. }
  assert (~ key_reserved key) as Hr by (rewrite <- is_reserved_key_iff; congruence).
  case_bool_decide as Hseen.
  { intros _. exists [], key, value, props. split_and!; [done|constructor|].
    apply fault_duplicate; try done. rewrite app_nil_r. by apply Hs. }
  destruct (ok (validate_value v key value)) eqn:Ev; simpl.
  - intros Hne. destruct (IH ({[key]} ∪ seen) (before ++ [key])) as (pre & k & x & post & -> & Hall & Hf);
      [set_solver|done|].
    exists ((key, value) :: pre), k, x, post. split_and!; [done| |].
    + constructor; [|done]. split_and!; [done|done|]. by apply (validate_value_ok v key).
    + rewrite fmap_cons. by rewrite <- app_assoc in Hf.
  - intros _. exists [], key, value, props. split_and!; [done|constructor|].
    apply fault_value; try done; [|by apply validate_value_fault].
    rewrite app_nil_r, <- Hs. done.
Qed.

(** * Properties *)

(** C33: the UTF-8 check terminates within [n] iterations of its loop and accepts
    a byte string exactly when it is the concatenation of RFC 3629 encodings of
    Unicode scalar values, so overlong forms, surrogate halves, truncated
    sequences and stray bytes are all refused. *)
Theorem utf8_check_correct text :
  (exists b, utf8_loop (length (bytes text)) (bytes text) (length (bytes text)) 0 = Some b) /\
  (is_valid_utf8 text = true <-> utf8_well_formed text).
Proof.
  split; [|apply is_valid_utf8_iff].
  destruct (utf8_loop_total _ (bytes_range text) (length (bytes text)) 0) as [b Hb]; [lia|].
  by exists b.
Qed.

(** C34: [validate_properties] returns Ok exactly for a list of at most
    [max_properties] properties whose keys are distinct, allowed and not
    reserved and whose values are within the limits. *)
Theorem validate_properties_correct v props :
  validate_properties v props = status_ok <->
  vsize props <= max_properties_ v /\ Forall (property_allowed v) props /\ NoDup props.*1.
Proof.
  unfold validate_properties. destruct (Z.ltb_spec (max_properties_ v) (vsize props)).
  { split; [done|lia]. }
  rewrite validate_properties_loop_ok. set_solver.
Qed.

(** When [validate_properties] refuses a list that is not too long, its
    error code names the first offending property, every property before it
    being allowed, with the checks ordered identifier, reserved, duplicate,
    value. *)
Theorem validate_properties_refusal v props c :
  code (validate_properties v props) = c -> c <> Ok -> c <> TooManyProperties ->
  exists pre key value post,
    props = pre ++ (key, value) :: post /\ Forall (property_allowed v) pre /\
    property_fault v pre.*1 key value c.
Proof.
  unfold validate_properties. destruct (_ <? _); [by intros <-|]. intros <- Hok _.
  by apply (validate_properties_loop_fault v ∅ []); [set_solver|].
Qed.

(** Witness: the second "level" key of a three-property event. *)
Lemma validate_properties_refusal_witness :
  exists pre key value post,
    [("level", PVInt 3); ("level", PVBool true); ("name", PVInt 0)] =
      pre ++ (key, value) :: post /\
    Forall (property_allowed (mkValidator 64 64 1024 128)) pre /\
    property_fault (mkValidator 64 64 1024 128) pre.*1 key value DuplicateKey.
Proof.
  apply (validate_properties_refusal (mkValidator 64 64 1024 128)
           [("level", PVInt 3); ("level", PVBool true); ("name", PVInt 0)] DuplicateKey).
  - vm_compute. reflexivity.
  - discriminate.
  - discriminate.
Defined.

(** [validate_name] accepts exactly the identifiers of the documented
    grammar within the length limit, and refuses with InvalidEventName. *)
Theorem validate_name_correct v n :
  (validate_name v n = status_ok <-> identifier_allowed (max_name_length_ v) n) /\
  (validate_name v n <> status_ok -> code (validate_name v n) = InvalidEventName).
Proof.
  unfold validate_name.
  destruct (validate_identifier_cases v n InvalidEventName) as [[-> ?]|[Hc ?]]; [done|done|].
  split; [|done]. split; [intros He; by rewrite He in Hc|done].
Qed.
