(* ===== verification/Queue.v ===== *)
(** The bounded event queue: src/event_queue.cpp and
    src/internal/event_queue.hpp.

    The queue is guarded by its own mutex, so every operation is one atomic
    function of its state. The condition variable only decides when the
    consumer runs: [pop_wait] is the part that runs with the lock held once
    the wait is over (a full batch, a kick, or the timeout). *)
From S2P Require Import Prelude Types.

Local Open Scope Z_scope.

(** * Definitions *)

(** [struct QueuedEvent]. *)
Record QueuedEvent : Type := mkQueued {
  qe_event : Event;
  qe_ordinal : Z;
  qe_consent_generation : Z
}.

(** [class EventQueue]. *)
Record EventQueue : Type := mkQueue {
  queue_ : list QueuedEvent;
  capacity_ : Z;
  batch_threshold_ : Z;
  kicked_ : bool
}.

(** The constructor. *)
Definition new_queue (capacity batch_threshold : Z) : EventQueue :=
  mkQueue [] capacity batch_threshold false.

(** [EventQueue::size]. *)
Definition queue_size (q : EventQueue) : Z := vsize (queue_ q).

(** [EventQueue::full]. *)
Definition queue_full (q : EventQueue) : bool := capacity_ q <=? queue_size q.

(** [EventQueue::has_room_for]. *)
Definition has_room_for (q : EventQueue) (count : Z) : bool :=
  let used := if queue_size q <? capacity_ q then queue_size q else capacity_ q in
  count <=? capacity_ q - used.

(** [EventQueue::try_push]: RejectNewest. *)
Definition try_push (q : EventQueue) (e : QueuedEvent) : bool * EventQueue :=
  if capacity_ q <=? queue_size q then (false, q)
  else (true, mkQueue (queue_ q ++ [e]) (capacity_ q) (batch_threshold_ q) (kicked_ q)).

(** [EventQueue::front_ordinal]. *)
Definition front_ordinal (q : EventQueue) : Z :=
  match queue_ q with
  | [] => uint64_max
  | e :: _ => qe_ordinal e
  end.

(** The predicate the consumer waits for in [EventQueue::pop_wait]. *)
Definition wake_predicate (q : EventQueue) : bool :=
  (batch_threshold_ q <=? queue_size q) || kicked_ q.

(** The [while] loop of [pop_wait]: moves front events until the queue is
    empty or [max] events have been moved. *)
Fixpoint pop_loop (queue : list QueuedEvent) (max moved : Z) (out : list QueuedEvent)
    : list QueuedEvent * Z * list QueuedEvent :=
  match queue with
  | [] => ([], moved, out)
  | e :: rest =>
      if moved <? max then pop_loop rest max (moved + 1) (out ++ [e])
      else (queue, moved, out)
  end.

(** [EventQueue::pop_wait] once the wait is over: the number of moved events,
    the output vector extended with them, and the queue left. *)
Definition pop_wait (q : EventQueue) (max : Z) (out : list QueuedEvent)
    : Z * list QueuedEvent * EventQueue :=
  let '(rest, moved, out') := pop_loop (queue_ q) max 0 out in
  (moved, out', mkQueue rest (capacity_ q) (batch_threshold_ q) false).

(** [EventQueue::kick]. *)
Definition kick (q : EventQueue) : EventQueue :=
  mkQueue (queue_ q) (capacity_ q) (batch_threshold_ q) true.

(** [EventQueue::clear]. *)
Definition queue_clear (q : EventQueue) : Z * EventQueue :=
  (queue_size q, mkQueue [] (capacity_ q) (batch_threshold_ q) (kicked_ q)).

(** Successive pushes, as producers perform them: the answers in order. *)
Fixpoint push_all (q : EventQueue) (es : list QueuedEvent) : list bool * EventQueue :=
  match es with
  | [] => ([], q)
  | e :: es' =>
      let '(b, q1) := try_push q e in
      let '(bs, q2) := push_all q1 es' in (b :: bs, q2)
  end.

(** The ordinals of a list of queued events. *)
Definition ordinals (l : list QueuedEvent) : list Z := qe_ordinal <$> l.

(** Admission order: strictly increasing ordinals. *)
Definition in_order (l : list QueuedEvent) : Prop := StronglySorted Z.lt (ordinals l).

(** The type invariant: the capacity is respected. *)
Definition queue_wf (q : EventQueue) : Prop := 0 <= capacity_ q /\ queue_size q <= capacity_ q.

(** * Lemmas *)

(** The pop loop moves a prefix: as much as [max] and the queue allow. *)
Lemma pop_loop_spec queue max moved out :
  moved <= max ->
  pop_loop queue max moved out =
    (drop (Z.to_nat (max - moved)) queue,
     moved + Z.min (max - moved) (vsize queue),
     out ++ take (Z.to_nat (max - moved)) queue).
Proof.
  revert moved out. induction queue as [|e queue IH]; intros moved out Hm; simpl.
  { rewrite drop_nil, take_nil, app_nil_r, vsize_nil. f_equal. f_equal. lia. }
  destruct (Z.ltb_spec moved max).
  - rewrite IH by lia. replace (Z.to_nat (max - moved)) with (S (Z.to_nat (max - (moved + 1)))) by lia.
    simpl. rewrite <- app_assoc, vsize_cons. f_equal. f_equal. lia.
  - replace (Z.to_nat (max - moved)) with 0%nat by lia. rewrite app_nil_r.
    rewrite vsize_cons. pose proof (vsize_nonneg queue). f_equal. f_equal. lia.
Qed.

Lemma pop_wait_spec q max out :
  0 <= max ->
  pop_wait q max out =
    (Z.min max (queue_size q), out ++ take (Z.to_nat max) (queue_ q),
     mkQueue (drop (Z.to_nat max) (queue_ q)) (capacity_ q) (batch_threshold_ q) false).
Proof.
  intros Hm. unfold pop_wait, queue_size. rewrite pop_loop_spec by done.
  by rewrite Z.sub_0_r, Z.add_0_l.
Qed.

Lemma in_order_app l k :
  in_order (l ++ k) <->
  in_order l /\ in_order k /\ (forall a b, a ∈ l -> b ∈ k -> qe_ordinal a < qe_ordinal b).
Proof.
  unfold in_order, ordinals. rewrite fmap_app. induction l as [|x l IH]; simpl.
  - split; [intros H; split_and!; [constructor|done|set_solver]|naive_solver].
  - split.
    + intros H. apply StronglySorted_inv in H as [H1 H2]. apply IH in H1 as (? & ? & Hx).
      rewrite Forall_app in H2. destruct H2 as [Ha Hb]. split_and!; [by constructor|done|].
      intros a b [->|Ha']%elem_of_cons Hk; [|by apply Hx].
      rewrite Forall_fmap, Forall_forall in Hb. by apply Hb.
    + intros (H1 & H2 & Hx). apply StronglySorted_inv in H1 as [? ?]. constructor.
      * apply IH. split_and!; try done. intros; apply Hx; set_solver.
      * rewrite Forall_app. split; [done|]. rewrite Forall_fmap, Forall_forall.
        intros b Hb. apply Hx; set_solver.
Qed.

Lemma in_order_take_drop n l : in_order l -> in_order (take n l) /\ in_order (drop n l).
Proof. rewrite <- (take_drop n l) at 1. rewrite in_order_app. naive_solver. Qed.

(** The front of an ordered queue carries its least ordinal. *)
Lemma front_ordinal_least q e :
  in_order (queue_ q) -> e ∈ queue_ q -> front_ordinal q <= qe_ordinal e.
Proof.
  unfold front_ordinal, in_order, ordinals.
  destruct (queue_ q) as [|x l]; intros H Hin; [set_solver|]. simpl in H.
  apply StronglySorted_inv in H as [_ H]. rewrite Forall_fmap, Forall_forall in H.
  apply elem_of_cons in Hin as [->|Hin]; [lia|]. specialize (H e Hin). simpl in H. lia.
Qed.

Lemma try_push_accepts q e :
  queue_full q = false ->
  try_push q e = (true, mkQueue (queue_ q ++ [e]) (capacity_ q) (batch_threshold_ q) (kicked_ q)).
Proof. unfold queue_full, try_push. by intros ->. Qed.

Lemma has_room_for_iff q n :
  queue_wf q -> has_room_for q n = true <-> queue_size q + n <= capacity_ q.
Proof.
  intros [H0 Hwf]. unfold has_room_for.
  destruct (Z.ltb_spec (queue_size q) (capacity_ q)); rewrite Z.leb_le; lia.
Qed.

(** Pushing [es] into a queue with room accepts them all, in order. *)
Lemma push_all_accepts q es :
  queue_size q + vsize es <= capacity_ q ->
  push_all q es =
    (replicate (length es) true,
     mkQueue (queue_ q ++ es) (capacity_ q) (batch_threshold_ q) (kicked_ q)).
Proof.
  revert q. induction es as [|e es IH]; intros q Hr; simpl.
  { rewrite app_nil_r. by destruct q. }
  rewrite vsize_cons in Hr. pose proof (vsize_nonneg es).
  rewrite try_push_accepts by (unfold queue_full; apply Z.leb_gt; lia).
  rewrite IH by (unfold queue_size; simpl; rewrite vsize_app, vsize_cons, vsize_nil;
                 unfold queue_size in Hr; lia).
  simpl. by rewrite <- app_assoc.
Qed.

(** * Properties *)

(** a reservation that succeeds is honoured. When [has_room_for count]
    answers true, that many pushes in a row are all accepted and appended in
    order; when it answers false, some push of the row is rejected. *)
Theorem reservation_honoured q es :
  queue_wf q ->
  if has_room_for q (vsize es)
  then push_all q es = (replicate (length es) true,
                        mkQueue (queue_ q ++ es) (capacity_ q) (batch_threshold_ q) (kicked_ q))
  else false ∈ fst (push_all q es).
Proof.
  intros Hwf. destruct (has_room_for q (vsize es)) eqn:E.
  { apply push_all_accepts. by apply has_room_for_iff. }
  assert (capacity_ q < queue_size q + vsize es) as Hlt.
  { apply Z.nle_gt. rewrite <- has_room_for_iff by done. congruence. }
  clear E. revert q Hwf Hlt. induction es as [|e es IH]; intros q [H0 Hwf] Hlt; simpl.
  { rewrite vsize_nil in Hlt. lia. }
  rewrite vsize_cons in Hlt. unfold try_push.
  destruct (Z.leb_spec (capacity_ q) (queue_size q)).
  - destruct (push_all q es). set_solver.
  - specialize (IH (mkQueue (queue_ q ++ [e]) (capacity_ q) (batch_threshold_ q) (kicked_ q))).
    destruct (push_all _ es) as [bs q2]. simpl in *. apply elem_of_cons. right. apply IH.
    + unfold queue_wf, queue_size in *. simpl. autorewrite with vsize. lia.
    + unfold queue_size in *. simpl. autorewrite with vsize. lia.
Qed.

(** Witness: two pushes into a queue of capacity two. *)
Lemma reservation_honoured_witness :
  let e n := mkQueued (mkEvent "" "" "" 1 0 "" "" 0 []) n 0 in
  push_all (new_queue 2 1) [e 1; e 2] =
    ([true; true], mkQueue [e 1; e 2] 2 1 false).
Proof.
  intros e.
  apply (reservation_honoured (new_queue 2 1) [e 1; e 2]).
  split; vm_compute; discriminate.
Defined.

(** The consumer side is a FIFO. [pop_wait] moves exactly the oldest
    [min max size] events, in order, after what [out] already held, leaves the
    rest in order, clears the kick and keeps the queue within capacity. *)
Theorem pop_wait_fifo q max out moved out' q' :
  0 <= max -> queue_wf q -> pop_wait q max out = (moved, out', q') ->
  exists popped, out' = out ++ popped /\ queue_ q = popped ++ queue_ q' /\
    moved = vsize popped /\ moved = Z.min max (queue_size q) /\
    kicked_ q' = false /\ queue_wf q'.
Proof.
  intros Hm Hwf. rewrite pop_wait_spec by done. intros [= <- <- <-].
  exists (take (Z.to_nat max) (queue_ q)). simpl. rewrite take_drop.
  unfold queue_wf, queue_size, vsize in *. simpl.
  rewrite length_take, length_drop. split_and!; try done; lia.
Qed.

(** Witness: three queued events, a batch of two. *)
Lemma pop_wait_fifo_witness :
  let e n := mkQueued (mkEvent "" "" "" 1 0 "" "" 0 []) n 0 in
  exists popped, [e 1; e 2] = [] ++ popped /\ [e 1; e 2; e 3] = popped ++ [e 3] /\
    2 = vsize popped /\ 2 = Z.min 2 3 /\ false = false /\ queue_wf (mkQueue [e 3] 4 2 false).
Proof.
  intros e.
  apply (pop_wait_fifo (mkQueue [e 1; e 2; e 3] 4 2 true) 2 [] 2 [e 1; e 2]
           (mkQueue [e 3] 4 2 false)).
  - lia.
  - split; vm_compute; discriminate.
  - reflexivity.
Defined.
