(* ===== verification/Ids.v ===== *)
(** The identifier generator: src/id_generator.cpp and
    src/internal/id_generator.hpp.

    [std::mt19937_64] is the standard's Mersenne Twister, written out with the
    standard's parameters; the seed ([std::random_device] and the clock) is an
    argument of the constructor. *)
From S2P Require Import Prelude Types.

Local Open Scope Z_scope.

(** * Definitions *)

(** ** [std::mt19937_64] *)

(** The engine: 312 words of state and the position of the next output. *)
Record mt19937_64 : Type := mkMt { mt_x : list Z; mt_i : nat }.

(** State initialisation from a seed (n = 312, f = 6364136223846793005). *)
Fixpoint mt_fill (count : nat) (i prev : Z) : list Z :=
  match count with
  | O => []
  | S count' =>
      let x := wrap64 (6364136223846793005 * Z.lxor prev (Z.shiftr prev 62) + i) in
      x :: mt_fill count' (i + 1) x
  end.

(** The seeding constructor. *)
Definition mt_seed (seed : Z) : mt19937_64 :=
  let x0 := wrap64 seed in mkMt (x0 :: mt_fill 311 1 x0) 312.

(** One word of the twist (m = 156, r = 31, a = 0xB5026F5AA96619E9). *)
Definition mt_twist_word (x : list Z) (k : nat) : list Z :=
  let y := Z.lor (Z.land (nth k x 0) 0xFFFFFFFF80000000)
                 (Z.land (nth ((k + 1) mod 312) x 0) 0x7FFFFFFF) in
  let v := Z.lxor (Z.lxor (nth ((k + 156) mod 312) x 0) (Z.shiftr y 1))
                  (if Z.odd y then 0xB5026F5AA96619E9 else 0) in
  <[k := v]> x.

(** The full state transition. *)
Definition mt_twist (x : list Z) : list Z := foldl mt_twist_word x (seq 0 312).

(** Output tempering. *)
Definition mt_temper (y : Z) : Z :=
  let y := Z.lxor y (Z.land (Z.shiftr y 29) 0x5555555555555555) in
  let y := Z.lxor y (Z.land (Z.shiftl y 17) 0x71D67FFFEDA60000) in
  let y := Z.lxor y (Z.land (Z.shiftl y 37) 0xFFF7EEE000000000) in
  Z.lxor y (Z.shiftr y 43).

(** [operator()]. *)
Definition mt_next (g : mt19937_64) : Z * mt19937_64 :=
  let '(x, i) := if (312 <=? mt_i g)%nat then (mt_twist (mt_x g), 0%nat)
                 else (mt_x g, mt_i g) in
  (mt_temper (nth i x 0), mkMt x (i + 1)).

(** ** [IdGenerator] *)

(** [seed_value()]: [rd1] and [rd2] are the two 32-bit draws of
    [std::random_device], [ticks] the high-resolution clock. *)
Definition seed_value (rd1 rd2 ticks : Z) : Z :=
  let a := Z.lxor (wrap64 (Z.shiftl rd1 32)) rd2 in
  let t := wrap64 ticks in
  Z.lxor a (wrap64 (t * 0x9E3779B97F4A7C15)).

(** [IdGenerator::IdGenerator]. *)
Definition new_id_generator (rd1 rd2 ticks : Z) : mt19937_64 := mt_seed (seed_value rd1 rd2 ticks).

(** A hexadecimal digit, as printed by [%x]. *)
Definition hex_digit (d : Z) : Ascii.ascii :=
  nth (Z.to_nat d) (chars "0123456789abcdef") "0"%char.

(** [%02x] of one byte. *)
Definition hex2 (b : Z) : list Ascii.ascii := [hex_digit (b / 16); hex_digit (b mod 16)].

(** The version and variant bits of RFC 4122. *)
Definition uuid_hi (hi : Z) : Z := Z.lor (Z.land hi 0xFFFFFFFFFFFF0FFF) 0x0000000000004000.
Definition uuid_lo (lo : Z) : Z := Z.lor (Z.land lo 0x3FFFFFFFFFFFFFFF) 0x8000000000000000.

(** [static_cast<std::uint8_t>((w >> sh) & 0xFF)]. *)
Definition byte_at (w sh : Z) : Z := Z.land (Z.shiftr w sh) 0xFF.

(** The 16 bytes of the [bytes] array. *)
Definition uuid_bytes (hi lo : Z) : list Z :=
  [byte_at hi 56; byte_at hi 48; byte_at hi 40; byte_at hi 32;
   byte_at hi 24; byte_at hi 16; byte_at hi 8; byte_at hi 0;
   byte_at lo 56; byte_at lo 48; byte_at lo 40; byte_at lo 32;
   byte_at lo 24; byte_at lo 16; byte_at lo 8; byte_at lo 0].

(** The [snprintf] format of [uuid4]: hyphens after bytes 4, 6, 8 and 10. *)
Definition uuid_format (b : list Z) : list Ascii.ascii :=
  let hex l := concat (hex2 <$> l) in
  hex (take 4 b) ++ ["-"%char] ++ hex (take 2 (drop 4 b)) ++ ["-"%char] ++
  hex (take 2 (drop 6 b)) ++ ["-"%char] ++ hex (take 2 (drop 8 b)) ++ ["-"%char] ++
  hex (drop 10 b).

(** The text of [uuid4] for two drawn words. *)
Definition uuid_text (hi lo : Z) : string :=
  of_chars (uuid_format (uuid_bytes (uuid_hi hi) (uuid_lo lo))).

(** [IdGenerator::uuid4]. *)
Definition uuid4 (rng : mt19937_64) : string * mt19937_64 :=
  let '(hi, rng1) := mt_next rng in
  let '(lo, rng2) := mt_next rng1 in
  (uuid_text hi lo, rng2).

(** ** Reading a UUID back *)

(** The value of a lowercase hexadecimal digit. *)
Definition hex_value (c : Ascii.ascii) : option Z :=
  let v := byte_val c in
  if (48 <=? v) && (v <=? 57) then Some (v - 48)
  else if (97 <=? v) && (v <=? 102) then Some (v - 87)
  else None.

(** Reads hexadecimal digits, most significant first, skipping hyphens. *)
Fixpoint read_hex (acc : Z) (l : list Ascii.ascii) : option Z :=
  match l with
  | [] => Some acc
  | c :: l' =>
      if bool_decide (c = "-"%char) then read_hex acc l'
      else match hex_value c with
           | Some d => read_hex (16 * acc + d) l'
           | None => None
           end
  end.

(** The 128-bit number a UUID text denotes. *)
Definition uuid_number (s : string) : option Z := read_hex 0 (chars s).

(** Where the hyphens are: 36 characters, hyphens at 8, 13, 18 and 23. *)
Definition uuid_hyphens : list bool :=
  replicate 8 false ++ [true] ++ replicate 4 false ++ [true] ++ replicate 4 false ++
  [true] ++ replicate 4 false ++ [true] ++ replicate 12 false.

(** The shape of a version-4 UUID text: 36 characters, hyphens at 8, 13, 18
    and 23, lowercase hexadecimal digits elsewhere, the version digit 4 and a
    variant digit among 8, 9, a, b. *)
Definition uuid4_shape (s : string) : Prop :=
  (fun c => bool_decide (c = "-"%char)) <$> chars s = uuid_hyphens /\
  Forall (fun c => c = "-"%char \/ is_Some (hex_value c)) (chars s) /\
  nth 14 (chars s) " "%char = "4"%char /\
  nth 19 (chars s) " "%char ∈ chars "89ab".

(** * Lemmas *)

Lemma hex_digit_value d : 0 <= d < 16 -> hex_value (hex_digit d) = Some d.
Proof.
  intros Hd. assert (0 <= d < 256) as Hb by lia. revert Hd. pattern d.
  apply (byte_check _ d); [vm_compute; reflexivity|done].
Qed.

Lemma hex_digit_not_hyphen d : hex_digit d <> "-"%char.
Proof.
  unfold hex_digit. generalize (Z.to_nat d). intros n.
  do 16 (destruct n as [|n]; [done|]). destruct n; done.
Qed.

Lemma hex_digit_hex d : is_Some (hex_value (hex_digit d)).
Proof.
  unfold hex_digit. generalize (Z.to_nat d). intros n.
  do 16 (destruct n as [|n]; [by eexists|]). destruct n; by eexists.
Qed.

Lemma byte_at_range w sh : 0 <= byte_at w sh < 256.
Proof.
  unfold byte_at. change 0xFF with (Z.ones 8). rewrite Z.land_ones by lia.
  apply Z.mod_pos_bound. lia.
Qed.

Lemma read_hex_hyphen acc l : read_hex acc ("-"%char :: l) = read_hex acc l.
Proof. done. Qed.

Lemma read_hex2 acc b l :
  0 <= b < 256 -> read_hex acc (hex2 b ++ l) = read_hex (256 * acc + b) l.
Proof.
  intros Hb. unfold hex2. cbn [app read_hex].
  rewrite !bool_decide_eq_false_2 by apply hex_digit_not_hyphen.
  rewrite !hex_digit_value by (Z.to_euclidean_division_equations; lia).
  f_equal. Z.to_euclidean_division_equations; lia.
Qed.

(** Reassembling the eight bytes of a word. *)
Lemma byte_at_mod w sh : 0 <= sh -> byte_at w sh = (w / 2 ^ sh) mod 256.
Proof.
  intros Hs. unfold byte_at. change 0xFF with (Z.ones 8).
  by rewrite Z.land_ones, Z.shiftr_div_pow2 by lia.
Qed.

Lemma bytes_of_word acc w :
  0 <= w < 2 ^ 64 ->
  256 * (256 * (256 * (256 * (256 * (256 * (256 * (256 * acc + byte_at w 56) + byte_at w 48)
    + byte_at w 40) + byte_at w 32) + byte_at w 24) + byte_at w 16) + byte_at w 8) + byte_at w 0
  = 2 ^ 64 * acc + w.
Proof.
  intros Hw. rewrite !byte_at_mod by lia.
  replace (w / 2 ^ 8) with (w / 2 ^ 0 / 256) by (rewrite Z.div_div by lia; done).
  replace (w / 2 ^ 16) with (w / 2 ^ 0 / 256 / 256) by (rewrite !Z.div_div by lia; done).
  replace (w / 2 ^ 24) with (w / 2 ^ 0 / 256 / 256 / 256) by (rewrite !Z.div_div by lia; done).
  replace (w / 2 ^ 32) with (w / 2 ^ 0 / 256 / 256 / 256 / 256) by (rewrite !Z.div_div by lia; done).
  replace (w / 2 ^ 40) with (w / 2 ^ 0 / 256 / 256 / 256 / 256 / 256) by (rewrite !Z.div_div by lia; done).
  replace (w / 2 ^ 48) with (w / 2 ^ 0 / 256 / 256 / 256 / 256 / 256 / 256) by (rewrite !Z.div_div by lia; done).
  replace (w / 2 ^ 56) with (w / 2 ^ 0 / 256 / 256 / 256 / 256 / 256 / 256 / 256) by (rewrite !Z.div_div by lia; done).
  change (2 ^ 0) with 1. rewrite Z.div_1_r. change (2 ^ 64) with 18446744073709551616 in *.
  Z.to_euclidean_division_equations; lia.
Qed.

(** Masking and setting bits below 2^64 keeps the word below 2^64. *)
Lemma mask_set_range x m b :
  0 <= m < 2 ^ 64 -> 0 <= b < 2 ^ 64 -> 0 <= Z.lor (Z.land x m) b < 2 ^ 64.
Proof.
  intros Hm Hb. assert (0 <= Z.lor (Z.land x m) b) as H0.
  { apply Z.lor_nonneg. split; [|lia]. apply Z.land_nonneg. lia. }
  split; [done|]. apply Z.bounded_iff_bits_nonneg; [lia|done|]. intros l Hl.
  rewrite Z.lor_spec, Z.land_spec.
  rewrite (proj1 (Z.bounded_iff_bits_nonneg 64 m ltac:(lia) ltac:(lia)) ltac:(lia) l Hl).
  rewrite (proj1 (Z.bounded_iff_bits_nonneg 64 b ltac:(lia) ltac:(lia)) ltac:(lia) l Hl).
  by rewrite andb_false_r.
Qed.

Lemma uuid_hi_range hi : 0 <= uuid_hi hi < 2 ^ 64.
Proof. apply mask_set_range; lia. Qed.

Lemma uuid_lo_range lo : 0 <= uuid_lo lo < 2 ^ 64.
Proof. apply mask_set_range; lia. Qed.

(** The high digit of a byte is a nibble of the word. *)
Lemma byte_at_nibble w sh : 0 <= sh -> byte_at w sh / 16 = Z.land (Z.shiftr w (sh + 4)) 15.
Proof.
  intros Hs. rewrite byte_at_mod by done. change 15 with (Z.ones 4).
  rewrite Z.land_ones, Z.shiftr_div_pow2, Z.pow_add_r, <- Z.div_div by lia.
  change (2 ^ 4) with 16. generalize (w / 2 ^ sh). intros a.
  Z.to_euclidean_division_equations; lia.
Qed.

Lemma uuid_hi_version hi : byte_at (uuid_hi hi) 8 / 16 = 4.
Proof.
  rewrite byte_at_nibble by lia. unfold uuid_hi.
  rewrite Z.shiftr_lor, Z.shiftr_land, Z.land_lor_distr_l, <- Z.land_assoc.
  change (Z.land (Z.shiftr 0xFFFFFFFFFFFF0FFF (8 + 4)) 15) with 0.
  by rewrite Z.land_0_r.
Qed.

Lemma uuid_lo_variant lo : 8 <= byte_at (uuid_lo lo) 56 / 16 <= 11.
Proof.
  rewrite byte_at_nibble by lia. unfold uuid_lo.
  rewrite Z.shiftr_lor, Z.shiftr_land, Z.land_lor_distr_l, <- Z.land_assoc.
  change (Z.land (Z.shiftr 0x3FFFFFFFFFFFFFFF (56 + 4)) 15) with (Z.ones 2).
  change (Z.land (Z.shiftr 0x8000000000000000 (56 + 4)) 15) with (Z.shiftl 2 2).
  rewrite Z.land_ones by lia. rewrite Z.lor_comm, lor_shiftl_add; [|lia|apply Z.mod_pos_bound; lia].
  pose proof (Z.mod_pos_bound (Z.shiftr lo (56 + 4)) (2 ^ 2)). lia.
Qed.

(** The text lists the hexadecimal digits of the two words. *)
Lemma uuid_number_text hi lo :
  uuid_number (uuid_text hi lo) = Some (2 ^ 64 * uuid_hi hi + uuid_lo lo).
Proof.
  unfold uuid_number, uuid_text. rewrite chars_of_chars.
  unfold uuid_format, uuid_bytes. cbn [take drop fmap list_fmap concat].
  rewrite !app_nil_r, <- !app_assoc. cbn [app].
  repeat first [rewrite read_hex2 by apply byte_at_range | rewrite read_hex_hyphen].
  rewrite <- (app_nil_r (hex2 (byte_at (uuid_lo lo) 0))), read_hex2 by apply byte_at_range.
  cbn [read_hex]. rewrite (bytes_of_word 0) by apply uuid_hi_range.
  rewrite bytes_of_word by apply uuid_lo_range. done.
Qed.

Lemma uuid_text_shape hi lo : uuid4_shape (uuid_text hi lo).
Proof.
  unfold uuid4_shape, uuid_text. rewrite chars_of_chars.
  unfold uuid_format, uuid_bytes, hex2. cbn [take drop fmap list_fmap concat app].
  split_and!.
  - cbn [fmap list_fmap]. rewrite !(bool_decide_eq_false_2 (hex_digit _ = _)) by apply hex_digit_not_hyphen.
    done.
  - repeat match goal with
    | |- Forall _ (hex_digit _ :: _) => apply Forall_cons_2; [right; apply hex_digit_hex|]
    | |- Forall _ ("-"%char :: _) => apply Forall_cons_2; [left; reflexivity|]
    end. apply Forall_nil_2.
  - cbn [nth]. by rewrite uuid_hi_version.
  - cbn [nth]. pose proof (uuid_lo_variant lo) as Hv.
    remember (byte_at (uuid_lo lo) 56 / 16) as d. clear Heqd.
    assert (d = 8 \/ d = 9 \/ d = 10 \/ d = 11) as Hd by lia.
    destruct Hd as [->|[->|[->| ->]]]; by apply (bool_decide_unpack _).
Qed.

(** * Properties *)

(** C35: every identifier the generator returns is a lowercase, hyphenated
    RFC 4122 version-4 UUID, whatever the random words were. *)
Theorem uuid4_well_formed rng : uuid4_shape (fst (uuid4 rng)).
Proof.
  unfold uuid4. destruct (mt_next rng) as [hi rng1]. destruct (mt_next rng1) as [lo rng2].
  apply uuid_text_shape.
Qed.

(** the text determines the 122 random bits: reading the digits back gives
    the two masked words, so two draws collide exactly when their random bits
    are equal. *)
Theorem uuid_text_roundtrip hi lo hi' lo' :
  uuid_number (uuid_text hi lo) = Some (2 ^ 64 * uuid_hi hi + uuid_lo lo) /\
  (uuid_text hi lo = uuid_text hi' lo' <-> uuid_hi hi = uuid_hi hi' /\ uuid_lo lo = uuid_lo lo').
Proof.
  split; [apply uuid_number_text|]. split.
  - intros E. apply (f_equal uuid_number) in E. rewrite !uuid_number_text in E.
    injection E as E. pose proof (uuid_lo_range lo). pose proof (uuid_lo_range lo').
    change (2 ^ 64) with 18446744073709551616 in *. lia.
  - intros [E1 E2]. unfold uuid_text. by rewrite E1, E2.
Qed.

(** The engine agrees with the value the C++ standard requires of the first
    output of a default-seeded [std::mt19937_64]. *)
Example mt_first_output : fst (mt_next (mt_seed 5489)) = 14514284786278117030.
Proof. vm_compute. reflexivity. Qed.
