(* ===== verification/Session.v ===== *)
(** The session manager: src/session_manager.cpp and
    src/internal/session_manager.hpp, with the clock of
    src/internal/clock.hpp.

    A single mutex serializes the operations, so each is one function of the
    state. The clock is read through the argument [now] (the value
    [Clock::now_utc_millis()] returns to that call), the identifier generator
    is threaded as the state of its engine. *)
From S2P Require Import Prelude Types Ids.

Local Open Scope Z_scope.

(** * Definitions *)

(** [class SessionManager] (the pointers to the generator and the clock apart);
    [SessionManager::Snapshot] has the same fields. *)
Record SessionManager : Type := mkSession {
  active_ : bool;
  session_id_ : string;
  player_id_ : string;
  sequence_ : Z;
  started_ms_ : Z
}.

(** The member initializers. *)
Definition new_session_manager : SessionManager := mkSession false "" "" 0 0.

(** [class ManualClock]: construction, [set], [advance] and the read. *)
Definition manual_clock_set (_ ms : Z) : Z := ms.
Definition manual_clock_advance (now ms : Z) : Z := to_int64 (now + ms).

(** [SessionManager::begin]. *)
Definition session_begin (s : SessionManager) (player_id : string) (rng : mt19937_64) (now : Z)
    : string * SessionManager * mt19937_64 :=
  let '(id, rng') := uuid4 rng in
  (id, mkSession true id player_id 0 now, rng').

(** [SessionManager::end]: the answer with the duration written when it is
    true and the pointer is not null. *)
Definition session_end (s : SessionManager) (now : Z) : option Z * SessionManager :=
  if negb (active_ s) then (None, s)
  else (Some (now - started_ms_ s),
        mkSession false (session_id_ s) (player_id_ s) (sequence_ s) (started_ms_ s)).

(** [SessionManager::peek_duration]. *)
Definition peek_duration (s : SessionManager) (now : Z) : option Z :=
  if negb (active_ s) then None else Some (now - started_ms_ s).

(** [SessionManager::next]: identity and sequence number of the next event. *)
Definition session_next (s : SessionManager) : option (string * string * Z) * SessionManager :=
  if negb (active_ s) then (None, s)
  else (Some (session_id_ s, player_id_ s, sequence_ s),
        mkSession (active_ s) (session_id_ s) (player_id_ s) (wrap64 (sequence_ s + 1))
          (started_ms_ s)).

(** [SessionManager::save]. *)
Definition session_save (s : SessionManager) : SessionManager :=
  mkSession (active_ s) (session_id_ s) (player_id_ s) (sequence_ s) (started_ms_ s).

(** [SessionManager::restore]. *)
Definition session_restore (_ : SessionManager) (snapshot : SessionManager) : SessionManager :=
  mkSession (active_ snapshot) (session_id_ snapshot) (player_id_ snapshot)
    (sequence_ snapshot) (started_ms_ snapshot).

(** [SessionManager::deactivate]. *)
Definition session_deactivate (s : SessionManager) : SessionManager :=
  mkSession false (session_id_ s) (player_id_ s) (sequence_ s) (started_ms_ s).

(** [SessionManager::rollback]. *)
Definition session_rollback (s : SessionManager) (session_id : string) (sequence : Z)
    : SessionManager :=
  if active_ s && bool_decide (session_id_ s = session_id) &&
     (sequence_ s =? wrap64 (sequence + 1))
  then mkSession (active_ s) (session_id_ s) (player_id_ s) sequence (started_ms_ s)
  else s.

(** The type invariant: the counter is a [std::uint64_t]. *)
Definition session_wf (s : SessionManager) : Prop := 0 <= sequence_ s < 18446744073709551616.

(** [n] successive assignments, as accepted events perform them. *)
Fixpoint session_nexts (n : nat) (s : SessionManager)
    : list (option (string * string * Z)) * SessionManager :=
  match n with
  | O => ([], s)
  | S n' =>
      let '(a, s1) := session_next s in
      let '(rest, s2) := session_nexts n' s1 in (a :: rest, s2)
  end.

(** * Lemmas *)

Lemma session_nexts_run n s :
  active_ s = true -> 0 <= sequence_ s -> sequence_ s + Z.of_nat n < 18446744073709551616 ->
  session_nexts n s =
    ((fun k => Some (session_id_ s, player_id_ s, k)) <$> seqZ (sequence_ s) (Z.of_nat n),
     mkSession true (session_id_ s) (player_id_ s) (sequence_ s + Z.of_nat n) (started_ms_ s)).
Proof.
  revert s. induction n as [|n IH]; intros s Ha H0 Hn.
  { cbn. rewrite Z.add_0_r. destruct s; simpl in *; by subst. }
  cbn [session_nexts]. unfold session_next. rewrite Ha. cbn [negb].
  rewrite wrap64_small by lia.
  rewrite IH by (simpl; lia || done). cbn [active_ session_id_ player_id_ sequence_ started_ms_].
  rewrite (seqZ_cons (sequence_ s) (Z.of_nat (S n))) by lia. rewrite fmap_cons.
  replace (Z.pred (Z.of_nat (S n))) with (Z.of_nat n) by lia.
  replace (Z.succ (sequence_ s)) with (sequence_ s + 1) by lia.
  do 2 f_equal. lia.
Qed.

Lemma session_rollback_next s sid pid seq s1 :
  session_wf s -> session_next s = (Some (sid, pid, seq), s1) -> session_rollback s1 sid seq = s.
Proof.
  unfold session_next, session_wf. destruct (active_ s) eqn:Ha; [|done]. cbn [negb].
  intros Hwf [= <- <- <- <-]. unfold session_rollback. simpl.
  rewrite bool_decide_eq_true_2, Z.eqb_refl by done. simpl. destruct s; simpl in *; by subst.
Qed.

(** * Properties *)

(** A session numbers its accepted events 0, 1, 2, ... without a gap, all
    of them under the identifier and the player of [begin], as long as fewer
    than 2^64 events are accepted. *)
Theorem session_numbers_gap_free s player rng now n id s1 rng1 :
  session_begin s player rng now = (id, s1, rng1) ->
  Z.of_nat n < 18446744073709551616 ->
  fst (session_nexts n s1) = (fun k => Some (id, player, k)) <$> seqZ 0 (Z.of_nat n).
Proof.
  unfold session_begin. destruct (uuid4 rng) as [id' rng']. intros [= -> <- <-] Hn.
  by rewrite session_nexts_run.
Qed.

(** Witness: three events of a session begun with an empty player id. *)
Lemma session_numbers_gap_free_witness :
  let r := session_begin new_session_manager "p" (mt_seed 1) 1000 in
  fst (session_nexts 3 (snd (fst r))) =
  (fun k => Some (fst (fst r), "p", k)) <$> seqZ 0 3.
Proof.
  intros r.
  apply (session_numbers_gap_free new_session_manager "p" (mt_seed 1) 1000 3
           (fst (fst r)) (snd (fst r)) (snd r)).
  - unfold r. destruct (session_begin _ _ _ _) as [[? ?] ?]. reflexivity.
  - lia.
Defined.

(** a sequence number that was taken but whose event was not admitted is
    given back exactly: [rollback] undoes [next], and it leaves the state alone
    when the session was replaced, ended, or has moved on. *)
Theorem rollback_undoes_next_only s s1 sid pid seq other :
  session_wf s -> session_next s = (Some (sid, pid, seq), s1) ->
  session_rollback s1 sid seq = s /\
  (active_ other = false \/ session_id_ other <> sid \/ sequence_ other <> wrap64 (seq + 1) ->
   session_rollback other sid seq = other).
Proof.
  intros Hwf Hn. split; [by eapply session_rollback_next|].
  intros Hd. unfold session_rollback.
  destruct (active_ other && _ && _) eqn:E; [|done]. bool_to_prop.
  case_bool_decide; destruct Hd as [?|[?|?]]; congruence.
Qed.

(** Witness: the fourth event of a session is refused by the queue. *)
Lemma rollback_undoes_next_only_witness :
  let s := mkSession true "s" "p" 3 0 in
  session_rollback (mkSession true "s" "p" 4 0) "s" 3 = s /\
  (active_ s = false \/ session_id_ s <> "s" \/ sequence_ s <> wrap64 (3 + 1) ->
   session_rollback s "s" 3 = s).
Proof.
  intros s.
  apply (rollback_undoes_next_only s (mkSession true "s" "p" 4 0) "s" "p" 3 s).
  - unfold session_wf; simpl; lia.
  - reflexivity.
Defined.
