(* ===== verification/Serializer.v ===== *)
(** The JSON serializer: src/json_serializer.cpp and
    src/internal/json_serializer.hpp.

    The timestamp formatter is modelled down to the characters, with the C
    library's [gmtime_r] (proleptic Gregorian calendar) and [snprintf] written
    out. nlohmann/json is a vendored library: the object [serialize] builds is
    modelled, [dump] and [accept] are parameters of the section. *)
From S2P Require Import Prelude Types.

Local Open Scope Z_scope.

(** * Definitions *)

(** ** Calendar *)

(** [std::tm], the fields the code reads. *)
Record tm : Type := mkTm {
  tm_year : Z;   (* years since 1900 *)
  tm_mon : Z;    (* 0..11 *)
  tm_mday : Z;
  tm_hour : Z;
  tm_min : Z;
  tm_sec : Z
}.

(** Year, month and day of a day number of the 400-year era that starts on
    March 1st of year 0. *)
Definition civil_of_doe (doe : Z) : Z * Z * Z :=
  let yoe := (doe - doe / 1460 + doe / 36524 - doe / 146096) / 365 in
  let doy := doe - (365 * yoe + yoe / 4 - yoe / 100) in
  let mp := (5 * doy + 2) / 153 in
  let d := doy - (153 * mp + 2) / 5 + 1 in
  let m := if mp <? 10 then mp + 3 else mp - 9 in
  (if m <=? 2 then yoe + 1 else yoe, m, d).

(** The civil date of a day counted from 1970-01-01. *)
Definition civil_from_days (days : Z) : Z * Z * Z :=
  let z := days + 719468 in
  let '(y, m, d) := civil_of_doe (z mod 146097) in
  (y + 400 * (z / 146097), m, d).

(** [gmtime_r]: fails when the year does not fit an [int]. *)
Definition gmtime_r (secs : Z) : option tm :=
  let '(y, m, d) := civil_from_days (secs / 86400) in
  let sod := secs mod 86400 in
  if (-2147483648 <=? y - 1900) && (y - 1900 <=? 2147483647)
  then Some (mkTm (y - 1900) (m - 1) d (sod / 3600) (sod / 60 mod 60) (sod mod 60))
  else None.

(** ** Formatting *)

(** [%0<w>d] of a non-negative [int]. *)
Definition printf_0d (w : nat) (z : Z) : list Ascii.ascii :=
  let s := chars (to_string z) in replicate (w - length s) "0"%char ++ s.

(** The placeholder returned for a timestamp outside the calendar. *)
Definition epoch_placeholder : string := "1970-01-01T00:00:00.000Z".

(** [JsonSerializer::iso8601_utc]. *)
Definition iso8601_utc (epoch_ms : Z) : string :=
  let secs64 := Z.quot epoch_ms 1000 in
  let millis := Z.rem epoch_ms 1000 in
  let '(millis, secs64) :=
    if millis <? 0 then (millis + 1000, secs64 - 1) else (millis, secs64) in
  match gmtime_r secs64 with
  | None => epoch_placeholder
  | Some tm_utc =>
      let year := tm_year tm_utc + 1900 in
      let month := tm_mon tm_utc + 1 in
      let day := tm_mday tm_utc in
      let hour := tm_hour tm_utc in
      let minute := tm_min tm_utc in
      let second := tm_sec tm_utc in
      if (year <? 0) || (9999 <? year) || (month <? 1) || (12 <? month) || (day <? 1) ||
         (31 <? day) || (hour <? 0) || (23 <? hour) || (minute <? 0) || (59 <? minute) ||
         (second <? 0) || (60 <? second) || (millis <? 0) || (999 <? millis)
      then epoch_placeholder
      else
        let buf := printf_0d 4 year ++ ["-"%char] ++ printf_0d 2 month ++ ["-"%char] ++
                   printf_0d 2 day ++ ["T"%char] ++ printf_0d 2 hour ++ [":"%char] ++
                   printf_0d 2 minute ++ [":"%char] ++ printf_0d 2 second ++ ["."%char] ++
                   printf_0d 3 millis ++ ["Z"%char] in
        if 40 <=? vsize buf then epoch_placeholder   (* written >= sizeof(buf) *)
        else of_chars buf
  end.

(** ** The object handed to the JSON library *)

(** [nlohmann::ordered_json] values, the kinds the serializer creates. *)
Inductive json : Type :=
| JBool (b : bool)
| JInt (z : Z)           (* int64 *)
| JUnsigned (z : Z)      (* uint64 *)
| JDouble (d : double)
| JString (s : string)
| JObject (fields : list (string * json)).

(** [obj[key] = value] on an ordered object: an existing key is overwritten in
    place, a new one is appended. *)
Fixpoint json_set (fields : list (string * json)) (key : string) (value : json)
    : list (string * json) :=
  match fields with
  | [] => [(key, value)]
  | (k, v) :: rest =>
      if bool_decide (k = key) then (k, value) :: rest
      else (k, v) :: json_set rest key value
  end.

(** The [switch] on the type of a property value. *)
Definition json_of_value (value : PropertyValue) : json :=
  match value with
  | PVBool b => JBool b
  | PVInt z => JInt z
  | PVDouble d => JDouble d
  | PVString s => JString s
  end.

(** The [for] loop that fills [props]. *)
Definition json_of_properties (props : Properties) : list (string * json) :=
  foldl (fun acc kv => json_set acc (fst kv) (json_of_value (snd kv))) [] props.

(** The object [j] of [JsonSerializer::serialize]. *)
Definition event_fields (e : Event) : list (string * json) :=
  let j := [] in
  let j := json_set j "event_id" (JString (event_id e)) in
  let j := json_set j "app_id" (JString (app_id e)) in
  let j := json_set j "name" (JString (name e)) in
  let j := json_set j "schema_version" (JInt (schema_version e)) in
  let j := json_set j "timestamp_ms" (JInt (timestamp_ms e)) in
  let j := json_set j "timestamp" (JString (iso8601_utc (timestamp_ms e))) in
  let j := json_set j "session_id" (JString (session_id e)) in
  let j := if bool_decide (player_id e = "") then j
           else json_set j "player_id" (JString (player_id e)) in
  let j := json_set j "seq" (JUnsigned (sequence e)) in
  json_set j "properties" (JObject (json_of_properties (properties e))).

(** What a call into the JSON library does: returns, throws a
    [std::exception], or throws something else. *)
Inductive library_call (A : Type) : Type :=
| Value (a : A)
| StdException (what : string)
| OtherException.
Arguments Value {A} _.
Arguments StdException {A} _.
Arguments OtherException {A}.

Section Library.
Context (dump : json -> library_call string) (accept : string -> library_call bool).

(** [JsonSerializer::serialize] with a non-null output: the status and the
    final contents of [*out]. *)
Definition serialize (e : Event) : Status * string :=
  match dump (JObject (event_fields e)) with
  | Value s => (status_ok, s)
  | StdException what =>
      (mkStatus Internal ("event serialization failed: " +:+ what), "")
  | OtherException =>
      (mkStatus Internal "event serialization failed with an unknown exception", "")
  end.

(** [JsonSerializer::is_valid_json]. *)
Definition is_valid_json (text : string) : bool :=
  match accept text with
  | Value b => b
  | StdException _ | OtherException => false
  end.
End Library.

(** ** Reference calendar and timestamp reader *)

(** Gregorian leap years. *)
Definition is_leap (y : Z) : bool :=
  (y mod 4 =? 0) && (negb (y mod 100 =? 0) || (y mod 400 =? 0)).

(** Days before month [m] of year [y]. *)
Definition days_before_month (y m : Z) : Z :=
  nth (Z.to_nat m) [0; 0; 31; 59; 90; 120; 151; 181; 212; 243; 273; 304; 334] 0 +
  (if (2 <? m) && is_leap y then 1 else 0).

(** Days before January 1st of year [y], from January 1st of year 1. *)
Definition days_before_year (y : Z) : Z :=
  365 * (y - 1) + (y - 1) / 4 - (y - 1) / 100 + (y - 1) / 400.

(** The day number, from 1970-01-01, of a civil date. *)
Definition day_number (y m d : Z) : Z :=
  days_before_year y + days_before_month y m + (d - 1) - days_before_year 1970.

(** The value of a list of decimal digits. *)
Fixpoint read_dec (acc : Z) (l : list Ascii.ascii) : option Z :=
  match l with
  | [] => Some acc
  | c :: l' =>
      let v := byte_val c in
      if (48 <=? v) && (v <=? 57) then read_dec (10 * acc + (v - 48)) l' else None
  end.

(** Reads [YYYY-MM-DDTHH:MM:SS.mmmZ] back to epoch milliseconds. *)
Definition read_iso8601 (s : string) : option Z :=
  let l := chars s in
  let field off len := read_dec 0 (take len (drop off l)) in
  let sep off c := bool_decide (nth off l " "%char = c) in
  if bool_decide (length l = 24%nat) && sep 4%nat "-"%char && sep 7%nat "-"%char &&
     sep 10%nat "T"%char && sep 13%nat ":"%char && sep 16%nat ":"%char &&
     sep 19%nat "."%char && sep 23%nat "Z"%char
  then
    y ← field 0%nat 4%nat; m ← field 5%nat 2%nat; d ← field 8%nat 2%nat;
    h ← field 11%nat 2%nat; mi ← field 14%nat 2%nat; sec ← field 17%nat 2%nat;
    ms ← field 20%nat 3%nat;
    Some (((day_number y m d * 24 + h) * 60 + mi) * 60000 + sec * 1000 + ms)
  else None.

(** The milliseconds of the years 0000 to 9999. *)
Definition calendar_range (epoch_ms : Z) : Prop :=
  -62167219200000 <= epoch_ms <= 253402300799999.

#[export] Instance calendar_range_dec t : Decision (calendar_range t).
Proof. unfold calendar_range. apply _. Defined.

(** The fields of a serialized event, in wire order. *)
Definition wire_fields (e : Event) : list (string * json) :=
  [("event_id", JString (event_id e)); ("app_id", JString (app_id e));
   ("name", JString (name e)); ("schema_version", JInt (schema_version e));
   ("timestamp_ms", JInt (timestamp_ms e));
   ("timestamp", JString (iso8601_utc (timestamp_ms e)));
   ("session_id", JString (session_id e))] ++
  (if bool_decide (player_id e = "") then [] else [("player_id", JString (player_id e))]) ++
  [("seq", JUnsigned (sequence e));
   ("properties", JObject (prod_map id json_of_value <$> properties e))].

(** * Lemmas: calendar *)

(** The year of the era: its first day is at most [doe], within 365 days. *)
Lemma era_year_bounds doe :
  0 <= doe < 146097 ->
  let yoe := (doe - doe / 1460 + doe / 36524 - doe / 146096) / 365 in
  0 <= yoe <= 399 /\ 0 <= doe - (365 * yoe + yoe / 4 - yoe / 100) <= 365.
Proof. intros H. cbv zeta. Z.to_euclidean_division_equations. lia. Qed.

(** January 1st of [y], counted through the leap days up to year [y]. *)
Lemma days_before_year_leap y :
  days_before_year y + (if is_leap y then 1 else 0) =
  365 * y + y / 4 - y / 100 + y / 400 - 365.
Proof.
  unfold days_before_year, is_leap.
  destruct (Z.eqb_spec (y mod 4) 0), (Z.eqb_spec (y mod 100) 0), (Z.eqb_spec (y mod 400) 0);
    cbn [andb orb negb]; Z.to_euclidean_division_equations; lia.
Qed.

Lemma days_before_year_mono y y' : y <= y' -> days_before_year y <= days_before_year y'.
Proof. intros H. unfold days_before_year. Z.to_euclidean_division_equations. lia. Qed.

(** Month and day of a day counted from March 1st: a boolean check on the 366
    days. *)
Definition doy_check (doy : Z) : bool :=
  let mp := (5 * doy + 2) / 153 in
  let d := doy - (153 * mp + 2) / 5 + 1 in
  let m := if mp <? 10 then mp + 3 else mp - 9 in
  (1 <=? m) && (m <=? 12) && (1 <=? d) && (d <=? 31) &&
  (nth (Z.to_nat m) [0; 0; 31; 59; 90; 120; 151; 181; 212; 243; 273; 304; 334] 0 + (d - 1) =?
   if m <=? 2 then doy - 306 else doy + 59) &&
  (if m <=? 2 then 306 <=? doy else doy <=? 305).

Lemma doy_check_all doy : 0 <= doy <= 365 -> doy_check doy = true.
Proof.
  intros H. apply (range_check_sound doy_check 0 366); [vm_compute; reflexivity|lia].
Qed.

(** The date [civil_from_days] gives denotes the day it was computed from. *)
Lemma civil_from_days_correct days y m d :
  civil_from_days days = (y, m, d) ->
  day_number y m d = days /\ 1 <= m <= 12 /\ 1 <= d <= 31 /\
  0 <= days_before_month y m + (d - 1) <= 364 + (if is_leap y then 1 else 0).
Proof.
  unfold civil_from_days, civil_of_doe.
  pose proof (Z.mod_pos_bound (days + 719468) 146097 ltac:(lia)) as Hdoe.
  pose proof (Z.div_mod (days + 719468) 146097 ltac:(lia)) as Hz.
  set (doe := (days + 719468) mod 146097) in *. set (era := (days + 719468) / 146097) in *.
  pose proof (era_year_bounds doe Hdoe) as Hy. cbv zeta in Hy.
  set (yoe := (doe - doe / 1460 + doe / 36524 - doe / 146096) / 365) in *.
  set (doy := doe - (365 * yoe + yoe / 4 - yoe / 100)) in *.
  pose proof (doy_check_all doy ltac:(lia)) as Hc. unfold doy_check in Hc. cbv zeta in Hc.
  set (mp := (5 * doy + 2) / 153) in *.
  set (m' := if mp <? 10 then mp + 3 else mp - 9) in *.
  set (d' := doy - (153 * mp + 2) / 5 + 1) in *. intros [= <- <- <-].
  pose proof (days_before_year_leap (yoe + 400 * era)) as Hleap.
  unfold day_number, days_before_month. bool_to_prop.
  assert ((yoe + 400 * era) / 400 = era) as Hq by (Z.to_euclidean_division_equations; lia).
  assert ((yoe + 400 * era) / 100 = yoe / 100 + 4 * era) as Hq2 by (Z.to_euclidean_division_equations; lia).
  assert ((yoe + 400 * era) / 4 = yoe / 4 + 100 * era) as Hq3 by (Z.to_euclidean_division_equations; lia).
  destruct (Z.leb_spec m' 2) as [Hm|Hm]; bool_to_prop.
  - rewrite (proj2 (Z.ltb_ge 2 m')) by lia. cbn [andb].
    unfold days_before_year at 1 2. replace (yoe + 1 + 400 * era - 1) with (yoe + 400 * era) by lia.
    change ((1970 - 1) / 4) with 492. change ((1970 - 1) / 100) with 19.
    change ((1970 - 1) / 400) with 4.
    split_and!; try lia; destruct (is_leap (yoe + 1 + 400 * era)); lia.
  - rewrite (proj2 (Z.ltb_lt 2 m')) by lia. cbn [andb].
    change (days_before_year 1970) with 719162.
    split_and!; try lia; destruct (is_leap (yoe + 400 * era)); lia.
Qed.

(** * Lemmas: formatting *)

(** A zero-padded field reads back and has its width. *)
Definition field_check (w : nat) (z : Z) : bool :=
  bool_decide (length (printf_0d w z) = w) &&
  bool_decide (read_dec 0 (printf_0d w z) = Some z).

Lemma field_check_2 z : 0 <= z < 100 -> field_check 2 z = true.
Proof.
  intros H. apply (range_check_sound (field_check 2) 0 100); [vm_compute; reflexivity|lia].
Qed.

Lemma field_check_3 z : 0 <= z < 1000 -> field_check 3 z = true.
Proof.
  intros H. apply (range_check_sound (field_check 3) 0 1000); [vm_compute; reflexivity|lia].
Qed.

Lemma field_check_4 z : 0 <= z < 10000 -> field_check 4 z = true.
Proof.
  intros H. apply (range_check_sound (field_check 4) 0 10000); [vm_compute; reflexivity|lia].
Qed.

Lemma floor_split t :
  (if Z.rem t 1000 <? 0 then (Z.rem t 1000 + 1000, Z.quot t 1000 - 1)
   else (Z.rem t 1000, Z.quot t 1000)) = (t mod 1000, t / 1000).
Proof.
  destruct (Z.ltb_spec (Z.rem t 1000) 0); f_equal; Z.to_euclidean_division_equations; lia.
Qed.

(** The formatted fields read back as they were printed. *)
Lemma iso_fields_read year month day hour minute second millis :
  0 <= year < 10000 -> 0 <= month < 100 -> 0 <= day < 100 -> 0 <= hour < 100 ->
  0 <= minute < 100 -> 0 <= second < 100 -> 0 <= millis < 1000 ->
  let buf := printf_0d 4 year ++ ["-"%char] ++ printf_0d 2 month ++ ["-"%char] ++
             printf_0d 2 day ++ ["T"%char] ++ printf_0d 2 hour ++ [":"%char] ++
             printf_0d 2 minute ++ [":"%char] ++ printf_0d 2 second ++ ["."%char] ++
             printf_0d 3 millis ++ ["Z"%char] in
  length buf = 24%nat /\
  read_iso8601 (of_chars buf) =
    Some (((day_number year month day * 24 + hour) * 60 + minute) * 60000 + second * 1000 + millis).
Proof.
  intros H1 H2 H3 H4 H5 H6 H7 buf. subst buf.
  pose proof (field_check_4 _ H1) as F1. pose proof (field_check_2 _ H2) as F2.
  pose proof (field_check_2 _ H3) as F3. pose proof (field_check_2 _ H4) as F4.
  pose proof (field_check_2 _ H5) as F5. pose proof (field_check_2 _ H6) as F6.
  pose proof (field_check_3 _ H7) as F7.
  unfold field_check in *. rewrite andb_true_iff, !bool_decide_eq_true in *.
  destruct F1 as [L1 F1], F2 as [L2 F2], F3 as [L3 F3], F4 as [L4 F4], F5 as [L5 F5],
    F6 as [L6 F6], F7 as [L7 F7].
  destruct (printf_0d 4 year) as [|? [|? [|? [|? [|]]]]]; try done.
  destruct (printf_0d 2 month) as [|? [|? [|]]]; try done.
  destruct (printf_0d 2 day) as [|? [|? [|]]]; try done.
  destruct (printf_0d 2 hour) as [|? [|? [|]]]; try done.
  destruct (printf_0d 2 minute) as [|? [|? [|]]]; try done.
  destruct (printf_0d 2 second) as [|? [|? [|]]]; try done.
  destruct (printf_0d 3 millis) as [|? [|? [|? [|]]]]; try done.
  split; [done|]. unfold read_iso8601. rewrite chars_of_chars. cbv zeta.
  cbn [app length nth take drop]. rewrite !bool_decide_eq_true_2 by done. cbn [andb].
  rewrite F1, F2, F3, F4, F5, F6, F7. done.
Qed.

Lemma iso8601_in_range t :
  calendar_range t ->
  read_iso8601 (iso8601_utc t) = Some t /\ String.length (iso8601_utc t) = 24%nat.
Proof.
  unfold calendar_range. intros Hr. unfold iso8601_utc. rewrite floor_split.
  unfold gmtime_r. destruct (civil_from_days (t / 1000 / 86400)) as [[y m] d] eqn:Ec.
  apply civil_from_days_correct in Ec as (Hday & Hm & Hd & Hb). pose proof Hday as Hdn.
  unfold day_number in Hday. change (days_before_year 1970) with 719162 in Hday.
  set (days := t / 1000 / 86400) in *.
  assert (-719528 <= days <= 2932896) as Hdays
    by (unfold days; Z.to_euclidean_division_equations; lia).
  assert (0 <= y <= 9999) as Hy.
  { split; apply Z.nlt_ge; intros Hlt.
    - pose proof (days_before_year_leap y) as Hl.
      pose proof (days_before_year_mono (y + 1) 0 ltac:(lia)) as Hmono.
      change (days_before_year 0) with (-366) in Hmono.
      assert (days_before_year (y + 1) = days_before_year y + 365 + (if is_leap y then 1 else 0)).
      { unfold days_before_year at 1. replace (y + 1 - 1) with y by lia. lia. }
      lia.
    - pose proof (days_before_year_mono 10000 y ltac:(lia)) as Hmono.
      change (days_before_year 10000) with 3652059 in Hmono. lia. }
  rewrite (proj2 (Z.leb_le _ _)), (proj2 (Z.leb_le _ _)) by lia. cbn [andb].
  cbn [tm_year tm_mon tm_mday tm_hour tm_min tm_sec].
  replace (y - 1900 + 1900) with y by lia. replace (m - 1 + 1) with m by lia.
  set (sod := (t / 1000) mod 86400) in *.
  assert (0 <= sod < 86400) by (apply Z.mod_pos_bound; lia).
  assert (0 <= sod / 3600 < 24) by (Z.to_euclidean_division_equations; lia).
  assert (0 <= sod / 60 mod 60 < 60) by (apply Z.mod_pos_bound; lia).
  assert (0 <= sod mod 60 < 60) by (apply Z.mod_pos_bound; lia).
  assert (0 <= t mod 1000 < 1000) by (apply Z.mod_pos_bound; lia).
  rewrite !(proj2 (Z.ltb_ge _ _)) by lia. cbn [orb].
  edestruct (iso_fields_read y m d (sod / 3600) (sod / 60 mod 60) (sod mod 60) (t mod 1000))
    as [Hlen Hread]; try lia. cbv zeta in Hlen, Hread.
  unfold vsize. rewrite Hlen. change (40 <=? Z.of_nat 24) with false. cbv iota.
  rewrite Hread, <- length_chars, chars_of_chars, Hlen, Hdn. split; [|done]. f_equal.
  unfold days, sod in *. clear. Z.to_euclidean_division_equations. lia.
Qed.

Lemma iso8601_out_of_range t : ~ calendar_range t -> iso8601_utc t = epoch_placeholder.
Proof.
  unfold calendar_range. intros Hr. unfold iso8601_utc. rewrite floor_split.
  unfold gmtime_r. destruct (civil_from_days (t / 1000 / 86400)) as [[y m] d] eqn:Ec.
  apply civil_from_days_correct in Ec as (Hday & Hm & Hd & Hb).
  unfold day_number in Hday. change (days_before_year 1970) with 719162 in Hday.
  destruct (_ && _); [|done]. cbn [tm_year tm_mon tm_mday tm_hour tm_min tm_sec].
  replace (y - 1900 + 1900) with y by lia.
  assert (y < 0 \/ 9999 < y) as Hy.
  { apply Decidable.not_not; [unfold Decidable.decidable; lia|]. intros Hy.
    pose proof (days_before_year_mono 0 y ltac:(lia)) as H0.
    pose proof (days_before_year_mono (y + 1) 10000 ltac:(lia)) as H1.
    change (days_before_year 0) with (-366) in H0.
    change (days_before_year 10000) with 3652059 in H1.
    pose proof (days_before_year_leap y) as Hl.
    assert (days_before_year (y + 1) = days_before_year y + 365 + (if is_leap y then 1 else 0)).
    { unfold days_before_year at 1. replace (y + 1 - 1) with y by lia. lia. }
    apply Hr. assert (-719528 <= t / 1000 / 86400 <= 2932896) as Hdays by lia.
    clear -Hdays. Z.to_euclidean_division_equations. lia. }
  destruct Hy as [Hy|Hy]; [rewrite (proj2 (Z.ltb_lt y 0)) by lia|
    rewrite (proj2 (Z.ltb_lt 9999 y)) by lia; rewrite orb_true_r]; done.
Qed.

(** * Lemmas: the serialized object *)

Lemma json_set_fresh fields key value :
  key ∉ fields.*1 -> json_set fields key value = fields ++ [(key, value)].
Proof.
  induction fields as [|[k v] fields IH]; intros Hf; simpl; [done|].
  rewrite fmap_cons in Hf. apply not_elem_of_cons in Hf as [Hne Hf].
  rewrite bool_decide_eq_false_2 by (simpl in Hne; congruence). by rewrite IH.
Qed.

Lemma json_of_properties_distinct props :
  NoDup props.*1 -> json_of_properties props = prod_map id json_of_value <$> props.
Proof.
  unfold json_of_properties. intros Hnd.
  assert (forall acc, (forall k, k ∈ props.*1 -> k ∉ acc.*1) ->
    foldl (fun acc kv => json_set acc (fst kv) (json_of_value (snd kv))) acc props =
    acc ++ (prod_map id json_of_value <$> props)) as H; [|by apply H; set_solver].
  induction props as [|[k v] props IH]; intros acc Hf; simpl; [by rewrite app_nil_r|].
  rewrite fmap_cons in Hnd. apply NoDup_cons in Hnd as [Hk Hnd].
  rewrite json_set_fresh by (apply Hf; set_solver). rewrite IH.
  - by rewrite <- app_assoc.
  - done.
  - intros k' Hk'. rewrite fmap_app. simpl. simpl in Hk.
    apply not_elem_of_app. split; [apply Hf; set_solver|]. set_solver.
Qed.

Lemma event_fields_wire e : NoDup (properties e).*1 -> event_fields e = wire_fields e.
Proof.
  intros Hnd. unfold event_fields, wire_fields. rewrite json_of_properties_distinct by done.
  by case_bool_decide.
Qed.

(** * Properties *)

(** C36: the timestamp text is exact. For every time of the years 0000 to 9999
    the 24 characters printed are [YYYY-MM-DDTHH:MM:SS.mmmZ] and read back, by
    the Gregorian calendar, to the very millisecond given, before 1970 too;
    outside those years the documented placeholder is returned. *)
Theorem iso8601_utc_exact t :
  if decide (calendar_range t)
  then read_iso8601 (iso8601_utc t) = Some t /\ String.length (iso8601_utc t) = 24%nat
  else iso8601_utc t = epoch_placeholder.
Proof. case_decide; [by apply iso8601_in_range|by apply iso8601_out_of_range]. Qed.

(** What is serialized. For an event with distinct property keys the
    object given to the JSON library has exactly the wire fields in wire order,
    the player id present exactly when it is not empty and the properties in
    insertion order with their types; [serialize] returns that object's text,
    and any exception of the library becomes an Internal status with an empty
    output. *)
Theorem serialize_wire_format (dump : json -> library_call string) e :
  NoDup (properties e).*1 ->
  serialize dump e =
    match dump (JObject (wire_fields e)) with
    | Value s => (status_ok, s)
    | StdException what => (mkStatus Internal ("event serialization failed: " +:+ what), "")
    | OtherException =>
        (mkStatus Internal "event serialization failed with an unknown exception", "")
    end.
Proof. intros Hnd. unfold serialize. by rewrite event_fields_wire. Qed.

(** Witness: a two-property event without a player id. *)
Lemma serialize_wire_format_witness :
  let e := mkEvent "id" "app" "level_started" 1 1000 "sid" "" 0
             [("level", PVInt 3); ("hard", PVBool true)] in
  let dump j := Value (match j with JObject fs => String.concat "," fs.*1 | _ => "" end) in
  serialize dump e =
    (status_ok, "event_id,app_id,name,schema_version,timestamp_ms,timestamp,session_id,seq,properties").
Proof.
  intros e dump. apply (serialize_wire_format dump e).
  apply (bool_decide_unpack _). vm_compute. exact I.
Defined.
