(* ===== verification/SqlText.v ===== *)
(** The textual schema checks of the store: the pure functions at the top of
    src/sqlite_store.cpp (schema DDL, [strip_sql_noise], [collapse_spaces],
    [check_expressions], [parse_schema_version]).

    The index loops of the source are written as recursion on the suffix of
    the text that starts at the index: [sql[i]] is the head of the suffix,
    [sql[i + 1]] the next character. *)
From S2P Require Import Prelude Types.

Local Open Scope Z_scope.

(** * Definitions *)

(** [kRevocationKey]. *)
Definition kRevocationKey : string := "revocation_pending".

(** [kStoreSchemaVersion]. *)
Definition kStoreSchemaVersion : Z := 3.

(** [kCreateMeta]. *)
Definition kCreateMeta : string :=
  "CREATE TABLE IF NOT EXISTS schema_meta (" +:+
  "  key   TEXT PRIMARY KEY NOT NULL," +:+
  "  value TEXT NOT NULL);".

(** [kCreateEvents]. *)
Definition kCreateEvents : string :=
  "CREATE TABLE IF NOT EXISTS events (" +:+
  "  event_id   TEXT PRIMARY KEY NOT NULL CHECK(length(event_id) > 0)," +:+
  "  session_id TEXT NOT NULL," +:+
  "  seq        INTEGER NOT NULL," +:+
  "  ordinal    INTEGER NOT NULL," +:+
  "  created_ms INTEGER NOT NULL," +:+
  "  payload    TEXT NOT NULL);".

(** [kCreateIndex]. *)
Definition kCreateIndex : string :=
  "CREATE INDEX IF NOT EXISTS idx_events_order ON events(ordinal);".

(** [struct ColumnSpec]. *)
Record ColumnSpec : Type := mkColumn {
  col_name : string; col_type : string; col_notnull : Z; col_pk : Z }.

(** [kEventsColumns]. *)
Definition kEventsColumns : list ColumnSpec :=
  [mkColumn "event_id" "TEXT" 1 1; mkColumn "session_id" "TEXT" 1 0;
   mkColumn "seq" "INTEGER" 1 0; mkColumn "ordinal" "INTEGER" 1 0;
   mkColumn "created_ms" "INTEGER" 1 0; mkColumn "payload" "TEXT" 1 0].

(** [kMetaColumns]. *)
Definition kMetaColumns : list ColumnSpec :=
  [mkColumn "key" "TEXT" 1 1; mkColumn "value" "TEXT" 1 0].

(** One character of [to_lower_ascii]. *)
Definition lower_char (c : Ascii.ascii) : Ascii.ascii :=
  let v := byte_val c in
  if (65 <=? v) && (v <=? 90) then Ascii.ascii_of_N (Z.to_N (v - 65 + 97)) else c.

(** [to_lower_ascii]. *)
Definition to_lower_ascii (text : list Ascii.ascii) : list Ascii.ascii := lower_char <$> text.

(** [is_ident_char]. *)
Definition is_ident_char (c : Ascii.ascii) : bool :=
  let v := byte_val c in
  ((97 <=? v) && (v <=? 122)) || ((65 <=? v) && (v <=? 90)) ||
  ((48 <=? v) && (v <=? 57)) || (v =? 95) || (v =? 36).

(** Character constants of the scanner. *)
Definition newline : Ascii.ascii := Ascii.ascii_of_N 10.
Definition dquote : Ascii.ascii := Ascii.ascii_of_N 34.

Definition ceq (a b : Ascii.ascii) : bool := Ascii.eqb a b.

(** The line-comment loop: up to, not including, the next newline. *)
Fixpoint skip_line (l : list Ascii.ascii) : list Ascii.ascii :=
  match l with
  | [] => []
  | c :: l' => if ceq c newline then l else skip_line l'
  end.

(** The block-comment loop and its final index: past the closing mark, or the
    end of the input when there is none. *)
Fixpoint skip_block (l : list Ascii.ascii) : list Ascii.ascii :=
  match l with
  | a :: ((b :: l'') as l') =>
      if ceq a "*"%char && ceq b "/"%char then l'' else skip_block l'
  | _ => []
  end.

(** The quoted-region loop: past the terminator, a doubled terminator being an
    escape when [doubling]. *)
Fixpoint skip_quoted (close : Ascii.ascii) (doubling : bool) (l : list Ascii.ascii)
    : list Ascii.ascii :=
  match l with
  | [] => []
  | c :: l' =>
      if ceq c close then
        match l' with
        | d :: l'' => if doubling && ceq d close then skip_quoted close doubling l'' else l'
        | [] => l'
        end
      else skip_quoted close doubling l'
  end.

(** The four opening quote characters: single, double, back quote, bracket. *)
Definition opens_quote (c : Ascii.ascii) : bool :=
  ceq c "'"%char || ceq c dquote || ceq c "`"%char || ceq c "["%char.

(** The terminator of a quoted region. *)
Definition closing_of (c : Ascii.ascii) : Ascii.ascii :=
  if ceq c "["%char then "]"%char else c.

(** The outer loop of [strip_sql_noise] on the suffix [l]. *)
Fixpoint strip_loop (fuel : nat) (l : list Ascii.ascii) : list Ascii.ascii :=
  match fuel with
  | O => []
  | S fuel' =>
      match l with
      | [] => []
      | c :: l' =>
          match l' with
          | d :: l'' =>
              if ceq c "-"%char && ceq d "-"%char
              then " "%char :: strip_loop fuel' (skip_line l)
              else if ceq c "/"%char && ceq d "*"%char
              then " "%char :: strip_loop fuel' (skip_block l'')
              else if opens_quote c
              then " "%char :: strip_loop fuel'
                     (skip_quoted (closing_of c) (negb (ceq c "["%char)) l')
              else c :: strip_loop fuel' l'
          | [] =>
              if opens_quote c then [" "%char] else [c]
          end
      end
  end.

(** [strip_sql_noise]. Every iteration consumes a character, so the length of
    the text is enough fuel (lemma [strip_loop_fuel]). *)
Definition strip_sql_noise (sql : list Ascii.ascii) : list Ascii.ascii :=
  strip_loop (length sql) sql.

(** The six characters [collapse_spaces] removes. *)
Definition is_space6 (c : Ascii.ascii) : bool :=
  let v := byte_val c in
  (v =? 32) || (v =? 9) || (v =? 10) || (v =? 13) || (v =? 12) || (v =? 11).

(** [collapse_spaces]. *)
Fixpoint collapse_spaces (text : list Ascii.ascii) : list Ascii.ascii :=
  match text with
  | [] => []
  | c :: text' => if is_space6 c then collapse_spaces text' else c :: collapse_spaces text'
  end.

(** The token the scanner looks for. *)
Definition check_token : list Ascii.ascii := chars "check".

(** [lowered.find("check", i)]: the text before the match (reversed, so its
    head is [lowered[at - 1]]) and the suffix after it. *)
Fixpoint find_check (before l : list Ascii.ascii)
    : option (list Ascii.ascii * list Ascii.ascii) :=
  if bool_decide (take 5 l = check_token) then Some (before, drop 5 l)
  else
    match l with
    | [] => None
    | c :: l' => find_check (c :: before) l'
    end.

(** The four characters skipped between CHECK and its parenthesis. *)
Definition is_space4 (c : Ascii.ascii) : bool :=
  let v := byte_val c in (v =? 32) || (v =? 9) || (v =? 10) || (v =? 13).

Fixpoint skip_space4 (l : list Ascii.ascii) : list Ascii.ascii :=
  match l with
  | [] => []
  | c :: l' => if is_space4 c then skip_space4 l' else l
  end.

(** The parenthesis loop from inside the first one: the text up to the matching
    ')' and the suffix after it; [None] when the depth never returns to 0. *)
Fixpoint balanced (depth : nat) (l : list Ascii.ascii)
    : option (list Ascii.ascii * list Ascii.ascii) :=
  match l with
  | [] => None
  | c :: l' =>
      if ceq c "("%char then
        prod_map (cons c) id <$> balanced (S depth) l'
      else if ceq c ")"%char then
        match depth with
        | O => Some ([], l')
        | S depth' => prod_map (cons c) id <$> balanced depth' l'
        end
      else prod_map (cons c) id <$> balanced depth l'
  end.

(** [left_ok]: the character before the match is not an identifier character. *)
Definition boundary (l : list Ascii.ascii) : bool :=
  match l with
  | [] => true
  | c :: _ => negb (is_ident_char c)
  end.

(** The [while (true)] loop of [check_expressions], from the suffix [l] with the
    reversed text [before] in front of it. *)
Fixpoint check_loop (fuel : nat) (before l : list Ascii.ascii) : list (list Ascii.ascii) :=
  match fuel with
  | O => []
  | S fuel' =>
      match find_check before l with
      | None => []
      | Some (pre, after) =>
          let here := reverse check_token ++ pre in
          if negb (boundary pre) || negb (boundary after) then check_loop fuel' here after
          else
            match skip_space4 after with
            | c :: inside =>
                if ceq c "("%char then
                  match balanced 0 inside with
                  | None => check_loop fuel' here after
                  | Some (expr, rest) =>
                      collapse_spaces expr ::
                      check_loop fuel' (reverse (take (length after - length rest) after) ++ here) rest
                  end
                else check_loop fuel' here after
            | [] => check_loop fuel' here after
            end
      end
  end.

(** [check_expressions]. Every iteration passes a "check" token, so the length
    of the text is enough fuel (lemma [check_loop_fuel]). *)
Definition check_expressions (ddl : list Ascii.ascii) : list (list Ascii.ascii) :=
  let lowered := to_lower_ascii ddl in check_loop (S (length lowered)) [] lowered.

(** The digit loop of [parse_schema_version]. *)
Fixpoint version_digits (value : Z) (l : list Ascii.ascii) : option Z :=
  match l with
  | [] => Some value
  | c :: l' =>
      let v := byte_val c in
      if (v <? 48) || (57 <? v) then None else version_digits (value * 10 + (v - 48)) l'
  end.

(** [parse_schema_version]. *)
Definition parse_schema_version (text : string) : option Z :=
  if bool_decide (text = "") || (9 <? ssize text) then None
  else
    match version_digits 0 (chars text) with
    | None => None
    | Some value => if int_max <? value then None else Some value
    end.

(** ** Reference definitions *)

(** Text with no quote and no comment mark: what the scanner copies as is. *)
Fixpoint plain_sql (l : list Ascii.ascii) : bool :=
  match l with
  | [] => true
  | c :: l' =>
      negb (opens_quote c) &&
      match l' with
      | d :: _ => negb (ceq c "-"%char && ceq d "-"%char) && negb (ceq c "/"%char && ceq d "*"%char)
      | [] => true
      end && plain_sql l'
  end.

(** The body of a quoted region: terminators are doubled. *)
Definition double_closers (close : Ascii.ascii) (body : list Ascii.ascii) : list Ascii.ascii :=
  mjoin ((fun c => if ceq c close then [c; c] else [c]) <$> body).

(** A quoted region with the given contents; brackets cannot be escaped. *)
Definition quoted (q : Ascii.ascii) (body : list Ascii.ascii) : list Ascii.ascii :=
  [q] ++ (if ceq q "["%char then body else double_closers (closing_of q) body) ++ [closing_of q].

(** Parentheses that match within the text, read at depth [d]. *)
Fixpoint depth_after (d : nat) (l : list Ascii.ascii) : option nat :=
  match l with
  | [] => Some d
  | c :: l' =>
      if ceq c "("%char then depth_after (S d) l'
      else if ceq c ")"%char then match d with O => None | S d' => depth_after d' l' end
      else depth_after d l'
  end.

(** * Lemmas: stripping *)

Lemma ceq_true a b : ceq a b = true <-> a = b.
Proof. apply Ascii.eqb_eq. Qed.

Lemma skip_line_length l : (length (skip_line l) <= length l)%nat.
Proof. induction l as [|c l IH]; simpl; [lia|]. destruct (ceq c newline); simpl; lia. Qed.

Lemma skip_block_length l : (length (skip_block l) <= length l)%nat.
Proof.
  induction l as [|a l IH]; [simpl; lia|]. destruct l as [|b l]; [simpl; lia|].
  cbn [skip_block]. destruct (ceq a "*"%char && ceq b "/"%char); simpl in *; lia.
Qed.

Lemma skip_quoted_length close dbl l : (length (skip_quoted close dbl l) <= length l)%nat.
Proof.
  remember (length l) as n eqn:En. revert l En.
  induction n as [n IH] using lt_wf_ind. intros l ->. destruct l as [|c l]; simpl; [lia|].
  destruct (ceq c close); [|specialize (IH (length l) ltac:(simpl; lia) l eq_refl); lia].
  destruct l as [|d l]; simpl; [lia|]. destruct (dbl && ceq d close); simpl; [|lia].
  specialize (IH (length l) ltac:(simpl; lia) l eq_refl). lia.
Qed.

(** Fuel beyond the length of the text makes no difference. *)
Lemma strip_loop_fuel f1 f2 l :
  (length l <= f1)%nat -> (length l <= f2)%nat -> strip_loop f1 l = strip_loop f2 l.
Proof.
  revert f2 l. induction f1 as [|f1 IH]; intros f2 l H1 H2.
  { destruct l; simpl in *; [by destruct f2|lia]. }
  destruct f2 as [|f2]; [destruct l; simpl in *; [done|lia]|].
  cbn [strip_loop]. destruct l as [|c l]; [done|]. destruct l as [|d l]; [done|].
  simpl in H1, H2.
  destruct (ceq c "-"%char && ceq d "-"%char) eqn:E1.
  { bool_to_prop. rewrite ceq_true in *. subst.
    assert (skip_line ("-"%char :: "-"%char :: l) = skip_line l) as -> by done.
    pose proof (skip_line_length l). f_equal. apply IH; lia. }
  destruct (ceq c "/"%char && ceq d "*"%char).
  { pose proof (skip_block_length l). f_equal. apply IH; lia. }
  destruct (opens_quote c).
  { pose proof (skip_quoted_length (closing_of c) (negb (ceq c "["%char)) (d :: l)).
    simpl in *. f_equal. apply IH; simpl; lia. }
  f_equal. apply IH; simpl; lia.
Qed.

Lemma strip_cons_quote q l :
  opens_quote q = true ->
  strip_sql_noise (q :: l) =
    " "%char :: strip_sql_noise (skip_quoted (closing_of q) (negb (ceq q "["%char)) l).
Proof.
  intros Hq. unfold strip_sql_noise. cbn [length strip_loop].
  assert (ceq q "-"%char = false /\ ceq q "/"%char = false) as [-> ->].
  { unfold opens_quote in Hq. split; apply not_true_iff_false; rewrite ceq_true;
      intros ->; done. }
  cbn [andb]. rewrite Hq. destruct l as [|d l]; [done|].
  f_equal. apply strip_loop_fuel; [|done].
  etransitivity; [apply skip_quoted_length|]. done.
Qed.

Lemma strip_loop_S f c d l :
  strip_loop (S f) (c :: d :: l) =
    if ceq c "-"%char && ceq d "-"%char then " "%char :: strip_loop f (skip_line (c :: d :: l))
    else if ceq c "/"%char && ceq d "*"%char then " "%char :: strip_loop f (skip_block l)
    else if opens_quote c
    then " "%char :: strip_loop f (skip_quoted (closing_of c) (negb (ceq c "["%char)) (d :: l))
    else c :: strip_loop f (d :: l).
Proof. done. Qed.

Lemma strip_line_comment l :
  strip_sql_noise ("-"%char :: "-"%char :: l) = " "%char :: strip_sql_noise (skip_line l).
Proof.
  unfold strip_sql_noise at 1. cbn [length]. rewrite strip_loop_S.
  change (ceq "-"%char "-"%char && ceq "-"%char "-"%char) with true. cbv iota. f_equal.
  change (skip_line ("-"%char :: "-"%char :: l)) with (skip_line l).
  apply strip_loop_fuel; [|done]. change (length (skip_line l) <= S (length l))%nat.
  pose proof (skip_line_length l). lia.
Qed.

Lemma strip_block_comment l :
  strip_sql_noise ("/"%char :: "*"%char :: l) = " "%char :: strip_sql_noise (skip_block l).
Proof.
  unfold strip_sql_noise at 1. cbn [length]. rewrite strip_loop_S.
  change (ceq "/"%char "-"%char && ceq "*"%char "-"%char) with false.
  change (ceq "/"%char "/"%char && ceq "*"%char "*"%char) with true. cbv iota. f_equal.
  apply strip_loop_fuel; [|done]. pose proof (skip_block_length l). lia.
Qed.

Lemma strip_plain_app a l :
  plain_sql a = true ->
  match l with [] => True | d :: _ => d <> "-"%char /\ d <> "*"%char end ->
  strip_sql_noise (a ++ l) = a ++ strip_sql_noise l.
Proof.
  intros Ha Hl. induction a as [|c a IH]; [done|]. simpl in Ha. bool_to_prop.
  rewrite <- app_comm_cons, <- app_comm_cons, <- IH by done.
  unfold strip_sql_noise. cbn [length strip_loop].
  destruct (a ++ l) as [|d r] eqn:E; [by destruct (opens_quote c)|].
  assert (ceq c "-"%char && ceq d "-"%char = false /\ ceq c "/"%char && ceq d "*"%char = false)
    as [-> ->]; [|by destruct (opens_quote c)].
  destruct a as [|d' a]; simpl in E.
  - subst l. destruct Hl as [Hl1 Hl2]. split; apply andb_false_iff; right;
      apply not_true_iff_false; by rewrite ceq_true.
  - injection E as -> _. match goal with H : negb _ && negb _ = true |- _ =>
      apply andb_true_iff in H as [H1 H2]; apply negb_true_iff in H1, H2 end. done.
Qed.

Lemma skip_double_closers close body post :
  match post with [] => True | d :: _ => d <> close end ->
  skip_quoted close true (double_closers close body ++ close :: post) = post.
Proof.
  intros Hp. unfold double_closers. induction body as [|c body IH].
  - simpl. rewrite (proj2 (ceq_true close close) eq_refl). destruct post as [|d post]; [done|].
    assert (ceq d close = false) as ->; [|done].
    apply not_true_iff_false. by rewrite ceq_true.
  - rewrite fmap_cons. cbn [mjoin list_join].
    destruct (ceq c close) eqn:E; cbn [app skip_quoted].
    + rewrite E. cbn [andb]. apply IH.
    + rewrite E. apply IH.
Qed.

Lemma skip_no_closer close body post :
  close ∉ body -> skip_quoted close false (body ++ close :: post) = post.
Proof.
  intros Hb. induction body as [|c body IH]; simpl.
  - rewrite (proj2 (ceq_true close close) eq_refl). by destruct post.
  - apply not_elem_of_cons in Hb as [Hne Hb].
    assert (ceq c close = false) as ->; [|by apply IH].
    apply not_true_iff_false. rewrite ceq_true. congruence.
Qed.

Lemma skip_line_body body post :
  newline ∉ body -> skip_line (body ++ newline :: post) = newline :: post.
Proof.
  intros Hb. induction body as [|c body IH]; simpl; [done|].
  apply not_elem_of_cons in Hb as [Hne Hb].
  assert (ceq c newline = false) as ->; [|by apply IH].
  apply not_true_iff_false. rewrite ceq_true. congruence.
Qed.

(** * Lemmas: scanning for CHECK *)

Lemma find_check_spec before l pre after :
  find_check before l = Some (pre, after) ->
  reverse before ++ l = reverse pre ++ check_token ++ after /\ (length after < length l)%nat.
Proof.
  revert before. induction l as [|c l IH]; intros before; cbn [find_check].
  { by rewrite bool_decide_eq_false_2. }
  case_bool_decide as E.
  - intros [= <- <-]. split; [rewrite <- E; f_equal; symmetry; exact (take_drop 5 (c :: l))|].
    change (length (drop 5 (c :: l)) < length (c :: l))%nat. rewrite length_drop. simpl. lia.
  - intros H. apply IH in H as [H ?]. split; [|simpl; lia].
    by rewrite reverse_cons, <- app_assoc in H.
Qed.

Lemma skip_space4_spec l :
  exists ws, l = ws ++ skip_space4 l /\ Forall (fun c => is_space4 c = true) ws.
Proof.
  induction l as [|c l [ws [E Hws]]]; simpl; [by exists []|].
  destruct (is_space4 c) eqn:Ec; [|by exists []].
  exists (c :: ws). split; [simpl; by rewrite <- E|by constructor].
Qed.

Lemma balanced_spec d l expr rest :
  balanced d l = Some (expr, rest) ->
  l = expr ++ ")"%char :: rest /\ depth_after d expr = Some 0%nat.
Proof.
  revert d expr. induction l as [|c l IH]; intros d expr; cbn [balanced]; [done|].
  destruct (ceq c "("%char) eqn:E1; [|destruct (ceq c ")"%char) eqn:E2; [destruct d as [|d]|]].
  2: { intros [= <- <-]. apply ceq_true in E2 as ->. done. }
  all: intros H; apply fmap_Some in H as ([e r] & Hb & [= -> ->]);
    apply IH in Hb as [-> Hd]; split; [done|]; cbn [depth_after]; by rewrite E1, ?E2.
Qed.

(** Every reported expression is the balanced operand of a whole-word CHECK. *)
Lemma check_loop_sound fuel before l e :
  e ∈ check_loop fuel before l ->
  exists pre ws expr post,
    reverse before ++ l = pre ++ check_token ++ ws ++ "("%char :: expr ++ ")"%char :: post /\
    boundary (reverse pre) = true /\ Forall (fun c => is_space4 c = true) ws /\
    depth_after 0 expr = Some 0%nat /\ e = collapse_spaces expr.
Proof.
  revert before l. induction fuel as [|fuel IH]; intros before l; cbn [check_loop]; [set_solver|].
  destruct (find_check before l) as [[pre after]|] eqn:Ef; [|set_solver].
  apply find_check_spec in Ef as [Ef _]. rewrite Ef.
  assert (reverse (reverse check_token ++ pre) ++ after = reverse pre ++ check_token ++ after) as Eh
    by (by rewrite reverse_app, reverse_involutive, <- app_assoc).
  destruct (negb (boundary pre) || negb (boundary after)) eqn:Eb.
  { intros H. rewrite <- Eh. by apply IH. }
  destruct (skip_space4_spec after) as (ws & Ews & Hws).
  destruct (skip_space4 after) as [|c inside]; [intros H; rewrite <- Eh; by apply IH|].
  destruct (ceq c "("%char) eqn:Ec; [|intros H; rewrite <- Eh; by apply IH].
  destruct (balanced 0 inside) as [[expr rest]|] eqn:Ebal; [|intros H; rewrite <- Eh; by apply IH].
  apply ceq_true in Ec as ->. apply balanced_spec in Ebal as [-> Hd]. bool_to_prop.
  intros [->|Hin]%elem_of_cons.
  { exists (reverse pre), ws, expr, rest. rewrite reverse_involutive. split_and!; try done.
    by rewrite Ews. }
  apply IH in Hin as (pre' & ws' & expr' & post' & E' & ?).
  exists pre', ws', expr', post'. split; [|done]. rewrite <- E'.
  rewrite reverse_app, reverse_involutive, <- app_assoc, <- Eh. f_equal.
  symmetry. apply (take_before_suffix after (ws ++ "("%char :: expr ++ [")"%char])).
  rewrite Ews, <- app_assoc. simpl. by rewrite <- app_assoc.
Qed.

Lemma check_loop_fuel f1 f2 before l :
  (length l < f1)%nat -> (length l < f2)%nat -> check_loop f1 before l = check_loop f2 before l.
Proof.
  revert f2 before l. induction f1 as [|f1 IH]; intros f2 before l H1 H2; [lia|].
  destruct f2 as [|f2]; [lia|]. cbn [check_loop].
  destruct (find_check before l) as [[pre after]|] eqn:Ef; [|done].
  apply find_check_spec in Ef as [_ Ef].
  destruct (_ || _); [apply IH; lia|].
  destruct (skip_space4_spec after) as (ws & Ews & _).
  destruct (skip_space4 after) as [|c inside]; [apply IH; lia|].
  destruct (ceq c "("%char); [|apply IH; lia].
  destruct (balanced 0 inside) as [[expr rest]|] eqn:Ebal; [|apply IH; lia].
  apply balanced_spec in Ebal as [-> _]. f_equal.
  apply (f_equal length) in Ews. rewrite !length_app in Ews. simpl in Ews.
  rewrite length_app in Ews. simpl in Ews. apply IH; lia.
Qed.

(** * Lemmas: the version number *)

Lemma version_digits_spec acc l v :
  0 <= acc ->
  version_digits acc l = Some v ->
  Forall (fun c => 48 <= byte_val c <= 57) l /\
  acc * 10 ^ vsize l <= v < (acc + 1) * 10 ^ vsize l.
Proof.
  revert acc. induction l as [|c l IH]; intros acc Ha; cbn [version_digits].
  { intros [= <-]. split; [constructor|]. rewrite vsize_nil, Z.pow_0_r. lia. }
  destruct ((byte_val c <? 48) || (57 <? byte_val c)) eqn:E; [done|]. bool_to_prop.
  intros H'. apply IH in H' as [Hall Hv]; [|lia]. split; [by constructor|].
  rewrite vsize_cons, Z.pow_add_r by (pose proof (vsize_nonneg l); lia).
  pose proof (Z.pow_pos_nonneg 10 (vsize l) ltac:(lia) (vsize_nonneg l)). nia.
Qed.

Lemma version_digits_total acc l :
  Forall (fun c => 48 <= byte_val c <= 57) l -> is_Some (version_digits acc l).
Proof.
  revert acc. induction l as [|c l IH]; intros acc Hl; cbn [version_digits]; [by eexists|].
  apply Forall_cons in Hl as [Hc Hl].
  rewrite (proj2 (Z.ltb_ge (byte_val c) 48)), (proj2 (Z.ltb_ge 57 (byte_val c))) by lia.
  by apply IH.
Qed.

(** Printing then reading a number. *)
Lemma version_digits_pretty (x : N) s :
  version_digits 0 (chars (pretty_N_go x s)) = version_digits (Z.of_N x) (chars s).
Proof.
  revert s. induction (N.lt_wf_0 x) as [x _ IH]. intros s.
  destruct (decide (x = 0%N)) as [->|Hx]; [by rewrite pretty_N_go_0|].
  rewrite pretty_N_go_step by lia. rewrite IH by (apply N.div_lt; lia).
  cbn [chars String.list_ascii_of_string version_digits].
  assert (byte_val (pretty_N_char (x mod 10)) = Z.of_N (x mod 10) + 48) as ->.
  { assert (x mod 10 < 10)%N as Hlt by (apply N.mod_lt; lia).
    revert Hlt. generalize (x mod 10)%N. intros m Hm.
    assert (m = 0 \/ m = 1 \/ m = 2 \/ m = 3 \/ m = 4 \/ m = 5 \/ m = 6 \/ m = 7 \/ m = 8 \/ m = 9)%N
      as Hd by lia. by repeat destruct Hd as [->|Hd]; subst. }
  pose proof (N.mod_lt x 10 ltac:(lia)). pose proof (N.div_mod x 10 ltac:(lia)).
  generalize dependent (x mod 10)%N. generalize dependent (x / 10)%N. intros q r Hr Hq. clear IH.
  assert (Z.of_N x = Z.of_N q * 10 + (Z.of_N r + 48 - 48)) as -> by lia.
  rewrite (proj2 (Z.ltb_ge _ 48)), (proj2 (Z.ltb_ge 57 _)) by lia. done.
Qed.

(** * Properties *)

(** a constraint cannot be forged in noise. Whatever the contents of a
    quoted region (any of the four quoting forms, with terminators escaped) or
    of a line comment that follows plain SQL, [strip_sql_noise] leaves exactly
    one blank in its place, so the CHECK scanner sees the same text for every
    contents. *)
Theorem strip_blanks_noise a q body body' post :
  plain_sql a = true -> opens_quote q = true ->
  (q = "["%char -> ("]"%char ∉ body) /\ ("]"%char ∉ body')) ->
  match post with [] => True | d :: _ => d <> closing_of q end ->
  strip_sql_noise (a ++ quoted q body ++ post) = a ++ [" "%char] ++ strip_sql_noise post /\
  check_expressions (strip_sql_noise (a ++ quoted q body ++ post)) =
    check_expressions (strip_sql_noise (a ++ quoted q body' ++ post)) /\
  (newline ∉ body ->
   strip_sql_noise (a ++ chars "/**/--" ++ body ++ newline :: post) =
     a ++ chars "  " ++ strip_sql_noise (newline :: post)).
Proof.
  intros Ha Hq Hbr Hp.
  assert (forall b, (q = "["%char -> "]"%char ∉ b) ->
    strip_sql_noise (a ++ quoted q b ++ post) = a ++ [" "%char] ++ strip_sql_noise post) as Hst.
  { intros b Hb. rewrite strip_plain_app; [|done|].
    2: { simpl. split; intros ->; done. }
    f_equal. unfold quoted. cbn [app]. rewrite strip_cons_quote by done. cbn [app]. do 2 f_equal.
    destruct (ceq q "["%char) eqn:Eq; cbn [negb].
    - apply ceq_true in Eq as ->. rewrite <- app_assoc. apply skip_no_closer, Hb. done.
    - rewrite <- app_assoc. by apply skip_double_closers. }
  split_and!.
  - apply Hst. intros E. by apply Hbr.
  - rewrite !Hst; [done|intros E; by apply Hbr..].
  - intros Hnl. rewrite strip_plain_app; [|done|by split]. f_equal.
    cbn [chars String.list_ascii_of_string app].
    rewrite strip_block_comment. cbn [skip_block].
    change (ceq "*"%char "*"%char && ceq "/"%char "/"%char) with true. cbv iota.
    by rewrite strip_line_comment, skip_line_body.
Qed.

(** Witness: the constraint text placed in a string literal. *)
Lemma strip_blanks_noise_witness :
  check_expressions (strip_sql_noise (chars "CREATE TABLE t (a DEFAULT " ++
    quoted "'"%char (chars "CHECK(length(event_id) > 0)") ++ chars ");")) =
  check_expressions (strip_sql_noise (chars "CREATE TABLE t (a DEFAULT " ++
    quoted "'"%char (chars "x") ++ chars ");")).
Proof.
  apply (strip_blanks_noise (chars "CREATE TABLE t (a DEFAULT ") "'"%char
           (chars "CHECK(length(event_id) > 0)") (chars "x") (chars ");")).
  - reflexivity.
  - reflexivity.
  - discriminate.
  - discriminate.
Defined.

(** soundness of the CHECK scanner. Every expression it reports is, up to
    letter case and white space, the operand of a CHECK that is a whole word of
    the text, taken with balanced parentheses; the loop stops within one
    iteration per character. *)
Theorem check_expressions_sound ddl e :
  (forall fuel, (length ddl < fuel)%nat ->
     check_loop fuel [] (to_lower_ascii ddl) = check_expressions ddl) /\
  (e ∈ check_expressions ddl ->
   exists pre ws expr post,
     to_lower_ascii ddl = pre ++ chars "check" ++ ws ++ "("%char :: expr ++ ")"%char :: post /\
     boundary (reverse pre) = true /\ Forall (fun c => is_space4 c = true) ws /\
     depth_after 0 expr = Some 0%nat /\ e = collapse_spaces expr).
Proof.
  split.
  - intros fuel Hf. apply check_loop_fuel; unfold to_lower_ascii; rewrite length_fmap; lia.
  - intros H. by apply (check_loop_sound _ [] (to_lower_ascii ddl)) in H.
Qed.

(** [parse_schema_version] accepts exactly the non-empty texts of at most
    nine decimal digits, its result fits an [int], and it reads back every
    number of that size printed by [std::to_string]. *)
Theorem parse_schema_version_correct text (v : N) :
  (is_Some (parse_schema_version text) <->
   text <> "" /\ ssize text <= 9 /\ Forall (fun c => 48 <= byte_val c <= 57) (chars text)) /\
  (forall n, parse_schema_version text = Some n -> 0 <= n < 1000000000) /\
  (ssize (to_string (Z.of_N v)) <= 9 -> parse_schema_version (to_string (Z.of_N v)) = Some (Z.of_N v)).
Proof.
  assert (forall t n, ssize t <= 9 -> version_digits 0 (chars t) = Some n -> 0 <= n < 1000000000) as Hb.
  { intros t n Ht Hn. apply version_digits_spec in Hn as [_ Hn]; [|lia].
    assert (vsize (chars t) <= 9) by (unfold vsize, ssize in *; by rewrite length_chars).
    pose proof (Z.pow_le_mono_r 10 (vsize (chars t)) 9 ltac:(lia) ltac:(lia)). lia. }
  unfold parse_schema_version, int_max. split_and!.
  - case_bool_decide as E; cbn [orb]; [split; [by intros [? ?]|naive_solver]|].
    destruct (Z.ltb_spec 9 (ssize text)); [split; [by intros [? ?]|lia]|]. split.
    + destruct (version_digits 0 (chars text)) as [n|] eqn:En; [|by intros [? ?]].
      intros _. apply version_digits_spec in En as [? _]; [done|lia].
    + intros (_ & _ & Hall). destruct (version_digits_total 0 _ Hall) as [n Hn]. rewrite Hn.
      pose proof (Hb text n ltac:(lia) Hn).
      rewrite (proj2 (Z.ltb_ge _ _)) by lia. by eexists.
  - intros n. case_bool_decide; cbn [orb]; [done|]. destruct (Z.ltb_spec 9 (ssize text)); [done|].
    destruct (version_digits 0 (chars text)) as [n'|] eqn:En; [|done].
    destruct (_ <? n'); [done|]. intros [= <-]. by apply (Hb text).
  - intros Hlen. assert (version_digits 0 (chars (to_string (Z.of_N v))) = Some (Z.of_N v)) as Hv.
    { unfold to_string, pretty, pretty_Z. destruct v as [|p]; [done|].
      change (version_digits 0 (chars (pretty_N_go (N.pos p) "")) = Some (Z.pos p)).
      by rewrite version_digits_pretty. }
    pose proof (Hb _ _ Hlen Hv). rewrite Hv.
    rewrite bool_decide_eq_false_2, (proj2 (Z.ltb_ge 9 _)), (proj2 (Z.ltb_ge _ _)); try lia; [done|].
    intros E. rewrite E in Hv. cbn in Hv. injection Hv as Hv.
    destruct v; [done|lia].
Qed.
