(* ===== verification/Sqlite.v ===== *)
(** The SQLite C API as the store uses it.

    SQLite is not part of the repository, so the connection is a parameter: a
    type [W] of connection states with the entry points of sqlite3.h that
    src/sqlite_store.cpp calls (class [SqliteApi]), and the documented
    behaviour the store relies on (class [SqliteSpec]): transactions are
    atomic, queries do not write, and each statement of the store has its SQL
    meaning when it reports success. Failures are unconstrained except that
    they do not change committed data. Module [RefDb] is an executable
    connection with a programmable fault sequence; it satisfies the
    specification. *)
From stdpp Require Import sorting.
From S2P Require Import Prelude Types SqlText.

Local Open Scope Z_scope.

(** * Definitions *)

(** Result codes. *)
Definition SQLITE_OK : Z := 0.
Definition SQLITE_TOOBIG : Z := 18.
Definition SQLITE_ROW : Z := 100.
Definition SQLITE_DONE : Z := 101.

(** Column values. *)
Inductive sql_value : Type :=
| SqlNull
| SqlInt (z : Z)
| SqlText (s : string).

#[export] Instance sql_value_eq_dec : EqDecision sql_value.
Proof. solve_decision. Defined.

(** The entry points. A prepared statement is its SQL text with the values bound
    so far. [sqlite3_query] is a query stepped until the first result that is
    not [SQLITE_ROW]: the rows and that result. *)
Class SqliteApi (W : Type) : Type := {
  sqlite3_open : string -> M W (Z * bool);   (* result, a handle was returned *)
  sqlite3_close : M W Z;
  sqlite3_errmsg : W -> option string;
  sqlite3_exec : string -> M W (Z * option string);
  sqlite3_get_autocommit : W -> Z;
  sqlite3_changes : W -> Z;
  sqlite3_prepare_v2 : string -> M W Z;
  sqlite3_bind : Z -> sql_value -> M W Z;
  sqlite3_step : string -> list sql_value -> M W Z;
  sqlite3_query : string -> list sql_value -> M W (list (list sql_value) * Z);
  sqlite3_reset : M W Z;
  sqlite3_clear_bindings : M W Z;
  sqlite3_finalize : M W Z;
  sqlite3_column_text : sql_value -> option string;
  sqlite3_column_int64 : sql_value -> Z;
  fault_hook : string -> M W bool   (* the test hook, application code *)
}.

(** ** The statements of the store *)

Definition sql_begin : string := "BEGIN IMMEDIATE;".
Definition sql_commit : string := "COMMIT;".
Definition sql_rollback : string := "ROLLBACK;".
Definition sql_insert : string :=
  "INSERT OR IGNORE INTO events" +:+
  "(event_id, session_id, seq, ordinal, created_ms, payload) " +:+
  "VALUES(?,?,?,?,?,?);".
Definition sql_delete_id : string := "DELETE FROM events WHERE event_id = ?;".
Definition sql_delete_rowid : string := "DELETE FROM events WHERE rowid = ?;".
Definition sql_delete_all : string := "DELETE FROM events;".
Definition sql_mark : string :=
  "INSERT OR REPLACE INTO schema_meta(key, value) VALUES('" +:+ kRevocationKey +:+ "','1');".
Definition sql_unmark : string :=
  "DELETE FROM schema_meta WHERE key='" +:+ kRevocationKey +:+ "';".
Definition sql_count : string := "SELECT COUNT(*) FROM events;".
Definition sql_max_ordinal : string := "SELECT COALESCE(MAX(ordinal), 0) FROM events;".
Definition sql_count_up_to : string := "SELECT COUNT(*) FROM events WHERE ordinal <= ?;".
Definition sql_fetch : string :=
  "SELECT rowid, event_id, payload FROM events ORDER BY ordinal LIMIT ?;".
Definition sql_marker : string := "SELECT 1 FROM schema_meta WHERE key=? LIMIT 1;".
Definition sql_table_exists : string :=
  "SELECT 1 FROM sqlite_master WHERE type='table' AND name=? LIMIT 1;".
Definition sql_schema_version : string :=
  "SELECT value FROM schema_meta WHERE key='schema_version';".
Definition sql_insert_version : string :=
  "INSERT INTO schema_meta(key, value) VALUES('schema_version','" +:+
  to_string kStoreSchemaVersion +:+ "');".
Definition sql_events_info : string := "PRAGMA table_info(events);".
Definition sql_meta_info : string := "PRAGMA table_info(schema_meta);".
Definition sql_events_sql : string :=
  "SELECT sql FROM sqlite_master WHERE type='table' AND name='events';".
Definition sql_index_table : string :=
  "SELECT tbl_name FROM sqlite_master WHERE type='index' AND name=?;".
Definition sql_index_list : string := "PRAGMA index_list(events);".
Definition sql_index_info : string := "PRAGMA index_info(idx_events_order);".
Definition sql_journal : string := "PRAGMA journal_mode=WAL;".
Definition sql_synchronous : string := "PRAGMA synchronous=NORMAL;".
Definition sql_busy_timeout : string := "PRAGMA busy_timeout=5000;".

(** ** The contents of the database *)

(** One row of [events]. *)
Record Row : Type := mkRow {
  row_rowid : Z;
  row_event_id : sql_value;
  row_session_id : string;
  row_seq : Z;
  row_ordinal : Z;
  row_created_ms : Z;
  row_payload : sql_value
}.

(** The tables: the rows of [events], the pairs of [schema_meta], and the schema
    objects by name with their type and SQL text ([sqlite_master]). *)
Record Db : Type := mkDb {
  db_events : list Row;
  db_meta : gmap string string;
  db_schema : gmap string (string * string)
}.

(** The contents of a new database. *)
Definition empty_db : Db := mkDb [] ∅ ∅.

(** Replacing the rows, the metadata, or a schema object that is not there. *)
Definition set_events (d : Db) (rows : list Row) : Db := mkDb rows (db_meta d) (db_schema d).
Definition set_meta (d : Db) (m : gmap string string) : Db := mkDb (db_events d) m (db_schema d).
Definition create_object (d : Db) (name kind sql : string) : Db :=
  match db_schema d !! name with
  | Some _ => d
  | None => mkDb (db_events d) (db_meta d) (<[name := (kind, sql)]> (db_schema d))
  end.

(** A row carries the identifier [id]. *)
Definition has_id (id : string) (r : Row) : bool :=
  match row_event_id r with SqlText s => bool_decide (s = id) | _ => false end.

(** [INSERT OR IGNORE] of a row whose key is acceptable: nothing when the key
    is present, the new row otherwise. *)
Definition insert_or_ignore (rows : list Row) (id : string) (new : Row) : list Row :=
  if existsb (has_id id) rows then rows else rows ++ [new].

(** Delivery order. *)
Definition row_le (a b : Row) : Prop := row_ordinal a <= row_ordinal b.

#[export] Instance row_le_dec a b : Decision (row_le a b).
Proof. unfold row_le. apply _. Defined.

#[export] Instance row_le_total : Total row_le.
Proof. intros a b. unfold row_le. lia. Qed.

#[export] Instance row_le_trans : Transitive row_le.
Proof. intros a b c. unfold row_le. lia. Qed.

(** A key the schema accepts: not empty, no NUL character. *)
Definition valid_key (id : string) : Prop := id <> "" /\ Ascii.zero ∉ chars id.

(** The columns the fetch query selects. *)
Definition fetch_columns (r : Row) : list sql_value :=
  [SqlInt (row_rowid r); row_event_id r; row_payload r].

(** ** The documented behaviour *)

Section Spec.
Context (W : Type) `{SqliteApi W}.

(** Committed contents, contents seen by the connection, and whether a
    transaction is open. *)
Record DbView : Type := mkView {
  durable : W -> Db;
  working : W -> Db;
  in_tx : W -> bool
}.

(** Nothing the database holds changed. *)
Definition same_data (v : DbView) (w w' : W) : Prop :=
  durable v w' = durable v w /\ working v w' = working v w /\ in_tx v w' = in_tx v w.

(** A statement that, when it reports success inside a transaction, maps the
    contents by [f], and that never touches committed data there. *)
Definition writes (v : DbView) (success : Z) (f : Db -> Db -> Prop)
    (rc : Z) (w w' : W) : Prop :=
  in_tx v w = true ->
  durable v w' = durable v w /\
  (rc = success -> in_tx v w' = true /\ f (working v w) (working v w')).

(** What the store relies on. *)
Class SqliteSpec : Type := {
  view : DbView;
  spec_idle w : in_tx view w = false -> working view w = durable view w;
  spec_autocommit w : sqlite3_get_autocommit w = 0 <-> in_tx view w = true;
  (* statements that only read, and bookkeeping calls *)
  spec_prepare sql w : same_data view w (snd (sqlite3_prepare_v2 sql w));
  spec_bind i x w : same_data view w (snd (sqlite3_bind i x w));
  spec_query sql args w : same_data view w (snd (sqlite3_query sql args w));
  spec_query_end sql args w : snd (fst (sqlite3_query sql args w)) <> SQLITE_ROW;
  spec_reset w : same_data view w (snd (sqlite3_reset w));
  spec_clear w : same_data view w (snd (sqlite3_clear_bindings w));
  spec_finalize w : same_data view w (snd (sqlite3_finalize w));
  spec_hook op w : same_data view w (snd (fault_hook op w));
  spec_text s : sqlite3_column_text (SqlText s) = Some s;
  spec_text_null : sqlite3_column_text SqlNull = None;
  spec_int z : sqlite3_column_int64 (SqlInt z) = z;
  (* transactions *)
  spec_begin w rc e w' :
    sqlite3_exec sql_begin w = ((rc, e), w') ->
    durable view w' = durable view w /\
    (rc = SQLITE_OK ->
       in_tx view w = false /\ in_tx view w' = true /\ working view w' = durable view w) /\
    (rc <> SQLITE_OK -> in_tx view w' = in_tx view w);
  spec_commit w rc e w' :
    sqlite3_exec sql_commit w = ((rc, e), w') ->
    (rc = SQLITE_OK -> durable view w' = working view w /\ in_tx view w' = false) /\
    (rc <> SQLITE_OK -> durable view w' = durable view w);
  spec_rollback w rc e w' :
    sqlite3_exec sql_rollback w = ((rc, e), w') ->
    durable view w' = durable view w /\ (rc = SQLITE_OK -> in_tx view w' = false);
  (* writes *)
  spec_insert w id sid seq ord ms payload rc w' :
    sqlite3_step sql_insert
      [SqlText id; SqlText sid; SqlInt seq; SqlInt ord; SqlInt ms; SqlText payload] w = (rc, w') ->
    writes view SQLITE_DONE (fun d d' => valid_key id ->
      exists rowid, Forall (fun r => row_rowid r <> rowid) (db_events d) /\
        d' = set_events d (insert_or_ignore (db_events d) id
               (mkRow rowid (SqlText id) sid seq ord ms (SqlText payload)))) rc w w';
  spec_delete_id w id rc w' :
    sqlite3_step sql_delete_id [SqlText id] w = (rc, w') ->
    writes view SQLITE_DONE (fun d d' =>
      d' = set_events d (filter (fun r => has_id id r = false) (db_events d)) /\
      sqlite3_changes w' = vsize (filter (fun r => has_id id r = true) (db_events d))) rc w w';
  spec_delete_rowid w rowid rc w' :
    sqlite3_step sql_delete_rowid [SqlInt rowid] w = (rc, w') ->
    writes view SQLITE_DONE (fun d d' =>
      d' = set_events d (filter (fun r => row_rowid r <> rowid) (db_events d)) /\
      sqlite3_changes w' = vsize (filter (fun r => row_rowid r = rowid) (db_events d))) rc w w';
  spec_delete_all w rc e w' :
    sqlite3_exec sql_delete_all w = ((rc, e), w') ->
    writes view SQLITE_OK (fun d d' =>
      d' = set_events d [] /\ sqlite3_changes w' = vsize (db_events d)) rc w w';
  spec_mark w rc e w' :
    sqlite3_exec sql_mark w = ((rc, e), w') ->
    writes view SQLITE_OK (fun d d' =>
      d' = set_meta d (<[kRevocationKey := "1"]> (db_meta d))) rc w w';
  spec_unmark w rc e w' :
    sqlite3_exec sql_unmark w = ((rc, e), w') ->
    writes view SQLITE_OK (fun d d' =>
      d' = set_meta d (delete kRevocationKey (db_meta d))) rc w w';
  spec_create_meta w rc e w' :
    sqlite3_exec kCreateMeta w = ((rc, e), w') ->
    writes view SQLITE_OK (fun d d' => d' = create_object d "schema_meta" "table" kCreateMeta) rc w w';
  spec_create_events w rc e w' :
    sqlite3_exec kCreateEvents w = ((rc, e), w') ->
    writes view SQLITE_OK (fun d d' => d' = create_object d "events" "table" kCreateEvents) rc w w';
  spec_create_index w rc e w' :
    sqlite3_exec kCreateIndex w = ((rc, e), w') ->
    writes view SQLITE_OK
      (fun d d' => d' = create_object d "idx_events_order" "index" kCreateIndex) rc w w';
  spec_insert_version w rc e w' :
    sqlite3_exec sql_insert_version w = ((rc, e), w') ->
    writes view SQLITE_OK (fun d d' =>
      d' = set_meta d (<["schema_version" := to_string kStoreSchemaVersion]> (db_meta d))) rc w w';
  (* connection settings *)
  spec_pragma sql w : sql = sql_synchronous \/ sql = sql_busy_timeout ->
    same_data view w (snd (sqlite3_exec sql w));
  spec_open path w : in_tx view w = false -> same_data view w (snd (sqlite3_open path w));
  spec_close w :
    durable view (snd (sqlite3_close w)) = durable view w /\
    (fst (sqlite3_close w) = SQLITE_OK -> in_tx view (snd (sqlite3_close w)) = false);
  (* queries: what the rows are when the statement succeeds *)
  spec_count w rows rc w' :
    sqlite3_query sql_count [] w = ((rows, rc), w') ->
    rows = [] \/
    exists rest, rows = [SqlInt (vsize (db_events (working view w)))] :: rest;
  spec_count_up_to w b rows rc w' :
    sqlite3_query sql_count_up_to [SqlInt b] w = ((rows, rc), w') ->
    rows = [] \/
    exists rest, rows = [SqlInt (vsize (filter (fun r => row_ordinal r <= b)
                          (db_events (working view w))))] :: rest;
  spec_max_ordinal w rows rc w' :
    sqlite3_query sql_max_ordinal [] w = ((rows, rc), w') ->
    rows = [] \/
    exists rest m, rows = [SqlInt m] :: rest /\
      Forall (fun r => row_ordinal r <= m) (db_events (working view w)) /\
      (m = 0 /\ db_events (working view w) = [] \/ m ∈ row_ordinal <$> db_events (working view w));
  spec_marker w rows rc w' :
    sqlite3_query sql_marker [SqlText kRevocationKey] w = ((rows, rc), w') ->
    (rows <> [] -> is_Some (db_meta (working view w) !! kRevocationKey)) /\
    (rows = [] -> rc = SQLITE_DONE -> db_meta (working view w) !! kRevocationKey = None);
  spec_fetch w n rows rc w' :
    sqlite3_query sql_fetch [SqlInt n] w = ((rows, rc), w') ->
    exists sorted k, sorted ≡ₚ db_events (working view w) /\ StronglySorted row_le sorted /\
      (k <= Z.to_nat n)%nat /\ rows = fetch_columns <$> take k sorted /\
      (rc = SQLITE_DONE -> k = Z.to_nat n);
  spec_table_exists w name rows rc w' :
    sqlite3_query sql_table_exists [SqlText name] w = ((rows, rc), w') ->
    (rows <> [] -> exists sql, db_schema (working view w) !! name = Some ("table", sql)) /\
    (rows = [] -> rc = SQLITE_DONE -> forall sql, db_schema (working view w) !! name <> Some ("table", sql))
}.
End Spec.

Arguments durable {W} _ _.
Arguments working {W} _ _.
Arguments in_tx {W} _ _.
Arguments view {W _ _}.
Arguments same_data {W} _ _ _.
Arguments writes {W} _ _ _ _ _ _.

(** A connection on which ROLLBACK always ends the transaction. The store
    checks for the opposite and reports it; the guarantees of the worker and
    the client are stated for connections that never get stuck there. *)
Class RollbackReliable (W : Type) `{SqliteApi W} `{!SqliteSpec W} : Prop :=
  rollback_reliable w : in_tx view (snd (sqlite3_exec sql_rollback w)) = false.

(** A write that does more than what is asked. *)
Lemma writes_weaken {W} (v : DbView W) c (f g : Db -> Db -> Prop) rc w w' :
  (forall d d', f d d' -> g d d') -> writes v c f rc w w' -> writes v c g rc w w'.
Proof. intros Hfg H Htx. destruct (H Htx) as [Hd Hs]. split; [done|]. intros Hrc. naive_solver. Qed.

(** * A reference connection

    An executable database with one connection: committed contents, the
    contents of the open transaction, and two programmable fault sequences, one
    consumed by the calls that can fail and one by the test hook. *)
Module RefDb.

(** The state of the connection. *)
Record conn : Type := mkConn {
  r_durable : Db;
  r_tx : option Db;          (* contents of the open transaction *)
  r_changes : Z;
  r_faults : list bool;      (* true: the next fallible call fails *)
  r_hook : list bool         (* answers of the fault hook *)
}.

(** A connection to the contents [d] with no fault to come. *)
Definition fresh (d : Db) : conn := mkConn d None 0 [] [].

Definition r_working (w : conn) : Db := default (r_durable w) (r_tx w).

(** Runs [m] unless the next fault says the call fails with [err]. *)
Definition faulty {A} (err : A) (m : M conn A) : M conn A := fun w =>
  match r_faults w with
  | [] => m w
  | f :: fs =>
      let w' := mkConn (r_durable w) (r_tx w) (r_changes w) fs (r_hook w) in
      if f then (err, w') else m w'
  end.

(** Applies [f] to the contents, in the transaction or in autocommit mode. *)
Definition apply_db (f : Db -> Db) (changes : Z) (w : conn) : conn :=
  match r_tx w with
  | Some d => mkConn (r_durable w) (Some (f d)) changes (r_faults w) (r_hook w)
  | None => mkConn (f (r_durable w)) None changes (r_faults w) (r_hook w)
  end.

Inductive stmt : Type :=
| TBegin | TCommit | TRollback
| TWrite (f : Db -> Db) (changes : Db -> Z)
| TOther.

Definition keep_changes (d : Db) : Z := 0.

(** The statements run by [sqlite3_exec]. *)
Definition parse (sql : string) : stmt :=
  if bool_decide (sql = sql_begin) then TBegin
  else if bool_decide (sql = sql_commit) then TCommit
  else if bool_decide (sql = sql_rollback) then TRollback
  else if bool_decide (sql = sql_delete_all)
  then TWrite (fun d => set_events d []) (fun d => vsize (db_events d))
  else if bool_decide (sql = sql_mark)
  then TWrite (fun d => set_meta d (<[kRevocationKey := "1"]> (db_meta d))) keep_changes
  else if bool_decide (sql = sql_unmark)
  then TWrite (fun d => set_meta d (delete kRevocationKey (db_meta d))) keep_changes
  else if bool_decide (sql = kCreateMeta)
  then TWrite (fun d => create_object d "schema_meta" "table" kCreateMeta) keep_changes
  else if bool_decide (sql = kCreateEvents)
  then TWrite (fun d => create_object d "events" "table" kCreateEvents) keep_changes
  else if bool_decide (sql = kCreateIndex)
  then TWrite (fun d => create_object d "idx_events_order" "index" kCreateIndex) keep_changes
  else if bool_decide (sql = sql_insert_version)
  then TWrite (fun d => set_meta d
         (<["schema_version" := to_string kStoreSchemaVersion]> (db_meta d))) keep_changes
  else TOther.

Definition run_stmt (t : stmt) : M conn (Z * option string) := fun w =>
  match t with
  | TBegin =>
      match r_tx w with
      | Some _ => ((1, Some "cannot start a transaction within a transaction"), w)
      | None => ((SQLITE_OK, None),
                 mkConn (r_durable w) (Some (r_durable w)) (r_changes w) (r_faults w) (r_hook w))
      end
  | TCommit =>
      match r_tx w with
      | Some d => ((SQLITE_OK, None), mkConn d None (r_changes w) (r_faults w) (r_hook w))
      | None => ((1, Some "cannot commit - no transaction is active"), w)
      end
  | TRollback =>
      match r_tx w with
      | Some _ => ((SQLITE_OK, None),
                   mkConn (r_durable w) None (r_changes w) (r_faults w) (r_hook w))
      | None => ((1, Some "cannot rollback - no transaction is active"), w)
      end
  | TWrite f ch => ((SQLITE_OK, None), apply_db f (ch (r_working w)) w)
  | TOther => ((SQLITE_OK, None), w)
  end.

(** A rollback is never made to fail. *)
Definition exec (sql : string) : M conn (Z * option string) :=
  match parse sql with
  | TRollback => run_stmt TRollback
  | t => faulty (1, Some "disk I/O error") (run_stmt t)
  end.

(** An identifier for a new row. *)
Definition next_rowid (rows : list Row) : Z :=
  1 + foldr (fun r m => Z.max (row_rowid r) m) 0 rows.

(** The CHECK constraint: [length] counts the characters before a NUL. *)
Definition check_passes (id : string) : bool :=
  match chars id with [] => false | c :: _ => negb (Ascii.eqb c Ascii.zero) end.

(** The prepared statements run by [sqlite3_step]. *)
Definition step_stmt (sql : string) (args : list sql_value) : stmt :=
  match args with
  | [SqlText id] =>
      if bool_decide (sql = sql_delete_id)
      then TWrite (fun d => set_events d (filter (fun r => has_id id r = false) (db_events d)))
                  (fun d => vsize (filter (fun r => has_id id r = true) (db_events d)))
      else TOther
  | [SqlInt rowid] =>
      if bool_decide (sql = sql_delete_rowid)
      then TWrite (fun d => set_events d (filter (fun r => row_rowid r <> rowid) (db_events d)))
                  (fun d => vsize (filter (fun r => row_rowid r = rowid) (db_events d)))
      else TOther
  | [SqlText id; SqlText sid; SqlInt seq; SqlInt ord; SqlInt ms; SqlText payload] =>
      if bool_decide (sql = sql_insert) && check_passes id
      then TWrite (fun d => set_events d (insert_or_ignore (db_events d) id
                     (mkRow (next_rowid (db_events d)) (SqlText id) sid seq ord ms (SqlText payload))))
                  keep_changes
      else TOther
  | _ => TOther
  end.

Definition step (sql : string) (args : list sql_value) : M conn Z :=
  faulty 10 (let* _ := run_stmt (step_stmt sql args) in mreturn SQLITE_DONE)%pt.

(** The rows PRAGMA table_info reports for the expected columns. *)
Definition info_rows (cols : list ColumnSpec) : list (list sql_value) :=
  imap (fun i c => [SqlInt (Z.of_nat i); SqlText (col_name c); SqlText (col_type c);
                    SqlInt (col_notnull c); SqlNull; SqlInt (col_pk c)]) cols.

Definition when_object (d : Db) (name : string) (rows : string * string -> list (list sql_value))
    : list (list sql_value) :=
  match db_schema d !! name with Some o => rows o | None => [] end.

(** The queries. *)
Definition answers (d : Db) (sql : string) (args : list sql_value) : list (list sql_value) :=
  if bool_decide (sql = sql_count) then [[SqlInt (vsize (db_events d))]]
  else if bool_decide (sql = sql_max_ordinal)
  then [[SqlInt (match db_events d with
                 | [] => 0
                 | r :: rs => foldr (fun r m => Z.max (row_ordinal r) m) (row_ordinal r) rs
                 end)]]
  else if bool_decide (sql = sql_events_info)
  then when_object d "events" (fun _ => info_rows kEventsColumns)
  else if bool_decide (sql = sql_meta_info)
  then when_object d "schema_meta" (fun _ => info_rows kMetaColumns)
  else if bool_decide (sql = sql_events_sql)
  then when_object d "events" (fun o => [[SqlText (snd o)]])
  else if bool_decide (sql = sql_index_list)
  then when_object d "idx_events_order" (fun _ =>
         [[SqlInt 0; SqlText "idx_events_order"; SqlInt 0; SqlText "c"; SqlInt 0]])
  else if bool_decide (sql = sql_index_info)
  then when_object d "idx_events_order" (fun _ => [[SqlInt 0; SqlInt 3; SqlText "ordinal"]])
  else if bool_decide (sql = sql_schema_version)
  then match db_meta d !! "schema_version" with Some v => [[SqlText v]] | None => [] end
  else if bool_decide (sql = sql_journal) then [[SqlText "memory"]]
  else
    match args with
    | [SqlInt n] =>
        if bool_decide (sql = sql_count_up_to)
        then [[SqlInt (vsize (filter (fun r => row_ordinal r <= n) (db_events d)))]]
        else if bool_decide (sql = sql_fetch)
        then fetch_columns <$> take (Z.to_nat n) (merge_sort row_le (db_events d))
        else []
    | [SqlText t] =>
        if bool_decide (sql = sql_marker)
        then match db_meta d !! t with Some _ => [[SqlInt 1]] | None => [] end
        else if bool_decide (sql = sql_table_exists)
        then when_object d t (fun o => if bool_decide (fst o = "table") then [[SqlInt 1]] else [])
        else if bool_decide (sql = sql_index_table)
        then when_object d t (fun o => if bool_decide (fst o = "index") then [[SqlText "events"]] else [])
        else []
    | _ => []
    end.

Definition query (sql : string) (args : list sql_value) : M conn (list (list sql_value) * Z) :=
  faulty ([], 10) (mget (fun w => (answers (r_working w) sql args, SQLITE_DONE))).

Definition hook (op : string) : M conn bool := fun w =>
  match r_hook w with
  | [] => (false, w)
  | b :: bs => (b, mkConn (r_durable w) (r_tx w) (r_changes w) (r_faults w) bs)
  end.

Definition text_of (v : sql_value) : option string :=
  match v with SqlNull => None | SqlInt z => Some (to_string z) | SqlText s => Some s end.

Definition int_of (v : sql_value) : Z := match v with SqlInt z => z | _ => 0 end.

#[export] Instance api : SqliteApi conn := {
  sqlite3_open := fun _ => faulty (14, true) (mreturn (SQLITE_OK, true));
  sqlite3_close := fun w =>
    (SQLITE_OK, mkConn (r_durable w) None (r_changes w) (r_faults w) (r_hook w));
  sqlite3_errmsg := fun _ => Some "disk I/O error";
  sqlite3_exec := exec;
  sqlite3_get_autocommit := fun w => match r_tx w with Some _ => 0 | None => 1 end;
  sqlite3_changes := r_changes;
  sqlite3_prepare_v2 := fun _ => faulty 1 (mreturn SQLITE_OK);
  sqlite3_bind := fun _ _ => mreturn SQLITE_OK;
  sqlite3_step := step;
  sqlite3_query := query;
  sqlite3_reset := mreturn SQLITE_OK;
  sqlite3_clear_bindings := mreturn SQLITE_OK;
  sqlite3_finalize := mreturn SQLITE_OK;
  sqlite3_column_text := text_of;
  sqlite3_column_int64 := int_of;
  fault_hook := hook
}.

Definition ref_view : DbView conn :=
  mkView conn r_durable r_working (fun w => match r_tx w with Some _ => true | None => false end).

(** ** The reference connection satisfies the specification *)

(** A fallible call fails, or runs with one fault consumed. *)
Lemma faulty_cases {A} (err : A) m w a w' :
  faulty err m w = (a, w') ->
  exists fs, let w0 := mkConn (r_durable w) (r_tx w) (r_changes w) fs (r_hook w) in
    (a, w') = (err, w0) \/ m w0 = (a, w').
Proof.
  unfold faulty. destruct w as [d t c fs h]; simpl. destruct fs as [|[] fs]; intros E.
  - exists []. by right.
  - exists fs. by left.
  - exists fs. by right.
Qed.

Lemma faulty_same {A} (err : A) m w :
  (forall w, same_data ref_view w (snd (m w))) -> same_data ref_view w (snd (faulty err m w)).
Proof.
  intros Hm. unfold faulty. destruct w as [d t c fs h]; simpl. destruct fs as [|[] fs]; [apply Hm|done|].
  exact (Hm (mkConn d t c fs h)).
Qed.

Lemma exec_write sql f ch w rc e w' :
  parse sql = TWrite f ch -> sqlite3_exec sql w = ((rc, e), w') ->
  writes ref_view SQLITE_OK (fun d d' => d' = f d /\ r_changes w' = ch d) rc w w'.
Proof.
  intros Hp E Htx. simpl in E, Htx |- *. unfold exec in E. rewrite Hp in E.
  destruct w as [d [t|] c fs0 h]; simpl in *; [|done].
  apply faulty_cases in E as [fs [E|E]]; simpl in E; [by simplify_eq|].
  unfold apply_db, r_working in E. simpl in E. by simplify_eq.
Qed.

Lemma step_write sql args f ch w rc w' :
  step_stmt sql args = TWrite f ch -> sqlite3_step sql args w = (rc, w') ->
  writes ref_view SQLITE_DONE (fun d d' => d' = f d /\ r_changes w' = ch d) rc w w'.
Proof.
  intros Hp E Htx. simpl in E, Htx |- *. unfold step in E. rewrite Hp in E.
  destruct w as [d [t|] c fs0 h]; simpl in *; [|done].
  apply faulty_cases in E as [fs [E|E]]; simpl in E; [by simplify_eq|].
  unfold mthen, mreturn, apply_db, r_working in E. simpl in E. by simplify_eq.
Qed.

Lemma step_other sql args w rc w' :
  step_stmt sql args = TOther -> sqlite3_step sql args w = (rc, w') -> same_data ref_view w w'.
Proof.
  intros Hp E. simpl in E. unfold step in E. rewrite Hp in E.
  apply faulty_cases in E as [fs [E|E]]; cbv [mthen mreturn run_stmt] in E;
    injection E; intros; subst; done.
Qed.

(** A query fails without rows or answers from the working contents. *)
Lemma query_cases sql args w rows rc w' :
  sqlite3_query sql args w = ((rows, rc), w') ->
  rows = [] /\ rc = 10 \/ rows = answers (r_working w) sql args /\ rc = SQLITE_DONE.
Proof.
  intros E. simpl in E. apply faulty_cases in E as [fs [E|E]]; cbn [mget] in E;
    injection E; intros; subst; [by left|by right].
Qed.

Lemma check_passes_valid id : valid_key id -> check_passes id = true.
Proof.
  intros [Hne Hz]. unfold check_passes. destruct id as [|c id]; [done|]. cbn [chars String.list_ascii_of_string].
  change (String.list_ascii_of_string (String.String c id)) with (c :: chars id) in *.
  apply negb_true_iff, Ascii.eqb_neq. intros ->. apply Hz. left.
Qed.

Lemma next_rowid_fresh rows : Forall (fun r => row_rowid r <> next_rowid rows) rows.
Proof.
  enough (Forall (fun r => row_rowid r < next_rowid rows) rows) as H.
  { eapply Forall_impl; [exact H|]. simpl. lia. }
  unfold next_rowid. induction rows as [|r rows IH]; constructor; simpl; [lia|].
  eapply Forall_impl; [exact IH|]. simpl. lia.
Qed.

Lemma max_ordinal_fold r0 rows :
  let m := foldr (fun r m => Z.max (row_ordinal r) m) (row_ordinal r0) rows in
  Forall (fun r => row_ordinal r <= m) (r0 :: rows) /\ m ∈ row_ordinal <$> r0 :: rows.
Proof.
  induction rows as [|r rows [IH1 IH2]]; simpl.
  - split; [repeat constructor; lia|left].
  - apply Forall_cons in IH1 as [Ha Hb]. split.
    + repeat constructor; [lia..|]. eapply Forall_impl; [exact Hb|]. simpl. lia.
    + destruct (Z.max_spec (row_ordinal r)
        (foldr (fun r m => Z.max (row_ordinal r) m) (row_ordinal r0) rows)) as [[_ ->]|[_ ->]].
      * rewrite fmap_cons in IH2. apply elem_of_cons in IH2 as [->|IH2]; [left|by right; right].
      * right; left.
Qed.

(** What a write reports, from the generic lemmas. *)
Ltac by_write lem :=
  intros w; intros; eapply writes_weaken; [|eapply lem; [|eassumption]; reflexivity];
  simpl; intros ? ? [-> ?]; first [done | split; [done|assumption]].

#[export] Instance spec : SqliteSpec conn.
Proof.
  refine {| view := ref_view |}.
  - intros [d [t|] c fs h]; simpl; [done|]. done.
  - intros [d [t|] c fs h]; simpl; done.
  - intros sql w. by apply faulty_same.
  - done.
  - intros sql args w. by apply faulty_same.
  - intros sql args w. destruct (sqlite3_query sql args w) as [[rows rc] w'] eqn:E.
    apply query_cases in E as [[-> ->]|[-> ->]]; simpl; unfold SQLITE_ROW, SQLITE_DONE; lia.
  - done.
  - done.
  - done.
  - intros op w. simpl. unfold hook. by destruct w as [? ? ? ? [|? ?]].
  - done.
  - done.
  - done.
  - intros [d t c fs0 h] rc e w' E. change (exec sql_begin (mkConn d t c fs0 h) = ((rc, e), w')) in E.
    apply faulty_cases in E as [fs [E|E]]; simpl in E; [injection E; intros; subst; by destruct t|].
    destruct t; injection E; intros; subst; done.
  - intros [d t c fs0 h] rc e w' E. change (exec sql_commit (mkConn d t c fs0 h) = ((rc, e), w')) in E.
    apply faulty_cases in E as [fs [E|E]]; simpl in E; [injection E; intros; subst; by destruct t|].
    destruct t; injection E; intros; subst; done.
  - intros [d t c fs0 h] rc e w' E. change (run_stmt TRollback (mkConn d t c fs0 h) = ((rc, e), w')) in E.
    destruct t; injection E; intros; subst; done.
  - intros w id sid seq ord ms payload rc w' E Htx.
    destruct (check_passes id) eqn:Hc.
    + eapply step_write in E; [|unfold step_stmt; rewrite Hc; reflexivity].
      destruct (E Htx) as [Hd Hs]. split; [done|]. intros Hrc. destruct (Hs Hrc) as [Ht [-> _]].
      split; [done|]. intros _. eexists. split; [apply next_rowid_fresh|done].
    + apply step_other in E; [|unfold step_stmt; rewrite Hc; reflexivity].
      destruct E as (Hd & Hw & Ht). split; [done|]. intros _. split; [congruence|].
      intros Hv. apply check_passes_valid in Hv. congruence.
  - by_write step_write.
  - by_write step_write.
  - by_write exec_write.
  - by_write exec_write.
  - by_write exec_write.
  - by_write exec_write.
  - by_write exec_write.
  - by_write exec_write.
  - by_write exec_write.
  - intros sql w [-> | ->]; by apply faulty_same.
  - intros path w _. by apply faulty_same.
  - done.
  - intros w rows rc w' E. apply query_cases in E as [[-> ->]|[-> ->]]; [by left|].
    right. by eexists.
  - intros w b rows rc w' E. apply query_cases in E as [[-> ->]|[-> ->]]; [by left|].
    right. by eexists.
  - intros w rows rc w' E. apply query_cases in E as [[-> ->]|[-> ->]]; [by left|].
    right. eexists [], _. split; [reflexivity|]. change (working ref_view w) with (r_working w).
    destruct (db_events (r_working w)) as [|r0 rs]; [split; [constructor|by left]|].
    destruct (max_ordinal_fold r0 rs) as [Ha Hb]. split; [done|by right].
  - intros w rows rc w' E. apply query_cases in E as [[-> ->]|[-> ->]]; [done|].
    change (working ref_view w) with (r_working w).
    change (answers (r_working w) sql_marker [SqlText kRevocationKey]) with
      (match db_meta (r_working w) !! kRevocationKey with Some _ => [[SqlInt 1]] | None => [] end).
    destruct (db_meta (r_working w) !! kRevocationKey); done.
  - intros w n rows rc w' E.
    exists (merge_sort row_le (db_events (r_working w))).
    assert (merge_sort row_le (db_events (r_working w)) ≡ₚ db_events (r_working w) /\
            StronglySorted row_le (merge_sort row_le (db_events (r_working w)))) as [Hp Hs].
    { split; [apply merge_sort_Permutation|].
      apply Sorted_StronglySorted; [exact row_le_trans|]. apply Sorted_merge_sort. apply _. }
    apply query_cases in E as [[-> ->]|[-> ->]].
    + exists 0%nat. repeat split; [done|done|lia|done].
    + exists (Z.to_nat n). repeat split; [done|done|lia].
  - intros w name rows rc w' E. apply query_cases in E as [[-> ->]|[-> ->]]; [done|].
    change (working ref_view w) with (r_working w).
    change (answers (r_working w) sql_table_exists [SqlText name]) with
      (when_object (r_working w) name
         (fun o => if bool_decide (fst o = "table") then [[SqlInt 1]] else [])).
    unfold when_object. destruct (db_schema (r_working w) !! name) as [[k o]|]; simpl; [|done].
    destruct (decide (k = "table")) as [->|Hk].
    + rewrite bool_decide_true by done. split; [by eauto|done].
    + rewrite bool_decide_false by done. split; [done|]. congruence.
Defined.

#[export] Instance reliable : RollbackReliable conn.
Proof. intros [d [t|] c fs h]; done. Qed.

End RefDb.
