(* ===== verification/Store.v ===== *)
(** The durable store: class [SqliteStore] of src/sqlite_store.cpp.

    Every operation is written over the SQLite interface of Sqlite.v with the
    statements, result checks, fault points and messages of the source. The
    state is the members of the class together with the connection. [const]
    methods and pointer results are computations that return the values. The
    theorems are proved for every connection that satisfies [SqliteSpec]. *)
From S2P Require Import Prelude Types Serializer SqlText Sqlite.

Local Open Scope Z_scope.
Local Open Scope pt_scope.

(** * Data *)

(** [struct StoredRecord]. *)
Record StoredRecord : Type := mkStored {
  sr_event_id : string;
  sr_session_id : string;
  sr_sequence : Z;
  sr_ordinal : Z;
  sr_created_ms : Z;
  sr_payload : string
}.

(** [struct FetchResult]. *)
Record FetchResult : Type := mkFetch {
  fr_status : Status;
  fr_events : list SerializedEvent;
  fr_quarantined : Z
}.

(** A storage error. *)
Definition storage_error (msg : string) : Status := mkStatus StorageError msg.

Section Store.
Context {W : Type} `{SqliteApi W}.
Context (accept : string -> library_call bool).

(** The members of [SqliteStore]. [conn] is the connection [db_] points to. *)
Record SqliteStore : Type := mkStore {
  path_ : string;
  db_ : bool;                (* [db_ != nullptr] *)
  journal_mode_ : string;
  fault_hook_ : bool;        (* a hook is installed *)
  conn : W
}.

Definition set_conn (w : W) (s : SqliteStore) : SqliteStore :=
  mkStore (path_ s) (db_ s) (journal_mode_ s) (fault_hook_ s) w.

Definition set_db (b : bool) (s : SqliteStore) : SqliteStore :=
  mkStore (path_ s) b (journal_mode_ s) (fault_hook_ s) (conn s).

Definition set_journal_mode (m : string) (s : SqliteStore) : SqliteStore :=
  mkStore (path_ s) (db_ s) m (fault_hook_ s) (conn s).

(** Runs a call on the connection. *)
Definition on_conn {A} (m : M W A) : M SqliteStore A := fun s =>
  let '(a, w) := m (conn s) in (a, set_conn w s).

(** [SqliteStore::SqliteStore]. *)
Definition new_store (path : string) (w : W) : SqliteStore := mkStore path false "" false w.

(** [SqliteStore::set_fault_hook]. *)
Definition set_fault_hook (installed : bool) : M SqliteStore unit :=
  mput (fun s => mkStore (path_ s) (db_ s) (journal_mode_ s) installed (conn s)).

(** [SqliteStore::fault]. *)
Definition fault (operation : string) : M SqliteStore bool :=
  let* installed := mget fault_hook_ in
  if installed then on_conn (fault_hook operation) else mreturn false.

(** [bind_string]. *)
Definition bind_string (index : Z) (value : string) : M SqliteStore Z :=
  if int_max <? ssize value then mreturn SQLITE_TOOBIG
  else on_conn (sqlite3_bind index (SqlText value)).

(** [sqlite3_bind_int64]. *)
Definition bind_int64 (index value : Z) : M SqliteStore Z :=
  on_conn (sqlite3_bind index (SqlInt value)).

(** A chain of bind calls joined by [||]: false at the first that fails. *)
Fixpoint bind_chain (calls : list (M SqliteStore Z)) : M SqliteStore bool :=
  match calls with
  | [] => mreturn true
  | c :: cs => let* rc := c in if rc =? SQLITE_OK then bind_chain cs else mreturn false
  end.

(** Column [index] of a result row. *)
Definition column (row : list sql_value) (index : nat) : sql_value := nth index row SqlNull.

(** [column_text]. *)
Definition column_text (row : list sql_value) (index : nat) : string :=
  match sqlite3_column_text (column row index) with Some t => t | None => "" end.

(** [sqlite3_column_int]: the low 32 bits of the 64-bit value. *)
Definition column_int (row : list sql_value) (index : nat) : Z :=
  (sqlite3_column_int64 (column row index) + 2147483648) mod 4294967296 - 2147483648.

(** The result of the first [sqlite3_step] of a query, with its row. *)
Definition first_step (r : list (list sql_value) * Z) : Z * list sql_value :=
  match fst r with
  | [] => (snd r, [])
  | row :: _ => (SQLITE_ROW, row)
  end.

(** [SqliteStore::last_error]. *)
Definition last_error (context : string) : M SqliteStore Status := mget (fun s =>
  storage_error (context +:+ ": " +:+
    (if db_ s then match sqlite3_errmsg (conn s) with Some m => m | None => "unknown error" end
     else "database not open"))).

(** [SqliteStore::exec]. *)
Definition exec (sql : string) : M SqliteStore Status :=
  let* (rc, err) := on_conn (sqlite3_exec sql) in
  if negb (rc =? SQLITE_OK)
  then mreturn (storage_error ("exec failed: " +:+ match err with Some e => e | None => "unknown" end))
  else mreturn status_ok.

(** [SqliteStore::rollback]. *)
Definition rollback : M SqliteStore Status :=
  let* s := exec sql_rollback in
  let* autocommit := mget (fun st => sqlite3_get_autocommit (conn st)) in
  if negb (ok s) && (autocommit =? 0)
  then mreturn (storage_error
         ("rollback failed and the connection is still in a transaction: " +:+ message s))
  else mreturn status_ok.

(** The error path of a transaction: [rollback(); return s;]. *)
Definition abandon (s : Status) : M SqliteStore Status := rollback ;; mreturn s.

(** [Status s = last_error(context); rollback(); return s;]. *)
Definition abandon_last (context : string) : M SqliteStore Status :=
  let* s := last_error context in abandon s.

(** The scope of a [StmtGuard]: the statement just prepared is finalized on every
    way out of [body], after the result was computed. *)
Definition guarded {A} (body : M SqliteStore A) : M SqliteStore A :=
  let* a := body in on_conn sqlite3_finalize ;; mreturn a.

(** ** Schema inspection *)

(** [SqliteStore::table_exists]: the status and the output flag. *)
Definition table_exists (name : string) : M SqliteStore (Status * bool) :=
  let* p := on_conn (sqlite3_prepare_v2 sql_table_exists) in
  if negb (p =? SQLITE_OK)
  then let* e := last_error "prepare table_exists" in mreturn (e, false)
  else
  guarded (
  let* b := on_conn (sqlite3_bind 1 (SqlText name)) in
  if negb (b =? SQLITE_OK)
  then let* e := last_error "bind table_exists" in mreturn (e, false)
  else
  let* r := on_conn (sqlite3_query sql_table_exists [SqlText name]) in
  let '(rc, _) := first_step r in
  if rc =? SQLITE_ROW then mreturn (status_ok, true)
  else if negb (rc =? SQLITE_DONE)
  then let* e := last_error "step table_exists" in mreturn (e, false)
  else mreturn (status_ok, false)).

(** [SqliteStore::read_schema_version]: the status, [present] and [version]. *)
Definition read_schema_version : M SqliteStore (Status * bool * Z) :=
  let* p := on_conn (sqlite3_prepare_v2 sql_schema_version) in
  if negb (p =? SQLITE_OK)
  then let* e := last_error "prepare schema_version" in mreturn (e, false, 0)
  else
  guarded (
  let* r := on_conn (sqlite3_query sql_schema_version []) in
  let '(rc, row) := first_step r in
  if rc =? SQLITE_ROW then
    let raw := column_text row 0 in
    match parse_schema_version raw with
    | None => mreturn (storage_error ("database schema version '" +:+ raw +:+
                        "' is malformed; refusing to open"), true, 0)
    | Some version => mreturn (status_ok, true, version)
    end
  else if negb (rc =? SQLITE_DONE)
  then let* e := last_error "step schema_version" in mreturn (e, false, 0)
  else mreturn (status_ok, false, 0)).

(** One row of PRAGMA table_info against the column it must describe. *)
Definition column_matches (want : ColumnSpec) (row : list sql_value) : bool :=
  negb (negb (bool_decide (column_text row 1 = col_name want)) ||
        negb (bool_decide (column_text row 2 = col_type want)) ||
        negb (column_int row 3 =? col_notnull want) ||
        negb (Bool.eqb (negb (column_int row 5 =? 0)) (negb (col_pk want =? 0)))).

(** The message for a column that differs, for the table called [table]. *)
Definition column_message (table : string) (index : Z) (want : ColumnSpec)
    (row : list sql_value) : string :=
  table +:+ " column " +:+ to_string index +:+ " is '" +:+ column_text row 1 +:+ " " +:+
  column_text row 2 +:+ "' but schema version " +:+ to_string kStoreSchemaVersion +:+
  " requires '" +:+ col_name want +:+ " " +:+ col_type want +:+ "'; refusing to open".

(** The column loop of the two shape validators: an error, or the number of
    columns seen. [too_many] is the message for an extra column. *)
Fixpoint shape_loop (table too_many : string) (index : Z) (wants : list ColumnSpec)
    (rows : list (list sql_value)) {struct rows} : Status + Z :=
  match rows with
  | [] => inr index
  | row :: rows' =>
      match wants with
      | [] => inl (storage_error too_many)
      | want :: wants' =>
          if column_matches want row
          then shape_loop table too_many (index + 1) wants' rows'
          else inl (storage_error (column_message table index want row))
      end
  end.

(** The two accepted forms of the non-empty check. *)
Definition accepted_check (expr : list Ascii.ascii) : bool :=
  bool_decide (expr = chars "length(event_id)>0") || bool_decide (expr = chars "0<length(event_id)").

(** The [seen] loop: the expressions separated by a comma and a space. *)
Fixpoint join_seen (seen : string) (checks : list (list Ascii.ascii)) : string :=
  match checks with
  | [] => seen
  | expr :: checks' =>
      join_seen ((if bool_decide (seen = "") then seen else seen +:+ ", ") +:+ of_chars expr) checks'
  end.

(** [SqliteStore::validate_events_check]. *)
Definition validate_events_check : M SqliteStore Status :=
  let* p := on_conn (sqlite3_prepare_v2 sql_events_sql) in
  if negb (p =? SQLITE_OK) then last_error "prepare events sql"
  else
  guarded (
  let* r := on_conn (sqlite3_query sql_events_sql []) in
  let '(rc, row) := first_step r in
  if negb (rc =? SQLITE_ROW) then
    if rc =? SQLITE_DONE
    then mreturn (storage_error
           "database is missing the events table definition; refusing to open")
    else last_error "step events sql"
  else
  let ddl := strip_sql_noise (chars (column_text row 0)) in
  let checks := check_expressions ddl in
  if negb (existsb accepted_check checks) then
    mreturn (storage_error
      ("events.event_id is missing the non-empty CHECK constraint required by schema version " +:+
       to_string kStoreSchemaVersion +:+ " (found " +:+
       (match checks with [] => "no CHECK constraint" | _ => "CHECK(" +:+ join_seen "" checks +:+ ")" end)
       +:+ ")" +:+ "; refusing to open"))
  else mreturn status_ok).

(** The PRAGMA index_list loop: an error, or whether the index was seen. *)
Fixpoint index_list_loop (rows : list (list sql_value)) : Status + bool :=
  match rows with
  | [] => inr false
  | row :: rows' =>
      if negb (bool_decide (column_text row 1 = "idx_events_order")) then index_list_loop rows'
      else if negb (column_int row 4 =? 0) then
        inl (storage_error ("idx_events_order is a PARTIAL index; schema version " +:+
          to_string kStoreSchemaVersion +:+ " requires it to cover every row; refusing to open"))
      else if negb (column_int row 2 =? 0) then
        inl (storage_error ("idx_events_order is UNIQUE; schema version " +:+
          to_string kStoreSchemaVersion +:+ " defines a non-unique index; refusing to open"))
      else if negb (bool_decide (column_text row 3 = "c")) then
        inl (storage_error ("idx_events_order was not created by CREATE INDEX (origin '" +:+
          column_text row 3 +:+ "'); refusing to open"))
      else inr true
  end.

(** The message for an index that is not there. *)
Definition missing_index : Status :=
  storage_error "database is missing the idx_events_order index; refusing to open".

(** The PRAGMA index_info check on the rows it returned. *)
Definition check_index_columns (rows : list (list sql_value)) : Status :=
  let columns := vsize rows in
  let first := match rows with [] => "" | row :: _ => column_text row 2 end in
  if negb (columns =? 1) || negb (bool_decide (first = "ordinal"))
  then storage_error ("idx_events_order must index exactly the 'ordinal' column but indexes " +:+
         to_string columns +:+ " column(s) starting with '" +:+ first +:+ "'; refusing to open")
  else status_ok.

(** First block of [SqliteStore::validate_order_index]: the index exists and
    belongs to [events]. *)
Definition check_index_table : M SqliteStore Status :=
  let* p := on_conn (sqlite3_prepare_v2 sql_index_table) in
  if negb (p =? SQLITE_OK) then last_error "prepare index check"
  else
  guarded (
  let* b := on_conn (sqlite3_bind 1 (SqlText "idx_events_order")) in
  if negb (b =? SQLITE_OK) then last_error "bind index check"
  else
  let* r := on_conn (sqlite3_query sql_index_table [SqlText "idx_events_order"]) in
  let '(rc, row) := first_step r in
  if rc =? SQLITE_DONE then mreturn missing_index
  else if negb (rc =? SQLITE_ROW) then last_error "step index check"
  else if negb (bool_decide (column_text row 0 = "events"))
  then mreturn (storage_error ("idx_events_order indexes table '" +:+ column_text row 0 +:+
         "' rather than 'events'; refusing to open"))
  else mreturn status_ok).

(** Second block: PRAGMA index_list describes a full, non-unique, created
    index. The loop stops at the index, so a later step error is not seen. *)
Definition check_index_list : M SqliteStore Status :=
  let* p := on_conn (sqlite3_prepare_v2 sql_index_list) in
  if negb (p =? SQLITE_OK) then last_error "prepare index_list"
  else
  guarded (
  let* (rows, rc_list) := on_conn (sqlite3_query sql_index_list []) in
  match index_list_loop rows with
  | inl e => mreturn e
  | inr true => mreturn status_ok
  | inr false =>
      if negb (rc_list =? SQLITE_ROW) && negb (rc_list =? SQLITE_DONE)
      then last_error "step index_list"
      else mreturn missing_index
  end).

(** Last block: PRAGMA index_info names exactly [ordinal]. *)
Definition check_index_info : M SqliteStore Status :=
  let* p := on_conn (sqlite3_prepare_v2 sql_index_info) in
  if negb (p =? SQLITE_OK) then last_error "prepare index_info"
  else
  guarded (
  let* (rows, rc) := on_conn (sqlite3_query sql_index_info []) in
  if negb (rc =? SQLITE_DONE) then last_error "step index_info"
  else mreturn (check_index_columns rows)).

(** [SqliteStore::validate_order_index]. *)
Definition validate_order_index : M SqliteStore Status :=
  let* a := check_index_table in
  if negb (ok a) then mreturn a
  else
  let* b := check_index_list in
  if negb (ok b) then mreturn b
  else check_index_info.

(** [SqliteStore::validate_events_shape]. *)
Definition validate_events_shape : M SqliteStore Status :=
  let* p := on_conn (sqlite3_prepare_v2 sql_events_info) in
  if negb (p =? SQLITE_OK) then last_error "prepare table_info"
  else
  guarded (
  let* (rows, rc) := on_conn (sqlite3_query sql_events_info []) in
  match shape_loop "events"
          ("events table has more columns than schema version " +:+
           to_string kStoreSchemaVersion +:+ " defines") 0 kEventsColumns rows with
  | inl e => mreturn e
  | inr index =>
      if negb (rc =? SQLITE_DONE) then last_error "step table_info"
      else if negb (index =? vsize kEventsColumns)
      then mreturn (storage_error ("events table has " +:+ to_string index +:+
             " column(s); schema version " +:+ to_string kStoreSchemaVersion +:+ " requires " +:+
             to_string (vsize kEventsColumns) +:+ "; refusing to open"))
      else
      let* check := validate_events_check in
      if negb (ok check) then mreturn check
      else validate_order_index
  end).

(** [SqliteStore::validate_meta_shape]. *)
Definition validate_meta_shape : M SqliteStore Status :=
  let* p := on_conn (sqlite3_prepare_v2 sql_meta_info) in
  if negb (p =? SQLITE_OK) then last_error "prepare meta table_info"
  else
  guarded (
  let* (rows, rc) := on_conn (sqlite3_query sql_meta_info []) in
  match shape_loop "schema_meta"
          ("schema_meta has more columns than schema version " +:+
           to_string kStoreSchemaVersion +:+ " defines; refusing to open") 0 kMetaColumns rows with
  | inl e => mreturn e
  | inr index =>
      if negb (rc =? SQLITE_DONE) then last_error "step meta table_info"
      else if negb (index =? vsize kMetaColumns)
      then mreturn (storage_error ("schema_meta has " +:+ to_string index +:+
             " column(s); schema version " +:+ to_string kStoreSchemaVersion +:+ " requires " +:+
             to_string (vsize kMetaColumns) +:+ "; refusing to open"))
      else mreturn status_ok
  end).

(** The statements that create the schema, after the transaction has begun:
    each one, and the commit, is abandoned on error. *)
Fixpoint create_schema (stmts : list string) : M SqliteStore Status :=
  match stmts with
  | [] => mreturn status_ok
  | sql :: stmts' =>
      let* s := exec sql in
      if negb (ok s) then abandon s else create_schema stmts'
  end.

(** The part of [inspect_and_prepare_schema] for a database with a
    [schema_meta] table: read-only validation. *)
Definition inspect_existing : M SqliteStore Status :=
  let* s := validate_meta_shape in
  if negb (ok s) then mreturn s
  else
  let* (s, present, version) := read_schema_version in
  if negb (ok s) then mreturn s
  else if negb present
  then mreturn (storage_error
         "database has a schema_meta table but no schema_version row; refusing to open")
  else if negb (version =? kStoreSchemaVersion)
  then mreturn (storage_error ("database schema version " +:+ to_string version +:+
         " is not supported (this build requires version " +:+ to_string kStoreSchemaVersion +:+
         "); refusing to open"))
  else
  let* (s, events_exists) := table_exists "events" in
  if negb (ok s) then mreturn s
  else if negb events_exists
  then mreturn (storage_error "database is missing the events table; refusing to open")
  else validate_events_shape.

(** [SqliteStore::inspect_and_prepare_schema]. *)
Definition inspect_and_prepare_schema : M SqliteStore Status :=
  let* (s, meta_exists) := table_exists "schema_meta" in
  if negb (ok s) then mreturn s
  else if meta_exists then inspect_existing
  else
  let* (s, events_exists) := table_exists "events" in
  if negb (ok s) then mreturn s
  else if events_exists
  then mreturn (storage_error ("database contains an events table with no schema_meta; " +:+
         "refusing to open an unrecognized database"))
  else
  let* s := exec sql_begin in
  if negb (ok s) then mreturn s
  else create_schema [kCreateMeta; kCreateEvents; kCreateIndex; sql_insert_version; sql_commit].

(** [SqliteStore::close]. *)
Definition close : M SqliteStore Status :=
  let* opened := mget db_ in
  if negb opened then mreturn status_ok
  else
  let* rc := on_conn sqlite3_close in
  if negb (rc =? SQLITE_OK)
  then let* s := last_error "close" in mput (set_db false) ;; mreturn s
  else mput (set_db false) ;; mreturn status_ok.

(** [SqliteStore::~SqliteStore]. *)
Definition destroy_store : M SqliteStore unit := close ;; mreturn tt.

(** The block of [SqliteStore::open] that sets the journal mode. *)
Definition set_journal : M SqliteStore Status :=
  let* p := on_conn (sqlite3_prepare_v2 sql_journal) in
  if negb (p =? SQLITE_OK) then last_error "prepare journal_mode"
  else
  guarded (
  let* r := on_conn (sqlite3_query sql_journal []) in
  let '(step, row) := first_step r in
  if step =? SQLITE_ROW then mput (set_journal_mode (column_text row 0)) ;; mreturn status_ok
  else if negb (step =? SQLITE_DONE) then last_error "step journal_mode"
  else mreturn status_ok).

(** [SqliteStore::open]. *)
Definition open : M SqliteStore Status :=
  let* path := mget path_ in
  let* (rc, handle) := on_conn (sqlite3_open (c_str path)) in
  mput (set_db handle) ;;
  if negb (rc =? SQLITE_OK) then last_error "open"
  else
  let* schema := inspect_and_prepare_schema in
  if negb (ok schema) then close ;; mreturn schema
  else
  let* journal := set_journal in
  if negb (ok journal) then mreturn journal
  else
  let* s := exec sql_synchronous in
  if negb (ok s) then mreturn s
  else
  let* s := exec sql_busy_timeout in
  if negb (ok s) then mreturn s
  else mreturn status_ok.

(** ** Data operations *)

(** The values bound for one record. *)
Definition insert_args (r : StoredRecord) : list sql_value :=
  [SqlText (sr_event_id r); SqlText (sr_session_id r); SqlInt (to_int64 (sr_sequence r));
   SqlInt (to_int64 (sr_ordinal r)); SqlInt (sr_created_ms r); SqlText (sr_payload r)].

(** The record loop of [insert], each error path rolling back. *)
Fixpoint insert_loop (records : list StoredRecord) : M SqliteStore Status :=
  match records with
  | [] => mreturn status_ok
  | r :: records' =>
      let* f := fault "bind_insert" in
      if f then abandon (storage_error "injected fault: bind_insert")
      else
      let* bound := bind_chain
        [bind_string 1 (sr_event_id r); bind_string 2 (sr_session_id r);
         bind_int64 3 (to_int64 (sr_sequence r)); bind_int64 4 (to_int64 (sr_ordinal r));
         bind_int64 5 (sr_created_ms r); bind_string 6 (sr_payload r)] in
      if negb bound then abandon_last "bind insert"
      else
      let* f := fault "step_insert" in
      if f then abandon (storage_error "injected fault: step_insert")
      else
      let* rc := on_conn (sqlite3_step sql_insert (insert_args r)) in
      if negb (rc =? SQLITE_DONE) then abandon_last "step insert"
      else
      let* rc := on_conn sqlite3_reset in
      if negb (rc =? SQLITE_OK) then abandon_last "reset insert"
      else
      let* rc := on_conn sqlite3_clear_bindings in
      if negb (rc =? SQLITE_OK) then abandon_last "clear bindings"
      else insert_loop records'
  end.

(** [SqliteStore::insert]. *)
Definition insert (records : list StoredRecord) : M SqliteStore Status :=
  match records with
  | [] => mreturn status_ok
  | _ =>
      let* f := fault "begin" in
      if f then mreturn (storage_error "injected fault: begin")
      else
      let* begin := exec sql_begin in
      if negb (ok begin) then mreturn begin
      else
      let* f := fault "prepare_insert" in
      if f then abandon (storage_error "injected fault: prepare_insert")
      else
      let* p := on_conn (sqlite3_prepare_v2 sql_insert) in
      if negb (p =? SQLITE_OK) then abandon_last "prepare insert"
      else
      guarded (
      let* looped := insert_loop records in
      if negb (ok looped) then mreturn looped
      else
      let* f := fault "commit" in
      if f then abandon (storage_error "injected fault: commit")
      else
      let* commit := exec sql_commit in
      if negb (ok commit) then
        let* rb := rollback in
        if negb (ok rb) then mreturn rb else mreturn commit
      else mreturn status_ok)
  end.

(** [SqliteStore::scalar_uint64]: the status and [*out]. [bind_value] is
    [None] when [use_bind] is false. *)
Definition scalar_uint64 (sql : string) (bind_value : option Z) : M SqliteStore (Status * Z) :=
  let* p := on_conn (sqlite3_prepare_v2 sql) in
  if negb (p =? SQLITE_OK) then let* e := last_error "prepare scalar" in mreturn (e, 0)
  else
  guarded (
  let args := match bind_value with Some v => [SqlInt (to_int64 v)] | None => [] end in
  let* b := match bind_value with
            | Some v => bind_int64 1 (to_int64 v)
            | None => mreturn SQLITE_OK
            end in
  if negb (b =? SQLITE_OK) then let* e := last_error "bind scalar" in mreturn (e, 0)
  else
  let* r := on_conn (sqlite3_query sql args) in
  let (rc, row) := first_step r in
  if negb (rc =? SQLITE_ROW) then let* e := last_error "step scalar" in mreturn (e, 0)
  else
  let value := sqlite3_column_int64 (column row 0) in
  mreturn (status_ok, if 0 <? value then value else 0)).

(** [SqliteStore::count] with a non-null output. *)
Definition count : M SqliteStore (Status * Z) :=
  let* f := fault "count" in
  if f then mreturn (storage_error "injected fault: count", 0)
  else
  let* (s, value) := scalar_uint64 sql_count None in
  if negb (ok s) then mreturn (s, 0) else mreturn (status_ok, value).

(** [SqliteStore::max_ordinal] with a non-null output. *)
Definition max_ordinal : M SqliteStore (Status * Z) := scalar_uint64 sql_max_ordinal None.

(** [SqliteStore::count_up_to] with a non-null output. *)
Definition count_up_to (barrier : Z) : M SqliteStore (Status * Z) :=
  let* f := fault "count" in
  if f then mreturn (storage_error "injected fault: count", 0)
  else
  let* (s, value) := scalar_uint64 sql_count_up_to (Some barrier) in
  if negb (ok s) then mreturn (s, 0) else mreturn (status_ok, value).

(** The delete loop of [delete_rowids]: the status and the rows removed so far.
    [sqlite3_changes] is not negative and the sum is at most the number of
    rows, so no wrap-around is written. *)
Fixpoint delete_rowids_loop (removed : Z) (rowids : list Z) : M SqliteStore (Status * Z) :=
  match rowids with
  | [] => mreturn (status_ok, removed)
  | rowid :: rowids' =>
      let* rc := bind_int64 1 rowid in
      if negb (rc =? SQLITE_OK) then let* s := abandon_last "bind delete rowid" in mreturn (s, 0)
      else
      let* rc := on_conn (sqlite3_step sql_delete_rowid [SqlInt rowid]) in
      if negb (rc =? SQLITE_DONE) then let* s := abandon_last "step delete rowid" in mreturn (s, 0)
      else
      let* changes := mget (fun st => sqlite3_changes (conn st)) in
      let* rc := on_conn sqlite3_reset in
      if negb (rc =? SQLITE_OK) then let* s := abandon_last "reset delete rowid" in mreturn (s, 0)
      else
      on_conn sqlite3_clear_bindings ;;
      delete_rowids_loop (removed + changes) rowids'
  end.

(** [SqliteStore::delete_rowids]: the status and [*deleted]. *)
Definition delete_rowids (rowids : list Z) : M SqliteStore (Status * Z) :=
  match rowids with
  | [] => mreturn (status_ok, 0)
  | _ =>
      let* f := fault "begin_quarantine" in
      if f then mreturn (storage_error "injected fault: begin_quarantine", 0)
      else
      let* begin := exec sql_begin in
      if negb (ok begin) then mreturn (begin, 0)
      else
      let* p := on_conn (sqlite3_prepare_v2 sql_delete_rowid) in
      if negb (p =? SQLITE_OK) then let* s := abandon_last "prepare delete rowid" in mreturn (s, 0)
      else
      guarded (
      let* (s, removed) := delete_rowids_loop 0 rowids in
      if negb (ok s) then mreturn (s, 0)
      else
      let* commit := exec sql_commit in
      if negb (ok commit) then let* s := abandon commit in mreturn (s, 0)
      else mreturn (status_ok, removed))
  end.

(** The delete loop of [delete_ids]. *)
Fixpoint delete_ids_loop (removed : Z) (ids : list string) : M SqliteStore (Status * Z) :=
  match ids with
  | [] => mreturn (status_ok, removed)
  | id :: ids' =>
      let* rc := bind_string 1 id in
      if negb (rc =? SQLITE_OK) then let* s := abandon_last "bind delete" in mreturn (s, 0)
      else
      let* f := fault "step_delete" in
      if f then let* s := abandon (storage_error "injected fault: step_delete") in mreturn (s, 0)
      else
      let* rc := on_conn (sqlite3_step sql_delete_id [SqlText id]) in
      if negb (rc =? SQLITE_DONE) then let* s := abandon_last "step delete" in mreturn (s, 0)
      else
      let* changes := mget (fun st => sqlite3_changes (conn st)) in
      let* rc := on_conn sqlite3_reset in
      if negb (rc =? SQLITE_OK) then let* s := abandon_last "reset delete" in mreturn (s, 0)
      else
      let* rc := on_conn sqlite3_clear_bindings in
      if negb (rc =? SQLITE_OK) then let* s := abandon_last "clear bindings" in mreturn (s, 0)
      else delete_ids_loop (removed + changes) ids'
  end.

(** [SqliteStore::delete_ids]: the status and [*deleted]. *)
Definition delete_ids (ids : list string) : M SqliteStore (Status * Z) :=
  match ids with
  | [] => mreturn (status_ok, 0)
  | _ =>
      let* f := fault "begin_delete" in
      if f then mreturn (storage_error "injected fault: begin_delete", 0)
      else
      let* begin := exec sql_begin in
      if negb (ok begin) then mreturn (begin, 0)
      else
      let* p := on_conn (sqlite3_prepare_v2 sql_delete_id) in
      if negb (p =? SQLITE_OK) then let* s := abandon_last "prepare delete" in mreturn (s, 0)
      else
      guarded (
      let* (s, removed) := delete_ids_loop 0 ids in
      if negb (ok s) then mreturn (s, 0)
      else
      let* f := fault "commit_delete" in
      if f then let* s := abandon (storage_error "injected fault: commit_delete") in mreturn (s, 0)
      else
      let* commit := exec sql_commit in
      if negb (ok commit) then let* s := abandon commit in mreturn (s, 0)
      else mreturn (status_ok, removed))
  end.

(** [SqliteStore::acknowledge]: the status and [*deleted]. *)
Definition acknowledge (ids : list string) : M SqliteStore (Status * Z) :=
  let* (s, deleted) := delete_ids ids in
  if negb (ok s) then mreturn (s, deleted)
  else if negb (deleted =? vsize ids)
  then mreturn (storage_error ("acknowledgment removed " +:+ to_string deleted +:+ " of " +:+
         to_string (vsize ids) +:+ " row(s); the store and the batch disagree"), deleted)
  else mreturn (status_ok, deleted).

(** One fetched row: the identifier is null or empty, or the payload is not
    JSON. *)
Definition unusable (row : list sql_value) : bool :=
  (match column row 1 with SqlNull => true | _ => false end) ||
  bool_decide (column_text row 1 = "") || negb (is_valid_json accept (column_text row 2)).

(** The row loop of [fetch_pending]: the usable events and the rowids of the
    unusable rows, both in row order. *)
Fixpoint fetch_loop (rows : list (list sql_value)) : list SerializedEvent * list Z :=
  match rows with
  | [] => ([], [])
  | row :: rows' =>
      let '(events, corrupt) := fetch_loop rows' in
      if unusable row then (events, sqlite3_column_int64 (column row 0) :: corrupt)
      else (mkSerialized (column_text row 1) (column_text row 2) :: events, corrupt)
  end.

(** [SqliteStore::fetch_pending]. *)
Definition fetch_pending (limit : Z) : M SqliteStore FetchResult :=
  let* f := fault "prepare_fetch" in
  if f then mreturn (mkFetch (storage_error "injected fault: fetch") [] 0)
  else
  let limit := if int_max <? limit then int_max else limit in
  let* p := on_conn (sqlite3_prepare_v2 sql_fetch) in
  if negb (p =? SQLITE_OK)
  then let* e := last_error "prepare fetch" in mreturn (mkFetch e [] 0)
  else
  guarded (
  let* b := bind_int64 1 limit in
  if negb (b =? SQLITE_OK)
  then let* e := last_error "bind fetch" in mreturn (mkFetch e [] 0)
  else
  let* (rows, rc) := on_conn (sqlite3_query sql_fetch [SqlInt limit]) in
  let '(events, corrupt_rowids) := fetch_loop rows in
  if negb (rc =? SQLITE_DONE)
  then let* e := last_error "step fetch" in mreturn (mkFetch e events 0)
  else
  match corrupt_rowids with
  | [] => mreturn (mkFetch status_ok events 0)
  | _ =>
      let* (deleted, removed) := delete_rowids corrupt_rowids in
      if ok deleted && (removed =? vsize corrupt_rowids)
      then mreturn (mkFetch (storage_error ("quarantined " +:+ to_string removed +:+
             " unusable row(s) (bad identifier or payload)")) events removed)
      else mreturn (mkFetch (storage_error ("found " +:+ to_string (vsize corrupt_rowids) +:+
             " unusable row(s) but could not quarantine them: " +:+
             (if ok deleted then "only " +:+ to_string removed +:+ " removed"
              else message deleted))) events 0)
  end).

(** ** Durable consent revocation *)

(** [SqliteStore::mark_revocation_pending]. *)
Definition mark_revocation_pending : M SqliteStore Status :=
  let* f := fault "mark_revocation" in
  if f then mreturn (storage_error "injected fault: mark_revocation")
  else
  let* begin := exec sql_begin in
  if negb (ok begin) then mreturn begin
  else
  let* s := exec sql_mark in
  if negb (ok s) then abandon s
  else
  let* commit := exec sql_commit in
  if negb (ok commit) then abandon commit
  else mreturn status_ok.

(** [SqliteStore::purge_and_clear_revocation]: the status and [*deleted]. *)
Definition purge_and_clear_revocation : M SqliteStore (Status * Z) :=
  let* f := fault "purge" in
  if f then mreturn (storage_error "injected fault: purge", 0)
  else
  let* begin := exec sql_begin in
  if negb (ok begin) then mreturn (begin, 0)
  else
  let* del := exec sql_delete_all in
  if negb (ok del) then let* s := abandon del in mreturn (s, 0)
  else
  let* removed := mget (fun st => sqlite3_changes (conn st)) in
  let* cleared := exec sql_unmark in
  if negb (ok cleared) then let* s := abandon cleared in mreturn (s, 0)
  else
  let* f := fault "commit_purge" in
  if f then let* s := abandon (storage_error "injected fault: commit_purge") in mreturn (s, 0)
  else
  let* commit := exec sql_commit in
  if negb (ok commit) then let* s := abandon commit in mreturn (s, 0)
  else mreturn (status_ok, removed).

(** [SqliteStore::revocation_pending] with a non-null output. *)
Definition revocation_pending : M SqliteStore (Status * bool) :=
  let* p := on_conn (sqlite3_prepare_v2 sql_marker) in
  if negb (p =? SQLITE_OK)
  then let* e := last_error "prepare revocation_pending" in mreturn (e, false)
  else
  guarded (
  let* b := on_conn (sqlite3_bind 1 (SqlText kRevocationKey)) in
  if negb (b =? SQLITE_OK)
  then let* e := last_error "bind revocation_pending" in mreturn (e, false)
  else
  let* r := on_conn (sqlite3_query sql_marker [SqlText kRevocationKey]) in
  let '(rc, _) := first_step r in
  if rc =? SQLITE_ROW then mreturn (status_ok, true)
  else if negb (rc =? SQLITE_DONE)
  then let* e := last_error "step revocation_pending" in mreturn (e, false)
  else mreturn (status_ok, false)).

End Store.

Arguments SqliteStore W : clear implicits.
Arguments mkStore {W} _ _ _ _ _.
Arguments path_ {W} _.
Arguments db_ {W} _.
Arguments journal_mode_ {W} _.
Arguments fault_hook_ {W} _.
Arguments conn {W} _.
