(* ===== verification/StoreSpec.v ===== *)
(** What the durable store guarantees.

    The theorems on src/sqlite_store.cpp: transactions are all or nothing,
    insertion is idempotent, acknowledgment and quarantine remove exactly the
    rows they name, the revocation marker lives exactly until the purge is
    durable, and opening never alters a database it does not create. They hold
    for every connection that satisfies [SqliteSpec]. *)
From stdpp Require Import sorting.
From S2P Require Import Prelude Types Serializer SqlText Sqlite Store.

Local Open Scope Z_scope.
Local Open Scope pt_scope.

(** * Abstract contents *)

(** A row without its storage identifier. *)
Definition strip (r : Row) : Row :=
  mkRow 0 (row_event_id r) (row_session_id r) (row_seq r) (row_ordinal r) (row_created_ms r)
    (row_payload r).

(** The pending events of a database, in insertion order. *)
Definition content (d : Db) : list Row := strip <$> db_events d.

(** The row a record becomes. *)
Definition row_of (r : StoredRecord) : Row :=
  mkRow 0 (SqlText (sr_event_id r)) (sr_session_id r) (to_int64 (sr_sequence r))
    (to_int64 (sr_ordinal r)) (sr_created_ms r) (SqlText (sr_payload r)).

(** What inserting one record means: a key that is present wins. *)
Definition insert_one (rows : list Row) (r : StoredRecord) : list Row :=
  insert_or_ignore rows (sr_event_id r) (row_of r).

(** A record whose key the schema accepts. *)
Definition valid_record (r : StoredRecord) : Prop := valid_key (sr_event_id r).

(** The row carries one of the identifiers. *)
Definition in_ids (ids : list string) (r : Row) : bool := existsb (fun id => has_id id r) ids.

(** Storage identifiers are unique. *)
Definition rowids_unique (d : Db) : Prop := NoDup (row_rowid <$> db_events d).

(** ** Lemmas on contents *)

Lemma has_id_strip id r : has_id id (strip r) = has_id id r.
Proof. done. Qed.

Lemma existsb_strip id rows : existsb (has_id id) (strip <$> rows) = existsb (has_id id) rows.
Proof. induction rows as [|r rows IH]; [done|]. rewrite fmap_cons. simpl. by rewrite IH. Qed.

Lemma strip_insert rows rowid (r : StoredRecord) :
  strip <$> insert_or_ignore rows (sr_event_id r)
    (mkRow rowid (SqlText (sr_event_id r)) (sr_session_id r) (to_int64 (sr_sequence r))
       (to_int64 (sr_ordinal r)) (sr_created_ms r) (SqlText (sr_payload r))) =
  insert_one (strip <$> rows) r.
Proof.
  unfold insert_one, insert_or_ignore. rewrite existsb_strip.
  destruct (existsb _ _); [done|]. by rewrite fmap_app.
Qed.

Lemma insert_unique rows id new :
  NoDup (row_rowid <$> rows) -> Forall (fun r => row_rowid r <> row_rowid new) rows ->
  NoDup (row_rowid <$> insert_or_ignore rows id new).
Proof.
  intros Hnd Hf. unfold insert_or_ignore. destruct (existsb _ _); [done|].
  rewrite fmap_app. apply NoDup_app. split; [done|]. split; [|apply NoDup_singleton].
  intros z Hz Hz'. apply list_elem_of_singleton in Hz' as ->.
  apply list_elem_of_fmap in Hz as (r & Hr & Hin).
  rewrite Forall_forall in Hf. by apply (Hf r Hin).
Qed.

Lemma existsb_insert_one id rows r :
  existsb (has_id id) (insert_one rows r) =
  existsb (has_id id) rows || bool_decide (sr_event_id r = id).
Proof.
  unfold insert_one, insert_or_ignore. destruct (existsb (has_id (sr_event_id r)) rows) eqn:E.
  - destruct (decide (sr_event_id r = id)) as [<-|Hne].
    + by rewrite E.
    + by rewrite bool_decide_false, orb_false_r.
  - rewrite existsb_app. simpl. by rewrite orb_false_r.
Qed.

Lemma insert_all_present rows records id :
  existsb (has_id id) (foldl insert_one rows records) =
  existsb (has_id id) rows || existsb (fun r => bool_decide (sr_event_id r = id)) records.
Proof.
  revert rows. induction records as [|r records IH]; intros rows; simpl; [by rewrite orb_false_r|].
  by rewrite IH, existsb_insert_one, orb_assoc.
Qed.

Lemma insert_all_noop rows records :
  Forall (fun r => existsb (has_id (sr_event_id r)) rows = true) records ->
  foldl insert_one rows records = rows.
Proof.
  induction 1 as [|r records Hr _ IH]; simpl; [done|].
  replace (insert_one rows r) with rows; [done|].
  unfold insert_one, insert_or_ignore. by rewrite Hr.
Qed.

Lemma insert_all_twice rows records :
  foldl insert_one (foldl insert_one rows records) records = foldl insert_one rows records.
Proof.
  apply insert_all_noop, Forall_forall. intros r Hr. rewrite insert_all_present.
  apply orb_true_iff. right. apply existsb_exists. exists r.
  split; [by apply list_elem_of_In|]. by apply bool_decide_eq_true.
Qed.

Lemma strip_filter (f : Row -> bool) (rows : list Row) :
  (forall r, f (strip r) = f r) ->
  strip <$> filter (fun r => f r = false) rows = filter (fun r => f r = false) (strip <$> rows).
Proof.
  intros Hf. induction rows as [|r rows IH]; [done|].
  rewrite fmap_cons, !filter_cons, Hf.
  destruct (decide (f r = false)); [by rewrite fmap_cons, IH|done].
Qed.

Lemma vsize_filter_split (f : Row -> bool) (rows : list Row) :
  vsize rows = vsize (filter (fun r => f r = false) rows) + vsize (filter (fun r => f r = true) rows).
Proof.
  induction rows as [|r rows IH]; [done|]. rewrite !filter_cons, vsize_cons, IH.
  destruct (f r); simpl; rewrite vsize_cons; lia.
Qed.

Create HintDb quiet.

Section Spec.
Context {W : Type} `{!SqliteApi W} `{!SqliteSpec W}.
Context (accept : string -> library_call bool).
#[local] Abbreviation St := (SqliteStore W).

(** Committed contents, contents the connection sees, open transaction. *)
Definition dur (s : St) : Db := durable view (conn s).
Definition wrk (s : St) : Db := working view (conn s).
Definition tx (s : St) : bool := in_tx view (conn s).

(** When the connection can be trusted to leave its transactions: [T] is what
    the caller knows. *)
Context (T : Prop) (HT : T -> forall w, in_tx view (snd (sqlite3_exec sql_rollback w)) = false).

(** The committed contents are [d], and no transaction is open when [T]. *)
Definition Kept (d : Db) (s : St) : Prop := dur s = d /\ (T -> tx s = false).

(** Inside a transaction over committed contents [d0], with current contents [d]. *)
Definition InTx (d0 d : Db) (s : St) : Prop := dur s = d0 /\ tx s = true /\ wrk s = d.

(** A computation that changes no data. *)
Definition quiet {A} (m : M St A) : Prop :=
  forall s, same_data view (conn s) (conn (snd (m s))).

(** An assertion about data only. *)
Definition data_only (P : St -> Prop) : Prop :=
  forall s s', same_data view (conn s) (conn s') -> P s -> P s'.

Lemma quiet_return {A} (a : A) : quiet (mreturn a).
Proof. by intros s. Qed.

Lemma quiet_get {A} (f : St -> A) : quiet (mget f).
Proof. by intros s. Qed.

Lemma quiet_then {A B} (m : M St A) (k : A -> M St B) :
  quiet m -> (forall a, quiet (k a)) -> quiet (mthen m k).
Proof.
  intros Hm Hk s. unfold mthen. specialize (Hm s). destruct (m s) as [a s1]; simpl in Hm.
  specialize (Hk a s1). unfold same_data in *. destruct Hm as (H1 & H2 & H3), Hk as (K1 & K2 & K3).
  by rewrite K1, K2, K3.
Qed.

Lemma quiet_on_conn {A} (m : M W A) :
  (forall w, same_data view w (snd (m w))) -> quiet (on_conn m).
Proof. intros Hm s. unfold on_conn. specialize (Hm (conn s)). by destruct (m (conn s)). Qed.

Lemma quiet_put (f : St -> St) : (forall s, conn (f s) = conn s) -> quiet (mput f).
Proof. intros Hf s. simpl. by rewrite Hf. Qed.

Lemma quiet_fault op : quiet (fault op).
Proof.
  apply quiet_then; [apply quiet_get|]. intros [].
  - apply quiet_on_conn, spec_hook.
  - apply quiet_return.
Qed.

Lemma quiet_last_error c : quiet (last_error c).
Proof. apply quiet_get. Qed.

Lemma quiet_bind_string i v : quiet (bind_string i v).
Proof.
  unfold bind_string. destruct (_ <? _); [apply quiet_return|]. apply quiet_on_conn, spec_bind.
Qed.

Lemma quiet_bind_int64 i v : quiet (bind_int64 i v).
Proof. apply quiet_on_conn, spec_bind. Qed.

Lemma quiet_bind i v : quiet (on_conn (sqlite3_bind i v)).
Proof. apply quiet_on_conn, spec_bind. Qed.

Lemma quiet_prepare sql : quiet (on_conn (sqlite3_prepare_v2 sql)).
Proof. apply quiet_on_conn, spec_prepare. Qed.

Lemma quiet_query sql args : quiet (on_conn (sqlite3_query sql args)).
Proof. apply quiet_on_conn, spec_query. Qed.

Lemma quiet_reset : quiet (on_conn sqlite3_reset).
Proof. apply quiet_on_conn, spec_reset. Qed.

Lemma quiet_clear : quiet (on_conn sqlite3_clear_bindings).
Proof. apply quiet_on_conn, spec_clear. Qed.

Lemma quiet_finalize : quiet (on_conn sqlite3_finalize).
Proof. apply quiet_on_conn, spec_finalize. Qed.

(** A guard that goes out of scope touches no data. *)
Lemma quiet_guarded {A} (m : M St A) : quiet m -> quiet (guarded m).
Proof.
  intros Hm. apply quiet_then; [done|]. intros a. apply quiet_then; [apply quiet_finalize|].
  intros _. apply quiet_return.
Qed.

Lemma quiet_chain calls : Forall quiet calls -> quiet (bind_chain calls).
Proof.
  induction 1 as [|c cs Hc _ IH]; simpl; [apply quiet_return|].
  apply quiet_then; [done|]. intros rc. destruct (_ =? _); [done|apply quiet_return].
Qed.

#[local] Hint Resolve quiet_return quiet_get quiet_fault quiet_last_error quiet_bind_string
  quiet_bind_int64 quiet_bind quiet_prepare quiet_query quiet_reset quiet_clear quiet_finalize quiet_chain : quiet.
#[local] Hint Resolve Forall_nil_2 Forall_cons_2 : quiet.

(** Proves that a read-only computation is quiet. *)
Ltac quiet_tac :=
  repeat first
    [ progress intros
    | solve [eauto 4 with quiet]
    | apply quiet_guarded
    | apply quiet_then
    | match goal with |- quiet (if ?b then _ else _) => destruct b end
    | match goal with |- quiet (let '(_, _) := ?p in _) => destruct p end
    | match goal with |- quiet (match ?p with _ => _ end) => destruct p end ].

Lemma data_only_InTx d0 d : data_only (InTx d0 d).
Proof. intros s s' (H1 & H2 & H3) (Ha & Hb & Hc). unfold InTx, dur, tx, wrk in *. by rewrite H1, H2, H3. Qed.

Lemma data_only_dur d : data_only (fun s => dur s = d).
Proof. intros s s' (H1 & _) <-. unfold dur. by rewrite H1. Qed.

Lemma data_only_Kept d : data_only (Kept d).
Proof. intros s s' (H1 & _ & H3) [Hd Ht]. unfold Kept, dur, tx in *. by rewrite H1, H3. Qed.

Lemma Kept_dur d s : Kept d s -> dur s = d.
Proof. by intros []. Qed.

Lemma hoare_quiet {A} (P : St -> Prop) (m : M St A) :
  data_only P -> quiet m -> hoare P m (fun _ => P).
Proof. intros HP Hm s Hs. eapply HP; [apply Hm|done]. Qed.

#[local] Hint Resolve data_only_InTx data_only_dur data_only_Kept : quiet.

(** What holds of the data when the guarded block is left holds after it. *)
Lemma hoare_guarded {A} (P : St -> Prop) (m : M St A) (Q : A -> St -> Prop) :
  (forall a, data_only (Q a)) -> hoare P m Q -> hoare P (guarded m) Q.
Proof.
  intros HQ Hm s Hs. specialize (Hm s Hs). unfold guarded, mthen. destruct (m s) as [a s1].
  pose proof (quiet_finalize s1) as Hf. destruct (on_conn sqlite3_finalize s1) as [rc s2].
  by eapply HQ.
Qed.

(** Running a statement through [exec]. *)
Lemma hoare_exec (P : St -> Prop) sql (Q : Status -> St -> Prop) :
  (forall s rc e w', P s -> sqlite3_exec sql (conn s) = ((rc, e), w') ->
     forall st, (ok st = true <-> rc = SQLITE_OK) -> Q st (set_conn w' s)) ->
  hoare P (exec sql) Q.
Proof.
  intros H s Hs. unfold exec, mthen, on_conn.
  destruct (sqlite3_exec sql (conn s)) as [[rc e] w'] eqn:E.
  destruct (rc =? SQLITE_OK) eqn:Erc; simpl; (eapply H; [done|done|]); bool_to_prop; [done|].
  split; [done|]. intros. by destruct Erc.
Qed.

Lemma rollback_keeps d : hoare (fun s => dur s = d) rollback (fun _ s => Kept d s).
Proof.
  eapply hoare_then.
  - apply (hoare_exec _ _ (fun _ s => Kept d s)). intros s rc e w' Hs E st _.
    pose proof E as E'. apply (spec_rollback W) in E' as [Hd _]. unfold Kept, dur, tx in *. simpl.
    split; [by rewrite Hd|]. intros Ht. specialize (HT Ht (conn s)). by rewrite E in HT.
  - intros st. apply hoare_quiet; [apply data_only_Kept|]. quiet_tac.
Qed.

Lemma abandon_keeps d st :
  hoare (fun s => dur s = d) (abandon st) (fun r s => r = st /\ Kept d s).
Proof.
  eapply hoare_then; [apply rollback_keeps|]. intros rb. by apply hoare_return.
Qed.

Lemma abandon_last_keeps d c :
  hoare (fun s => dur s = d) (abandon_last c) (fun r s => ok r = false /\ Kept d s).
Proof.
  eapply hoare_then with (R := fun e s => ok e = false /\ dur s = d).
  - apply hoare_get. done.
  - intros e s [He Hs]. destruct (abandon_keeps d e s Hs) as [-> Hd]. done.
Qed.

Lemma InTx_dur d0 d s : InTx d0 d s -> dur s = d0.
Proof. by intros [? _]. Qed.

(** [BEGIN IMMEDIATE] on committed contents [d]. *)
Lemma begin_spec d :
  hoare (Kept d) (exec sql_begin) (fun st s => if ok st then InTx d d s else Kept d s).
Proof.
  apply hoare_exec. intros s rc e w' [Hs Ht] E st Hst.
  apply (spec_begin W) in E as (Hd & Hok & Hno). unfold Kept, InTx, dur, tx, wrk in *. simpl.
  destruct (ok st).
  - destruct (Hok (proj1 Hst eq_refl)) as (_ & Ht' & Hw). by rewrite Hd, Ht', Hw.
  - rewrite Hd, Hno; [done|]. intros Hrc. by apply Hst in Hrc.
Qed.

(** [COMMIT] publishes the working contents or leaves the committed ones. *)
Lemma commit_spec d0 d :
  hoare (InTx d0 d) (exec sql_commit)
    (fun st s => if ok st then dur s = d /\ tx s = false else dur s = d0).
Proof.
  apply hoare_exec. intros s rc e w' (Hs & Ht & Hw) E st Hst.
  apply (spec_commit W) in E as (Hok & Hno). unfold dur, tx, wrk in *. simpl.
  destruct (ok st).
  - destruct (Hok (proj1 Hst eq_refl)) as [-> ?]. done.
  - rewrite Hno; [done|]. intros Hrc. by apply Hst in Hrc.
Qed.

(** A write inside the transaction through [exec]. *)
Lemma exec_write_spec sql (f : Db -> Db -> Prop) d0 d :
  (forall w rc e w', sqlite3_exec sql w = ((rc, e), w') ->
     writes view SQLITE_OK (fun a b => f a b) rc w w') ->
  hoare (InTx d0 d) (exec sql)
    (fun st s => if ok st then exists d', InTx d0 d' s /\ f d d' else dur s = d0).
Proof.
  intros Hw. apply hoare_exec. intros s rc e w' (Hs & Ht & Hwk) E st Hst.
  apply Hw in E. destruct (E Ht) as [Hd Hok]. unfold InTx, dur, tx, wrk in *. simpl.
  destruct (ok st); [|by rewrite Hd].
  destruct (Hok (proj1 Hst eq_refl)) as [Ht' Hf]. rewrite Hwk in Hf.
  exists (working view w'). by rewrite Hd, Ht'.
Qed.

(** The outcome of a step inside a transaction: still inside with contents
    related by [G], or failed with the committed contents kept. *)
Definition TxPost (d0 : Db) (G : Db -> Prop) (st : Status) (s : St) : Prop :=
  if ok st then exists d', InTx d0 d' s /\ G d' else Kept d0 s.

(** The outcome of a whole transaction that started from [d0]. *)
Definition Committed (d0 : Db) (G : Db -> Prop) (st : Status) (s : St) : Prop :=
  if ok st then G (dur s) /\ tx s = false else Kept d0 s.

Lemma data_only_Committed d0 G st : data_only (Committed d0 G st).
Proof.
  intros s s' Hd. unfold Committed. destruct (ok st); [|by apply data_only_Kept].
  destruct Hd as (H1 & _ & H3). unfold dur, tx. by rewrite H1, H3.
Qed.
#[local] Hint Resolve data_only_Committed : quiet.

Lemma tx_abandon d0 d st (Q : Status -> St -> Prop) :
  (forall s, Kept d0 s -> Q st s) -> hoare (InTx d0 d) (abandon st) Q.
Proof.
  intros HQ s Hs. apply InTx_dur in Hs. destruct (abandon_keeps d0 st s Hs) as [-> Hd]. by apply HQ.
Qed.

Lemma tx_abandon_last d0 d c (Q : Status -> St -> Prop) :
  (forall e s, ok e = false -> Kept d0 s -> Q e s) -> hoare (InTx d0 d) (abandon_last c) Q.
Proof.
  intros HQ s Hs. apply InTx_dur in Hs. destruct (abandon_last_keeps d0 c s Hs) as [He Hd]. by apply HQ.
Qed.

(** The same with the deletion count of the deleting operations. *)
Lemma tx_abandon0 d0 d st (Q : Status * Z -> St -> Prop) :
  (forall s, Kept d0 s -> Q (st, 0) s) ->
  hoare (InTx d0 d) (let* s := abandon st in mreturn (s, 0)) Q.
Proof.
  intros HQ. eapply hoare_then; [apply (tx_abandon _ _ _ (fun r s => r = st /\ Kept d0 s)); auto|].
  intros r. apply hoare_return. intros s [-> Hs]. by apply HQ.
Qed.

Lemma tx_abandon_last0 d0 d c (Q : Status * Z -> St -> Prop) :
  (forall e s, ok e = false -> Kept d0 s -> Q (e, 0) s) ->
  hoare (InTx d0 d) (let* s := abandon_last c in mreturn (s, 0)) Q.
Proof.
  intros HQ. eapply hoare_then;
    [apply (tx_abandon_last _ _ _ (fun e s => ok e = false /\ Kept d0 s)); auto|].
  intros r. apply hoare_return. intros s [He Hs]. by apply HQ.
Qed.

(** A failed [COMMIT] followed by a rollback. *)
Lemma dur_abandon0 d st (Q : Status * Z -> St -> Prop) :
  (forall s, Kept d s -> Q (st, 0) s) ->
  hoare (fun s => dur s = d) (let* s := abandon st in mreturn (s, 0)) Q.
Proof.
  intros HQ. eapply hoare_then; [apply (abandon_keeps d st)|].
  intros r. apply hoare_return. intros s [-> Hs]. by apply HQ.
Qed.

(** One quiet step. *)
Lemma quiet_step {A B} (P : St -> Prop) (m : M St A) (k : A -> M St B) Q :
  data_only P -> quiet m -> (forall a, hoare P (k a) Q) -> hoare P (mthen m k) Q.
Proof. intros HP Hm Hk. eapply hoare_then; [by apply hoare_quiet|done]. Qed.

(** A prepared write inside the transaction. *)
Lemma step_write_spec sql args (f : Db -> Db -> Prop) (g : Db -> W -> Prop) d0 d :
  (forall w rc w', sqlite3_step sql args w = (rc, w') ->
     writes view SQLITE_DONE (fun a b => f a b /\ g a w') rc w w') ->
  hoare (InTx d0 d) (on_conn (sqlite3_step sql args))
    (fun rc s => if rc =? SQLITE_DONE then exists d', InTx d0 d' s /\ f d d' /\ g d (conn s)
                 else dur s = d0).
Proof.
  intros Hw s (Hs & Ht & Hwk). unfold on_conn.
  destruct (sqlite3_step sql args (conn s)) as [rc w'] eqn:E. apply Hw in E.
  destruct (E Ht) as [Hd Hok]. unfold InTx, dur, tx, wrk in *. simpl.
  destruct (rc =? SQLITE_DONE) eqn:Erc; [|by rewrite Hd].
  destruct (Hok (proj1 (Z.eqb_eq _ _) Erc)) as [Ht' Hf]. rewrite Hwk in Hf.
  exists (working view w'). by rewrite Hd, Ht'.
Qed.

(** Steps over one quiet call of a transaction, naming its result. *)
Tactic Notation "quiet_as" ident(x) :=
  apply quiet_step; [solve [eauto with quiet]|solve [eauto 20 with quiet]|intros x].

(** Enters the block a guard protects. *)
Ltac enter := apply hoare_guarded; [solve [intros; eauto with quiet]|].

(** Reduces the branch conditions only. *)
Ltac tidy := cbn beta iota delta [negb andb].

(** ** Insertion *)

(** The contents after inserting the records. *)
Definition inserted (records : list StoredRecord) (d d' : Db) : Prop :=
  content d' = foldl insert_one (content d) records /\
  db_meta d' = db_meta d /\ db_schema d' = db_schema d /\
  (rowids_unique d -> rowids_unique d').

Lemma inserted_one r d rowid :
  Forall (fun x => row_rowid x <> rowid) (db_events d) ->
  inserted [r] d (set_events d (insert_or_ignore (db_events d) (sr_event_id r)
    (mkRow rowid (SqlText (sr_event_id r)) (sr_session_id r) (to_int64 (sr_sequence r))
       (to_int64 (sr_ordinal r)) (sr_created_ms r) (SqlText (sr_payload r))))).
Proof.
  intros Hf. split; [|split; [done|split; [done|]]].
  - unfold content. simpl. apply strip_insert.
  - intros Hu. unfold rowids_unique. simpl. by apply insert_unique.
Qed.

Lemma inserted_trans r rs d d1 d2 :
  inserted [r] d d1 -> inserted rs d1 d2 -> inserted (r :: rs) d d2.
Proof.
  intros (A1 & B1 & C1 & D1) (A2 & B2 & C2 & D2). simpl in A1.
  split; [simpl; by rewrite A2, A1|]. rewrite B2, B1, C2, C1. auto.
Qed.

Lemma insert_step_spec d0 d r :
  valid_record r ->
  hoare (InTx d0 d) (on_conn (sqlite3_step sql_insert (insert_args r)))
    (fun rc s => if rc =? SQLITE_DONE then exists d', InTx d0 d' s /\ inserted [r] d d'
                 else dur s = d0).
Proof.
  intros Hv. eapply hoare_conseq;
    [apply (step_write_spec _ _ (inserted [r]) (fun _ _ => True))| |]; [|done|].
  - intros w rc w' E. eapply writes_weaken; [|apply (spec_insert W) in E; exact E].
    simpl. intros a b Hab. split; [|done]. destruct (Hab Hv) as (rowid & Hf & ->). by apply inserted_one.
  - simpl. intros rc s. destruct (rc =? SQLITE_DONE); [|done]. intros (d' & ? & ? & _). eauto.
Qed.

Lemma insert_loop_spec d0 records d :
  Forall valid_record records ->
  hoare (InTx d0 d) (insert_loop records) (TxPost d0 (inserted records d)).
Proof.
  intros Hv. revert d. induction Hv as [|r rs Hr _ IH]; intros d; cbn [insert_loop].
  { apply hoare_return. intros s Hs. exists d. split; [done|]. by split. }
  assert (forall e s, ok e = false -> Kept d0 s -> TxPost d0 (inserted (r :: rs) d) e s) as Hfail.
  { intros e s He Hs. unfold TxPost. by rewrite He. }
  quiet_as a; destruct a; [by apply tx_abandon; auto|].
  quiet_as a; destruct a; simpl; [|by apply tx_abandon_last; auto].
  quiet_as a; destruct a; [by apply tx_abandon; auto|].
  eapply hoare_then; [by apply insert_step_spec|]. intros rc. simpl.
  destruct (rc =? SQLITE_DONE); simpl.
  2:{ intros s Hs. destruct (abandon_last_keeps d0 "step insert" s Hs). auto. }
  apply hoare_exists. intros d1. apply hoare_fact. intros H1.
  quiet_as r1; destruct (r1 =? _); simpl; [|by apply tx_abandon_last; auto].
  quiet_as r2; destruct (r2 =? _); simpl; [|by apply tx_abandon_last; auto].
  eapply hoare_conseq; [apply IH|done|]. intros st s. unfold TxPost. destruct (ok st); [|done].
  intros (d' & ? & ?). exists d'. split; [done|]. by eapply inserted_trans.
Qed.

Lemma insert_spec d records :
  Forall valid_record records -> records <> [] ->
  hoare (Kept d) (insert records) (Committed d (inserted records d)).
Proof.
  intros Hv Hne.
  assert (forall e s, ok e = false -> Kept d s -> Committed d (inserted records d) e s) as Hfail.
  { intros e s He Hs. unfold Committed. by rewrite He. }
  destruct records as [|r0 rs]; [done|]. cbn [insert].
  quiet_as f; destruct f; [apply hoare_return; auto|].
  eapply hoare_then; [apply begin_spec|]. intros st. tidy.
  destruct (ok st) eqn:Hst; tidy; [|apply hoare_return; auto].
  quiet_as f; destruct f; [by apply tx_abandon; auto|].
  quiet_as p; destruct (p =? _); tidy; [|by apply tx_abandon_last; auto].
  enter. eapply hoare_then; [by apply insert_loop_spec|]. intros lp. unfold TxPost.
  destruct (ok lp) eqn:Hlp; tidy; [|apply hoare_return; auto].
  apply hoare_exists. intros d1. apply hoare_fact. intros H1.
  quiet_as f; destruct f; [by apply tx_abandon; auto|].
  eapply hoare_then; [apply commit_spec|]. intros c. tidy.
  destruct (ok c) eqn:Hc; tidy.
  - apply hoare_return. intros s [Hd Ht]. unfold Committed. simpl. by rewrite Hd.
  - eapply hoare_then; [apply rollback_keeps|]. intros rb.
    destruct (ok rb) eqn:Hrb; tidy; apply hoare_return; auto.
Qed.

(** ** Deletion *)

(** The rows selected by [f] are gone, [n] of them. *)
Definition removes (f : Row -> bool) (n : Z) (d d' : Db) : Prop :=
  d' = set_events d (filter (fun r => f r = false) (db_events d)) /\
  n = vsize (filter (fun r => f r = true) (db_events d)).

Lemma filter_twice (f g : Row -> bool) (rows : list Row) :
  filter (fun r => g r = false) (filter (fun r => f r = false) rows) =
  filter (fun r => f r || g r = false) rows.
Proof.
  induction rows as [|r rows IH]; [done|]. rewrite !filter_cons.
  destruct (f r) eqn:Hf; simpl; rewrite ?IH; [done|].
  rewrite filter_cons, IH. by destruct (g r).
Qed.

Lemma vsize_filter_or (f g : Row -> bool) (rows : list Row) :
  vsize (filter (fun r => f r || g r = true) rows) =
  vsize (filter (fun r => f r = true) rows) +
  vsize (filter (fun r => g r = true) (filter (fun r => f r = false) rows)).
Proof.
  induction rows as [|r rows IH]; [done|]. rewrite !filter_cons.
  destruct (f r) eqn:Hf; simpl; rewrite ?vsize_cons, ?IH; [lia|].
  rewrite filter_cons. destruct (g r); simpl; rewrite ?vsize_cons; lia.
Qed.

Lemma removes_trans f g n m d d1 d2 :
  removes f n d d1 -> removes g m d1 d2 -> removes (fun r => f r || g r) (n + m) d d2.
Proof.
  intros [-> ->] [-> ->]. unfold removes, set_events; simpl.
  by rewrite filter_twice, vsize_filter_or.
Qed.

Lemma removes_none d : removes (fun _ => false) 0 d d.
Proof.
  split.
  - unfold set_events. destruct d as [e m c]; simpl. f_equal. induction e; [done|].
    rewrite filter_cons. simpl. by f_equal.
  - induction (db_events d); [done|]. by rewrite filter_cons.
Qed.

Lemma filter_ext_bool (f g : Row -> bool) b (rows : list Row) :
  (forall r, f r = g r) -> filter (fun r => f r = b) rows = filter (fun r => g r = b) rows.
Proof.
  intros Hfg. induction rows as [|r rows IH]; [done|]. rewrite !filter_cons, IH.
  rewrite !Hfg. done.
Qed.

Lemma removes_ext f g n d d' : (forall r, f r = g r) -> removes f n d d' -> removes g n d d'.
Proof.
  intros Hfg [-> ->]. split; [f_equal|f_equal]; by apply filter_ext_bool.
Qed.

(** The outcome of a deleting step inside a transaction. *)
Definition TxRemoved (d0 d : Db) (f : Row -> bool) (removed : Z) (r : Status * Z) (s : St) : Prop :=
  if ok (fst r) then exists d', InTx d0 d' s /\ removes f (snd r - removed) d d'
  else Kept d0 s /\ snd r = 0.

(** The outcome of a deleting transaction. *)
Definition Removed (d : Db) (f : Row -> bool) (r : Status * Z) (s : St) : Prop :=
  if ok (fst r) then removes f (snd r) d (dur s) /\ tx s = false
  else Kept d s /\ snd r = 0.

Lemma data_only_Removed d f r : data_only (Removed d f r).
Proof.
  intros s s' Hd. unfold Removed. destruct (ok (fst r)).
  - destruct Hd as (H1 & _ & H3). unfold dur, tx. by rewrite H1, H3.
  - intros [Hk ?]. split; [by eapply data_only_Kept|done].
Qed.
#[local] Hint Resolve data_only_Removed : quiet.

Lemma removed_more d0 d d1 f g c removed r s :
  removes f c d d1 -> TxRemoved d0 d1 g (removed + c) r s ->
  TxRemoved d0 d (fun x => f x || g x) removed r s.
Proof.
  intros H1. unfold TxRemoved. destruct (ok (fst r)); [|done].
  intros (d' & Hin & Hr). exists d'. split; [done|].
  replace (snd r - removed) with (c + (snd r - (removed + c))) by lia. by eapply removes_trans.
Qed.

(** Reading the change counter after the delete. *)
Lemma changes_step {B} d0 d' (c : Z) (k : Z -> M St B) Q :
  hoare (InTx d0 d') (k c) Q ->
  hoare (fun s => InTx d0 d' s /\ sqlite3_changes (conn s) = c)
    (let* changes := mget (fun st => sqlite3_changes (conn st)) in k changes) Q.
Proof. intros Hk s [Hs <-]. unfold mthen, mget. by apply Hk. Qed.

Lemma delete_id_step d0 d id :
  hoare (InTx d0 d) (on_conn (sqlite3_step sql_delete_id [SqlText id]))
    (fun rc s => if rc =? SQLITE_DONE
                 then exists d', (InTx d0 d' s /\
                        sqlite3_changes (conn s) = vsize (filter (fun r => has_id id r = true) (db_events d))) /\
                        removes (has_id id) (vsize (filter (fun r => has_id id r = true) (db_events d))) d d'
                 else dur s = d0).
Proof.
  eapply hoare_conseq; [apply (step_write_spec _ _
     (fun a b => b = set_events a (filter (fun r => has_id id r = false) (db_events a)))
     (fun a w => sqlite3_changes w = vsize (filter (fun r => has_id id r = true) (db_events a))))| |];
    [|done|].
  - intros w rc w' E. by apply (spec_delete_id W).
  - simpl. intros rc s. destruct (rc =? SQLITE_DONE); [|done]. intros (d' & ? & -> & ?).
    eexists. split; [done|]. by split.
Qed.

Lemma delete_rowid_step d0 d rowid :
  let f r := bool_decide (row_rowid r = rowid) in
  hoare (InTx d0 d) (on_conn (sqlite3_step sql_delete_rowid [SqlInt rowid]))
    (fun rc s => if rc =? SQLITE_DONE
                 then exists d', (InTx d0 d' s /\
                        sqlite3_changes (conn s) = vsize (filter (fun r => f r = true) (db_events d))) /\
                        removes f (vsize (filter (fun r => f r = true) (db_events d))) d d'
                 else dur s = d0).
Proof.
  intros f. eapply hoare_conseq; [apply (step_write_spec _ _
     (fun a b => b = set_events a (filter (fun r => f r = false) (db_events a)))
     (fun a w => sqlite3_changes w = vsize (filter (fun r => f r = true) (db_events a))))| |]; [|done|].
  - intros w rc w' E. eapply writes_weaken; [|by apply (spec_delete_rowid W) in E; exact E].
    simpl. intros a b [-> ->]. unfold f. split; [f_equal|f_equal];
      apply list_filter_iff; intros r; by rewrite ?bool_decide_eq_false, ?bool_decide_eq_true.
  - simpl. intros rc s. destruct (rc =? SQLITE_DONE); [|done]. intros (d' & ? & -> & ?).
    eexists. split; [done|]. by split.
Qed.

Lemma delete_ids_loop_spec d0 ids d removed :
  hoare (InTx d0 d) (delete_ids_loop removed ids) (TxRemoved d0 d (in_ids ids) removed).
Proof.
  revert d removed. induction ids as [|id ids IH]; intros d removed; cbn [delete_ids_loop].
  { apply hoare_return. intros s Hs. exists d. split; [done|]. simpl.
    rewrite Z.sub_diag. apply removes_none. }
  assert (forall e s, ok e = false -> Kept d0 s -> TxRemoved d0 d (in_ids (id :: ids)) removed (e, 0) s) as Hfail.
  { intros e s He Hs. unfold TxRemoved. simpl. by rewrite He. }
  quiet_as a; destruct (a =? _); tidy; [|by apply tx_abandon_last0; auto].
  quiet_as f; destruct f; [by apply tx_abandon0; auto|].
  eapply hoare_then; [apply delete_id_step|]. intros rc. tidy.
  destruct (rc =? SQLITE_DONE); tidy.
  2:{ eapply hoare_then; [apply abandon_last_keeps|]. intros e. apply hoare_return.
      intros s [? ?]. auto. }
  apply hoare_exists. intros d1. apply hoare_fact. intros H1. apply changes_step.
  quiet_as b; destruct (b =? _); tidy; [|by apply tx_abandon_last0; auto].
  quiet_as c; destruct (c =? _); tidy; [|by apply tx_abandon_last0; auto].
  eapply hoare_conseq; [apply IH|done|]. intros r s Hr. by eapply removed_more.
Qed.

(** The row has one of the storage identifiers. *)
Definition in_rowids (rowids : list Z) (r : Row) : bool :=
  existsb (fun id => bool_decide (row_rowid r = id)) rowids.

Lemma delete_rowids_loop_spec d0 rowids d removed :
  hoare (InTx d0 d) (delete_rowids_loop removed rowids) (TxRemoved d0 d (in_rowids rowids) removed).
Proof.
  revert d removed. induction rowids as [|id ids IH]; intros d removed; cbn [delete_rowids_loop].
  { apply hoare_return. intros s Hs. exists d. split; [done|]. simpl.
    rewrite Z.sub_diag. apply removes_none. }
  assert (forall e s, ok e = false -> Kept d0 s -> TxRemoved d0 d (in_rowids (id :: ids)) removed (e, 0) s) as Hfail.
  { intros e s He Hs. unfold TxRemoved. simpl. by rewrite He. }
  quiet_as a; destruct (a =? _); tidy; [|by apply tx_abandon_last0; auto].
  eapply hoare_then; [apply delete_rowid_step|]. intros rc. tidy.
  destruct (rc =? SQLITE_DONE); tidy.
  2:{ eapply hoare_then; [apply abandon_last_keeps|]. intros e. apply hoare_return.
      intros s [? ?]. auto. }
  apply hoare_exists. intros d1. apply hoare_fact. intros H1. apply changes_step.
  quiet_as b; destruct (b =? _); tidy; [|by apply tx_abandon_last0; auto].
  quiet_as c. eapply hoare_conseq; [apply IH|done|]. intros r s Hr. by eapply removed_more.
Qed.

(** The end of a deleting transaction: the commit. *)
Lemma commit_removed d f n d1 :
  removes f n d d1 ->
  hoare (InTx d d1)
    (let* commit := exec sql_commit in
     if negb (ok commit) then let* s := abandon commit in mreturn (s, 0)
     else mreturn (status_ok, n)) (Removed d f).
Proof.
  intros Hr. eapply hoare_then; [apply commit_spec|]. intros c. tidy.
  destruct (ok c) eqn:Hc; tidy.
  - apply hoare_return. intros s [Hd Ht]. unfold Removed. simpl. by rewrite Hd.
  - apply dur_abandon0. intros s Hs. unfold Removed. simpl. by rewrite Hc.
Qed.

Lemma delete_ids_spec d ids :
  ids <> [] -> hoare (Kept d) (delete_ids ids) (Removed d (in_ids ids)).
Proof.
  intros Hne.
  assert (forall e s, ok e = false -> Kept d s -> Removed d (in_ids ids) (e, 0) s) as Hfail.
  { intros e s He Hs. unfold Removed. simpl. by rewrite He. }
  destruct ids as [|i0 ids]; [done|]. cbn [delete_ids].
  quiet_as f; destruct f; [apply hoare_return; auto|].
  eapply hoare_then; [apply begin_spec|]. intros st. tidy.
  destruct (ok st) eqn:Hst; tidy; [|apply hoare_return; auto].
  quiet_as p; destruct (p =? _); tidy; [|by apply tx_abandon_last0; auto].
  enter. eapply hoare_then; [apply delete_ids_loop_spec|]. intros [lp n]. unfold TxRemoved. cbn [fst snd].
  destruct (ok lp) eqn:Hlp; tidy; [|apply hoare_return; intros s [? _]; auto].
  apply hoare_exists. intros d1. apply hoare_fact. rewrite Z.sub_0_r. intros H1.
  quiet_as f; destruct f; [by apply tx_abandon0; auto|]. by apply commit_removed.
Qed.

Lemma delete_rowids_spec d rowids :
  rowids <> [] -> hoare (Kept d) (delete_rowids rowids) (Removed d (in_rowids rowids)).
Proof.
  intros Hne.
  assert (forall e s, ok e = false -> Kept d s -> Removed d (in_rowids rowids) (e, 0) s) as Hfail.
  { intros e s He Hs. unfold Removed. simpl. by rewrite He. }
  destruct rowids as [|i0 ids]; [done|]. cbn [delete_rowids].
  quiet_as f; destruct f; [apply hoare_return; auto|].
  eapply hoare_then; [apply begin_spec|]. intros st. tidy.
  destruct (ok st) eqn:Hst; tidy; [|apply hoare_return; auto].
  quiet_as p; destruct (p =? _); tidy; [|by apply tx_abandon_last0; auto].
  enter. eapply hoare_then; [apply delete_rowids_loop_spec|]. intros [lp n]. unfold TxRemoved. cbn [fst snd].
  destruct (ok lp) eqn:Hlp; tidy; [|apply hoare_return; intros s [? _]; auto].
  apply hoare_exists. intros d1. apply hoare_fact. rewrite Z.sub_0_r. intros H1.
  by apply commit_removed.
Qed.

(** ** Revocation *)

Lemma purge_spec d :
  hoare (Kept d) purge_and_clear_revocation (fun r s =>
    if ok (fst r)
    then dur s = mkDb [] (delete kRevocationKey (db_meta d)) (db_schema d) /\
         snd r = vsize (db_events d) /\ tx s = false
    else Kept d s /\ snd r = 0).
Proof.
  set (Q := fun (r : Status * Z) (s : St) => _).
  assert (forall e s, ok e = false -> Kept d s -> Q (e, 0) s) as Hfail.
  { intros e s He Hs. unfold Q. simpl. by rewrite He. }
  unfold purge_and_clear_revocation.
  quiet_as f; destruct f; [apply hoare_return; auto|].
  eapply hoare_then; [apply begin_spec|]. intros st. tidy.
  destruct (ok st) eqn:Hst; tidy; [|apply hoare_return; auto].
  eapply hoare_then with (R := fun st s => if ok st then
     InTx d (set_events d []) s /\ sqlite3_changes (conn s) = vsize (db_events d) else dur s = d).
  { apply hoare_exec. intros s rc e w' (Hs & Ht & Hw) E st' Hst'.
    apply (spec_delete_all W) in E. destruct (E Ht) as [Hd Hok]. unfold InTx, dur, tx, wrk in *. simpl.
    destruct (ok st'); [|by rewrite Hd].
    destruct (Hok (proj1 Hst' eq_refl)) as (Ht' & -> & Hc). rewrite Hw in *. by rewrite Hd. }
  intros del. tidy. destruct (ok del) eqn:Hdel; tidy; [|apply dur_abandon0; auto].
  apply changes_step.
  eapply hoare_then; [apply (exec_write_spec _ _ _ _ (spec_unmark W))|]. intros cl. tidy.
  destruct (ok cl) eqn:Hcl; tidy; [|apply dur_abandon0; auto].
  apply hoare_exists. intros d1. apply hoare_fact. intros ->.
  quiet_as f; destruct f; [by apply tx_abandon0; auto|].
  eapply hoare_then; [apply commit_spec|]. intros c. tidy.
  destruct (ok c) eqn:Hc; tidy; [|apply dur_abandon0; auto].
  apply hoare_return. intros s [Hd Ht]. by unfold Q.
Qed.

Lemma mark_spec d :
  hoare (Kept d) mark_revocation_pending
    (Committed d (fun d' => d' = set_meta d (<[kRevocationKey := "1"]> (db_meta d)))).
Proof.
  set (Q := Committed _ _).
  assert (forall e s, ok e = false -> Kept d s -> Q e s) as Hfail.
  { intros e s He Hs. unfold Q, Committed. by rewrite He. }
  unfold mark_revocation_pending.
  quiet_as f; destruct f; [apply hoare_return; auto|].
  eapply hoare_then; [apply begin_spec|]. intros st. tidy.
  destruct (ok st) eqn:Hst; tidy; [|apply hoare_return; auto].
  eapply hoare_then; [apply (exec_write_spec _ _ _ _ (spec_mark W))|]. intros m. tidy.
  destruct (ok m) eqn:Hm; tidy.
  2:{ intros s Hs. destruct (abandon_keeps d m s Hs) as [-> ?]. auto. }
  apply hoare_exists. intros d1. apply hoare_fact. intros ->.
  eapply hoare_then; [apply commit_spec|]. intros c. tidy.
  destruct (ok c) eqn:Hc; tidy.
  - apply hoare_return. intros s [Hd Ht]. by unfold Q.
  - intros s Hs. destruct (abandon_keeps d c s Hs) as [-> ?]. auto.
Qed.

(** ** Reading *)

(** No transaction is open, and the committed contents are [d]. *)
Definition Idle (d : Db) (s : St) : Prop := dur s = d /\ tx s = false.

Lemma Idle_Kept d s : Idle d s -> Kept d s.
Proof. by intros [Hd Ht]. Qed.

Lemma Idle_working d s : Idle d s -> working view (conn s) = d.
Proof. intros [Hd Ht]. rewrite (spec_idle W) by exact Ht. exact Hd. Qed.

Lemma data_only_Idle d : data_only (Idle d).
Proof. intros s s' (H1 & _ & H3) [Ha Hb]. unfold Idle, dur, tx in *. by rewrite H1, H3. Qed.
#[local] Hint Resolve data_only_Idle : quiet.

Lemma data_only_and (P : Prop) Q : data_only Q -> data_only (fun s => Q s /\ P).
Proof. intros HQ s s' Hd [? ?]. split; [by eapply HQ|done]. Qed.
#[local] Hint Resolve data_only_and : quiet.

(** A query on an idle connection, with what its answer is. *)
Lemma query_idle d sql args (R : list (list sql_value) -> Z -> Prop) :
  (forall w rows rc w', sqlite3_query sql args w = ((rows, rc), w') ->
     working view w = d -> R rows rc) ->
  hoare (Idle d) (on_conn (sqlite3_query sql args))
    (fun r s => Idle d s /\ R (fst r) (snd r) /\ snd r <> SQLITE_ROW).
Proof.
  intros HR s Hs. split; [|split].
  - eapply data_only_Idle; [|exact Hs]. apply quiet_query.
  - apply Idle_working in Hs. unfold on_conn. destruct (sqlite3_query sql args (conn s)) as [[rows rc] w'] eqn:E.
    simpl. by eapply HR.
  - pose proof (spec_query_end W sql args (conn s)) as Hend. unfold on_conn.
    by destruct (sqlite3_query sql args (conn s)).
Qed.


(** An error status from the connection. *)
Lemma error_result {A} (P : St -> Prop) c (f : Status -> A) (Q : A -> St -> Prop) :
  (forall e s, ok e = false -> P s -> Q (f e) s) ->
  hoare P (let* e := last_error c in mreturn (f e)) Q.
Proof. intros HQ s Hs. by apply HQ. Qed.

Lemma scalar_spec d sql b (v : Z -> Prop) :
  (forall w rows rc w', sqlite3_query sql (match b with Some x => [SqlInt (to_int64 x)] | None => [] end) w
       = ((rows, rc), w') -> working view w = d ->
     rows = [] \/ exists rest n, rows = [SqlInt n] :: rest /\ v n) ->
  hoare (Idle d) (scalar_uint64 sql b) (fun r s => Idle d s /\
    if ok (fst r) then exists n, v n /\ snd r = Z.max 0 n else snd r = 0).
Proof.
  intros Hv. unfold scalar_uint64.
  assert (forall e s, ok e = false -> Idle d s -> Idle d s /\
    if ok (fst (e, 0)) then exists n, v n /\ snd (e, 0) = Z.max 0 n else snd (e, 0) = 0) as Hfail.
  { intros e s He Hs. simpl. by rewrite He. }
  quiet_as p; destruct (p =? _); tidy; [|by apply error_result].
  enter. apply quiet_step; [apply data_only_Idle|destruct b; eauto with quiet|]. intros bd.
  destruct (bd =? _); tidy; [|by apply error_result].
  eapply hoare_then.
  { apply (query_idle d _ _ (fun rows rc => rows = [] \/ exists rest n, rows = [SqlInt n] :: rest /\ v n)).
    intros w rows rc w' E Hw. by eapply Hv. }
  intros [rows rc] s (Hs & Hrows & Hend). unfold first_step. simpl in *.
  destruct Hrows as [->|(rest & n & -> & Hn)].
  - rewrite (proj2 (Z.eqb_neq rc SQLITE_ROW) Hend). by simpl.
  - simpl. split; [done|]. exists n. split; [done|].
    unfold column. simpl. rewrite (spec_int W). destruct (0 <? n) eqn:E; bool_to_prop; lia.
Qed.

Lemma count_spec d :
  hoare (Idle d) count (fun r s => Idle d s /\
    snd r = if ok (fst r) then vsize (db_events d) else 0).
Proof.
  unfold count. quiet_as f; destruct f; [apply hoare_return; by intros s Hs|].
  eapply hoare_then.
  - apply (scalar_spec d sql_count None (fun n => n = vsize (db_events d))).
    intros w rows rc w' E <-. apply (spec_count W) in E as [->|[rest ->]]; eauto.
  - intros [st n] s [Hs Hr]. simpl in *. destruct (ok st) eqn:Hst; simpl; [|by rewrite Hst].
    destruct Hr as (m & -> & ->). split; [done|]. pose proof (vsize_nonneg (db_events d)). lia.
Qed.

Lemma count_up_to_spec d b :
  0 <= b < 9223372036854775808 ->
  hoare (Idle d) (count_up_to b) (fun r s => Idle d s /\
    snd r = if ok (fst r) then vsize (filter (fun r => row_ordinal r <= b) (db_events d)) else 0).
Proof.
  intros Hb. unfold count_up_to. quiet_as f; destruct f; [apply hoare_return; by intros s Hs|].
  eapply hoare_then.
  - apply (scalar_spec d sql_count_up_to (Some b)
      (fun n => n = vsize (filter (fun r => row_ordinal r <= b) (db_events d)))).
    intros w rows rc w' E <-. rewrite to_int64_small in E by lia.
    apply (spec_count_up_to W) in E as [->|[rest ->]]; eauto.
  - intros [st n] s [Hs Hr]. simpl in *. destruct (ok st) eqn:Hst; simpl; [|by rewrite Hst].
    destruct Hr as (m & -> & ->). split; [done|].
    pose proof (vsize_nonneg (filter (fun r => row_ordinal r <= b) (db_events d))). lia.
Qed.

(** Counting changes no data, whatever the barrier. *)
Lemma quiet_count_up_to b : quiet (count_up_to b).
Proof. unfold count_up_to, scalar_uint64. quiet_tac. Qed.

Lemma max_ordinal_spec d :
  hoare (Idle d) max_ordinal (fun r s => Idle d s /\
    if ok (fst r)
    then 0 <= snd r /\ Forall (fun x => row_ordinal x <= snd r) (db_events d) /\
         (snd r = 0 \/ snd r ∈ row_ordinal <$> db_events d)
    else snd r = 0).
Proof.
  unfold max_ordinal. eapply hoare_conseq; [apply (scalar_spec d sql_max_ordinal None
    (fun n => Forall (fun x => row_ordinal x <= n) (db_events d) /\
              (n = 0 \/ n ∈ row_ordinal <$> db_events d)))|done|].
  - intros w rows rc w' E <-. apply (spec_max_ordinal W) in E as [->|(rest & n & -> & Hf & Hn)]; [by left|].
    right. exists rest, n. split; [done|]. split; [done|]. destruct Hn as [[-> _]|Hn]; [by left|by right].
  - intros r s [Hs Hr]. split; [done|]. destruct (ok (fst r)); [|done].
    destruct Hr as (n & [Hf Hn] & ->). split; [lia|]. split.
    + eapply Forall_impl; [exact Hf|]. simpl. lia.
    + destruct (Z.max_spec 0 n) as [[_ ->]|[_ ->]]; [|by left]. destruct Hn; by eauto.
Qed.

Lemma revocation_pending_spec d :
  hoare (Idle d) revocation_pending (fun r s => Idle d s /\
    if ok (fst r) then snd r = bool_decide (is_Some (db_meta d !! kRevocationKey)) else snd r = false).
Proof.
  unfold revocation_pending.
  quiet_as p; destruct (p =? _); tidy; [|apply error_result; intros e s He Hs; simpl; by rewrite He].
  enter. quiet_as b; destruct (b =? _); tidy; [|apply error_result; intros e s He Hs; simpl; by rewrite He].
  eapply hoare_then.
  { apply (query_idle d _ _ (fun rows rc =>
      (rows <> [] -> is_Some (db_meta d !! kRevocationKey)) /\
      (rows = [] -> rc = SQLITE_DONE -> db_meta d !! kRevocationKey = None))).
    intros w rows rc w' E <-. by apply (spec_marker W) in E. }
  intros [rows rc] s (Hs & [Hsome Hnone] & Hend). unfold first_step. simpl in *.
  destruct rows as [|row rows]; simpl.
  - rewrite (proj2 (Z.eqb_neq rc SQLITE_ROW) Hend).
    destruct (rc =? SQLITE_DONE) eqn:Hrc; simpl; [|done]. bool_to_prop.
    split; [done|]. rewrite (Hnone eq_refl Hrc). by rewrite bool_decide_false by (intros [? ?]; done).
  - split; [done|]. by rewrite bool_decide_true by auto.
Qed.

(** ** Fetching *)

(** A stored row the store refuses to deliver. *)
Definition bad_row (r : Row) : bool := unusable accept (fetch_columns r).

(** The event a stored row is delivered as. *)
Definition to_event (r : Row) : SerializedEvent :=
  mkSerialized (column_text (fetch_columns r) 1) (column_text (fetch_columns r) 2).

Lemma fetch_loop_rows rows :
  fetch_loop accept (fetch_columns <$> rows) =
  (to_event <$> filter (fun r => bad_row r = false) rows,
   row_rowid <$> filter (fun r => bad_row r = true) rows).
Proof.
  induction rows as [|r rows IH]; [done|]. rewrite fmap_cons, !filter_cons. cbn [fetch_loop].
  rewrite IH. change (unusable accept (fetch_columns r)) with (bad_row r).
  destruct (bad_row r); simpl; [|done]. unfold column. simpl. by rewrite (spec_int W).
Qed.

(** Deleting the storage identifiers of some rows deletes just those rows. *)
Lemma in_rowids_exact d bad :
  rowids_unique d -> bad ⊆ db_events d -> NoDup bad ->
  filter (fun r => in_rowids (row_rowid <$> bad) r = true) (db_events d) ≡ₚ bad.
Proof.
  intros Hu Hsub Hnd. apply NoDup_Permutation; [|done|].
  - by apply NoDup_filter, (NoDup_fmap_1 row_rowid).
  - intros r. rewrite list_elem_of_filter. unfold in_rowids. rewrite existsb_exists. split.
    + intros [(z & Hz & Heq) Hin]. apply bool_decide_eq_true in Heq as <-.
      apply list_elem_of_In, list_elem_of_fmap in Hz as (r' & Heq & Hr').
      assert (r = r') as ->; [|done].
      apply list_elem_of_lookup in Hin as [i Hi]. apply Hsub, list_elem_of_lookup in Hr' as [j Hj].
      assert (i = j) as <-; [|congruence].
      eapply (NoDup_lookup (row_rowid <$> db_events d)); [exact Hu| |];
        rewrite list_lookup_fmap, ?Hi, ?Hj; simpl; [done|by rewrite Heq].
    + intros Hr. split; [|by apply Hsub]. exists (row_rowid r).
      split; [by apply list_elem_of_In, list_elem_of_fmap_2|]. by apply bool_decide_eq_true.
Qed.

(** The outcome of a fetch from contents [d] with at most [limit] rows. *)
Definition FetchPost (d : Db) (limit : Z) (r : FetchResult) (s : St) : Prop :=
  exists sorted k,
    sorted ≡ₚ db_events d /\ StronglySorted row_le sorted /\
    (k <= Z.to_nat (Z.min limit int_max))%nat /\
    fr_events r = to_event <$> filter (fun x => bad_row x = false) (take k sorted) /\
    let bad := filter (fun x => bad_row x = true) (take k sorted) in
    if ok (fr_status r)
    then k = Z.to_nat (Z.min limit int_max) /\ bad = [] /\ fr_quarantined r = 0 /\ Idle d s
    else dur s = d /\ fr_quarantined r = 0 \/
         0 < fr_quarantined r /\ removes (in_rowids (row_rowid <$> bad)) (vsize bad) d (dur s) /\
         fr_quarantined r = vsize bad /\ tx s = false.

Lemma sorted_exists (rows : list Row) : exists sorted, sorted ≡ₚ rows /\ StronglySorted row_le sorted.
Proof.
  exists (merge_sort row_le rows). split; [apply merge_sort_Permutation|].
  apply Sorted_StronglySorted; [exact row_le_trans|]. apply Sorted_merge_sort. apply _.
Qed.

Lemma fetch_error d limit e s : ok e = false -> Idle d s -> FetchPost d limit (mkFetch e [] 0) s.
Proof.
  intros He Hs. destruct (sorted_exists (db_events d)) as (sorted & Hp & Hss).
  exists sorted, 0%nat. split; [done|]. split; [done|]. split; [lia|]. split; [done|]. simpl.
  rewrite He. left. by split; [apply Hs|].
Qed.

Lemma bad_subset d sorted k :
  sorted ≡ₚ db_events d -> rowids_unique d ->
  let bad := filter (fun x => bad_row x = true) (take k sorted) in
  bad ⊆ db_events d /\ NoDup bad.
Proof.
  intros Hp Hu bad. split.
  - intros r Hr. apply list_elem_of_filter in Hr as [_ Hr]. rewrite <- Hp.
    eapply subseteq_take, Hr.
  - apply NoDup_filter. eapply sublist_NoDup; [|apply sublist_take].
    rewrite Hp. by apply (NoDup_fmap_1 row_rowid).
Qed.

Lemma data_only_fetch d limit r : data_only (fun s => FetchPost d limit r s /\ (T -> tx s = false)).
Proof.
  intros s s' Hd. pose proof (data_only_Idle d s s' Hd) as Hi. destruct Hd as (H1 & _ & H3).
  unfold FetchPost, dur, tx in *. rewrite H1, H3.
  intros [(sorted & k & Hp & Hs & Hk & He & Hr) Ht]. split; [|done]. exists sorted, k. repeat (split; [done|]).
  destruct (ok (fr_status r)); [|done]. destruct Hr as (? & ? & ? & ?). by eauto.
Qed.

Lemma fetch_refused d limit e s :
  ok e = false -> Idle d s -> FetchPost d limit (mkFetch e [] 0) s /\ (T -> tx s = false).
Proof. intros He Hs. split; [by apply fetch_error|]. intros _. apply Hs. Qed.

Lemma fetch_pending_spec d limit :
  rowids_unique d -> 0 <= limit ->
  hoare (Idle d) (fetch_pending accept limit)
    (fun r s => FetchPost d limit r s /\ (T -> tx s = false)).
Proof.
  intros Hu Hl. unfold fetch_pending.
  quiet_as f; destruct f; [apply hoare_return; intros; by apply fetch_refused|].
  replace (if int_max <? limit then int_max else limit) with (Z.min limit int_max)
    by (destruct (Z.ltb_spec int_max limit); lia).
  quiet_as p; destruct (p =? _); tidy; [|apply error_result; intros; by apply fetch_refused].
  apply hoare_guarded; [apply data_only_fetch|].
  quiet_as b; destruct (b =? _); tidy; [|apply error_result; intros; by apply fetch_refused].
  eapply hoare_then.
  { apply (query_idle d _ _ (fun rows rc => exists sorted k,
      sorted ≡ₚ db_events d /\ StronglySorted row_le sorted /\
      (k <= Z.to_nat (Z.min limit int_max))%nat /\ rows = fetch_columns <$> take k sorted /\
      (rc = SQLITE_DONE -> k = Z.to_nat (Z.min limit int_max)))).
    intros w rows rc w' E <-. by apply (spec_fetch W) in E. }
  intros [rows rc] s (Hs & (sorted & k & Hp & Hss & Hk & Hrows & Hdone) & _). cbn [fst snd] in *.
  subst rows. rewrite fetch_loop_rows. set (bad := filter (fun r => bad_row r = true) (take k sorted)).
  destruct (rc =? SQLITE_DONE) eqn:Hrc; tidy; bool_to_prop.
  2:{ split; [|by intros _; apply Hs]. exists sorted, k. repeat (split; [done|]). simpl. left. split; [apply Hs|done]. }
  destruct (row_rowid <$> bad) as [|b0 bs] eqn:Hb.
  { split; [|by intros _; apply Hs]. exists sorted, k. repeat (split; [done|]). simpl. fold bad.
    split; [auto|]. by apply fmap_nil_inv in Hb. }
  assert (row_rowid <$> bad <> []) as Hne by (by rewrite Hb). rewrite <- Hb. clear b0 bs Hb.
  destruct (bad_subset d sorted k Hp Hu) as [Hsub Hnd]. fold bad in Hsub, Hnd.
  assert (hoare (Idle d) (delete_rowids (row_rowid <$> bad)) (Removed d (in_rowids (row_rowid <$> bad)))) as Hdel.
  { eapply hoare_pre; [by apply delete_rowids_spec|]. apply Idle_Kept. }
  specialize (Hdel s Hs). unfold mthen.
  destruct (delete_rowids (row_rowid <$> bad) s) as [[st n] s']. unfold Removed in Hdel. cbn [fst snd] in *.
  assert (T -> tx s' = false) as Ht by (by destruct (ok st); [intros _; apply Hdel|apply Hdel]).
  split; [|by destruct (ok st && (n =? vsize (row_rowid <$> bad)))].
  exists sorted, k. split; [done|]. split; [done|]. split; [done|].
  replace (vsize (row_rowid <$> bad)) with (vsize bad) by (unfold vsize; by rewrite length_fmap).
  destruct (ok st) eqn:Hst; cbn [andb].
  - destruct Hdel as [Hrem Htx]. assert (n = vsize bad) as ->.
    { destruct Hrem as [_ ->]. unfold vsize. f_equal. by apply Permutation_length, in_rowids_exact. }
    rewrite Z.eqb_refl. split; [done|]. simpl. fold bad. right. split; [|done].
    destruct bad; [done|]. rewrite vsize_cons. pose proof (vsize_nonneg bad). lia.
  - split; [done|]. simpl. left. by destruct Hdel as [[? _] _].
Qed.

(** ** Opening *)

Lemma quiet_table_exists name : quiet (table_exists name).
Proof. unfold table_exists. quiet_tac. Qed.

Lemma quiet_read_schema_version : quiet read_schema_version.
Proof. unfold read_schema_version. quiet_tac. Qed.

Lemma quiet_validate_meta_shape : quiet validate_meta_shape.
Proof. unfold validate_meta_shape. quiet_tac. Qed.

Lemma quiet_validate_events_shape : quiet validate_events_shape.
Proof.
  unfold validate_events_shape, validate_events_check.
  quiet_tac.
Qed.

#[local] Hint Resolve quiet_table_exists quiet_read_schema_version quiet_validate_meta_shape
  quiet_validate_events_shape : quiet.

Lemma quiet_inspect_existing : quiet inspect_existing.
Proof. unfold inspect_existing. quiet_tac. Qed.

(** Neither table of the schema is there. *)
Definition brand_new (d : Db) : Prop :=
  forall name sql, name = "schema_meta" \/ name = "events" -> db_schema d !! name <> Some ("table", sql).

(** The contents after the schema has been created. *)
Definition with_schema (d : Db) : Db :=
  let d1 := create_object (create_object (create_object d "schema_meta" "table" kCreateMeta)
              "events" "table" kCreateEvents) "idx_events_order" "index" kCreateIndex in
  set_meta d1 (<["schema_version" := to_string kStoreSchemaVersion]> (db_meta d1)).

Lemma create_schema_spec d :
  hoare (InTx d d)
    (create_schema [kCreateMeta; kCreateEvents; kCreateIndex; sql_insert_version; sql_commit])
    (Committed d (fun d' => d' = with_schema d)).
Proof.
  set (Q := Committed _ _).
  assert (forall e, ok e = false -> hoare (fun s => dur s = d) (abandon e) Q) as Hfail.
  { intros e He s Hs. destruct (abandon_keeps d e s Hs) as [-> ?]. unfold Q, Committed. by rewrite He. }
  cbn [create_schema].
  eapply hoare_then; [apply (exec_write_spec _ _ _ _ (spec_create_meta W))|]. intros a. tidy.
  destruct (ok a) eqn:Ha; tidy; [|by auto].
  apply hoare_exists. intros d1. apply hoare_fact. intros ->.
  eapply hoare_then; [apply (exec_write_spec _ _ _ _ (spec_create_events W))|]. intros b. tidy.
  destruct (ok b) eqn:Hb; tidy; [|by auto].
  apply hoare_exists. intros d1. apply hoare_fact. intros ->.
  eapply hoare_then; [apply (exec_write_spec _ _ _ _ (spec_create_index W))|]. intros c. tidy.
  destruct (ok c) eqn:Hc; tidy; [|by auto].
  apply hoare_exists. intros d1. apply hoare_fact. intros ->.
  eapply hoare_then; [apply (exec_write_spec _ _ _ _ (spec_insert_version W))|]. intros v. tidy.
  destruct (ok v) eqn:Hv; tidy; [|by auto].
  apply hoare_exists. intros d1. apply hoare_fact. intros ->.
  eapply hoare_then; [apply commit_spec|]. intros m. tidy.
  destruct (ok m) eqn:Hm; tidy; [|by auto].
  apply hoare_return. intros s [Hd Ht]. by unfold Q.
Qed.

Lemma table_exists_spec d name :
  hoare (Idle d) (table_exists name) (fun r s => Idle d s /\
    (ok (fst r) = true -> snd r = true <-> exists sql, db_schema d !! name = Some ("table", sql))).
Proof.
  unfold table_exists.
  quiet_as p; destruct (p =? _); tidy; [|apply error_result; intros e s He Hs; simpl; by rewrite He].
  enter. quiet_as b; destruct (b =? _); tidy; [|apply error_result; intros e s He Hs; simpl; by rewrite He].
  eapply hoare_then.
  { apply (query_idle d _ _ (fun rows rc =>
      (rows <> [] -> exists sql, db_schema d !! name = Some ("table", sql)) /\
      (rows = [] -> rc = SQLITE_DONE -> forall sql, db_schema d !! name <> Some ("table", sql)))).
    intros w rows rc w' E <-. by apply (spec_table_exists W) in E. }
  intros [rows rc] s (Hs & [Hsome Hnone] & Hend). unfold first_step. simpl in *.
  destruct rows as [|row rows]; simpl.
  - rewrite (proj2 (Z.eqb_neq rc SQLITE_ROW) Hend).
    destruct (rc =? SQLITE_DONE) eqn:Hrc; simpl; [|done]. bool_to_prop.
    split; [done|]. intros _. split; [done|]. intros [sql Hsql]. by destruct (Hnone eq_refl Hrc sql).
  - split; [done|]. intros _. split; [|done]. intros _. by apply Hsome.
Qed.

(** What inspection may do: nothing, or create the schema of a new database. *)
Definition OpenPost (d : Db) (s : St) : Prop :=
  dur s = d \/ brand_new d /\ dur s = with_schema d.

Lemma inspect_spec d :
  hoare (Idle d) inspect_and_prepare_schema (fun st s =>
    if ok st then Idle d s \/ brand_new d /\ Idle (with_schema d) s else dur s = d).
Proof.
  unfold inspect_and_prepare_schema. set (Q := fun (st : Status) (s : St) => _).
  assert (forall e s, ok e = false -> Idle d s -> Q e s) as Hfail.
  { intros e s He [Hs _]. unfold Q. by rewrite He. }
  eapply hoare_then; [apply (table_exists_spec d)|]. intros [st meta]. cbn [fst snd].
  destruct (ok st) eqn:Hst; tidy; [|apply hoare_return; intros s [? _]; auto].
  apply hoare_fact. intros Hmeta. specialize (Hmeta eq_refl). destruct meta.
  { intros s Hs. pose proof (hoare_quiet _ _ (data_only_Idle d) quiet_inspect_existing s Hs) as Hi.
    cbv beta in Hi. unfold Q. destruct (ok (fst (inspect_existing s))); [by left|apply Hi]. }
  eapply hoare_then; [apply (table_exists_spec d)|]. intros [st2 ev]. cbn [fst snd].
  destruct (ok st2) eqn:Hst2; tidy; [|apply hoare_return; intros s [? _]; auto].
  apply hoare_fact. intros Hev. specialize (Hev eq_refl). destruct ev.
  { apply hoare_return. intros s Hs. by apply Hfail. }
  assert (brand_new d) as Hnew.
  { intros name sql [-> | ->] E; [by pose proof (proj2 Hmeta (ex_intro _ sql E))|].
    by pose proof (proj2 Hev (ex_intro _ sql E)). }
  apply (hoare_pre _ (Kept d)); [|apply Idle_Kept].
  eapply hoare_then; [apply begin_spec|]. intros b. tidy.
  destruct (ok b) eqn:Hb; tidy.
  - eapply hoare_conseq; [apply create_schema_spec|done|].
    intros r s. unfold Committed, Q. destruct (ok r); [|apply Kept_dur]. intros [Hd Ht]. right. by split.
  - apply hoare_return. intros s Hs. unfold Q. rewrite Hb. by apply Kept_dur.
Qed.

Lemma close_keeps d : hoare (fun s => dur s = d) close (fun _ s => dur s = d).
Proof.
  unfold close. apply quiet_step; [apply data_only_dur|apply quiet_get|]. intros opened.
  destruct opened; simpl; [|by apply hoare_return].
  apply (hoare_then _ (fun _ s => dur s = d)).
  - intros s Hs. unfold on_conn. destruct (sqlite3_close (conn s)) as [rc w] eqn:E. unfold dur in *. simpl.
    pose proof (spec_close W (conn s)) as [Hd _]. rewrite E in Hd. simpl in Hd. congruence.
  - intros rc. apply hoare_quiet; [apply data_only_dur|]. destruct (_ =? _); simpl; quiet_tac; by apply quiet_put.
Qed.

Lemma open_spec d :
  hoare (Idle d) open (fun st s =>
    if ok st then Idle d s \/ brand_new d /\ Idle (with_schema d) s else OpenPost d s).
Proof.
  unfold open. set (Q := fun (st : Status) (s : St) => _).
  quiet_as path. apply (hoare_then _ (fun _ s => Idle d s)).
  { intros s [Hs Ht]. pose proof (spec_open W (c_str path) (conn s) Ht) as Ho. unfold on_conn.
    destruct (sqlite3_open (c_str path) (conn s)) as [a w].
    eapply data_only_Idle; [exact Ho|by split]. }
  intros [rc handle]. apply quiet_step; [apply data_only_Idle|by apply quiet_put|intros _].
  destruct (rc =? _); tidy; [|apply hoare_get; intros s [? _]; by left].
  eapply hoare_then; [apply inspect_spec|]. intros st. cbv beta.
  destruct (ok st) eqn:Hst; tidy.
  2:{ eapply hoare_then; [apply close_keeps|]. intros c. apply hoare_return. intros s Hs.
      unfold Q. rewrite Hst. by left. }
  set (P := fun s : St => Idle d s \/ brand_new d /\ Idle (with_schema d) s).
  assert (data_only P) as HP.
  { intros s s' Hsd [Hs|[Hn Hs]]; [left|right; split; [done|]]; by eapply data_only_Idle. }
  assert (forall e s, P s -> Q e s) as HQ.
  { intros e s Hs. unfold Q. destruct (ok e); [done|].
    destruct Hs as [[? _]|[? [? _]]]; [by left|by right]. }
  eapply hoare_conseq with (P' := P); [apply hoare_quiet; [exact HP|]|done|by intros e s; apply HQ].
  assert (forall sql, sql = sql_synchronous \/ sql = sql_busy_timeout -> quiet (exec sql)) as Hpragma.
  { intros sql Hsql. apply quiet_then; [apply quiet_on_conn; intros w; by apply spec_pragma|]. quiet_tac. }
  quiet_tac; first [by apply quiet_put | apply Hpragma; auto].
Qed.

End Spec.

(** * Properties *)

Section Properties.
Context {W : Type} `{!SqliteApi W} `{!SqliteSpec W}.
Context (accept : string -> library_call bool).
#[local] Abbreviation St := (SqliteStore W).

(** Insertion is one transaction and idempotent. When [insert] reports Ok,
    the committed events are the previous ones followed by the records whose
    identifier was not there yet, in order, nothing else in the database
    changed, storage identifiers stay unique, and inserting the same records
    again would change nothing. When it reports an error, the committed
    contents are untouched, whichever call failed. *)
Theorem insert_atomic records s :
  Forall valid_record records ->
  let '(st, s') := insert records s in
  (ok st = true ->
     content (dur s') = foldl insert_one (content (dur s)) records /\
     db_meta (dur s') = db_meta (dur s) /\ db_schema (dur s') = db_schema (dur s) /\
     (rowids_unique (dur s) -> rowids_unique (dur s')) /\
     foldl insert_one (content (dur s')) records = content (dur s')) /\
  (ok st = false -> dur s' = dur s).
Proof.
  intros Hv. destruct (decide (records = [])) as [->|Hne]; [done|].
  pose proof (insert_spec False (False_ind _) (dur s) records Hv Hne s (conj eq_refl (False_ind _))) as Hp.
  destruct (insert records s) as [st s']. simpl in Hp. unfold Committed in Hp.
  destruct (ok st); [|by destruct Hp]. split; [|done]. intros _.
  destruct Hp as [(Hc & Hm & Hs & Hu) _]. rewrite Hc. repeat (split; [done|]).
  apply insert_all_twice.
Qed.

(** C37: Acknowledgment removes exactly the named events. Ok means one row per
    identifier was removed and every other row is still there. On an error
    either nothing was removed, or the delete committed but the number of rows
    differed from the number of identifiers, and that number is reported. *)
Theorem acknowledge_exact ids s :
  let '((st, n), s') := acknowledge ids s in
  (ok st = true ->
     dur s' = set_events (dur s) (filter (fun r => in_ids ids r = false) (db_events (dur s))) /\
     n = vsize ids /\ vsize (db_events (dur s)) = vsize (db_events (dur s')) + vsize ids) /\
  (ok st = false ->
     dur s' = dur s /\ n = 0 \/
     dur s' = set_events (dur s) (filter (fun r => in_ids ids r = false) (db_events (dur s))) /\
     n <> vsize ids /\ vsize (db_events (dur s)) = vsize (db_events (dur s')) + n).
Proof.
  unfold acknowledge, mthen. destruct (decide (ids = [])) as [->|Hne].
  { simpl. destruct (removes_none (dur s)) as [Hr _]. split; [|done]. intros _.
    split; [exact Hr|]. split; [done|]. rewrite vsize_nil. lia. }
  pose proof (delete_ids_spec False (False_ind _) (dur s) ids Hne s (conj eq_refl (False_ind _))) as Hp. unfold Removed in Hp.
  destruct (delete_ids ids s) as [[st n] s']. cbn [fst snd] in Hp.
  destruct (ok st) eqn:Hst; simpl; [|rewrite Hst; split; [done|]; left; by destruct Hp as [[? _] ?]].
  destruct Hp as [[Hd Hn] _].
  assert (vsize (db_events (dur s)) = vsize (db_events (dur s')) + n) as Hsz.
  { rewrite Hd. simpl. rewrite Hn. apply vsize_filter_split. }
  destruct (n =? vsize ids) eqn:E; simpl; bool_to_prop.
  - split; [|done]. intros _. split; [done|]. split; [done|lia].
  - split; [done|]. intros _. by right.
Qed.

(** Fetching on an idle connection returns a prefix, in delivery order, of
    the pending rows, at most [limit] of them, without the unusable ones. An Ok
    status means the whole prefix was usable and nothing changed. Otherwise
    either nothing was removed and no quarantine is reported, or exactly the
    unusable rows of the prefix are gone, and their number is reported. *)
Theorem fetch_in_order limit s :
  rowids_unique (dur s) -> tx s = false -> 0 <= limit ->
  let '(r, s') := fetch_pending accept limit s in
  FetchPost accept (dur s) limit r s'.
Proof.
  intros Hu Ht Hl. pose proof (fetch_pending_spec accept False (False_ind _) (dur s) limit Hu Hl s (conj eq_refl Ht)) as Hp.
  by destruct (fetch_pending accept limit s), Hp.
Qed.

(** The purge and the marker are one transaction. Ok means no event and no
    revocation marker is left, and the number of removed events is exact; an
    error leaves the events and the marker as they were, so the marker is
    durable exactly until the purge is. *)
Theorem purge_atomic s :
  let '((st, n), s') := purge_and_clear_revocation s in
  (ok st = true ->
     db_events (dur s') = [] /\ db_meta (dur s') !! kRevocationKey = None /\
     n = vsize (db_events (dur s)) /\
     (forall k, k <> kRevocationKey -> db_meta (dur s') !! k = db_meta (dur s) !! k)) /\
  (ok st = false -> dur s' = dur s /\ n = 0).
Proof.
  pose proof (purge_spec False (False_ind _) (dur s) s (conj eq_refl (False_ind _))) as Hp.
  destruct (purge_and_clear_revocation s) as [[st n] s']. cbn [fst snd] in Hp.
  destruct (ok st); [|by destruct Hp as [[? _] ?]]. split; [|done]. intros _.
  destruct Hp as (-> & -> & _). simpl.
  split; [done|]. split; [apply lookup_delete_eq|]. split; [done|]. intros k Hk.
  by rewrite lookup_delete_ne.
Qed.

(** A committed revocation survives a restart. After
    [mark_revocation_pending] reports Ok, any idle connection over the same
    committed contents that answers [revocation_pending] with Ok answers true;
    the pending events are untouched. When marking fails, the committed
    contents are untouched. *)
Theorem revocation_marker_durable s s2 :
  let '(st, s1) := mark_revocation_pending s in
  (ok st = true ->
     db_events (dur s1) = db_events (dur s) /\
     (dur s2 = dur s1 -> tx s2 = false ->
      ok (fst (fst (revocation_pending s2))) = true -> snd (fst (revocation_pending s2)) = true)) /\
  (ok st = false -> dur s1 = dur s).
Proof.
  pose proof (mark_spec False (False_ind _) (dur s) s (conj eq_refl (False_ind _))) as Hp.
  destruct (mark_revocation_pending s) as [st s1]. simpl in Hp. unfold Committed in Hp.
  destruct (ok st); [|by destruct Hp]. split; [|done]. intros _. destruct Hp as [-> _]. split; [done|].
  intros Hd Ht Hok. destruct (revocation_pending_spec _ s2 (conj Hd Ht)) as [_ Hr].
  rewrite Hok in Hr. rewrite Hr. apply bool_decide_eq_true. simpl. rewrite lookup_insert_eq. eauto.
Qed.

(** Counting is exact and a failure is never "zero pending". On an idle
    connection, an Ok count is the number of pending events, an Ok bounded
    count is the number of those at or below the barrier, an Ok maximum bounds
    every stored ordinal and is one of them or 0, and nothing changes. *)
Theorem counts_exact barrier s :
  tx s = false -> 0 <= barrier < 9223372036854775808 ->
  let d := dur s in
  (let '((st, n), s') := count s in
   Idle d s' /\ (ok st = true -> n = vsize (db_events d))) /\
  (let '((st, n), s') := count_up_to barrier s in
   Idle d s' /\ (ok st = true -> n = vsize (filter (fun r => row_ordinal r <= barrier) (db_events d)))) /\
  (let '((st, n), s') := max_ordinal s in
   Idle d s' /\ (ok st = true -> Forall (fun r => row_ordinal r <= n) (db_events d) /\
                                 (n = 0 \/ n ∈ row_ordinal <$> db_events d))).
Proof.
  intros Ht Hb d. assert (Idle d s) as Hs by (by split). split; [|split].
  - pose proof (count_spec d s Hs) as Hp. destruct (count s) as [[st n] s']. simpl in Hp.
    destruct Hp as [? ->]. split; [done|]. by intros ->.
  - pose proof (count_up_to_spec d barrier Hb s Hs) as Hp. destruct (count_up_to barrier s) as [[st n] s'].
    simpl in Hp. destruct Hp as [? ->]. split; [done|]. by intros ->.
  - pose proof (max_ordinal_spec d s Hs) as Hp. destruct (max_ordinal s) as [[st n] s']. simpl in Hp.
    destruct Hp as [? Hr]. split; [done|]. intros Hst. rewrite Hst in Hr. by destruct Hr as (_ & ? & ?).
Qed.

(** C38: Opening never alters a database it does not own. Whatever [open]
    reports, the committed contents are the ones it found, or the database had
    neither table and now holds the complete new schema; a partial schema is
    never committed. *)
Theorem open_safe s :
  tx s = false ->
  let '(st, s') := open s in
  dur s' = dur s \/ brand_new (dur s) /\ dur s' = with_schema (dur s).
Proof.
  intros Ht. pose proof (open_spec False (False_ind _) (dur s) s (conj eq_refl Ht)) as Hp.
  destruct (open s) as [st s']. cbn [fst snd] in Hp. destruct (ok st).
  - destruct Hp as [[? _]|[? [? _]]]; auto.
  - destruct Hp as [?|(? & ?)]; auto.
Qed.

End Properties.

(** * Witnesses

    Each theorem applied to the reference connection of Sqlite.v. *)

#[local] Existing Instance RefDb.api.
#[local] Existing Instance RefDb.spec.

(** A store on an idle reference connection. *)
Definition ref_store (d : Db) : SqliteStore RefDb.conn := mkStore "" true "" false (RefDb.fresh d).

(** A record and the two rows used below. *)
Definition sample_record : StoredRecord := mkStored "e1" "s1" 0 1 1000 "{}".
Definition sample_row : Row := mkRow 7 (SqlText "e0") "s0" 0 5 900 (SqlText "{}").
Definition null_row : Row := mkRow 8 SqlNull "s0" 1 6 900 (SqlText "{}").
Definition sample_db : Db := mkDb [null_row; sample_row] ∅ ∅.
Definition accept_all (text : string) : library_call bool := Value true.

Lemma insert_atomic_witness :
  ok (fst (insert [sample_record] (ref_store empty_db))) = true /\
  content (dur (snd (insert [sample_record] (ref_store empty_db)))) = [row_of sample_record].
Proof.
  assert (Forall valid_record [sample_record]) as Hv.
  { constructor; [|constructor]. split; [done|].
    apply (bool_decide_eq_true_1 (Ascii.zero ∉ chars (sr_event_id sample_record))). reflexivity. }
  pose proof (insert_atomic [sample_record] (ref_store empty_db) Hv) as Hi.
  rewrite (surjective_pairing (insert _ _)) in Hi. destruct Hi as [Hok _].
  assert (ok (fst (insert [sample_record] (ref_store empty_db))) = true) as E by reflexivity.
  split; [exact E|]. destruct (Hok E) as [Hc _]. rewrite Hc. reflexivity.
Defined.

Lemma fetch_in_order_witness :
  let '(r, s') := fetch_pending accept_all 10 (ref_store sample_db) in
  FetchPost accept_all sample_db 10 r s' /\ fr_quarantined r = 1 /\
  fr_events r = [mkSerialized "e0" "{}"].
Proof.
  assert (rowids_unique sample_db) as Hu.
  { unfold rowids_unique. simpl. rewrite NoDup_cons, list_elem_of_singleton.
    split; [discriminate|apply NoDup_singleton]. }
  pose proof (fetch_in_order accept_all 10 (ref_store sample_db) Hu eq_refl ltac:(done)) as Hp.
  rewrite (surjective_pairing (fetch_pending accept_all 10 (ref_store sample_db))) in Hp |- *.
  split; [exact Hp|]. split; reflexivity.
Defined.

Lemma counts_exact_witness :
  snd (fst (count (ref_store sample_db))) = 2 /\ snd (fst (count_up_to 5 (ref_store sample_db))) = 1 /\
  tx (snd (count (ref_store sample_db))) = false.
Proof.
  pose proof (counts_exact 5 (ref_store sample_db) eq_refl ltac:(lia)) as Hc.
  rewrite (surjective_pairing (count _)), (surjective_pairing (fst (count _))) in Hc.
  destruct Hc as [[[_ Ht] Hn] _]. split; [|split; [reflexivity|exact Ht]].
  rewrite Hn by reflexivity. reflexivity.
Defined.

Lemma revocation_marker_durable_witness :
  let s1 := snd (mark_revocation_pending (ref_store sample_db)) in
  snd (fst (revocation_pending (ref_store (dur s1)))) = true.
Proof.
  intros s1. pose proof (revocation_marker_durable (ref_store sample_db) (ref_store (dur s1))) as Hm.
  rewrite (surjective_pairing (mark_revocation_pending _)) in Hm. destruct Hm as [Hm _].
  destruct (Hm eq_refl) as [_ Hr]. apply Hr; reflexivity.
Defined.

Lemma open_safe_witness :
  ok (fst (open (ref_store empty_db))) = true /\
  (dur (snd (open (ref_store empty_db))) = empty_db \/
   brand_new empty_db /\ dur (snd (open (ref_store empty_db))) = with_schema empty_db).
Proof.
  pose proof (open_safe (ref_store empty_db) eq_refl) as Ho.
  rewrite (surjective_pairing (open _)) in Ho. split; [reflexivity|exact Ho].
Defined.
