(* ===== verification/SchemaSpec.v ===== *)
(** Which databases the store accepts.

    The schema inspection of src/sqlite_store.cpp is compared with a
    description of the version 3 schema ([schema_v3]): on a connection that
    answers its queries, [inspect_existing] reports Ok exactly for databases of
    that shape. *)
From S2P Require Import Prelude Types Serializer SqlText Sqlite Store StoreSpec.

Local Open Scope Z_scope.
Local Open Scope pt_scope.

(** * Definitions *)

Section Schema.
Context {W : Type} `{!SqliteApi W}.

(** The rows a query answers, as a function of the query and its arguments. *)
Context (Q : string -> list sql_value -> list (list sql_value)).

(** A PRAGMA table_info row describes the column. *)
Definition describes (want : ColumnSpec) (row : list sql_value) : Prop :=
  column_text row 1 = col_name want /\ column_text row 2 = col_type want /\
  column_int row 3 = col_notnull want /\ (column_int row 5 <> 0 <-> col_pk want <> 0).

(** The first row of a result. *)
Definition first_row (rows : list (list sql_value)) (P : list sql_value -> Prop) : Prop :=
  exists row rest, rows = row :: rest /\ P row.

(** The first row for the order index describes a full, non-unique index made
    by CREATE INDEX. *)
Definition plain_index (rows : list (list sql_value)) : Prop :=
  exists before row after, rows = before ++ row :: after /\
    Forall (fun r => column_text r 1 <> "idx_events_order") before /\
    column_text row 1 = "idx_events_order" /\
    column_int row 4 = 0 /\ column_int row 2 = 0 /\ column_text row 3 = "c".

(** The version 3 schema. *)
Record schema_v3 : Prop := {
  v3_meta : Forall2 describes kMetaColumns (Q sql_meta_info []);
  v3_version : first_row (Q sql_schema_version [])
    (fun row => parse_schema_version (column_text row 0) = Some kStoreSchemaVersion);
  v3_events_table : Q sql_table_exists [SqlText "events"] <> [];
  v3_events : Forall2 describes kEventsColumns (Q sql_events_info []);
  v3_check : first_row (Q sql_events_sql []) (fun row => exists expr,
    expr ∈ check_expressions (strip_sql_noise (chars (column_text row 0))) /\
    (expr = chars "length(event_id)>0" \/ expr = chars "0<length(event_id)"));
  v3_index_table : first_row (Q sql_index_table [SqlText "idx_events_order"])
    (fun row => column_text row 0 = "events");
  v3_index : plain_index (Q sql_index_list []);
  v3_index_column : exists row, Q sql_index_info [] = [row] /\ column_text row 2 = "ordinal"
}.

(** A connection that prepares and binds without error and answers every query
    with the rows of [Q], for the states in [J]. *)
Record answering (J : W -> Prop) : Prop := {
  ans_prepare sql w : J w -> fst (sqlite3_prepare_v2 sql w) = SQLITE_OK /\ J (snd (sqlite3_prepare_v2 sql w));
  ans_bind i v w : J w -> fst (sqlite3_bind i v w) = SQLITE_OK /\ J (snd (sqlite3_bind i v w));
  ans_finalize w : J w -> J (snd (sqlite3_finalize w));
  ans_query sql args w : J w ->
    fst (sqlite3_query sql args w) = (Q sql args, SQLITE_DONE) /\ J (snd (sqlite3_query sql args w))
}.

(** * Lemmas *)

Lemma column_matches_describes want row : column_matches want row = true <-> describes want row.
Proof.
  unfold column_matches, describes. rewrite negb_true_iff, !orb_false_iff, !negb_false_iff,
    !bool_decide_eq_true, Z.eqb_eq, eqb_true_iff.
  destruct (Z.eqb_spec (column_int row 5) 0), (Z.eqb_spec (col_pk want) 0); simpl; naive_solver.
Qed.

Lemma shape_loop_exact table too_many wants rows i :
  (exists n, shape_loop table too_many i wants rows = inr n /\ n = i + vsize wants) <->
  Forall2 describes wants rows.
Proof.
  revert wants i. induction rows as [|row rows IH]; intros wants i; simpl.
  - split.
    + intros (n & E & Hn). injection E as E. destruct wants as [|w ws]; [constructor|].
      rewrite vsize_cons in Hn. pose proof (vsize_nonneg ws). lia.
    + intros HF. apply Forall2_nil_inv_r in HF as ->. exists i. rewrite vsize_nil. split; [done|lia].
  - destruct wants as [|want wants].
    { split; [by intros (? & ? & _)|]. intros HF. by apply Forall2_nil_inv_l in HF. }
    rewrite Forall2_cons, <- column_matches_describes, <- (IH wants (i + 1)), vsize_cons.
    destruct (column_matches want row); [|naive_solver].
    split; [intros (n & Hn & ->)|intros [_ (n & Hn & ->)]]; [split; [done|]|];
      eexists; (split; [exact Hn|lia]).
Qed.

(** The loop never counts past the expected columns. *)
Lemma shape_loop_ok table too_many wants rows :
  match shape_loop table too_many 0 wants rows with
  | inl _ => False
  | inr n => n = vsize wants
  end <-> Forall2 describes wants rows.
Proof.
  rewrite <- (shape_loop_exact table too_many wants rows 0). simpl.
  destruct (shape_loop _ _ _ _ _); naive_solver.
Qed.

Lemma shape_loop_error table too_many i wants rows e :
  shape_loop table too_many i wants rows = inl e -> ok e = false.
Proof.
  revert i wants. induction rows as [|row rows IH]; intros i wants; simpl; [done|].
  destruct wants as [|w ws]; [by intros [= <-]|]. destruct (column_matches w row); [apply IH|by intros [= <-]].
Qed.

Lemma index_list_loop_exact rows : index_list_loop rows = inr true <-> plain_index rows.
Proof.
  induction rows as [|row rows IH]; simpl.
  { split; [done|]. intros (b & r & a & E & _). by destruct b. }
  destruct (decide (column_text row 1 = "idx_events_order")) as [Hn|Hn].
  - rewrite bool_decide_true by done. simpl. split.
    + intros E. exists [], row, rows. split; [done|]. split; [constructor|].
      destruct (Z.eqb_spec (column_int row 4) 0), (Z.eqb_spec (column_int row 2) 0); simpl in E; try done.
      destruct (bool_decide (column_text row 3 = "c")) eqn:Hc; simpl in E; [|done].
      by apply bool_decide_eq_true in Hc.
    + intros (b & r & a & E & Hb & Hr & H4 & H2 & H3). destruct b as [|r0 b]; simplify_eq/=.
      * by rewrite H4, H2, H3.
      * apply Forall_cons in Hb as [? _]. done.
  - rewrite bool_decide_false by done. simpl. rewrite IH. split.
    + intros (b & r & a & -> & Hb & Hrest). exists (row :: b), r, a. split; [done|].
      split; [by constructor|done].
    + intros (b & r & a & E & Hb & Hr & Hrest). destruct b as [|r0 b]; simplify_eq/=.
      apply Forall_cons in Hb as [_ Hb]. by exists b, r, a.
Qed.

Lemma index_list_loop_error rows e : index_list_loop rows = inl e -> ok e = false.
Proof.
  induction rows as [|row rows IH]; simpl; [done|].
  repeat (destruct (negb _); [auto; by intros [= <-]|]). done.
Qed.

(** ** Running the inspection on an answering connection *)

Section Run.
Context (J : W -> Prop) (HJ : answering J).
#[local] Abbreviation St := (SqliteStore W).

(** The computation stays in [J] and its status is Ok exactly when [P]. *)
Definition decides (m : M St Status) (P : Prop) : Prop :=
  forall s, J (conn s) -> J (conn (snd (m s))) /\ (ok (fst (m s)) = true <-> P).

Lemma decides_return st P : (ok st = true <-> P) -> decides (mreturn st) P.
Proof. by intros HP s Hs. Qed.

Lemma decides_refuse st P : ok st = false -> ~ P -> decides (mreturn st) P.
Proof. intros Hst HP. apply decides_return. rewrite Hst. by split. Qed.

Lemma decides_iff m P P' : (P <-> P') -> decides m P -> decides m P'.
Proof. intros HP Hm s Hs. destruct (Hm s Hs) as [? Hd]. by rewrite <- HP. Qed.

(** [s = m; if (!s.ok()) return s; k]. *)
Lemma decides_seq m k P P' :
  decides m P -> decides k P' ->
  decides (let* a := m in if negb (ok a) then mreturn a else k) (P /\ P').
Proof.
  intros Hm Hk s Hs. unfold mthen. destruct (Hm s Hs) as [Hs1 Hp]. destruct (m s) as [a s1]. simpl in *.
  destruct (ok a) eqn:Ha; simpl.
  - destruct (Hk s1 Hs1) as [? ->]. split; [done|]. split; [|by intros []].
    intros. split; [by apply Hp|done].
  - rewrite Ha. split; [done|]. split; [done|]. intros [HP _]. by apply Hp.
Qed.

(** The steps that succeed on an answering connection. *)
Lemma run_prepare {B} sql (e k : M St B) (R : B -> Prop) :
  hoare (fun s => J (conn s)) k (fun b s => J (conn s) /\ R b) ->
  hoare (fun s => J (conn s))
    (let* p := on_conn (sqlite3_prepare_v2 sql) in if negb (p =? SQLITE_OK) then e else guarded k)
    (fun b s => J (conn s) /\ R b).
Proof.
  intros Hk s Hs. unfold mthen, on_conn. destruct (ans_prepare J HJ sql (conn s) Hs) as [Hp Hj].
  destruct (sqlite3_prepare_v2 sql (conn s)) as [p w]. simpl in *. subst p. simpl.
  destruct (Hk (set_conn w s) Hj) as [Hj1 Hr]. unfold guarded, mthen, on_conn.
  destruct (k (set_conn w s)) as [b s1]. pose proof (ans_finalize J HJ (conn s1) Hj1) as Hf.
  by destruct (sqlite3_finalize (conn s1)).
Qed.

Lemma run_bind {B} i v (e k : M St B) (R : B -> St -> Prop) :
  hoare (fun s => J (conn s)) k R ->
  hoare (fun s => J (conn s))
    (let* p := on_conn (sqlite3_bind i v) in if negb (p =? SQLITE_OK) then e else k) R.
Proof.
  intros Hk s Hs. unfold mthen, on_conn. destruct (ans_bind J HJ i v (conn s) Hs) as [Hp Hj].
  destruct (sqlite3_bind i v (conn s)) as [p w]. simpl in *. subst p. simpl. by apply Hk.
Qed.

Lemma run_query {B} sql args (k : list (list sql_value) * Z -> M St B) (R : B -> St -> Prop) :
  hoare (fun s => J (conn s)) (k (Q sql args, SQLITE_DONE)) R ->
  hoare (fun s => J (conn s)) (mthen (on_conn (sqlite3_query sql args)) k) R.
Proof.
  intros Hk s Hs. unfold mthen, on_conn. destruct (ans_query J HJ sql args (conn s) Hs) as [Hp Hj].
  destruct (sqlite3_query sql args (conn s)) as [p w]. simpl in *. subst p. by apply Hk.
Qed.

Lemma decides_hoare m P :
  hoare (fun s => J (conn s)) m (fun st s => J (conn s) /\ (ok st = true <-> P)) -> decides m P.
Proof. intros Hm s Hs. by apply Hm. Qed.

Lemma hoare_decides m P :
  decides m P -> hoare (fun s => J (conn s)) m (fun st s => J (conn s) /\ (ok st = true <-> P)).
Proof. intros Hm s Hs. by apply Hm. Qed.

Lemma meta_decides : decides validate_meta_shape (Forall2 describes kMetaColumns (Q sql_meta_info [])).
Proof.
  apply decides_hoare. unfold validate_meta_shape. apply run_prepare, run_query. cbv beta iota.
  apply hoare_decides. eapply decides_iff; [apply (shape_loop_ok "schema_meta"
    ("schema_meta has more columns than schema version " +:+
     to_string kStoreSchemaVersion +:+ " defines; refusing to open"))|].
  destruct (shape_loop _ _ _ _ _) as [e|n] eqn:E.
  { apply decides_refuse; [|by intros []]. by eapply shape_loop_error. }
  change (negb (SQLITE_DONE =? SQLITE_DONE)) with false. cbv iota.
  destruct (Z.eqb_spec n (vsize kMetaColumns)); simpl negb; cbv iota; [by apply decides_return|].
  by apply decides_refuse.
Qed.

Lemma check_decides : decides validate_events_check
  (first_row (Q sql_events_sql []) (fun row => exists expr,
    expr ∈ check_expressions (strip_sql_noise (chars (column_text row 0))) /\
    (expr = chars "length(event_id)>0" \/ expr = chars "0<length(event_id)"))).
Proof.
  apply decides_hoare. unfold validate_events_check. apply run_prepare, run_query.
  apply hoare_decides. destruct (Q sql_events_sql []) as [|row rest]; cbv beta iota; unfold first_step; cbn [fst snd].
  { apply decides_refuse; [done|]. by intros (? & ? & ? & _). }
  change (negb (SQLITE_ROW =? SQLITE_ROW)) with false. cbv iota zeta.
  set (checks := check_expressions _).
  assert (existsb accepted_check checks = true <-> first_row (row :: rest) (fun row => exists expr,
    expr ∈ check_expressions (strip_sql_noise (chars (column_text row 0))) /\
    (expr = chars "length(event_id)>0" \/ expr = chars "0<length(event_id)"))) as Hchecks.
  { rewrite existsb_exists. unfold accepted_check. setoid_rewrite orb_true_iff.
    setoid_rewrite bool_decide_eq_true. setoid_rewrite <- list_elem_of_In. split.
    - intros He. exists row, rest. split; [done|]. exact He.
    - intros (row' & rest' & [= <- <-] & He). exact He. }
  destruct (existsb accepted_check checks); simpl negb; cbv iota.
  - apply decides_return. by rewrite <- Hchecks.
  - apply decides_refuse; [done|]. by rewrite <- Hchecks.
Qed.

Lemma index_table_decides : decides check_index_table
  (first_row (Q sql_index_table [SqlText "idx_events_order"]) (fun row => column_text row 0 = "events")).
Proof.
  apply decides_hoare. unfold check_index_table. apply run_prepare, run_bind, run_query.
  apply hoare_decides. destruct (Q sql_index_table _) as [|row rest]; unfold first_step; cbn [fst snd].
  { apply decides_refuse; [done|]. by intros (? & ? & ? & _). }
  change (SQLITE_ROW =? SQLITE_DONE) with false. change (negb (SQLITE_ROW =? SQLITE_ROW)) with false. cbv iota.
  destruct (decide (column_text row 0 = "events")) as [He|He].
  - rewrite bool_decide_true by done. apply decides_return. split; [|done]. intros _. by exists row, rest.
  - rewrite bool_decide_false by done. apply decides_refuse; [done|].
    by intros (row' & rest' & [= <- <-] & ?).
Qed.

Lemma index_list_decides : decides check_index_list (plain_index (Q sql_index_list [])).
Proof.
  apply decides_hoare. unfold check_index_list. apply run_prepare, run_query. cbv beta iota.
  apply hoare_decides. eapply decides_iff; [apply index_list_loop_exact|]. destruct (index_list_loop _) as [e|[]] eqn:E.
  - apply decides_refuse; [|done]. by eapply index_list_loop_error.
  - by apply decides_return.
  - change (negb (SQLITE_DONE =? SQLITE_ROW) && negb (SQLITE_DONE =? SQLITE_DONE)) with false. cbv iota.
    by apply decides_refuse.
Qed.

Lemma index_info_decides : decides check_index_info
  (exists row, Q sql_index_info [] = [row] /\ column_text row 2 = "ordinal").
Proof.
  apply decides_hoare. unfold check_index_info. apply run_prepare, run_query. cbv beta iota.
  change (negb (SQLITE_DONE =? SQLITE_DONE)) with false. cbv iota.
  apply hoare_decides, decides_return. unfold check_index_columns.
  destruct (Q sql_index_info []) as [|row [|row2 rest]].
  - simpl. split; [done|]. by intros (? & ? & _).
  - simpl. destruct (decide (column_text row 2 = "ordinal")) as [He|He].
    + rewrite bool_decide_true by done. split; [|done]. intros _. by exists row.
    + rewrite bool_decide_false by done. split; [done|]. by intros (? & [= <-] & ?).
  - replace (vsize (row :: row2 :: rest) =? 1) with false.
    + simpl; split; [done|]. by intros (? & ? & _).
    + symmetry. apply Z.eqb_neq. rewrite !vsize_cons. pose proof (vsize_nonneg rest). lia.
Qed.

Lemma order_index_decides : decides validate_order_index
  (first_row (Q sql_index_table [SqlText "idx_events_order"]) (fun row => column_text row 0 = "events") /\
   plain_index (Q sql_index_list []) /\
   exists row, Q sql_index_info [] = [row] /\ column_text row 2 = "ordinal").
Proof.
  apply decides_seq; [apply index_table_decides|].
  apply decides_seq; [apply index_list_decides|apply index_info_decides].
Qed.

Lemma events_decides : decides validate_events_shape
  (Forall2 describes kEventsColumns (Q sql_events_info []) /\
   first_row (Q sql_events_sql []) (fun row => exists expr,
     expr ∈ check_expressions (strip_sql_noise (chars (column_text row 0))) /\
     (expr = chars "length(event_id)>0" \/ expr = chars "0<length(event_id)")) /\
   first_row (Q sql_index_table [SqlText "idx_events_order"]) (fun row => column_text row 0 = "events") /\
   plain_index (Q sql_index_list []) /\
   exists row, Q sql_index_info [] = [row] /\ column_text row 2 = "ordinal").
Proof.
  apply decides_hoare. unfold validate_events_shape. apply run_prepare, run_query. cbv beta iota.
  apply hoare_decides. eapply decides_iff.
  { apply and_iff_compat_r, (shape_loop_ok "events" ("events table has more columns than schema version " +:+
           to_string kStoreSchemaVersion +:+ " defines")). }
  destruct (shape_loop _ _ _ _ _) as [e|n] eqn:E.
  { apply decides_refuse; [|by intros [[] _]]. by eapply shape_loop_error. }
  change (negb (SQLITE_DONE =? SQLITE_DONE)) with false. cbv iota.
  destruct (Z.eqb_spec n (vsize kEventsColumns)) as [->|Hn]; simpl negb; cbv iota.
  - eapply decides_iff; [|apply decides_seq; [apply check_decides|apply order_index_decides]]. tauto.
  - apply decides_refuse; [done|]. by intros [? _].
Qed.

(** A reading step whose status is Ok on an answering connection. *)
Lemma version_run (k : Status * bool * Z -> M St Status) P :
  (forall row rest, Q sql_schema_version [] = row :: rest ->
     match parse_schema_version (column_text row 0) with
     | None => forall e, ok e = false -> decides (k (e, true, 0)) P
     | Some v => decides (k (status_ok, true, v)) P
     end) ->
  (Q sql_schema_version [] = [] -> decides (k (status_ok, false, 0)) P) ->
  decides (mthen read_schema_version k) P.
Proof.
  intros Hrow Hnone s Hs. unfold mthen.
  assert (hoare (fun s => J (conn s)) read_schema_version (fun r s => J (conn s) /\
    match Q sql_schema_version [] with
    | [] => r = (status_ok, false, 0)
    | row :: _ => match parse_schema_version (column_text row 0) with
                  | None => exists e, ok e = false /\ r = (e, true, 0)
                  | Some v => r = (status_ok, true, v)
                  end
    end)) as Hread.
  { unfold read_schema_version. apply run_prepare, run_query.
    destruct (Q sql_schema_version []) as [|row rest]; unfold first_step; cbn [fst snd].
    - change (SQLITE_DONE =? SQLITE_ROW) with false. change (negb (SQLITE_DONE =? SQLITE_DONE)) with false.
      cbv iota. by apply hoare_return.
    - change (SQLITE_ROW =? SQLITE_ROW) with true. cbv iota zeta.
      destruct (parse_schema_version _); apply hoare_return; intros s' Hs'; split; try done. eexists; split; [|reflexivity]; done. }
  destruct (Hread s Hs) as [Hj Hr]. destruct (read_schema_version s) as [r s1]. simpl in *.
  destruct (Q sql_schema_version []) as [|row rest]; [subst r; by apply Hnone|].
  specialize (Hrow row rest eq_refl).
  destruct (parse_schema_version _); [subst r; by apply Hrow|]. destruct Hr as (e & He & ->). by apply Hrow.
Qed.

Lemma table_run name (k : Status * bool -> M St Status) P :
  decides (k (status_ok, negb (bool_decide (Q sql_table_exists [SqlText name] = [])))) P ->
  decides (mthen (table_exists name) k) P.
Proof.
  intros Hk s Hs. unfold mthen.
  assert (hoare (fun s => J (conn s)) (table_exists name) (fun r s => J (conn s) /\
    r = (status_ok, negb (bool_decide (Q sql_table_exists [SqlText name] = []))))) as Hread.
  { unfold table_exists. apply run_prepare, run_bind, run_query.
    destruct (Q sql_table_exists _) as [|row rest]; unfold first_step; cbn [fst snd].
    - change (SQLITE_DONE =? SQLITE_ROW) with false. change (negb (SQLITE_DONE =? SQLITE_DONE)) with false.
      cbv iota. by apply hoare_return.
    - change (SQLITE_ROW =? SQLITE_ROW) with true. cbv iota. by apply hoare_return. }
  destruct (Hread s Hs) as [Hj Hr]. destruct (table_exists name s) as [r s1]. simpl in *. subst r. by apply Hk.
Qed.

Lemma inspect_decides : decides inspect_existing schema_v3.
Proof.
  eapply decides_iff with (P := Forall2 describes kMetaColumns (Q sql_meta_info []) /\
    (first_row (Q sql_schema_version [])
      (fun row => parse_schema_version (column_text row 0) = Some kStoreSchemaVersion) /\
     Q sql_table_exists [SqlText "events"] <> [] /\ _)).
  2:{ apply decides_seq; [apply meta_decides|]. apply version_run.
      - intros row rest E. rewrite E. destruct (parse_schema_version (column_text row 0)) as [v|] eqn:Ev.
        2:{ intros e He. simpl. rewrite He. apply decides_refuse; [done|].
            intros [(r & rs & [= <- <-] & Hv) _]. congruence. }
        simpl. destruct (Z.eqb_spec v kStoreSchemaVersion) as [->|Hv]; simpl.
        2:{ apply decides_refuse; [done|]. intros [(r & rs & [= <- <-] & Hv') _]. congruence. }
        apply table_run. destruct (Q sql_table_exists [SqlText "events"]) as [|r0 rs0] eqn:Et; simpl.
        { apply decides_refuse; [done|]. by intros (_ & ? & _). }
        eapply decides_iff; [|apply events_decides]. split; [intros Hev|intros (_ & _ & Hev); exact Hev].
        split; [by exists row, rest|]. split; [done|]. exact Hev.
      - intros E. rewrite E. simpl. apply decides_refuse; [done|]. by intros [(? & ? & ? & _) _]. }
  split.
  - intros (Hm & Hv & Ht & He & Hc & Hi & Hl & Hf). by constructor.
  - intros []. auto 10.
Qed.
End Run.
End Schema.

(** * Properties *)


#[local] Existing Instance RefDb.api.

