(* ===== verification/StoreIface.v ===== *)
(** The interface between the store and its clients.

    The worker and the client (src/worker.cpp, src/client.cpp) use the store
    through the operations of [StoreOps] and rely on the laws of [StoreLaws].
    [SqliteStore] of Store.v implements both, on every connection that
    satisfies [SqliteSpec] and [RollbackReliable]. *)
From S2P Require Import Prelude Types Serializer SqlText Sqlite Store StoreSpec.

Local Open Scope Z_scope.

(** * The interface *)

(** The operations of [SqliteStore] the pipeline calls. *)
Class StoreOps (S : Type) : Type := {
  store_open : M S Status;
  store_insert : list StoredRecord -> M S Status;
  store_count : M S (Status * Z);
  store_max_ordinal : M S (Status * Z);
  store_count_up_to : Z -> M S (Status * Z);
  store_fetch_pending : Z -> M S FetchResult;
  store_acknowledge : list string -> M S (Status * Z);
  store_mark_revocation_pending : M S Status;
  store_purge_and_clear_revocation : M S (Status * Z);
  store_revocation_pending : M S (Status * bool);
  store_journal_mode : S -> string
}.

(** What the clients of the store rely on. [rows] are the committed pending
    rows and [marked] says that a revocation is recorded; [sound] states are
    the ones every operation starts from and returns to; [row_event] is the
    event a row is delivered as, if its identifier and payload are usable. *)
Class StoreLaws (S : Type) `{StoreOps S} : Type := {
  rows : S -> list Row;
  marked : S -> bool;
  sound : S -> Prop;
  row_event : Row -> option SerializedEvent;
  law_row_event r x id payload : row_event r = Some x ->
    row_event_id r = SqlText id -> row_payload r = SqlText payload -> x = mkSerialized id payload;
  law_insert records s : sound s -> Forall valid_record records ->
    let '(st, s') := store_insert records s in
    sound s' /\ marked s' = marked s /\
    rows s' = if ok st then foldl insert_one (rows s) records else rows s;
  law_count s : sound s ->
    let '((st, n), s') := store_count s in
    sound s' /\ marked s' = marked s /\ rows s' = rows s /\
    n = if ok st then vsize (rows s) else 0;
  law_max_ordinal s : sound s ->
    let '((st, n), s') := store_max_ordinal s in
    sound s' /\ marked s' = marked s /\ rows s' = rows s /\
    (ok st = true -> 0 <= n /\ Forall (fun r => row_ordinal r <= n) (rows s));
  law_count_up_to b s : sound s -> 0 <= b < 9223372036854775808 ->
    let '((st, n), s') := store_count_up_to b s in
    sound s' /\ marked s' = marked s /\ rows s' = rows s /\
    n = if ok st then vsize (filter (fun r => row_ordinal r <= b) (rows s)) else 0;
  law_count_up_to_reads b s : sound s ->
    let '(_, s') := store_count_up_to b s in sound s' /\ marked s' = marked s /\ rows s' = rows s;
  law_fetch limit s : sound s -> 0 <= limit ->
    let '(r, s') := store_fetch_pending limit s in
    sound s' /\ marked s' = marked s /\
    exists sorted k,
      sorted ≡ₚ rows s /\ StronglySorted row_le sorted /\
      (k <= Z.to_nat (Z.min limit int_max))%nat /\
      fr_events r = omap row_event (take k sorted) /\
      let bad := filter (fun x => row_event x = None) (take k sorted) in
      (ok (fr_status r) = true -> k = Z.to_nat (Z.min limit int_max) /\ bad = [] /\ fr_quarantined r = 0) /\
      (fr_quarantined r = 0 /\ rows s' = rows s \/
       0 < fr_quarantined r /\ fr_quarantined r = vsize bad /\ rows s' ++ bad ≡ₚ rows s);
  law_acknowledge ids s : sound s ->
    let '((st, n), s') := store_acknowledge ids s in
    sound s' /\ marked s' = marked s /\
    (ok st = true ->
       rows s' = filter (fun r => in_ids ids r = false) (rows s) /\
       vsize (rows s) = vsize (rows s') + vsize ids) /\
    (ok st = false ->
       rows s' = rows s \/ rows s' = filter (fun r => in_ids ids r = false) (rows s));
  law_mark s : sound s ->
    let '(st, s') := store_mark_revocation_pending s in
    sound s' /\ rows s' = rows s /\ marked s' = if ok st then true else marked s;
  law_purge s : sound s ->
    let '((st, n), s') := store_purge_and_clear_revocation s in
    sound s' /\
    (if ok st then rows s' = [] /\ marked s' = false else rows s' = rows s /\ marked s' = marked s);
  law_revocation_pending s : sound s ->
    let '((st, b), s') := store_revocation_pending s in
    sound s' /\ marked s' = marked s /\ rows s' = rows s /\ (ok st = true -> b = marked s);
  law_open s : sound s ->
    let '(st, s') := store_open s in
    rows s' = rows s /\ marked s' = marked s /\ (ok st = true -> sound s')
}.

(** * The SQLite store implements the interface *)

Section Instance_.
Context {W : Type} `{!SqliteApi W} `{!SqliteSpec W} `{!RollbackReliable W}.
Context (accept : string -> library_call bool).
#[local] Abbreviation St := (SqliteStore W).

#[export] Instance sqlite_ops : StoreOps St := {
  store_open := open;
  store_insert := insert;
  store_count := count;
  store_max_ordinal := max_ordinal;
  store_count_up_to := count_up_to;
  store_fetch_pending := fetch_pending accept;
  store_acknowledge := acknowledge;
  store_mark_revocation_pending := mark_revocation_pending;
  store_purge_and_clear_revocation := purge_and_clear_revocation;
  store_revocation_pending := revocation_pending;
  store_journal_mode := journal_mode_
}.

Definition sqlite_rows (s : St) : list Row := content (dur s).
Definition sqlite_marked (s : St) : bool := bool_decide (is_Some (db_meta (dur s) !! kRevocationKey)).

(** No transaction is open and the storage identifiers are unique. *)
Definition sqlite_sound (s : St) : Prop := tx s = false /\ rowids_unique (dur s).

Definition sqlite_row_event (r : Row) : option SerializedEvent :=
  if bad_row accept r then None else Some (to_event r).

Lemma sound_kept s : sqlite_sound s -> Kept True (dur s) s.
Proof. by intros [Ht _]. Qed.

Lemma sound_idle s : sqlite_sound s -> Idle (dur s) s.
Proof. by intros [Ht _]. Qed.

(** Rollback on this connection. *)
Lemma reliable_T : True -> forall w : W, in_tx view (snd (sqlite3_exec sql_rollback w)) = false.
Proof. intros _. apply rollback_reliable. Qed.

Lemma same_dur s s' :
  sqlite_sound s -> dur s' = dur s -> tx s' = false ->
  sqlite_sound s' /\ sqlite_marked s' = sqlite_marked s /\ sqlite_rows s' = sqlite_rows s.
Proof. intros [Ht Hu] Hd Ht'. unfold sqlite_sound, sqlite_marked, sqlite_rows. by rewrite Hd. Qed.

Lemma removes_unique f n d d' : removes f n d d' -> rowids_unique d -> rowids_unique d'.
Proof.
  intros [-> _] Hu. unfold rowids_unique in *. simpl.
  eapply sublist_NoDup; [exact Hu|]. apply fmap_sublist, sublist_filter.
Qed.

Lemma in_ids_strip ids r : in_ids ids (strip r) = in_ids ids r.
Proof. done. Qed.

Lemma insert_law records s :
  sqlite_sound s -> Forall valid_record records ->
  let '(st, s') := insert records s in
  sqlite_sound s' /\ sqlite_marked s' = sqlite_marked s /\
  sqlite_rows s' = if ok st then foldl insert_one (sqlite_rows s) records else sqlite_rows s.
Proof.
  intros Hs Hv. destruct (decide (records = [])) as [->|Hne]; [done|].
  pose proof (insert_spec True reliable_T (dur s) records Hv Hne s (sound_kept s Hs)) as Hp.
  destruct (insert records s) as [st s']. simpl in Hp. unfold Committed in Hp. destruct (ok st).
  - destruct Hp as [(Hc & Hm & _ & Hu) Ht]. unfold sqlite_sound, sqlite_marked, sqlite_rows.
    rewrite Hm. destruct Hs as [_ Hu0]. auto.
  - destruct Hp as [Hd Ht]. destruct (same_dur s s' Hs Hd (Ht I)) as (? & ? & ?). done.
Qed.

Lemma acknowledge_law ids s :
  sqlite_sound s ->
  let '((st, n), s') := acknowledge ids s in
  sqlite_sound s' /\ sqlite_marked s' = sqlite_marked s /\
  (ok st = true ->
     sqlite_rows s' = filter (fun r => in_ids ids r = false) (sqlite_rows s) /\
     vsize (sqlite_rows s) = vsize (sqlite_rows s') + vsize ids) /\
  (ok st = false ->
     sqlite_rows s' = sqlite_rows s \/
     sqlite_rows s' = filter (fun r => in_ids ids r = false) (sqlite_rows s)).
Proof.
  intros Hs. unfold acknowledge, mthen. destruct (decide (ids = [])) as [->|Hne].
  { simpl. split; [done|]. split; [done|]. split; [|by left]. intros _.
    rewrite vsize_nil, Z.add_0_r. split; [|done]. induction (sqlite_rows s) as [|x l IH]; [done|].
    rewrite filter_cons. simpl. by f_equal. }
  pose proof (delete_ids_spec True reliable_T (dur s) ids Hne s (sound_kept s Hs)) as Hp.
  unfold Removed in Hp. destruct (delete_ids ids s) as [[st n] s']. cbn [fst snd] in Hp.
  destruct (ok st) eqn:Hst; simpl; rewrite ?Hst.
  - destruct Hp as [Hr Ht].
    assert (sqlite_sound s') as Hs'.
    { split; [done|]. eapply removes_unique; [exact Hr|apply Hs]. }
    destruct Hr as [Hd Hn].
    assert (sqlite_rows s' = filter (fun r => in_ids ids r = false) (sqlite_rows s)) as Hrows.
    { unfold sqlite_rows, content. rewrite Hd. simpl. by apply strip_filter. }
    assert (sqlite_marked s' = sqlite_marked s) as Hm by (unfold sqlite_marked; by rewrite Hd).
    destruct (n =? vsize ids) eqn:E; simpl; bool_to_prop; (split; [done|split; [done|]]).
    + split; [|done]. intros _. split; [done|]. unfold sqlite_rows, content.
      assert (forall l : list Row, vsize (strip <$> l) = vsize l) as Hl
        by (intros l; unfold vsize; by rewrite length_fmap).
      rewrite !Hl, Hd. simpl. rewrite <- E, Hn. apply vsize_filter_split.
    + split; [done|]. by right.
  - destruct Hp as [[Hd Ht] _]. destruct (same_dur s s' Hs Hd (Ht I)) as (? & ? & ?).
    repeat (split; [done|]). by left.
Qed.

Lemma bad_row_strip r : bad_row accept (strip r) = bad_row accept r.
Proof. done. Qed.

Lemma row_event_strip r : sqlite_row_event (strip r) = sqlite_row_event r.
Proof. done. Qed.

Lemma row_event_none r : sqlite_row_event r = None <-> bad_row accept r = true.
Proof. unfold sqlite_row_event. by destruct (bad_row accept r). Qed.

Lemma events_of_rows (l : list Row) :
  to_event <$> filter (fun r => bad_row accept r = false) l = omap sqlite_row_event (strip <$> l).
Proof.
  induction l as [|r l IH]; [done|]. rewrite filter_cons, fmap_cons. csimpl. rewrite row_event_strip, <- IH.
  unfold sqlite_row_event. by destruct (bad_row accept r).
Qed.

Lemma bad_rows_strip (l : list Row) :
  strip <$> filter (fun r => bad_row accept r = true) l =
  filter (fun r => sqlite_row_event r = None) (strip <$> l).
Proof.
  induction l as [|r l IH]; [done|]. rewrite fmap_cons, !filter_cons, row_event_strip.
  destruct (decide (bad_row accept r = true)) as [Hb|Hb].
  - rewrite decide_True by (by apply row_event_none). by rewrite fmap_cons, IH.
  - rewrite decide_False by (by rewrite row_event_none). done.
Qed.

Lemma sorted_strip (l : list Row) : StronglySorted row_le l -> StronglySorted row_le (strip <$> l).
Proof.
  induction 1 as [|r l Hs IH Hf]; [constructor|]. rewrite fmap_cons. constructor; [done|].
  apply Forall_fmap. exact Hf.
Qed.

Lemma vsize_strip (l : list Row) : vsize (strip <$> l) = vsize l.
Proof. unfold vsize. by rewrite length_fmap. Qed.

(** The rows a quarantine leaves, with the quarantined ones, are the rows. *)
Lemma removes_split d d' bad n :
  rowids_unique d -> bad ⊆ db_events d -> NoDup bad ->
  removes (in_rowids (row_rowid <$> bad)) n d d' -> db_events d' ++ bad ≡ₚ db_events d.
Proof.
  intros Hu Hsub Hnd [-> _]. simpl.
  etrans; [apply Permutation_app_head; symmetry; by apply (in_rowids_exact d bad)|]. clear.
  induction (db_events d) as [|r l IH]; [done|]. rewrite !filter_cons.
  destruct (in_rowids (row_rowid <$> bad) r) eqn:E; simpl.
  - by rewrite <- Permutation_middle, IH.
  - by rewrite IH.
Qed.

Lemma fetch_law limit s :
  sqlite_sound s -> 0 <= limit ->
  let '(r, s') := fetch_pending accept limit s in
  sqlite_sound s' /\ sqlite_marked s' = sqlite_marked s /\
  exists sorted k,
    sorted ≡ₚ sqlite_rows s /\ StronglySorted row_le sorted /\
    (k <= Z.to_nat (Z.min limit int_max))%nat /\
    fr_events r = omap sqlite_row_event (take k sorted) /\
    let bad := filter (fun x => sqlite_row_event x = None) (take k sorted) in
    (ok (fr_status r) = true -> k = Z.to_nat (Z.min limit int_max) /\ bad = [] /\ fr_quarantined r = 0) /\
    (fr_quarantined r = 0 /\ sqlite_rows s' = sqlite_rows s \/
     0 < fr_quarantined r /\ fr_quarantined r = vsize bad /\ sqlite_rows s' ++ bad ≡ₚ sqlite_rows s).
Proof.
  intros Hs Hl. pose proof (fetch_pending_spec accept True reliable_T (dur s) limit (proj2 Hs) Hl s (sound_idle s Hs)) as [Hp Ht].
  destruct (fetch_pending accept limit s) as [r s']. cbn [fst snd] in *. specialize (Ht I).
  destruct Hp as (sorted & k & Hperm & Hss & Hk & Hev & Hcase).
  destruct (bad_subset accept (dur s) sorted k Hperm (proj2 Hs)) as [Hsub Hnd].
  set (bad := filter (fun x => bad_row accept x = true) (take k sorted)) in *. cbv zeta in Hcase.
  assert (sqlite_sound s' /\ sqlite_marked s' = sqlite_marked s /\
    (fr_quarantined r = 0 /\ sqlite_rows s' = sqlite_rows s \/
     0 < fr_quarantined r /\ fr_quarantined r = vsize bad /\ sqlite_rows s' ++ (strip <$> bad) ≡ₚ sqlite_rows s))
    as (Hs' & Hm & Hq).
  { destruct (ok (fr_status r)).
    - destruct Hcase as (_ & _ & Hq & Hd & _). destruct (same_dur s s' Hs Hd Ht) as (? & ? & ?). auto.
    - destruct Hcase as [[Hd Hq]|(Hq & Hr & Hn & _)].
      + destruct (same_dur s s' Hs Hd Ht) as (? & ? & ?). auto.
      + split; [split; [done|eapply removes_unique; [exact Hr|apply Hs]]|].
        split; [unfold sqlite_marked; destruct Hr as [-> _]; done|]. right. split; [done|]. split; [done|].
        unfold sqlite_rows, content. rewrite <- fmap_app. apply fmap_Permutation.
        by eapply removes_split; [apply Hs|..]. }
  split; [done|]. split; [done|]. exists (strip <$> sorted), k.
  rewrite <- !fmap_take, <- bad_rows_strip, <- events_of_rows. fold bad. rewrite vsize_strip.
  split; [unfold sqlite_rows, content; by rewrite Hperm|]. split; [by apply sorted_strip|].
  split; [done|]. split; [done|]. split; [|done].
  intros Hok. rewrite Hok in Hcase. destruct Hcase as (? & -> & ? & _). done.
Qed.

Lemma marked_of_meta (s s' : St) :
  db_meta (dur s') !! kRevocationKey = db_meta (dur s) !! kRevocationKey ->
  sqlite_marked s' = sqlite_marked s.
Proof. intros Hk. unfold sqlite_marked. by rewrite Hk. Qed.

Lemma create_object_keeps d n k q :
  db_events (create_object d n k q) = db_events d /\ db_meta (create_object d n k q) = db_meta d.
Proof. unfold create_object. by destruct (db_schema d !! n). Qed.

Lemma with_schema_keeps d :
  db_events (with_schema d) = db_events d /\
  db_meta (with_schema d) !! kRevocationKey = db_meta d !! kRevocationKey.
Proof.
  unfold with_schema, set_meta. cbn [db_events db_meta].
  rewrite lookup_insert_ne by done.
  rewrite !(proj1 (create_object_keeps _ _ _ _)), !(proj2 (create_object_keeps _ _ _ _)). done.
Qed.

Lemma open_law s :
  sqlite_sound s ->
  let '(st, s') := open s in
  sqlite_rows s' = sqlite_rows s /\ sqlite_marked s' = sqlite_marked s /\
  (ok st = true -> sqlite_sound s').
Proof.
  intros Hs. pose proof (open_spec True reliable_T (dur s) s (sound_idle s Hs)) as Hp.
  destruct (open s) as [st s']. cbn [fst snd] in Hp.
  assert (dur s' = dur s \/ dur s' = with_schema (dur s)) as Hd.
  { destruct (ok st); unfold OpenPost, Idle in Hp; tauto. }
  assert (db_events (dur s') = db_events (dur s) /\
          db_meta (dur s') !! kRevocationKey = db_meta (dur s) !! kRevocationKey) as [He Hm].
  { destruct Hd as [-> | ->]; [done|apply with_schema_keeps]. }
  split; [unfold sqlite_rows, content; by rewrite He|]. split; [by apply marked_of_meta|].
  intros Hok. rewrite Hok in Hp. split; [unfold Idle in Hp; tauto|].
  unfold rowids_unique. rewrite He. apply Hs.
Qed.

#[export] Instance sqlite_laws : StoreLaws St.
Proof.
  refine {| rows := sqlite_rows; marked := sqlite_marked; sound := sqlite_sound;
            row_event := sqlite_row_event |}.
  - intros r x id payload. unfold sqlite_row_event, to_event. destruct (bad_row accept r); [done|].
    intros [= <-] Hi Hp. unfold column_text, column, fetch_columns. simpl. by rewrite Hi, Hp, !(spec_text W).
  - intros records s. apply insert_law.
  - intros s Hs. pose proof (count_spec (dur s) s (sound_idle s Hs)) as Hp. simpl.
    destruct (count s) as [[st n] s']. simpl in Hp. destruct Hp as [[Hd Ht] ->].
    destruct (same_dur s s' Hs Hd Ht) as (? & ? & ?). repeat (split; [done|]).
    unfold sqlite_rows, content. by rewrite vsize_strip.
  - intros s Hs. pose proof (max_ordinal_spec (dur s) s (sound_idle s Hs)) as Hp. simpl.
    destruct (max_ordinal s) as [[st n] s']. simpl in Hp. destruct Hp as [[Hd Ht] Hn].
    destruct (same_dur s s' Hs Hd Ht) as (? & ? & ?). repeat (split; [done|]).
    intros Hok. rewrite Hok in Hn. destruct Hn as (Hn0 & Hf & _). split; [done|].
    unfold sqlite_rows, content. by apply Forall_fmap.
  - intros b s Hs Hb. pose proof (count_up_to_spec (dur s) b Hb s (sound_idle s Hs)) as Hp. simpl.
    destruct (count_up_to b s) as [[st n] s']. simpl in Hp. destruct Hp as [[Hd Ht] ->].
    destruct (same_dur s s' Hs Hd Ht) as (? & ? & ?). repeat (split; [done|]).
    unfold sqlite_rows, content. destruct (ok st); [|done]. clear.
    induction (db_events (dur s)) as [|r l IH]; [done|]. rewrite fmap_cons, !filter_cons.
    change (row_ordinal (strip r)) with (row_ordinal r).
    destruct (decide (row_ordinal r <= b)); [by rewrite !vsize_cons, IH|done].
  - intros b s Hs. destruct (quiet_count_up_to b s) as (Hd & _ & Ht). simpl.
    destruct (count_up_to b s) as [r s']. simpl in Hd, Ht. apply same_dur; [done|exact Hd|].
    unfold tx. rewrite Ht. apply Hs.
  - intros limit s. apply fetch_law.
  - intros ids s. apply acknowledge_law.
  - intros s Hs. pose proof (mark_spec True reliable_T (dur s) s (sound_kept s Hs)) as Hp. simpl.
    destruct (mark_revocation_pending s) as [st s']. simpl in Hp. unfold Committed in Hp. destruct (ok st).
    + destruct Hp as [Hd Ht]. unfold sqlite_sound, sqlite_rows, sqlite_marked, rowids_unique. rewrite Hd. simpl.
      split; [split; [done|apply Hs]|]. split; [done|]. rewrite lookup_insert_eq.
      by rewrite bool_decide_true by eauto.
    + destruct Hp as [Hd Ht]. destruct (same_dur s s' Hs Hd (Ht I)) as (? & ? & ?). done.
  - intros s Hs. pose proof (purge_spec True reliable_T (dur s) s (sound_kept s Hs)) as Hp. simpl.
    destruct (purge_and_clear_revocation s) as [[st n] s']. simpl in Hp. destruct (ok st).
    + destruct Hp as (Hd & _ & Ht). unfold sqlite_sound, sqlite_rows, sqlite_marked, rowids_unique. rewrite Hd. simpl.
      split; [split; [done|constructor]|]. split; [done|]. rewrite lookup_delete_eq.
      by rewrite bool_decide_false by (intros [? ?]; done).
    + destruct Hp as [[Hd Ht] _]. destruct (same_dur s s' Hs Hd (Ht I)) as (? & ? & ?). done.
  - intros s Hs. pose proof (revocation_pending_spec (dur s) s (sound_idle s Hs)) as Hp. simpl.
    destruct (revocation_pending s) as [[st b] s']. simpl in Hp. destruct Hp as [[Hd Ht] Hb].
    destruct (same_dur s s' Hs Hd Ht) as (? & ? & ?). repeat (split; [done|]).
    intros Hok. by rewrite Hok in Hb.
  - intros s Hs. by apply open_law.
Defined.

End Instance_.
