(* ===== verification/StoreHealth.v ===== *)
(** A store on which nothing fails.

    The laws of StoreIface.v hold whatever fails, so they never promise
    success. [StoreWorks] is the other half: in a [healthy] state every operation
    succeeds on inputs it can take. [SqliteStore] has it on a connection without
    failures ([Faultless]), as long as no fault hook is installed. *)
From S2P Require Import Prelude Types Serializer SqlText Sqlite Store StoreSpec StoreIface.

Local Open Scope Z_scope.
Local Open Scope pt_scope.

(** * The interface *)

(** Text that SQLite can bind. *)
Definition fits (t : string) : Prop := ssize t <= int_max.

Definition fitting (r : StoredRecord) : Prop :=
  fits (sr_event_id r) /\ fits (sr_session_id r) /\ fits (sr_payload r).

(** The operations succeed and the store stays healthy. *)
Class StoreWorks (S : Type) `{!StoreOps S} `{!StoreLaws S} : Type := {
  healthy : S -> Prop;
  healthy_insert records s : sound s -> healthy s -> Forall fitting records ->
    let '(st, s') := store_insert records s in ok st = true /\ healthy s';
  healthy_count s : sound s -> healthy s ->
    let '((st, _), s') := store_count s in ok st = true /\ healthy s';
  healthy_count_up_to b s : sound s -> healthy s ->
    let '((st, _), s') := store_count_up_to b s in ok st = true /\ healthy s';
  healthy_fetch limit s : sound s -> healthy s -> 0 <= limit -> Forall (fun r => row_event r <> None) (rows s) ->
    let '(r, s') := store_fetch_pending limit s in ok (fr_status r) = true /\ healthy s';
  healthy_acknowledge ids s : sound s -> healthy s -> Forall fits ids ->
    vsize (filter (fun r => in_ids ids r = true) (rows s)) = vsize ids ->
    let '((st, _), s') := store_acknowledge ids s in ok st = true /\ healthy s';
  healthy_mark s : sound s -> healthy s ->
    let '(st, s') := store_mark_revocation_pending s in ok st = true /\ healthy s';
  healthy_purge s : sound s -> healthy s ->
    let '((st, _), s') := store_purge_and_clear_revocation s in ok st = true /\ healthy s'
}.

(** A connection on which no call fails: documented calls in a state where they
    are allowed. *)
Class Faultless (W : Type) `{!SqliteApi W} `{!SqliteSpec W} : Type := {
  calm : W -> Prop;
  calm_prepare sql w : calm w -> let '(rc, w') := sqlite3_prepare_v2 sql w in rc = SQLITE_OK /\ calm w';
  calm_bind i x w : calm w -> let '(rc, w') := sqlite3_bind i x w in rc = SQLITE_OK /\ calm w';
  calm_reset w : calm w -> let '(rc, w') := sqlite3_reset w in rc = SQLITE_OK /\ calm w';
  calm_clear w : calm w -> let '(rc, w') := sqlite3_clear_bindings w in rc = SQLITE_OK /\ calm w';
  calm_finalize w : calm w -> calm (snd (sqlite3_finalize w));
  calm_begin w : calm w -> in_tx view w = false ->
    let '((rc, _), w') := sqlite3_exec sql_begin w in rc = SQLITE_OK /\ calm w';
  calm_commit w : calm w -> in_tx view w = true ->
    let '((rc, _), w') := sqlite3_exec sql_commit w in rc = SQLITE_OK /\ calm w';
  calm_exec sql w : calm w -> in_tx view w = true -> sql ∈ [sql_delete_all; sql_mark; sql_unmark] ->
    let '((rc, _), w') := sqlite3_exec sql w in rc = SQLITE_OK /\ calm w';
  calm_step sql args w : calm w -> in_tx view w = true -> sql ∈ [sql_insert; sql_delete_id] ->
    let '(rc, w') := sqlite3_step sql args w in rc = SQLITE_DONE /\ calm w';
  calm_query sql args w : calm w ->
    let '((rows, rc), w') := sqlite3_query sql args w in
    rc = SQLITE_DONE /\ calm w' /\
    (sql = sql_count /\ args = [] \/ (exists b, sql = sql_count_up_to /\ args = [SqlInt b]) -> rows <> [])
}.

(** * SqliteStore on such a connection *)

Section Works.
Context {W : Type} `{!SqliteApi W} `{!SqliteSpec W} `{!Faultless W}.
Context (accept : string -> library_call bool).
#[local] Abbreviation St := (SqliteStore W).

(** No hook is installed, the connection is calm; whether a transaction is open. *)
Definition Fine (b : bool) (s : St) : Prop := fault_hook_ s = false /\ calm (conn s) /\ tx s = b.

Lemma fine_conn {A} b b' (m : M W A) (Q : A -> Prop) :
  (forall w, calm w -> in_tx view w = b ->
     let '(a, w') := m w in Q a /\ calm w' /\ in_tx view w' = b') ->
  hoare (Fine b) (on_conn m) (fun a s => Q a /\ Fine b' s).
Proof using.
  intros Hm s (Hh & Hc & Ht). unfold on_conn. specialize (Hm (conn s) Hc Ht).
  destruct (m (conn s)) as [a w']. destruct Hm as (? & ? & ?). by split.
Qed.

(** Calls that touch no data. *)
Lemma fine_quiet {A} b (m : M W A) (Q : A -> Prop) :
  (forall w, same_data view w (snd (m w))) ->
  (forall w, calm w -> let '(a, w') := m w in Q a /\ calm w') ->
  hoare (Fine b) (on_conn m) (fun a s => Q a /\ Fine b s).
Proof using.
  intros Hs Hm. apply fine_conn. intros w Hc Ht. specialize (Hs w). specialize (Hm w Hc).
  destruct (m w) as [a w']. destruct Hs as (_ & _ & Hs). destruct Hm as [? ?]. simpl in Hs. by rewrite Hs.
Qed.

Lemma fine_prepare b sql : hoare (Fine b) (on_conn (sqlite3_prepare_v2 sql)) (fun rc s => rc = SQLITE_OK /\ Fine b s).
Proof using. apply (fine_quiet b _ (fun rc => rc = SQLITE_OK)); [apply spec_prepare|apply calm_prepare]. Qed.

Lemma fine_bind b i x : hoare (Fine b) (on_conn (sqlite3_bind i x)) (fun rc s => rc = SQLITE_OK /\ Fine b s).
Proof using. apply (fine_quiet b _ (fun rc => rc = SQLITE_OK)); [apply spec_bind|apply calm_bind]. Qed.

Lemma fine_reset b : hoare (Fine b) (on_conn sqlite3_reset) (fun rc s => rc = SQLITE_OK /\ Fine b s).
Proof using. apply (fine_quiet b _ (fun rc => rc = SQLITE_OK)); [apply spec_reset|apply calm_reset]. Qed.

Lemma fine_clear b : hoare (Fine b) (on_conn sqlite3_clear_bindings) (fun rc s => rc = SQLITE_OK /\ Fine b s).
Proof using. apply (fine_quiet b _ (fun rc => rc = SQLITE_OK)); [apply spec_clear|apply calm_clear]. Qed.

Lemma fine_guarded {A} b (P : St -> Prop) (m : M St A) (R : A -> Prop) :
  hoare P m (fun a s => R a /\ Fine b s) -> hoare P (guarded m) (fun a s => R a /\ Fine b s).
Proof using.
  intros Hm. eapply hoare_then; [exact Hm|]. intros a. apply hoare_given. intros Ha.
  eapply hoare_then; [apply (fine_quiet b _ (fun _ => True)); [apply spec_finalize|]|].
  - intros w Hc. pose proof (calm_finalize w Hc) as Hf. by destruct (sqlite3_finalize w).
  - intros rc. apply hoare_return. by intros s [_ ?].
Qed.

Lemma fine_bind_string b i t : fits t -> hoare (Fine b) (bind_string i t) (fun rc s => rc = SQLITE_OK /\ Fine b s).
Proof using.
  intros Ht. unfold bind_string. destruct (Z.ltb_spec int_max (ssize t)); [unfold fits in Ht; lia|]. apply fine_bind.
Qed.

Lemma fine_chain b calls :
  Forall (fun c => hoare (Fine b) c (fun rc s => rc = SQLITE_OK /\ Fine b s)) calls ->
  hoare (Fine b) (bind_chain calls) (fun r s => r = true /\ Fine b s).
Proof using.
  induction 1 as [|c cs Hc _ IH]; simpl; [by apply hoare_return|].
  eapply hoare_then; [exact Hc|]. intros rc. apply hoare_given. by intros ->.
Qed.

Lemma fine_fault b op : hoare (Fine b) (fault op) (fun f s => f = false /\ Fine b s).
Proof using. intros s Hs. unfold fault. rewrite mget_then. destruct Hs as (Hh & ? & ?). by rewrite Hh. Qed.

(** A statement run by [exec], given what the call answers. *)
Lemma fine_exec b b' sql :
  (forall w, calm w -> in_tx view w = b ->
     let '((rc, _), w') := sqlite3_exec sql w in rc = SQLITE_OK /\ calm w') ->
  (forall w e w', in_tx view w = b -> sqlite3_exec sql w = ((SQLITE_OK, e), w') -> in_tx view w' = b') ->
  hoare (Fine b) (exec sql) (fun st s => st = status_ok /\ Fine b' s).
Proof using.
  intros Hc Ht. unfold exec. eapply hoare_then.
  - apply (fine_conn b b' _ (fun r => fst r = SQLITE_OK)). intros w Hw Hb. specialize (Hc w Hw Hb).
    destruct (sqlite3_exec sql w) as [[rc e] w'] eqn:E. destruct Hc as [-> ?]. split; [done|].
    split; [done|]. by eapply Ht.
  - intros [rc e]. apply hoare_given. simpl. intros ->. by apply hoare_return.
Qed.

Lemma fine_begin : hoare (Fine false) (exec sql_begin) (fun st s => st = status_ok /\ Fine true s).
Proof using.
  apply fine_exec; [apply calm_begin|]. intros w e w' _ E. apply (spec_begin W) in E as (_ & Hok & _).
  by destruct (Hok eq_refl) as (_ & ? & _).
Qed.

Lemma fine_commit : hoare (Fine true) (exec sql_commit) (fun st s => st = status_ok /\ Fine false s).
Proof using.
  apply fine_exec; [apply calm_commit|]. intros w e w' _ E. apply (spec_commit W) in E as (Hok & _). by apply Hok.
Qed.

Lemma fine_write sql :
  sql ∈ [sql_delete_all; sql_mark; sql_unmark] ->
  (forall w rc e w', sqlite3_exec sql w = ((rc, e), w') -> exists f, writes view SQLITE_OK f rc w w') ->
  hoare (Fine true) (exec sql) (fun st s => st = status_ok /\ Fine true s).
Proof using.
  intros Hin Hw. apply fine_exec; [intros w Hc Ht; by apply calm_exec|].
  intros w e w' Ht E. destruct (Hw _ _ _ _ E) as [f Hf]. destruct (Hf Ht) as [_ Hok]. by apply Hok.
Qed.

Lemma fine_step sql args :
  sql ∈ [sql_insert; sql_delete_id] ->
  (forall w rc w', sqlite3_step sql args w = (rc, w') -> exists f, writes view SQLITE_DONE f rc w w') ->
  hoare (Fine true) (on_conn (sqlite3_step sql args)) (fun rc s => rc = SQLITE_DONE /\ Fine true s).
Proof using.
  intros Hin Hw. apply (fine_conn true true _ (fun rc => rc = SQLITE_DONE)). intros w Hc Ht.
  pose proof (calm_step sql args w Hc Ht Hin) as Hs. destruct (sqlite3_step sql args w) as [rc w'] eqn:E.
  destruct Hs as [-> ?]. split; [done|]. split; [done|]. destruct (Hw _ _ _ E) as [f Hf]. destruct (Hf Ht) as [_ Hok]. by apply Hok.
Qed.

(** One call after the other: each succeeds, so the next one runs. *)
Ltac fine_next lem :=
  eapply hoare_then; [solve [eapply lem; eauto | apply lem]|]; intros ?; cbv beta; apply hoare_given; intros ->;
  cbn [negb andb ok code Z.eqb Pos.eqb SQLITE_OK SQLITE_DONE].

Lemma insert_loop_fine records :
  Forall fitting records -> hoare (Fine true) (insert_loop records) (fun st s => st = status_ok /\ Fine true s).
Proof using.
  induction 1 as [|r rs (F1 & F2 & F3) _ IH]; cbn [insert_loop]; [by apply hoare_return|].
  fine_next fine_fault.
  eapply hoare_then; [apply fine_chain|].
  { repeat (apply Forall_cons; split; [first [by apply fine_bind_string|apply fine_bind]|]). by apply Forall_nil. }
  intros bound. apply hoare_given. intros ->. cbn [negb].
  fine_next fine_fault.
  eapply hoare_then; [apply (fine_step sql_insert (insert_args r)); [by left|]|].
  { intros w rc w' E. eexists. by apply (spec_insert W) in E. }
  intros rc. apply hoare_given. intros ->. simpl. fine_next fine_reset. fine_next fine_clear. exact IH.
Qed.

Lemma insert_fine records :
  Forall fitting records -> hoare (Fine false) (insert records) (fun st s => st = status_ok /\ Fine false s).
Proof using.
  intros Hr. unfold insert. destruct records as [|r rs]; [by apply hoare_return|].
  fine_next fine_fault. fine_next fine_begin. fine_next fine_fault. fine_next fine_prepare.
  apply (fine_guarded false _ _ (fun st => st = status_ok)).
  eapply hoare_then; [by apply insert_loop_fine|]. intros st. apply hoare_given. intros ->. cbn [negb ok].
  fine_next fine_fault. fine_next fine_commit. by apply hoare_return.
Qed.

Lemma scalar_fine sql v :
  sql = sql_count /\ v = None \/ sql = sql_count_up_to /\ is_Some v ->
  hoare (Fine false) (scalar_uint64 sql v) (fun r s => fst r = status_ok /\ Fine false s).
Proof using.
  intros Hsql. unfold scalar_uint64. fine_next fine_prepare.
  apply (fine_guarded false _ _ (fun r => fst r = status_ok)).
  eapply (hoare_then _ (fun b s => b = SQLITE_OK /\ Fine false s)).
  { destruct v; [apply fine_bind|by apply hoare_return]. }
  intros b. apply hoare_given. intros ->. cbn [negb Z.eqb SQLITE_OK].
  eapply hoare_then.
  { apply (fine_quiet false (sqlite3_query sql (match v with Some v => [SqlInt (to_int64 v)] | None => [] end))
      (fun r => fst r <> [])); [apply spec_query|].
    intros w Hc. pose proof (calm_query sql (match v with Some v => [SqlInt (to_int64 v)] | None => [] end) w Hc) as Hq.
    destruct (sqlite3_query _ _ w) as [[rows rc] w']. destruct Hq as (_ & ? & Hne). split; [|done]. apply Hne.
    destruct Hsql as [[-> ->]|[-> [x ->]]]; [by left|right; eauto]. }
  intros [rows rc]. apply hoare_given. simpl. intros Hne. destruct rows as [|row rest]; [done|]. by apply hoare_return.
Qed.

Lemma count_fine : hoare (Fine false) count (fun r s => fst r = status_ok /\ Fine false s).
Proof using.
  unfold count. fine_next fine_fault. eapply hoare_then; [apply scalar_fine; by left|]. intros [st n].
  apply hoare_given. simpl. intros ->. by apply hoare_return.
Qed.

Lemma count_up_to_fine b : hoare (Fine false) (count_up_to b) (fun r s => fst r = status_ok /\ Fine false s).
Proof using.
  unfold count_up_to. fine_next fine_fault. eapply hoare_then; [apply scalar_fine; right; eauto|]. intros [st n].
  apply hoare_given. simpl. intros ->. by apply hoare_return.
Qed.

Lemma mark_fine : hoare (Fine false) mark_revocation_pending (fun st s => st = status_ok /\ Fine false s).
Proof using.
  unfold mark_revocation_pending. fine_next fine_fault. fine_next fine_begin.
  eapply hoare_then; [apply fine_write; [repeat first [by left|right]|]|].
  { intros w rc e w' E. eexists. by apply (spec_mark W) in E. }
  intros st. apply hoare_given. intros ->. simpl.
  fine_next fine_commit. by apply hoare_return.
Qed.

Lemma purge_fine : hoare (Fine false) purge_and_clear_revocation (fun r s => fst r = status_ok /\ Fine false s).
Proof using.
  unfold purge_and_clear_revocation. fine_next fine_fault. fine_next fine_begin.
  eapply hoare_then; [apply fine_write; [repeat first [by left|right]|]|].
  { intros w rc e w' E. eexists. by apply (spec_delete_all W) in E. }
  intros st. apply hoare_given. intros ->. simpl. apply hoare_read. intros removed. eapply hoare_pre; [|intros ? [Hs _]; exact Hs].
  eapply hoare_then; [apply fine_write; [repeat first [by left|right]|]|].
  { intros w rc e w' E. eexists. by apply (spec_unmark W) in E. }
  intros st. apply hoare_given. intros ->. simpl.
  fine_next fine_fault. fine_next fine_commit. by apply hoare_return.
Qed.

Lemma delete_ids_loop_fine removed ids :
  Forall fits ids -> hoare (Fine true) (delete_ids_loop removed ids) (fun r s => fst r = status_ok /\ Fine true s).
Proof using.
  intros Hf. revert removed. induction Hf as [|id ids Hid _ IH]; intros removed; cbn [delete_ids_loop]; [by apply hoare_return|].
  eapply hoare_then; [by apply fine_bind_string|]. intros rc. apply hoare_given. intros ->. cbn [negb Z.eqb SQLITE_OK].
  fine_next fine_fault.
  eapply hoare_then; [apply (fine_step sql_delete_id [SqlText id]); [by right; left|]|].
  { intros w rc w' E. eexists. by apply (spec_delete_id W) in E. }
  intros rc. apply hoare_given. intros ->. simpl. apply hoare_read. intros changes. eapply hoare_pre; [|intros ? [Hs _]; exact Hs].
  fine_next fine_reset. fine_next fine_clear. apply IH.
Qed.

Lemma delete_ids_fine ids :
  Forall fits ids -> hoare (Fine false) (delete_ids ids) (fun r s => fst r = status_ok /\ Fine false s).
Proof using.
  intros Hf. unfold delete_ids. destruct ids as [|id ids]; [by apply hoare_return|].
  fine_next fine_fault. fine_next fine_begin. fine_next fine_prepare.
  apply (fine_guarded false _ _ (fun r => fst r = status_ok)).
  eapply hoare_then; [by apply delete_ids_loop_fine|]. intros [st n]. apply hoare_given. simpl. intros ->. simpl.
  fine_next fine_fault. fine_next fine_commit. by apply hoare_return.
Qed.

(** The committed contents are [d]; nothing unusable is among them. *)
Lemma fetch_fine d limit :
  Forall (fun r => bad_row accept r = false) (db_events d) ->
  hoare (fun s => Fine false s /\ dur s = d) (fetch_pending accept limit)
    (fun r s => fr_status r = status_ok /\ Fine false s).
Proof using.
  intros Hd.
  assert (forall (A : Type) (m : M St A) (Q : A -> Prop), quiet m -> hoare (Fine false) m (fun a s => Q a /\ Fine false s) ->
    hoare (fun s => Fine false s /\ dur s = d) m (fun a s => Q a /\ (Fine false s /\ dur s = d))) as Hq.
  { intros A m Q Hm Hf s [Hs Hds]. destruct (Hf s Hs) as [? ?]. destruct (Hm s) as (Hdur & _). split; [done|].
    split; [done|]. unfold dur in *. by rewrite Hdur. }
  unfold fetch_pending.
  eapply hoare_then; [apply (Hq _ _ (fun f => f = false)); [apply quiet_fault|apply fine_fault]|].
  intros f. apply hoare_given. intros ->.
  eapply hoare_then; [apply (Hq _ _ (fun rc => rc = SQLITE_OK)); [apply quiet_prepare|apply fine_prepare]|].
  intros rc. apply hoare_given. intros ->. cbn [negb Z.eqb SQLITE_OK].
  apply (fine_guarded false _ _ (fun r => fr_status r = status_ok)).
  eapply hoare_then; [apply (Hq _ _ (fun rc => rc = SQLITE_OK)); [apply quiet_bind_int64|apply fine_bind]|].
  intros rc. apply hoare_given. intros ->. cbn [negb Z.eqb SQLITE_OK].
  set (n := if int_max <? limit then int_max else limit).
  eapply (hoare_then _ (fun r s => (snd r = SQLITE_DONE /\ snd (fetch_loop accept (fst r)) = []) /\ Fine false s)).
  - intros s [(Hh & Hc & Ht) Hds]. unfold on_conn. pose proof (calm_query sql_fetch [SqlInt n] (conn s) Hc) as Hcq.
    pose proof (spec_query W sql_fetch [SqlInt n] (conn s)) as Hsd.
    destruct (sqlite3_query sql_fetch [SqlInt n] (conn s)) as [[rows rc] w'] eqn:E.
    destruct Hcq as (-> & Hc' & _). apply (spec_fetch W) in E as (sorted & k & Hp & _ & _ & -> & _).
    destruct Hsd as (_ & _ & Ht'). unfold Fine, tx in *. simpl in *. rewrite Ht'. split; [|done]. split; [done|].
    rewrite fetch_loop_rows. simpl. rewrite (spec_idle W) in Hp by exact Ht. unfold dur in Hds. rewrite Hds in Hp.
    destruct (filter _ (take k sorted)) as [|x l] eqn:Ef; [done|]. exfalso.
    assert (x ∈ filter (fun r => bad_row accept r = true) (take k sorted)) as [Hb Hx]%list_elem_of_filter by (rewrite Ef; by left).
    assert (x ∈ db_events d) as Hin by (rewrite <- Hp, <- (take_drop k sorted); by apply elem_of_app; left).
    rewrite Forall_forall in Hd. specialize (Hd x Hin). congruence.
  - intros [rows rc]. apply hoare_given. simpl. intros [-> Hcor]. destruct (fetch_loop accept rows) as [events corrupt].
    simpl in Hcor. subst corrupt. by apply hoare_return.
Qed.

End Works.

Section Instance_.
Context {W : Type} `{!SqliteApi W} `{!SqliteSpec W} `{!RollbackReliable W} `{!Faultless W}.
Context (accept : string -> library_call bool).
#[local] Abbreviation St := (SqliteStore W).
#[local] Instance the_ops : StoreOps St := sqlite_ops accept.
#[local] Instance the_laws : StoreLaws St := sqlite_laws accept.

(** The store is not stuck in anything and nothing will fail. *)
Definition sqlite_healthy (s : St) : Prop := fault_hook_ s = false /\ calm (conn s).

Lemma sound_fine s : sqlite_sound s -> sqlite_healthy s -> Fine false s.
Proof using. by intros [Ht _] [Hh Hc]. Qed.

(** From a triple to a law of the interface. *)
Lemma works_of {A} (answer : A -> Status) (m : M St A) s :
  hoare (Fine false) m (fun a s => answer a = status_ok /\ Fine false s) -> sqlite_sound s -> sqlite_healthy s ->
  ok (answer (fst (m s))) = true /\ sqlite_healthy (snd (m s)).
Proof using. intros Hm Hs Hh. destruct (Hm s (sound_fine s Hs Hh)) as [-> (? & ? & _)]. done. Qed.

Lemma acknowledge_works ids s :
  sqlite_sound s -> sqlite_healthy s -> Forall fits ids ->
  vsize (filter (fun r => in_ids ids r = true) (sqlite_rows s)) = vsize ids ->
  let '((st, _), s') := acknowledge ids s in ok st = true /\ sqlite_healthy s'.
Proof using RollbackReliable0.
  intros Hs Hh Hf Hn. destruct (decide (ids = [])) as [->|Hne]; [done|].
  pose proof (delete_ids_fine ids Hf s (sound_fine s Hs Hh)) as Hd.
  pose proof (delete_ids_spec True reliable_T (dur s) ids Hne s (sound_kept s Hs)) as Hp.
  unfold acknowledge, mthen. destruct (delete_ids ids s) as [[st n] s']. destruct Hd as [Hst Hfine]. simpl in Hst. subst st.
  destruct Hp as [[_ Hcount] _]. cbn [fst snd] in Hcount.
  assert (n = vsize ids) as ->.
  { rewrite <- Hn, Hcount. unfold sqlite_rows, content, vsize. rewrite <- (length_fmap strip). do 2 f_equal. clear.
    induction (db_events (dur s)) as [|r l IH]; [done|]. rewrite fmap_cons, !filter_cons, in_ids_strip.
    destruct (decide _); [|done]. by rewrite fmap_cons, IH. }
  simpl. rewrite Z.eqb_refl. simpl. split; [done|]. by destruct Hfine as (? & ? & _).
Qed.

#[export] Instance sqlite_works : @StoreWorks St (sqlite_ops accept) (sqlite_laws accept).
Proof using Faultless0 RollbackReliable0.
  refine {| healthy := sqlite_healthy |}.
  - intros records s Hs Hh Hf. pose proof (works_of id _ s (insert_fine records Hf) Hs Hh) as Hp.
    simpl. by destruct (insert records s).
  - intros s Hs Hh. pose proof (works_of fst _ s count_fine Hs Hh) as Hp. simpl. by destruct (count s) as [[? ?] ?].
  - intros b s Hs Hh. pose proof (works_of fst _ s (count_up_to_fine b) Hs Hh) as Hp.
    simpl. by destruct (count_up_to b s) as [[? ?] ?].
  - intros limit s Hs Hh _ Hu. simpl.
    assert (Forall (fun r => bad_row accept r = false) (db_events (dur s))) as Hd.
    { apply Forall_forall. intros r Hin. apply not_true_iff_false. intros Hb. rewrite Forall_forall in Hu.
      apply (Hu (strip r)); [by apply list_elem_of_fmap_2|]. by apply row_event_none. }
    destruct (fetch_fine accept (dur s) limit Hd s (conj (sound_fine s Hs Hh) eq_refl)) as [Hp (Hh' & Hc & _)].
    destruct (fetch_pending accept limit s) as [r s']. simpl in Hp. by rewrite Hp.
  - intros ids s. apply acknowledge_works.
  - intros s Hs Hh. pose proof (works_of id _ s mark_fine Hs Hh) as Hp. simpl. by destruct (mark_revocation_pending s).
  - intros s Hs Hh. pose proof (works_of fst _ s purge_fine Hs Hh) as Hp. simpl.
    by destruct (purge_and_clear_revocation s) as [[? ?] ?].
Defined.

End Instance_.

(** The reference connection without faults to come. *)
#[export] Instance ref_faultless : @Faultless RefDb.conn RefDb.api RefDb.spec.
Proof.
  refine {| calm := fun w => RefDb.r_faults w = [] |}.
  - intros sql [d t c fs h] Hf. simpl in *. subst fs. done.
  - done.
  - done.
  - done.
  - done.
  - intros [d t c fs h] Hf Ht. simpl in *. subst fs. by destruct t.
  - intros [d t c fs h] Hf Ht. simpl in *. subst fs. by destruct t.
  - intros sql [d t c fs h] Hf Ht Hin. simpl in *. subst fs. destruct t; [|done].
    apply elem_of_cons in Hin as [->|Hin]; [done|]. apply elem_of_cons in Hin as [->|Hin]; [done|].
    by apply list_elem_of_singleton in Hin as ->.
  - intros sql args [d t c fs h] Hf Ht _. simpl in *. subst fs. unfold RefDb.step, RefDb.faulty, mthen, mreturn. simpl.
    destruct t; [|done]. by destruct (RefDb.step_stmt sql args).
  - intros sql args [d t c fs h] Hf. simpl in *. subst fs. simpl. split; [done|]. split; [done|].
    intros [[-> ->]|(b & -> & ->)]; done.
Defined.
