(* ===== verification/Refinement.v ===== *)
(** SqliteStore refines an abstract durable queue.

    The abstract store keeps the pending rows and one flag, a purge is owed.
    Its step relation says what each operation may answer and do, failures
    included: a failed operation leaves the abstract state alone, except that a
    failed acknowledgement may have removed the acknowledged rows. *)
From S2P Require Import Prelude Types Serializer SqlText Sqlite Store StoreSpec StoreIface.

Local Open Scope Z_scope.
Local Open Scope pt_scope.

(** * The abstract store *)

Record AStore : Type := mkAStore { a_rows : list Row; a_owed : bool }.

(** The operations of the store that the client and the worker call. *)
Inductive store_op : Type :=
| SInsert (records : list StoredRecord)
| SCount
| SMaxOrdinal
| SCountUpTo (barrier : Z)
| SFetch (limit : Z)
| SAcknowledge (ids : list string)
| SMark
| SPurge
| SOwed.

(** What an operation answers: its status with a number, or a fetch result. *)
Inductive store_answer : Type :=
| Answer (st : Status) (n : Z)
| Fetched (r : FetchResult).

(** The arguments the callers respect. *)
Definition op_valid (op : store_op) : Prop :=
  match op with
  | SInsert records => Forall valid_record records
  | SCountUpTo b => 0 <= b < 9223372036854775808
  | SFetch limit => 0 <= limit
  | _ => True
  end.

(** [usable r]: the event a row is delivered as. *)
Inductive astep (usable : Row -> option SerializedEvent) : AStore -> store_op -> store_answer -> AStore -> Prop :=
| a_insert a records st n : ok st = true ->
    astep usable a (SInsert records) (Answer st n) (mkAStore (foldl insert_one (a_rows a) records) (a_owed a))
| a_insert_fails a records st n : ok st = false -> astep usable a (SInsert records) (Answer st n) a
| a_count a st n : (ok st = true -> n = vsize (a_rows a)) -> astep usable a SCount (Answer st n) a
| a_max a st n : (ok st = true -> Forall (fun r => row_ordinal r <= n) (a_rows a)) ->
    astep usable a SMaxOrdinal (Answer st n) a
| a_count_up_to a b st n : (ok st = true -> n = vsize (filter (fun r => row_ordinal r <= b) (a_rows a))) ->
    astep usable a (SCountUpTo b) (Answer st n) a
| a_fetch a limit r sorted :
    sorted ≡ₚ a_rows a -> StronglySorted row_le sorted -> ok (fr_status r) = true ->
    fr_events r = omap usable (take (Z.to_nat (Z.min limit int_max)) sorted) ->
    astep usable a (SFetch limit) (Fetched r) a
| a_quarantine a limit r sorted k left_ :
    sorted ≡ₚ a_rows a -> StronglySorted row_le sorted -> ok (fr_status r) = false ->
    fr_events r = omap usable (take k sorted) ->
    (left_ = a_rows a /\ fr_quarantined r = 0 \/
     left_ ++ filter (fun x => usable x = None) (take k sorted) ≡ₚ a_rows a /\
     fr_quarantined r = vsize (filter (fun x => usable x = None) (take k sorted))) ->
    astep usable a (SFetch limit) (Fetched r) (mkAStore left_ (a_owed a))
| a_acknowledge a ids st n : ok st = true ->
    vsize (filter (fun r => in_ids ids r = true) (a_rows a)) = vsize ids ->
    astep usable a (SAcknowledge ids) (Answer st n)
      (mkAStore (filter (fun r => in_ids ids r = false) (a_rows a)) (a_owed a))
| a_acknowledge_fails a ids st n : ok st = false -> astep usable a (SAcknowledge ids) (Answer st n) a
| a_acknowledge_partial a ids st n : ok st = false ->
    astep usable a (SAcknowledge ids) (Answer st n)
      (mkAStore (filter (fun r => in_ids ids r = false) (a_rows a)) (a_owed a))
| a_mark a st n : astep usable a SMark (Answer st n) (mkAStore (a_rows a) (if ok st then true else a_owed a))
| a_purge a st n : ok st = true -> astep usable a SPurge (Answer st n) (mkAStore [] false)
| a_purge_fails a st n : ok st = false -> astep usable a SPurge (Answer st n) a
| a_owed_read a st n : (ok st = true -> n = if a_owed a then 1 else 0) -> astep usable a SOwed (Answer st n) a.

(** Runs of the abstract store. *)
Inductive atrace (usable : Row -> option SerializedEvent) : AStore -> list store_op -> list store_answer -> AStore -> Prop :=
| atrace_nil a : atrace usable a [] [] a
| atrace_cons a op ans b ops anss c :
    astep usable a op ans b -> atrace usable b ops anss c -> atrace usable a (op :: ops) (ans :: anss) c.

(** * The implementation *)

Section Refinement.
Context {S : Type} `{!StoreOps S} `{!StoreLaws S}.

Definition answer_of (m : M S (Status * Z)) : M S store_answer :=
  let* (st, n) := m in mreturn (Answer st n).

(** One call of the store. *)
Definition run_op (op : store_op) : M S store_answer :=
  match op with
  | SInsert records => let* st := store_insert records in mreturn (Answer st 0)
  | SCount => answer_of store_count
  | SMaxOrdinal => answer_of store_max_ordinal
  | SCountUpTo b => answer_of (store_count_up_to b)
  | SFetch limit => let* r := store_fetch_pending limit in mreturn (Fetched r)
  | SAcknowledge ids => answer_of (store_acknowledge ids)
  | SMark => let* st := store_mark_revocation_pending in mreturn (Answer st 0)
  | SPurge => answer_of store_purge_and_clear_revocation
  | SOwed => let* (st, b) := store_revocation_pending in mreturn (Answer st (if b : bool then 1 else 0))
  end.

Fixpoint run_ops (ops : list store_op) : M S (list store_answer) :=
  match ops with
  | [] => mreturn []
  | op :: ops' => let* a := run_op op in let* rest := run_ops ops' in mreturn (a :: rest)
  end.

(** The abstraction function. *)
Definition abstract (s : S) : AStore := mkAStore (rows s) (marked s).

Lemma abstract_same s s' : rows s' = rows s -> marked s' = marked s -> abstract s' = abstract s.
Proof. unfold abstract. by intros -> ->. Qed.

Lemma read_refines (m : M S (Status * Z)) op s :
  (let '((st, n), s') := m s in sound s' /\ abstract s' = abstract s /\ astep row_event (abstract s) op (Answer st n) (abstract s)) ->
  let '(a, s') := answer_of m s in sound s' /\ astep row_event (abstract s) op a (abstract s').
Proof.
  unfold answer_of, mthen. destruct (m s) as [[st n] s']. intros (Hs & He & Ha). simpl. by rewrite He.
Qed.

(** Every call simulates a step of the abstract store. *)
Lemma fetch_refines limit s :
  sound s -> 0 <= limit ->
  let '(a, s') := run_op (SFetch limit) s in sound s' /\ astep row_event (abstract s) (SFetch limit) a (abstract s').
Proof.
  intros Hs Hv. cbn [run_op].
  unfold mthen. pose proof (law_fetch limit s Hs Hv) as Hl. destruct (store_fetch_pending limit s) as [r s'].
  destruct Hl as (Hs' & Hm & sorted & k & Hp & Hss & Hk & Hev & Hok & Hrows). split; [done|].
  destruct (ok (fr_status r)) eqn:E.
  - destruct (Hok eq_refl) as (-> & Hbad & Hq). rewrite (abstract_same s s'); [|destruct Hrows as [[_ ?]|[? _]]; [done|lia]|done].
    by eapply (a_fetch _ (abstract s) limit r sorted).
  - replace (abstract s') with (mkAStore (rows s') (marked s)) by (unfold abstract; congruence).
    eapply (a_quarantine _ (abstract s) limit r sorted k); [done|done|done|done|].
    destruct Hrows as [[? ?]|(? & ? & ?)]; [by left|by right].
Qed.

Lemma acknowledge_refines ids s :
  sound s ->
  let '(a, s') := run_op (SAcknowledge ids) s in sound s' /\ astep row_event (abstract s) (SAcknowledge ids) a (abstract s').
Proof.
  intros Hs. cbn [run_op].
  unfold answer_of, mthen. pose proof (law_acknowledge ids s Hs) as Hl. destruct (store_acknowledge ids s) as [[st n] s'].
  destruct Hl as (Hs' & Hm & Hyes & Hno). split; [done|]. destruct (ok st) eqn:E.
  - destruct (Hyes eq_refl) as [Hr Hlen].
    replace (abstract s') with (mkAStore (filter (fun r => in_ids ids r = false) (rows s)) (marked s))
      by (unfold abstract; congruence).
    apply (a_acknowledge _ (abstract s)); [done|]. simpl. rewrite Hr in Hlen.
    pose proof (vsize_filter_split (in_ids ids) (rows s)) as Hsplit. lia.
  - destruct (Hno eq_refl) as [Hr|Hr].
    + rewrite (abstract_same s s') by done. by apply a_acknowledge_fails.
    + replace (abstract s') with (mkAStore (filter (fun r => in_ids ids r = false) (rows s)) (marked s))
        by (unfold abstract; congruence). by apply (a_acknowledge_partial _ (abstract s)).
Qed.

Lemma run_op_refines op s :
  sound s -> op_valid op ->
  let '(a, s') := run_op op s in sound s' /\ astep row_event (abstract s) op a (abstract s').
Proof.
  intros Hs Hv. destruct op as [records| | |b|limit|ids| | |]; cbn [run_op].
  - unfold mthen. pose proof (law_insert records s Hs Hv) as Hl. destruct (store_insert records s) as [st s'].
    destruct Hl as (Hs' & Hm & Hr). split; [done|]. destruct (ok st) eqn:E.
    + replace (abstract s') with (mkAStore (foldl insert_one (rows s) records) (marked s))
        by (unfold abstract; congruence). by apply (a_insert _ (abstract s)).
    + rewrite (abstract_same s s') by done. by apply a_insert_fails.
  - apply read_refines. pose proof (law_count s Hs) as Hl. destruct (store_count s) as [[st n] s'].
    destruct Hl as (Hs' & Hm & Hr & Hn). split; [done|]. split; [by apply abstract_same|].
    apply a_count. intros E. by rewrite E in Hn.
  - apply read_refines. pose proof (law_max_ordinal s Hs) as Hl. destruct (store_max_ordinal s) as [[st n] s'].
    destruct Hl as (Hs' & Hm & Hr & Hn). split; [done|]. split; [by apply abstract_same|].
    apply a_max. intros E. by apply Hn.
  - apply read_refines. pose proof (law_count_up_to b s Hs Hv) as Hl. destruct (store_count_up_to b s) as [[st n] s'].
    destruct Hl as (Hs' & Hm & Hr & Hn). split; [done|]. split; [by apply abstract_same|].
    apply a_count_up_to. intros E. by rewrite E in Hn.
  - by apply (fetch_refines limit s).
  - by apply (acknowledge_refines ids s).
  - unfold mthen. pose proof (law_mark s Hs) as Hl. destruct (store_mark_revocation_pending s) as [st s'].
    destruct Hl as (Hs' & Hr & Hm). split; [done|].
    replace (abstract s') with (mkAStore (rows s) (if ok st then true else marked s)) by (unfold abstract; congruence).
    apply (a_mark _ (abstract s)).
  - unfold answer_of, mthen. pose proof (law_purge s Hs) as Hl. destruct (store_purge_and_clear_revocation s) as [[st n] s'].
    destruct Hl as [Hs' Hl]. split; [done|]. destruct (ok st) eqn:E; destruct Hl as [Hr Hm].
    + replace (abstract s') with (mkAStore [] false) by (unfold abstract; congruence). by apply a_purge.
    + rewrite (abstract_same s s') by done. by apply a_purge_fails.
  - unfold mthen. pose proof (law_revocation_pending s Hs) as Hl. destruct (store_revocation_pending s) as [[st b] s'].
    destruct Hl as (Hs' & Hm & Hr & Hb). split; [done|]. rewrite (abstract_same s s') by done.
    apply a_owed_read. simpl. intros E. by rewrite (Hb E).
Qed.

(** Any sequence of calls is a run of the abstract store. *)
Lemma run_ops_refines ops s :
  sound s -> Forall op_valid ops ->
  let '(answers, s') := run_ops ops s in sound s' /\ atrace row_event (abstract s) ops answers (abstract s').
Proof.
  intros Hs Hv. revert s Hs. induction Hv as [|op ops Hop _ IH]; intros s Hs; [split; [done|constructor]|].
  cbn [run_ops]. unfold mthen. pose proof (run_op_refines op s Hs Hop) as Hr.
  destruct (run_op op s) as [a s1]. destruct Hr as [Hs1 Hstep]. specialize (IH s1 Hs1).
  destruct (run_ops ops s1) as [answers s2]. destruct IH as [Hs2 Htr]. split; [done|]. by econstructor.
Qed.

End Refinement.

(** * The SQLite store *)

Section Sqlite.
Context {W : Type} `{!SqliteApi W} `{!SqliteSpec W} `{!RollbackReliable W}.
Context (accept : string -> library_call bool).
#[local] Instance ops_ : StoreOps (SqliteStore W) := sqlite_ops accept.
#[local] Instance laws_ : StoreLaws (SqliteStore W) := sqlite_laws accept.

(** C11: SqliteStore refines the abstract store. On every SQLite connection that
    behaves as documented, failures at any statement included, any sequence of
    store calls from an idle connection answers and leaves durable contents as
    some run of the abstract store does, and ends with no transaction open. *)
Theorem sqlite_refines_abstract_store ops (s : SqliteStore W) :
  tx s = false -> rowids_unique (dur s) -> Forall op_valid ops ->
  let '(answers, s') := run_ops ops s in
  tx s' = false /\ rowids_unique (dur s') /\
  atrace (sqlite_row_event accept) (mkAStore (sqlite_rows s) (sqlite_marked s)) ops answers
    (mkAStore (sqlite_rows s') (sqlite_marked s')).
Proof.
  intros Ht Hu Hv. pose proof (run_ops_refines ops s (conj Ht Hu) Hv) as Hr.
  destruct (run_ops ops s) as [answers s']. destruct Hr as [[Ht' Hu'] Htr]. split; [done|]. by split.
Qed.
End Sqlite.

#[local] Existing Instance RefDb.api.
#[local] Existing Instance RefDb.spec.
#[local] Existing Instance RefDb.reliable.

Lemma sqlite_refines_abstract_store_witness :
  let r := @run_ops (SqliteStore RefDb.conn) (sqlite_ops accept_all) [SInsert [sample_record]; SMark; SPurge; SCount] (ref_store empty_db) in
  exists answers, fst r = answers /\ length answers = 4%nat /\
    atrace (sqlite_row_event accept_all) (mkAStore [] false) [SInsert [sample_record]; SMark; SPurge; SCount] answers
      (mkAStore (sqlite_rows (snd r)) (sqlite_marked (snd r))).
Proof.
  intros r. exists (fst r). split; [reflexivity|]. split; [vm_compute; reflexivity|].
  assert (Forall op_valid [SInsert [sample_record]; SMark; SPurge; SCount]) as Hv.
  { constructor; [|repeat constructor]. constructor; [|constructor]. split; [discriminate|].
    apply (bool_decide_eq_true_1 (Ascii.zero ∉ chars (sr_event_id sample_record))). reflexivity. }
  pose proof (sqlite_refines_abstract_store accept_all [SInsert [sample_record]; SMark; SPurge; SCount]
    (ref_store empty_db) eq_refl ltac:(constructor) Hv) as Ha.
  unfold ops_ in Ha. fold r in Ha. rewrite (surjective_pairing r) in Ha. exact (proj2 (proj2 Ha)).
Defined.
