(* ===== verification/Statements.v ===== *)
(** The lifetime of prepared statements and of the database handle.

    SQLite closes a connection only when every statement prepared on it has been
    finalized; otherwise sqlite3_close answers SQLITE_BUSY and the handle, which
    [SqliteStore::close] forgets in any case, is lost. The class [HandleSpec] states
    what sqlite3.h documents about the number of live statements and of open
    handles. The theorem is that the guards of src/sqlite_store.cpp (class
    [StmtGuard], Store.v's [guarded]) release what was acquired on every path of
    every operation, whichever call fails. *)
From S2P Require Import Prelude Types Serializer SqlText Sqlite Store StoreSpec StoreIface Refinement.

Local Open Scope Z_scope.
Local Open Scope pt_scope.

(** * What SQLite counts *)

(** Statements prepared and not finalized, handles opened and not closed. *)
Record Handles (W : Type) : Type := mkHandles {
  live : W -> nat;
  connected : W -> nat
}.
Arguments mkHandles {W} _ _.
Arguments live {W} _ _.
Arguments connected {W} _ _.

Definition same_handles {W} (h : Handles W) (w w' : W) : Prop :=
  live h w' = live h w /\ connected h w' = connected h w.

(** The documented effect of each entry point on them. *)
Class HandleSpec (W : Type) `{!SqliteApi W} : Type := {
  handles : Handles W;
  handles_prepare sql w :
    let '(rc, w') := sqlite3_prepare_v2 sql w in
    live handles w' = (if rc =? SQLITE_OK then Datatypes.S (live handles w) else live handles w) /\
    connected handles w' = connected handles w;
  handles_finalize w :
    let w' := snd (sqlite3_finalize w) in
    live handles w' = Nat.pred (live handles w) /\ connected handles w' = connected handles w;
  handles_bind i x w : same_handles handles w (snd (sqlite3_bind i x w));
  handles_step sql args w : same_handles handles w (snd (sqlite3_step sql args w));
  handles_query sql args w : same_handles handles w (snd (sqlite3_query sql args w));
  handles_reset w : same_handles handles w (snd (sqlite3_reset w));
  handles_clear w : same_handles handles w (snd (sqlite3_clear_bindings w));
  handles_exec sql w : same_handles handles w (snd (sqlite3_exec sql w));
  handles_hook op w : same_handles handles w (snd (fault_hook op w));
  handles_open path w :
    let '((_, handle), w') := sqlite3_open path w in
    live handles w' = live handles w /\
    connected handles w' = (if handle : bool then Datatypes.S (connected handles w) else connected handles w);
  handles_close w :
    let '(rc, w') := sqlite3_close w in
    live handles w' = live handles w /\
    (live handles w = 0%nat -> rc = SQLITE_OK) /\
    connected handles w' = (if rc =? SQLITE_OK then Nat.pred (connected handles w) else connected handles w)
}.

Create HintDb steady.

Section Lifetime.
Context {W : Type} `{!SqliteApi W} `{!HandleSpec W}.
Context (accept : string -> library_call bool).
#[local] Abbreviation St := (SqliteStore W).
#[local] Instance ops_here : StoreOps St := sqlite_ops accept.

(** * A store from its construction to its destruction *)

(** [open], then any calls of a store that opened. *)
Definition use_store (ops : list store_op) : M St (Status * list store_answer) :=
  let* st := open in
  let* answers := (if ok st then run_ops ops else mreturn []) in
  mreturn (st, answers).

(** * Lemmas *)

(** [l] statements are live, [c] handles are open, and [db_] is set or not. *)
Definition Holds (l c : nat) (b : bool) (s : St) : Prop :=
  live handles (conn s) = l /\ connected handles (conn s) = c /\ db_ s = b.

(** A computation that releases whatever it acquires. *)
Definition steady {A} (m : M St A) : Prop := forall l c b, preserves (Holds l c b) m.

Lemma steady_return {A} (a : A) : steady (mreturn a).
Proof using. intros l c b. apply preserves_return. Qed.

Lemma steady_get {A} (f : St -> A) : steady (mget f).
Proof using. intros l c b. apply preserves_get. Qed.

Lemma steady_then {A B} (m : M St A) (k : A -> M St B) :
  steady m -> (forall a, steady (k a)) -> steady (mthen m k).
Proof using. intros Hm Hk l c b. apply preserves_then; [apply Hm|]. intros a. apply Hk. Qed.

Lemma steady_put (f : St -> St) :
  (forall s, conn (f s) = conn s /\ db_ (f s) = db_ s) -> steady (mput f).
Proof using. intros Hf l c b s Hs. destruct (Hf s) as [Hc Hd]. unfold Holds. simpl. by rewrite Hc, Hd. Qed.

Lemma steady_conn {A} (m : M W A) :
  (forall w, same_handles handles w (snd (m w))) -> steady (on_conn m).
Proof using.
  intros Hm l c b s (Hl & Hc & Hb). specialize (Hm (conn s)). unfold on_conn, Holds.
  destruct (m (conn s)) as [a w]. destruct Hm as [H1 H2]. simpl in *. by rewrite H1, H2.
Qed.

Lemma steady_fault op : steady (fault op).
Proof using. apply steady_then; [apply steady_get|]. intros []; [apply steady_conn, handles_hook|apply steady_return]. Qed.

Lemma steady_last_error c : steady (last_error c).
Proof using. apply steady_get. Qed.

Lemma steady_bind i x : steady (on_conn (sqlite3_bind i x)).
Proof using. apply steady_conn, handles_bind. Qed.

Lemma steady_bind_int64 i x : steady (bind_int64 i x).
Proof using. apply steady_bind. Qed.

Lemma steady_bind_string i x : steady (bind_string i x).
Proof using. unfold bind_string. destruct (_ <? _); [apply steady_return|apply steady_bind]. Qed.

Lemma steady_step sql args : steady (on_conn (sqlite3_step sql args)).
Proof using. apply steady_conn, handles_step. Qed.

Lemma steady_query sql args : steady (on_conn (sqlite3_query sql args)).
Proof using. apply steady_conn, handles_query. Qed.

Lemma steady_reset : steady (on_conn sqlite3_reset).
Proof using. apply steady_conn, handles_reset. Qed.

Lemma steady_clear : steady (on_conn sqlite3_clear_bindings).
Proof using. apply steady_conn, handles_clear. Qed.

Lemma steady_run sql : steady (on_conn (sqlite3_exec sql)).
Proof using. apply steady_conn, handles_exec. Qed.

Lemma steady_chain calls : Forall steady calls -> steady (bind_chain calls).
Proof using.
  induction 1 as [|m calls Hm _ IH]; simpl; [apply steady_return|].
  apply steady_then; [done|]. intros rc. destruct (_ =? _); [done|apply steady_return].
Qed.

(** A statement that was prepared is live inside its guard and gone after it. *)
Lemma steady_prepared {A} sql (failed body : M St A) :
  steady failed -> steady body ->
  steady (let* p := on_conn (sqlite3_prepare_v2 sql) in
          if negb (p =? SQLITE_OK) then failed else guarded body).
Proof using.
  intros Hf Hb l c b s (Hl & Hc & Hd). unfold mthen, on_conn.
  pose proof (handles_prepare sql (conn s)) as Hp. destruct (sqlite3_prepare_v2 sql (conn s)) as [p w].
  destruct Hp as [Hp1 Hp2]. destruct (p =? SQLITE_OK); simpl.
  - unfold guarded, mthen, on_conn.
    assert (Holds (Datatypes.S l) c b (set_conn w s)) as Hs1 by (unfold Holds; simpl; by rewrite Hp1, Hp2, Hl, Hc).
    specialize (Hb _ _ _ _ Hs1). destruct (body (set_conn w s)) as [a s1]. destruct Hb as (Hl1 & Hc1 & Hd1).
    pose proof (handles_finalize (conn s1)) as [Hz1 Hz2]. destruct (sqlite3_finalize (conn s1)) as [rc w2].
    simpl in *. unfold Holds. simpl. by rewrite Hz1, Hz2, Hl1, Hc1.
  - apply Hf. unfold Holds. simpl. by rewrite Hp1, Hp2.
Qed.

#[local] Hint Resolve steady_return steady_get steady_fault steady_last_error steady_bind steady_bind_int64
  steady_bind_string steady_step steady_query steady_reset steady_clear steady_run steady_chain : steady.
#[local] Hint Resolve Forall_nil_2 Forall_cons_2 : steady.

Ltac steadily :=
  repeat first
    [ progress intros
    | solve [eauto 10 with steady]
    | apply steady_prepared
    | apply steady_then
    | match goal with |- steady (if ?b then _ else _) => destruct b end
    | match goal with |- steady (let '(_, _) := ?p in _) => destruct p end
    | match goal with |- steady (match ?p with _ => _ end) => destruct p end ].

Lemma steady_exec sql : steady (exec sql).
Proof using. unfold exec. steadily. Qed.
#[local] Hint Resolve steady_exec : steady.

Lemma steady_rollback : steady rollback.
Proof using. unfold rollback. steadily. Qed.
#[local] Hint Resolve steady_rollback : steady.

Lemma steady_abandon st : steady (abandon st).
Proof using. unfold abandon. steadily. Qed.
#[local] Hint Resolve steady_abandon : steady.

Lemma steady_abandon_last c : steady (abandon_last c).
Proof using. unfold abandon_last. steadily. Qed.
#[local] Hint Resolve steady_abandon_last : steady.

(** ** The data operations *)

Lemma steady_insert_loop records : steady (insert_loop records).
Proof using. induction records as [|r records IH]; simpl; steadily. Qed.
#[local] Hint Resolve steady_insert_loop : steady.

Lemma steady_insert records : steady (insert records).
Proof using. unfold insert. destruct records; steadily. Qed.

Lemma steady_scalar sql v : steady (scalar_uint64 sql v).
Proof using. unfold scalar_uint64. steadily. Qed.
#[local] Hint Resolve steady_scalar : steady.

Lemma steady_count : steady count.
Proof using. unfold count. steadily. Qed.

Lemma steady_count_up_to barrier : steady (count_up_to barrier).
Proof using. unfold count_up_to. steadily. Qed.

Lemma steady_delete_rowids_loop n rowids : steady (delete_rowids_loop n rowids).
Proof using. revert n. induction rowids as [|r rowids IH]; intros n; simpl; steadily. Qed.
#[local] Hint Resolve steady_delete_rowids_loop : steady.

Lemma steady_delete_rowids rowids : steady (delete_rowids rowids).
Proof using. unfold delete_rowids. destruct rowids; steadily. Qed.
#[local] Hint Resolve steady_delete_rowids : steady.

Lemma steady_delete_ids_loop n ids : steady (delete_ids_loop n ids).
Proof using. revert n. induction ids as [|r ids IH]; intros n; simpl; steadily. Qed.
#[local] Hint Resolve steady_delete_ids_loop : steady.

Lemma steady_delete_ids ids : steady (delete_ids ids).
Proof using. unfold delete_ids. destruct ids; steadily. Qed.
#[local] Hint Resolve steady_delete_ids : steady.

Lemma steady_acknowledge ids : steady (acknowledge ids).
Proof using. unfold acknowledge. steadily. Qed.

Lemma steady_fetch limit : steady (fetch_pending accept limit).
Proof using. unfold fetch_pending. steadily. Qed.

Lemma steady_mark : steady mark_revocation_pending.
Proof using. unfold mark_revocation_pending. steadily. Qed.

Lemma steady_purge : steady purge_and_clear_revocation.
Proof using. unfold purge_and_clear_revocation. steadily. Qed.

Lemma steady_revocation_pending : steady revocation_pending.
Proof using. unfold revocation_pending. steadily. Qed.

#[local] Hint Resolve steady_insert steady_count steady_count_up_to steady_acknowledge steady_fetch steady_mark
  steady_purge steady_revocation_pending : steady.

Lemma steady_run_op op : steady (run_op op).
Proof using. destruct op; simpl; unfold answer_of, max_ordinal; steadily. Qed.

Lemma steady_run_ops ops : steady (run_ops ops).
Proof using.
  induction ops as [|op ops IH]; simpl; [apply steady_return|]. apply steady_then; [apply steady_run_op|]. steadily.
Qed.

(** ** Opening and closing *)

Lemma steady_table_exists name : steady (table_exists name).
Proof using. unfold table_exists. steadily. Qed.

Lemma steady_read_version : steady read_schema_version.
Proof using. unfold read_schema_version. steadily. Qed.

Lemma steady_meta_shape : steady validate_meta_shape.
Proof using. unfold validate_meta_shape. steadily. Qed.

Lemma steady_events_check : steady validate_events_check.
Proof using. unfold validate_events_check. steadily. Qed.

Lemma steady_order_index : steady validate_order_index.
Proof using.
  unfold validate_order_index, check_index_table, check_index_list, check_index_info. steadily.
Qed.
#[local] Hint Resolve steady_table_exists steady_read_version steady_meta_shape steady_events_check steady_order_index : steady.

Lemma steady_events_shape : steady validate_events_shape.
Proof using. unfold validate_events_shape. steadily. Qed.
#[local] Hint Resolve steady_events_shape : steady.

Lemma steady_create_schema sqls : steady (create_schema sqls).
Proof using. induction sqls as [|sql sqls IH]; simpl; steadily. Qed.
#[local] Hint Resolve steady_create_schema : steady.

Lemma steady_inspect : steady inspect_and_prepare_schema.
Proof using. unfold inspect_and_prepare_schema, inspect_existing. steadily. Qed.

Lemma steady_set_journal : steady set_journal.
Proof using. unfold set_journal. steadily. by apply steady_put. Qed.
#[local] Hint Resolve steady_set_journal : steady.

(** Nothing is live, and the one handle there may be is the one in [db_]. *)
Definition Balanced (s : St) : Prop := exists b : bool, Holds 0 (if b then 1 else 0)%nat b s.

Lemma steady_balanced {A} (m : M St A) : steady m -> hoare Balanced m (fun _ => Balanced).
Proof using. intros Hm s [b Hs]. exists b. by apply Hm. Qed.

(** Closing succeeds: SQLITE_BUSY does not occur. *)
Lemma close_balanced : hoare Balanced close (fun st s => ok st = true /\ Holds 0 0 false s).
Proof using.
  intros s [b (Hl & Hc & Hd)]. unfold close. rewrite mget_then, Hd. destruct b; simpl; [|by repeat split].
  unfold mthen, on_conn. pose proof (handles_close (conn s)) as Hz. destruct (sqlite3_close (conn s)) as [rc w].
  destruct Hz as (H1 & H2 & H3). rewrite (H2 Hl) in *. simpl in *. split; [done|]. unfold Holds. simpl.
  by rewrite H1, H3, Hc.
Qed.

Lemma open_balanced : hoare (Holds 0 0 false) open (fun _ => Balanced).
Proof using.
  intros s (Hl & Hc & Hd). unfold open. rewrite mget_then. unfold mthen at 1. unfold on_conn at 1.
  pose proof (handles_open (c_str (path_ s)) (conn s)) as Ho.
  destruct (sqlite3_open (c_str (path_ s)) (conn s)) as [[rc handle] w]. destruct Ho as [H1 H2].
  match goal with |- Balanced (snd (mthen _ ?k _)) => change (Balanced (snd (k tt (set_db handle (set_conn w s))))) end.
  assert (Balanced (set_db handle (set_conn w s))) as Hs1.
  { exists handle. unfold Holds. simpl. rewrite H1, H2, Hl, Hc. by destruct handle. }
  revert Hs1. generalize (set_db handle (set_conn w s)). clear. intros s. revert s. cbv beta.
  match goal with |- forall s, Balanced s -> Balanced (snd (?m s)) => change (hoare Balanced m (fun _ => Balanced)) end.
  destruct (rc =? SQLITE_OK); simpl; [|apply steady_balanced, steady_last_error].
  eapply hoare_then; [apply steady_balanced, steady_inspect|]. intros st. destruct (ok st); simpl.
  - apply steady_balanced. steadily.
  - eapply hoare_then; [apply close_balanced|]. intros c. apply hoare_return. intros s [_ Hs]. by exists false.
Qed.

(** * Property *)

(** C17: Nothing is leaked. On every connection that behaves as documented,
    whichever calls fail, a store that was opened and used in any way has no
    statement left unfinalized; [close], and with it the destructor, succeeds, so
    SQLITE_BUSY is never the answer and the one handle that was opened is closed. *)
Theorem no_statement_left path w ops :
  live handles w = 0%nat -> connected handles w = 0%nat ->
  let s := snd (use_store ops (new_store path w)) in
  live handles (conn s) = 0%nat /\ ok (fst (close s)) = true /\
  (let s' := snd (destroy_store s) in
   db_ s' = false /\ live handles (conn s') = 0%nat /\ connected handles (conn s') = 0%nat).
Proof using.
  intros Hl Hc s. assert (Balanced s) as Hs.
  { assert (hoare (Holds 0 0 false) (use_store ops) (fun _ => Balanced)) as Hu.
    { eapply hoare_then; [apply open_balanced|]. intros st. apply steady_balanced.
      apply steady_then; [destruct (ok st); [apply steady_run_ops|apply steady_return]|]. steadily. }
    by apply (Hu (new_store path w)). }
  destruct (close_balanced s Hs) as [Hok (H1 & H2 & H3)]. split; [by destruct Hs as [b [? _]]|]. split; [done|].
  unfold destroy_store, mthen. by destruct (close s).
Qed.
End Lifetime.

(** * A connection that counts *)

Module Counting.

(** The reference connection with the number of live statements and of handles. *)
Record counted : Type := mkCounted { base : RefDb.conn; statements : nat; opened : nat }.

Definition through {A} (m : M RefDb.conn A) : M counted A := fun w =>
  let '(a, b) := m (base w) in (a, mkCounted b (statements w) (opened w)).

#[export] Instance api : SqliteApi counted := {
  sqlite3_open path w := let '(r, b) := @sqlite3_open _ RefDb.api path (base w) in
    (r, mkCounted b (statements w) (if snd r then S (opened w) else opened w));
  sqlite3_close w :=
    if (statements w =? 0)%nat
    then let '(rc, b) := @sqlite3_close _ RefDb.api (base w) in (SQLITE_OK, mkCounted b 0 (Nat.pred (opened w)))
    else (5, w);
  sqlite3_errmsg w := @sqlite3_errmsg _ RefDb.api (base w);
  sqlite3_exec sql := through (@sqlite3_exec _ RefDb.api sql);
  sqlite3_get_autocommit w := @sqlite3_get_autocommit _ RefDb.api (base w);
  sqlite3_changes w := @sqlite3_changes _ RefDb.api (base w);
  sqlite3_prepare_v2 sql w := let '(rc, b) := @sqlite3_prepare_v2 _ RefDb.api sql (base w) in
    (rc, mkCounted b (if rc =? SQLITE_OK then S (statements w) else statements w) (opened w));
  sqlite3_bind i x := through (@sqlite3_bind _ RefDb.api i x);
  sqlite3_step sql args := through (@sqlite3_step _ RefDb.api sql args);
  sqlite3_query sql args := through (@sqlite3_query _ RefDb.api sql args);
  sqlite3_reset := through (@sqlite3_reset _ RefDb.api);
  sqlite3_clear_bindings := through (@sqlite3_clear_bindings _ RefDb.api);
  sqlite3_finalize w := (SQLITE_OK, mkCounted (base w) (Nat.pred (statements w)) (opened w));
  sqlite3_column_text := @sqlite3_column_text _ RefDb.api;
  sqlite3_column_int64 := @sqlite3_column_int64 _ RefDb.api;
  fault_hook op := through (@fault_hook _ RefDb.api op)
}.

Lemma through_same {A} (m : M RefDb.conn A) w : same_handles (mkHandles statements opened) w (snd (through m w)).
Proof. unfold through. by destruct (m (base w)). Qed.

#[export] Instance counting : HandleSpec counted.
Proof.
  refine {| handles := mkHandles statements opened |}; intros; try apply through_same; cbn.
  - by destruct (RefDb.faulty _ _ _).
  - done.
  - destruct (RefDb.faulty _ _ _) as [[rc h] b]. by destruct h.
  - by destruct w as [b [|n] o].
Defined.

End Counting.

#[local] Existing Instance Counting.api.
#[local] Existing Instance Counting.counting.

(** The statement that inserts fails while the guard holds it. *)
Lemma no_statement_left_witness :
  let w := Counting.mkCounted (RefDb.mkConn empty_db None 0 (replicate 17 false ++ [true]) []) 0 0 in
  let r := use_store accept_all [SInsert [sample_record]] (new_store "db" w) in
  snd (fst r) = [Answer (storage_error "step insert: disk I/O error") 0] /\
  connected handles (conn (snd r)) = 1%nat /\
  ok (fst (close (snd r))) = true /\ connected handles (conn (snd (destroy_store (snd r)))) = 0%nat.
Proof.
  intros w r. split; [vm_compute; reflexivity|]. split; [vm_compute; reflexivity|].
  destruct (no_statement_left (HandleSpec0 := Counting.counting) accept_all "db" w [SInsert [sample_record]] eq_refl eq_refl)
    as (_ & Hok & _ & _ & Hc). exact (conj Hok Hc).
Defined.
