(* ===== verification/Pipeline.v ===== *)
(** The state shared by the client and the worker.

    [Pipeline] and [Stats] are the records of src/internal/pipeline.hpp and
    stats.hpp, [WorkerCore] the members of src/internal/worker.hpp, [Impl] the
    members of Client::Impl in src/client.cpp, and [Sys] is all of them
    together with the sink, the history variables used to state theorems, and
    the schedule of the other threads. The operations of Pipeline and the
    small operations of WorkerCore are defined here. The store is any
    implementation of [StoreOps]; the sink is application code, given by
    [SinkOps]. *)
From S2P Require Import Prelude Types Serializer Validator Queue Ids Session Sqlite Store StoreSpec StoreIface.

Local Open Scope Z_scope.
Local Open Scope pt_scope.

(** * Data *)

(** [enum class LifecycleState]. *)
Inductive LifecycleState : Type := Running | Stopping | Stopped.

#[export] Instance LifecycleState_eq_dec : EqDecision LifecycleState.
Proof. solve_decision. Defined.

(** [struct Stats]. *)
Record Stats : Type := mkStats {
  accepted : Z;
  dropped_queue_full : Z;
  dropped_storage_full : Z;
  discarded_consent : Z;
  dropped_invalid : Z;
  persisted : Z;
  delivered : Z;
  delivery_failures : Z
}.

(** The counters start at zero. *)
Definition zero_stats : Stats := mkStats 0 0 0 0 0 0 0 0.

(** [fetch_add] on each counter. *)
Definition add_accepted (n : Z) (s : Stats) : Stats :=
  mkStats (wrap64 (accepted s + n)) (dropped_queue_full s) (dropped_storage_full s) (discarded_consent s) (dropped_invalid s) (persisted s) (delivered s) (delivery_failures s).
Definition add_dropped_queue_full (n : Z) (s : Stats) : Stats :=
  mkStats (accepted s) (wrap64 (dropped_queue_full s + n)) (dropped_storage_full s) (discarded_consent s) (dropped_invalid s) (persisted s) (delivered s) (delivery_failures s).
Definition add_dropped_storage_full (n : Z) (s : Stats) : Stats :=
  mkStats (accepted s) (dropped_queue_full s) (wrap64 (dropped_storage_full s + n)) (discarded_consent s) (dropped_invalid s) (persisted s) (delivered s) (delivery_failures s).
Definition add_discarded_consent (n : Z) (s : Stats) : Stats :=
  mkStats (accepted s) (dropped_queue_full s) (dropped_storage_full s) (wrap64 (discarded_consent s + n)) (dropped_invalid s) (persisted s) (delivered s) (delivery_failures s).
Definition add_dropped_invalid (n : Z) (s : Stats) : Stats :=
  mkStats (accepted s) (dropped_queue_full s) (dropped_storage_full s) (discarded_consent s) (wrap64 (dropped_invalid s + n)) (persisted s) (delivered s) (delivery_failures s).
Definition add_persisted (n : Z) (s : Stats) : Stats :=
  mkStats (accepted s) (dropped_queue_full s) (dropped_storage_full s) (discarded_consent s) (dropped_invalid s) (wrap64 (persisted s + n)) (delivered s) (delivery_failures s).
Definition add_delivered (n : Z) (s : Stats) : Stats :=
  mkStats (accepted s) (dropped_queue_full s) (dropped_storage_full s) (discarded_consent s) (dropped_invalid s) (persisted s) (wrap64 (delivered s + n)) (delivery_failures s).
Definition add_delivery_failures (n : Z) (s : Stats) : Stats :=
  mkStats (accepted s) (dropped_queue_full s) (dropped_storage_full s) (discarded_consent s) (dropped_invalid s) (persisted s) (delivered s) (wrap64 (delivery_failures s + n)).

(** A call into the application's callbacks. *)
Inductive notice : Type :=
| Logged (level : LogLevel) (text : string)
| Reported (status : Status).

(** Where a thread inside [set_consent] is: outside; inside the section of a
    revocation, about to bump the generation, to clear the queue, to give back the
    room of the [n] cleared events, to discard the retry buffer, to give back the
    room of the [n] discarded events, to forget the errors; after it, about to
    record the marker, to purge, to reset the accounting, or to grant. The flag
    says that the transition ends with a grant. *)
Inductive ConsentPc : Type :=
| CIdle
| CBump
| CClear
| CRelease (n : Z)
| CDiscard
| CReturn (n : Z)
| CForget
| CMark (grant : bool)
| CPurge (grant : bool)
| CDone (grant : bool)
| CGrant.

(** One step of another thread: a critical section, or one access to shared state
    inside the section of a revocation. *)
Inductive Act : Type :=
| ActTrack (entry_generation : Z) (name : string) (props : Properties)
| ActStartSession (player_id : string)
| ActEndSession
| ActSetConsent (state : ConsentState)
| ActConsentStep
| ActSubmitFlush
| ActDrain
| ActCloseAdmission
| ActSinkCancel
| ActRequestStop.

(** The sink: application code behind the [Sink] interface. *)
Class SinkOps (K : Type) : Type := {
  sink_write : EventBatch -> M K (library_call Status);
  sink_flush : M K (library_call Status);
  sink_request_cancel : M K (library_call unit)
}.

Section State.
Context {S K : Type}.

(** [class Pipeline]. *)
Record Pipeline : Type := mkPipeline {
  config : Config;
  sink : K;   (* the state of the sink *)
  queue : EventQueue;
  stats : Stats;
  store : S;
  consent : ConsentState;
  consent_generation : Z;
  outstanding : Z;
  terminated : bool;
  notices : list notice   (* callbacks made so far, oldest first *)
}.

(** [class WorkerCore], with [joined_] of [class Worker]. *)
Record WorkerCore : Type := mkCore {
  retry_ : list QueuedEvent;
  stop_ : bool;
  finished_ : bool;
  flush_seq_ : Z;
  flush_done_ : Z;
  flush_barrier_ : Z;
  pending_error_ : Status;
  terminal_status_ : Status;
  pass_results_ : list (Z * Status);   (* by increasing token *)
  joined_ : bool   (* the thread was joined *)
}.

(** [class Client::Impl]; the pipeline and the worker are the other parts of [Sys]. *)
Record Impl : Type := mkImpl {
  session_ : SessionManager;
  id_gen_ : mt19937_64;
  validator_ : EventValidator;
  max_pending_events_ : Z;
  lifecycle_ : LifecycleState;
  ordinal_ : Z;
  purge_required_ : bool;
  clock_ : list Z;   (* the readings the clock will give *)
  consent_pc : ConsentPc   (* where the holder of consent_mutex_ is *)
}.

(** The whole system. *)
Record Sys : Type := mkSys {
  pipe : Pipeline;
  core : WorkerCore;
  impl : Impl;
  schedule : list (list Act);   (* what the other threads do at the next interleaving points *)
  admitted : list QueuedEvent;   (* history: every event pushed *)
  written : list (EventBatch * Status);   (* history: every batch given to the sink, with its answer *)
  late : Z   (* history: how many of them were given after consent had been taken back *)
}.

(** ** Updates *)

Definition set_config (x : Config) (p : Pipeline) : Pipeline :=
  mkPipeline x (sink p) (queue p) (stats p) (store p) (consent p) (consent_generation p) (outstanding p) (terminated p) (notices p).
Definition set_sink (x : K) (p : Pipeline) : Pipeline :=
  mkPipeline (config p) x (queue p) (stats p) (store p) (consent p) (consent_generation p) (outstanding p) (terminated p) (notices p).
Definition set_queue (x : EventQueue) (p : Pipeline) : Pipeline :=
  mkPipeline (config p) (sink p) x (stats p) (store p) (consent p) (consent_generation p) (outstanding p) (terminated p) (notices p).
Definition set_stats (x : Stats) (p : Pipeline) : Pipeline :=
  mkPipeline (config p) (sink p) (queue p) x (store p) (consent p) (consent_generation p) (outstanding p) (terminated p) (notices p).
Definition set_store (x : S) (p : Pipeline) : Pipeline :=
  mkPipeline (config p) (sink p) (queue p) (stats p) x (consent p) (consent_generation p) (outstanding p) (terminated p) (notices p).
Definition set_consent (x : ConsentState) (p : Pipeline) : Pipeline :=
  mkPipeline (config p) (sink p) (queue p) (stats p) (store p) x (consent_generation p) (outstanding p) (terminated p) (notices p).
Definition set_consent_generation (x : Z) (p : Pipeline) : Pipeline :=
  mkPipeline (config p) (sink p) (queue p) (stats p) (store p) (consent p) x (outstanding p) (terminated p) (notices p).
Definition set_outstanding (x : Z) (p : Pipeline) : Pipeline :=
  mkPipeline (config p) (sink p) (queue p) (stats p) (store p) (consent p) (consent_generation p) x (terminated p) (notices p).
Definition set_terminated (x : bool) (p : Pipeline) : Pipeline :=
  mkPipeline (config p) (sink p) (queue p) (stats p) (store p) (consent p) (consent_generation p) (outstanding p) x (notices p).
Definition set_notices (x : list notice) (p : Pipeline) : Pipeline :=
  mkPipeline (config p) (sink p) (queue p) (stats p) (store p) (consent p) (consent_generation p) (outstanding p) (terminated p) x.
Definition set_retry_ (x : list QueuedEvent) (c : WorkerCore) : WorkerCore :=
  mkCore x (stop_ c) (finished_ c) (flush_seq_ c) (flush_done_ c) (flush_barrier_ c) (pending_error_ c) (terminal_status_ c) (pass_results_ c) (joined_ c).
Definition set_stop_ (x : bool) (c : WorkerCore) : WorkerCore :=
  mkCore (retry_ c) x (finished_ c) (flush_seq_ c) (flush_done_ c) (flush_barrier_ c) (pending_error_ c) (terminal_status_ c) (pass_results_ c) (joined_ c).
Definition set_finished_ (x : bool) (c : WorkerCore) : WorkerCore :=
  mkCore (retry_ c) (stop_ c) x (flush_seq_ c) (flush_done_ c) (flush_barrier_ c) (pending_error_ c) (terminal_status_ c) (pass_results_ c) (joined_ c).
Definition set_flush_seq_ (x : Z) (c : WorkerCore) : WorkerCore :=
  mkCore (retry_ c) (stop_ c) (finished_ c) x (flush_done_ c) (flush_barrier_ c) (pending_error_ c) (terminal_status_ c) (pass_results_ c) (joined_ c).
Definition set_flush_done_ (x : Z) (c : WorkerCore) : WorkerCore :=
  mkCore (retry_ c) (stop_ c) (finished_ c) (flush_seq_ c) x (flush_barrier_ c) (pending_error_ c) (terminal_status_ c) (pass_results_ c) (joined_ c).
Definition set_flush_barrier_ (x : Z) (c : WorkerCore) : WorkerCore :=
  mkCore (retry_ c) (stop_ c) (finished_ c) (flush_seq_ c) (flush_done_ c) x (pending_error_ c) (terminal_status_ c) (pass_results_ c) (joined_ c).
Definition set_pending_error_ (x : Status) (c : WorkerCore) : WorkerCore :=
  mkCore (retry_ c) (stop_ c) (finished_ c) (flush_seq_ c) (flush_done_ c) (flush_barrier_ c) x (terminal_status_ c) (pass_results_ c) (joined_ c).
Definition set_terminal_status_ (x : Status) (c : WorkerCore) : WorkerCore :=
  mkCore (retry_ c) (stop_ c) (finished_ c) (flush_seq_ c) (flush_done_ c) (flush_barrier_ c) (pending_error_ c) x (pass_results_ c) (joined_ c).
Definition set_pass_results_ (x : list (Z * Status)) (c : WorkerCore) : WorkerCore :=
  mkCore (retry_ c) (stop_ c) (finished_ c) (flush_seq_ c) (flush_done_ c) (flush_barrier_ c) (pending_error_ c) (terminal_status_ c) x (joined_ c).
Definition set_joined_ (x : bool) (c : WorkerCore) : WorkerCore :=
  mkCore (retry_ c) (stop_ c) (finished_ c) (flush_seq_ c) (flush_done_ c) (flush_barrier_ c) (pending_error_ c) (terminal_status_ c) (pass_results_ c) x.
Definition set_session_ (x : SessionManager) (i : Impl) : Impl :=
  mkImpl x (id_gen_ i) (validator_ i) (max_pending_events_ i) (lifecycle_ i) (ordinal_ i) (purge_required_ i) (clock_ i) (consent_pc i).
Definition set_id_gen_ (x : mt19937_64) (i : Impl) : Impl :=
  mkImpl (session_ i) x (validator_ i) (max_pending_events_ i) (lifecycle_ i) (ordinal_ i) (purge_required_ i) (clock_ i) (consent_pc i).
Definition set_validator_ (x : EventValidator) (i : Impl) : Impl :=
  mkImpl (session_ i) (id_gen_ i) x (max_pending_events_ i) (lifecycle_ i) (ordinal_ i) (purge_required_ i) (clock_ i) (consent_pc i).
Definition set_max_pending_events_ (x : Z) (i : Impl) : Impl :=
  mkImpl (session_ i) (id_gen_ i) (validator_ i) x (lifecycle_ i) (ordinal_ i) (purge_required_ i) (clock_ i) (consent_pc i).
Definition set_lifecycle_ (x : LifecycleState) (i : Impl) : Impl :=
  mkImpl (session_ i) (id_gen_ i) (validator_ i) (max_pending_events_ i) x (ordinal_ i) (purge_required_ i) (clock_ i) (consent_pc i).
Definition set_ordinal_ (x : Z) (i : Impl) : Impl :=
  mkImpl (session_ i) (id_gen_ i) (validator_ i) (max_pending_events_ i) (lifecycle_ i) x (purge_required_ i) (clock_ i) (consent_pc i).
Definition set_purge_required_ (x : bool) (i : Impl) : Impl :=
  mkImpl (session_ i) (id_gen_ i) (validator_ i) (max_pending_events_ i) (lifecycle_ i) (ordinal_ i) x (clock_ i) (consent_pc i).
Definition set_clock_ (x : list Z) (i : Impl) : Impl :=
  mkImpl (session_ i) (id_gen_ i) (validator_ i) (max_pending_events_ i) (lifecycle_ i) (ordinal_ i) (purge_required_ i) x (consent_pc i).
Definition set_consent_pc (x : ConsentPc) (i : Impl) : Impl :=
  mkImpl (session_ i) (id_gen_ i) (validator_ i) (max_pending_events_ i) (lifecycle_ i) (ordinal_ i) (purge_required_ i) (clock_ i) x.
Definition set_pipe (x : Pipeline) (s : Sys) : Sys :=
  mkSys x (core s) (impl s) (schedule s) (admitted s) (written s) (late s).
Definition set_core (x : WorkerCore) (s : Sys) : Sys :=
  mkSys (pipe s) x (impl s) (schedule s) (admitted s) (written s) (late s).
Definition set_impl (x : Impl) (s : Sys) : Sys :=
  mkSys (pipe s) (core s) x (schedule s) (admitted s) (written s) (late s).
Definition set_schedule (x : list (list Act)) (s : Sys) : Sys :=
  mkSys (pipe s) (core s) (impl s) x (admitted s) (written s) (late s).
Definition set_admitted (x : list QueuedEvent) (s : Sys) : Sys :=
  mkSys (pipe s) (core s) (impl s) (schedule s) x (written s) (late s).
Definition set_written (x : list (EventBatch * Status)) (s : Sys) : Sys :=
  mkSys (pipe s) (core s) (impl s) (schedule s) (admitted s) x (late s).
Definition set_late (x : Z) (s : Sys) : Sys :=
  mkSys (pipe s) (core s) (impl s) (schedule s) (admitted s) (written s) x.

(** Updates of one part of the system. *)
Definition on_pipe (f : Pipeline -> Pipeline) (s : Sys) : Sys := set_pipe (f (pipe s)) s.
Definition on_core (f : WorkerCore -> WorkerCore) (s : Sys) : Sys := set_core (f (core s)) s.
Definition on_impl (f : Impl -> Impl) (s : Sys) : Sys := set_impl (f (impl s)) s.

(** ** Operations of [Pipeline] *)

(** [Pipeline::Pipeline]. *)
Definition new_pipeline (cfg : Config) (snk : K) (st : S) : Pipeline :=
  mkPipeline cfg snk (new_queue (cfg_max_queue_size cfg) (cfg_batch_size cfg)) zero_stats st
    (cfg_consent cfg) 0 0 false [].

(** A store operation under [store_mutex]. *)
Definition with_store {A} (m : M S A) : M Sys A := fun s =>
  let '(a, st) := m (store (pipe s)) in (a, on_pipe (set_store st) s).

(** An operation on the queue under its own mutex. *)
Definition with_queue {A} (f : EventQueue -> A * EventQueue) : M Sys A := fun s =>
  let '(a, q) := f (queue (pipe s)) in (a, on_pipe (set_queue q) s).

Definition upd_stats (f : Stats -> Stats) : M Sys unit :=
  mput (on_pipe (fun p => set_stats (f (stats p)) p)).

(** [Pipeline::set_consent_state]. *)
Definition set_consent_state (c : ConsentState) : M Sys unit := mput (on_pipe (set_consent c)).

(** [Pipeline::bump_consent_generation]. *)
Definition bump_consent_generation : M Sys unit :=
  mput (on_pipe (fun p => set_consent_generation (wrap64 (consent_generation p + 1)) p)).

(** [Pipeline::add_outstanding]. *)
Definition add_outstanding (n : Z) : M Sys unit :=
  mput (on_pipe (fun p => set_outstanding (wrap64 (outstanding p + n)) p)).

(** [Pipeline::release_outstanding]: never below zero. The exchange loop takes
    effect at one instant. *)
Definition release_outstanding (n : Z) : M Sys unit :=
  mput (on_pipe (fun p => set_outstanding (if n <? outstanding p then outstanding p - n else 0) p)).

(** [Pipeline::reset_outstanding]. *)
Definition reset_outstanding (n : Z) : M Sys unit := mput (on_pipe (set_outstanding n)).

(** [Pipeline::set_terminated]. *)
Definition mark_terminated : M Sys unit := mput (on_pipe (set_terminated true)).

(** [Pipeline::log]: what the callback throws is contained. *)
Definition log (level : LogLevel) (text : string) : M Sys unit := mput (on_pipe (fun p =>
  if cfg_log_callback (config p) then set_notices (notices p ++ [Logged level text]) p else p)).

(** [Pipeline::report_error]: what the callback throws is contained. *)
Definition report_error (status : Status) : M Sys unit := mput (on_pipe (fun p =>
  if cfg_error_callback (config p) then set_notices (notices p ++ [Reported status]) p else p)).

(** ** Small operations of [WorkerCore] *)

(** [kNoOrdinal]. *)
Definition kNoOrdinal : Z := uint64_max.

(** [kMaxRetainedPasses]. *)
Definition kMaxRetainedPasses : Z := 256.

(** The members of a new [WorkerCore]. *)
Definition new_core : WorkerCore := mkCore [] false false 0 0 0 status_ok status_ok [] false.

(** [WorkerCore::request_stop]. *)
Definition request_stop : M Sys unit :=
  mput (on_core (set_stop_ true)) ;; with_queue (fun q => (tt, kick q)).

(** [WorkerCore::submit_flush]: the token. *)
Definition submit_flush (barrier_ordinal : Z) : M Sys Z :=
  mput (on_core (fun c => if flush_barrier_ c <? barrier_ordinal
                          then set_flush_barrier_ barrier_ordinal c else c)) ;;
  let* seq := mget (fun s => flush_seq_ (core s)) in
  mput (on_core (set_flush_seq_ (wrap64 (seq + 1)))) ;;
  with_queue (fun q => (tt, kick q)) ;;
  mreturn (wrap64 (seq + 1)).

(** [pass_results_[t] = v] on the ordered map. *)
Fixpoint map_set (t : Z) (v : Status) (m : list (Z * Status)) : list (Z * Status) :=
  match m with
  | [] => [(t, v)]
  | (k, w) :: m' =>
      if t <? k then (t, v) :: m
      else if t =? k then (t, v) :: m'
      else (k, w) :: map_set t v m'
  end.

(** [pass_results_.find(t)]. *)
Fixpoint map_find (t : Z) (m : list (Z * Status)) : option Status :=
  match m with
  | [] => None
  | (k, w) :: m' => if t =? k then Some w else map_find t m'
  end.

(** [WorkerCore::prune_pass_results_locked]: the oldest records go first. *)
Fixpoint prune_pass_results_locked (m : list (Z * Status)) : list (Z * Status) :=
  match m with
  | [] => []
  | _ :: m' => if kMaxRetainedPasses <? vsize m then prune_pass_results_locked m' else m
  end.

(** The refusal for a token the worker never serviced. *)
Definition unserviced : Status := mkStatus AlreadyShutdown
  ("the worker stopped before this flush ran; nothing was " +:+
   "flushed and any pending events remain in durable storage").

(** The answer for a token whose record is gone. *)
Definition expired (token : Z) : Status := mkStatus Internal
  ("the result for this flush (token " +:+ to_string token +:+
   ") is no longer available: it was discarded after more than " +:+
   to_string kMaxRetainedPasses +:+
   " later flushes completed. Submit a new flush to obtain a current result.").

(** [WorkerCore::flush_result_locked]. *)
Definition flush_result_locked (c : WorkerCore) (token : Z) : Status :=
  match map_find token (pass_results_ c) with
  | Some st => st
  | None =>
      if finished_ c &&
         match last (pass_results_ c) with None => true | Some (k, _) => k <? token end
      then unserviced
      else expired token
  end.

(** [WorkerCore::wait_flush] once the wait is over: [None] when it timed out,
    the status otherwise. *)
Definition wait_flush (token : Z) : M Sys (option Status) :=
  let* c := mget core in
  if negb ((token <=? flush_done_ c) || finished_ c) then mreturn None
  else
    let out := if negb (ok (terminal_status_ c)) then terminal_status_ c
               else flush_result_locked c token in
    mput (on_core (fun c => set_pass_results_ (prune_pass_results_locked (pass_results_ c)) c)) ;;
    mreturn (Some out).

(** [WorkerCore::forget_errors]. *)
Definition forget_errors : M Sys unit := mput (on_core (set_pending_error_ status_ok)).

(** The room of discarded events is given back, and they are counted. *)
Definition give_back (dropped : Z) : M Sys unit :=
  if 0 <? dropped then
    upd_stats (add_discarded_consent dropped) ;; release_outstanding dropped
  else mreturn tt.

(** [WorkerCore::discard_in_flight]. *)
Definition discard_in_flight : M Sys unit :=
  let* dropped := mget (fun s => vsize (retry_ (core s))) in
  mput (on_core (set_retry_ [])) ;;
  give_back dropped.

(** [WorkerCore::note_error]. *)
Definition note_error (status : Status) : M Sys unit :=
  report_error status ;;
  mput (on_core (fun c => if ok (pending_error_ c) then set_pending_error_ status c else c)).

(** [WorkerCore::retry_front_ordinal]. *)
Definition retry_front_ordinal (c : WorkerCore) : Z :=
  match retry_ c with [] => kNoOrdinal | e :: _ => qe_ordinal e end.

(** [WorkerCore::take_retry]. *)
Definition take_retry : M Sys (list QueuedEvent) :=
  let* held := mget (fun s => retry_ (core s)) in
  mput (on_core (set_retry_ [])) ;; mreturn held.

(** [WorkerCore::hold_for_retry]: the batch goes in front. *)
Definition hold_for_retry (batch : list QueuedEvent) : M Sys unit :=
  match batch with
  | [] => mreturn tt
  | _ => mput (on_core (fun c =>
           match retry_ c with
           | [] => set_retry_ batch c
           | held => set_retry_ (batch ++ held) c
           end))
  end.

(** [Worker::wait_and_join] once the wait is over: whether the thread has
    finished; then it is joined. *)
Definition wait_and_join : M Sys bool :=
  let* fin := mget (fun s => finished_ (core s)) in
  if negb fin then mreturn false
  else mput (on_core (set_joined_ true)) ;; mreturn true.

End State.

Arguments Pipeline S K : clear implicits.
Arguments Sys S K : clear implicits.
