(* ===== verification/Admission.v ===== *)
(** Admission and consent: the critical sections of Client::Impl
    (src/client.cpp), and the interleaving points of the worker.

    Every public call is one or more sections that run under
    [admission_mutex_] or [store_mutex]. They are defined here as computations
    on [Sys]; the public calls that compose them are in Client.v. [perform]
    runs one step of another thread: a section, or for a revocation one access
    to shared state. [env] is an interleaving point of the worker: it runs the
    steps the schedule holds for it. *)
From S2P Require Import Prelude Types Serializer Validator Queue Ids Session Sqlite Store StoreSpec StoreIface Pipeline.

Local Open Scope Z_scope.
Local Open Scope pt_scope.

Section Admission.
Context {S K : Type} `{!StoreOps S}.
#[local] Abbreviation Sy := (Sys S K).

(** * Sections under [admission_mutex_] *)

(** [clock_->now_utc_millis()]: the next reading. *)
Definition read_clock : M Sy Z := fun s =>
  match clock_ (impl s) with
  | [] => (0, s)
  | [now] => (now, s)
  | now :: rest => (now, on_impl (set_clock_ rest) s)
  end.

(** Running a session operation. *)
Definition upd_session (f : SessionManager -> SessionManager) : M Sy unit :=
  mput (on_impl (fun i => set_session_ (f (session_ i)) i)).

(** [Client::Impl::terminal_locked]. *)
Definition terminal_locked : M Sy Status :=
  let* dead := mget (fun s => terminated (pipe s)) in
  if negb dead then mreturn status_ok
  else
  let* terminal := mget (fun s => terminal_status_ (core s)) in
  if negb (ok terminal) then mreturn terminal
  else mreturn (mkStatus Internal
         ("the playertrace worker stopped unexpectedly; no further " +:+ "events can be accepted")).

(** The refusals of the capacity checks. *)
Definition storage_full (max_pending : Z) : Status := mkStatus StorageFull
  ("durable storage is full (max_pending_events=" +:+ to_string max_pending +:+ "); event rejected").
Definition queue_is_full : Status := mkStatus QueueFull "in-memory queue is full; event rejected".
Definition shut_down : Status := mkStatus AlreadyShutdown "client is shut down".
Definition not_granted : Status := mkStatus ConsentDenied "consent is not granted".
Definition no_session : Status := mkStatus NotStarted "no active session".

(** [Client::Impl::reserve_locked]. *)
Definition reserve_locked (count : Z) : M Sy Status :=
  let* used := mget (fun s => outstanding (pipe s)) in
  let* cap := mget (fun s => max_pending_events_ (impl s)) in
  if cap <? wrap64 (used + count) then
    upd_stats (add_dropped_storage_full 1) ;; mreturn (storage_full cap)
  else
  let* room := mget (fun s => has_room_for (queue (pipe s)) count) in
  if negb room then
    upd_stats (add_dropped_queue_full 1) ;; mreturn queue_is_full
  else mreturn status_ok.

(** [session_.next(...)]. *)
Definition take_next : M Sy (option (string * string * Z)) := fun s =>
  let '(r, se) := session_next (session_ (impl s)) in (r, on_impl (set_session_ se) s).

(** [id_gen_.uuid4()]. *)
Definition new_id : M Sy string := fun s =>
  let '(id, rng) := uuid4 (id_gen_ (impl s)) in (id, on_impl (set_id_gen_ rng) s).

(** [++ordinal_]. *)
Definition next_ordinal : M Sy Z :=
  mput (on_impl (fun i => set_ordinal_ (wrap64 (ordinal_ i + 1)) i)) ;;
  mget (fun s => ordinal_ (impl s)).

(** [queue().try_push(...)], recorded in the history when it succeeds. *)
Definition push (qe : QueuedEvent) : M Sy bool :=
  let* pushed := with_queue (fun q => try_push q qe) in
  (if pushed then mput (fun s => set_admitted (admitted s ++ [qe]) s) else mreturn tt) ;;
  mreturn pushed.

(** [Client::Impl::admit_locked]. *)
Definition admit_locked (name : string) (props : Properties) : M Sy Status :=
  let* terminal := terminal_locked in
  if negb (ok terminal) then mreturn terminal
  else
  let* life := mget (fun s => lifecycle_ (impl s)) in
  if negb (bool_decide (life = Running)) then mreturn shut_down
  else
  let* con := mget (fun s => consent (pipe s)) in
  if negb (bool_decide (con = Granted)) then mreturn not_granted
  else
  let* act := mget (fun s => active_ (session_ (impl s))) in
  if negb act then mreturn no_session
  else
  let* cap := mget (fun s => max_pending_events_ (impl s)) in
  let* used := mget (fun s => outstanding (pipe s)) in
  if cap <=? used then
    upd_stats (add_dropped_storage_full 1) ;; mreturn (storage_full cap)
  else
  let* full := mget (fun s => queue_full (queue (pipe s))) in
  if full then
    upd_stats (add_dropped_queue_full 1) ;; mreturn queue_is_full
  else
  let* ids := take_next in
  match ids with
  | None => mreturn no_session
  | Some (sid, pid, seq) =>
      let* id := new_id in
      let* app := mget (fun s => cfg_app_id (config (pipe s))) in
      let* now := read_clock in
      let* ord := next_ordinal in
      let* gen := mget (fun s => consent_generation (pipe s)) in
      let qe := mkQueued (mkEvent id app name kEventSchemaVersion now sid pid seq props) ord gen in
      add_outstanding 1 ;;
      let* pushed := push qe in
      if negb pushed then
        release_outstanding 1 ;;
        upd_session (fun se => session_rollback se sid seq) ;;
        upd_stats (add_dropped_queue_full 1) ;;
        mreturn queue_is_full
      else
      upd_stats (add_accepted 1) ;; mreturn status_ok
  end.

(** [static_cast<double>(duration_ms) / 1000.0]. *)
Definition seconds_of (duration_ms : Z) : double := double_div (double_of_int duration_ms) (double_of_int 1000).

(** [Client::Impl::end_session_locked]. The clock is read only for an active
    session, and [session_.end(nullptr)] does not read it. *)
Definition end_session_locked : M Sy Status :=
  let* act := mget (fun s => active_ (session_ (impl s))) in
  let* now := (if act then read_clock else mreturn 0) in
  let* duration := mget (fun s => peek_duration (session_ (impl s)) now) in
  match duration with
  | None => mreturn no_session
  | Some duration_ms =>
      let* marker := admit_locked "session_end" [("session_seconds", PVDouble (seconds_of duration_ms))] in
      if negb (ok marker) then mreturn marker
      else
      upd_session (fun se => snd (session_end se 0)) ;; mreturn status_ok
  end.

(** [session_.begin(...)]. *)
Definition begin_session (player_id : string) : M Sy unit :=
  let* now := read_clock in
  fun s =>
    let '(_, se, rng) := session_begin (session_ (impl s)) player_id (id_gen_ (impl s)) now in
    (tt, on_impl (fun i => set_id_gen_ rng (set_session_ se i)) s).

(** [Client::Impl::start_session] after the validation of the player
    identifier. *)
Definition start_session_locked (player_id : string) : M Sy Status :=
  let* life := mget (fun s => lifecycle_ (impl s)) in
  if negb (bool_decide (life = Running)) then mreturn shut_down
  else
  let* con := mget (fun s => consent (pipe s)) in
  if negb (bool_decide (con = Granted)) then mreturn not_granted
  else
  let* terminal := terminal_locked in
  if negb (ok terminal) then mreturn terminal
  else
  let* replacing := mget (fun s => active_ (session_ (impl s))) in
  let* reserved := (if replacing then reserve_locked 2 else mreturn status_ok) in
  if negb (ok reserved) then mreturn reserved
  else
  let* previous := mget (fun s => session_save (session_ (impl s))) in
  let* ended := (if replacing then end_session_locked else mreturn status_ok) in
  if negb (ok ended) then
    upd_session (fun se => session_restore se previous) ;; mreturn ended
  else
  begin_session player_id ;;
  let* marker := admit_locked "session_start" [] in
  if negb (ok marker) then
    (if replacing then upd_session session_deactivate
     else upd_session (fun se => session_restore se previous)) ;;
    mreturn marker
  else mreturn status_ok.

(** The section of [Client::Impl::end_session]. *)
Definition end_session_section : M Sy Status :=
  let* life := mget (fun s => lifecycle_ (impl s)) in
  if negb (bool_decide (life = Running)) then mreturn shut_down
  else
  let* terminal := terminal_locked in
  if negb (ok terminal) then mreturn terminal
  else end_session_locked.

(** The section of [Client::Impl::track]. *)
Definition track_section (entry_generation : Z) (name : string) (props : Properties) : M Sy Status :=
  let* gen := mget (fun s => consent_generation (pipe s)) in
  if negb (gen =? entry_generation)
  then mreturn (mkStatus ConsentDenied "consent was revoked while this event was being prepared")
  else admit_locked name props.

(** The section of [Client::Impl::flush]: a refusal, or the token. *)
Definition flush_section : M Sy (Status + Z) :=
  let* life := mget (fun s => lifecycle_ (impl s)) in
  if negb (bool_decide (life = Running)) then
    mreturn (inl (mkStatus AlreadyShutdown
      ("client is shutting down or shut down; flush() cannot " +:+
       "guarantee delivery of anything still pending")))
  else
  let* terminal := terminal_locked in
  if negb (ok terminal) then mreturn (inl terminal)
  else
  let* barrier := mget (fun s => ordinal_ (impl s)) in
  let* token := submit_flush barrier in
  mreturn (inr token).

(** * Consent *)

(** The first section of a revocation in [Client::Impl::set_consent]. *)
Definition revoke_section (state : ConsentState) : M Sy unit :=
  set_consent_state state ;;
  bump_consent_generation ;;
  let* dropped := with_queue queue_clear in
  give_back dropped ;;
  upd_session session_deactivate ;;
  mput (on_impl (set_purge_required_ true)) ;;
  discard_in_flight ;;
  forget_errors.

(** [run_purge], first half: the marker. *)
Definition purge_mark : M Sy Status :=
  let* marked := with_store store_mark_revocation_pending in
  if negb (ok marked) then
    report_error marked ;;
    log Error ("consent revocation could not record its durable marker: " +:+ message marked) ;;
    mreturn (mkStatus StorageError
      ("consent revocation could not be made durable: " +:+ message marked))
  else mreturn status_ok.

(** [run_purge], second half: the deletion. *)
Definition purge_delete : M Sy Status :=
  let* (purged, _) := with_store store_purge_and_clear_revocation in
  if negb (ok purged) then
    report_error purged ;;
    log Error ("consent revocation could not purge durable storage: " +:+ message purged) ;;
    mreturn (mkStatus StorageError
      ("consent revocation could not purge durable storage; " +:+
       "collection stays blocked and the purge will be retried: " +:+ message purged))
  else mreturn status_ok.

(** [run_purge], the end: the accounting. *)
Definition purge_finish : M Sy unit :=
  mput (on_impl (set_purge_required_ false)) ;; reset_outstanding 0.

(** [Client::Impl::run_purge]. *)
Definition run_purge : M Sy Status :=
  let* marked := purge_mark in
  if negb (ok marked) then mreturn marked
  else
  let* purged := purge_delete in
  if negb (ok purged) then mreturn purged
  else purge_finish ;; mreturn status_ok.

(** The section of [Client::Impl::set_consent] that grants. *)
Definition grant_section : M Sy unit := set_consent_state Granted.

(** [Client::Impl::set_consent]. *)
Definition set_consent_locked (state : ConsentState) : M Sy Status :=
  if bool_decide (state = Granted) then
    let* owed := mget (fun s => purge_required_ (impl s)) in
    let* retried := (if owed then run_purge else mreturn status_ok) in
    if negb (ok retried)
    then mreturn (mkStatus StorageError
           ("consent cannot be granted while a previous revocation is still unfinished: " +:+
            message retried))
    else grant_section ;; mreturn status_ok
  else revoke_section state ;; run_purge.

(** * The sink *)

Context `{!SinkOps K}.

(** A call into the sink. *)
Definition with_sink {A} (m : M K A) : M Sy A := fun s =>
  let '(a, k) := m (sink (pipe s)) in (a, on_pipe (set_sink k) s).

(** [Client::Impl::request_sink_cancel]. *)
Definition request_sink_cancel : M Sy unit :=
  let* present := mget (fun s => cfg_sink (config (pipe s))) in
  if negb present then mreturn tt
  else let* _ := with_sink sink_request_cancel in mreturn tt.

(** * Other threads *)

Definition goto (pc : ConsentPc) : M Sy unit := mput (on_impl (set_consent_pc pc)).

(** One step of a thread that is inside [set_consent]: [consent_mutex_] is held
    from [ActSetConsent] to the last step. The steps from [CBump] to [CForget] are
    those of [revoke_section], each with one access to state the worker uses. *)
Definition consent_step : M Sy unit :=
  let* pc := mget (fun s => consent_pc (impl s)) in
  match pc with
  | CIdle => mreturn tt
  | CBump => bump_consent_generation ;; goto CClear
  | CClear => let* dropped := with_queue queue_clear in goto (CRelease dropped)
  | CRelease dropped => give_back dropped ;; goto CDiscard
  | CDiscard =>
      upd_session session_deactivate ;;
      mput (on_impl (set_purge_required_ true)) ;;
      let* dropped := mget (fun s => vsize (retry_ (core s))) in
      mput (on_core (set_retry_ [])) ;;
      goto (CReturn dropped)
  | CReturn dropped => give_back dropped ;; goto CForget
  | CForget => forget_errors ;; goto (CMark false)
  | CMark grant =>
      let* st := purge_mark in goto (if ok st then CPurge grant else CIdle)
  | CPurge grant =>
      let* st := purge_delete in goto (if ok st then CDone grant else CIdle)
  | CDone grant => purge_finish ;; goto (if grant then CGrant else CIdle)
  | CGrant => grant_section ;; goto CIdle
  end.

(** Entering [set_consent], when no other thread is inside. A revocation takes
    [admission_mutex_] and stores the new state. *)
Definition consent_enter (state : ConsentState) : M Sy unit :=
  let* pc := mget (fun s => consent_pc (impl s)) in
  match pc with
  | CIdle =>
      if bool_decide (state = Granted) then
        let* owed := mget (fun s => purge_required_ (impl s)) in
        goto (if owed then CMark true else CGrant)
      else set_consent_state state ;; goto CBump
  | _ => mreturn tt
  end.

(** A thread that is inside the section of a revocation holds [admission_mutex_]. *)
Definition admission_held (pc : ConsentPc) : bool :=
  match pc with
  | CBump | CClear | CRelease _ | CDiscard | CReturn _ | CForget => true
  | _ => false
  end.

(** A section under [admission_mutex_]: a thread that finds the mutex held waits,
    and does nothing yet. *)
Definition admission (m : M Sy unit) : M Sy unit :=
  let* pc := mget (fun s => consent_pc (impl s)) in
  if admission_held pc then mreturn tt else m.

(** The drain that [shutdown] submits after it has closed admission; the last
    ordinal cannot change any more. *)
Definition drain_section : M Sy unit :=
  let* life := mget (fun s => lifecycle_ (impl s)) in
  if bool_decide (life = Running) then mreturn tt
  else
  let* barrier := mget (fun s => ordinal_ (impl s)) in
  let* _ := submit_flush barrier in mreturn tt.

(** One step of another thread. *)
Definition perform (a : Act) : M Sy unit :=
  match a with
  | ActTrack gen name props => admission (let* _ := track_section gen name props in mreturn tt)
  | ActStartSession player_id => admission (let* _ := start_session_locked player_id in mreturn tt)
  | ActEndSession => admission (let* _ := end_session_section in mreturn tt)
  | ActSetConsent state => consent_enter state
  | ActConsentStep => consent_step
  | ActSubmitFlush => admission (let* _ := flush_section in mreturn tt)
  | ActDrain => drain_section
  | ActCloseAdmission =>
      admission (mput (on_impl (fun i => if bool_decide (lifecycle_ i = Running)
                                         then set_lifecycle_ Stopping i else i)))
  | ActSinkCancel => request_sink_cancel
  | ActRequestStop => request_stop
  end.

Fixpoint perform_all (step : Act -> M Sy unit) (acts : list Act) : M Sy unit :=
  match acts with
  | [] => mreturn tt
  | a :: acts' => step a ;; perform_all step acts'
  end.

(** The next entry of the schedule. *)
Definition interleave (step : Act -> M Sy unit) : M Sy unit := fun s =>
  match schedule s with
  | [] => (tt, s)
  | acts :: rest => perform_all step acts (set_schedule rest s)
  end.

(** An interleaving point of the worker. *)
Definition env : M Sy unit := interleave perform.

(** Access to shared state by the worker: other threads may run first. *)
Definition shared {A} (m : M Sy A) : M Sy A := env ;; m.

(** The next step of [set_consent] takes [store_mutex]. *)
Definition needs_store (pc : ConsentPc) : bool :=
  match pc with CMark _ | CPurge _ => true | _ => false end.

(** One step of another thread while the worker holds [store_mutex]. *)
Definition perform_beside_store (a : Act) : M Sy unit :=
  let* pc := mget (fun s => consent_pc (impl s)) in
  match a with
  | ActConsentStep => if needs_store pc then mreturn tt else consent_step
  | _ => perform a
  end.

(** Access to shared state by the worker while it holds [store_mutex]. *)
Definition storing {A} (m : M Sy A) : M Sy A := interleave perform_beside_store ;; m.

End Admission.
