(* ===== verification/Worker.v ===== *)
(** The background worker: WorkerCore::run and what it calls (src/worker.cpp).

    The thread is written as one computation. Every access to state that other
    threads also use goes through [shared], an interleaving point where the
    schedule lets them run, so a run of the worker is a run of the whole
    system under that schedule; with an empty schedule it is a sequential run.
    The two unbounded loops take the bound [fuel] and answer [None] when it is
    used up; WorkerSpec.v shows which bounds are enough. *)
From S2P Require Import Prelude Types Serializer Validator Queue Ids Session Sqlite Store StoreSpec StoreIface Pipeline Admission.

Local Open Scope Z_scope.
Local Open Scope pt_scope.

Section Worker.
Context {S K : Type} `{!StoreOps S} `{!SinkOps K}.
Context (dump : json -> library_call string).
#[local] Abbreviation Sy := (Sys S K).

(** * Definitions *)

(** [queue().pop_wait(...)]: the events moved. *)
Definition pop_batch : M Sy (list QueuedEvent) :=
  let* size := mget (fun s => cfg_batch_size (config (pipe s))) in
  with_queue (fun q => let '(_, out, q') := pop_wait q size [] in (out, q')).

(** Reads of the shared state. *)
Definition get_consent : M Sy ConsentState := mget (fun s => consent (pipe s)).
Definition get_generation : M Sy Z := mget (fun s => consent_generation (pipe s)).

(** The history of the sink. *)
Definition record_write (batch : EventBatch) (st : Status) : M Sy unit :=
  mput (fun s => set_late (late s + if bool_decide (consent (pipe s) = Granted) then 0 else 1)
                   (set_written (written s ++ [(batch, st)]) s)).

(** [WorkerCore::safe_write]. *)
Definition safe_write (batch : EventBatch) : M Sy Status :=
  let* present := mget (fun s => cfg_sink (config (pipe s))) in
  if negb present then mreturn (mkStatus SinkError "no sink configured")
  else
  let* r := with_sink (sink_write batch) in
  let st := match r with
            | Value st => st
            | StdException what => mkStatus SinkError ("sink threw: " +:+ what)
            | OtherException => mkStatus SinkError "sink threw an unknown exception"
            end in
  record_write batch st ;;
  mreturn st.

(** [WorkerCore::safe_flush_sink]. *)
Definition safe_flush_sink : M Sy Status :=
  let* present := mget (fun s => cfg_sink (config (pipe s))) in
  if negb present then mreturn status_ok
  else
  let* r := with_sink sink_flush in
  match r with
  | Value st => mreturn st
  | StdException what => mreturn (mkStatus SinkError ("sink flush threw: " +:+ what))
  | OtherException => mreturn (mkStatus SinkError "sink flush threw an unknown exception")
  end.

(** The store section of [purge_store]. *)
Definition purge_and_count : M S (Status * Z) :=
  let* (purged, _) := store_purge_and_clear_revocation in
  if ok purged then let* (_, remaining) := store_count in mreturn (purged, remaining)
  else mreturn (purged, 0).

(** [WorkerCore::purge_store]. *)
Definition purge_store : M Sy unit :=
  let* (purged, remaining) := shared (with_store purge_and_count) in
  if negb (ok purged) then shared (note_error purged)
  else shared (reset_outstanding remaining).

(** [WorkerCore::work_remains_at_or_below]: the reason when work remains. *)
Definition work_remains_at_or_below (barrier : Z) : M Sy (option Status) :=
  if barrier =? 0 then mreturn None
  else
  let* front := shared (mget (fun s => front_ordinal (queue (pipe s)))) in
  if front <=? barrier
  then mreturn (Some (mkStatus Timeout "flush did not drain every event accepted before it"))
  else
  let* held := shared (mget (fun s => retry_front_ordinal (core s))) in
  if held <=? barrier
  then mreturn (Some (mkStatus StorageError
         ("events accepted before this flush could not be written to " +:+
          "durable storage and are awaiting retry")))
  else
  let* (counted, pending) := shared (with_store (store_count_up_to barrier)) in
  if negb (ok counted) then mreturn (Some counted)
  else if 0 <? pending
  then mreturn (Some (mkStatus SinkError
         ("events accepted before this flush are persisted but were " +:+
          "not acknowledged by the sink")))
  else mreturn None.

(** The record of a queued event with its payload. *)
Definition record_of (qe : QueuedEvent) (payload : string) : StoredRecord :=
  mkStored (event_id (qe_event qe)) (session_id (qe_event qe)) (sequence (qe_event qe))
    (qe_ordinal qe) (timestamp_ms (qe_event qe)) payload.

(** The event loop of [process_incoming]: what is kept, with its record. *)
Fixpoint keep_loop (generation : Z) (batch : list QueuedEvent)
    : M Sy (list (QueuedEvent * StoredRecord)) :=
  match batch with
  | [] => mreturn []
  | qe :: batch' =>
      if negb (qe_consent_generation qe =? generation) then
        upd_stats (add_discarded_consent 1) ;;
        shared (release_outstanding 1) ;;
        keep_loop generation batch'
      else
        let '(s, payload) := serialize dump (qe_event qe) in
        if negb (ok s) then
          report_error s ;;
          upd_stats (add_dropped_invalid 1) ;;
          shared (release_outstanding 1) ;;
          keep_loop generation batch'
        else
          let* rest := keep_loop generation batch' in
          mreturn ((qe, record_of qe payload) :: rest)
  end.

(** The final consent boundary: checked and inserted under [store_mutex], while
    other threads can still change the consent. [None] when consent was revoked. *)
Definition insert_at_boundary (generation : Z) (records : list StoredRecord) : M Sy (option Status) :=
  let* con := get_consent in
  if negb (bool_decide (con = Granted)) then mreturn None
  else
  let* gen := storing get_generation in
  if negb (gen =? generation) then mreturn None
  else
  let* inserted := storing (with_store (store_insert records)) in
  mreturn (Some inserted).

(** [WorkerCore::process_incoming]. *)
Definition process_incoming (drained : list QueuedEvent) : M Sy unit :=
  let* held := shared take_retry in
  let batch := held ++ drained in
  match batch with
  | [] => mreturn tt
  | _ =>
      let* generation := shared get_generation in
      let* con := shared get_consent in
      if negb (bool_decide (con = Granted)) then
        upd_stats (add_discarded_consent (vsize batch)) ;;
        shared (release_outstanding (vsize batch)) ;;
        purge_store
      else
      let* kept := keep_loop generation batch in
      match kept with
      | [] => mreturn tt
      | _ =>
          let* inserted := shared (insert_at_boundary generation (snd <$> kept)) in
          match inserted with
          | None =>
              upd_stats (add_discarded_consent (vsize kept)) ;;
              shared (release_outstanding (vsize kept))
          | Some st =>
              if negb (ok st) then
                shared (note_error st) ;;
                shared (hold_for_retry (fst <$> kept))
              else upd_stats (add_persisted (vsize kept))
          end
      end
  end.

(** The check of [deliver_all] after the sink has answered. *)
Definition still_consented (generation : Z) : M Sy bool :=
  let* con := shared get_consent in
  if negb (bool_decide (con = Granted)) then mreturn false
  else
  let* gen := shared get_generation in
  mreturn (gen =? generation).

(** The loop of [WorkerCore::deliver_all]. *)
Fixpoint deliver_loop (fuel : nat) (delivered_any : bool) : M Sy (option bool) :=
  match fuel with
  | O => mreturn None
  | Datatypes.S fuel' =>
      let* con := shared get_consent in
      if negb (bool_decide (con = Granted)) then purge_store ;; mreturn (Some delivered_any)
      else
      let* size := mget (fun s => cfg_batch_size (config (pipe s))) in
      let* pending := shared (with_store (store_fetch_pending size)) in
      (if 0 <? fr_quarantined pending then
         shared (release_outstanding (fr_quarantined pending)) ;;
         upd_stats (add_dropped_invalid (fr_quarantined pending))
       else mreturn tt) ;;
      (if negb (ok (fr_status pending)) then shared (note_error (fr_status pending)) else mreturn tt) ;;
      match fr_events pending with
      | [] => mreturn (Some delivered_any)
      | events =>
          let* generation := shared get_generation in
          let* con := shared get_consent in
          if negb (bool_decide (con = Granted)) then purge_store ;; mreturn (Some delivered_any)
          else
          let* st := shared (safe_write events) in
          if negb (ok st) then
            shared (note_error st) ;;
            upd_stats (add_delivery_failures 1) ;;
            mreturn (Some delivered_any)
          else
          let* same := still_consented generation in
          if negb same
          then purge_store ;; mreturn (Some delivered_any)
          else
          let* (ack, _) := shared (with_store (store_acknowledge (se_event_id <$> events))) in
          if negb (ok ack) then shared (note_error ack) ;; mreturn (Some delivered_any)
          else
          upd_stats (add_delivered (vsize events)) ;;
          shared (release_outstanding (vsize events)) ;;
          deliver_loop fuel' true
      end
  end.

(** [WorkerCore::deliver_all]. *)
Definition deliver_all (fuel : nat) : M Sy (option bool) := deliver_loop fuel false.

(** The drain loop of a flush pass. *)
Fixpoint drain_loop (n fuel : nat) (barrier : Z) : M Sy (option unit) :=
  match n with
  | O => mreturn None
  | Datatypes.S n' =>
      let* why := work_remains_at_or_below barrier in
      match why with
      | None => mreturn (Some tt)
      | Some _ =>
          let* queue_before := shared (mget (fun s => queue_size (queue (pipe s)))) in
          let* more := shared pop_batch in
          let moved := negb (bool_decide (more = [])) in
          process_incoming more ;;
          let* d := deliver_all fuel in
          match d with
          | None => mreturn None
          | Some delivered =>
              if negb moved && negb delivered then
                let* queue_now := shared (mget (fun s => queue_size (queue (pipe s)))) in
                if queue_before <=? queue_now then mreturn (Some tt)
                else drain_loop n' fuel barrier
              else drain_loop n' fuel barrier
          end
      end
  end.

(** [while (t <= last) { pass_results_[t] = st; ++t; }] for [count] tokens. *)
Fixpoint record_results (count : nat) (t : Z) (st : Status) (m : list (Z * Status)) : list (Z * Status) :=
  match count with
  | O => m
  | Datatypes.S count' => record_results count' (t + 1) st (map_set t st m)
  end.

(** The records of the tokens after [handled] up to [last], then retention. *)
Definition answer_tokens (handled last : Z) (st : Status) (c : WorkerCore) : WorkerCore :=
  set_flush_done_ last
    (set_pass_results_
       (prune_pass_results_locked
          (record_results (Z.to_nat (last - handled)) (handled + 1) st (pass_results_ c))) c).

(** The flush part of one iteration of [run]: drain, flush the sink, judge,
    and answer the tokens. *)
Definition flush_pass (n fuel : nat) (handled want : Z) : M Sy (option unit) :=
  let* barrier := shared (mget (fun s => flush_barrier_ (core s))) in
  let* drained := drain_loop n fuel barrier in
  match drained with
  | None => mreturn None
  | Some _ =>
      let* sink_flush := shared safe_flush_sink in
      (if negb (ok sink_flush) then shared (note_error sink_flush) else mreturn tt) ;;
      let* outcome := shared (let* e := mget (fun s => pending_error_ (core s)) in
                              mput (on_core (set_pending_error_ status_ok)) ;; mreturn e) in
      let* residual := work_remains_at_or_below barrier in
      let outcome := match residual with
                     | Some why => if ok outcome then why else outcome
                     | None => outcome
                     end in
      shared (mput (on_core (answer_tokens handled want outcome))) ;;
      mreturn (Some tt)
  end.

(** One iteration of the loop of [run]: whether to stop, and the last token
    handled. *)
Definition iteration (n fuel : nat) (handled : Z) : M Sy (option (bool * Z)) :=
  let* want := shared (mget (fun s => flush_seq_ (core s))) in
  let flush_pending := handled <? want in
  (if flush_pending then shared (mput (on_core (set_pending_error_ status_ok))) else mreturn tt) ;;
  let* drained := shared pop_batch in
  process_incoming drained ;;
  let* d := deliver_all fuel in
  match d with
  | None => mreturn None
  | Some _ =>
      let* flushed := (if flush_pending then flush_pass n fuel handled want
                       else mreturn (Some tt)) in
      match flushed with
      | None => mreturn None
      | Some _ =>
          let* stop := shared (mget (fun s => stop_ (core s))) in
          mreturn (Some (stop, if flush_pending then want else handled))
      end
  end.

(** How the [try] block of [run] ends. *)
Inductive loop_exit : Type :=
| Stopped_normally (handled : Z)
| Threw (handled : Z) (what : option string)   (* a standard exception, or another *)
| Still_running (handled : Z)
| Out_of_fuel.

(** The loop of [run] for at most [rounds] iterations. [crash] is an exception
    that escapes an iteration: its number and what it says. *)
Fixpoint run_loop (rounds n fuel : nat) (crash : option (nat * option string)) (handled : Z)
    : M Sy loop_exit :=
  match crash with
  | Some (O, what) => mreturn (Threw handled what)
  | _ =>
      match rounds with
      | O => mreturn (Still_running handled)
      | Datatypes.S rounds' =>
          let* r := iteration n fuel handled in
          match r with
          | None => mreturn Out_of_fuel
          | Some (true, handled') =>
              log Info "playertrace worker stopped" ;; mreturn (Stopped_normally handled')
          | Some (false, handled') =>
              run_loop rounds' n fuel (prod_map pred id <$> crash) handled'
          end
      end
  end.

(** The catch clauses of [run]. *)
Definition catch (what : option string) : M Sy unit :=
  mput (on_core (set_terminal_status_ (mkStatus Internal
    (match what with
     | Some w => "the playertrace worker stopped unexpectedly: " +:+ w
     | None => "the playertrace worker stopped unexpectedly (unknown exception)"
     end)))).

(** The end of [run]: close admission after a failure, then answer every token
    that was never serviced. *)
Definition run_epilogue (handled : Z) : M Sy unit :=
  let* terminal := shared (mget (fun s => terminal_status_ (core s))) in
  (if negb (ok terminal) then shared mark_terminated ;; report_error terminal else mreturn tt) ;;
  shared (mput (on_core (fun c =>
    answer_tokens handled (flush_seq_ c) unserviced (set_finished_ true c)))).

(** [WorkerCore::run]. *)
Definition run (rounds n fuel : nat) (crash : option (nat * option string)) : M Sy loop_exit :=
  log Info "playertrace worker started" ;;
  let* e := run_loop rounds n fuel crash 0 in
  match e with
  | Stopped_normally handled => run_epilogue handled ;; mreturn e
  | Threw handled what => catch what ;; run_epilogue handled ;; mreturn e
  | Still_running _ => mreturn e
  | Out_of_fuel => mreturn e
  end.

End Worker.
