(* ===== verification/Tokens.v ===== *)
(** Flush tokens and their answers: the records [pass_results_] of WorkerCore
    (src/worker.cpp), written by the worker when a flush pass ends and read by
    the thread that waits for its token. *)
From S2P Require Import Prelude Types Queue Pipeline Worker.

Local Open Scope Z_scope.

(** * Definitions *)

(** Answers are kept by increasing token, for tokens already answered. *)
Definition tokens_wf (seq : Z) (p : Z * list (Z * Status)) : Prop :=
  0 <= fst p <= seq /\ StronglySorted Z.lt (fst <$> snd p) /\
  Forall (fun kv => 0 < fst kv <= fst p) (snd p) /\ vsize (snd p) <= kMaxRetainedPasses.

(** The part of a core the invariant speaks of. *)
Definition core_tokens (c : WorkerCore) : Z * list (Z * Status) := (flush_done_ c, pass_results_ c).

(** * Lemmas *)

(** A token above every key is appended. *)
Lemma map_set_last t st m : Forall (fun kv => fst kv < t) m -> map_set t st m = m ++ [(t, st)].
Proof.
  induction 1 as [|[k w] m Hk _ IH]; [done|]. simpl in *.
  rewrite (proj2 (Z.ltb_ge t k)), (proj2 (Z.eqb_neq t k)) by lia. by rewrite IH.
Qed.

Lemma record_results_app count t st m :
  Forall (fun kv => fst kv < t) m ->
  record_results count t st m = m ++ ((fun k => (k, st)) <$> seqZ t (Z.of_nat count)).
Proof.
  revert t m. induction count as [|count IH]; intros t m Hm; [by rewrite app_nil_r|].
  cbn [record_results]. rewrite (map_set_last t st m Hm), IH.
  - rewrite <- app_assoc. f_equal. rewrite (seqZ_cons t) by lia. rewrite fmap_cons. simpl. repeat f_equal; lia.
  - apply Forall_app. split; [eapply Forall_impl; [exact Hm|]; simpl; lia|]. constructor; [simpl; lia|constructor].
Qed.

Lemma prune_drop m : prune_pass_results_locked m = drop (length m - 256) m.
Proof.
  induction m as [|kv m IH]; [done|]. cbn [prune_pass_results_locked]. unfold kMaxRetainedPasses.
  destruct (Z.ltb_spec 256 (vsize (kv :: m))) as [Hl|Hl]; unfold vsize in Hl; simpl length in *.
  - rewrite IH. replace (S (length m) - 256)%nat with (S (length m - 256)) by lia. done.
  - by replace (S (length m) - 256)%nat with 0%nat by lia.
Qed.

(** Lookup in a map with distinct keys. *)
Lemma map_find_elem t st m :
  StronglySorted Z.lt (fst <$> m) -> map_find t m = Some st <-> (t, st) ∈ m.
Proof.
  induction m as [|[k w] m IH]; intros Hs; [by split; [|intros ?%not_elem_of_nil]|].
  rewrite fmap_cons in Hs. apply StronglySorted_inv in Hs as [Hs Hf]. simpl.
  rewrite elem_of_cons. destruct (Z.eqb_spec t k) as [->|Hne].
  - split; [intros [= ->]; by left|]. intros [[= ->]|Hin]; [done|].
    rewrite Forall_forall in Hf. specialize (Hf k). assert (k < k); [|lia].
    apply Hf. apply list_elem_of_fmap. by exists (k, st).
  - rewrite IH by done. split; [by right|]. by intros [[= -> ->]|?].
Qed.

Lemma sorted_app_lt (l k : list Z) :
  StronglySorted Z.lt l -> StronglySorted Z.lt k -> (forall x y, x ∈ l -> y ∈ k -> x < y) ->
  StronglySorted Z.lt (l ++ k).
Proof.
  induction l as [|x l IH]; intros Hl Hk Hlk; [done|]. apply StronglySorted_inv in Hl as [Hl Hf].
  simpl. constructor.
  - apply IH; [done|done|]. intros a b Ha Hb. apply Hlk; [by right|done].
  - apply Forall_app. split; [done|]. apply Forall_forall. intros y Hy. apply Hlk; [by left|done].
Qed.

Lemma sorted_seqZ t n : StronglySorted Z.lt (seqZ t n).
Proof.
  destruct (Z.le_gt_cases 0 n) as [Hn|Hn]; [|by rewrite seqZ_nil by lia; constructor].
  revert t. pattern n. apply natlike_ind; [intros; constructor| |done]. clear n Hn.
  intros n Hn IH t. rewrite seqZ_cons by lia. constructor; [by rewrite Z.pred_succ|].
  apply Forall_forall. intros x Hx%elem_of_seqZ. lia.
Qed.

Lemma sorted_drop (n : nat) (l : list Z) : StronglySorted Z.lt l -> StronglySorted Z.lt (drop n l).
Proof.
  revert l. induction n as [|n IH]; intros l Hl; [by rewrite drop_0|]. destruct l as [|x l]; [constructor|].
  simpl. apply IH. by apply StronglySorted_inv in Hl as [? _].
Qed.

(** Increasing integers up to [top]: at most [top - t] of them are above [t]. *)
Lemma sorted_above (top : Z) (l : list Z) :
  StronglySorted Z.lt l -> Forall (fun x => x <= top) l -> forall t, Forall (Z.lt t) l ->
  Z.of_nat (length l) <= Z.max 0 (top - t).
Proof.
  induction 1 as [|x l Hs IH Hf]; intros Ht t Hl; [simpl; lia|].
  apply Forall_cons in Ht as [Hx Ht]. apply Forall_cons in Hl as [Hxt _].
  specialize (IH Ht x Hf). simpl length. lia.
Qed.

(** Retention keeps the tokens less than 256 below the newest. *)
Lemma recent_kept (top : Z) (l : list (Z * Status)) kv :
  StronglySorted Z.lt (fst <$> l) -> Forall (fun kv => fst kv <= top) l ->
  kv ∈ l -> top - fst kv < 256 -> kv ∈ drop (length l - 256) l.
Proof.
  intros Hs Ht (l1 & l2 & ->)%list_elem_of_split Hn.
  assert (Z.of_nat (length l2) <= Z.max 0 (top - fst kv)) as Hl.
  { rewrite fmap_app, fmap_cons in Hs. apply Forall_app in Ht as [_ [_ Ht]%Forall_cons].
    rewrite <- (length_fmap fst). apply sorted_above.
    - clear -Hs. induction l1 as [|x l1 IH]; apply StronglySorted_inv in Hs as [Hs ?]; [done|]. by apply IH.
    - by apply Forall_fmap.
    - clear -Hs. induction l1 as [|x l1 IH]; apply StronglySorted_inv in Hs as [Hs ?]; [done|]. by apply IH. }
  rewrite length_app. simpl length. rewrite drop_app, elem_of_app. right.
  replace (length l1 + S (length l2) - 256 - length l1)%nat with 0%nat by lia. by left.
Qed.

Section Answers.
Context (handled last_ : Z) (st : Status) (m : list (Z * Status)).
Context (Hm : StronglySorted Z.lt (fst <$> m)) (Hk : Forall (fun kv => 0 < fst kv <= handled) m).
Context (H0 : 0 <= handled <= last_).

(** The records before and after retention. *)
Definition all_answers : list (Z * Status) :=
  m ++ ((fun k => (k, st)) <$> seqZ (handled + 1) (last_ - handled)).
Definition kept_answers : list (Z * Status) :=
  prune_pass_results_locked (record_results (Z.to_nat (last_ - handled)) (handled + 1) st m).

Lemma kept_all : kept_answers = drop (length all_answers - 256) all_answers.
Proof.
  unfold kept_answers. rewrite record_results_app.
  - rewrite prune_drop. unfold all_answers. by rewrite Z2Nat.id by lia.
  - eapply Forall_impl; [exact Hk|]. simpl. lia.
Qed.

Lemma all_sorted : StronglySorted Z.lt (fst <$> all_answers).
Proof using Hm Hk.
  unfold all_answers. rewrite fmap_app. apply sorted_app_lt; [done| |].
  - rewrite <- list_fmap_compose. simpl. rewrite list_fmap_id. apply sorted_seqZ.
  - intros x y (kv & -> & Hin)%list_elem_of_fmap Hy. rewrite Forall_forall in Hk. apply Hk in Hin.
    rewrite <- list_fmap_compose in Hy. simpl in Hy. rewrite list_fmap_id in Hy.
    apply elem_of_seqZ in Hy. lia.
Qed.

Lemma kept_sorted : StronglySorted Z.lt (fst <$> kept_answers).
Proof using Hm Hk H0. rewrite kept_all, fmap_drop. apply sorted_drop, all_sorted. Qed.

Lemma kept_range : Forall (fun kv => 0 < fst kv <= last_) kept_answers.
Proof using Hm Hk H0.
  rewrite kept_all. apply Forall_drop. unfold all_answers. apply Forall_app. split.
  - eapply Forall_impl; [exact Hk|]. simpl. lia.
  - apply Forall_fmap, Forall_forall. intros x Hx%elem_of_seqZ. simpl. lia.
Qed.

Lemma kept_size : vsize kept_answers <= kMaxRetainedPasses.
Proof using Hm Hk H0. rewrite kept_all. unfold vsize, kMaxRetainedPasses. rewrite length_drop. lia. Qed.

Lemma all_range : Forall (fun kv => fst kv <= last_) all_answers.
Proof using Hk H0.
  unfold all_answers. apply Forall_app. split.
  - eapply Forall_impl; [exact Hk|]. simpl. lia.
  - apply Forall_fmap, Forall_forall. intros x Hx%elem_of_seqZ. simpl. lia.
Qed.

(** A recent record is kept. *)
Lemma kept_recent t x : (t, x) ∈ all_answers -> last_ - t < 256 -> map_find t kept_answers = Some x.
Proof using Hm Hk H0.
  intros Hin Hn. apply map_find_elem; [apply kept_sorted|]. rewrite kept_all.
  by apply (recent_kept last_); [apply all_sorted|apply all_range|..].
Qed.

(** A record is an old one for the same token or one of this pass. *)
Lemma kept_old t x :
  map_find t kept_answers = Some x -> (handled < t <= last_ /\ x = st) \/ map_find t m = Some x.
Proof using Hm Hk H0.
  intros Hf. apply map_find_elem in Hf; [|apply kept_sorted]. rewrite kept_all in Hf.
  eapply elem_of_subseteq in Hf; [|apply subseteq_drop]. unfold all_answers in Hf. apply elem_of_app in Hf as [Hf|Hf].
  - right. by apply map_find_elem.
  - left. apply list_elem_of_fmap in Hf as (k & [= -> ->] & Hin%elem_of_seqZ). split; [lia|done].
Qed.
End Answers.

(** A finished pass leaves well-formed records. *)
Lemma answer_tokens_wf seq last_ st (c : WorkerCore) :
  tokens_wf seq (core_tokens c) -> flush_done_ c <= last_ <= seq ->
  tokens_wf seq (core_tokens (answer_tokens (flush_done_ c) last_ st c)).
Proof.
  intros (H0 & Hm & Hk & _) Hl. simpl in H0, Hm, Hk. assert (0 <= flush_done_ c <= last_) as Hr by lia.
  split; [simpl; lia|]. unfold core_tokens, fst, snd.
  change (pass_results_ _) with (kept_answers (flush_done_ c) last_ st (pass_results_ c)).
  split; [by apply kept_sorted|]. split; [by apply kept_range|by apply kept_size].
Qed.

(** The answer to a recent token of the pass. *)
Lemma answer_tokens_new seq last_ st (c : WorkerCore) t :
  tokens_wf seq (core_tokens c) -> flush_done_ c < t <= last_ -> last_ - t < 256 ->
  map_find t (pass_results_ (answer_tokens (flush_done_ c) last_ st c)) = Some st.
Proof.
  intros (H0 & Hm & Hk & _) Ht Hn. simpl in H0, Hm, Hk. assert (0 <= flush_done_ c <= last_) as Hr by lia.
  change (pass_results_ _) with (kept_answers (flush_done_ c) last_ st (pass_results_ c)).
  apply (kept_recent _ _ _ _ Hm Hk Hr); [|done].
  apply elem_of_app. right. apply list_elem_of_fmap. exists t. split; [done|]. apply elem_of_seqZ. lia.
Qed.

(** A token of the pass is answered with the status of the pass only. *)
Lemma answer_tokens_only seq last_ st (c : WorkerCore) t x :
  tokens_wf seq (core_tokens c) -> flush_done_ c <= last_ -> flush_done_ c < t ->
  map_find t (pass_results_ (answer_tokens (flush_done_ c) last_ st c)) = Some x -> x = st.
Proof.
  intros (H0 & Hm & Hk & _) Hl Ht Hf. simpl in H0, Hm, Hk.
  apply kept_old in Hf as [[_ ?]|Hf]; [done| |done|done|lia].
  apply map_find_elem in Hf; [|done]. rewrite Forall_forall in Hk. apply Hk in Hf. simpl in Hf. lia.
Qed.

(** * Properties *)

(** C28: The worker answers every flush token with the result of its own pass:
    when a pass ends, the tokens submitted since the previous pass, and only
    those, get the status of this pass; earlier answers are not altered; a token
    less than 256 below the newest one answered still has its answer, so a
    waiting caller reads exactly the status of the pass that served it; the
    number of records stays within the retention bound. *)
Theorem flush_answers_exact seq last_ st (c : WorkerCore) :
  tokens_wf seq (core_tokens c) -> flush_done_ c <= last_ <= seq ->
  let c' := answer_tokens (flush_done_ c) last_ st c in
  tokens_wf seq (core_tokens c') /\ flush_done_ c' = last_ /\
  (forall t, flush_done_ c < t <= last_ -> last_ - t < 256 -> flush_result_locked c' t = st) /\
  (forall t x, t <= flush_done_ c -> last_ - t < 256 -> map_find t (pass_results_ c) = Some x ->
     flush_result_locked c' t = x) /\
  (forall t x, map_find t (pass_results_ c') = Some x ->
     flush_done_ c < t <= last_ /\ x = st \/ map_find t (pass_results_ c) = Some x).
Proof.
  intros Hwf Hl c'. pose proof Hwf as (H0 & Hm & Hk & _). simpl in H0, Hm, Hk.
  assert (0 <= flush_done_ c <= last_) as Hr by lia.
  split; [by apply answer_tokens_wf|]. split; [done|]. split; [|split].
  - intros t Ht Hn. unfold flush_result_locked, c'. by rewrite (answer_tokens_new seq).
  - intros t x Ht Hn Hf. unfold flush_result_locked.
    change (pass_results_ c') with (kept_answers (flush_done_ c) last_ st (pass_results_ c)).
    rewrite (kept_recent _ _ _ _ Hm Hk Hr t x); [done| |done]. apply elem_of_app. left. by apply map_find_elem.
  - intros t x Hf. by apply kept_old in Hf.
Qed.

Lemma flush_answers_exact_witness :
  let c := mkCore [] false false 5 2 0 status_ok status_ok [(1, status_ok); (2, unserviced)] false in
  let c' := answer_tokens (flush_done_ c) 4 unserviced c in
  flush_result_locked c' 1 = status_ok /\ flush_result_locked c' 4 = unserviced.
Proof.
  intros c c'. destruct (flush_answers_exact 5 4 unserviced c) as (_ & _ & Hnew & Hold & _).
  - split; [simpl; lia|]. split; [repeat constructor|]. split; [repeat constructor; simpl; lia|]. vm_compute. discriminate.
  - simpl. lia.
  - split; [apply (Hold 1 status_ok); [simpl; lia|lia|reflexivity]|apply Hnew; simpl; lia].
Defined.
