(* ===== verification/Wakeup.v ===== *)
(** Sleeping and waking: the condition variables of EventQueue
    (src/event_queue.cpp) and of WorkerCore (src/worker.cpp).

    Worker.v and Client.v take a wait as over. Here the waits themselves are
    modelled: the worker sleeps in [EventQueue::pop_wait], other threads sleep
    in [WorkerCore::wait_flush] and [WorkerCore::wait_finished]; a notification
    is a step of its own, after the mutex was released, and wakes only who
    sleeps at that moment. A run is any interleaving of the steps of the worker
    and of any number of client threads; a sleeper may also wake for no reason
    or when its time is up. What the worker does with the events between two
    waits is the subject of the other files. *)
From S2P Require Import Prelude Types Queue Tokens Pipeline.

Local Open Scope Z_scope.

(** * Definitions *)

(** What a client thread waits for on [WorkerCore::cv_]. *)
Inductive Cond : Type :=
| Token (token : Z)
| Exit.

(** Where a client thread is inside a call. *)
Inductive ThreadPc : Type :=
| Outside
| PushTell                     (* try_push: pushed, not notified yet *)
| StopKick                     (* request_stop: stop_ is stored *)
| StopTell                     (* request_stop: kicked_ is set *)
| FlushTake                    (* submit_flush: the barrier is raised *)
| FlushKick (token : Z)        (* submit_flush: the token is taken *)
| FlushTell (token : Z)        (* submit_flush: kicked_ is set *)
| Waiting (c : Cond)           (* about to look at the condition, or woken *)
| Asleep (c : Cond).           (* inside cv_.wait_for *)

(** Where the worker is in [WorkerCore::run]; [handled] is handled_flush, [want]
    the latched flush_seq_. *)
Inductive WorkerPc : Type :=
| WTop (handled : Z)                       (* at the top of the loop *)
| WPop (handled want : Z)                  (* enters pop_wait, or woken inside it *)
| WAsleep (handled want : Z)               (* inside cv_.wait_for of the queue *)
| WWork (handled want : Z)                 (* has its batch *)
| WDrain (handled want : Z) (rounds : nat) (* the loop of a flush pass *)
| WAnswer (handled want : Z)               (* the outcome is known *)
| WTell (want : Z)                         (* recorded, not notified yet *)
| WCheck (handled : Z)                     (* before the test of stop_ *)
| WEnd (handled : Z)                       (* has left the loop *)
| WLast                                    (* finished_ is stored, not notified yet *)
| WGone.                                   (* the thread has ended *)

Record World : Type := mkWorld {
  w_queue : EventQueue;
  w_stop : bool;
  w_barrier : Z;
  w_seq : Z;
  w_done : Z;
  w_finished : bool;
  w_worker : WorkerPc;
  w_threads : list ThreadPc
}.

Definition put_queue (q : EventQueue) (w : World) : World :=
  mkWorld q (w_stop w) (w_barrier w) (w_seq w) (w_done w) (w_finished w) (w_worker w) (w_threads w).
Definition set_worker (pc : WorkerPc) (w : World) : World :=
  mkWorld (w_queue w) (w_stop w) (w_barrier w) (w_seq w) (w_done w) (w_finished w) pc (w_threads w).
Definition set_threads (l : list ThreadPc) (w : World) : World :=
  mkWorld (w_queue w) (w_stop w) (w_barrier w) (w_seq w) (w_done w) (w_finished w) (w_worker w) l.
Definition set_thread (i : nat) (pc : ThreadPc) (w : World) : World := set_threads (<[i := pc]> (w_threads w)) w.

(** ** Notifications *)

(** [EventQueue::cv_]: only the worker waits on it. *)
Definition wake_worker (w : World) : World :=
  match w_worker w with
  | WAsleep handled want => set_worker (WPop handled want) w
  | _ => w
  end.

Definition woken (pc : ThreadPc) : ThreadPc := match pc with Asleep c => Waiting c | _ => pc end.

(** [WorkerCore::cv_.notify_all()]. *)
Definition wake_threads (w : World) : World := set_threads (woken <$> w_threads w) w.

(** The conditions of [wait_flush] and [wait_finished]. *)
Definition over (c : Cond) (w : World) : bool :=
  match c with
  | Token token => (token <=? w_done w) || w_finished w
  | Exit => w_finished w
  end.

Section Wakeup.
(** Config::batch_size. *)
Context (batch_size : Z).
(** How often the loop of a flush pass goes round. *)
Context (rounds : Z -> nat).

(** The end of [pop_wait]: the lock is held. *)
Definition take_batch (w : World) : World :=
  let '(_, _, q) := pop_wait (w_queue w) batch_size [] in put_queue q w.

(** The next step of the worker, unless it sleeps or has ended. *)
Definition worker_next (w : World) : option World :=
  match w_worker w with
  | WTop handled => Some (set_worker (WPop handled (w_seq w)) w)
  | WPop handled want =>
      if wake_predicate (w_queue w) || (handled <? want)
      then Some (set_worker (WWork handled want) (take_batch w))
      else Some (set_worker (WAsleep handled want) w)
  | WAsleep _ _ => None
  | WWork handled want =>
      Some (set_worker (if handled <? want then WDrain handled want (rounds want) else WCheck handled) w)
  | WDrain handled want 0 => Some (set_worker (WAnswer handled want) w)
  | WDrain handled want (S n) => Some (set_worker (WDrain handled want n) (take_batch w))
  | WAnswer handled want =>
      Some (mkWorld (w_queue w) (w_stop w) (w_barrier w) (w_seq w) want (w_finished w) (WTell want) (w_threads w))
  | WTell want => Some (set_worker (WCheck want) (wake_threads w))
  | WCheck handled => Some (set_worker (if w_stop w then WEnd handled else WTop handled) w)
  | WEnd handled =>
      Some (mkWorld (w_queue w) (w_stop w) (w_barrier w) (w_seq w) (w_seq w) true WLast (w_threads w))
  | WLast => Some (set_worker WGone (wake_threads w))
  | WGone => None
  end.

(** Where an exception can leave the loop, with handled_flush. *)
Definition may_throw (pc : WorkerPc) : option Z :=
  match pc with
  | WPop handled _ | WWork handled _ | WDrain handled _ _ | WAnswer handled _ => Some handled
  | _ => None
  end.

Inductive step : World -> World -> Prop :=
(* the worker *)
| step_worker w w' : worker_next w = Some w' -> step w w'
| step_spurious w handled want :
    w_worker w = WAsleep handled want -> step w (set_worker (WPop handled want) w)
| step_timeout w handled want :
    w_worker w = WAsleep handled want -> step w (set_worker (WWork handled want) (take_batch w))
| step_throw w handled :
    may_throw (w_worker w) = Some handled -> step w (set_worker (WEnd handled) w)
(* try_push *)
| step_push w i e q :
    w_threads w !! i = Some Outside -> try_push (w_queue w) e = (true, q) ->
    step w (set_thread i PushTell (put_queue q w))
| step_push_tell w i :
    w_threads w !! i = Some PushTell -> step w (set_thread i Outside (wake_worker w))
(* clear *)
| step_clear w i :
    w_threads w !! i = Some Outside -> step w (put_queue (snd (queue_clear (w_queue w))) w)
(* request_stop *)
| step_stop w i :
    w_threads w !! i = Some Outside ->
    step w (set_thread i StopKick
      (mkWorld (w_queue w) true (w_barrier w) (w_seq w) (w_done w) (w_finished w) (w_worker w) (w_threads w)))
| step_stop_kick w i :
    w_threads w !! i = Some StopKick -> step w (set_thread i StopTell (put_queue (kick (w_queue w)) w))
| step_stop_tell w i :
    w_threads w !! i = Some StopTell -> step w (set_thread i Outside (wake_worker w))
(* submit_flush, then wait_flush *)
| step_barrier w i b :
    w_threads w !! i = Some Outside ->
    step w (set_thread i FlushTake
      (mkWorld (w_queue w) (w_stop w) (if w_barrier w <? b then b else w_barrier w) (w_seq w) (w_done w) (w_finished w)
         (w_worker w) (w_threads w)))
| step_take w i :
    w_threads w !! i = Some FlushTake ->
    let token := wrap64 (w_seq w + 1) in
    step w (set_thread i (FlushKick token)
      (mkWorld (w_queue w) (w_stop w) (w_barrier w) token (w_done w) (w_finished w) (w_worker w) (w_threads w)))
| step_flush_kick w i token :
    w_threads w !! i = Some (FlushKick token) ->
    step w (set_thread i (FlushTell token) (put_queue (kick (w_queue w)) w))
| step_flush_tell w i token :
    w_threads w !! i = Some (FlushTell token) -> step w (set_thread i (Waiting (Token token)) (wake_worker w))
(* wait_finished *)
| step_wait_exit w i :
    w_threads w !! i = Some Outside -> step w (set_thread i (Waiting Exit) w)
(* a wait on WorkerCore::cv_ *)
| step_look w i c :
    w_threads w !! i = Some (Waiting c) -> step w (set_thread i (if over c w then Outside else Asleep c) w)
| step_stir w i c :
    w_threads w !! i = Some (Asleep c) -> step w (set_thread i (Waiting c) w)
| step_give_up w i c :
    w_threads w !! i = Some (Asleep c) -> step w (set_thread i Outside w).

(** The worker was just started; [n] client threads. *)
Definition initial (capacity batch_threshold : Z) (n : nat) : World :=
  mkWorld (new_queue capacity batch_threshold) false 0 0 0 false (WTop 0) (replicate n Outside).

(** The states after at most [k] steps. *)
Inductive reachable (w0 : World) : nat -> World -> Prop :=
| reach_start k : reachable w0 k w0
| reach_step k w w' : reachable w0 k w -> step w w' -> reachable w0 (S k) w'.

(** The worker alone, for [k] steps or until it sleeps or ends. *)
Fixpoint worker_steps (k : nat) (w : World) : World :=
  match k with
  | O => w
  | S k' => match worker_next w with Some w' => worker_steps k' w' | None => w end
  end.

(** ** The invariant *)

(** The thread is about to kick the queue; to notify its consumer. *)
Definition kicks (pc : ThreadPc) : bool := match pc with StopKick | FlushKick _ => true | _ => false end.
Definition tells (pc : ThreadPc) : bool := match pc with PushTell | StopTell | FlushTell _ => true | _ => false end.

(** A thread that has changed something and has not notified the worker yet. *)
Definition midway (pc : ThreadPc) : bool := match pc with FlushTake => true | _ => kicks pc || tells pc end.

Definition some_thread (f : ThreadPc -> bool) (w : World) : Prop :=
  exists i pc, w_threads w !! i = Some pc /\ f pc = true.

(** The worker will be told: the queue is kicked, or a thread is about to kick. *)
Definition alarm (w : World) : Prop := kicked_ (w_queue w) = true \/ some_thread kicks w.

(** The value of flush_done_ that belongs to a point of the worker. *)
Definition done_at (pc : WorkerPc) : option Z :=
  match pc with
  | WTop h | WPop h _ | WAsleep h _ | WWork h _ | WDrain h _ _ | WAnswer h _ | WTell h | WCheck h => Some h
  | WEnd _ | WLast | WGone => None
  end.

(** The worker has read that it need not stop, and goes to sleep next. *)
Definition resting (pc : WorkerPc) : bool := match pc with WTop _ | WPop _ _ | WAsleep _ _ => true | _ => false end.

(** The flush_seq_ the worker goes to sleep with. *)
Definition latched (pc : WorkerPc) : option Z := match pc with WPop _ want | WAsleep _ want => Some want | _ => None end.

(** What the worker is told. *)
Record Told (w : World) : Prop := {
  told_stop : resting (w_worker w) = true -> w_stop w = true -> alarm w;
  told_seq : forall want, latched (w_worker w) = Some want -> w_seq w = want \/ alarm w;
  told_sleep : forall h want, w_worker w = WAsleep h want ->
    (h <? want) = false /\ (wake_predicate (w_queue w) = true -> some_thread tells w)
}.

(** What the waiting threads are told. *)
Record Answered (w : World) : Prop := {
  ans_done : forall h, done_at (w_worker w) = Some h -> w_done w = h;
  ans_finished : w_finished w = match w_worker w with WLast | WGone => true | _ => false end;
  ans_asleep : forall i c, w_threads w !! i = Some (Asleep c) -> over c w = true ->
    match w_worker w with WTell _ | WLast => True | _ => False end
}.

(** The token a thread holds. *)
Definition token_of (pc : ThreadPc) : option Z :=
  match pc with
  | FlushKick t | FlushTell t | Waiting (Token t) | Asleep (Token t) => Some t
  | _ => None
  end.

(** After at most [k] steps: tokens that threads hold have been issued. *)
Definition Issued (k : nat) (w : World) : Prop :=
  0 <= w_seq w <= Z.of_nat k /\ forall i pc t, w_threads w !! i = Some pc -> token_of pc = Some t -> t <= w_seq w.

(** Nothing is left to be told. *)
Definition quiet (w : World) : Prop := forall i pc, w_threads w !! i = Some pc -> midway pc = false.

(** * Lemmas *)

Lemma quiet_none f w : (forall pc, f pc = true -> midway pc = true) -> quiet w -> ~ some_thread f w.
Proof using. intros Hf Hq (i & pc & Hi & Hpc). apply Hf in Hpc. rewrite (Hq i pc Hi) in Hpc. done. Qed.

Lemma kicks_midway pc : kicks pc = true -> midway pc = true.
Proof using. by destruct pc. Qed.

Lemma tells_midway pc : tells pc = true -> midway pc = true.
Proof using. by destruct pc. Qed.

(** ** Threads *)

Lemma some_kept f i old pc w :
  w_threads w !! i = Some old -> (f old = true -> f pc = true) -> some_thread f w -> some_thread f (set_thread i pc w).
Proof using.
  intros Hi Hf (j & pc' & Hj & Hpc). unfold some_thread. simpl. destruct (decide (i = j)) as [<-|Hne].
  - exists i, pc. split; [by eapply list_lookup_insert_eq, lookup_lt_Some|]. apply Hf. congruence.
  - exists j, pc'. by rewrite list_lookup_insert_ne.
Qed.

Lemma some_new f i old pc w :
  w_threads w !! i = Some old -> f pc = true -> some_thread f (set_thread i pc w).
Proof using. intros Hi Hf. exists i, pc. split; [by eapply list_lookup_insert_eq, lookup_lt_Some|done]. Qed.

Lemma some_woken f w :
  (forall c, f (Asleep c) = f (Waiting c)) -> some_thread f w -> some_thread f (wake_threads w).
Proof using.
  intros Hf (i & pc & Hi & Hpc). exists i, (woken pc). simpl. rewrite list_lookup_fmap, Hi. split; [done|].
  destruct pc; simpl; try done. by rewrite <- Hf.
Qed.

Lemma alarm_kept i old pc w :
  w_threads w !! i = Some old -> (kicks old = true -> kicks pc = true) -> alarm w -> alarm (set_thread i pc w).
Proof using. intros Hi Hk [?|?]; [by left|right; by eapply some_kept]. Qed.

(** ** The worker is told *)

Lemma told_worker w w' : Told w -> worker_next w = Some w' -> Told w'.
Proof using.
  intros [Hs Hq Hz] Hn. unfold worker_next in Hn.
  destruct (w_worker w) as [h|h want|h want|h want|h want [|n]|h want|h|h|h| |] eqn:Hpc; simplify_eq; try by constructor.
  - constructor; simpl; [intros _; by apply Hs|by intros want [= <-]; left|done].
  - destruct (wake_predicate (w_queue w) || (h <? want)) eqn:E; simplify_eq.
    + constructor; simpl; try done; by unfold take_batch; destruct (pop_wait _ _ _) as [[? ?] ?].
    + apply orb_false_iff in E as [E1 E2]. constructor; simpl; [by apply Hs|by apply Hq|].
      intros h' want' [= <- <-]. split; [done|]. by rewrite E1.
  - by destruct (h <? want).
  - destruct (w_stop w) eqn:Hst; constructor; simpl; try done. by rewrite Hst.
Qed.

(** A thread changes the queue and moves on: what becomes of the worker's news. *)
Lemma told_thread w i old pc q :
  Told w -> w_threads w !! i = Some old ->
  (kicked_ (w_queue w) = true -> kicked_ q = true) ->
  (kicks old = true -> kicks pc = true \/ kicked_ q = true) ->
  (tells old = true -> tells pc = true) ->
  (wake_predicate q = true -> wake_predicate (w_queue w) = true \/ tells pc = true) ->
  Told (set_thread i pc (put_queue q w)).
Proof using.
  intros [Hs Hq Hz] Hi Hk Hkk Ht Hp.
  assert (alarm w -> alarm (set_thread i pc (put_queue q w))) as Ha.
  { intros [Hx|Hx]; [left; by apply Hk|]. destruct (kicked_ q) eqn:Eq; [by left|]. right.
    eapply some_kept; [exact Hi| |exact Hx]. intros Hold. by destruct (Hkk Hold). }
  constructor; simpl.
  - intros Hr Hst. by apply Ha, Hs.
  - intros want Hl. destruct (Hq want Hl); [by left|right; by apply Ha].
  - intros h want Hw. destruct (Hz h want Hw) as [H1 H2]. split; [done|]. intros Hpq.
    destruct (Hp Hpq) as [Hold|Hnew]; [|by eapply some_new].
    eapply some_kept; [exact Hi|done|]. by apply H2.
Qed.

(** Telling the worker. *)
Lemma wake_worker_pc w : exists pc,
  wake_worker w = set_worker pc w /\ resting pc = resting (w_worker w) /\ latched pc = latched (w_worker w) /\
  done_at pc = done_at (w_worker w) /\ (pc = w_worker w \/ resting pc = true) /\ forall h want, pc <> WAsleep h want.
Proof using.
  unfold wake_worker. destruct w as [q st b se d f pc th]. simpl.
  destruct pc; (eexists; split; [reflexivity|]); simpl; auto 10.
Qed.

Lemma told_wake w i old pc :
  Told w -> w_threads w !! i = Some old -> kicks old = false -> Told (set_thread i pc (wake_worker w)).
Proof using.
  intros [Hs Hq Hz] Hi Hk. destruct (wake_worker_pc w) as (wp & -> & Hr & Hl & _ & _ & Hn).
  assert (alarm w -> alarm (set_thread i pc (set_worker wp w))) as Ha
    by exact (alarm_kept i old pc (set_worker wp w) Hi ltac:(congruence)).
  constructor; simpl.
  - rewrite Hr. intros ? ?. by apply Ha, Hs.
  - rewrite Hl. intros want Hw. destruct (Hq want Hw); [by left|right; by apply Ha].
  - intros h want Hw. by destruct (Hn h want).
Qed.

(** A thread moves on without touching the queue. *)
Lemma told_moves w i old pc :
  Told w -> w_threads w !! i = Some old -> kicks old = false -> tells old = false -> Told (set_thread i pc w).
Proof using.
  intros Ht Hi Hk He. destruct w. apply (told_thread _ i old pc _ Ht Hi); auto; congruence.
Qed.

Lemma told_step w w' : Told w -> step w w' -> Told w'.
Proof using.
  intros Ht Hst. destruct Hst as [w w' Hn|w h want Hw|w h want Hw|w h Hw|w i e q Hi Hp|w i Hi|w i Hi|w i Hi|w i Hi|w i Hi|w i b Hi|
    w i Hi token|w i t Hi|w i t Hi|w i Hi|w i c Hi|w i c Hi|w i c Hi].
  - by eapply told_worker.
  - destruct Ht as [Hs Hq Hz]. rewrite Hw in Hs, Hq. by constructor.
  - by constructor.
  - by constructor.
  - (* push *) eapply told_thread; [done|exact Hi|..]; try done; [|by right].
    unfold try_push in Hp. destruct (_ <=? _); [done|]. by injection Hp as <-.
  - by eapply told_wake.
  - (* clear *) destruct Ht as [Hs Hq Hz]. constructor; simpl.
    + exact Hs.
    + exact Hq.
    + intros h want Hw. destruct (Hz h want Hw) as [H1 H2]. split; [done|]. intros Hp. apply H2.
      unfold wake_predicate in *. simpl in Hp. apply orb_true_iff in Hp as [Hp|Hp]; [|by rewrite Hp, orb_true_r].
      apply orb_true_iff. left. apply Z.leb_le in Hp. apply Z.leb_le. unfold queue_size in *. simpl in Hp.
      pose proof (vsize_nonneg (queue_ (w_queue w))). change (vsize []) with 0 in Hp. lia.
  - (* stop *) destruct Ht as [Hs Hq Hz]. 
    assert (alarm (set_thread i StopKick
      (mkWorld (w_queue w) true (w_barrier w) (w_seq w) (w_done w) (w_finished w) (w_worker w) (w_threads w)))) as Ha
      by (right; by eapply some_new).
    constructor; simpl; [done|auto|]. intros h want Hw. destruct (Hz h want Hw) as [H1 H2]. split; [done|]. intros Hp.
    eapply some_kept; [exact Hi|done|by apply H2].
  - eapply told_thread; [done|exact Hi|..]; try done; by right.
  - by eapply told_wake.
  - apply (told_moves (mkWorld _ _ _ _ _ _ _ _) i Outside); try done. by destruct Ht.
  - (* the token *) destruct Ht as [Hs Hq Hz].
    assert (alarm (set_thread i (FlushKick token)
      (mkWorld (w_queue w) (w_stop w) (w_barrier w) token (w_done w) (w_finished w) (w_worker w) (w_threads w)))) as Ha
      by (right; by eapply some_new).
    constructor; simpl; [done|auto|]. intros h want Hw. destruct (Hz h want Hw) as [H1 H2]. split; [done|]. intros Hp.
    eapply some_kept; [exact Hi|done|by apply H2].
  - eapply told_thread; [done|exact Hi|..]; try done; by right.
  - by eapply told_wake.
  - by eapply told_moves.
  - by eapply told_moves.
  - by eapply told_moves.
  - by eapply told_moves.
Qed.

(** ** The waiting threads are told *)

Lemma answered_worker w w' : Answered w -> worker_next w = Some w' -> Answered w'.
Proof using.
  intros [Hd Hf Ha] Hn. unfold worker_next in Hn.
  assert (forall pc q, done_at pc = done_at (w_worker w) \/ done_at pc = None ->
    (match pc with WLast | WGone => true | _ => false end) = w_finished w ->
    match w_worker w with WTell _ | WLast => False | _ => True end -> Answered (set_worker pc (put_queue q w))) as Hgo.
  { intros pc q Hpd Hpf Hw. constructor; simpl.
    - intros h Hh. destruct Hpd as [Hpd|Hpd]; [|congruence]. apply Hd. congruence.
    - done.
    - intros i c Hi Ho. specialize (Ha i c Hi Ho). exfalso. by destruct (w_worker w). }
  assert (forall pc, Answered (set_worker pc (put_queue (w_queue w) w)) -> Answered (set_worker pc w)) as Hsame
    by (intros pc; by destruct w).
  assert (forall i c, (woken <$> w_threads w) !! i = Some (Asleep c) -> False) as Hno.
  { intros i c. rewrite list_lookup_fmap. destruct (w_threads w !! i) as [[]|]; simpl; congruence. }
  destruct (w_worker w) as [h|h want|h want|h want|h want [|n]|h want|h|h|h| |] eqn:Hpc; simplify_eq.
  - apply Hsame, Hgo; auto.
  - destruct (_ || _); simplify_eq; [|apply Hsame, Hgo; auto].
    unfold take_batch. destruct (pop_wait _ _ _) as [[? ?] ?]. apply Hgo; auto.
  - apply Hsame, Hgo; [|by destruct (h <? want)|done]. left. by destruct (h <? want).
  - apply Hsame, Hgo; auto.
  - unfold take_batch. destruct (pop_wait _ _ _) as [[? ?] ?]. apply Hgo; auto.
  - constructor; simpl; [congruence|done|done].
  - constructor; simpl; [|done|]; [intros h' [= <-]; by apply Hd|]. intros i c Hi. by destruct (Hno i c).
  - apply Hsame, Hgo; [|by destruct (w_stop w)|done]. destruct (w_stop w); [by right|by left].
  - by constructor.
  - constructor; simpl; [done|done|]. intros i c Hi. by destruct (Hno i c).
Qed.

(** A thread moves on, and goes to sleep only when its condition does not hold. *)
Lemma answered_thread w i pc q st b se :
  Answered w -> (forall c, pc = Asleep c -> over c w = false) ->
  Answered (set_thread i pc (mkWorld q st b se (w_done w) (w_finished w) (w_worker w) (w_threads w))).
Proof using.
  intros [Hd Hf Ha] Hpc. constructor; simpl; [done|done|]. intros j c Hj Ho.
  assert (over c w = true) as Ho' by (by destruct c).
  apply list_lookup_insert_Some in Hj as [(-> & -> & _)|[_ Hj]]; [|by eapply Ha].
  rewrite Hpc in Ho'; done.
Qed.

Lemma answered_wake w i pc :
  Answered w -> (forall c, pc <> Asleep c) -> Answered (set_thread i pc (wake_worker w)).
Proof using.
  intros Ha Hpc. destruct (wake_worker_pc w) as (wp & -> & Hr & _ & Hd & Hw & _).
  assert (Answered (set_worker wp w)) as Ha'.
  { destruct Hw as [->|Hw]; [by destruct w|]. destruct Ha as [H1 H2 H3]. constructor; simpl.
    - by rewrite Hd.
    - rewrite H2. destruct wp; try done; by destruct (w_worker w).
    - intros j c Hj Ho. specialize (H3 j c Hj Ho). exfalso. destruct wp; try done; by destruct (w_worker w). }
  apply (answered_thread (set_worker wp w)); [done|]. intros c Hc. by destruct (Hpc c).
Qed.

Lemma answered_step w w' : Answered w -> step w w' -> Answered w'.
Proof using.
  intros Ha Hst. destruct Hst as [w w' Hn|w h want Hw|w h want Hw|w h Hw|w i e q Hi Hp|w i Hi|w i Hi|w i Hi|w i Hi|w i Hi|w i b Hi|
    w i Hi token|w i t Hi|w i t Hi|w i Hi|w i c Hi|w i c Hi|w i c Hi]; try (by apply answered_thread); try (by apply answered_wake).
  - by eapply answered_worker.
  - destruct Ha as [H1 H2 H3]. rewrite Hw in *. by constructor.
  - destruct Ha as [H1 H2 H3]. rewrite Hw in *. unfold take_batch. destruct (pop_wait _ _ _) as [[? ?] ?]. by constructor.
  - destruct Ha as [H1 H2 H3]. constructor; simpl; [done|rewrite H2; by destruct (w_worker w)|].
    intros i c Hi Ho. specialize (H3 i c Hi Ho). by destruct (w_worker w).
  - destruct Ha as [H1 H2 H3]. by constructor.
  - apply answered_thread; [done|]. intros c'. by destruct (over c w) eqn:E; intros [= <-].
Qed.

(** ** Tokens *)

Lemma issued_more k w w' :
  Issued k w -> w_seq w' = w_seq w ->
  (forall i pc t, w_threads w' !! i = Some pc -> token_of pc = Some t ->
     (exists old, w_threads w !! i = Some old /\ token_of old = Some t)) ->
  Issued (Datatypes.S k) w'.
Proof using.
  intros [Hs Ht] E Hw. split; [rewrite E; lia|]. intros i pc t Hi Hpc. rewrite E. destruct (Hw i pc t Hi Hpc) as (old & Ho & Hot). by eapply Ht.
Qed.

Lemma issued_thread k w i old pc w1 :
  Issued k w -> w_threads w !! i = Some old -> w_threads w1 = w_threads w -> w_seq w1 = w_seq w ->
  (token_of pc = None \/ token_of pc = token_of old) -> Issued (Datatypes.S k) (set_thread i pc w1).
Proof using.
  intros Hk Hi Et Es Hpc. apply (issued_more k w); [done|done|]. simpl. rewrite Et. intros j pc' t Hj Hpc'.
  apply list_lookup_insert_Some in Hj as [(-> & -> & _)|[_ Hj]]; [|eauto].
  exists old. split; [done|]. destruct Hpc; congruence.
Qed.

Lemma issued_worker k w w' : Issued k w -> worker_next w = Some w' -> Issued (Datatypes.S k) w'.
Proof using.
  intros Hk Hn.
  assert (w_seq w' = w_seq w /\ (w_threads w' = w_threads w \/ w_threads w' = woken <$> w_threads w)) as [Es Et].
  { unfold worker_next, take_batch in Hn.
    destruct (w_worker w) as [h|h want|h want|h want|h want [|n]|h want|h|h|h| |]; simplify_eq; simpl; auto.
    - destruct (_ || _); [destruct (pop_wait _ _ _) as [[? ?] ?]|]; simplify_eq; simpl; auto.
    - destruct (pop_wait _ _ _) as [[? ?] ?]; simpl; auto. }
  apply (issued_more k w); [done|done|]. intros i pc t. destruct Et as [-> | ->]; [eauto|].
  rewrite list_lookup_fmap. intros Hi Hpc. destruct (w_threads w !! i) as [old|]; simpl in Hi; [|done].
  exists old. split; [done|]. injection Hi as <-. by destruct old as [| | | | | | |[]|[]].
Qed.

Lemma issued_step k w w' :
  Z.of_nat k < 18446744073709551615 -> Issued k w -> step w w' -> Issued (Datatypes.S k) w'.
Proof using.
  intros Hb Hk Hst. pose proof Hk as [Hs Ht].
  assert (forall w1, w_threads w1 = w_threads w -> w_seq w1 = w_seq w -> Issued (Datatypes.S k) w1) as Hsame.
  { intros w1 E1 E2. apply (issued_more k w); [done|done|]. rewrite E1. eauto. }
  assert (w_threads (wake_worker w) = w_threads w /\ w_seq (wake_worker w) = w_seq w) as [Ewt Ews].
  { by destruct (wake_worker_pc w) as (wp & -> & _). }
  destruct Hst as [w w' Hn|w h want Hw|w h want Hw|w h Hw|w i e q Hi Hp|w i Hi|w i Hi|w i Hi|w i Hi|w i Hi|w i b Hi|
    w i Hi token|w i t Hi|w i t Hi|w i Hi|w i c Hi|w i c Hi|w i c Hi];
    try (by apply Hsame); try (eapply issued_thread; [exact Hk|exact Hi|done|done|simpl; by auto]).
  - by eapply issued_worker.
  - apply Hsame; unfold take_batch; by destruct (pop_wait _ _ _) as [[? ?] ?].
  - assert (token = w_seq w + 1) as Etok by (apply wrap64_small; lia). split; simpl; [lia|].
    intros j pc t Hj Hpc. apply list_lookup_insert_Some in Hj as [(-> & <- & _)|[_ Hj]]; [simpl in Hpc; simplify_eq; done|].
    specialize (Ht j pc t Hj Hpc). lia.
  - eapply issued_thread; [exact Hk|exact Hi|done|done|]. destruct (over c w); auto.
Qed.

(** ** Reachable states *)

Section Reachable.
Context (capacity batch_threshold : Z) (threads : nat).
#[local] Abbreviation start := (initial capacity batch_threshold threads).

Lemma reachable_told k w : reachable start k w -> Told w.
Proof using.
  induction 1 as [k|k w w' _ IH Hst]; [|by eapply told_step]. by constructor.
Qed.

Lemma reachable_answered k w : reachable start k w -> Answered w.
Proof using.
  induction 1 as [k|k w w' _ IH Hst]; [|by eapply answered_step].
  constructor; simpl; [congruence|done|]. intros i c Hi. apply lookup_replicate in Hi as [? _]. done.
Qed.

Lemma reachable_issued k w : Z.of_nat k < 18446744073709551616 -> reachable start k w -> Issued k w.
Proof using.
  intros Hk Hr. induction Hr as [k|k w w' _ IH Hst]; [|eapply issued_step; [lia|apply IH; lia|done]].
  split; simpl; [lia|]. intros i pc t Hi Hpc. apply lookup_replicate in Hi as [-> _]. done.
Qed.

(** The worker does not sleep on news: when no call is half way, a sleeping
    worker has nothing to do. *)
Lemma asleep_idle k w h want :
  reachable start k w -> quiet w -> w_worker w = WAsleep h want ->
  w_stop w = false /\ (h <? w_seq w) = false /\ wake_predicate (w_queue w) = false.
Proof using.
  intros Hr Hq Hw. destruct (reachable_told k w Hr) as [Hs Hl Hz]. destruct (Hz h want Hw) as [Hh Hp].
  assert (wake_predicate (w_queue w) = false) as Hnp.
  { destruct (wake_predicate (w_queue w)); [|done]. destruct (quiet_none tells w tells_midway Hq). by apply Hp. }
  assert (~ alarm w) as Hna.
  { intros [Hk|Hk]; [|by destruct (quiet_none kicks w kicks_midway Hq)].
    unfold wake_predicate in Hnp. by rewrite Hk, orb_true_r in Hnp. }
  rewrite Hw in Hs, Hl. split; [|split; [|done]].
  - destruct (w_stop w); [|done]. destruct Hna. by apply Hs.
  - destruct (Hl want eq_refl) as [->|Ha]; [done|by destruct Hna].
Qed.

(** C13: No wake-up is lost. Beside any number of client threads, whatever is
    interleaved and whoever wakes too early: in every reachable state in which no
    call is half way between a change and its notification, a worker that sleeps
    in pop_wait has not been asked to stop, has no unanswered flush and no full
    batch; and no thread sleeps in wait_flush or wait_finished on a condition
    that holds, except while the worker is about to notify it. *)
Theorem no_lost_wakeup k w :
  reachable start k w ->
  (quiet w -> forall h want, w_worker w = WAsleep h want ->
     w_stop w = false /\ (h <? w_seq w) = false /\ queue_size (w_queue w) < batch_threshold_ (w_queue w) /\
     kicked_ (w_queue w) = false) /\
  (forall i c, w_threads w !! i = Some (Asleep c) -> over c w = true ->
     match w_worker w with WTell _ | WLast => True | _ => False end).
Proof using.
  intros Hr. split; [|exact (ans_asleep _ (reachable_answered k w Hr))].
  intros Hq h want Hw. destruct (asleep_idle k w h want Hr Hq Hw) as (Hst & Hse & Hp). split; [done|]. split; [done|].
  unfold wake_predicate in Hp. apply orb_false_iff in Hp as [Hp Hk]. apply Z.leb_gt in Hp. done.
Qed.

(** ** The worker wakes who waits *)

(** The rounds of a flush pass that is under way or latched. *)
Definition pass_rounds (w : World) : nat :=
  match w_worker w with
  | WPop _ want | WWork _ want => rounds want
  | WDrain _ _ n => n
  | _ => 0
  end.

(** Within [k] steps of the worker alone, [P] holds. *)
Definition within (k : nat) (P : World -> Prop) (w : World) : Prop := exists j, (j <= k)%nat /\ P (worker_steps j w).

Lemma within_now P w k : P w -> within k P w.
Proof using. intros HP. exists 0%nat. split; [lia|done]. Qed.

Lemma within_next P w w' k k' : worker_next w = Some w' -> within k P w' -> (k < k')%nat -> within k' P w.
Proof using. intros Hn (j & Hj & HP) Hk. exists (Datatypes.S j). split; [lia|]. simpl. by rewrite Hn. Qed.

Lemma within_more P w k k' : within k P w -> (k <= k')%nat -> within k' P w.
Proof using. intros (j & Hj & HP) Hk. exists j. split; [lia|done]. Qed.

Section Awaited.
Context (i : nat) (t : Z).

(** The thread waits for an issued token. *)
Definition waits_on (w : World) : Prop :=
  (w_threads w !! i = Some (Asleep (Token t)) \/ w_threads w !! i = Some (Waiting (Token t))) /\ t <= w_seq w.

(** The thread has been woken and its wait is over. *)
Definition awake (w : World) : Prop :=
  w_threads w !! i = Some (Waiting (Token t)) /\ over (Token t) w = true.

Lemma woken_lookup w : waits_on w -> (woken <$> w_threads w) !! i = Some (Waiting (Token t)).
Proof using. rewrite list_lookup_fmap. by intros [[-> | ->] _]. Qed.

(** The end of the run. *)
Lemma wakes_end w h : waits_on w -> w_worker w = WEnd h -> within 2 awake w.
Proof using.
  intros Hs Hw. eapply (within_next _ _ _ 1); [by unfold worker_next; rewrite Hw| |lia].
  eapply (within_next _ _ _ 0); [done|apply within_now|lia]. split; [by apply woken_lookup|]. simpl. by rewrite orb_true_r.
Qed.

(** A pass that answers the token. *)
Lemma wakes_answer w h want : waits_on w -> t <= want -> w_worker w = WAnswer h want -> within 2 awake w.
Proof using.
  intros Hs Ht Hw. eapply (within_next _ _ _ 1); [by unfold worker_next; rewrite Hw| |lia].
  eapply (within_next _ _ _ 0); [done|apply within_now|lia]. split; [by apply woken_lookup|]. simpl.
  apply Z.leb_le in Ht. by rewrite Ht.
Qed.

Lemma take_batch_same w :
  w_threads (take_batch w) = w_threads w /\ w_seq (take_batch w) = w_seq w /\ w_stop (take_batch w) = w_stop w /\
  w_done (take_batch w) = w_done w.
Proof using. unfold take_batch. by destruct (pop_wait _ _ _) as [[? ?] ?]. Qed.

Lemma waits_batch w pc : waits_on w -> waits_on (set_worker pc (take_batch w)).
Proof using. destruct (take_batch_same w) as (E1 & E2 & _). unfold waits_on. simpl. by rewrite E1, E2. Qed.

(** Through the rounds of a pass. *)
Lemma through_drain P (Q : World -> Prop) k w h want n :
  (forall w', w_worker w' = WAnswer h want -> Q w' -> within k P w') ->
  (forall w' pc, Q w' -> Q (set_worker pc w')) -> (forall w' pc, Q w' -> Q (set_worker pc (take_batch w'))) ->
  Q w -> w_worker w = WDrain h want n -> within (n + 1 + k) P w.
Proof using.
  intros Hend Hq1 Hq2. revert w. induction n as [|n IH]; intros w HQ Hw.
  - eapply (within_next _ _ _ k); [by unfold worker_next; rewrite Hw|apply Hend; [done|by apply Hq1]|lia].
  - eapply (within_next _ _ _ (n + 1 + k)); [by unfold worker_next; rewrite Hw|apply IH; [by apply Hq2|done]|lia].
Qed.

(** A pass that was latched after the token was issued. *)
Lemma wakes_pass w h want :
  waits_on w -> t <= want -> h < want -> w_worker w = WPop h want -> within (rounds want + 5) awake w.
Proof using.
  intros Hs Ht Hh Hw. assert ((h <? want) = true) as Hlt by (by apply Z.ltb_lt).
  eapply (within_next _ _ _ (rounds want + 4)); [unfold worker_next; by rewrite Hw, Hlt, orb_true_r| |lia].
  eapply (within_next _ _ _ (rounds want + 1 + 2)); [done| |lia]. rewrite Hlt.
  apply (through_drain awake waits_on 2 _ h want (rounds want)); [|done|by intros; apply waits_batch| |done].
  - intros w' Hw' Hs'. by eapply wakes_answer.
  - by apply (waits_batch w (WDrain _ _ _)).
Qed.

(** From the top of the loop, and from the test of stop_. *)
Lemma wakes_top w h : waits_on w -> h < t -> w_worker w = WTop h -> within (rounds (w_seq w) + 6) awake w.
Proof using.
  intros Hs Hh Hw. eapply (within_next _ _ _ (rounds (w_seq w) + 5)); [by unfold worker_next; rewrite Hw| |lia].
  apply (wakes_pass _ h (w_seq w)); [done|apply Hs|destruct Hs; lia|done].
Qed.

Lemma wakes_check w h : waits_on w -> h < t -> w_worker w = WCheck h -> within (rounds (w_seq w) + 7) awake w.
Proof using.
  intros Hs Hh Hw. destruct (w_stop w) eqn:Hst.
  - eapply (within_next _ _ _ 2); [unfold worker_next; by rewrite Hw, Hst|by apply (wakes_end _ h)|lia].
  - eapply (within_next _ _ _ (rounds (w_seq w) + 6)); [unfold worker_next; by rewrite Hw, Hst|by apply (wakes_top (set_worker (WTop h) w) h)|lia].
Qed.

(** A notification that comes too early for the token. *)
Lemma wakes_late w want :
  waits_on w -> want < t -> w_worker w = WTell want -> within (rounds (w_seq w) + 8) awake w.
Proof using.
  intros Hs Ht Hw. eapply (within_next _ _ _ (rounds (w_seq w) + 7)); [by unfold worker_next; rewrite Hw| |lia].
  apply (wakes_check (set_worker (WCheck want) (wake_threads w)) want); [|done|done].
  split; [right; by apply woken_lookup|apply Hs].
Qed.

(** The rest of a pass, whether it answers the token or not. *)
Lemma wakes_any_answer w h want : waits_on w -> w_worker w = WAnswer h want -> within (rounds (w_seq w) + 9) awake w.
Proof using.
  intros Hs Hw. destruct (Z.le_gt_cases t want) as [Ht|Ht]; [eapply within_more; [by eapply wakes_answer|lia]|].
  eapply (within_next _ _ _ (rounds (w_seq w) + 8)); [by unfold worker_next; rewrite Hw| |lia].
  by apply (wakes_late (mkWorld _ _ _ _ want _ (WTell want) _) want).
Qed.

Lemma wakes_any_drain w h want n :
  waits_on w -> w_worker w = WDrain h want n -> within (n + rounds (w_seq w) + 10) awake w.
Proof using.
  intros Hs Hw. remember (w_seq w) as se eqn:Hse. eapply within_more.
  - apply (through_drain awake (fun w => waits_on w /\ w_seq w = se) (rounds se + 9) _ h want n); [| | |by split|done].
    + intros w' Hw' [Hs' <-]. by eapply wakes_any_answer.
    + done.
    + intros w' pc [Hs' Es]. split; [by apply waits_batch|]. simpl. by destruct (take_batch_same w') as (_ & -> & _).
  - lia.
Qed.

Lemma wakes_any_work w h want :
  waits_on w -> h < t -> w_worker w = WWork h want -> within (rounds want + rounds (w_seq w) + 11) awake w.
Proof using.
  intros Hs Hh Hw. destruct (h <? want) eqn:Hlt.
  - eapply (within_next _ _ _ (rounds want + rounds (w_seq w) + 10)); [unfold worker_next; by rewrite Hw, Hlt| |lia].
    by apply (wakes_any_drain (set_worker (WDrain h want (rounds want)) w) h want).
  - eapply (within_next _ _ _ (rounds (w_seq w) + 7)); [unfold worker_next; by rewrite Hw, Hlt| |lia].
    by apply (wakes_check (set_worker (WCheck h) w) h).
Qed.

End Awaited.

(** Something was told: the worker finds the queue kicked. *)
Lemma quiet_alarm w : quiet w -> alarm w -> wake_predicate (w_queue w) = true.
Proof using.
  intros Hq [Hk|Hk]; [|by destruct (quiet_none kicks w kicks_midway Hq)]. unfold wake_predicate. by rewrite Hk, orb_true_r.
Qed.

(** C14: No flush waits for a timer. In every reachable state in which no call is
    half way, a thread that sleeps in wait_flush is woken, with its condition
    true, by the steps of the worker alone: at most twelve, and the rounds of the
    pass that is under way and of the one that answers the token. No time has to
    run out. *)
Theorem flush_is_answered k w i t :
  Z.of_nat k < 18446744073709551616 -> reachable start k w -> quiet w ->
  w_threads w !! i = Some (Asleep (Token t)) ->
  within (pass_rounds w + rounds (w_seq w) + 12) (awake i t) w.
Proof using.
  intros Hk Hr Hq Hi. destruct (reachable_issued k w Hk Hr) as [_ Ht]. specialize (Ht i _ t Hi eq_refl).
  destruct (reachable_answered k w Hr) as [Hd Hf Ha]. destruct (reachable_told k w Hr) as [_ Hl _].
  assert (waits_on i t w) as Hs by (split; [by left|done]).
  specialize (Ha i _ Hi). simpl in Ha. unfold pass_rounds.
  destruct (w_worker w) as [h|h want|h want|h want|h want n|h want|h|h|h| |] eqn:Hw; try rewrite (Hd _ eq_refl), Hf in Ha;
    rewrite ?orb_false_r, ?Hf, ?orb_true_r in Ha.
  - eapply within_more; [eapply wakes_top; [done| |done]|lia]. destruct (Z.leb_spec t h); [by destruct Ha|done].
  - assert (h < t) as Hh by (destruct (Z.leb_spec t h); [by destruct Ha|done]).
    assert (wake_predicate (w_queue w) || (h <? want) = true) as Hp.
    { destruct (Z.ltb_spec h want); [by rewrite orb_true_r|]. rewrite orb_false_r. apply quiet_alarm; [done|].
      destruct (Hl want eq_refl); [lia|done]. }
    eapply (within_next _ _ (set_worker (WWork h want) (take_batch w)) (rounds want + rounds (w_seq w) + 11));
      [unfold worker_next; by rewrite Hw, Hp| |lia].
    destruct (take_batch_same w) as (_ & E & _). rewrite <- E.
    apply (wakes_any_work i t (set_worker (WWork h want) (take_batch w)) h want); [by apply waits_batch|done|done].
  - assert (h < t) as Hh by (destruct (Z.leb_spec t h); [by destruct Ha|done]).
    destruct (asleep_idle k w h want Hr Hq Hw) as (_ & Hse & _). lia.
  - eapply within_more; [eapply wakes_any_work; [done| |done]|lia]. destruct (Z.leb_spec t h); [by destruct Ha|done].
  - eapply within_more; [by eapply wakes_any_drain|lia].
  - eapply within_more; [by eapply wakes_any_answer|lia].
  - destruct (Z.leb_spec t h) as [Hth|Hth]; [|eapply within_more; [by eapply wakes_late|lia]].
    eapply (within_next _ _ _ 0); [by unfold worker_next; rewrite Hw|apply within_now|lia].
    split; [by apply woken_lookup|]. simpl. rewrite (Hd h eq_refl). apply Z.leb_le in Hth. by rewrite Hth.
  - eapply within_more; [eapply wakes_check; [done| |done]|lia]. destruct (Z.leb_spec t h); [by destruct Ha|done].
  - eapply within_more; [by eapply wakes_end|lia].
  - eapply (within_next _ _ _ 0); [by unfold worker_next; rewrite Hw|apply within_now|lia].
    split; [by apply woken_lookup|]. simpl. by rewrite Hf, orb_true_r.
  - by destruct Ha.
Qed.

(** ** The worker ends when it is asked to *)

(** The thread has ended, and nobody sleeps on its condition variable. *)
Definition ended (w : World) : Prop :=
  w_worker w = WGone /\ w_finished w = true /\ forall i c, w_threads w !! i <> Some (Asleep c).

Lemma woken_awake (l : list ThreadPc) i c : (woken <$> l) !! i <> Some (Asleep c).
Proof using. rewrite list_lookup_fmap. destruct (l !! i) as [[]|]; simpl; congruence. Qed.

Lemma ends_end w h : w_worker w = WEnd h -> within 2 ended w.
Proof using.
  intros Hw. eapply (within_next _ _ _ 1); [by unfold worker_next; rewrite Hw| |lia].
  eapply (within_next _ _ _ 0); [done|apply within_now|lia]. split; [done|]. split; [done|]. intros i c. apply woken_awake.
Qed.

Lemma ends_check w h : w_stop w = true -> w_worker w = WCheck h -> within 3 ended w.
Proof using.
  intros Hst Hw. eapply (within_next _ _ _ 2); [unfold worker_next; by rewrite Hw, Hst|by apply (ends_end _ h)|lia].
Qed.

Lemma ends_tell w h : w_stop w = true -> w_worker w = WTell h -> within 4 ended w.
Proof using.
  intros Hst Hw. eapply (within_next _ _ _ 3); [by unfold worker_next; rewrite Hw|by apply (ends_check _ h)|lia].
Qed.

Lemma ends_answer w h want : w_stop w = true -> w_worker w = WAnswer h want -> within 5 ended w.
Proof using.
  intros Hst Hw. eapply (within_next _ _ _ 4); [by unfold worker_next; rewrite Hw|by apply (ends_tell _ want)|lia].
Qed.

Lemma ends_drain w h want n : w_stop w = true -> w_worker w = WDrain h want n -> within (n + 6) ended w.
Proof using.
  intros Hst Hw. eapply within_more; [apply (through_drain ended (fun w => w_stop w = true) 5 _ h want n); [| | |done|done]|lia].
  - intros w' Hw' Hs'. by eapply ends_answer.
  - done.
  - intros w' pc Hs'. simpl. by destruct (take_batch_same w') as (_ & _ & -> & _).
Qed.

Lemma ends_work w h want : w_stop w = true -> w_worker w = WWork h want -> within (rounds want + 7) ended w.
Proof using.
  intros Hst Hw. destruct (h <? want) eqn:Hlt.
  - eapply (within_next _ _ _ (rounds want + 6)); [unfold worker_next; by rewrite Hw, Hlt|by apply (ends_drain _ h want)|lia].
  - eapply (within_next _ _ _ 3); [unfold worker_next; by rewrite Hw, Hlt|by apply (ends_check _ h)|lia].
Qed.

Lemma ends_pop w h want :
  w_stop w = true -> wake_predicate (w_queue w) = true -> w_worker w = WPop h want -> within (rounds want + 8) ended w.
Proof using.
  intros Hst Hp Hw. eapply (within_next _ _ _ (rounds want + 7)); [unfold worker_next; by rewrite Hw, Hp| |lia].
  apply (ends_work _ h want); [|done]. simpl. by destruct (take_batch_same w) as (_ & _ & -> & _).
Qed.

(** C15: A stop is obeyed at once. In every reachable state in which stop_ is set
    and no call is half way, the worker alone reaches the end of its thread in at
    most nine steps and the rounds of one flush pass, without any time running
    out; every thread that slept in wait_flush or wait_finished has then been
    woken. *)
Theorem stop_is_obeyed k w :
  reachable start k w -> quiet w -> w_stop w = true ->
  within (pass_rounds w + rounds (w_seq w) + 9) ended w.
Proof using.
  intros Hr Hq Hst. destruct (reachable_answered k w Hr) as [_ Hf Ha]. destruct (reachable_told k w Hr) as [Hs _ _].
  unfold pass_rounds. destruct (w_worker w) as [h|h want|h want|h want|h want n|h want|h|h|h| |] eqn:Hw.
  - eapply (within_next _ _ _ (rounds (w_seq w) + 8)); [by unfold worker_next; rewrite Hw| |lia].
    apply (ends_pop (set_worker (WPop h (w_seq w)) w) h); [done| |done]. apply quiet_alarm; [done|]. by apply Hs.
  - eapply within_more; [eapply ends_pop; [done| |done]|lia]. apply quiet_alarm; [done|]. by apply Hs.
  - destruct (asleep_idle k w h want Hr Hq Hw) as [Hno _]. congruence.
  - eapply within_more; [by eapply ends_work|lia].
  - eapply within_more; [by eapply ends_drain|lia].
  - eapply within_more; [by eapply ends_answer|lia].
  - eapply within_more; [by eapply ends_tell|lia].
  - eapply within_more; [by eapply ends_check|lia].
  - eapply within_more; [by eapply ends_end|lia].
  - eapply (within_next _ _ _ 0); [by unfold worker_next; rewrite Hw|apply within_now|lia].
    split; [done|]. split; [done|]. intros i c. apply woken_awake.
  - apply within_now. split; [done|]. split; [done|]. intros i c Hi. apply (Ha i c Hi).
    destruct c; simpl; rewrite Hf; [apply orb_true_r|done].
Qed.

End Reachable.

End Wakeup.

(** * Witnesses *)

(** Two client threads; the worker goes to sleep. *)
#[local] Abbreviation one_round := (fun _ : Z => 1%nat).
#[local] Abbreviation fresh_world := (initial 8 4 2).
Definition asleep_world : World := worker_steps 10 one_round 2 fresh_world.

(** One step further in a run. *)
Tactic Notation "walk" hyp(H) uconstr(st) := eapply reach_step in H; [|eapply st; reflexivity]; cbv -[Z.lt] in H.

Lemma asleep_reached : reachable 10 one_round fresh_world 2 asleep_world.
Proof.
  pose proof (reach_start 10 one_round fresh_world 0) as H. walk H (step_worker 10 one_round). walk H (step_worker 10 one_round). exact H.
Qed.

Lemma no_lost_wakeup_witness :
  w_worker asleep_world = WAsleep 0 0 /\ w_stop asleep_world = false /\ (0 <? w_seq asleep_world) = false /\
  queue_size (w_queue asleep_world) < batch_threshold_ (w_queue asleep_world) /\ kicked_ (w_queue asleep_world) = false.
Proof.
  split; [reflexivity|].
  refine (proj1 (no_lost_wakeup 10 one_round 8 4 2 2 asleep_world asleep_reached) _ 0 0 eq_refl).
  intros [|[|i]] pc; by intros [= <-].
Defined.

(** A thread submits a flush, wakes the worker and goes to sleep. *)
Definition flushing_world : World :=
  mkWorld (kick (w_queue asleep_world)) false 3 1 0 false (WPop 0 0) [Asleep (Token 1); Outside].

Lemma flushing_reached : reachable 10 one_round fresh_world 7 flushing_world.
Proof.
  pose proof asleep_reached as H. walk H (step_barrier 10 one_round _ 0 3). walk H (step_take 10 one_round _ 0).
  walk H (step_flush_kick 10 one_round _ 0 1). walk H (step_flush_tell 10 one_round _ 0 1).
  walk H (step_look 10 one_round _ 0 (Token 1)). exact H.
Qed.

Lemma flush_is_answered_witness :
  within 10 one_round 14 (awake 0 1) flushing_world /\ pass_rounds one_round flushing_world = 1%nat.
Proof.
  split; [|reflexivity].
  refine (flush_is_answered 10 one_round 8 4 2 7 flushing_world 0 1 ltac:(done) flushing_reached _ eq_refl).
  intros [|[|i]] pc; by intros [= <-].
Defined.

(** A thread asks the sleeping worker to stop. *)
Definition stopping_world : World :=
  mkWorld (kick (w_queue asleep_world)) true 0 0 0 false (WPop 0 0) [Outside; Outside].

Lemma stopping_reached : reachable 10 one_round fresh_world 5 stopping_world.
Proof.
  pose proof asleep_reached as H. walk H (step_stop 10 one_round _ 1). walk H (step_stop_kick 10 one_round _ 1).
  walk H (step_stop_tell 10 one_round _ 1). exact H.
Qed.

Lemma stop_is_obeyed_witness : within 10 one_round 11 ended stopping_world.
Proof.
  refine (stop_is_obeyed 10 one_round 8 4 2 5 stopping_world stopping_reached _ eq_refl).
  intros [|[|i]] pc; by intros [= <-].
Defined.
