(* ===== verification/Skeleton.v ===== *)
(** The worker of Worker.v walks the states of Wakeup.v.

    Wakeup.v models when threads sleep and wake, with the worker reduced to the
    points that matter for it; Worker.v models what the worker does at those
    points. Here the second is shown to refine the first: a run of
    [WorkerCore::run] beside any schedule of other threads, projected to the queue,
    the stop flag, the tokens and the barrier, is a run of Wakeup.v. The schedule's
    steps are made by one client thread that is outside of every call in between;
    a batch taken without reason to wake is one whose time ran out. *)
From S2P Require Import Prelude Types Serializer Validator Queue Ids Session Sqlite Store StoreSpec StoreIface Pipeline Admission Worker Tokens Wakeup.

Local Open Scope Z_scope.
Local Open Scope pt_scope.

Create HintDb stays.

Section Skeleton.
Context {S K : Type} `{!StoreOps S} `{!SinkOps K}.
Context (dump : json -> library_call string).
#[local] Abbreviation Sy := (Sys S K).
(** Config::batch_size. *)
Context (size : Z).

(** * Definitions *)

(** What Wakeup.v sees of the system, with the worker at [pc]. *)
Definition skeleton (pc : WorkerPc) (s : Sy) : World :=
  mkWorld (queue (pipe s)) (stop_ (core s)) (flush_barrier_ (core s)) (flush_seq_ (core s)) (flush_done_ (core s))
    (finished_ (core s)) pc [Outside].

(** A step of Wakeup.v, however often the loop of a flush pass goes round. *)
Definition some_step (w w' : World) : Prop := exists rounds, step size rounds w w'.

Definition sized (s : Sy) : Prop := cfg_batch_size (config (pipe s)) = size.

(** The system goes from [s] to [s'] while the worker goes from [pc] to [pc']. *)
Definition walks (pc pc' : WorkerPc) (s s' : Sy) : Prop :=
  sized s -> sized s' /\ rtc some_step (skeleton pc s) (skeleton pc' s').

(** The computation moves the worker from [pc] to [pc']. *)
Definition walk {A} (pc pc' : WorkerPc) (m : M Sy A) : Prop := forall s, walks pc pc' s (snd (m s)).

Definition awake (pc : WorkerPc) : Prop := match pc with WAsleep _ _ => False | _ => True end.

(** It leaves the worker where it is. *)
Definition stays {A} (m : M Sy A) : Prop := forall pc, awake pc -> walk pc pc m.

(** It takes some rounds of a flush pass. *)
Definition laps {A} (handled want : Z) (m : M Sy A) : Prop :=
  forall s, exists r, forall k, walks (WDrain handled want (r + k)) (WDrain handled want k) s (snd (m s)).

(** * Lemmas *)

Lemma walks_trans pc1 pc2 pc3 s1 s2 s3 : walks pc1 pc2 s1 s2 -> walks pc2 pc3 s2 s3 -> walks pc1 pc3 s1 s3.
Proof using.
  intros H1 H2 Hs. destruct (H1 Hs) as [Hs2 Hw1]. destruct (H2 Hs2) as [Hs3 Hw2]. split; [done|].
  by etrans.
Qed.

Lemma walk_then {A B} pc1 pc2 pc3 (m : M Sy A) (k : A -> M Sy B) :
  walk pc1 pc2 m -> (forall a, walk pc2 pc3 (k a)) -> walk pc1 pc3 (mthen m k).
Proof using.
  intros Hm Hk s. unfold mthen. specialize (Hm s). destruct (m s) as [a s1]. eapply walks_trans; [exact Hm|apply Hk].
Qed.

Lemma stays_then {A B} (m : M Sy A) (k : A -> M Sy B) : stays m -> (forall a, stays (k a)) -> stays (mthen m k).
Proof using. intros Hm Hk pc Hpc. eapply walk_then; [by apply Hm|]. intros a. by apply Hk. Qed.

Lemma walk_stay {A B} pc pc' (m : M Sy A) (k : A -> M Sy B) :
  awake pc -> stays m -> (forall a, walk pc pc' (k a)) -> walk pc pc' (mthen m k).
Proof using. intros Hpc Hm. by apply walk_then, Hm. Qed.

(** One step of the worker. *)
Lemma worker_walks pc pc' rounds s :
  worker_next size rounds (skeleton pc s) = Some (skeleton pc' s) -> walks pc pc' s s.
Proof using. intros Hn Hs. split; [done|]. apply rtc_once. exists rounds. by apply step_worker. Qed.

(** Nothing of what Wakeup.v sees has changed. *)
Lemma stays_frame {A} (m : M Sy A) :
  (forall s, skeleton WGone (snd (m s)) = skeleton WGone s /\
     cfg_batch_size (config (pipe (snd (m s)))) = cfg_batch_size (config (pipe s))) -> stays m.
Proof using.
  intros Hm pc _ s Hs. destruct (Hm s) as [He Hc]. split; [unfold sized; by rewrite Hc|].
  replace (skeleton pc (snd (m s))) with (skeleton pc s); [apply rtc_refl|]. unfold skeleton in *.
  injection He. intros. congruence.
Qed.

Lemma stays_return {A} (a : A) : stays (mreturn a).
Proof using. by apply stays_frame. Qed.

Lemma stays_get {A} (f : Sy -> A) : stays (mget f).
Proof using. by apply stays_frame. Qed.

Lemma stays_with_store {A} (m : M S A) : stays (with_store m).
Proof using. apply stays_frame. intros s. unfold with_store. by destruct (m _). Qed.

Lemma stays_with_sink {A} (m : M K A) : stays (with_sink m).
Proof using. apply stays_frame. intros s. unfold with_sink. by destruct (m _). Qed.

(** ** What changes the queue and the tokens *)

(** A step of the client thread, named by its constructor. *)
Lemma takes w w1 w2 : step size (fun _ => 0%nat) w w1 -> w1 = w2 -> some_step w w2.
Proof using. intros Hw <-. by exists (fun _ => 0%nat). Qed.

Tactic Notation "client_step" uconstr(c) := eapply rtc_l; [eapply takes; [by eapply c|reflexivity]|].

Lemma stays_push e : stays (with_queue (fun q => try_push q e)).
Proof using.
  intros pc Hpc s Hs. unfold with_queue. destruct (try_push (queue (pipe s)) e) as [b q] eqn:E. split; [done|].
  destruct b.
  - client_step (step_push _ _ _ 0 e q).
    apply rtc_once. eapply takes; [by eapply (step_push_tell _ _ _ 0)|]. by destruct pc.
  - unfold try_push in E. destruct (_ <=? _); [|done]. injection E as <-. apply rtc_refl.
Qed.

Lemma stays_clear : stays (with_queue queue_clear).
Proof using.
  intros pc Hpc s Hs. split; [done|]. apply rtc_once.
  eapply takes; [by apply (step_clear _ _ (skeleton pc s) 0)|reflexivity].
Qed.

Lemma stays_request_stop : stays request_stop.
Proof using.
  intros pc Hpc s Hs. split; [done|]. client_step (step_stop _ _ _ 0).
  client_step (step_stop_kick _ _ _ 0).
  apply rtc_once. eapply takes; [by eapply (step_stop_tell _ _ _ 0)|]. by destruct pc.
Qed.

Lemma stays_submit_flush b : stays (submit_flush b).
Proof using.
  intros pc Hpc s Hs. split.
  { unfold sized in *. simpl. by repeat case_match. }
  client_step (step_barrier _ _ _ 0 b).
  client_step (step_take _ _ _ 0).
  client_step (step_flush_kick _ _ _ 0).
  client_step (step_flush_tell _ _ _ 0).
  match goal with |- rtc _ ?w _ => set (w1 := w) end.
  set (token := wrap64 (flush_seq_ (core s) + 1)).
  assert (w_threads w1 !! 0%nat = Some (Waiting (Token token))) as Ht by (by destruct pc).
  assert (skeleton pc (snd (submit_flush b s)) = set_thread 0 Outside w1) as He.
  { unfold w1, skeleton. simpl. destruct pc; try done; by repeat case_match. }
  rewrite He. client_step (step_look _ _ _ 0 _ Ht).
  destruct (over (Token token) w1); [apply rtc_refl|].
  apply rtc_once. eapply takes; [eapply (step_give_up _ _ _ 0)|]; by destruct pc.
Qed.

#[local] Hint Resolve stays_return stays_get @stays_with_store @stays_with_sink stays_push stays_clear stays_request_stop
  stays_submit_flush : stays.
#[local] Hint Extern 5 (stays (mput _)) =>
  apply stays_frame; intros ?; unfold on_pipe, on_core, on_impl; simpl; repeat case_match; done : stays.

(** Steps through a computation that never moves the worker. *)
Ltac staying :=
  repeat (intros; match goal with
  | |- stays _ => solve [auto with stays]
  | |- stays (mthen _ _) => apply stays_then
  | |- stays (if ?b then _ else _) => destruct b
  | |- stays (match ?x with _ => _ end) => destruct x
  | |- stays (let '_ := ?x in _) => destruct x
  end).

(** ** Other threads *)

Lemma stays_log l t : stays (log l t).
Proof using. unfold log. staying. Qed.

Lemma stays_report_error e : stays (report_error e).
Proof using. unfold report_error. staying. Qed.

Lemma stays_read_clock : stays read_clock.
Proof using. apply stays_frame. intros s. unfold read_clock. repeat case_match; done. Qed.

Lemma stays_take_next : stays take_next.
Proof using. apply stays_frame. intros s. unfold take_next. by destruct (session_next _). Qed.

Lemma stays_new_id : stays new_id.
Proof using. apply stays_frame. intros s. unfold new_id. by destruct (uuid4 _). Qed.

Lemma stays_begin p : stays (begin_session p).
Proof using.
  unfold begin_session. apply stays_then; [apply stays_read_clock|]. intros now. apply stays_frame. intros s.
  by destruct (session_begin _ _ _ _) as [[? ?] ?].
Qed.

#[local] Hint Resolve stays_log stays_report_error stays_read_clock stays_take_next stays_new_id stays_begin : stays.

Lemma stays_give_back n : stays (give_back n).
Proof using. unfold give_back, upd_stats, release_outstanding. staying. Qed.

Lemma stays_terminal : stays terminal_locked.
Proof using. unfold terminal_locked. staying. Qed.
#[local] Hint Resolve stays_give_back stays_terminal : stays.

Lemma stays_admit name props : stays (admit_locked name props).
Proof using.
  unfold admit_locked, next_ordinal, add_outstanding, release_outstanding, push, upd_session, upd_stats. staying.
Qed.
#[local] Hint Resolve stays_admit : stays.

Lemma stays_end_locked : stays end_session_locked.
Proof using. unfold end_session_locked, upd_session. staying. Qed.
#[local] Hint Resolve stays_end_locked : stays.

Lemma stays_start p : stays (start_session_locked p).
Proof using. unfold start_session_locked, reserve_locked, upd_session, upd_stats. staying. Qed.

Lemma stays_end : stays end_session_section.
Proof using. unfold end_session_section. staying. Qed.

Lemma stays_consent_step : stays consent_step.
Proof using.
  unfold consent_step, bump_consent_generation, upd_session, forget_errors, purge_mark, purge_delete, purge_finish,
    grant_section, set_consent_state, reset_outstanding, goto. staying.
Qed.

Lemma stays_consent_enter c : stays (consent_enter c).
Proof using. unfold consent_enter, set_consent_state, goto. staying. Qed.

Lemma stays_flush_section : stays flush_section.
Proof using. unfold flush_section. staying. Qed.

Lemma stays_drain_section : stays drain_section.
Proof using. unfold drain_section. staying. Qed.

Lemma stays_cancel : stays request_sink_cancel.
Proof using. unfold request_sink_cancel. staying. Qed.

#[local] Hint Resolve stays_start stays_end stays_consent_step stays_consent_enter stays_flush_section stays_drain_section
  stays_cancel : stays.

Lemma stays_perform a : stays (perform a).
Proof using. destruct a; simpl; unfold admission, track_section; staying. Qed.

Lemma stays_beside a : stays (perform_beside_store a).
Proof using.
  unfold perform_beside_store. apply stays_then; [apply stays_get|]. intros pc. pose proof (stays_perform a).
  destruct a; by staying.
Qed.

Lemma stays_interleave st : (forall a, stays (st a)) -> stays (interleave st).
Proof using.
  intros Hst pc Hpc s Hs. unfold interleave. destruct (schedule s) as [|acts rest]; [by split; [|apply rtc_refl]|].
  assert (stays (perform_all st acts)) as Hp.
  { induction acts as [|a acts IH]; [apply stays_return|]. by apply stays_then. }
  by apply (Hp pc Hpc (set_schedule rest s)).
Qed.

Lemma stays_env : stays env.
Proof using. apply stays_interleave, stays_perform. Qed.

Lemma stays_shared {A} (m : M Sy A) : stays m -> stays (shared m).
Proof using. intros Hm. apply stays_then; [apply stays_env|done]. Qed.

Lemma stays_storing {A} (m : M Sy A) : stays m -> stays (storing m).
Proof using. intros Hm. apply stays_then; [apply stays_interleave, stays_beside|done]. Qed.
#[local] Hint Resolve stays_shared stays_storing : stays.

(** ** The worker between two waits *)

Lemma stays_note_error e : stays (note_error e).
Proof using. unfold note_error. staying. Qed.

Lemma stays_write batch : stays (safe_write batch).
Proof using. unfold safe_write, record_write. staying. Qed.

Lemma stays_sink_flush : stays safe_flush_sink.
Proof using. unfold safe_flush_sink. staying. Qed.

Lemma stays_take_retry : stays take_retry.
Proof using. unfold take_retry. staying. Qed.

Lemma stays_hold batch : stays (hold_for_retry batch).
Proof using. unfold hold_for_retry. staying. Qed.
#[local] Hint Resolve stays_note_error stays_write stays_sink_flush stays_take_retry stays_hold : stays.

Lemma stays_purge : stays purge_store.
Proof using. unfold purge_store, reset_outstanding. staying. Qed.

Lemma stays_remains b : stays (work_remains_at_or_below b).
Proof using. unfold work_remains_at_or_below. staying. Qed.

Lemma stays_insert g r : stays (insert_at_boundary g r).
Proof using. unfold insert_at_boundary, get_consent, get_generation. staying. Qed.

Lemma stays_keep g batch : stays (keep_loop dump g batch).
Proof using. induction batch as [|qe batch IH]; simpl; unfold upd_stats, release_outstanding; staying. Qed.
#[local] Hint Resolve stays_purge stays_remains stays_insert stays_keep : stays.

Lemma stays_incoming drained : stays (process_incoming dump drained).
Proof using. unfold process_incoming, get_generation, get_consent, upd_stats, release_outstanding. staying. Qed.

Lemma stays_deliver fuel b : stays (deliver_loop fuel b).
Proof using.
  revert b. induction fuel as [|fuel IH]; intros b; simpl;
    unfold still_consented, get_consent, get_generation, upd_stats, release_outstanding; staying.
Qed.
#[local] Hint Resolve stays_incoming stays_deliver : stays.

(** ** The points of the worker *)

(** A batch is taken. *)
Lemma pop_skeleton pc pc' s :
  sized s -> sized (snd (pop_batch s)) /\
    skeleton pc' (snd (pop_batch s)) = set_worker pc' (take_batch size (skeleton pc s)).
Proof using.
  intros Hs. unfold pop_batch. rewrite mget_then. unfold with_queue, take_batch, sized in *. rewrite Hs.
  change (w_queue (skeleton pc s)) with (queue (pipe s)).
  by destruct (pop_wait (queue (pipe s)) size []) as [[moved out] q].
Qed.

Lemma walk_shared {A} pc pc' (m : M Sy A) : awake pc -> walk pc pc' m -> walk pc pc' (shared m).
Proof using. intros Hpc Hm. apply walk_stay; [done|apply stays_env|done]. Qed.

(** The wait of [pop_wait] is over: the condition holds, or the time was up. *)
Lemma walk_pop handled want : walk (WPop handled want) (WWork handled want) pop_batch.
Proof using.
  intros s Hs. destruct (pop_skeleton (WPop handled want) (WWork handled want) s Hs) as [Hs' He]. split; [done|]. rewrite He.
  destruct (wake_predicate (queue (pipe s)) || (handled <? want)) eqn:Hw.
  - apply rtc_once. exists (fun _ => 0%nat). apply step_worker. unfold worker_next. simpl. by rewrite Hw.
  - eapply rtc_l.
    + exists (fun _ => 0%nat). apply (step_worker _ _ _ (skeleton (WAsleep handled want) s)).
      unfold worker_next. simpl. by rewrite Hw.
    + apply rtc_once. eapply takes; [by apply (step_timeout _ _ _ handled want)|].
      unfold take_batch. simpl. by destruct (pop_wait _ _ _) as [[? ?] ?].
Qed.

(** ** Rounds of a flush pass *)

Lemma laps_stays {A} h want (m : M Sy A) : stays m -> laps h want m.
Proof using. intros Hm s. exists 0%nat. intros k. by apply Hm. Qed.

Lemma laps_then {A B} h want (m : M Sy A) (k : A -> M Sy B) :
  laps h want m -> (forall a, laps h want (k a)) -> laps h want (mthen m k).
Proof using.
  intros Hm Hk s. unfold mthen. destruct (Hm s) as [r1 H1]. destruct (m s) as [a s1]. destruct (Hk a s1) as [r2 H2].
  exists (r1 + r2)%nat. intros j. rewrite <- Nat.add_assoc. by eapply walks_trans.
Qed.

Lemma laps_pop h want : laps h want pop_batch.
Proof using.
  intros s. exists 1%nat. intros k Hs. destruct (pop_skeleton (WDrain h want (1 + k)) (WDrain h want k) s Hs) as [Hs' ->].
  split; [done|]. apply rtc_once. exists (fun _ => 0%nat). by apply step_worker.
Qed.

Lemma laps_drain h want n fuel barrier : laps h want (drain_loop dump n fuel barrier).
Proof using.
  induction n as [|n IH]; simpl; [by apply laps_stays, stays_return|].
  apply laps_then; [apply laps_stays; staying|]. intros [why|]; [|by apply laps_stays, stays_return].
  apply laps_then; [apply laps_stays; staying|]. intros before.
  apply laps_then; [apply laps_then; [apply laps_stays, stays_env|intros _; apply laps_pop]|]. intros more.
  apply laps_then; [apply laps_stays; staying|]. intros _.
  apply laps_then; [apply laps_stays; unfold deliver_all; staying|]. intros [delivered|]; [|by apply laps_stays, stays_return].
  destruct (_ && _); [|done]. apply laps_then; [apply laps_stays; staying|]. intros now.
  destruct (_ <=? _); [by apply laps_stays, stays_return|done].
Qed.

(** The answer of a flush pass is recorded, and its waiters are notified. *)
Lemma walk_answer h want st :
  walk (WAnswer h want) (WCheck want) (mput (on_core (answer_tokens h want st))).
Proof using.
  intros s Hs. split; [done|]. eapply rtc_l; [|apply rtc_once]; exists (fun _ => 0%nat); by apply step_worker.
Qed.

(** ** Computations that end at a point their result tells *)

(** [where_ r] is the point of the worker after the result [r]; none when a loop
    ran out of fuel. *)
Definition ends {A} (pc : WorkerPc) (where_ : A -> option WorkerPc) (m : M Sy A) : Prop :=
  forall s, let '(r, s') := m s in
  match where_ r with Some pc' => walks pc pc' s s' | None => exists pc', walks pc pc' s s' end.

Lemma ends_return {A} pc (where_ : A -> option WorkerPc) r :
  (where_ r = Some pc \/ where_ r = None) -> ends pc where_ (mreturn r).
Proof using.
  intros Hr s. cbn. assert (walks pc pc s s) as Hw by (intros Hs; by split; [|apply rtc_refl]).
  destruct Hr as [-> | ->]; [done|by exists pc].
Qed.

(** A first part that always ends at the same point. *)
Lemma ends_then {A B} pc pc' (where_ : B -> option WorkerPc) (m : M Sy A) k :
  walk pc pc' m -> (forall a, ends pc' where_ (k a)) -> ends pc where_ (mthen m k).
Proof using.
  intros Hm Hk s. unfold mthen. specialize (Hm s). destruct (m s) as [a s1]. cbn [snd] in Hm. specialize (Hk a s1).
  destruct (k a s1) as [r s2]. destruct (where_ r); [by eapply walks_trans|].
  destruct Hk as [pc2 Hk]. exists pc2. by eapply walks_trans.
Qed.

Lemma ends_stay {A B} pc (where_ : B -> option WorkerPc) (m : M Sy A) k :
  awake pc -> stays m -> (forall a, ends pc where_ (k a)) -> ends pc where_ (mthen m k).
Proof using. intros Hpc Hm. by apply ends_then, Hm. Qed.

(** A first part that may run out of fuel, and with it the whole. *)
Lemma ends_bind {A B} pc (here : A -> option WorkerPc) (where_ : B -> option WorkerPc) (m : M Sy A) k :
  ends pc here m ->
  (forall a, match here a with
             | Some pc' => ends pc' where_ (k a)
             | None => exists b, k a = mreturn b /\ where_ b = None
             end) ->
  ends pc where_ (mthen m k).
Proof using.
  intros Hm Hk s. unfold mthen. specialize (Hm s). destruct (m s) as [a s1]. specialize (Hk a).
  destruct (here a) as [pc1|].
  - specialize (Hk s1). destruct (k a s1) as [r s2]. destruct (where_ r); [by eapply walks_trans|].
    destruct Hk as [pc2 Hk]. exists pc2. by eapply walks_trans.
  - destruct Hk as (b & -> & Hb). cbn. by rewrite Hb.
Qed.

(** The worker makes one step of its own first. *)
Lemma ends_worker {A} pc pc' rounds (where_ : A -> option WorkerPc) (m : M Sy A) :
  (forall s, worker_next size rounds (skeleton pc s) = Some (skeleton pc' s)) -> ends pc' where_ m -> ends pc where_ m.
Proof using.
  intros Hn Hm s. specialize (Hm s). pose proof (worker_walks _ _ _ _ (Hn s)) as Hw. destruct (m s) as [r s'].
  destruct (where_ r); [by eapply walks_trans|]. destruct Hm as [pc2 Hm]. exists pc2. by eapply walks_trans.
Qed.

Tactic Notation "stay" ident(x) := apply ends_stay; [done|staying|intros x].

(** ** The passes of the worker *)

(** After a flush pass. *)
Definition after_pass (want : Z) (r : option unit) : option WorkerPc :=
  match r with Some _ => Some (WCheck want) | None => None end.

(** The drain of a pass, from the batch to the answer. *)
Lemma drain_ends h want n fuel barrier :
  h < want ->
  ends (WWork h want) (fun r : option unit => match r with Some _ => Some (WAnswer h want) | None => None end)
    (drain_loop dump n fuel barrier).
Proof using.
  intros Hh s. destruct (laps_drain h want n fuel barrier s) as [r Hr]. specialize (Hr 0%nat).
  rewrite Nat.add_0_r in Hr.
  assert (walks (WWork h want) (WDrain h want r) s s) as H1.
  { apply (worker_walks _ _ (fun _ => r)). unfold worker_next. simpl. by rewrite (proj2 (Z.ltb_lt h want) Hh). }
  destruct (drain_loop dump n fuel barrier s) as [[u|] s1]; cbn [snd] in Hr.
  - eapply walks_trans; [exact H1|]. eapply walks_trans; [exact Hr|]. by apply (worker_walks _ _ (fun _ => 0%nat)).
  - exists (WDrain h want 0). by eapply walks_trans.
Qed.

Lemma flush_pass_ends n fuel h want :
  h < want -> ends (WWork h want) (after_pass want) (flush_pass dump n fuel h want).
Proof using.
  intros Hh. unfold flush_pass. stay barrier. eapply ends_bind; [by apply drain_ends|].
  intros [u|]; [|by eexists]. stay flushed. stay x. stay outcome. stay residual.
  eapply ends_then; [apply walk_shared; [done|apply walk_answer]|]. intros _. apply ends_return. by left.
Qed.

(** After an iteration of the loop. *)
Definition after_iteration (r : option (bool * Z)) : option WorkerPc :=
  match r with Some (stop, h) => Some (if stop then WEnd h else WTop h) | None => None end.

(** The end of an iteration: the test of [stop_]. *)
Lemma check_ends h :
  ends (WCheck h) after_iteration
    (let* stop := shared (mget (fun s => stop_ (core s))) in mreturn (Some (stop, h))).
Proof using.
  intros s. unfold shared, mthen, mget, mreturn. pose proof (stays_env (WCheck h) I s) as He.
  destruct (env s) as [u s1]. cbn [snd] in He. simpl. eapply walks_trans; [exact He|].
  apply (worker_walks _ _ (fun _ => 0%nat)). unfold worker_next. simpl. by destruct (stop_ (core s1)).
Qed.

Lemma iteration_ends n fuel h : ends (WTop h) after_iteration (iteration dump n fuel h).
Proof using.
  intros s. unfold iteration, shared at 1. unfold mthen at 1 2. pose proof (stays_env (WTop h) I s) as He.
  destruct (env s) as [u s1]. cbn [snd mget] in He |- *. set (want := flush_seq_ (core s1)).
  assert (walks (WTop h) (WPop h want) s s1) as H1.
  { eapply walks_trans; [exact He|]. by apply (worker_walks _ _ (fun _ => 0%nat)). }
  match goal with |- let '(_, _) := ?m s1 in _ => assert (ends (WPop h want) after_iteration m) as H2 end.
  - stay x. eapply ends_then; [apply walk_shared; [done|apply walk_pop]|]. intros drained. stay y.
    apply ends_stay; [done|unfold deliver_all; staying|]. intros [d|]; [|apply ends_return; by right].
    destruct (h <? want) eqn:Hw.
    + eapply ends_bind; [apply flush_pass_ends; lia|]. intros [f|]; [apply check_ends|by eexists].
    + stay f. destruct f as [f|]; [|apply ends_return; by right].
      apply (ends_worker _ (WCheck h) (fun _ => 0%nat)); [|apply check_ends].
      intros s2. unfold worker_next. simpl. by rewrite Hw.
  - specialize (H2 s1). match goal with |- let '(_, _) := ?m s1 in _ => destruct (m s1) as [r s2] end.
    destruct (after_iteration r); [by eapply walks_trans|]. destruct H2 as [pc2 H2]. exists pc2. by eapply walks_trans.
Qed.

(** After the loop. *)
Definition after_loop (e : loop_exit) : option WorkerPc :=
  match e with
  | Stopped_normally h | Threw h _ => Some (WEnd h)
  | Still_running h => Some (WTop h)
  | Out_of_fuel => None
  end.

Lemma throw_walks h s : walks (WTop h) (WEnd h) s s.
Proof using.
  intros Hs. split; [done|]. eapply rtc_l; [exists (fun _ => 0%nat); by apply step_worker|].
  apply rtc_once. by eapply takes; [apply (step_throw _ _ _ h)|].
Qed.

Lemma run_loop_ends rounds n fuel crash h : ends (WTop h) after_loop (run_loop dump rounds n fuel crash h).
Proof using.
  revert crash h. induction rounds as [|rounds IH]; intros crash h;
    (destruct crash as [[[|c] what]|]; [intros s; apply throw_walks| |]).
  1, 2: by apply ends_return; left.
  all: cbn [run_loop]; eapply ends_bind; [apply iteration_ends|]; intros [[[] h']|]; [stay x; by apply ends_return; left|apply IH|by eexists].
Qed.

(** The epilogue: every waiter is answered and the thread ends. *)
Lemma walk_epilogue h : walk (WEnd h) WGone (run_epilogue h).
Proof using.
  unfold run_epilogue, mark_terminated. apply walk_stay; [done|staying|]. intros terminal.
  apply walk_stay; [done|staying|]. intros _. apply walk_shared; [done|]. intros s Hs. split; [done|].
  eapply rtc_l; [|apply rtc_once]; exists (fun _ => 0%nat); by apply step_worker.
Qed.

(** After [run]. *)
Definition after_run (e : loop_exit) : option WorkerPc :=
  match e with
  | Stopped_normally _ | Threw _ _ => Some WGone
  | Still_running h => Some (WTop h)
  | Out_of_fuel => None
  end.

Lemma run_ends rounds n fuel crash : ends (WTop 0) after_run (run dump rounds n fuel crash).
Proof using.
  unfold run. stay x. eapply ends_bind; [apply run_loop_ends|]. intros [h|h what|h|]; cbn [after_loop].
  - eapply ends_then; [apply walk_epilogue|]. intros _. apply ends_return. by left.
  - unfold catch. stay y. eapply ends_then; [apply walk_epilogue|]. intros _. apply ends_return. by left.
  - apply ends_return. by left.
  - by eexists.
Qed.
End Skeleton.

(** * Property *)

(** C16: The worker refines the model of sleeping and waking. Whatever other
    threads do and however [run] ends, the states of queue, stop flag, flush tokens
    and barrier it goes through, with the effects of the other threads, are those
    of a run of Wakeup.v, from the top of the loop to the end of the thread, or to
    the top of the loop again while it still runs. *)
Theorem worker_refines_wakeup {S K : Type} `{!StoreOps S} `{!SinkOps K} dump rounds n fuel crash (s : Sys S K) :
  let size := cfg_batch_size (config (pipe s)) in
  let '(e, s') := run dump rounds n fuel crash s in
  match e with
  | Stopped_normally _ | Threw _ _ => rtc (some_step size) (skeleton (WTop 0) s) (skeleton WGone s')
  | Still_running h => rtc (some_step size) (skeleton (WTop 0) s) (skeleton (WTop h) s')
  | Out_of_fuel => exists pc, rtc (some_step size) (skeleton (WTop 0) s) (skeleton pc s')
  end.
Proof.
  intros size. pose proof (run_ends dump size rounds n fuel crash s) as Hr.
  destruct (run dump rounds n fuel crash s) as [[h|h what|h|] s']; cbn [after_run] in Hr; [apply Hr; done..|].
  destruct Hr as [pc Hr]. exists pc. by apply Hr.
Qed.

(** A system whose worker was just started is in the first state of Wakeup.v. *)
Lemma skeleton_initial {S K : Type} cfg (snk : K) (st : S) im sched :
  skeleton (WTop 0) (mkSys (new_pipeline cfg snk st) new_core im sched [] [] 0) =
  initial (cfg_max_queue_size cfg) (cfg_batch_size cfg) 1.
Proof. reflexivity. Qed.
