(* ===== verification/Threads.v ===== *)
(** Who owns the worker's thread: class Worker (src/internal/worker.hpp,
    src/worker.cpp) and the calls of Client::Impl that wait for it
    (src/client.cpp).

    std::thread::join throws when there is no thread to join and when a thread
    joins itself, and destroying a std::thread that was not joined ends the
    process. [Worker::join_blocking] runs under join_mutex_, so the calls of several
    threads on one Worker are a sequence; in the model a join is a step that
    ends when the thread has (Wakeup.v shows that it does, once it was asked to
    stop). *)
From S2P Require Import Prelude Types Serializer Pipeline.

Local Open Scope Z_scope.
Local Open Scope pt_scope.

(** * Definitions *)

Module Handle.

(** [class Worker]. A std::thread object owns a thread, given by its id, or none. *)
Record Worker : Type := mkWorker {
  thread_ : option Z;
  thread_id_ : Z;
  started_ : bool;
  handle_joined : bool;
  joins : nat   (* history: how often a thread was joined *)
}.

Definition new_worker : Worker := mkWorker None 0 false false 0.

(** [Worker::start]: the new thread has the id [id]. *)
Definition handle_start (id : Z) (w : Worker) : Worker := mkWorker (Some id) id true (handle_joined w) (joins w).

(** [Worker::is_current_thread], called on the thread [me]. *)
Definition is_current_thread (me : Z) (w : Worker) : bool := started_ w && (me =? thread_id_ w).

(** [std::thread::join]. *)
Definition thread_join (me : Z) : M Worker (library_call unit) := fun w =>
  match thread_ w with
  | None => (StdException "invalid_argument", w)
  | Some id =>
      if me =? id then (StdException "resource_deadlock_would_occur", w)
      else (Value tt, mkWorker None (thread_id_ w) (started_ w) (handle_joined w) (Datatypes.S (joins w)))
  end.

Definition set_joined (w : Worker) : Worker := mkWorker (thread_ w) (thread_id_ w) (started_ w) true (joins w).

(** [Worker::join_blocking]. *)
Definition handle_join (me : Z) : M Worker (library_call unit) :=
  let* joined := mget handle_joined in
  let* owned := mget thread_ in
  if joined || match owned with None => true | Some _ => false end
  then mput set_joined ;; mreturn (Value tt)
  else
  let* r := thread_join me in
  match r with
  | Value _ => mput set_joined ;; mreturn (Value tt)
  | thrown => mreturn thrown
  end.

(** [Worker::wait_and_join]; [finished] is what [wait_finished] answers. *)
Definition handle_wait (me : Z) (finished : bool) : M Worker (library_call bool) :=
  let* started := mget started_ in
  if negb started then mreturn (Value true)
  else if negb finished then mreturn (Value false)
  else
  let* r := handle_join me in
  match r with
  | Value _ => mreturn (Value true)
  | StdException what => mreturn (StdException what)
  | OtherException => mreturn OtherException
  end.

(** [Worker::~Worker], and the destructor of its std::thread: the process ends
    when an exception leaves a destructor, or when a thread is still owned. *)
Definition destroy_handle (me : Z) : M Worker (library_call unit) :=
  let* r := handle_join me in
  match r with
  | Value _ =>
      let* owned := mget thread_ in
      match owned with
      | None => mreturn (Value tt)
      | Some _ => mreturn (StdException "terminate")
      end
  | thrown => mreturn thrown
  end.

(** The part of Client::Impl that owns the worker. *)
Record Owner : Type := mkOwner {
  worker_ : Worker;
  life : LifecycleState
}.

Definition on_worker {A} (m : M Worker A) : M Owner A := fun o =>
  let '(a, w) := m (worker_ o) in (a, mkOwner w (life o)).
Definition owner_life (l : LifecycleState) : M Owner unit := mput (fun o => mkOwner (worker_ o) l).
Definition owner_close : M Owner unit :=
  mput (fun o => mkOwner (worker_ o) (if bool_decide (life o = Running) then Stopping else life o)).

(** [Client::Impl::shutdown] as far as the thread goes: whether it answers that
    the worker has stopped. *)
Definition owner_shutdown (me : Z) (finished : bool) : M Owner (library_call bool) :=
  let* current := mget (fun o => is_current_thread me (worker_ o)) in
  if current then owner_close ;; mreturn (Value false)
  else
  let* l := mget life in
  if bool_decide (l = Stopped) then mreturn (Value true)
  else
  owner_life Stopping ;;
  let* r := on_worker (handle_wait me finished) in
  match r with
  | Value true => owner_life Stopped ;; mreturn (Value true)
  | other => mreturn other
  end.

(** [Client::Impl::wait_for_worker_exit]. *)
Definition owner_wait (me : Z) (finished : bool) : M Owner (library_call bool) :=
  let* current := mget (fun o => is_current_thread me (worker_ o)) in
  if current then mreturn (Value false)
  else
  let* r := on_worker (handle_wait me finished) in
  match r with
  | Value true =>
      mput (fun o => mkOwner (worker_ o) (if bool_decide (life o = Running) then Running else Stopped)) ;;
      mreturn (Value true)
  | other => mreturn other
  end.

(** [Client::Impl::~Impl] and the destruction of its members. *)
Definition owner_destroy (me : Z) (finished : bool) : M Owner (library_call unit) :=
  let* r := owner_shutdown me finished in
  match r with
  | Value _ =>
      let* r2 := on_worker (handle_join me) in
      match r2 with
      | Value _ => on_worker (destroy_handle me)
      | thrown => mreturn thrown
      end
  | StdException what => mreturn (StdException what)
  | OtherException => mreturn OtherException
  end.

(** A client whose constructor has started the worker. *)
Definition new_owner (id : Z) : Owner := mkOwner (handle_start id new_worker) Running.

(** A call on the thread [me]; [finished] is whether the worker's loop had ended
    when the time was up. *)
Inductive Call : Type :=
| CallShutdown (me : Z) (finished : bool)
| CallWait (me : Z) (finished : bool).

Definition call (c : Call) : M Owner (library_call bool) :=
  match c with
  | CallShutdown me finished => owner_shutdown me finished
  | CallWait me finished => owner_wait me finished
  end.

(** Calls in the order in which they take join_mutex_. *)
Fixpoint calls (l : list Call) : M Owner (list (library_call bool)) :=
  match l with
  | [] => mreturn []
  | c :: l' =>
      let* r := call c in
      let* rs := calls l' in
      mreturn (r :: rs)
  end.

(** The thread is owned until it is joined, once; and only then is the client
    stopped. *)
Definition owned (id : Z) (o : Owner) : Prop :=
  started_ (worker_ o) = true /\ thread_id_ (worker_ o) = id /\
  (thread_ (worker_ o) = Some id /\ handle_joined (worker_ o) = false /\ joins (worker_ o) = 0%nat /\ life o <> Stopped \/
   thread_ (worker_ o) = None /\ handle_joined (worker_ o) = true /\ joins (worker_ o) = 1%nat).

(** * Lemmas *)

Lemma handle_join_owned id me o :
  owned id o -> me <> id ->
  let '(r, w) := handle_join me (worker_ o) in
  r = Value tt /\ forall l, owned id (mkOwner w l) /\ handle_joined w = true /\ thread_ w = None /\ joins w = 1%nat.
Proof.
  intros (Hs & Hid & Hc) Hme. destruct o as [[th tid st jd js] l0]. simpl in *. subst st tid.
  unfold handle_join, mthen, mget, mput, thread_join. simpl.
  destruct Hc as [(-> & -> & -> & Hl)|(-> & -> & ->)]; simpl.
  - apply Z.eqb_neq in Hme. rewrite Hme. simpl. split; [done|]. intros l. unfold owned. simpl. by auto 10.
  - split; [done|]. intros l. unfold owned. simpl. by auto 10.
Qed.

Lemma handle_wait_owned id me finished o :
  owned id o -> me <> id ->
  let '(r, w) := handle_wait me finished (worker_ o) in
  r = Value finished /\
  (if finished then forall l, owned id (mkOwner w l) else w = worker_ o).
Proof.
  intros Ho Hme. pose proof (handle_join_owned id me o Ho Hme) as Hj. unfold handle_wait, mthen, mget.
  destruct Ho as (-> & _). simpl. destruct finished; simpl; [|done].
  destruct (handle_join me (worker_ o)) as [r w]. destruct Hj as [-> Hj]. split; [done|]. intros l. by apply Hj.
Qed.

(** Every call keeps the thread owned, and none throws. *)
Lemma call_owned id c o :
  owned id o -> let '(r, o') := call c o in (exists b, r = Value b) /\ owned id o'.
Proof.
  intros Ho. assert (forall me, is_current_thread me (worker_ o) = (me =? id)) as Hcur.
  { intros me. unfold is_current_thread. by destruct Ho as (-> & -> & _). }
  destruct c as [me fin|me fin]; simpl; unfold owner_shutdown, owner_wait, mthen, mget; rewrite Hcur;
    (destruct (Z.eqb_spec me id) as [_|Hme]; [|pose proof (handle_wait_owned id me fin o Ho Hme) as Hw]).
  - split; [by eexists|]. destruct Ho as (? & ? & Hc). unfold owned. simpl. split; [done|]. split; [done|].
    destruct Hc as [(? & ? & ? & ?)|?]; [left|by right]. repeat split; try done. by case_bool_decide.
  - case_bool_decide as Hl; [split; [by eexists|done]|]. unfold owner_life, mput, on_worker. simpl.
    destruct (handle_wait me fin (worker_ o)) as [r w]. destruct Hw as [-> Hw]. destruct fin; simpl; (split; [by eexists|]); [apply Hw|].
    subst w. destruct Ho as (? & ? & Hc). split; [done|]. split; [done|]. destruct Hc as [(? & ? & ? & ?)|?]; [by left|by right].
  - split; [by eexists|done].
  - unfold on_worker. destruct (handle_wait me fin (worker_ o)) as [r w]. destruct Hw as [-> Hw].
    destruct fin; simpl; (split; [by eexists|]); [apply Hw|]. subst w. by destruct o.
Qed.

Lemma calls_owned id l o :
  owned id o -> let '(rs, o') := calls l o in Forall (fun r => exists b, r = Value b) rs /\ owned id o'.
Proof.
  revert o. induction l as [|c l IH]; intros o Ho; simpl; [by split|]. unfold mthen.
  pose proof (call_owned id c o Ho) as Hc. destruct (call c o) as [r o1]. destruct Hc as [Hr Ho1].
  specialize (IH o1 Ho1). destruct (calls l o1) as [rs o2]. destruct IH. split; [by constructor|done].
Qed.

Lemma new_owned id : owned id (new_owner id).
Proof. unfold owned. simpl. by auto 10. Qed.

(** * Theorems *)

(** C25: The worker's thread is never abandoned, joined twice or joined by
    itself. Any number of threads, the worker's own among them, call shutdown()
    and wait_for_worker_exit() in any order: no call throws, and the client
    reaches Stopped only when the thread was joined. When another thread then
    destroys the client, that ends without an exception, the thread has been
    joined exactly once and none is owned any more. *)
Theorem thread_joined_once id l me finished :
  me <> id ->
  let '(rs, o) := calls l (new_owner id) in
  Forall (fun r => exists b, r = Value b) rs /\
  (life o = Stopped -> handle_joined (worker_ o) = true /\ joins (worker_ o) = 1%nat) /\
  let '(r, o') := owner_destroy me finished o in
  r = Value tt /\ thread_ (worker_ o') = None /\ joins (worker_ o') = 1%nat.
Proof.
  intros Hme. pose proof (calls_owned id l _ (new_owned id)) as Hc. destruct (calls l (new_owner id)) as [rs o].
  destruct Hc as [Hrs Ho]. split; [done|]. split.
  { intros Hl. destruct Ho as (_ & _ & [(_ & _ & _ & ?)|(_ & ? & ?)]); done. }
  unfold owner_destroy, mthen. pose proof (call_owned id (CallShutdown me finished) o Ho) as Hs. simpl in Hs.
  destruct (owner_shutdown me finished o) as [r o1]. destruct Hs as [[b ->] Ho1].
  unfold on_worker. pose proof (handle_join_owned id me o1 Ho1 Hme) as Hj.
  destruct (handle_join me (worker_ o1)) as [r1 w1]. destruct Hj as [-> Hj]. destruct (Hj (life o1)) as (Ho2 & _).
  unfold destroy_handle, mthen. pose proof (handle_join_owned id me _ Ho2 Hme) as Hj2. simpl in *.
  destruct (handle_join me w1) as [r2 w2]. destruct Hj2 as [-> Hj2]. destruct (Hj2 (life o1)) as (_ & _ & Hth & Hjs).
  unfold mget. rewrite Hth. done.
Qed.

(** The destructor has no guard for the worker's own thread: a client that is
    destroyed inside a sink or callback joins itself, and the exception leaves a
    destructor. *)
Lemma destroy_on_worker_thread id finished :
  fst (owner_destroy id finished (new_owner id)) = StdException "resource_deadlock_would_occur".
Proof. cbv -[Z.eqb]. rewrite Z.eqb_refl. cbv -[Z.eqb]. by rewrite Z.eqb_refl. Qed.

Lemma thread_joined_once_witness :
  let '(rs, o) := calls [CallShutdown 7 true; CallShutdown 1 false; CallWait 2 true; CallShutdown 1 true] (new_owner 7) in
  rs = [Value false; Value false; Value true; Value true] /\ life o = Stopped /\
  fst (owner_destroy 1 true o) = Value tt /\ joins (worker_ (snd (owner_destroy 1 true o))) = 1%nat.
Proof.
  pose proof (thread_joined_once 7 [CallShutdown 7 true; CallShutdown 1 false; CallWait 2 true; CallShutdown 1 true] 1 true ltac:(done)) as Ht.
  destruct (calls _ _) as [rs o] eqn:E. vm_compute in E. injection E as <- <-. split; [reflexivity|]. split; [reflexivity|].
  destruct Ht as (_ & _ & Hd). destruct (owner_destroy _ _ _) as [r o'] in Hd |- *. simpl. by destruct Hd as (? & _ & ?).
Defined.

End Handle.
