(* ===== verification/Deadlines.v ===== *)
(** Time limits: [remaining] and the two waits of Client::Impl::shutdown
    (src/client.cpp), and SystemClock (src/internal/clock.hpp).

    A point of the steady clock is a number of ticks, with [ticks] of them in a
    millisecond; a limit is a number of milliseconds. A wait with the limit [b]
    that begins at [now] ends at the latest at [now + b * ticks]
    (std::condition_variable::wait_for is wait_until that point). *)
From S2P Require Import Prelude Types Serializer.

Local Open Scope Z_scope.

(** * Definitions *)

(** The negative limits of [flush], [shutdown], [wait_for_worker_exit] and
    [Worker::wait_and_join]. *)
Definition at_least_zero (timeout : Z) : Z := if timeout <? 0 then 0 else timeout.

Section Deadlines.
Context (ticks : Z).

(** [std::chrono::steady_clock::now() + timeout]. *)
Definition deadline_after (now timeout : Z) : Z := now + timeout * ticks.

(** The sum is a point the clock can represent (64 bits). *)
Definition representable (point : Z) : bool := (- 9223372036854775808 <=? point) && (point <? 9223372036854775808).

(** [remaining], when the clock shows [now]; duration_cast truncates. *)
Definition remaining (deadline now : Z) : Z := if deadline <=? now then 0 else (deadline - now) ÷ ticks.

(** The limits of the two waits of [Client::Impl::shutdown]: the drain and the
    exit of the worker. The clock shows [t0] when the call begins, [t1] when the
    drain was submitted and [t2] when the stop was requested. *)
Definition shutdown_waits (timeout t0 t1 t2 : Z) : Z * Z :=
  let deadline := deadline_after t0 (at_least_zero timeout) in
  (remaining deadline t1 ÷ 2, at_least_zero (remaining deadline t2)).

End Deadlines.

(** ** The wall clock *)

(** [SystemClock::now_utc_millis]: the time since the epoch in ticks, truncated. *)
Definition system_now_utc_millis (ticks since_epoch : Z) : Z := since_epoch ÷ ticks.

(** * Lemmas *)

Section Limits.
Context (ticks : Z) (Hticks : 0 < ticks).

(** What is left never reaches past the deadline, and rounds down to a millisecond. *)
Lemma remaining_spec deadline now :
  0 <= remaining ticks deadline now /\
  (now <= deadline -> now + remaining ticks deadline now * ticks <= deadline < now + (remaining ticks deadline now + 1) * ticks).
Proof using Hticks.
  unfold remaining. destruct (Z.leb_spec deadline now) as [Hle|Hlt]; [split; [done|]; intros; nia|].
  rewrite Z.quot_div_nonneg by lia. pose proof (Z.div_mod (deadline - now) ticks ltac:(lia)).
  pose proof (Z.mod_pos_bound (deadline - now) ticks Hticks). pose proof (Z.div_pos (deadline - now) ticks ltac:(lia) Hticks).
  split; [done|]. intros _. nia.
Qed.


End Limits.

(** The production clock rounds a time after the epoch down to the millisecond. *)
Lemma system_clock_rounds_down ticks since_epoch :
  0 < ticks -> 0 <= since_epoch ->
  let now := system_now_utc_millis ticks since_epoch in now * ticks <= since_epoch < (now + 1) * ticks.
Proof.
  intros Ht He. unfold system_now_utc_millis. simpl. rewrite Z.quot_div_nonneg by lia.
  pose proof (Z.div_mod since_epoch ticks ltac:(lia)). pose proof (Z.mod_pos_bound since_epoch ticks Ht). nia.
Qed.

(** * Witness *)

