(* ===== verification/Paths.v ===== *)
(** Exclusive ownership of files: PathClaim and the process-wide registry
    (src/path_registry.cpp, src/internal/path_registry.hpp).

    The registry is a set of keys. std::filesystem is not part of the
    repository, so the three calls [normalize] makes are the parameters of
    class [FsOps]. The build has the filesystem library and is not the Windows
    one, so the case folding is not in [normalize]. *)
From S2P Require Import Prelude Types Serializer.

Local Open Scope Z_scope.
Local Open Scope pt_scope.

(** * Definitions *)

(** [enum class PathKind]. *)
Inductive PathKind : Type := Storage | Output.

(** The members of [class PathClaim]. *)
Record PathClaim : Type := mkClaim { key_ : string; held_ : bool }.

(** [PathClaim()]. *)
Definition no_claim : PathClaim := mkClaim "" false.

(** The calls on std::filesystem: the value, or [None] for an error code. *)
Class FsOps : Type := {
  fs_absolute : string -> library_call (option string);
  fs_weakly_canonical : string -> library_call (option string);
  fs_lexically_normal : string -> library_call string
}.

Section Paths.
Context `{FsOps}.

(** [is_in_memory]. *)
Definition is_in_memory (path : string) : bool := bool_decide (path = ":memory:").

(** [normalize]. *)
Definition normalize (path : string) : string :=
  match fs_absolute path with
  | Value None => path
  | Value (Some p) =>
      match fs_weakly_canonical p with
      | Value (Some canonical) => canonical
      | Value None =>
          match fs_lexically_normal p with
          | Value canonical => canonical
          | _ => path
          end
      | _ => path
      end
  | _ => path
  end.

(** [kind_name]. *)
Definition kind_name (kind : PathKind) : string :=
  match kind with Storage => "storage_path" | Output => "FileSink path" end.

(** [PathClaim::release]. *)
Definition release (c : PathClaim) : M (gset string) PathClaim := fun registry =>
  if negb (held_ c) then (c, registry)
  else (no_claim, registry ∖ {[key_ c]}).

(** The message of a refused claim. *)
Definition claim_error (path : string) (kind : PathKind) : string :=
  "another live PlayerTrace component in this process is " +:+
  "already using this path as a storage_path or a FileSink " +:+
  "output; it cannot also be used as this " +:+ kind_name kind +:+ " ('" +:+ path +:+
  "'). Storage and output paths must be exclusively owned; use a distinct path per Client.".

(** [PathClaim::acquire]: the error when it fails, and the claim. *)
Definition acquire (c : PathClaim) (path : string) (kind : PathKind)
    : M (gset string) (option string * PathClaim) :=
  let* c := release c in
  if is_in_memory path then mreturn (None, c)
  else
  let key := normalize path in
  fun registry =>
    if bool_decide (key ∈ registry) then ((Some (claim_error path kind), c), registry)
    else ((None, mkClaim key true), {[key]} ∪ registry).

(** [PathClaim& operator=(PathClaim&&)] on two different claims: the target and
    the source after the move. *)
Definition move_claim (target source : PathClaim) : M (gset string) (PathClaim * PathClaim) :=
  release target ;; mreturn (source, no_claim).

(** ** A process with many claims *)

Inductive claim_op : Type :=
| OpAcquire (i : nat) (path : string) (kind : PathKind)
| OpRelease (i : nat)
| OpMove (i j : nat).

(** The state of a process: the registry and every claim object. *)
Definition process : Type := gset string * list PathClaim.

Definition claim_step (op : claim_op) (p : process) : process :=
  let '(registry, claims) := p in
  match op with
  | OpAcquire i path kind =>
      match claims !! i with
      | None => p
      | Some c => let '((_, c'), r') := acquire c path kind registry in (r', <[i := c']> claims)
      end
  | OpRelease i =>
      match claims !! i with
      | None => p
      | Some c => let '(c', r') := release c registry in (r', <[i := c']> claims)
      end
  | OpMove i j =>
      if bool_decide (i = j) then p
      else
      match claims !! i, claims !! j with
      | Some t, Some c =>
          let '((t', c'), r') := move_claim t c registry in (r', <[j := c']> (<[i := t']> claims))
      | _, _ => p
      end
  end.

(** The keys of the held claims. *)
Definition held_keys (claims : list PathClaim) : list string :=
  omap (fun c => if held_ c then Some (key_ c) else None) claims.

(** Every held claim owns its key alone, and the registry is those keys. *)
Definition exclusive (p : process) : Prop :=
  fst p = list_to_set (held_keys (snd p)) /\
  forall i j c d, snd p !! i = Some c -> snd p !! j = Some d ->
    held_ c = true -> held_ d = true -> key_ c = key_ d -> i = j.

(** * Lemmas *)

Lemma elem_of_held_keys claims k :
  k ∈ held_keys claims <-> exists i c, claims !! i = Some c /\ held_ c = true /\ key_ c = k.
Proof.
  unfold held_keys. rewrite list_elem_of_omap. split.
  - intros (c & Hc & Hk). apply list_elem_of_lookup in Hc as [i Hi]. exists i, c.
    destruct (held_ c); [|done]. by simplify_eq.
  - intros (i & c & Hi & Hh & Hk). exists c. split; [by eapply list_elem_of_lookup_2|]. by rewrite Hh, Hk.
Qed.

(** Replacing one claim by one that is free. *)
Lemma exclusive_drop registry claims i c c' :
  exclusive (registry, claims) -> claims !! i = Some c -> held_ c' = false ->
  exclusive (if held_ c then registry ∖ {[key_ c]} else registry, <[i := c']> claims).
Proof.
  intros [Hr Hx] Hi Hc'. simpl in *. split; simpl.
  - apply set_eq. intros k. rewrite elem_of_list_to_set, elem_of_held_keys.
    transitivity (k ∈ registry /\ (held_ c = true -> k <> key_ c)).
    { destruct (held_ c); set_solver. }
    rewrite Hr, elem_of_list_to_set, elem_of_held_keys. split.
    + intros [(j & d & Hj & Hd & Hk) Hne]. exists j, d. split; [|done].
      rewrite list_lookup_insert_ne; [done|]. intros ->. assert (d = c) by congruence. subst d. naive_solver.
    + intros (j & d & Hj & Hd & Hk). destruct (decide (i = j)) as [->|Hne].
      * rewrite list_lookup_insert_eq in Hj by (by eapply lookup_lt_Some). congruence.
      * rewrite list_lookup_insert_ne in Hj by done. split; [by exists j, d|].
        intros Hh ->. apply Hne. by eapply (Hx i j c d).
  - intros a b x y Ha Hb Hx1 Hy1 Heq.
    destruct (decide (i = a)) as [->|]; [rewrite list_lookup_insert_eq in Ha by (by eapply lookup_lt_Some); congruence|].
    destruct (decide (i = b)) as [->|]; [rewrite list_lookup_insert_eq in Hb by (by eapply lookup_lt_Some); congruence|].
    rewrite list_lookup_insert_ne in Ha, Hb by done. by eapply Hx.
Qed.

(** Giving a free claim a key nobody holds. *)
Lemma exclusive_take registry claims i c key :
  exclusive (registry, claims) -> claims !! i = Some c -> held_ c = false -> key ∉ registry ->
  exclusive ({[key]} ∪ registry, <[i := mkClaim key true]> claims).
Proof.
  intros [Hr Hx] Hi Hc Hk. simpl in *.
  assert (forall j d, claims !! j = Some d -> held_ d = true -> key_ d <> key) as Hfresh.
  { intros j d Hj Hd <-. apply Hk. rewrite Hr. apply elem_of_list_to_set, elem_of_held_keys. eauto. }
  assert (i < length claims)%nat as Hlt by (by eapply lookup_lt_Some).
  split; simpl.
  - apply set_eq. intros k. rewrite elem_of_union, elem_of_singleton, Hr, !elem_of_list_to_set, !elem_of_held_keys.
    split.
    + intros [->|(j & d & Hj & Hd & He)].
      * exists i. eexists. by rewrite list_lookup_insert_eq.
      * exists j, d. split; [|done]. rewrite list_lookup_insert_ne; [done|]. intros ->. congruence.
    + intros (j & d & Hj & Hd & He). destruct (decide (i = j)) as [->|Hne].
      * rewrite list_lookup_insert_eq in Hj by done. simplify_eq/=. by left.
      * rewrite list_lookup_insert_ne in Hj by done. right. eauto.
  - intros a b x y Ha Hb Hx1 Hy1 Heq.
    destruct (decide (a = i)) as [->|], (decide (b = i)) as [->|]; [done|..];
      rewrite ?list_lookup_insert_eq, ?list_lookup_insert_ne in Ha by done;
      rewrite ?list_lookup_insert_eq, ?list_lookup_insert_ne in Hb by done; simplify_eq/=.
    + by destruct (Hfresh b y).
    + by destruct (Hfresh a x).
    + by eapply Hx.
Qed.

Lemma release_exclusive registry claims i c :
  exclusive (registry, claims) -> claims !! i = Some c ->
  let '(c', r') := release c registry in exclusive (r', <[i := c']> claims) /\ held_ c' = false.
Proof.
  intros Hx Hi. unfold release. destruct (held_ c) eqn:Hh; simpl.
  - pose proof (exclusive_drop registry claims i c no_claim Hx Hi eq_refl) as He. by rewrite Hh in He.
  - by rewrite list_insert_id.
Qed.

(** Moving a claim to a free one. *)
Lemma exclusive_move registry claims i j t c :
  exclusive (registry, claims) -> i <> j -> claims !! i = Some t -> claims !! j = Some c ->
  held_ t = false -> exclusive (registry, <[j := no_claim]> (<[i := c]> claims)).
Proof.
  intros [Hr Hx] Hij Hi Hj Ht. simpl in *.
  assert (i < length claims)%nat as Hli by (by eapply lookup_lt_Some).
  assert (j < length (<[i := c]> claims))%nat as Hlj by (rewrite length_insert; by eapply lookup_lt_Some).
  set (old a := if decide (a = i) then j else a).
  assert (forall a d, <[j := no_claim]> (<[i := c]> claims) !! a = Some d -> held_ d = true ->
          a <> j /\ claims !! old a = Some d) as Hold.
  { intros a d Ha Hd. unfold old. destruct (decide (a = j)) as [->|Hne].
    - rewrite list_lookup_insert_eq in Ha by done. by simplify_eq/=.
    - rewrite list_lookup_insert_ne in Ha by done. split; [done|]. destruct (decide (a = i)) as [->|].
      + rewrite list_lookup_insert_eq in Ha by done. congruence.
      + by rewrite list_lookup_insert_ne in Ha by done. }
  split; simpl.
  - rewrite Hr. apply set_eq. intros k. rewrite !elem_of_list_to_set, !elem_of_held_keys. split.
    + intros (a & d & Ha & Hd & Hk). destruct (decide (a = j)) as [->|Hne].
      * exists i, d. assert (d = c) by congruence. subst d.
        rewrite list_lookup_insert_ne, list_lookup_insert_eq by done. done.
      * exists a, d. assert (a <> i) by (intros ->; congruence).
        by rewrite !list_lookup_insert_ne by done.
    + intros (a & d & Ha & Hd & Hk). destruct (Hold a d Ha Hd) as [_ Ho]. eauto.
  - intros a b x y Ha Hb Hx1 Hy1 Heq. destruct (Hold a x Ha Hx1) as [Haj Hoa], (Hold b y Hb Hy1) as [Hbj Hob].
    assert (old a = old b) as Ho by (by eapply Hx). unfold old in Ho.
    destruct (decide (a = i)), (decide (b = i)); congruence.
Qed.

Lemma claim_step_exclusive op p : exclusive p -> exclusive (claim_step op p).
Proof.
  destruct p as [registry claims]. intros Hx. destruct op as [i path kind|i|i j]; simpl.
  - destruct (claims !! i) as [c|] eqn:Hi; [|done]. unfold acquire, mthen.
    pose proof (release_exclusive registry claims i c Hx Hi) as Hr.
    destruct (release c registry) as [c1 r1]. destruct Hr as [Hx1 Hc1].
    destruct (is_in_memory path); [done|].
    destruct (bool_decide (normalize path ∈ r1)) eqn:Hk; [done|].
    apply bool_decide_eq_false in Hk.
    pose proof (exclusive_take r1 (<[i := c1]> claims) i c1 (normalize path) Hx1) as Ht.
    rewrite list_insert_insert_eq in Ht. apply Ht; [|done|done].
    apply list_lookup_insert_eq. by eapply lookup_lt_Some.
  - destruct (claims !! i) as [c|] eqn:Hi; [|done].
    pose proof (release_exclusive registry claims i c Hx Hi) as Hr.
    destruct (release c registry). apply Hr.
  - case_bool_decide as Hij; [done|]. destruct (claims !! i) as [t|] eqn:Hi; [|done].
    destruct (claims !! j) as [c|] eqn:Hj; [|done]. unfold move_claim, mthen.
    pose proof (release_exclusive registry claims i t Hx Hi) as Hr.
    destruct (release t registry) as [t1 r1]. destruct Hr as [Hx1 Ht1]. simpl.
    rewrite <- (list_insert_insert_eq claims i c t1).
    eapply exclusive_move; [exact Hx1|done|..]; [|by rewrite list_lookup_insert_ne|exact Ht1].
    apply list_lookup_insert_eq. by eapply lookup_lt_Some.
Qed.

Lemma claim_steps_exclusive ops p : exclusive p -> exclusive (foldl (fun p op => claim_step op p) p ops).
Proof. revert p. induction ops as [|op ops IH]; intros p Hp; simpl; [done|]. by apply IH, claim_step_exclusive. Qed.

(** A process that has not claimed anything. *)
Lemma start_exclusive n : exclusive (∅, replicate n no_claim).
Proof.
  split; simpl.
  - symmetry. apply set_eq. intros k. rewrite elem_of_list_to_set, elem_of_held_keys. split; [|set_solver].
    intros (i & c & Hi & Hc & _). apply lookup_replicate in Hi as [-> _]. done.
  - intros i j c d Hi _ Hc. apply lookup_replicate in Hi as [-> _]. done.
Qed.

(** * Properties *)


End Paths.

(** A file system where every path is already canonical. *)
Definition flat_fs : FsOps := {|
  fs_absolute := fun p => Value (Some p);
  fs_weakly_canonical := fun p => Value (Some p);
  fs_lexically_normal := fun p => Value p
|}.

