(* ===== verification/Stdio.v ===== *)
(** The part of C stdio and of the operating system that FileSink uses
    (src/file_sink.cpp calls fopen, fwrite, fputc, fread, fflush, fseeko,
    ftello, fclose, clearerr, fileno, ftruncate and fsync).

    [OsFile] is one file as the operating system keeps it: its bytes, the
    contents a loss of power may bring back, and the [fates] of the calls to
    come. A fate says whether a call works or breaks and how many bytes it moves
    on the way, so a theorem for all fates holds whatever fails and wherever.
    [Stream] is a [FILE*]: the offset of its descriptor and the bytes it has
    accepted and not written yet. Reading ahead has no effect another call can
    see, so it is not represented. *)
From S2P Require Import Prelude.

Local Open Scope Z_scope.
Local Open Scope pt_scope.

(** * Definitions *)

#[local] Abbreviation text := (list Ascii.ascii).

(** ['\n']. *)
Definition newline : Ascii.ascii := Ascii.ascii_of_nat 10.

(** What happens to a call: it works, or it fails. [moved] is how many of the
    waiting bytes reach the operating system on the way, [taken] how many new
    bytes a failing call accepts. *)
Inductive fate : Type :=
| Works (moved : nat)
| Breaks (moved taken : nat).

(** One file. A loss of power leaves the present bytes or one of the contents
    since the last successful sync; [moments] is history: every content the
    file ever had. *)
Record OsFile : Type := mkOsFile {
  present : option text;   (* [None]: no such file *)
  unsynced : list (option text);
  moments : list (option text);
  permitted : bool;   (* the process may open it for reading and writing *)
  fates : list fate
}.

(** [std::FILE], open for update. *)
Record Stream : Type := mkStream {
  offset : nat;
  unwritten : text;
  error_flag : bool
}.

(** Where C and POSIX leave the library a choice: what a failed write does with
    the bytes it could not write, and whether fopen can fail for a reason that
    is gone at the next call. *)
Record StdioLib : Type := mkStdioLib {
  keeps_unwritten : bool;
  open_transient : bool
}.

(** The bytes of the file; a missing file has none. *)
Definition os_bytes (f : OsFile) : text := default [] (present f).

(** The file changes: the old content stays possible until the next sync. *)
Definition os_change (c : text) (f : OsFile) : OsFile :=
  mkOsFile (Some c) (present f :: unsynced f) (Some c :: moments f) (permitted f) (fates f).

(** What a loss of power now would leave. *)
Definition after_power_loss (f : OsFile) : list (option text) := present f :: unsynced f.

(** The fate of the next call. *)
Definition next_fate : M OsFile fate := fun f =>
  match fates f with
  | [] => (Works 0, f)
  | x :: rest => (x, mkOsFile (present f) (unsynced f) (moments f) (permitted f) rest)
  end.

(** One byte at an offset; past the end the gap reads as zeros. *)
Definition put_byte (c : text) (off : nat) (b : Ascii.ascii) : text :=
  take off c ++ replicate (off - length c) Ascii.zero ++ b :: drop (off + 1) c.

(** write(2): byte by byte, since a crash can come between any two. *)
Fixpoint os_write (off : nat) (bs : text) (f : OsFile) : OsFile :=
  match bs with
  | [] => f
  | b :: bs' => os_write (off + 1) bs' (os_change (put_byte (os_bytes f) off b) f)
  end.

(** The first [n] waiting bytes go to the operating system. *)
Definition hand_over (n : nat) (st : Stream) : M OsFile Stream := fun f =>
  (mkStream (offset st + length (take n (unwritten st))) (drop n (unwritten st)) (error_flag st),
   os_write (offset st) (take n (unwritten st)) f).

Section Stdio.
Context (lib : StdioLib).

(** After a failed write: the error indicator is set. *)
Definition write_broke (st : Stream) : Stream :=
  mkStream (offset st) (if keeps_unwritten lib then unwritten st else []) true.

(** Every waiting byte is written; whether that worked. *)
Definition drain (st : Stream) : M OsFile (bool * Stream) :=
  let* x := next_fate in
  match x with
  | Works _ => let* st' := hand_over (length (unwritten st)) st in mreturn (true, st')
  | Breaks moved _ => let* st' := hand_over moved st in mreturn (false, write_broke st')
  end.

(** [fflush(fp) == 0]. *)
Definition fflush (st : Stream) : M OsFile (bool * Stream) := drain st.

(** [fwrite(data, 1, size, fp)]: the number of bytes accepted. *)
Definition fwrite (data : text) (st : Stream) : M OsFile (nat * Stream) :=
  let* x := next_fate in
  match x with
  | Works moved =>
      let* st' := hand_over moved (mkStream (offset st) (unwritten st ++ data) (error_flag st)) in
      mreturn (length data, st')
  | Breaks moved taken =>
      let n := Nat.min taken (length data - 1) in
      let* st' := hand_over moved (mkStream (offset st) (unwritten st ++ take n data) (error_flag st)) in
      mreturn (n, write_broke st')
  end.

(** [fputc(c, fp) != EOF]. *)
Definition fputc (c : Ascii.ascii) (st : Stream) : M OsFile (bool * Stream) :=
  let* (n, st') := fwrite [c] st in mreturn (bool_decide (n = 1%nat), st').

(** [clearerr(fp)]. *)
Definition clearerr (st : Stream) : Stream := mkStream (offset st) (unwritten st) false.

(** The origin of a seek. *)
Inductive whence : Type := SEEK_SET | SEEK_END.

(** [fseeko(fp, off, whence) == 0]: what is waiting is written first. *)
Definition fseeko (off : Z) (from : whence) (st : Stream) : M OsFile (bool * Stream) :=
  let* (written, st') := drain st in
  if negb written then mreturn (false, st')
  else
  let* size := mget (fun f => Z.of_nat (length (os_bytes f))) in
  let target := match from with SEEK_SET => off | SEEK_END => size + off end in
  if target <? 0 then mreturn (false, st')
  else mreturn (true, mkStream (Z.to_nat target) (unwritten st') (error_flag st')).

(** [ftello(fp)], -1 when it fails. *)
Definition ftello (st : Stream) : M OsFile (Z * Stream) :=
  let* x := next_fate in
  match x with
  | Works _ => mreturn (Z.of_nat (offset st + length (unwritten st)), st)
  | Breaks _ _ => mreturn (-1, st)
  end.

(** [fread(buffer, 1, want, fp)]: the bytes read. *)
Definition fread (want : nat) (st : Stream) : M OsFile (text * Stream) :=
  let* x := next_fate in
  let* c := mget os_bytes in
  let here := take want (drop (offset st) c) in
  let got := match x with Works _ => here | Breaks _ taken => take taken here end in
  mreturn (got, mkStream (offset st + length got) (unwritten st)
                  (match x with Works _ => error_flag st | Breaks _ _ => true end)).

(** [fileno(fp) >= 0]. *)
Definition fileno (st : Stream) : M OsFile bool :=
  let* x := next_fate in mreturn (match x with Works _ => true | Breaks _ _ => false end).

(** [fsync(fd) == 0] ([fcntl(fd, F_FULLFSYNC)] where there is one). *)
Definition fsync : M OsFile bool :=
  let* x := next_fate in
  match x with
  | Works _ => mput (fun f => mkOsFile (present f) [] (moments f) (permitted f) (fates f)) ;; mreturn true
  | Breaks _ _ => mreturn false
  end.

(** [ftruncate(fd, length) == 0]: cut, or extended with zeros. The offset of the
    descriptor stays. *)
Definition ftruncate (length : Z) : M OsFile bool :=
  let* x := next_fate in
  match x with
  | Works _ =>
      if length <? 0 then mreturn false
      else mput (fun f => os_change (resize (Z.to_nat length) Ascii.zero (os_bytes f)) f) ;; mreturn true
  | Breaks _ _ => mreturn false
  end.

(** Whether fopen fails although the process may open the file. *)
Definition open_fails (x : fate) : bool :=
  match x with Works _ => false | Breaks _ _ => open_transient lib end.

(** [fopen(path, "r+b")]: the file must exist. *)
Definition fopen_update : M OsFile (option Stream) :=
  let* x := next_fate in
  let* f := mget id in
  match present f with
  | None => mreturn None
  | Some _ =>
      if negb (permitted f) || open_fails x then mreturn None
      else mreturn (Some (mkStream 0 [] false))
  end.

(** [fopen(path, "w+b")]: created, or emptied. *)
Definition fopen_truncate : M OsFile (option Stream) :=
  let* x := next_fate in
  let* f := mget id in
  let refused := match present f with
                 | None => match x with Works _ => false | Breaks _ _ => true end
                 | Some _ => open_fails x
                 end in
  if negb (permitted f) || refused then mreturn None
  else mput (os_change []) ;; mreturn (Some (mkStream 0 [] false)).

(** [fclose(fp)]: what is waiting is written; the stream is gone. *)
Definition fclose (st : Stream) : M OsFile unit := let* _ := drain st in mreturn tt.

End Stdio.
