(* ===== verification/FileSink.v ===== *)
(** FileSink: newline-delimited JSON appended to a file (src/file_sink.cpp,
    include/playertrace/file_sink.hpp, src/internal/file_sink_internal.hpp).

    [FileSink] is FileSink::Impl together with the file it writes to. The calls
    run under [mutex_], except [request_cancel] and [failed], which take one
    step each. The build is the POSIX one. *)
From S2P Require Import Prelude Types Serializer Paths Stdio.

Local Open Scope Z_scope.
Local Open Scope pt_scope.

(** * Definitions *)

(** [using FileSinkFaultHook], as the answers it gives to its next calls. *)
Definition FileSinkFaultHook : Type := list (string -> bool).

(** [class FileSink::Impl]. *)
Record FileSink : Type := mkFileSink {
  out_path_ : string;
  durable_sync_ : bool;
  file_ : option Stream;
  fault_hook : option FileSinkFaultHook;
  failure_ : Status;
  cancelled_ : bool;
  claim_ : PathClaim;
  os : OsFile   (* the file at [path_.c_str()] *)
}.

Definition set_file_ (x : option Stream) (s : FileSink) : FileSink :=
  mkFileSink (out_path_ s) (durable_sync_ s) x (fault_hook s) (failure_ s) (cancelled_ s) (claim_ s) (os s).
Definition set_hook (x : option FileSinkFaultHook) (s : FileSink) : FileSink :=
  mkFileSink (out_path_ s) (durable_sync_ s) (file_ s) x (failure_ s) (cancelled_ s) (claim_ s) (os s).
Definition set_failure_ (x : Status) (s : FileSink) : FileSink :=
  mkFileSink (out_path_ s) (durable_sync_ s) (file_ s) (fault_hook s) x (cancelled_ s) (claim_ s) (os s).
Definition set_cancelled_ (x : bool) (s : FileSink) : FileSink :=
  mkFileSink (out_path_ s) (durable_sync_ s) (file_ s) (fault_hook s) (failure_ s) x (claim_ s) (os s).
Definition set_claim_ (x : PathClaim) (s : FileSink) : FileSink :=
  mkFileSink (out_path_ s) (durable_sync_ s) (file_ s) (fault_hook s) (failure_ s) (cancelled_ s) x (os s).
Definition set_os (x : OsFile) (s : FileSink) : FileSink :=
  mkFileSink (out_path_ s) (durable_sync_ s) (file_ s) (fault_hook s) (failure_ s) (cancelled_ s) (claim_ s) x.

(** [kBadOffset]. *)
Definition kBadOffset : Z := -1.

(** [kBlock]. *)
Definition kBlock : Z := 65536.

(** A stdio call on [file_]; [null] is the answer on a null pointer, where the
    code makes no call. *)
Definition with_file {A} (null : A) (op : Stream -> M OsFile (A * Stream)) : M FileSink A := fun s =>
  match file_ s with
  | None => (null, s)
  | Some st => let '((a, st'), f) := op st (os s) in (a, set_os f (set_file_ (Some st') s))
  end.

(** A system call on the descriptor behind [file_]. *)
Definition with_fd {A} (m : M OsFile A) : M FileSink A := fun s =>
  let '(a, f) := m (os s) in (a, set_os f s).

(** [fault]. *)
Definition sink_fault (operation : string) : M FileSink bool := fun s =>
  match fault_hook s with
  | None => (false, s)
  | Some [] => (false, s)
  | Some (answer :: later) => (answer operation, set_hook (Some later) s)
  end.

Section FileSinkImpl.
Context (lib : StdioLib).

(** [tell_offset]. *)
Definition tell_offset : M FileSink Z :=
  let* pos := with_file (-1) ftello in
  mreturn (if pos <? 0 then kBadOffset else to_int64 pos).

(** [seek_offset]. *)
Definition seek_offset (offset : Z) (from : whence) : M FileSink bool :=
  with_file false (fseeko lib offset from).

(** [seek_to_end]. *)
Definition seek_to_end : M FileSink Z :=
  let* moved := seek_offset 0 SEEK_END in
  if negb moved then mreturn kBadOffset else tell_offset.

(** [flush_stream], and [std::fflush(file_)] where the result is ignored. *)
Definition flush_stream : M FileSink bool := with_file false (fflush lib).

(** [std::clearerr(file_)]. *)
Definition clear_error : M FileSink unit := with_file tt (fun st => mreturn (tt, clearerr st)).

(** [fileno(fp)]. *)
Definition descriptor : M FileSink bool :=
  with_file false (fun st => let* fd := fileno st in mreturn (fd, st)).

(** [sync_to_disk]. *)
Definition sync_to_disk : M FileSink bool :=
  let* fd := descriptor in
  if negb fd then mreturn false else with_fd fsync.

(** [truncate_to]. *)
Definition truncate_to (length : Z) : M FileSink bool :=
  let* fd := descriptor in
  if negb fd then mreturn false else with_fd (ftruncate length).

(** The inner loop of [find_last_complete_line_end]: the first [i], counting down
    from [got], with ['\n'] just before it. *)
Fixpoint newline_before (buffer : list Ascii.ascii) (i : nat) : option nat :=
  match i with
  | O => None
  | Datatypes.S i' =>
      if bool_decide (buffer !! i' = Some newline) then Some i else newline_before buffer i'
  end.

(** The outer loop, for at most [fuel] blocks: [None] when they are used up,
    [Some None] when a call failed. *)
Fixpoint scan_blocks (fuel : nat) (pos : Z) : M FileSink (option (option Z)) :=
  if negb (0 <? pos) then mreturn (Some (Some 0))
  else
  match fuel with
  | O => mreturn None
  | Datatypes.S fuel' =>
      let chunk := if pos <? kBlock then pos else kBlock in
      let start := to_int64 (pos - chunk) in
      let* moved := seek_offset start SEEK_SET in
      if negb moved then mreturn (Some None)
      else
      let want := Z.to_nat chunk in
      let* buffer := with_file [] (fread want) in
      if negb (bool_decide (length buffer = want)) then mreturn (Some None)
      else
      match newline_before buffer (length buffer) with
      | Some i => mreturn (Some (Some (to_int64 (start + Z.of_nat i))))
      | None => scan_blocks fuel' start
      end
  end.

(** [find_last_complete_line_end]: [size / kBlock + 1] blocks are enough. *)
Definition find_last_complete_line_end (size : Z) : M FileSink (option Z) :=
  let* r := scan_blocks (Z.to_nat (size / kBlock + 1)) size in
  mreturn (default None r).

(** [close_file]. *)
Definition close_file : M FileSink unit := fun s =>
  match file_ s with
  | None => (tt, s)
  | Some st =>
      let '((_, st'), f) := fflush lib st (os s) in
      let '(_, f') := fclose lib st' f in
      (tt, set_os f' (set_file_ None s))
  end.

(** [fail_hard]. *)
Definition fail_hard (message : string) : M FileSink Status :=
  close_file ;;
  let st := mkStatus SinkError
    (message +:+ " (this FileSink is now permanently failed; events remain in durable storage)") in
  mput (set_failure_ st) ;; mreturn st.

(** [fault(...) || !call] and its longer forms: the first failure ends it. *)
Definition or_else (failed : M FileSink bool) (next : M FileSink bool) : M FileSink bool :=
  let* f := failed in if f then mreturn true else next.
Definition fails (call : M FileSink bool) : M FileSink bool :=
  let* r := call in mreturn (negb r).

(** [roll_back]. *)
Definition roll_back (good_offset : Z) (message : string) : M FileSink Status :=
  let* present := mget (fun s => bool_decide (is_Some (file_ s))) in
  if negb present || (good_offset <? 0) then fail_hard message
  else
  clear_error ;;
  let* _ := flush_stream in
  clear_error ;;
  let* cut := or_else (sink_fault "truncate") (fails (truncate_to good_offset)) in
  if cut then fail_hard (message +:+ "; rollback failed")
  else
  let* synced := sync_to_disk in
  if negb synced then fail_hard (message +:+ "; rollback could not be made durable")
  else
  clear_error ;;
  let* moved := seek_offset 0 SEEK_END in
  if negb moved then fail_hard (message +:+ "; could not reposition after rollback")
  else mreturn (mkStatus SinkError message).

(** [repair_tail]. *)
Definition repair_tail : M FileSink Status :=
  let* path := mget out_path_ in
  let* size := seek_to_end in
  if size =? kBadOffset then fail_hard ("FileSink: could not size '" +:+ path +:+ "'")
  else if size =? 0 then mreturn status_ok
  else
  let* good_end := find_last_complete_line_end size in
  match good_end with
  | None => fail_hard ("FileSink: could not inspect the tail of '" +:+ path +:+ "'")
  | Some good_end =>
      if good_end =? size then
        let* moved := seek_offset 0 SEEK_END in
        if moved then mreturn status_ok
        else fail_hard ("FileSink: could not seek '" +:+ path +:+ "'")
      else
      let* _ := flush_stream in
      clear_error ;;
      let* broken := or_else (sink_fault "truncate")
                       (or_else (fails (truncate_to good_end))
                          (or_else (fails sync_to_disk) (fails (seek_offset 0 SEEK_END)))) in
      if broken
      then fail_hard ("FileSink: could not repair the incomplete final line of '" +:+ path +:+ "'")
      else mreturn status_ok
  end.

(** [file_ = open_file(path_.c_str(), mode)]. *)
Definition open_into (call : M OsFile (option Stream)) : M FileSink unit :=
  let* opened := with_fd call in mput (set_file_ opened).

(** [ensure_open]. *)
Definition ensure_open : M FileSink Status :=
  let* failure := mget failure_ in
  if negb (ok failure) then mreturn failure
  else
  let* file := mget file_ in
  if bool_decide (is_Some file) then mreturn status_ok
  else
  let* injected := sink_fault "open" in
  if injected then mreturn (mkStatus SinkError "FileSink: injected open failure")
  else
  open_into (fopen_update lib) ;;
  let* file := mget file_ in
  (if bool_decide (file = None) then open_into (fopen_truncate lib) else mreturn tt) ;;
  let* file := mget file_ in
  let* path := mget out_path_ in
  if bool_decide (file = None)
  then mreturn (mkStatus SinkError ("FileSink: could not open '" +:+ path +:+ "'"))
  else repair_tail.

(** The event loop of [write]: [Some status] when it returns from the middle. *)
Fixpoint write_events (start : Z) (events : list SerializedEvent) : M FileSink (option Status) :=
  match events with
  | [] => mreturn None
  | event :: events' =>
      let json := chars (se_json event) in
      let* path := mget out_path_ in
      let* torn := sink_fault "partial_write" in
      if torn then
        (if bool_decide (json <> [])
         then let* _ := with_file 0%nat (fwrite lib (take (length json / 2 + 1) json)) in mreturn tt
         else mreturn tt) ;;
        let* r := roll_back start "FileSink: injected partial write" in mreturn (Some r)
      else
      let* injected := sink_fault "write" in
      if injected then
        let* r := roll_back start "FileSink: injected write failure" in mreturn (Some r)
      else
      let* short := (if bool_decide (json <> [])
                     then let* n := with_file 0%nat (fwrite lib json) in
                          mreturn (negb (bool_decide (n = length json)))
                     else mreturn false) in
      if short then
        let* r := roll_back start ("FileSink: write failed for '" +:+ path +:+ "'") in mreturn (Some r)
      else
      let* ended := with_file false (fputc lib newline) in
      if negb ended then
        let* r := roll_back start ("FileSink: write failed for '" +:+ path +:+ "'") in mreturn (Some r)
      else write_events start events'
  end.

(** The end of [write] after the loop: flush and sync. *)
Definition write_commit (start : Z) : M FileSink Status :=
  let* path := mget out_path_ in
  let* injected := sink_fault "flush" in
  if injected then roll_back start "FileSink: injected flush failure"
  else
  let* flushed := flush_stream in
  if negb flushed then roll_back start ("FileSink: flush failed for '" +:+ path +:+ "'")
  else
  let* durable := mget durable_sync_ in
  if negb durable then mreturn status_ok
  else
  let* injected := sink_fault "sync" in
  if injected then roll_back start "FileSink: injected sync failure"
  else
  let* synced := sync_to_disk in
  if negb synced then roll_back start ("FileSink: durable sync failed for '" +:+ path +:+ "'")
  else mreturn status_ok.

(** [FileSink::Impl::write]. *)
Definition write (batch : EventBatch) : M FileSink Status :=
  let* cancelled := mget cancelled_ in
  let* path := mget out_path_ in
  if cancelled
  then mreturn (mkStatus SinkError ("FileSink: cancelled; '" +:+ path +:+ "' is shutting down"))
  else
  let* ready := ensure_open in
  if negb (ok ready) then mreturn ready
  else
  let* start := seek_to_end in
  if start =? kBadOffset
  then fail_hard ("FileSink: could not determine the end of '" +:+ path +:+ "'")
  else
  let* returned := write_events start batch in
  match returned with
  | Some r => mreturn r
  | None => write_commit start
  end.

(** [FileSink::Impl::flush_now]. *)
Definition flush_now : M FileSink Status :=
  let* failure := mget failure_ in
  if negb (ok failure) then mreturn failure
  else
  let* file := mget file_ in
  let* path := mget out_path_ in
  if bool_decide (file = None) then mreturn status_ok
  else
  let* injected := sink_fault "flush" in
  if injected then mreturn (mkStatus SinkError "FileSink: injected flush failure")
  else
  let* flushed := flush_stream in
  if negb flushed then mreturn (mkStatus SinkError ("FileSink: flush failed for '" +:+ path +:+ "'"))
  else
  let* durable := mget durable_sync_ in
  if negb durable then mreturn status_ok
  else
  let* injected := sink_fault "sync" in
  if injected then mreturn (mkStatus SinkError "FileSink: injected sync failure")
  else
  let* synced := sync_to_disk in
  if negb synced
  then mreturn (mkStatus SinkError ("FileSink: durable sync failed for '" +:+ path +:+ "'"))
  else mreturn status_ok.

(** [FileSink::Impl::request_cancel]. *)
Definition request_cancel : M FileSink unit := mput (set_cancelled_ true).

(** [FileSink::Impl::set_fault_hook]. *)
Definition set_fault_hook (hook : option FileSinkFaultHook) : M FileSink unit := mput (set_hook hook).

(** [FileSink::failed]. *)
Definition failed : M FileSink Status := mget failure_.

(** [FileSink::Impl::claim_path]. *)
Definition claim_path `{FsOps} (s : FileSink) : M (gset string) (Status * FileSink) :=
  let* (error, claim) := acquire (claim_ s) (out_path_ s) Output in
  let s := set_claim_ claim s in
  match error with
  | Some text => let st := mkStatus InvalidConfig text in mreturn (st, set_failure_ st s)
  | None => mreturn (failure_ s, s)
  end.

(** [FileSink::FileSink]: the path is claimed at once. *)
Definition new_file_sink `{FsOps} (path : string) (durable_sync : bool) (f : OsFile)
    : M (gset string) FileSink :=
  let* (_, s) := claim_path (mkFileSink path durable_sync None None status_ok false no_claim f) in
  mreturn s.

(** [FileSink::~FileSink]: the file is closed, then the claim given up. *)
Definition destroy_file_sink (s : FileSink) : M (gset string) FileSink :=
  let '(_, s) := close_file s in
  let* claim := release (claim_ s) in
  mreturn (set_claim_ claim s).

End FileSinkImpl.
