(* ===== verification/FileSinkSpec.v ===== *)
(** What FileSink does to its file.

    A write appends its whole batch or nothing, whatever fails; a crash at any
    moment leaves whole lines once the file is opened again; the backward scan
    for the last complete line is exact; a failed sink stays failed. The
    theorems hold for every list of fates and every fault hook. They ask two
    things of stdio ([Dependable]): a failed write does not keep the bytes it
    could not write, and fopen does not fail for a passing reason. Findings.v
    shows what happens without either. *)
From S2P Require Import Prelude Types Serializer Paths Stdio FileSink.

Local Open Scope Z_scope.
Local Open Scope pt_scope.

#[local] Abbreviation text := (list Ascii.ascii).

(** * Lines *)

(** The lines FileSink writes for a batch. *)
Definition ndjson (events : list SerializedEvent) : text :=
  concat ((fun e => chars (se_json e) ++ [newline]) <$> events).

(** The longest part of a file that ends with a newline: its complete lines. *)
Fixpoint whole_lines (c : text) : text :=
  match c with
  | [] => []
  | b :: c' =>
      match whole_lines c' with
      | [] => if bool_decide (b = newline) then [b] else []
      | w => b :: w
      end
  end.

(** A file that is made of complete lines. *)
Definition complete (c : text) : Prop := whole_lines c = c.

Lemma whole_lines_none t : newline ∉ t -> whole_lines t = [].
Proof.
  induction t as [|b t IH]; intros Hn; simpl; [done|]. apply not_elem_of_cons in Hn as [Hb Ht].
  rewrite IH by done. by rewrite bool_decide_false.
Qed.

Lemma whole_lines_newline p t : newline ∉ t -> whole_lines (p ++ newline :: t) = p ++ [newline].
Proof.
  intros Hn. induction p as [|b p IH]; simpl; [|by rewrite IH; destruct p].
  by rewrite whole_lines_none.
Qed.

(** Either no newline at all, or a last one. *)
Lemma last_newline (c : text) : newline ∉ c \/ exists p t, c = p ++ newline :: t /\ newline ∉ t.
Proof.
  induction c as [|b c IH]; [left; apply not_elem_of_nil|].
  destruct IH as [Hn|(p & t & -> & Hn)].
  - destruct (decide (b = newline)) as [->|Hb]; [right; by exists [], c|]. left. set_solver.
  - right. by exists (b :: p), t.
Qed.

Lemma whole_lines_spec c : exists t, c = whole_lines c ++ t /\ newline ∉ t.
Proof.
  destruct (last_newline c) as [Hn|(p & t & -> & Hn)].
  - exists c. by rewrite whole_lines_none.
  - exists t. by rewrite whole_lines_newline, <- app_assoc.
Qed.

Lemma whole_lines_complete c : complete (whole_lines c).
Proof.
  unfold complete. destruct (last_newline c) as [Hn|(p & t & -> & Hn)].
  - by rewrite (whole_lines_none c).
  - rewrite whole_lines_newline by done. apply whole_lines_newline. set_solver.
Qed.

(** What follows a complete file does not touch it. *)
Lemma whole_lines_app p q : complete p -> whole_lines (p ++ q) = p ++ whole_lines q.
Proof.
  intros Hp. destruct (last_newline q) as [Hn|(a & t & -> & Hn)].
  - rewrite (whole_lines_none q) by done. rewrite app_nil_r.
    destruct (last_newline p) as [Hp0|(a & t & -> & Ht)].
    + unfold complete in Hp. rewrite whole_lines_none in Hp by done. subst p. by apply whole_lines_none.
    + unfold complete in Hp. rewrite whole_lines_newline in Hp by done.
      assert (t = []) as -> by (destruct t; [done|]; apply (f_equal length) in Hp; rewrite !length_app in Hp; simpl in Hp; lia).
      rewrite <- app_assoc. simpl. by apply whole_lines_newline.
  - rewrite app_assoc, !whole_lines_newline by done. by rewrite app_assoc.
Qed.

Lemma complete_app p q : complete p -> complete q -> complete (p ++ q).
Proof. intros Hp Hq. unfold complete. rewrite whole_lines_app by done. by rewrite Hq. Qed.

Lemma complete_nil : complete [].
Proof. done. Qed.

Lemma complete_line l : complete (l ++ [newline]).
Proof. apply whole_lines_newline, not_elem_of_nil. Qed.

Lemma ndjson_cons e events : ndjson (e :: events) = chars (se_json e) ++ [newline] ++ ndjson events.
Proof. unfold ndjson. rewrite fmap_cons. simpl. by rewrite <- app_assoc. Qed.

Lemma ndjson_app l k : ndjson (l ++ k) = ndjson l ++ ndjson k.
Proof. unfold ndjson. by rewrite fmap_app, concat_app. Qed.

Lemma complete_ndjson events : complete (ndjson events).
Proof.
  induction events as [|e events IH]; [done|]. rewrite ndjson_cons, app_assoc.
  apply complete_app; [apply complete_line|done].
Qed.

(** A part of a batch that was cut anywhere contains some of its first lines,
    when the events do not contain newlines themselves. *)
Lemma whole_lines_cut events t :
  Forall (fun e => newline ∉ chars (se_json e)) events -> t `prefix_of` ndjson events ->
  exists k, whole_lines t = ndjson (take k events).
Proof.
  intros Hn. revert t. induction events as [|e events IH]; intros t Ht.
  { apply prefix_nil_inv in Ht as ->. by exists 0%nat. }
  apply Forall_cons in Hn as [He Hn]. rewrite ndjson_cons, app_assoc in Ht. destruct Ht as [u Hu].
  destruct (app_eq_app _ _ _ _ Hu) as [l [[Ha Hb]|[Ha Hb]]].
  - destruct l as [|b l] using rev_ind.
    + rewrite app_nil_r in Ha. subst t. exists 1%nat. rewrite complete_line. simpl. rewrite ndjson_cons. simpl.
      by rewrite take_0.
    + rewrite app_assoc in Ha. apply app_inj_tail in Ha as [Ha <-]. exists 0%nat. simpl.
      apply whole_lines_none. rewrite Ha in He. set_solver.
  - destruct (IH Hn l ltac:(by exists u)) as [k Hk]. exists (S k). rewrite Ha, whole_lines_app by apply complete_line.
    rewrite Hk. simpl. by rewrite ndjson_cons, app_assoc.
Qed.

#[export] Hint Resolve complete_nil complete_line complete_ndjson complete_app whole_lines_complete : playertrace.

(** The inner loop of the scan finds the last newline. *)
Lemma newline_before_spec buffer i :
  (i <= length buffer)%nat ->
  match newline_before buffer i with
  | None => newline ∉ take i buffer
  | Some j => exists p t, take i buffer = p ++ (newline :: t) /\ (newline ∉ t) /\ j = (length p + 1)%nat
  end.
Proof.
  induction i as [|i IH]; intros Hi; [apply not_elem_of_nil|]. simpl newline_before.
  destruct (lookup_lt_is_Some_2 buffer i Hi) as [b Hb]. rewrite (take_S_r _ _ _ Hb), Hb.
  case_bool_decide as Hn.
  - injection Hn as ->. exists (take i buffer), []. split; [done|]. split; [apply not_elem_of_nil|].
    rewrite length_take. lia.
  - specialize (IH ltac:(lia)). assert (b <> newline) as Hbn by congruence.
    destruct (newline_before buffer i) as [j|].
    + destruct IH as (p & t & -> & Ht & ->). exists p, (t ++ [b]). rewrite <- app_assoc. split; [done|].
      split; [|done]. set_solver.
    + set_solver.
Qed.

(** The number of blocks [find_last_complete_line_end] allows covers the file. *)
Lemma scan_fuel n : Z.of_nat n <= Z.of_nat (Z.to_nat (Z.of_nat n / kBlock + 1)) * kBlock.
Proof.
  pose proof (Z.div_mod (Z.of_nat n) kBlock). pose proof (Z.mod_pos_bound (Z.of_nat n) kBlock).
  unfold kBlock in *. pose proof (Z.div_pos (Z.of_nat n) 65536). lia.
Qed.

(** * Streams *)

(** What the theorems ask of stdio. *)
Record Dependable (lib : StdioLib) : Prop := {
  drops_unwritten : keeps_unwritten lib = false;
  opens_steadily : open_transient lib = false
}.

Section Streams.
Context (lib : StdioLib) (Hlib : Dependable lib).

(** The contents that may turn up after a loss of power all satisfy [P]. *)
Context (P : option text -> Prop).

Definition Kept (f : OsFile) : Prop := Forall P (unsynced f) /\ Forall P (moments f).

(** The stream stands at the end of a file that contains [c], and [w] waits. *)
Record Tail (c w : text) (st : Stream) (f : OsFile) : Prop := {
  tail_offset : offset st = length c;
  tail_unwritten : unwritten st = w;
  tail_present : present f = Some c;
  tail_kept : Kept f
}.

Lemma put_byte_end c b : put_byte c (length c) b = c ++ [b].
Proof.
  unfold put_byte. rewrite take_ge, Nat.sub_diag, drop_ge by lia. done.
Qed.

Lemma os_change_kept c f : P (present f) -> P (Some c) -> Kept f -> Kept (os_change c f).
Proof. intros Hp Hc [Hu Hm]. by split; constructor. Qed.

(** Appending byte by byte goes through every prefix. *)
Lemma os_write_end bs f c :
  present f = Some c -> Kept f -> (forall t, t `prefix_of` bs -> P (Some (c ++ t))) ->
  let f' := os_write (length c) bs f in
  present f' = Some (c ++ bs) /\ Kept f' /\ permitted f' = permitted f /\ fates f' = fates f.
Proof using.
  revert f c. induction bs as [|b bs IH]; intros f c Hp Hk HP; simpl; [by rewrite app_nil_r|].
  assert (P (Some c)) as Hc by (rewrite <- (app_nil_r c); apply HP, prefix_nil).
  assert (put_byte (os_bytes f) (length c) b = c ++ [b]) as Hb
    by (unfold os_bytes; rewrite Hp; apply put_byte_end).
  assert (P (Some (c ++ [b]))) as Hcb by (apply HP, prefix_cons, prefix_nil).
  rewrite Hb. destruct (IH (os_change (c ++ [b]) f) (c ++ [b])) as (H1 & H2 & H3 & H4).
  - done.
  - apply os_change_kept; [by rewrite Hp|done|done].
  - intros t Ht. rewrite <- app_assoc. apply HP. by apply prefix_cons.
  - rewrite length_app in H1, H2, H3, H4. simpl in H1, H2, H3, H4. by rewrite H1, <- app_assoc.
Qed.

Lemma hand_over_ok n c w st f :
  Tail c w st f -> (forall t, t `prefix_of` w -> P (Some (c ++ t))) ->
  let '(st', f') := hand_over n st f in
  Tail (c ++ take n w) (drop n w) st' f' /\ permitted f' = permitted f /\ fates f' = fates f.
Proof using.
  intros [Ho Hw Hp Hk] HP. unfold hand_over. rewrite Ho, Hw.
  destruct (os_write_end (take n w) f c Hp Hk) as (H1 & H2 & H3 & H4).
  - intros t Ht. apply HP. etransitivity; [done|]. apply prefix_take.
  - split; [|done]. split; simpl; [by rewrite length_app|done|done|done].
Qed.

Lemma next_fate_tail c w st f :
  Tail c w st f -> let '(_, f') := next_fate f in Tail c w st f' /\ permitted f' = permitted f.
Proof using. intros [Ho Hw Hp Hk]. unfold next_fate. by destruct (fates f). Qed.

(** Writing what waits: some first part of it reaches the file; all of it when
    the call works; nothing waits any more. *)
Lemma drain_ok c w st f :
  Tail c w st f -> (forall t, t `prefix_of` w -> P (Some (c ++ t))) ->
  let '((worked, st'), f') := drain lib st f in
  exists t, t `prefix_of` w /\ Tail (c ++ t) [] st' f' /\ (worked = true -> t = w) /\ permitted f' = permitted f.
Proof using Hlib.
  intros Ht HP. unfold drain, mthen. pose proof (next_fate_tail c w st f Ht) as Hn.
  destruct (next_fate f) as [x f1], Hn as [H1 Hp1]. destruct x as [m|m t].
  - pose proof (hand_over_ok (length (unwritten st)) c w st f1 H1 HP) as Hh.
    destruct (hand_over _ st f1) as [st2 f2], Hh as (H2 & Hp2 & _). unfold mreturn.
    rewrite (tail_unwritten _ _ _ _ Ht), take_ge, drop_ge in H2 by lia. exists w. split; [done|]. by rewrite Hp2.
  - pose proof (hand_over_ok m c w st f1 H1 HP) as Hh.
    destruct (hand_over m st f1) as [st2 f2], Hh as ([Ho Hw Hp Hk] & Hp2 & _). unfold mreturn, write_broke.
    rewrite (drops_unwritten _ Hlib). exists (take m w). split; [apply prefix_take|]. by rewrite Hp2.
Qed.

(** Writing more: after a full count everything is in the file or waits. *)
Lemma fwrite_ok data c w st f :
  Tail c w st f -> (forall t, t `prefix_of` w ++ data -> P (Some (c ++ t))) ->
  let '((n, st'), f') := fwrite lib data st f in
  exists t w', t ++ w' `prefix_of` w ++ data /\ Tail (c ++ t) w' st' f' /\
    (data <> [] -> n = length data -> t ++ w' = w ++ data) /\ permitted f' = permitted f.
Proof using Hlib.
  intros Ht HP. unfold fwrite, mthen. pose proof (next_fate_tail c w st f Ht) as Hn.
  destruct (next_fate f) as [x f1], Hn as [[Ho Hw Hp Hk] Hp1]. destruct x as [m|m k].
  - pose proof (hand_over_ok m c (w ++ data) (mkStream (offset st) (unwritten st ++ data) (error_flag st)) f1
      ltac:(split; simpl; [done|by rewrite Hw|done|done]) HP) as Hh.
    destruct (hand_over m _ f1) as [st2 f2], Hh as (H2 & Hp2 & _). unfold mreturn.
    exists (take m (w ++ data)), (drop m (w ++ data)). rewrite take_drop. split; [done|]. by rewrite Hp2.
  - set (n := Nat.min k (length data - 1)).
    assert (w ++ take n data `prefix_of` w ++ data) as Hpre by apply prefix_app, prefix_take.
    pose proof (hand_over_ok m c (w ++ take n data) (mkStream (offset st) (unwritten st ++ take n data) (error_flag st)) f1
      ltac:(split; simpl; [done|by rewrite Hw|done|done]) ltac:(intros t Htt; apply HP; by etransitivity)) as Hh.
    destruct (hand_over m _ f1) as [st2 f2], Hh as ([Ho2 Hw2 Hpr2 Hk2] & Hp2 & _). unfold mreturn, write_broke.
    rewrite (drops_unwritten _ Hlib). exists (take m (w ++ take n data)), []. rewrite app_nil_r.
    split; [etransitivity; [apply prefix_take|done]|]. split; [done|]. split; [|by rewrite Hp2].
    intros Hd Hn. destruct data; [done|]. subst n. simpl in *. lia.
Qed.

End Streams.

(** * The calls of FileSink *)

Section Calls.
Context (lib : StdioLib) (Hlib : Dependable lib) (P : option text -> Prop) (durable : bool).

(** The sink has not failed for good; [durable] is how it was made. *)
Definition live (s : FileSink) : Prop := ok (failure_ s) = true /\ durable_sync_ s = durable.

(** The file is open at its end, contains [c], and [w] waits. *)
Definition Open (c w : text) (s : FileSink) : Prop :=
  live s /\ exists st, file_ s = Some st /\ Tail P c w st (os s).

(** The file is open, contains [c], and nothing waits. *)
Definition Clean (c : text) (s : FileSink) : Prop :=
  live s /\
  exists st, file_ s = Some st /\ unwritten st = [] /\ present (os s) = Some c /\ Kept P (os s).

(** The sink has failed for good and the file contains [c]. *)
Definition Dead (c : option text) (s : FileSink) : Prop :=
  ok (failure_ s) = false /\ file_ s = None /\ present (os s) = c /\ Kept P (os s).

Lemma open_clean c s : Open c [] s -> Clean c s.
Proof using. intros [Hf (st & Hs & [Ho Hw Hp Hk])]. split; [done|]. by exists st. Qed.

(** The fault hook changes nothing else. *)
Lemma hoare_fault (Q : FileSink -> Prop) operation :
  (forall h s, Q s -> Q (set_hook h s)) -> hoare Q (sink_fault operation) (fun _ => Q).
Proof using.
  intros HQ s Hs. unfold sink_fault. destruct (fault_hook s) as [[|a l]|]; simpl; [done| |done]. by apply HQ.
Qed.

Lemma open_fault c w operation : hoare (Open c w) (sink_fault operation) (fun _ => Open c w).
Proof using. by apply hoare_fault. Qed.

Lemma clean_fault c operation : hoare (Clean c) (sink_fault operation) (fun _ => Clean c).
Proof using. by apply hoare_fault. Qed.

Lemma clean_clear c : hoare (Clean c) clear_error (fun _ => Clean c).
Proof using.
  intros s [Hf (st & Hs & Hw & Hp & Hk)]. unfold clear_error, with_file. rewrite Hs. simpl. split; [done|]. by eexists.
Qed.

Lemma open_clear c w : hoare (Open c w) clear_error (fun _ => Open c w).
Proof using.
  intros s [Hf (st & Hs & [Ho Hw Hp Hk])]. unfold clear_error, with_file. rewrite Hs. simpl.
  split; [done|]. eexists. by split.
Qed.

(** Flushing: a first part of what waits reaches the file, all of it on success. *)
Lemma open_flush c w :
  (forall t, t `prefix_of` w -> P (Some (c ++ t))) ->
  hoare (Open c w) (flush_stream lib)
    (fun worked s => exists t, t `prefix_of` w /\ Open (c ++ t) [] s /\ (worked = true -> t = w)).
Proof using Hlib.
  intros HP s [Hf (st & Hs & Ht)]. unfold flush_stream, with_file, fflush. rewrite Hs.
  pose proof (drain_ok lib Hlib P c w st (os s) Ht HP) as Hd.
  destruct (drain lib st (os s)) as [[b st'] f'], Hd as (t & H1 & H2 & H3 & _). simpl. exists t.
  split; [done|]. split; [|done]. split; [done|]. by exists st'.
Qed.

Lemma os_write_nil off f : os_write off [] f = f.
Proof using. done. Qed.

(** With nothing waiting, writing it changes nothing. *)
Lemma drain_clean st f :
  unwritten st = [] ->
  let '((worked, st'), f') := drain lib st f in
  offset st' = offset st /\ unwritten st' = [] /\ present f' = present f /\ (Kept P f -> Kept P f') /\
  unsynced f' = unsynced f /\ permitted f' = permitted f.
Proof using.
  intros Hw. unfold drain, mthen, next_fate, hand_over, write_broke.
  destruct (fates f) as [|[m|m k] l]; simpl; rewrite Hw, ?take_nil, ?drop_nil; simpl;
    rewrite ?Nat.add_0_r; destruct (keeps_unwritten lib); done.
Qed.

Lemma clean_flush c : hoare (Clean c) (flush_stream lib) (fun _ => Clean c).
Proof using.
  intros s [Hf (st & Hs & Hw & Hp & Hk)]. unfold flush_stream, with_file, fflush. rewrite Hs.
  pose proof (drain_clean st (os s) Hw) as Hd. destruct (drain lib st (os s)) as [[b st'] f'].
  destruct Hd as (H1 & H2 & H3 & H4 & _). simpl. split; [done|]. exists st'. split; [done|]. split; [done|].
  split; [simpl; by rewrite H3|]. by apply H4.
Qed.

(** A seek to the end of a file with nothing waiting. *)
Lemma clean_seek_end c :
  hoare (Clean c) (seek_offset lib 0 SEEK_END)
    (fun moved s => Clean c s /\ (moved = true -> Open c [] s)).
Proof using.
  intros s [Hf (st & Hs & Hw & Hp & Hk)]. unfold seek_offset, with_file. rewrite Hs. unfold fseeko, mthen.
  pose proof (drain_clean st (os s) Hw) as Hd. destruct (drain lib st (os s)) as [[b st'] f'].
  destruct Hd as (H1 & H2 & H3 & H4 & _). rewrite Hp in H3. specialize (H4 Hk). unfold mreturn, mget, os_bytes.
  destruct b; simpl; [rewrite H3; simpl|split; [|done]; split; [done|]; by exists st'].
  destruct (Z.ltb_spec (Z.of_nat (length c) + 0) 0); [lia|]. simpl. rewrite Z.add_0_r, Nat2Z.id. split.
  - split; [done|]. by eexists.
  - intros _. split; [done|]. eexists. split; [done|]. by split.
Qed.

(** Seeking and reading inside the file. *)
Lemma clean_seek_set c off :
  hoare (Clean c) (seek_offset lib off SEEK_SET)
    (fun moved s => Clean c s /\ (moved = true -> exists st, file_ s = Some st /\ offset st = Z.to_nat off)).
Proof using.
  intros s [Hf (st & Hs & Hw & Hp & Hk)]. unfold seek_offset, with_file. rewrite Hs. unfold fseeko, mthen.
  pose proof (drain_clean st (os s) Hw) as Hd. destruct (drain lib st (os s)) as [[b st'] f'].
  destruct Hd as (H1 & H2 & H3 & H4 & _). rewrite Hp in H3. specialize (H4 Hk). unfold mreturn, mget. simpl.
  destruct b; simpl; [|split; [|done]; split; [done|]; by exists st'].
  destruct (off <? 0); simpl; (split; [split; [done|]; by eexists|]); [done|]. intros _. by eexists.
Qed.

Lemma clean_read c off want :
  hoare (fun s => Clean c s /\ exists st, file_ s = Some st /\ offset st = off) (with_file [] (fread want))
    (fun buffer s => Clean c s /\ (length buffer = want -> buffer = take want (drop off c))).
Proof using.
  intros s [[Hf (st & Hs & Hw & Hp & Hk)] (st0 & Hs0 & Ho)]. assert (st0 = st) as -> by congruence.
  unfold with_file. rewrite Hs. unfold fread, next_fate, mthen, mget, mreturn, os_bytes.
  destruct (fates (os s)) as [|[m|m k] l]; simpl; rewrite Hp, Ho; simpl;
    (split; [split; [done|]; by eexists|done || idtac]).
  intros Hl. rewrite length_take in Hl. apply take_ge.
  pose proof (length_take (drop off c) want) as Hle. lia.
Qed.

Lemma clean_tell c :
  Z.of_nat (length c) < 9223372036854775808 ->
  hoare (Open c []) tell_offset
    (fun pos s => Open c [] s /\ (pos <> kBadOffset -> pos = Z.of_nat (length c))).
Proof using.
  intros Hb s [Hf (st & Hs & [Ho Hw Hp Hk])]. unfold tell_offset, mthen, with_file. rewrite Hs.
  unfold ftello, next_fate, mthen, mreturn. destruct (fates (os s)) as [|[m|m k] l]; simpl;
    (split; [split; [done|]; eexists; by split|]); rewrite ?Ho, ?Hw; simpl; [..|done];
    rewrite Nat.add_0_r; intros _; destruct (Z.ltb_spec (Z.of_nat (length c)) 0); try lia;
    unfold to_int64; rewrite Z.mod_small by lia; lia.
Qed.


Lemma clean_descriptor c : hoare (Clean c) descriptor (fun _ => Clean c).
Proof using.
  intros s [Hf (st & Hs & Hw & Hp & Hk)]. unfold descriptor, with_file. rewrite Hs.
  unfold fileno, next_fate, mthen, mreturn. destruct (fates (os s)) as [|x l]; simpl; (split; [done|]; by eexists).
Qed.

(** A successful sync leaves only the present content possible. *)
Lemma clean_sync c :
  hoare (Clean c) sync_to_disk (fun synced s => Clean c s /\ (synced = true -> unsynced (os s) = [])).
Proof using.
  unfold sync_to_disk. eapply hoare_then; [apply clean_descriptor|]. intros [|] s [Hf (st & Hs & Hw & Hp & Hk)]; simpl.
  - unfold with_fd, fsync, next_fate, mthen, mreturn, mput. destruct Hk as [Hu Hm].
    destruct (fates (os s)) as [|[m|m k] l]; simpl; (split; [split; [done|]; by eexists|done]).
  - split; [|done]. split; [done|]. by exists st.
Qed.

Lemma open_descriptor c w : hoare (Open c w) descriptor (fun _ => Open c w).
Proof using.
  intros s [Hf (st & Hs & [Ho Hw Hp Hk])]. unfold descriptor, with_file. rewrite Hs.
  unfold fileno, next_fate, mthen, mreturn. destruct (fates (os s)) as [|x l]; simpl; (split; [done|]; eexists; by split).
Qed.

Lemma open_sync c w :
  hoare (Open c w) sync_to_disk (fun synced s => Open c w s /\ (synced = true -> unsynced (os s) = [])).
Proof using.
  unfold sync_to_disk. eapply hoare_then; [apply open_descriptor|].
  intros [|] s [Hf (st & Hs & [Ho Hw Hp [Hu Hm]])]; simpl.
  - unfold with_fd, fsync, next_fate, mthen, mreturn, mput.
    destruct (fates (os s)) as [|[m|m k] l]; simpl; (split; [split; [done|]; eexists; by repeat split|done]).
  - split; [|done]. split; [done|]. exists st. by repeat split.
Qed.

Lemma synced_clear : hoare (fun s => unsynced (os s) = []) clear_error (fun _ s => unsynced (os s) = []).
Proof using. intros s Hs. unfold clear_error, with_file. by destruct (file_ s). Qed.

Lemma synced_seek c off from :
  hoare (fun s => Clean c s /\ unsynced (os s) = []) (seek_offset lib off from) (fun _ s => unsynced (os s) = []).
Proof using.
  intros s [[Hf (st & Hs & Hw & Hp & Hk)] Hu]. unfold seek_offset, with_file. rewrite Hs. unfold fseeko, mthen.
  pose proof (drain_clean st (os s) Hw) as Hd. destruct (drain lib st (os s)) as [[b st'] f'].
  destruct Hd as (_ & _ & _ & _ & H1 & _). unfold mreturn, mget. destruct b; simpl; [|by rewrite H1].
  destruct (_ <? _); simpl; by rewrite H1.
Qed.

(** Cutting the file back. *)
Lemma clean_truncate base t :
  P (Some (base ++ t)) -> P (Some base) ->
  hoare (Clean (base ++ t)) (truncate_to (Z.of_nat (length base)))
    (fun cut s => Clean (if cut then base else base ++ t) s).
Proof using.
  intros HP HP0. unfold truncate_to. eapply hoare_then; [apply clean_descriptor|].
  intros [|] s [Hf (st & Hs & Hw & Hp & Hk)]; simpl; [|split; [done|]; by exists st].
  unfold with_fd, ftruncate, next_fate, mthen, mreturn, mput.
  assert (resize (Z.to_nat (Z.of_nat (length base))) Ascii.zero (base ++ t) = base) as Hr.
  { rewrite Nat2Z.id, resize_le by (rewrite length_app; lia). by rewrite take_app_length. }
  assert ((Z.of_nat (length base) <? 0) = false) as -> by (apply Z.ltb_ge; lia).
  destruct (fates (os s)) as [|[m|m k] l]; simpl; (split; [done|]; exists st; split; [done|]; split; [done|]);
    unfold os_bytes; simpl; rewrite ?Hp; simpl; rewrite ?Hr; (split; [done|]); [..|done];
    (apply os_change_kept; [by simpl; rewrite ?Hp|done|done]).
Qed.

(** Closing: a first part of what waits reaches the file. *)
Lemma open_fail_hard c w message :
  (forall t, t `prefix_of` w -> P (Some (c ++ t))) ->
  hoare (Open c w) (fail_hard lib message)
    (fun r s => ok r = false /\ failure_ s = r /\ exists t, t `prefix_of` w /\ Dead (Some (c ++ t)) s).
Proof using Hlib.
  intros HP s [Hf (st & Hs & Ht)]. unfold fail_hard, close_file, mthen. rewrite Hs. unfold fflush.
  pose proof (drain_ok lib Hlib P c w st (os s) Ht HP) as Hd.
  destruct (drain lib st (os s)) as [[b st'] f'], Hd as (t & H1 & H2 & _).
  unfold fclose, mthen. pose proof (drain_clean st' f' (tail_unwritten _ _ _ _ _ H2)) as Hd.
  destruct (drain lib st' f') as [[b2 st2] f2], Hd as (_ & _ & H3 & H4 & _). simpl.
  split; [done|]. split; [done|]. exists t. split; [done|]. split; [done|]. split; [done|]. simpl.
  rewrite H3, (tail_present _ _ _ _ _ H2). split; [done|]. apply H4, (tail_kept _ _ _ _ _ H2).
Qed.

Lemma clean_fail_hard c message :
  hoare (Clean c) (fail_hard lib message)
    (fun r s => ok r = false /\ failure_ s = r /\ Dead (Some c) s).
Proof using.
  intros s [Hf (st & Hs & Hw & Hp & Hk)]. unfold fail_hard, close_file, mthen. rewrite Hs. unfold fflush.
  pose proof (drain_clean st (os s) Hw) as Hd.
  destruct (drain lib st (os s)) as [[b st'] f'], Hd as (_ & H1 & H2 & H3 & _).
  unfold fclose, mthen. pose proof (drain_clean st' f' H1) as Hd.
  destruct (drain lib st' f') as [[b2 st2] f2], Hd as (_ & _ & H4 & H5 & _). simpl.
  split; [done|]. split; [done|]. split; [done|]. split; [done|]. simpl. rewrite H4, H2. split; [done|]. by apply H5, H3.
Qed.

(** Finding the end. *)
Lemma clean_seek_to_end c :
  Z.of_nat (length c) < 9223372036854775808 ->
  hoare (Clean c) (seek_to_end lib)
    (fun pos s => Clean c s /\ (pos <> kBadOffset -> pos = Z.of_nat (length c) /\ Open c [] s)).
Proof using.
  intros Hb. unfold seek_to_end. eapply hoare_then; [apply clean_seek_end|]. intros [|]; simpl.
  - eapply hoare_conseq; [by apply (clean_tell c)|intros s [_ Ho]; by apply Ho|].
    intros pos s [Ho Hpos]. split; [by apply open_clean|]. intros Hp. split; [by apply Hpos|done].
  - apply hoare_return. intros s [Hc _]. by split.
Qed.

(** What a roll-back leaves: the file as it was, or a sink that has failed for
    good with some first part of the data in the file. *)
Lemma roll_back_ok base t w message :
  (forall u, u `prefix_of` t ++ w -> P (Some (base ++ u))) ->
  hoare (Open (base ++ t) w) (roll_back lib (Z.of_nat (length base)) message)
    (fun r s => ok r = false /\
      (Open base [] s /\ unsynced (os s) = [] \/
       failure_ s = r /\ exists u, u `prefix_of` t ++ w /\ Dead (Some (base ++ u)) s)).
Proof using Hlib.
  intros HP. assert (P (Some base)) as HP0 by (rewrite <- (app_nil_r base); apply HP, prefix_nil).
  assert (forall c message', (exists u, u `prefix_of` t ++ w /\ c = base ++ u) ->
    hoare (Clean c) (fail_hard lib message') (fun r s => ok r = false /\
      (Open base [] s /\ unsynced (os s) = [] \/
       failure_ s = r /\ exists u, u `prefix_of` t ++ w /\ Dead (Some (base ++ u)) s))) as Hfail.
  { intros c message' (u & Hu & ->). eapply hoare_conseq; [apply clean_fail_hard|done|].
    intros r s (Hr & Hrs & Hd). split; [done|]. right. eauto. }
  assert (exists u, u `prefix_of` t ++ w /\ base = base ++ u) as Hbase
    by (exists []; rewrite app_nil_r; split; [apply prefix_nil|done]).
  unfold roll_back. apply hoare_read. intros x. apply hoare_pre with (P' := fun s => Open (base ++ t) w s /\ x = true).
  2:{ intros s [Ho <-]. split; [done|]. destruct Ho as [_ (st & Hs & _)]. apply bool_decide_eq_true. by eexists. }
  apply hoare_fact. intros ->. assert ((Z.of_nat (length base) <? 0) = false) as -> by (apply Z.ltb_ge; lia). simpl.
  eapply hoare_then; [apply open_clear|]. intros ?. eapply hoare_then.
  { apply open_flush. intros u Hu. rewrite <- app_assoc. apply HP. by apply prefix_app. }
  intros b. apply hoare_exists. intros u. apply hoare_given. intros Hu. rewrite <- app_assoc.
  assert (t ++ u `prefix_of` t ++ w) as Htu by (by apply prefix_app).
  apply hoare_pre with (P' := Clean (base ++ t ++ u)); [|intros s [Ho _]; by apply open_clean].
  eapply hoare_then; [apply clean_clear|]. intros ?.
  eapply (hoare_then _ (fun (cut : bool) s => Clean (if cut then base ++ t ++ u else base) s)).
  { unfold or_else, fails. eapply hoare_then; [apply clean_fault|]. intros [|]; [by apply hoare_return|].
    eapply hoare_then; [apply clean_truncate; [by apply HP|done]|]. intros [|]; by apply hoare_return. }
  intros [|]; [by apply Hfail; eauto|].
  eapply hoare_then; [apply clean_sync|]. intros [|]; simpl; [|by eapply hoare_pre; [apply Hfail, Hbase|intros s [? _]]].
  apply hoare_pre with (P' := fun s => Clean base s /\ unsynced (os s) = []); [|intros s [? ?]; split; [done|by auto]].
  eapply hoare_then; [apply hoare_conj; [apply clean_clear|apply synced_clear]|]. intros ?. cbv beta.
  eapply hoare_then.
  { eapply hoare_pre; [apply hoare_conj; [apply (clean_seek_end base)|apply (synced_seek base)]|]. intros s [? ?]. by split; [|split]. }
  intros [|]; simpl; [|by eapply hoare_pre; [apply Hfail, Hbase|intros s [[? _] _]]].
  apply hoare_return. intros s [[_ Ho] Hus]. split; [done|]. left. by auto.
Qed.

(** ** The scan for the last complete line *)

Lemma scan_blocks_ok c fuel pos :
  Z.of_nat (length c) < 9223372036854775808 ->
  0 <= pos <= Z.of_nat (length c) -> pos <= Z.of_nat fuel * kBlock -> newline ∉ drop (Z.to_nat pos) c ->
  hoare (Clean c) (scan_blocks lib fuel pos) (fun r s => Clean c s /\ exists x, r = Some x /\
    forall g, x = Some g -> g = Z.of_nat (length (whole_lines c))).
Proof using Hlib.
  intros Hmax. revert pos. induction fuel as [|fuel IH]; intros pos Hpos Hfuel Hn; simpl;
    destruct (Z.ltb_spec 0 pos) as [Hp|Hp]; simpl; [unfold kBlock in *; lia| | |];
    try (apply hoare_return; intros s Hs; split; [done|]; eexists; split; [done|]; intros g [= <-];
         assert (pos = 0) as -> by lia; rewrite drop_0 in Hn; by rewrite whole_lines_none).
  set (chunk := if pos <? kBlock then pos else kBlock). set (start := pos - chunk).
  assert (0 < chunk <= kBlock /\ 0 <= start < pos /\ (0 < start -> chunk = kBlock)) as (Hc & Hs & Hk)
    by (subst start chunk; unfold kBlock; destruct (Z.ltb_spec pos 65536); lia).
  rewrite (to_int64_small start) by lia.
  eapply hoare_then; [apply clean_seek_set|]. intros [|]; simpl; cbn [negb].
  2:{ apply hoare_return. intros s [Hcl _]. split; [done|]. by eexists. }
  eapply hoare_then.
  { eapply hoare_pre; [apply (clean_read c (Z.to_nat start))|]. intros s [Hcl Ho]. split; [done|by apply Ho]. }
  intros buffer. apply hoare_fact. case_bool_decide as Hlen; simpl; intros Hbuf; cbn [negb].
  2:{ apply hoare_return. intros s Hcl. split; [done|]. by eexists. }
  specialize (Hbuf Hlen).
  assert (drop (Z.to_nat start) c = buffer ++ drop (Z.to_nat pos) c) as Hsplit.
  { rewrite Hbuf. replace (Z.to_nat pos) with (Z.to_nat start + Z.to_nat chunk)%nat by lia.
    by rewrite <- drop_drop, take_drop. }
  pose proof (newline_before_spec buffer (length buffer) (Nat.le_refl _)) as Hnb. rewrite take_ge in Hnb by done.
  destruct (newline_before buffer (length buffer)) as [i|].
  - apply hoare_return. intros s Hcl. split; [done|]. eexists. split; [done|]. intros g [= <-].
    destruct Hnb as (p & t & -> & Ht & ->). rewrite length_app in Hlen. simpl in Hlen.
    rewrite <- (take_drop (Z.to_nat start) c), Hsplit, <- app_assoc, app_assoc. simpl.
    rewrite whole_lines_newline by set_solver. rewrite !length_app, length_take. simpl.
    rewrite to_int64_small by lia. lia.
  - apply IH; [lia|unfold kBlock in *; lia|]. rewrite Hsplit. set_solver.
Qed.

(** The scan is exact for every file the offsets can address, and its blocks are
    never used up. *)
Lemma find_last_ok c :
  Z.of_nat (length c) < 9223372036854775808 ->
  hoare (Clean c) (find_last_complete_line_end lib (Z.of_nat (length c)))
    (fun r s => Clean c s /\ forall g, r = Some g -> g = Z.of_nat (length (whole_lines c))).
Proof using Hlib.
  intros Hmax. unfold find_last_complete_line_end. eapply hoare_then.
  { apply scan_blocks_ok; [done|lia| |].
    - by apply scan_fuel.
    - rewrite Nat2Z.id, drop_all. apply not_elem_of_nil. }
  intros r. apply hoare_return. intros s [Hc (x & -> & Hx)]. split; [done|]. apply Hx.
Qed.

(** ** Opening *)

(** The sink has not opened its file, which is [o]. *)
Definition Shut (o : option text) (s : FileSink) : Prop :=
  live s /\ file_ s = None /\ present (os s) = o /\ Kept P (os s).

(** The sink can take a batch after the lines [base]. *)
Definition Ready (base : text) (s : FileSink) : Prop :=
  Clean base s \/
  exists o, Shut o s /\ whole_lines (default [] o) = base /\ Z.of_nat (length (default [] o)) < 9223372036854775808.

(** It has failed for good; the lines [base] are still there. *)
Definition Lost (base : text) (s : FileSink) : Prop :=
  exists o, Dead o s /\ whole_lines (default [] o) = base.

Section Opening.
Context (base : text).
Context (Hbase : forall o, whole_lines (default [] o) = base -> P o).

#[local] Abbreviation Opened := (fun r s =>
  ok r = true /\ Clean base s \/ ok r = false /\ (Ready base s \/ failure_ s = r /\ Lost base s)).

Lemma fail_opening c message :
  whole_lines c = base -> hoare (Clean c) (fail_hard lib message) Opened.
Proof using.
  intros Hc. eapply hoare_conseq; [apply clean_fail_hard|done|]. intros r s (Hr & Hrs & Hd).
  right. split; [done|]. right. split; [done|]. by exists (Some c).
Qed.

(** The repair of a torn tail: cut, made durable and positioned. *)
Lemma repair_cut_ok c :
  whole_lines c = base ->
  hoare (Clean c)
    (or_else (sink_fault "truncate")
       (or_else (fails (truncate_to (Z.of_nat (length base))))
          (or_else (fails sync_to_disk) (fails (seek_offset lib 0 SEEK_END)))))
    (fun broken s => if broken : bool then exists c', whole_lines c' = base /\ Clean c' s else Clean base s).
Proof using Hbase.
  intros Hc. destruct (whole_lines_spec c) as (t & Ht & _). rewrite Hc in Ht.
  assert (whole_lines base = base) as Hb by (rewrite <- Hc; apply whole_lines_complete).
  unfold or_else, fails. eapply hoare_then; [apply clean_fault|]. intros [|].
  { apply hoare_return. eauto. }
  eapply (hoare_then _ (fun (failed : bool) s => if failed then exists c', whole_lines c' = base /\ Clean c' s else Clean base s)).
  { eapply hoare_then; [rewrite Ht; apply clean_truncate; apply Hbase; simpl; by rewrite <- ?Ht|].
    intros [|]; apply hoare_return; intros s Hs; simpl; [done|]. exists c. by rewrite Ht at 2. }
  intros [|]; [apply hoare_return; eauto|].
  eapply (hoare_then _ (fun (failed : bool) s => Clean base s)).
  { eapply hoare_then; [apply clean_sync|]. intros b. apply hoare_return. by intros s [? _]. }
  intros [|]; [apply hoare_return; eauto|].
  eapply hoare_then; [apply clean_seek_end|]. intros [|]; apply hoare_return; intros s [? _]; simpl; eauto.
Qed.

Lemma repair_tail_ok c :
  whole_lines c = base -> Z.of_nat (length c) < 9223372036854775808 ->
  hoare (Clean c) (repair_tail lib) Opened.
Proof using Hbase Hlib.
  intros Hc Hlen. unfold repair_tail. apply hoare_read. intros path.
  eapply hoare_then; [eapply hoare_pre; [by apply (clean_seek_to_end c)|by intros s [? _]]|]. intros size.
  destruct (Z.eqb_spec size kBadOffset) as [->|Hne].
  { eapply hoare_pre; [by apply fail_opening|]. by intros s [? _]. }
  apply hoare_pre with (P' := fun s => Clean c s /\ size = Z.of_nat (length c)).
  2:{ intros s [Hcl Hs]. split; [done|by apply Hs]. }
  apply hoare_fact. intros ->. destruct (Z.eqb_spec (Z.of_nat (length c)) 0) as [Hz|Hz].
  { apply hoare_return. intros s Hs. left. split; [done|]. assert (c = []) as -> by (apply length_zero_iff_nil; lia).
    by rewrite <- Hc. }
  eapply hoare_then; [by apply find_last_ok|]. intros [g|]; apply hoare_fact; intros Hg; [|by apply fail_opening].
  rewrite (Hg g eq_refl), Hc. destruct (whole_lines_spec c) as (t & Ht & _). rewrite Hc in Ht.
  destruct (Z.eqb_spec (Z.of_nat (length base)) (Z.of_nat (length c))) as [He|He].
  - assert (c = base) as Hcb.
    { rewrite Ht, length_app in He. assert (t = []) as -> by (apply length_zero_iff_nil; lia). by rewrite app_nil_r in Ht. }
    rewrite Hcb in *. eapply hoare_then; [apply clean_seek_end|]. intros [|].
    + apply hoare_return. intros s [? _]. by left.
    + eapply hoare_pre; [by apply (fail_opening base)|]. by intros s [? _].
  - eapply hoare_then; [apply clean_flush|]. intros ?. eapply hoare_then; [apply clean_clear|]. intros ?.
    eapply hoare_then; [by apply repair_cut_ok|]. intros [|].
    + apply hoare_exists. intros c'. apply hoare_given. intros Hc'. by apply fail_opening.
    + apply hoare_return. intros s Hs. by left.
Qed.

(** The two calls of fopen: an existing file is opened or left alone, a missing
    one is created or stays missing. *)
Lemma fopen_update_ok o :
  hoare (Shut o) (open_into (fopen_update lib))
    (fun _ s => Shut o s /\ (o = None \/ permitted (os s) = false) \/ Clean (default [] o) s).
Proof using Hlib.
  intros s (Hf & Hfile & Hp & Hk). unfold open_into, with_fd, fopen_update, mthen.
  assert (exists x f, next_fate (os s) = (x, f) /\ present f = o /\ Kept P f) as (x & f & -> & Hpf & Hkf).
  { unfold next_fate. destruct (fates (os s)); eauto. }
  unfold mget, mreturn, mput, open_fails, id. rewrite Hpf, (opens_steadily _ Hlib).
  destruct o as [c|]; simpl; [|left; split; [done|by left]].
  destruct (permitted f) eqn:Hpe, x; simpl;
    try (left; split; [done|by right]); right; split; try done; eexists; done.
Qed.

Lemma fopen_truncate_ok o :
  whole_lines (default [] o) = base ->
  hoare (fun s => Shut o s /\ (o = None \/ permitted (os s) = false)) (open_into (fopen_truncate lib))
    (fun _ s => Shut o s \/ Clean (default [] o) s).
Proof using Hbase Hlib.
  intros Ho s [(Hf & Hfile & Hp & Hk) Hcase]. unfold open_into, with_fd, fopen_truncate, mthen.
  assert (exists x f, next_fate (os s) = (x, f) /\ present f = o /\ Kept P f /\ permitted f = permitted (os s))
    as (x & f & -> & Hpf & Hkf & Hpe) by (unfold next_fate; destruct (fates (os s)); eauto 10).
  unfold mget, mreturn, mput, id. rewrite Hpf, Hpe. destruct Hcase as [->|Hd]; [|rewrite Hd; by left].
  destruct (permitted (os s)), x; simpl; try (by left). right. split; [done|]. eexists. split; [done|]. split; [done|].
  split; [done|]. apply os_change_kept; [rewrite Hpf|..|done]; by apply Hbase.
Qed.

Lemma ensure_open_ok : hoare (Ready base) (ensure_open lib) Opened.
Proof using Hbase Hlib.
  unfold ensure_open. apply hoare_read. intros failure. apply hoare_pre with (P' := fun s => Ready base s /\ ok failure = true).
  2:{ intros s [Hr <-]. split; [done|]. by destruct Hr as [[[? _] _]|(o & [[? _] _] & _)]. }
  apply hoare_fact. intros ->. simpl. apply hoare_read. intros file. case_bool_decide as Hfile.
  { apply hoare_return. intros s [[Hc|(o & (_ & Hn & _) & _)] <-]; [by left|]. rewrite Hn in Hfile. by destruct Hfile. }
  apply hoare_pre with (P' := fun s => exists o, Shut o s /\ whole_lines (default [] o) = base /\
                                    Z.of_nat (length (default [] o)) < 9223372036854775808).
  2:{ intros s [[[_ (st & Hs & _)]|Ho] <-]; [|done]. rewrite Hs in Hfile. by destruct Hfile. }
  apply hoare_exists. intros o. apply hoare_fact. intros [Ho Hlen].
  eapply hoare_then; [by apply (hoare_fault (Shut o))|]. intros [|].
  { apply hoare_return. intros s Hs. right. split; [done|]. left. right. eauto. }
  apply hoare_pre with (P' := Shut o); [|done].
  eapply hoare_then; [apply fopen_update_ok|]. intros ?. apply hoare_read. intros file0.
  eapply (hoare_then _ (fun _ s => Shut o s \/ Clean (default [] o) s)).
  { case_bool_decide as Hf0; [eapply hoare_pre; [by apply (fopen_truncate_ok o)|]|apply hoare_return].
    - intros s [[?|[_ (st & Hs & _)]] Hfe]; [done|congruence].
    - intros s [[[? _]|?] _]; by auto. }
  intros ?. apply hoare_read. intros file'. apply hoare_read. intros path.
  case_bool_decide as Hfile'.
  - apply hoare_return. intros s [[[Hs|[_ (st & Hs & _)]] Hfe] _]; [|congruence]. right. split; [done|]. left. right. eauto.
  - eapply hoare_pre; [by apply (repair_tail_ok (default [] o))|]. intros s [[[(_ & Hs & _)|Hs] Hfe] _]; [congruence|done].
Qed.

End Opening.

(** ** Writing *)

Section Writing.
Context (base full : text).
Context (Hbase : forall o, whole_lines (default [] o) = base -> P o).
Context (Hfull : forall t, t `prefix_of` full -> P (Some (base ++ t))).

(** [data] has been accepted after [base]. *)
Definition Accepted (data : text) (s : FileSink) : Prop :=
  exists t w, t ++ w = data /\ Open (base ++ t) w s.

(** What a failed write leaves: the file as it was, or a sink that has failed for
    good with a first part of the data in the file. *)
Definition Undone (r : Status) (s : FileSink) : Prop :=
  ok r = false /\
  (Clean base s /\ unsynced (os s) = [] \/
   failure_ s = r /\ exists u, u `prefix_of` full /\ Dead (Some (base ++ u)) s).

Lemma accepted_fault data operation : hoare (Accepted data) (sink_fault operation) (fun _ => Accepted data).
Proof using. apply hoare_fault. intros h s (t & w & Ht & Ho). by exists t, w. Qed.

Lemma accepted_roll_back data message :
  data `prefix_of` full -> hoare (Accepted data) (roll_back lib (Z.of_nat (length base)) message) Undone.
Proof using Hfull Hlib.
  intros Hd. apply hoare_exists. intros t. apply hoare_exists. intros w. apply hoare_given. intros <-.
  eapply hoare_conseq; [apply roll_back_ok|done|].
  - intros u Hu. apply Hfull. by etransitivity.
  - intros r s [Hr [[Ho ?]|[Hrs (u & Hu & Hdead)]]]; (split; [done|]); [left; by split; [apply open_clean|]|right].
    split; [done|]. exists u. split; [by etransitivity|done].
Qed.

Lemma accepted_fwrite data more :
  data ++ more `prefix_of` full ->
  hoare (Accepted data) (with_file 0%nat (fwrite lib more))
    (fun n s => exists data', data' `prefix_of` data ++ more /\ Accepted data' s /\
       (more <> [] -> n = length more -> data' = data ++ more)).
Proof using Hfull Hlib.
  intros Hd s (t & w & <- & [Hl (st & Hs & Ht)]). unfold with_file. rewrite Hs. rewrite <- app_assoc in Hd.
  pose proof (fwrite_ok lib Hlib P more (base ++ t) w st (os s) Ht) as Hw.
  destruct (fwrite lib more st (os s)) as [[n st'] f'].
  destruct Hw as (u & w' & Hu & Ht' & Hall & _).
  { intros u Hu. rewrite <- app_assoc. apply Hfull. etransitivity; [by apply prefix_app|done]. }
  simpl. exists (t ++ u ++ w'). rewrite <- app_assoc. split; [by apply prefix_app|]. split.
  - exists (t ++ u), w'. rewrite <- !app_assoc. split; [done|]. split; [done|]. exists st'. by rewrite <- app_assoc in Ht'.
  - intros Hm Hn. by rewrite (Hall Hm Hn).
Qed.

(** One failing exit of the event loop. *)
Lemma accepted_leave data message :
  data `prefix_of` full ->
  hoare (Accepted data) (let* r := roll_back lib (Z.of_nat (length base)) message in mreturn (Some r))
    (fun r s => match r with Some st => Undone st s | None => Accepted full s end).
Proof using Hfull Hlib.
  intros Hd. eapply hoare_then; [by apply accepted_roll_back|]. intros r. by apply hoare_return.
Qed.

Lemma accepted_json data json :
  data ++ json `prefix_of` full ->
  hoare (Accepted data)
    (if bool_decide (json <> [])
     then let* n := with_file 0%nat (fwrite lib json) in mreturn (negb (bool_decide (n = length json)))
     else mreturn false)
    (fun short s => if short : bool then exists data', data' `prefix_of` full /\ Accepted data' s
                    else Accepted (data ++ json) s).
Proof using Hfull Hlib.
  intros Hd. case_bool_decide as Hj; [|rewrite Hj, app_nil_r; by apply hoare_return].
  eapply hoare_then; [by apply accepted_fwrite|]. intros n. apply hoare_return. intros s (d & Hp & Ha & Hall).
  case_bool_decide as Hn; simpl; [by rewrite <- (Hall Hj Hn)|]. exists d. split; [by etransitivity|done].
Qed.

Lemma accepted_newline data :
  data ++ [newline] `prefix_of` full ->
  hoare (Accepted data) (with_file false (fputc lib newline))
    (fun ended s => if ended : bool then Accepted (data ++ [newline]) s
                    else exists data', data' `prefix_of` full /\ Accepted data' s).
Proof using Hfull Hlib.
  intros Hd s Hs. pose proof (accepted_fwrite data [newline] Hd s Hs) as Hw. revert Hw.
  unfold with_file, fputc, mthen. destruct (file_ s) as [st|] eqn:Hf; [|by destruct Hs as (? & ? & _ & [_ (st & ? & _)]); congruence].
  destruct (fwrite lib [newline] st (os s)) as [[n st'] f']. simpl. intros (d & Hp & Ha & Hall).
  case_bool_decide as Hn; [by rewrite <- (Hall ltac:(done) Hn)|]. exists d. split; [by etransitivity|done].
Qed.

(** [write_events]: everything is accepted, or the write is undone. *)
Lemma write_events_ok events data :
  data ++ ndjson events = full ->
  hoare (Accepted data) (write_events lib (Z.of_nat (length base)) events)
    (fun r s => match r with Some st => Undone st s | None => Accepted full s end).
Proof using Hfull Hlib.
  revert data. induction events as [|e events IH]; intros data Hd; simpl.
  { apply hoare_return. intros s Hs. unfold ndjson in Hd. simpl in Hd. by rewrite <- Hd, app_nil_r. }
  rewrite ndjson_cons in Hd. set (json := chars (se_json e)) in *.
  assert (data `prefix_of` full) as Hp0 by (rewrite <- Hd; by apply prefix_app_r).
  assert (data ++ json `prefix_of` full) as Hp1 by (rewrite <- Hd, app_assoc; by apply prefix_app_r).
  assert ((data ++ json) ++ [newline] `prefix_of` full) as Hp2 by (rewrite <- Hd, 2!app_assoc; by apply prefix_app_r).
  apply hoare_read. intros path. eapply hoare_then; [eapply hoare_pre; [apply accepted_fault|by intros s [? _]]|]. intros [|].
  { eapply (hoare_then _ (fun _ s => exists data', data' `prefix_of` full /\ Accepted data' s)).
    - case_bool_decide; [|apply hoare_return; eauto].
      eapply hoare_then.
      + apply (accepted_fwrite data (take (length json / 2 + 1) json)).
        etransitivity; [apply prefix_app, prefix_take|done].
      + intros n. apply hoare_return. intros s (d & Hd' & Ha & _). exists d. split; [|done].
        etransitivity; [done|]. etransitivity; [apply prefix_app, prefix_take|done].
    - intros ?. apply hoare_exists. intros d. apply hoare_given. intros Hd'. by apply accepted_leave. }
  eapply hoare_then; [apply accepted_fault|]. intros [|]; [by apply accepted_leave|].
  eapply hoare_then; [by apply accepted_json|]. intros [|].
  { apply hoare_exists. intros d. apply hoare_given. intros Hd'. by apply accepted_leave. }
  eapply hoare_then; [by apply accepted_newline|]. intros [|]; simpl.
  - apply IH. by rewrite <- !app_assoc.
  - apply hoare_exists. intros d. apply hoare_given. intros Hd'. by apply accepted_leave.
Qed.

(** [write_commit]: Ok only for a file that contains everything, on disk when
    the sink is durable. *)
Lemma write_commit_ok :
  hoare (Accepted full) (write_commit lib (Z.of_nat (length base)))
    (fun r s => ok r = true /\ Clean (base ++ full) s /\ (durable = true -> unsynced (os s) = []) \/ Undone r s).
Proof using Hfull Hlib.
  assert (forall message, hoare (Accepted full) (roll_back lib (Z.of_nat (length base)) message)
    (fun r s => ok r = true /\ Clean (base ++ full) s /\ (durable = true -> unsynced (os s) = []) \/ Undone r s)) as Hrb.
  { intros message. eapply hoare_conseq; [by apply accepted_roll_back|done|]. by right. }
  assert (forall s, Open (base ++ full) [] s -> Accepted full s) as Hacc
    by (intros s Ho; exists full, []; by rewrite app_nil_r).
  unfold write_commit. apply hoare_read. intros path.
  eapply hoare_then; [eapply hoare_pre; [apply accepted_fault|by intros s [? _]]|]. intros [|]; [apply Hrb|].
  eapply (hoare_then _ (fun flushed s => if flushed : bool then Open (base ++ full) [] s
                                         else exists data, data `prefix_of` full /\ Accepted data s)).
  { apply hoare_exists. intros t. apply hoare_exists. intros w. apply hoare_given. intros Htw.
    eapply hoare_conseq; [apply open_flush|done|].
    - intros u Hu. rewrite <- app_assoc. apply Hfull. rewrite <- Htw. by apply prefix_app.
    - intros b s (u & Hu & Ho & Hall). rewrite <- app_assoc in Ho.
      destruct b; [by rewrite (Hall eq_refl), Htw in Ho|]. exists (t ++ u).
      split; [rewrite <- Htw; by apply prefix_app|]. exists (t ++ u), []. by rewrite app_nil_r. }
  intros [|]; simpl.
  2:{ apply hoare_exists. intros d. apply hoare_given. intros Hd.
      eapply hoare_conseq; [by apply accepted_roll_back|done|]. by right. }
  apply hoare_read. intros dur. apply hoare_pre with (P' := fun s => Open (base ++ full) [] s /\ dur = durable);
    [|by intros s [[[? ?] ?] <-]]. apply hoare_fact. intros ->. destruct (negb durable) eqn:Hdur.
  { apply hoare_return. intros s Hs. left. split; [done|]. split; [by apply open_clean|]. intros Hd. by rewrite Hd in Hdur. }
  eapply hoare_then; [by apply (hoare_fault (Open (base ++ full) []))|].
  intros [|]; [eapply hoare_pre; [apply Hrb|done]|].
  eapply hoare_then; [apply open_sync|]. intros [|]; simpl.
  - apply hoare_return. intros s [Ho Hu]. left. split; [done|]. split; [by apply open_clean|by auto].
  - eapply hoare_pre; [apply Hrb|]. intros s [? _]. by apply Hacc.
Qed.

(** The end of [write] once the file is open: all of the batch or nothing. *)
Lemma write_tail_ok events path :
  full = ndjson events -> Z.of_nat (length base) < 9223372036854775808 ->
  hoare (Clean base)
    (let* start := seek_to_end lib in
     if start =? kBadOffset
     then fail_hard lib ("FileSink: could not determine the end of '" +:+ path +:+ "'")
     else
     let* returned := write_events lib start events in
     match returned with
     | Some r => mreturn r
     | None => write_commit lib start
     end)
    (fun r s => ok r = true /\ Clean (base ++ full) s /\ (durable = true -> unsynced (os s) = []) \/ Undone r s).
Proof using Hfull Hlib.
  intros Hev Hlen. eapply hoare_then; [by apply (clean_seek_to_end base)|]. intros start.
  destruct (Z.eqb_spec start kBadOffset) as [->|Hne].
  { eapply hoare_conseq; [apply (clean_fail_hard base)|by intros s [? _]|].
    intros r s (Hr & Hrs & Hd). right. split; [done|]. right. split; [done|]. exists [].
    rewrite app_nil_r. split; [apply prefix_nil|done]. }
  apply hoare_pre with (P' := fun s => Accepted [] s /\ start = Z.of_nat (length base)).
  2:{ intros s [_ Hs]. destruct (Hs Hne) as [-> Ho]. split; [|done]. exists [], []. by rewrite (app_nil_r base). }
  apply hoare_fact. intros ->. eapply hoare_then; [by apply write_events_ok|]. intros [r|]; simpl.
  - apply hoare_return. by right.
  - apply write_commit_ok.
Qed.

End Writing.

End Calls.

(** * Whole calls *)

(** The complete lines of the file behind a sink. *)
Definition file_lines (s : FileSink) : text := whole_lines (os_bytes (os s)).

(** Between two calls nothing waits in the stream; an open file has been repaired,
    and a file that is not open yet can be addressed with 64-bit offsets. *)
Definition sink_idle (s : FileSink) : Prop :=
  match file_ s with
  | Some st => unwritten st = [] /\ complete (os_bytes (os s)) /\ is_Some (present (os s))
  | None => Z.of_nat (length (os_bytes (os s))) < 9223372036854775808
  end.

(** Every content the file may have shows the same complete lines. *)
Definition settled_on (lines : text) (f : OsFile) : Prop :=
  Forall (fun o => whole_lines (default [] o) = lines) (after_power_loss f).

Section Whole.
Context (lib : StdioLib) (Hlib : Dependable lib).

Lemma kept_weaken (P P' : option text -> Prop) f : (forall o, P o -> P' o) -> Kept P f -> Kept P' f.
Proof using. intros HP [Hu Hm]. split; by eapply Forall_impl. Qed.

Lemma clean_weaken (P P' : option text -> Prop) d c s : (forall o, P o -> P' o) -> Clean P d c s -> Clean P' d c s.
Proof using.
  intros HP [Hl (st & H1 & H2 & H3 & H4)]. split; [done|]. exists st. repeat split; try done; by eapply Forall_impl; [apply H4|].
Qed.

(** [FileSink::write] on every path. [P0] and [P] are any conditions on what a
    loss of power may leave: [P0] holds of every content with the old lines, and
    [P] also of the old lines followed by a part of the batch. *)
Lemma write_ok (P0 P : option text -> Prop) base batch s :
  (forall o, whole_lines (default [] o) = base -> P0 o) -> (forall o, P0 o -> P o) ->
  (forall t, t `prefix_of` ndjson batch -> P (Some (base ++ t))) ->
  Z.of_nat (length base) < 9223372036854775808 ->
  Ready P0 (durable_sync_ s) base s ->
  let '(r, s') := write lib batch s in
  let d := durable_sync_ s in
  (ok r = true /\ Clean P d (base ++ ndjson batch) s' /\ (d = true -> unsynced (os s') = [])) \/
  (ok r = false /\
   (Clean P d base s' /\ unsynced (os s') = [] \/ Ready P0 d base s' \/
    failure_ s' = r /\ exists u, u `prefix_of` ndjson batch /\
      (Dead P (Some (base ++ u)) s' \/ u = [] /\ Lost P0 base s'))).
Proof using Hlib.
  intros HP0 HP Hfull Hlen Hready. unfold write. rewrite !mget_then.
  destruct (cancelled_ s). { simpl. right. split; [done|]. by right; left. }
  pose proof (ensure_open_ok lib Hlib P0 (durable_sync_ s) base HP0 s Hready) as Hopen.
  unfold mthen at 1. destruct (ensure_open lib s) as [r s1]. simpl in Hopen.
  destruct Hopen as [[Hr Hc]|[Hr Hrest]].
  - rewrite Hr. simpl. apply (clean_weaken _ P) in Hc; [|done].
    pose proof (write_tail_ok lib Hlib P (durable_sync_ s) base (ndjson batch) Hfull batch (out_path_ s) eq_refl Hlen s1 Hc) as Ht.
    cbv beta in Ht. destruct (mthen (seek_to_end lib) _ s1) as [r2 s2]. simpl in Ht.
    destruct Ht as [Ht|[Hr' [[Hcl Hu]|[Hf (u & Hu & Hd)]]]]; [by left|right..]; (split; [done|]).
    + by left.
    + right. right. split; [done|]. exists u. split; [done|by left].
  - rewrite Hr. simpl. right. split; [done|]. destruct Hrest as [Hrest|[Hf Hl]]; [by right; left|].
    right. right. split; [done|]. exists []. split; [apply prefix_nil|by right].
Qed.

(** [FileSink::flush] leaves the lines as they are. *)
Lemma flush_now_ok P d base : hoare (Ready P d base) (flush_now lib) (fun _ => Ready P d base).
Proof using.
  unfold flush_now. apply hoare_read. intros failure. destruct (negb (ok failure)); [by apply hoare_return; intros s [? _]|].
  apply hoare_read. intros file. apply hoare_read. intros path. case_bool_decide as Hfile.
  { apply hoare_return. by intros s [[[? _] _] _]. }
  apply hoare_pre with (P' := Clean P d base).
  2:{ intros s [[[[Hc|(o & (_ & Hn & _) & _)] _] <-] _]; [done|]. by rewrite Hn in Hfile. }
  assert (forall r, hoare (Clean P d base) (mreturn r) (fun _ : Status => Ready P d base)) as Hret
    by (intros r; apply hoare_return; by left).
  eapply hoare_then; [apply clean_fault|]. intros [|]; [apply Hret|].
  eapply hoare_then; [apply clean_flush|]. intros [|]; simpl; [|apply Hret].
  apply hoare_read. intros dur. eapply hoare_pre; [|by intros s [Hc _]; exact Hc].
  destruct (negb dur); [apply Hret|].
  eapply hoare_then; [apply clean_fault|]. intros [|]; [apply Hret|].
  eapply hoare_then; [apply clean_sync|]. intros b. eapply hoare_pre; [|by intros s [Hc _]; exact Hc].
  destruct (negb b); apply Hret.
Qed.

(** A sink that has failed for good does not touch its file again. *)
Lemma failed_write batch s :
  ok (failure_ s) = false ->
  let '(r, s') := write lib batch s in ok r = false /\ s' = s.
Proof using.
  intros Hf. unfold write. rewrite !mget_then. destruct (cancelled_ s); [done|].
  unfold ensure_open, mthen. unfold mget at 1. rewrite Hf. simpl. by rewrite Hf.
Qed.

Lemma failed_flush s : ok (failure_ s) = false -> flush_now lib s = (failure_ s, s).
Proof using. intros Hf. unfold flush_now. rewrite mget_then, Hf. done. Qed.

End Whole.
