(* ===== verification/FileSinkLog.v ===== *)
(** FileSink as an append-only log of lines.

    The theorems about whole calls (all or nothing, the backward scan, permanent
    failure), and a simulation: through any sequence of calls, failures, crashes
    and restarts, a durable FileSink behaves like a log to which an acknowledged
    batch is appended whole, a refused batch not at all, and of a batch that was
    cut off by a crash or by a permanent failure some first lines. *)
From S2P Require Import Prelude Types Serializer Paths Stdio FileSink FileSinkSpec.

Local Open Scope Z_scope.
Local Open Scope pt_scope.

#[local] Abbreviation text := (list Ascii.ascii).
#[local] Abbreviation offset_limit := 9223372036854775808.

(** * The log *)

(** An event whose text is one line. *)
Definition one_line (e : SerializedEvent) : Prop := newline ∉ chars (se_json e).

(** What happens to a sink: a call with its answer, or the end of the process
    while a batch is being written. *)
Inductive sink_call : Type :=
| CallWrite (batch : EventBatch) (answer : Status)
| CallFlush (answer : Status)
| CallCancel
| CallHook (hook : option FileSinkFaultHook)
| Died (batch : EventBatch).

(** The abstract state: the lines, and the batch of which some first lines may
    follow them. *)
Definition Log : Type := text * option EventBatch.

Inductive log_step : Log -> sink_call -> Log -> Prop :=
| LogAppend l batch r : ok r = true -> log_step (l, None) (CallWrite batch r) (l ++ ndjson batch, None)
| LogRefuse l t batch r : ok r = false -> log_step (l, t) (CallWrite batch r) (l, t)
| LogBreak l batch r : ok r = false -> log_step (l, None) (CallWrite batch r) (l, Some batch)
| LogFlush l t r : log_step (l, t) (CallFlush r) (l, t)
| LogCancel l t : log_step (l, t) CallCancel (l, t)
| LogHook l t h : log_step (l, t) (CallHook h) (l, t)
| LogDied l batch k : log_step (l, None) (Died batch) (l ++ ndjson (take k batch), None)
| LogDiedFailed l broken batch k : log_step (l, Some broken) (Died batch) (l ++ ndjson (take k broken), None).

Inductive log_run : Log -> list sink_call -> Log -> Prop :=
| log_run_nil l : log_run l [] l
| log_run_cons l c l' cs l'' : log_step l c l' -> log_run l' cs l'' -> log_run l (c :: cs) l''.

(** * The sink *)

(** The history of the file starts here. *)
Definition forget (s : FileSink) : FileSink :=
  set_os (mkOsFile (present (os s)) (unsynced (os s)) [] (permitted (os s)) (fates (os s))) s.

(** A file has fewer bytes than its offsets can express. *)
Definition addressable (o : option text) : Prop := Z.of_nat (length (default [] o)) < offset_limit.

Section Machine.
Context (lib : StdioLib) `{FsOps}.

(** What a crash in the middle of a write may leave: a content that was possible
    at some moment of the call. *)
Definition crash_contents (batch : EventBatch) (s : FileSink) : list (option text) :=
  let s' := snd (write lib batch (forget s)) in after_power_loss (os s') ++ moments (os s').

Inductive sink_step : FileSink -> sink_call -> FileSink -> Prop :=
| StepWrite s batch r s' :
    Forall one_line batch -> addressable (present (os s)) ->
    write lib batch (forget s) = (r, s') -> sink_step s (CallWrite batch r) s'
| StepFlush s r s' : flush_now lib (forget s) = (r, s') -> sink_step s (CallFlush r) s'
| StepCancel s : sink_step s CallCancel (snd (request_cancel (forget s)))
| StepHook s h : sink_step s (CallHook h) (snd (set_fault_hook h (forget s)))
| StepDied s batch o path fs perm :
    Forall one_line batch -> addressable (present (os s)) ->
    o ∈ crash_contents batch s -> addressable o ->
    sink_step s (Died batch) (fst (new_file_sink path true (mkOsFile o [] [] perm fs) ∅)).

Inductive sink_run : FileSink -> list sink_call -> FileSink -> Prop :=
| sink_run_nil s : sink_run s [] s
| sink_run_cons s c s' cs s'' : sink_step s c s' -> sink_run s' cs s'' -> sink_run s (c :: cs) s''.

(** * Simulation *)

Definition lines_are (l : text) (o : option text) : Prop := whole_lines (default [] o) = l.

Definition some_lines (l : text) (batch : EventBatch) (o : option text) : Prop :=
  exists k, whole_lines (default [] o) = l ++ ndjson (take k batch).

(** The sink implements the log. *)
Definition Sim (s : FileSink) (l : Log) : Prop :=
  complete (fst l) /\
  match snd l with
  | None => Ready (lines_are (fst l)) true (fst l) (forget s)
  | Some batch => ok (failure_ s) = false /\ file_ s = None /\ Forall (some_lines (fst l) batch) (after_power_loss (os s))
  end.

Lemma lines_are_some l batch o : lines_are l o -> some_lines l batch o.
Proof using. intros Ho. exists 0%nat. by rewrite app_nil_r. Qed.

Lemma part_some l batch t :
  complete l -> Forall one_line batch -> t `prefix_of` ndjson batch -> some_lines l batch (Some (l ++ t)).
Proof using.
  intros Hl Hn Ht. destruct (whole_lines_cut batch t Hn Ht) as [k Hk]. exists k. simpl.
  by rewrite whole_lines_app, Hk.
Qed.

Lemma new_file_sink_fresh path f :
  let s := fst (new_file_sink path true f ∅) in
  ok (failure_ s) = true /\ file_ s = None /\ os s = f /\ durable_sync_ s = true.
Proof using.
  unfold new_file_sink, claim_path, acquire, release, mthen. simpl. destruct (is_in_memory path); simpl; [done|].
  rewrite bool_decide_false by set_solver. done.
Qed.

(** A durable sink that has settled on its lines. *)
Lemma clean_settles P l s :
  Clean P true l s -> complete l -> unsynced (os s) = [] -> Ready (lines_are l) true l (forget s).
Proof using.
  intros [[Hf Hd] (st & Hs & Hw & Hp & Hk)] Hl Hu. left. split; [done|]. exists st. simpl. rewrite Hu.
  split; [done|]. split; [done|]. split; [done|]. split; constructor.
Qed.

Lemma ready_forget l s : Ready (lines_are l) true l s -> Ready (lines_are l) true l (forget s).
Proof using.
  intros [[Hl (st & Hs & Hw & Hp & [Hu Hm])]|(o & (Hl & Hs & Hp & [Hu Hm]) & Ho)].
  - left. split; [done|]. exists st. split; [done|]. split; [done|]. split; [done|]. by split; [|constructor].
  - right. exists o. split; [|done]. split; [done|]. split; [done|]. split; [done|]. by split; [|constructor].
Qed.

Lemma ready_present l s : complete l -> Ready (lines_are l) true l s -> lines_are l (present (os s)).
Proof using. intros Hl [[_ (st & _ & _ & -> & _)]|(o & (_ & _ & -> & _) & Ho & _)]; [done|exact Ho]. Qed.

Lemma whole_lines_length c : (length (whole_lines c) <= length c)%nat.
Proof using. destruct (whole_lines_spec c) as (t & Ht & _). rewrite Ht at 2. rewrite length_app. lia. Qed.

Context (Hlib : Dependable lib).

(** [write_ok] for a durable sink and events of one line each. *)
Lemma ready_write l batch s :
  complete l -> Forall one_line batch -> addressable (present (os s)) ->
  Ready (lines_are l) true l (forget s) ->
  let '(r, s') := write lib batch (forget s) in
  (ok r = true /\ Sim s' (l ++ ndjson batch, None) \/
   ok r = false /\ (Sim s' (l, None) \/ Sim s' (l, Some batch))) /\
  Forall (some_lines l batch) (after_power_loss (os s') ++ moments (os s')).
Proof using Hlib.
  intros Hl Hn Ha Hr.
  assert (durable_sync_ (forget s) = true) as Hd by (by destruct Hr as [[[_ ?] _]|(o & [[_ ?] _] & _)]).
  assert (Z.of_nat (length l) < offset_limit) as Hlen.
  { pose proof (ready_present l (forget s) Hl Hr) as Hp. unfold lines_are in Hp. simpl in Hp. rewrite <- Hp.
    pose proof (whole_lines_length (default [] (present (os s)))). unfold addressable in Ha. lia. }
  pose proof (write_ok lib Hlib (lines_are l) (some_lines l batch) l batch (forget s) ltac:(done)
    (lines_are_some l batch) (fun t => part_some l batch t Hl Hn) Hlen ltac:(by rewrite Hd)) as Hw.
  rewrite Hd in Hw. destruct (write lib batch (forget s)) as [r s'].
  assert (forall c, Clean (some_lines l batch) true c s' -> some_lines l batch (Some c) ->
    Forall (some_lines l batch) (after_power_loss (os s') ++ moments (os s'))) as Hclean.
  { intros c [_ (st & _ & _ & Hp & [Hu Hm])] Hc. apply Forall_app. split; [constructor; [by rewrite Hp|done]|done]. }
  assert (forall o, present (os s') = o -> some_lines l batch o -> Kept (lines_are l) (os s') ->
    Forall (some_lines l batch) (after_power_loss (os s') ++ moments (os s'))) as Hkept.
  { intros o Hp Ho [Hu Hm]. apply Forall_app. split; [constructor; [by rewrite Hp|]|];
      (eapply Forall_impl; [done|apply lines_are_some]). }
  destruct Hw as [(Hr' & Hc & Hu)|(Hr' & [[Hc Hu]|[Hc|(Hf & u & Hu & [Hdead|[-> (o & (? & Hfile & Hp & Hk) & Ho)]])]])].
  - split; [left|]. 
    + split; [done|]. assert (complete (l ++ ndjson batch)) as Hcl by auto with playertrace.
      split; [done|]. eapply clean_settles; [done|done|by apply Hu].
    + apply (Hclean _ Hc). by apply part_some.
  - split; [right|].
    + split; [done|]. left. split; [done|]. by eapply clean_settles.
    + apply (Hclean _ Hc). by apply lines_are_some.
  - split; [right; split; [done|]; left; split; [done|]; by apply ready_forget|].
    pose proof (ready_present l s' Hl Hc) as Hp. apply (Hkept _ eq_refl); [by apply lines_are_some|].
    by destruct Hc as [[_ (st & _ & _ & _ & Hk)]|(o & (_ & _ & _ & Hk) & _)].
  - destruct Hdead as (Hfs & Hfile & Hp & [Hun Hm]).
    assert (some_lines l batch (present (os s'))) as Hpr by (rewrite Hp; by apply part_some).
    split; [right; split; [done|]; right; split; [done|]; split; [done|]; split; [done|]; by constructor|].
    apply Forall_app. by split; [constructor|].
  - pose proof (Hkept o Hp (lines_are_some l batch o Ho) Hk) as Hall. split; [|done].
    right. split; [done|]. right. split; [done|]. split; [done|]. split; [done|].
    by apply Forall_app in Hall as [? _].
Qed.

(** A new process on one of the contents. *)
Lemma restart_sim l batch o path fs perm :
  complete l -> some_lines l batch o -> addressable o ->
  exists k, Sim (fst (new_file_sink path true (mkOsFile o [] [] perm fs) ∅)) (l ++ ndjson (take k batch), None).
Proof using.
  intros Hl [k Hk] Ha. exists k. destruct (new_file_sink_fresh path (mkOsFile o [] [] perm fs)) as (H1 & H2 & H3 & H4).
  split; simpl; [auto with playertrace|]. right. exists o. split; [|done].
  split; [done|]. split; [done|]. unfold forget. simpl. rewrite H3. split; [done|]. split; constructor.
Qed.

Lemma step_sim s c s' l : sink_step s c s' -> Sim s l -> exists l', log_step l c l' /\ Sim s' l'.
Proof using Hlib.
  intros Hstep [Hl Hs]. destruct l as [l tail]. simpl in *. destruct Hstep as [s batch r s' Hn Ha Hw|s r s' Hw|s|s h|s batch o path fs perm Hn Ha Ho Hao].
  - destruct tail as [broken|].
    + destruct Hs as (Hf & Hfile & Hall). pose proof (failed_write lib batch (forget s) Hf) as Hfw. rewrite Hw in Hfw.
      destruct Hfw as [Hr ->]. exists (l, Some broken). split; [by constructor|]. by split.
    + pose proof (ready_write l batch s Hl Hn Ha Hs) as Hrw. rewrite Hw in Hrw.
      destruct Hrw as [[[Hr HS]|[Hr [HS|HS]]] _]; eexists; (split; [|exact HS]); by constructor.
  - destruct tail as [broken|].
    + destruct Hs as (Hf & Hfile & Hall). rewrite (failed_flush lib (forget s) Hf) in Hw. injection Hw as <- <-.
      exists (l, Some broken). split; [constructor|]. by split.
    + exists (l, None). split; [constructor|]. split; [done|]. simpl. apply ready_forget.
      pose proof (flush_now_ok lib (lines_are l) true l (forget s) Hs) as Hfl. by rewrite Hw in Hfl.
  - exists (l, tail). split; [constructor|]. by split; [|destruct tail].
  - exists (l, tail). split; [constructor|]. by split; [|destruct tail].
  - unfold crash_contents in Ho. destruct tail as [broken|].
    + destruct Hs as (Hf & Hfile & Hall). pose proof (failed_write lib batch (forget s) Hf) as Hfw.
      destruct (write lib batch (forget s)) as [r s1]. destruct Hfw as [_ ->]. simpl in Ho. rewrite app_nil_r in Ho.
      rewrite Forall_forall in Hall. destruct (restart_sim l broken o path fs perm Hl (Hall o Ho) Hao) as [k Hk].
      eexists. split; [constructor|exact Hk].
    + pose proof (ready_write l batch s Hl Hn Ha Hs) as Hrw. destruct (write lib batch (forget s)) as [r s1].
      destruct Hrw as [_ Hall]. rewrite Forall_forall in Hall.
      destruct (restart_sim l batch o path fs perm Hl (Hall o Ho) Hao) as [k Hk].
      eexists. split; [constructor|exact Hk].
Qed.

Lemma run_sim s cs s' l : sink_run s cs s' -> Sim s l -> exists l', log_run l cs l' /\ Sim s' l'.
Proof using Hlib.
  intros Hr. revert l. induction Hr as [s|s c s1 cs s2 Hstep _ IH]; intros l Hs; [exists l; by split; [constructor|]|].
  destruct (step_sim _ _ _ _ Hstep Hs) as (l1 & H1 & HS1). destruct (IH l1 HS1) as (l2 & H2 & HS2).
  exists l2. split; [by econstructor|done].
Qed.

End Machine.

(** * Properties *)

Section Properties.
Context (lib : StdioLib) `{FsOps} (Hlib : Dependable lib).

Lemma idle_ready (P0 : option text -> Prop) s :
  ok (failure_ s) = true -> sink_idle s -> Kept P0 (os s) -> Ready P0 (durable_sync_ s) (file_lines s) s.
Proof using.
  intros Hf Hi Hk. unfold sink_idle, file_lines, os_bytes in *. destruct (file_ s) as [st|] eqn:Hs.
  - destruct Hi as (Hw & Hc & [c Hp]). left. rewrite Hp in *. simpl in *. rewrite Hc. split; [done|]. by exists st.
  - right. exists (present (os s)). by repeat split; try apply Hk.
Qed.

Lemma clean_idle P d c s : Clean P d c s -> complete c ->
  sink_idle s /\ ok (failure_ s) = true /\ os_bytes (os s) = c /\ file_lines s = c.
Proof using.
  intros [[Hf _] (st & Hs & Hw & Hp & _)] Hc. unfold sink_idle, file_lines, os_bytes. rewrite Hs, Hp. simpl.
  repeat split; try done.
Qed.

Lemma ready_idle P d c s : Ready P d c s -> complete c -> sink_idle s /\ ok (failure_ s) = true /\ file_lines s = c.
Proof using.
  intros [Hc|(o & ([Hf _] & Hs & Hp & _) & Ho & Hl)] Hcc; [destruct (clean_idle P d c s Hc Hcc) as (? & ? & _ & ?); done|].
  unfold sink_idle, file_lines, os_bytes. rewrite Hs, Hp. done.
Qed.


(** No call to come breaks. *)
Definition steady (s : FileSink) : Prop := Forall (fun x => exists m, x = Works m) (fates (os s)).

Section Scan.
Context (d : bool).
#[local] Abbreviation Cleanly := (Clean (fun _ => True) d).

Lemma steady_next f : Forall (fun x => exists m, x = Works m) (fates f) ->
  exists m f', next_fate f = (Works m, f') /\ Forall (fun x => exists m, x = Works m) (fates f') /\ present f' = present f.
Proof using.
  unfold next_fate. destruct (fates f) as [|x l] eqn:E; intros Hf; [exists 0%nat, f; by rewrite E|].
  apply Forall_cons in Hf as [[m ->] Hl]. by exists m, (mkOsFile (present f) (unsynced f) (moments f) (permitted f) l).
Qed.

Lemma steady_seek c off : 0 <= off ->
  hoare (fun s => Cleanly c s /\ steady s) (seek_offset lib off SEEK_SET) (fun moved s => moved = true /\ steady s).
Proof using.
  intros Ho s [[_ (st & Hs & Hw & _)] Hf]. unfold seek_offset, with_file. rewrite Hs.
  unfold fseeko, drain, mthen. destruct (steady_next (os s) Hf) as (m & f & -> & Hf' & _).
  unfold hand_over. rewrite Hw. simpl. destruct (Z.ltb_spec off 0); [lia|]. done.
Qed.

Lemma steady_read c off want : (off + want <= length c)%nat ->
  hoare (fun s => (Cleanly c s /\ exists st, file_ s = Some st /\ offset st = off) /\ steady s) (with_file [] (fread want))
    (fun buffer s => length buffer = want /\ steady s).
Proof using.
  intros Hle s [[[_ (st0 & Hs0 & _ & Hp & _)] (st & Hs & Ho)] Hf]. unfold with_file. rewrite Hs. unfold fread, mthen.
  destruct (steady_next (os s) Hf) as (m & f & -> & Hf' & Hp'). unfold mget, mreturn, os_bytes. simpl. rewrite Hp', Hp, Ho.
  simpl. split; [|done]. rewrite length_take, length_drop. lia.
Qed.

Lemma steady_scan c fuel pos :
  0 <= pos <= Z.of_nat (length c) -> Z.of_nat (length c) < offset_limit ->
  hoare (fun s => Cleanly c s /\ steady s) (scan_blocks lib fuel pos) (fun r s => r <> Some None).
Proof using Hlib.
  intros Hpos Hmax. revert pos Hpos. induction fuel as [|fuel IH]; intros pos Hpos; simpl;
    destruct (Z.ltb_spec 0 pos) as [Hp|Hp]; simpl; try by apply hoare_return.
  set (chunk := if pos <? kBlock then pos else kBlock).
  assert (0 < chunk <= pos) as Hc by (subst chunk; unfold kBlock; destruct (Z.ltb_spec pos 65536); lia).
  rewrite (to_int64_small (pos - chunk)) by lia.
  eapply hoare_then.
  { eapply hoare_pre; [apply (hoare_conj (Cleanly c) (fun s => Cleanly c s /\ steady s)); [apply clean_seek_set|by apply (steady_seek c); lia]|].
    intros s [? ?]. by split; [|split]. }
  intros moved. cbv beta. apply hoare_pre with (P' := fun s => (Cleanly c s /\ (exists st, file_ s = Some st /\ offset st = Z.to_nat (pos - chunk)) /\ steady s) /\ moved = true).
  2:{ intros s [[Hcl Ho] [-> Hst]]. split; [|done]. split; [done|]. split; [by apply Ho|done]. }
  apply hoare_fact. intros ->. simpl. eapply hoare_then.
  { eapply hoare_pre; [apply hoare_conj; [apply (clean_read (fun _ => True) d c (Z.to_nat (pos - chunk)))|apply (steady_read c (Z.to_nat (pos - chunk))); lia]|].
    intros s (Hcl & Ho & Hst). by split; [|split]. }
  intros buffer. cbv beta. apply hoare_pre with (P' := fun s => (Cleanly c s /\ steady s) /\ length buffer = Z.to_nat chunk).
  2:{ intros s [[Hcl _] [Hl Hst]]. by split. }
  apply hoare_fact. intros Hl. rewrite bool_decide_true by done. simpl.
  destruct (newline_before buffer (length buffer)); [by apply hoare_return|]. apply IH. lia.
Qed.

Lemma find_last_steady c :
  Z.of_nat (length c) < offset_limit ->
  hoare (fun s => Cleanly c s /\ steady s) (find_last_complete_line_end lib (Z.of_nat (length c))) (fun r _ => r <> None).
Proof using Hlib.
  intros Hlen. unfold find_last_complete_line_end. eapply hoare_then.
  { eapply hoare_pre; [apply (hoare_conj (Cleanly c) (fun s => Cleanly c s /\ steady s))|].
    - apply scan_blocks_ok; [done|done|lia|by apply scan_fuel|rewrite Nat2Z.id, drop_all; apply not_elem_of_nil].
    - apply steady_scan; [lia|done].
    - intros s [? ?]. by split. }
  intros r. apply hoare_return. intros s [[_ (x & -> & _)] Hn]. simpl. congruence.
Qed.

End Scan.

(** The search for the last complete line is exact for every file that
    64-bit offsets can address. The backward scan in blocks of 64 KiB ends, does
    not change the file, and never leaves the range of the offsets; when it
    answers, the answer is the end of the last complete line; and it answers
    unless a call fails. *)
Theorem tail_scan_exact c s st :
  ok (failure_ s) = true -> file_ s = Some st -> unwritten st = [] -> present (os s) = Some c ->
  Z.of_nat (length c) < 9223372036854775808 ->
  let '(r, s') := find_last_complete_line_end lib (Z.of_nat (length c)) s in
  present (os s') = Some c /\
  (forall g, r = Some g -> g = Z.of_nat (length (whole_lines c)) /\ 0 <= g <= Z.of_nat (length c)) /\
  (steady s -> r <> None).
Proof using Hlib.
  intros Hf Hs Hw Hp Hlen.
  assert (Clean (fun _ => True) (durable_sync_ s) c s) as Hc
    by (split; [done|]; exists st; repeat split; try done; by apply Forall_true).
  pose proof (find_last_ok lib Hlib (fun _ => True) (durable_sync_ s) c Hlen s Hc) as Hok.
  pose proof (find_last_steady (durable_sync_ s) c Hlen s) as Hst.
  destruct (find_last_complete_line_end lib (Z.of_nat (length c)) s) as [r s']. simpl in *.
  destruct Hok as [[_ (st' & _ & _ & Hp' & _)] Hg]. split; [done|]. split; [|by auto].
  intros g Hr. rewrite (Hg g Hr). pose proof (whole_lines_length c). lia.
Qed.

(** The lines the file shows when the sink implements a log. *)
Definition shows (s : FileSink) (l : Log) : Prop :=
  match snd l with
  | None => file_lines s = fst l
  | Some batch => exists k, file_lines s = fst l ++ ndjson (take k batch)
  end.

Lemma sim_shows s l : Sim s l -> shows s l.
Proof using.
  intros [Hc Hs]. destruct l as [l [b|]]; unfold shows; simpl in *.
  - destruct Hs as (_ & _ & Hall). by apply Forall_cons in Hall as [? _].
  - apply (ready_present l (forget s) Hc Hs).
Qed.

Lemma start_sim path o perm fs :
  addressable o -> Sim (fst (new_file_sink path true (mkOsFile o [] [] perm fs) ∅)) (whole_lines (default [] o), None).
Proof using.
  intros Ha. destruct (restart_sim (whole_lines (default [] o)) [] o path fs perm) as [k Hk];
    [apply whole_lines_complete|by apply lines_are_some|done|]. by rewrite take_nil, app_nil_r in Hk.
Qed.


(** What one call adds to the log. *)
Definition adds (c : sink_call) (t : text) : Prop :=
  match c with
  | CallWrite batch r => t = if ok r then ndjson batch else []
  | Died _ => exists b k, t = ndjson (take k b)
  | _ => t = []
  end.

Lemma log_run_adds l cs l' :
  log_run l cs l' -> exists pieces, Forall2 adds cs pieces /\ fst l' = fst l ++ concat pieces.
Proof using.
  induction 1 as [l|l c l1 cs l2 Hs _ (pieces & Hp & He)]; [exists []; split; [constructor|by rewrite app_nil_r]|].
  assert (exists t, adds c t /\ fst l1 = fst l ++ t) as (t & Ht & Hl1).
  { destruct Hs as [l b r Hr|l t b r Hr|l b r Hr|l t r|l t|l t h|l b k|l b b' k]; simpl;
      rewrite ?Hr; eauto; exists []; by rewrite app_nil_r. }
  exists (t :: pieces). split; [by constructor|]. simpl. by rewrite He, Hl1, app_assoc.
Qed.



End Properties.

(** * Witnesses *)

Definition plain_lib : StdioLib := mkStdioLib false false.

Lemma plain_dependable : Dependable plain_lib.
Proof. done. Qed.

(** A file whose last line was cut off by a crash. *)
Definition torn_file (fs : list fate) : OsFile :=
  mkOsFile (Some (chars "old" ++ [newline] ++ chars "to")) [] [] true fs.
Definition torn_sink (fs : list fate) : FileSink := fst (@new_file_sink flat_fs "out" true (torn_file fs) ∅).
Definition sample_batch : EventBatch := [mkSerialized "1" "ab"; mkSerialized "2" "c"].

(** The fates of a write whose last sync fails: everything before it works. *)
Definition sync_breaks : list fate := replicate 19 (Works 1) ++ [Breaks 0 0].


(** The same write with a sync that fails: the lines are as before. *)
Lemma failed_sync_rolls_back :
  let '(r, s') := write plain_lib sample_batch (torn_sink sync_breaks) in
  ok r = false /\ ok (failure_ s') = true /\ os_bytes (os s') = chars "old" ++ [newline].
Proof. vm_compute. done. Qed.

(** A batch is acknowledged, the next one is cut off by a crash, and a new process
    goes on. *)
Definition sample_calls : list sink_call := [CallWrite sample_batch status_ok; Died sample_batch].

(** What the crash left: one more whole line and a fragment. *)
Definition crash_left : option text :=
  Some (chars "old" ++ [newline] ++ ndjson sample_batch ++ chars "ab" ++ [newline] ++ chars "c").

Definition sample_end : FileSink := fst (@new_file_sink flat_fs "out" true (mkOsFile crash_left [] [] true []) ∅).

Lemma sample_lines : Forall one_line sample_batch.
Proof. repeat apply Forall_cons_2; [..|apply Forall_nil_2]; unfold one_line; apply (bool_decide_unpack _); exact I. Qed.

Lemma sample_run : @sink_run plain_lib flat_fs (torn_sink []) sample_calls sample_end.
Proof.
  eapply sink_run_cons.
  { eapply StepWrite; [apply sample_lines|done|]. rewrite (surjective_pairing (write _ _ _)). f_equal. }
  eapply sink_run_cons; [|apply sink_run_nil].
  eapply StepDied; [apply sample_lines|vm_compute; done| |vm_compute; done].
  apply (bool_decide_unpack _). vm_compute. exact I.
Qed.



(** A second sink on the path of the first. *)
Definition second_sink : FileSink := fst (@new_file_sink flat_fs "out" true (torn_file []) {["out"]}).


(** The torn sink after its file was opened. *)
Lemma tail_scan_exact_witness :
  let s := set_file_ (Some (mkStream 0 [] false)) (torn_sink []) in
  let '(r, _) := find_last_complete_line_end plain_lib 6 s in r <> None.
Proof.
  intros s.
  pose proof (tail_scan_exact plain_lib plain_dependable (chars "old" ++ [newline] ++ chars "to") s (mkStream 0 [] false)
    eq_refl eq_refl eq_refl eq_refl eq_refl) as Hs.
  change (Z.of_nat (length (chars "old" ++ [newline] ++ chars "to"))) with 6 in Hs.
  destruct (find_last_complete_line_end plain_lib 6 s) as [r s']. apply Hs. constructor.
Defined.
