(* ===== verification/Client.v ===== *)
(** The client: Client::Impl, Client and ClientInternal (src/client.cpp).

    The public calls compose the sections of Admission.v. Waiting for the
    worker is an argument: the computation the other threads perform until the
    wait ends, by success or by timeout, so a theorem that quantifies over it
    covers every length of the wait. The public shells turn an exception into
    a status. *)
From S2P Require Import Prelude Types Serializer Validator Queue Ids Session SqlText Sqlite Store StoreSpec StoreIface Paths Pipeline Admission Worker.

Local Open Scope Z_scope.
Local Open Scope pt_scope.

(** * Configuration *)

(** [kMaxConfigCount]. *)
Definition kMaxConfigCount : Z := 100000000.

(** The characters of an application identifier. *)
Definition app_id_char (c : Ascii.ascii) : bool :=
  let v := byte_val c in
  ((65 <=? v) && (v <=? 90)) || ((97 <=? v) && (v <=? 122)) || ((48 <=? v) && (v <=? 57)) ||
  (v =? 46) || (v =? 45) || (v =? 95).

Definition invalid_config (msg : string) : Status := mkStatus InvalidConfig msg.

(** [validate_config]. *)
Definition validate_config (c : Config) : Status :=
  if bool_decide (cfg_app_id c = "") then invalid_config "app_id must not be empty"
  else if 64 <? ssize (cfg_app_id c) then invalid_config "app_id exceeds 64 characters"
  else if negb (forallb app_id_char (chars (cfg_app_id c)))
  then invalid_config "app_id contains an invalid character"
  else if bool_decide (cfg_storage_path c = "") then invalid_config "storage_path must not be empty"
  else if cfg_batch_size c =? 0 then invalid_config "batch_size must be >= 1"
  else if cfg_max_queue_size c =? 0 then invalid_config "max_queue_size must be >= 1"
  else if cfg_max_pending_events c =? 0 then invalid_config "max_pending_events must be >= 1"
  else if cfg_max_name_length c =? 0 then invalid_config "max_name_length must be >= 1"
  else if cfg_max_string_length c =? 0 then invalid_config "max_string_length must be >= 1"
  else if cfg_max_player_id_length c =? 0 then invalid_config "max_player_id_length must be >= 1"
  else if cfg_batch_interval c <=? 0 then invalid_config "batch_interval must be greater than zero"
  else if existsb (fun value => kMaxConfigCount <? value)
            [cfg_max_queue_size c; cfg_batch_size c; cfg_max_pending_events c; cfg_max_properties c;
             cfg_max_name_length c; cfg_max_string_length c; cfg_max_player_id_length c]
  then invalid_config ("a configuration limit exceeds the supported maximum of " +:+
                       to_string kMaxConfigCount)
  else if cfg_max_queue_size c <? cfg_batch_size c
  then invalid_config "batch_size must not exceed max_queue_size"
  else status_ok.

(** What an entry point of [Client] does with an exception. *)
Definition contain (call : string) (r : library_call Status) : Status :=
  match r with
  | Value st => st
  | StdException what => mkStatus Internal (call +:+ " failed: " +:+ what)
  | OtherException => mkStatus Internal (call +:+ " failed")
  end.

(** The shell of [Client::wait_for_worker_exit]. *)
Definition contain_bool (r : library_call bool) : bool :=
  match r with
  | Value b => b
  | StdException _ | OtherException => false
  end.

(** The shell of [Client::consent]. *)
Definition contain_consent (r : library_call ConsentState) : ConsentState :=
  match r with
  | Value c => c
  | StdException _ | OtherException => Unknown
  end.

(** The catch clauses of [ClientInternal::create]. *)
Definition contain_create {A} (r : library_call (Status + A)) : Status + A :=
  match r with
  | Value x => x
  | StdException what => inl (mkStatus Internal ("client creation failed: " +:+ what))
  | OtherException => inl (mkStatus Internal "client creation failed unexpectedly")
  end.

Section Client.
Context {S K : Type} `{!StoreOps S} `{!SinkOps K}.
#[local] Abbreviation Sy := (Sys S K).

(** * Public operations *)

(** The loop of [Client::Impl::apply_filter]. *)
Fixpoint filter_properties (keep : PropertyFilter) (props : Properties) : Properties :=
  match props with
  | [] => []
  | (k, v) :: props' =>
      match keep k v with
      | Returns true => (k, v) :: filter_properties keep props'
      | Returns false => filter_properties keep props'
      | Throws => filter_properties keep props'
      end
  end.

(** [Client::Impl::apply_filter]. *)
Definition apply_filter (f : option PropertyFilter) (props : Properties) : Properties :=
  match f with
  | None => props
  | Some keep => filter_properties keep props
  end.

(** [Client::Impl::start_session]. *)
Definition start_session (player_id : string) : M Sy Status :=
  let* v := mget (fun s => validator_ (impl s)) in
  let id_status := validate_player_id v player_id in
  if negb (ok id_status) then mreturn id_status
  else start_session_locked player_id.

(** [Client::Impl::end_session]. *)
Definition end_session : M Sy Status := end_session_section.

(** [Client::Impl::track]: validation and the filter run outside the lock, so
    other threads may run before the section. *)
Definition track (name : string) (props : Properties) : M Sy Status :=
  let* entry_generation := mget (fun s => consent_generation (pipe s)) in
  let* v := mget (fun s => validator_ (impl s)) in
  let name_status := validate_name v name in
  if negb (ok name_status) then mreturn name_status
  else
  let prop_status := validate_properties v props in
  if negb (ok prop_status) then mreturn prop_status
  else
  let* f := mget (fun s => cfg_property_filter (config (pipe s))) in
  env ;;
  track_section entry_generation name (apply_filter f props).

(** [Client::track(const EventBuilder&)]. *)
Definition track_builder (b : EventBuilder) : M Sy Status :=
  track (builder_name b) (builder_properties b).

(** [Client::Impl::flush]. *)
Definition flush (on_worker_thread : bool) (wait : M Sy unit) : M Sy Status :=
  if on_worker_thread
  then mreturn (mkStatus Internal
         ("flush() must not be called from a PlayerTrace callback or " +:+
          "sink running on the worker thread"))
  else
  let* r := flush_section in
  match r with
  | inl refused => mreturn refused
  | inr token =>
      wait ;;
      let* outcome := wait_flush token in
      match outcome with
      | None => mreturn (mkStatus Timeout "flush did not complete in time")
      | Some st => mreturn st
      end
  end.

Definition set_life (l : LifecycleState) : M Sy unit := mput (on_impl (set_lifecycle_ l)).

(** The final judgement of [Client::Impl::shutdown] on the drain. *)
Definition shutdown_verdict (terminal persist : Status) : Status :=
  if negb (ok terminal) then terminal
  else if negb (ok persist) && negb (bool_decide (code persist = SinkError)) &&
          negb (bool_decide (code persist = AlreadyShutdown))
  then persist
  else status_ok.

(** [Client::Impl::shutdown]. [drain_wait] and [exit_wait] are what the other
    threads do during the two waits. *)
Definition shutdown (on_worker_thread : bool) (drain_wait exit_wait : M Sy unit) : M Sy Status :=
  if on_worker_thread then
    mput (on_impl (fun i => if bool_decide (lifecycle_ i = Running) then set_lifecycle_ Stopping i else i)) ;;
    request_stop ;;
    mreturn (mkStatus Internal
      ("shutdown() was called from a PlayerTrace callback or sink " +:+
       "running on the worker thread; admission is now closed and " +:+
       "the worker was asked to stop, but this call cannot wait " +:+
       "for itself. Call shutdown() again from another thread."))
  else
  let* life := mget (fun s => lifecycle_ (impl s)) in
  if bool_decide (life = Stopped) then mreturn status_ok
  else
  set_life Stopping ;;
  request_sink_cancel ;;
  let* barrier := mget (fun s => ordinal_ (impl s)) in
  let* token := submit_flush barrier in
  drain_wait ;;
  let* drained := wait_flush token in
  let persist := match drained with Some st => st | None => status_ok end in
  request_stop ;;
  exit_wait ;;
  let* stopped := wait_and_join in
  if negb stopped then
    mreturn (mkStatus Timeout
      ("shutdown timed out: the worker is still inside a sink or " +:+
       "callback and is still owned by this Client. It was NOT " +:+
       "abandoned. Call shutdown() or wait_for_worker_exit() " +:+
       "again; undelivered events remain in durable storage."))
  else
  set_life Stopped ;;
  let* terminal := mget (fun s => terminal_status_ (core s)) in
  mreturn (shutdown_verdict terminal persist).

(** [Client::Impl::wait_for_worker_exit]. *)
Definition wait_for_worker_exit (on_worker_thread : bool) (wait : M Sy unit) : M Sy bool :=
  if on_worker_thread then mreturn false
  else
  wait ;;
  let* stopped := wait_and_join in
  if negb stopped then mreturn false
  else
  mput (on_impl (fun i => if bool_decide (lifecycle_ i = Running) then i else set_lifecycle_ Stopped i)) ;;
  mreturn true.

(** [Worker::join_blocking]. *)
Definition join_blocking : M Sy unit := mput (on_core (set_joined_ true)).

(** [Client::Impl::~Impl]: [final_wait] is what happens until the thread ends. *)
Definition destroy (drain_wait exit_wait final_wait : M Sy unit) : M Sy unit :=
  let* _ := shutdown false drain_wait exit_wait in
  request_stop ;;
  request_sink_cancel ;;
  final_wait ;;
  join_blocking.

(** [Client::Impl::submit_flush_token]. *)
Definition submit_flush_token : M Sy Z :=
  let* barrier := mget (fun s => ordinal_ (impl s)) in submit_flush barrier.

(** [Client::Impl::wait_flush_token]. *)
Definition wait_flush_token (token : Z) : M Sy (option Status) := wait_flush token.

(** [Client::Impl::worker_finished]. *)
Definition worker_finished (s : Sy) : bool := finished_ (core s).

(** [Client::Impl::consent]. *)
Definition client_consent (s : Sy) : ConsentState := consent (pipe s).

(** [Client::Impl::set_consent]. *)
Definition set_consent (state : ConsentState) : M Sy Status := set_consent_locked state.

(** [Client::Impl::snapshot_stats]: the counters and [outstanding]. *)
Definition snapshot_stats (s : Sy) : Stats * Z := (stats (pipe s), outstanding (pipe s)).

(** [ClientInternal::pending_in_store]. *)
Definition pending_in_store : M Sy Z :=
  let* (st, n) := with_store store_count in
  if negb (ok st) then mreturn 0 else mreturn n.

(** * Creation *)

(** The system right after [Client::Impl::Impl]: the worker thread has been
    started and the journal mode is checked. *)
Definition new_sys (cfg : Config) (snk : K) (st : S) (rng : mt19937_64) (clock : list Z)
    (recovered highest : Z) : Sy :=
  mkSys (set_outstanding recovered (new_pipeline cfg snk st)) new_core
    (mkImpl new_session_manager rng
       (mkValidator (cfg_max_name_length cfg) (cfg_max_properties cfg) (cfg_max_string_length cfg)
          (cfg_max_player_id_length cfg))
       (cfg_max_pending_events cfg) Running highest false clock CIdle)
    [] [] [] 0.

(** [Client::Impl::Impl]. *)
Definition new_impl (cfg : Config) (snk : K) (st : S) (rng : mt19937_64) (clock : list Z)
    (recovered highest : Z) : Sy :=
  let s := new_sys cfg snk st rng clock recovered highest in
  let mode := store_journal_mode st in
  if negb (bool_decide (mode = "")) && negb (bool_decide (mode = "wal")) &&
     negb (bool_decide (mode = "memory"))
  then snd (log Warn ("SQLite journal mode is '" +:+ mode +:+
              "'; WAL was requested. Durability may be weaker than " +:+
              "documented on this filesystem.") s)
  else s.

(** The store part of [ClientInternal::create]: open, resolve an owed purge,
    recover. The refusal, or the number of recovered events and the highest
    ordinal. *)
Definition recover (initial_consent : ConsentState) : M S (Status + Z * Z) :=
  let* open_status := store_open in
  if negb (ok open_status) then mreturn (inl open_status)
  else
  let* (owed_status, owed) := store_revocation_pending in
  if negb (ok owed_status) then mreturn (inl owed_status)
  else
  let* purge := (if owed || negb (bool_decide (initial_consent = Granted))
                 then let* (p, _) := store_purge_and_clear_revocation in mreturn p
                 else mreturn status_ok) in
  if negb (ok purge)
  then mreturn (inl (mkStatus StorageError
         ("recovered events could not be purged before opening " +:+
          "without granted consent: " +:+ message purge)))
  else
  let* (count_status, recovered) := store_count in
  if negb (ok count_status) then mreturn (inl count_status)
  else
  let* (ordinal_status, highest) := store_max_ordinal in
  if negb (ok ordinal_status) then mreturn (inl ordinal_status)
  else mreturn (inr (recovered, highest)).

(** The body of [ClientInternal::create]. The registry of paths is the state; the default
    FileSink that is made when the configuration has no sink is an argument,
    with the status its construction left. *)
Definition create `{FsOps} (cfg : Config) (has_clock : bool) (snk file_sink : K)
    (file_sink_failed : Status) (st : S) (rng : mt19937_64) (clock : list Z)
    : M (gset string) (Status + Sy) :=
  let config_status := validate_config cfg in
  if negb (ok config_status) then mreturn (inl config_status)
  else if negb has_clock then mreturn (inl (invalid_config "clock must not be null"))
  else
  let* (refused, claim) := acquire no_claim (cfg_storage_path cfg) Storage in
  match refused with
  | Some msg => mreturn (inl (invalid_config msg))
  | None =>
      if negb (cfg_sink cfg) && negb (ok file_sink_failed)
      then let* _ := release claim in mreturn (inl file_sink_failed)
      else
      let '(r, st') := recover (cfg_consent cfg) st in
      match r with
      | inl e => let* _ := release claim in mreturn (inl e)
      | inr (recovered, highest) =>
          let cfg' := mkConfig (cfg_app_id cfg) (cfg_storage_path cfg) (cfg_consent cfg) true
            (cfg_max_queue_size cfg) (cfg_batch_size cfg) (cfg_batch_interval cfg)
            (cfg_max_pending_events cfg) (cfg_max_name_length cfg) (cfg_max_properties cfg)
            (cfg_max_string_length cfg) (cfg_max_player_id_length cfg) (cfg_log_callback cfg)
            (cfg_error_callback cfg) (cfg_property_filter cfg) in
          mreturn (inr (new_impl cfg' (if cfg_sink cfg then snk else file_sink) st' rng clock
                          recovered highest))
      end
  end.

End Client.
