(* ===== verification/AdmissionSpec.v ===== *)
(** What the critical sections of the client do to the shared state.

    The part of the system the guarantees are about is its [Shape]. Every
    section of Admission.v is shown to perform a few [client_move]s on the
    shape: the abstract specification of the other threads. Invariant.v
    states the invariant of the whole system over these moves; every move
    preserves it, so it holds at every interleaving point of the worker
    whatever the schedule is. *)
From S2P Require Import Prelude Types Serializer Validator Queue Ids Session SqlText Sqlite Store StoreSpec StoreIface Pipeline Admission.

Local Open Scope Z_scope.
Local Open Scope pt_scope.

(** Every generated identifier is a key the schema accepts. *)
Lemma uuid4_valid_key rng : valid_key (fst (uuid4 rng)).
Proof.
  unfold uuid4. destruct (mt_next rng) as [hi rng1]. destruct (mt_next rng1) as [lo rng2]. simpl.
  destruct (uuid_text_shape hi lo) as (Hhy & Hf & _). split.
  - intros E. rewrite E in Hhy. discriminate.
  - intros Hz. rewrite Forall_forall in Hf. destruct (Hf _ Hz) as [Hd|[v Hd]]; discriminate.
Qed.

Section Spec.
Context {S K : Type} `{!StoreOps S} `{!StoreLaws S} `{!SinkOps K}.
#[local] Abbreviation Sy := (Sys S K).

(** * The shape of the system *)

Record Shape : Type := mkShape {
  v_store : S;
  v_queue : list QueuedEvent;
  v_retry : list QueuedEvent;
  v_consent : ConsentState;
  v_gen : Z;
  v_ord : Z;
  v_owed : bool;               (* a purge is owed *)
  v_pc : ConsentPc;
  v_barrier : Z;
  v_admitted : list QueuedEvent;
  v_written : list (EventBatch * Status);
  v_seq : Z;                                (* the last flush token *)
  v_passes : Z * list (Z * Status);         (* the last token answered, and the answers *)
  v_batch : Z;                              (* Config::batch_size *)
  v_late : Z                                (* batches given to the sink without consent *)
}.

(** The consent generation, counting a revocation that has stored the new consent
    and has not bumped the generation yet. *)
Definition generation_of (s : Sy) : Z :=
  match consent_pc (impl s) with
  | CBump => consent_generation (pipe s) + 1
  | _ => consent_generation (pipe s)
  end.

(** A purge is owed, or a revocation is about to owe one. *)
Definition owed_of (s : Sy) : bool :=
  match consent_pc (impl s) with
  | CBump | CClear | CRelease _ | CDiscard => true
  | _ => purge_required_ (impl s)
  end.

Definition shape (s : Sy) : Shape :=
  mkShape (store (pipe s)) (queue_ (queue (pipe s))) (retry_ (core s)) (consent (pipe s))
    (generation_of s) (ordinal_ (impl s)) (owed_of s)
    (consent_pc (impl s)) (flush_barrier_ (core s)) (admitted s) (written s) (flush_seq_ (core s))
    (flush_done_ (core s), pass_results_ (core s)) (cfg_batch_size (config (pipe s))) (late s).

(** A computation that leaves the shape and the schedule alone. *)
Definition frame {A} (m : M Sy A) : Prop :=
  forall s, shape (snd (m s)) = shape s /\ schedule (snd (m s)) = schedule s.

(** * The moves of the other threads *)

Inductive client_move : Shape -> Shape -> Prop :=
| mv_push v qe :
    v_consent v = Granted -> qe_consent_generation qe = v_gen v ->
    qe_ordinal qe = wrap64 (v_ord v + 1) -> valid_key (event_id (qe_event qe)) ->
    client_move v
      (mkShape (v_store v) (v_queue v ++ [qe]) (v_retry v) (v_consent v) (v_gen v)
         (qe_ordinal qe) (v_owed v) (v_pc v) (v_barrier v) (v_admitted v ++ [qe]) (v_written v) (v_seq v) (v_passes v) (v_batch v) (v_late v))
| mv_revoke v c :
    v_pc v = CIdle -> c <> Granted ->
    client_move v
      (mkShape (v_store v) (v_queue v) (v_retry v) c (v_gen v + 1) (v_ord v) true CBump
         (v_barrier v) (v_admitted v) (v_written v) (v_seq v) (v_passes v) (v_batch v) (v_late v))
| mv_bump v :
    v_pc v = CBump ->
    client_move v
      (mkShape (v_store v) (v_queue v) (v_retry v) (v_consent v) (wrap64 (v_gen v)) (v_ord v) (v_owed v) CClear
         (v_barrier v) (v_admitted v) (v_written v) (v_seq v) (v_passes v) (v_batch v) (v_late v))
| mv_go v pc' :
    admission_held (v_pc v) = true -> (admission_held pc' = true \/ pc' = CMark false) ->
    client_move v
      (mkShape (v_store v) (v_queue v) (v_retry v) (v_consent v) (v_gen v) (v_ord v) (v_owed v) pc'
         (v_barrier v) (v_admitted v) (v_written v) (v_seq v) (v_passes v) (v_batch v) (v_late v))
| mv_clear v n :
    v_pc v = CClear ->
    client_move v
      (mkShape (v_store v) [] (v_retry v) (v_consent v) (v_gen v) (v_ord v) (v_owed v) (CRelease n)
         (v_barrier v) (v_admitted v) (v_written v) (v_seq v) (v_passes v) (v_batch v) (v_late v))
| mv_discard v n :
    v_pc v = CDiscard ->
    client_move v
      (mkShape (v_store v) (v_queue v) [] (v_consent v) (v_gen v) (v_ord v) (v_owed v) (CReturn n)
         (v_barrier v) (v_admitted v) (v_written v) (v_seq v) (v_passes v) (v_batch v) (v_late v))
| mv_ask v :
    v_pc v = CIdle ->
    client_move v
      (mkShape (v_store v) (v_queue v) (v_retry v) (v_consent v) (v_gen v) (v_ord v) (v_owed v)
         (if v_owed v then CMark true else CGrant) (v_barrier v) (v_admitted v) (v_written v) (v_seq v) (v_passes v) (v_batch v) (v_late v))
| mv_mark v g st' pc' :
    v_pc v = CMark g -> sound st' -> rows st' = rows (v_store v) -> (pc' = CPurge g \/ pc' = CIdle) ->
    client_move v
      (mkShape st' (v_queue v) (v_retry v) (v_consent v) (v_gen v) (v_ord v) (v_owed v) pc'
         (v_barrier v) (v_admitted v) (v_written v) (v_seq v) (v_passes v) (v_batch v) (v_late v))
| mv_purge v g st' pc' :
    v_pc v = CPurge g -> sound st' ->
    (pc' = CDone g /\ rows st' = [] \/ pc' = CIdle /\ rows st' = rows (v_store v)) ->
    client_move v
      (mkShape st' (v_queue v) (v_retry v) (v_consent v) (v_gen v) (v_ord v) (v_owed v) pc'
         (v_barrier v) (v_admitted v) (v_written v) (v_seq v) (v_passes v) (v_batch v) (v_late v))
| mv_finish v g :
    v_pc v = CDone g ->
    client_move v
      (mkShape (v_store v) (v_queue v) (v_retry v) (v_consent v) (v_gen v) (v_ord v) false
         (if g then CGrant else CIdle) (v_barrier v) (v_admitted v) (v_written v) (v_seq v) (v_passes v) (v_batch v) (v_late v))
| mv_grant v :
    v_pc v = CGrant ->
    client_move v
      (mkShape (v_store v) (v_queue v) (v_retry v) Granted (v_gen v) (v_ord v) (v_owed v) CIdle
         (v_barrier v) (v_admitted v) (v_written v) (v_seq v) (v_passes v) (v_batch v) (v_late v))
| mv_submit v :
    client_move v
      (mkShape (v_store v) (v_queue v) (v_retry v) (v_consent v) (v_gen v) (v_ord v) (v_owed v)
         (v_pc v) (Z.max (v_barrier v) (v_ord v)) (v_admitted v) (v_written v)
         (wrap64 (v_seq v + 1)) (v_passes v) (v_batch v) (v_late v)).

(** A move that is possible while the worker holds [store_mutex]. *)
Definition still_move (v w : Shape) : Prop :=
  client_move v w /\ v_store w = v_store v /\ (v_pc w = v_pc v \/ needs_store (v_pc v) = false).

Section Moves.
Context (R : Shape -> Shape -> Prop).

(** At most [n] moves. *)
Inductive moves : nat -> Shape -> Shape -> Prop :=
| moves_none n v : moves n v v
| moves_step n v1 v2 v3 : R v1 v2 -> moves n v2 v3 -> moves (Datatypes.S n) v1 v3.

(** The computation performs at most [n] moves and leaves the schedule alone. *)
Definition performs {A} (n : nat) (m : M Sy A) : Prop :=
  forall s, sound (store (pipe s)) ->
    moves n (shape s) (shape (snd (m s))) /\ sound (store (pipe (snd (m s)))) /\
    schedule (snd (m s)) = schedule s.

(** ** Composition *)

Lemma moves_weaken n m v w : (n <= m)%nat -> moves n v w -> moves m v w.
Proof.
  intros Hnm Hm. revert m Hnm. induction Hm as [|n v1 v2 v3 Hs _ IH]; intros m Hnm; [constructor|].
  destruct m as [|m]; [lia|]. econstructor; [exact Hs|]. apply IH. lia.
Qed.

Lemma moves_trans n m u v w : moves n u v -> moves m v w -> moves (n + m) u w.
Proof.
  intros Hn Hm. induction Hn as [n v|n v1 v2 v3 Hs _ IH].
  - eapply moves_weaken; [|exact Hm]. lia.
  - simpl. econstructor; [exact Hs|]. by apply IH.
Qed.

Lemma moves_one v w : R v w -> moves 1 v w.
Proof. intros Hm. econstructor; [exact Hm|constructor]. Qed.

Lemma performs_frame {A} n (m : M Sy A) :
  frame m -> (forall s, store (pipe (snd (m s))) = store (pipe s)) -> performs n m.
Proof.
  intros Hf Hst s Hs. destruct (Hf s) as [-> ->]. rewrite Hst. split; [apply moves_none|done].
Qed.

Lemma frame_store {A} (m : M Sy A) s : frame m -> store (pipe (snd (m s))) = store (pipe s).
Proof. intros Hf. destruct (Hf s) as [Hsh _]. by injection Hsh. Qed.

Lemma frame_performs {A} n (m : M Sy A) : frame m -> performs n m.
Proof. intros Hf. apply performs_frame; [done|]. intros s. by apply frame_store. Qed.

Lemma performs_then {A B} n k (m : M Sy A) (f : A -> M Sy B) :
  performs n m -> (forall a, performs k (f a)) -> performs (n + k) (mthen m f).
Proof.
  intros Hm Hf s Hs. unfold mthen. destruct (Hm s Hs) as (Hm1 & Hs1 & Hsch). destruct (m s) as [a s1]; simpl in *.
  destruct (Hf a s1 Hs1) as (Hm2 & Hs2 & Hsch2). split; [by eapply moves_trans|]. split; [done|]. congruence.
Qed.

Lemma performs_more {A} n k (m : M Sy A) : (n <= k)%nat -> performs n m -> performs k m.
Proof. intros Hnk Hm s Hs. destruct (Hm s Hs) as (? & ? & ?). split; [by eapply moves_weaken|done]. Qed.

Lemma performs_then0 {A B} k (m : M Sy A) (f : A -> M Sy B) :
  frame m -> (forall a, performs k (f a)) -> performs k (mthen m f).
Proof. intros Hm Hf. apply (performs_then 0 k); [by apply frame_performs|done]. Qed.

End Moves.

Lemma moves_mono (R R' : Shape -> Shape -> Prop) n v w :
  (forall v w, R v w -> R' v w) -> moves R n v w -> moves R' n v w.
Proof.
  intros HR Hv. induction Hv as [n v|n v1 v2 v3 Hr _ IH]; [apply moves_none|]. econstructor; [by apply HR|done].
Qed.

Lemma still_is_move n v w : moves still_move n v w -> moves client_move n v w.
Proof. apply moves_mono. by intros ? ? [? _]. Qed.

Lemma still_performs {A} n (m : M Sy A) : performs still_move n m -> performs client_move n m.
Proof. intros Hm s Hs. destruct (Hm s Hs) as (? & ? & ?). split; [by apply still_is_move|done]. Qed.

(** ** Sections under [admission_mutex_] *)

(** The section performs at most [n] moves when the mutex is free, and the thread
    inside [set_consent], if any, stays where it is. *)
Definition section {A} (n : nat) (m : M Sy A) : Prop :=
  forall s, sound (store (pipe s)) -> admission_held (consent_pc (impl s)) = false ->
    moves still_move n (shape s) (shape (snd (m s))) /\ sound (store (pipe (snd (m s)))) /\
    schedule (snd (m s)) = schedule s /\ consent_pc (impl (snd (m s))) = consent_pc (impl s).

Lemma frame_section {A} n (m : M Sy A) : frame m -> section n m.
Proof.
  intros Hf s Hs _. destruct (Hf s) as [Hsh ->]. rewrite (frame_store m s Hf). rewrite Hsh.
  split; [apply moves_none|]. split; [done|]. split; [done|]. exact (f_equal v_pc Hsh).
Qed.

Lemma section_then {A B} n k (m : M Sy A) (f : A -> M Sy B) :
  section n m -> (forall a, section k (f a)) -> section (n + k) (mthen m f).
Proof.
  intros Hm Hf s Hs Hpc. unfold mthen. destruct (Hm s Hs Hpc) as (Hm1 & Hs1 & Hsch & Hpc1). destruct (m s) as [a s1]; simpl in *.
  rewrite <- Hpc1 in Hpc. destruct (Hf a s1 Hs1 Hpc) as (Hm2 & Hs2 & Hsch2 & Hpc2).
  split; [by eapply moves_trans|]. split; [done|]. split; congruence.
Qed.

Lemma section_then0 {A B} k (m : M Sy A) (f : A -> M Sy B) :
  frame m -> (forall a, section k (f a)) -> section k (mthen m f).
Proof. intros Hm Hf. apply (section_then 0 k); [by apply frame_section|done]. Qed.

Lemma frame_return {A} (a : A) : frame (mreturn a).
Proof. by intros s. Qed.

Lemma frame_get {A} (f : Sy -> A) : frame (mget f).
Proof. by intros s. Qed.

Lemma frame_put (f : Sy -> Sy) : (forall s, shape (f s) = shape s /\ schedule (f s) = schedule s) -> frame (mput f).
Proof. intros Hf s. apply Hf. Qed.

Lemma frame_then {A B} (m : M Sy A) (f : A -> M Sy B) : frame m -> (forall a, frame (f a)) -> frame (mthen m f).
Proof.
  intros Hm Hf s. unfold mthen. destruct (Hm s) as [H1 H2]. destruct (m s) as [a s1]; simpl in *.
  destruct (Hf a s1) as [H3 H4]. by rewrite H3, H4.
Qed.

Lemma frame_upd_stats f : frame (upd_stats f).
Proof. by apply frame_put. Qed.

Lemma frame_upd_session f : frame (upd_session f).
Proof. by apply frame_put. Qed.

Lemma frame_release_outstanding n : frame (release_outstanding n).
Proof. by apply frame_put. Qed.

Lemma frame_add_outstanding n : frame (add_outstanding n).
Proof. by apply frame_put. Qed.

Lemma frame_reset_outstanding n : frame (reset_outstanding n).
Proof. by apply frame_put. Qed.

Lemma frame_log l t : frame (log l t).
Proof. apply frame_put. intros s. unfold on_pipe, set_pipe. simpl. by destruct (cfg_log_callback _). Qed.

Lemma frame_report_error e : frame (report_error e).
Proof. apply frame_put. intros s. unfold on_pipe, set_pipe. simpl. by destruct (cfg_error_callback _). Qed.

Lemma frame_forget_errors : frame forget_errors.
Proof. by apply frame_put. Qed.

Lemma frame_read_clock : frame read_clock.
Proof. intros s. unfold read_clock. by destruct (clock_ (impl s)) as [|? [|? ?]]. Qed.

Lemma frame_kick : frame (with_queue (fun q => (tt, kick q))).
Proof. by intros s. Qed.

Lemma frame_terminal_locked : frame terminal_locked.
Proof.
  apply frame_then; [apply frame_get|]. intros []; simpl; [|apply frame_return].
  apply frame_then; [apply frame_get|]. intros t. destruct (ok t); apply frame_return.
Qed.

Lemma frame_take_next : frame take_next.
Proof. intros s. unfold take_next. by destruct (session_next _). Qed.

Lemma frame_new_id : frame new_id.
Proof. intros s. unfold new_id. by destruct (uuid4 _). Qed.

Lemma frame_begin_session p : frame (begin_session p).
Proof.
  apply frame_then; [apply frame_read_clock|]. intros now s.
  by destruct (session_begin _ _ _ _) as [[? ?] ?].
Qed.

(** ** Admission as a decision and an effect *)

(** [terminal_locked] only reads. *)
Definition terminal_of (s : Sy) : Status :=
  if negb (terminated (pipe s)) then status_ok
  else if negb (ok (terminal_status_ (core s))) then terminal_status_ (core s)
  else mkStatus Internal
         ("the playertrace worker stopped unexpectedly; no further " +:+ "events can be accepted").

Lemma terminal_locked_run s : terminal_locked s = (terminal_of s, s).
Proof.
  unfold terminal_locked, terminal_of, mthen, mget. destruct (terminated (pipe s)); simpl; [|done].
  by destruct (ok (terminal_status_ (core s))).
Qed.

(** Why an event is refused, in the order of the checks, with the counter the
    refusal updates. *)
Definition refusal (s : Sy) : option (Status * (Stats -> Stats)) :=
  if negb (ok (terminal_of s)) then Some (terminal_of s, id)
  else if negb (bool_decide (lifecycle_ (impl s) = Running)) then Some (shut_down, id)
  else if negb (bool_decide (consent (pipe s) = Granted)) then Some (not_granted, id)
  else if negb (active_ (session_ (impl s))) then Some (no_session, id)
  else if max_pending_events_ (impl s) <=? outstanding (pipe s)
  then Some (storage_full (max_pending_events_ (impl s)), add_dropped_storage_full 1)
  else if queue_full (queue (pipe s)) then Some (queue_is_full, add_dropped_queue_full 1)
  else None.

(** The event that is admitted. *)
Definition new_event (name : string) (props : Properties) (s : Sy) : QueuedEvent :=
  let se := session_ (impl s) in
  mkQueued
    (mkEvent (fst (uuid4 (id_gen_ (impl s)))) (cfg_app_id (config (pipe s))) name kEventSchemaVersion
       (fst (read_clock s)) (session_id_ se) (player_id_ se) (sequence_ se) props)
    (wrap64 (ordinal_ (impl s) + 1)) (consent_generation (pipe s)).

(** The system after the admission of [qe]. *)
Definition after_admit (qe : QueuedEvent) (s : Sy) : Sy :=
  let i := impl s in
  let q := queue (pipe s) in
  mkSys
    (set_stats (add_accepted 1 (stats (pipe s)))
       (set_queue (mkQueue (queue_ q ++ [qe]) (capacity_ q) (batch_threshold_ q) (kicked_ q))
          (set_outstanding (wrap64 (outstanding (pipe s) + 1)) (pipe s))))
    (core s)
    (mkImpl (snd (session_next (session_ i))) (snd (uuid4 (id_gen_ i))) (validator_ i)
       (max_pending_events_ i) (lifecycle_ i) (wrap64 (ordinal_ i + 1)) (purge_required_ i)
       (clock_ (impl (snd (read_clock s)))) (consent_pc i))
    (schedule s) (admitted s ++ [qe]) (written s) (late s).

Lemma admit_refused name props s st f :
  refusal s = Some (st, f) ->
  admit_locked name props s = (st, on_pipe (fun p => set_stats (f (stats p)) p) s) /\ ok st = false.
Proof.
  unfold refusal, admit_locked, mthen, mget. rewrite terminal_locked_run.
  assert (on_pipe (fun p => set_stats (id (stats p)) p) s = s) as Hid
    by (by destruct s as [[] ? ? ? ? ?]).
  destruct (ok (terminal_of s)) eqn:Ht; simpl; [|intros [= <- <-]; by rewrite Hid].
  destruct (bool_decide (lifecycle_ (impl s) = Running)); simpl; [|intros [= <- <-]; by rewrite Hid].
  destruct (bool_decide (consent (pipe s) = Granted)); simpl; [|intros [= <- <-]; by rewrite Hid].
  destruct (active_ (session_ (impl s))); simpl; [|intros [= <- <-]; by rewrite Hid].
  destruct (_ <=? _); [intros [= <- <-]; done|].
  destruct (queue_full _); [intros [= <- <-]; done|done].
Qed.

Lemma admit_accepted name props s :
  refusal s = None ->
  admit_locked name props s = (status_ok, after_admit (new_event name props s) s).
Proof.
  unfold refusal, admit_locked, mthen, mget. rewrite terminal_locked_run.
  destruct (ok (terminal_of s)); simpl; [|done].
  destruct (bool_decide (lifecycle_ (impl s) = Running)); simpl; [|done].
  destruct (bool_decide (consent (pipe s) = Granted)); simpl; [|done].
  destruct (active_ (session_ (impl s))) eqn:Ha; simpl; [|done].
  destruct (_ <=? _); [done|]. destruct (queue_full _) eqn:Hq; [done|]. intros _.
  unfold take_next, new_event, after_admit, session_next. rewrite Ha. simpl.
  unfold new_id. simpl. destruct (uuid4 (id_gen_ (impl s))) as [id rng]. simpl.
  unfold push, with_queue, mthen, mget, mput, next_ordinal, add_outstanding, upd_stats, read_clock. simpl.
  destruct s as [[cf sk q sa so cn g o t nt] c [se r v mp lf od pr ck pc] sch ad wr]; simpl in *.
  destruct ck as [|n0 [|n1 rest]]; simpl; rewrite (try_push_accepts _ _ Hq); done.
Qed.

(** Admission is one push, or changes counters only. *)
Lemma admit_performs name props : section 1 (admit_locked name props).
Proof.
  intros s Hs Hpc. destruct (refusal s) as [[st f]|] eqn:Hr.
  - destruct (admit_refused name props s st f Hr) as [-> _]. split; [|done]. apply moves_none.
  - rewrite (admit_accepted name props s Hr). simpl. split; [|done]. apply moves_one.
    assert (consent (pipe s) = Granted) as Hc.
    { unfold refusal in Hr. repeat (case_match; [done|]). bool_to_prop. by eapply bool_decide_eq_true_1. }
    assert (generation_of s = consent_generation (pipe s)) as Hg by (unfold generation_of; by destruct (consent_pc (impl s))).
    split; [|by split; [|left]].
    apply (mv_push (shape s) (new_event name props s)); [done|done|done|]. simpl. apply uuid4_valid_key.
Qed.

Lemma end_session_performs : section 1 end_session_locked.
Proof.
  unfold end_session_locked. apply section_then0; [apply frame_get|]. intros act.
  apply section_then0; [destruct act; [apply frame_read_clock|apply frame_return]|]. intros now.
  apply section_then0; [apply frame_get|]. intros [d|]; [|apply frame_section, frame_return].
  apply (section_then 1 0); [apply admit_performs|]. intros m.
  destruct (ok m); simpl; apply frame_section; [|apply frame_return].
  apply frame_then; [apply frame_upd_session|intros; apply frame_return].
Qed.

Lemma frame_reserve n : frame (reserve_locked n).
Proof.
  unfold reserve_locked. apply frame_then; [apply frame_get|]. intros used.
  apply frame_then; [apply frame_get|]. intros cap. destruct (_ <? _).
  - apply frame_then; [apply frame_upd_stats|intros; apply frame_return].
  - apply frame_then; [apply frame_get|]. intros []; simpl; [apply frame_return|].
    apply frame_then; [apply frame_upd_stats|intros; apply frame_return].
Qed.

Lemma start_session_performs p : section 2 (start_session_locked p).
Proof.
  unfold start_session_locked. apply section_then0; [apply frame_get|]. intros life.
  destruct (bool_decide _); simpl; [|apply frame_section, frame_return].
  apply section_then0; [apply frame_get|]. intros con.
  destruct (bool_decide _); simpl; [|apply frame_section, frame_return].
  apply section_then0; [apply frame_terminal_locked|]. intros t.
  destruct (ok t); simpl; [|apply frame_section, frame_return].
  apply section_then0; [apply frame_get|]. intros rep.
  apply section_then0; [destruct rep; [apply frame_reserve|apply frame_return]|]. intros rs.
  destruct (ok rs); simpl; [|apply frame_section, frame_return].
  apply section_then0; [apply frame_get|]. intros prev.
  apply (section_then 1 1); [destruct rep; [apply end_session_performs|apply frame_section, frame_return]|].
  intros en. destruct (ok en); simpl.
  - apply section_then0; [apply frame_begin_session|]. intros _.
    apply (section_then 1 0); [apply admit_performs|]. intros m. apply frame_section.
    destruct (ok m); simpl; [apply frame_return|].
    apply frame_then; [destruct rep; apply frame_upd_session|intros; apply frame_return].
  - apply frame_section, frame_then; [apply frame_upd_session|intros; apply frame_return].
Qed.

Lemma end_section_performs : section 1 end_session_section.
Proof.
  unfold end_session_section. apply section_then0; [apply frame_get|]. intros life.
  destruct (bool_decide _); simpl; [|apply frame_section, frame_return].
  apply section_then0; [apply frame_terminal_locked|]. intros t.
  destruct (ok t); simpl; [apply end_session_performs|apply frame_section, frame_return].
Qed.

Lemma track_section_performs g name props : section 1 (track_section g name props).
Proof.
  unfold track_section. apply section_then0; [apply frame_get|]. intros gen.
  destruct (_ =? _); simpl; [apply admit_performs|apply frame_section, frame_return].
Qed.

(** Submitting a flush. *)
Definition v_submit (b : Z) (v : Shape) : Shape :=
  mkShape (v_store v) (v_queue v) (v_retry v) (v_consent v) (v_gen v) (v_ord v) (v_owed v) (v_pc v)
    (Z.max (v_barrier v) b) (v_admitted v) (v_written v) (wrap64 (v_seq v + 1)) (v_passes v) (v_batch v) (v_late v).

Lemma submit_flush_shape b s :
  shape (snd (submit_flush b s)) = v_submit b (shape s) /\
  schedule (snd (submit_flush b s)) = schedule s.
Proof.
  unfold submit_flush, mthen, mput, mget, with_queue. simpl. split; [|done].
  unfold shape, v_submit, generation_of, owed_of. simpl. destruct (flush_barrier_ (core s) <? b) eqn:E; simpl; bool_to_prop;
    f_equal; lia.
Qed.

Lemma submit_performs s :
  sound (store (pipe s)) ->
  let s' := snd (submit_flush (ordinal_ (impl s)) s) in
  moves still_move 1 (shape s) (shape s') /\ sound (store (pipe s')) /\ schedule s' = schedule s /\
  consent_pc (impl s') = consent_pc (impl s).
Proof.
  intros Hs s'. destruct (submit_flush_shape (ordinal_ (impl s)) s) as [Hsh Hsch]. fold s' in Hsh, Hsch.
  split; [|split; [|split; [done|exact (f_equal v_pc Hsh)]]].
  - rewrite Hsh. apply moves_one. split; [apply (mv_submit (shape s))|by split; [|left]].
  - exact Hs.
Qed.

Lemma flush_section_performs : section 1 flush_section.
Proof.
  unfold flush_section. apply section_then0; [apply frame_get|]. intros life.
  destruct (bool_decide _); simpl; [|apply frame_section, frame_return].
  apply section_then0; [apply frame_terminal_locked|]. intros t.
  destruct (ok t); simpl; [|apply frame_section, frame_return].
  intros s Hs _. unfold mthen at 1, mget. unfold mthen. pose proof (submit_performs s Hs) as Hp.
  by destruct (submit_flush (ordinal_ (impl s)) s) as [tok s1].
Qed.

(** ** The sections of a consent change *)

(** The shape with another store. *)
Definition v_set_store (st : S) (v : Shape) : Shape :=
  mkShape st (v_queue v) (v_retry v) (v_consent v) (v_gen v) (v_ord v) (v_owed v) (v_pc v)
    (v_barrier v) (v_admitted v) (v_written v) (v_seq v) (v_passes v) (v_batch v) (v_late v).

Lemma with_store_shape {A} (m : M S A) s :
  shape (snd (with_store m s)) = v_set_store (snd (m (store (pipe s)))) (shape s) /\
  schedule (snd (with_store m s)) = schedule s /\ fst (with_store m s) = fst (m (store (pipe s))).
Proof. unfold with_store. by destruct (m (store (pipe s))). Qed.

Lemma frame_give_back n : frame (give_back n).
Proof.
  unfold give_back. destruct (0 <? n); [|apply frame_return].
  apply frame_then; [apply frame_upd_stats|]. intros _. apply frame_release_outstanding.
Qed.

Lemma give_back_run n (s : Sy) :
  give_back n s = (tt, on_pipe (fun p =>
    if 0 <? n then set_outstanding (if n <? outstanding p then outstanding p - n else 0)
                     (set_stats (add_discarded_consent n (stats p)) p) else p) s).
Proof. unfold give_back. destruct (0 <? n); [done|]. by destruct s. Qed.

(** What the whole section of a revocation does. *)
Lemma revoke_effect c (s : Sy) :
  let s' := snd (revoke_section c s) in
  store (pipe s') = store (pipe s) /\ queue_ (queue (pipe s')) = [] /\ retry_ (core s') = [] /\
  consent (pipe s') = c /\ consent_generation (pipe s') = wrap64 (consent_generation (pipe s) + 1) /\
  ordinal_ (impl s') = ordinal_ (impl s) /\ purge_required_ (impl s') = true.
Proof.
  unfold revoke_section, discard_in_flight, with_queue, queue_clear, mthen, mput, mget. simpl.
  repeat (rewrite !give_back_run; simpl). repeat case_match; done.
Qed.

(** The first store section of a purge, by its outcome. *)
Lemma purge_mark_shape s :
  sound (store (pipe s)) ->
  exists st', sound st' /\ rows st' = rows (store (pipe s)) /\
    shape (snd (purge_mark s)) = v_set_store st' (shape s) /\ schedule (snd (purge_mark s)) = schedule s.
Proof.
  intros Hs. pose proof (law_mark (store (pipe s)) Hs) as Hl. unfold purge_mark, mthen, with_store.
  destruct (store_mark_revocation_pending (store (pipe s))) as [st st']. simpl in Hl.
  destruct Hl as (Hs' & Hr & _). exists st'. split; [done|]. split; [done|].
  destruct (ok st); simpl; [done|].
  unfold report_error, log, mput, on_pipe, set_pipe. simpl.
  destruct (cfg_error_callback _); simpl; by destruct (cfg_log_callback _).
Qed.

Lemma purge_delete_shape s :
  sound (store (pipe s)) ->
  exists st', sound st' /\
    (if ok (fst (purge_delete s)) then rows st' = [] else rows st' = rows (store (pipe s))) /\
    shape (snd (purge_delete s)) = v_set_store st' (shape s) /\ schedule (snd (purge_delete s)) = schedule s.
Proof.
  intros Hs. pose proof (law_purge (store (pipe s)) Hs) as Hl. unfold purge_delete, mthen, with_store.
  destruct (store_purge_and_clear_revocation (store (pipe s))) as [[st n] st']. simpl in Hl.
  destruct Hl as (Hs' & Hr). exists st'. split; [done|].
  destruct (ok st); simpl; [by destruct Hr|].
  unfold report_error, log, mput, on_pipe, set_pipe. simpl.
  destruct (cfg_error_callback _); simpl; destruct (cfg_log_callback _); simpl; by destruct Hr.
Qed.

(** The shape at another point of [set_consent]. *)
Definition v_goto (pc : ConsentPc) (v : Shape) : Shape :=
  mkShape (v_store v) (v_queue v) (v_retry v) (v_consent v) (v_gen v) (v_ord v) (v_owed v) pc
    (v_barrier v) (v_admitted v) (v_written v) (v_seq v) (v_passes v) (v_batch v) (v_late v).

Lemma goto_shape pc s :
  admission_held pc = false -> admission_held (consent_pc (impl s)) = false ->
  shape (snd (goto pc s)) = v_goto pc (shape s).
Proof.
  intros Hpc Hs. unfold goto, mput, shape, v_goto, generation_of, owed_of. simpl.
  by destruct pc; try done; destruct (consent_pc (impl s)).
Qed.

(** A step outside the section of a revocation that ends at [pc]. *)
Lemma performs_goto R s s1 pc v1 :
  admission_held (consent_pc (impl s)) = false -> admission_held pc = false -> v_pc v1 = v_pc (shape s) ->
  shape s1 = v1 -> schedule s1 = schedule s -> sound (v_store v1) -> R (shape s) (v_goto pc v1) ->
  moves R 1 (shape s) (shape (snd (goto pc s1))) /\ sound (store (pipe (snd (goto pc s1)))) /\
  schedule (snd (goto pc s1)) = schedule s.
Proof.
  intros Hh Hpc Ev Hsh Hsch Hs Hm. subst v1. rewrite goto_shape; [|done|simpl in Ev; by rewrite Ev].
  split; [by apply moves_one|]. done.
Qed.

(** A step inside the section of a revocation, which does not need the store. *)
Lemma held_move (s s' : Sy) w :
  sound (store (pipe s)) -> admission_held (consent_pc (impl s)) = true -> shape s' = w ->
  schedule s' = schedule s -> v_store w = store (pipe s) -> client_move (shape s) w ->
  moves still_move 1 (shape s) (shape s') /\ sound (store (pipe s')) /\ schedule s' = schedule s.
Proof.
  intros Hs Hh <- Hsch Hst Hm. simpl in Hst. rewrite Hst. split; [|done]. apply moves_one. split; [done|].
  split; [done|]. right. simpl. by destruct (consent_pc (impl s)).
Qed.

(** One that only goes on to the next point, after a frame. *)
Lemma held_go (m : M Sy unit) pc pc' s :
  frame m -> sound (store (pipe s)) -> consent_pc (impl s) = pc -> admission_held pc = true ->
  (pc = CBump -> pc' = CBump) -> (forall s, owed_of (snd (goto pc' s)) = owed_of (snd (goto pc s))) ->
  pc' <> CBump -> (admission_held pc' = true \/ pc' = CMark false) ->
  let s' := snd ((m ;; goto pc') s) in
  moves still_move 1 (shape s) (shape s') /\ sound (store (pipe s')) /\ schedule s' = schedule s.
Proof.
  intros Hf Hs Hpc Hh Hb Ho Hne Hpc' s'. destruct (Hf s) as [E Hsch]. unfold s', mthen.
  destruct (m s) as [u s1]. simpl in E, Hsch.
  apply (held_move s _ (v_goto pc' (shape s))); [done|by rewrite Hpc| |done|done|].
  - rewrite <- E. pose proof (f_equal v_pc E) as Epc. simpl in Epc. rewrite Hpc in Epc.
    specialize (Ho s1). unfold shape, v_goto, generation_of, owed_of in *. simpl in *. rewrite Epc. f_equal; [|exact Ho].
    destruct pc', pc; try done; by specialize (Hb eq_refl).
  - apply (mv_go (shape s)); [by simpl; rewrite Hpc|done].
Qed.

Lemma held_step_performs s :
  sound (store (pipe s)) -> admission_held (consent_pc (impl s)) = true ->
  let s' := snd (consent_step s) in
  moves still_move 1 (shape s) (shape s') /\ sound (store (pipe s')) /\ schedule s' = schedule s.
Proof.
  intros Hs Hh. unfold consent_step. rewrite mget_then.
  destruct (consent_pc (impl s)) as [| | |n| |n| |g|g|g|] eqn:Hpc; try done.
  - eapply held_move; [done|by rewrite Hpc|done|done|done|]. pose proof (mv_bump (shape s) Hpc) as Hm.
    unfold shape, generation_of, owed_of in Hm |- *. simpl in *. by rewrite Hpc in Hm |- *.
  - eapply held_move; [done|by rewrite Hpc|done|done|done|]. pose proof (mv_clear (shape s) (queue_size (queue (pipe s))) Hpc) as Hm.
    unfold shape, generation_of, owed_of in Hm |- *. simpl in *. by rewrite Hpc in Hm |- *.
  - eapply held_go; [apply frame_give_back|done|exact Hpc|done..|by left].
  - eapply held_move; [done|by rewrite Hpc|done|done|done|]. pose proof (mv_discard (shape s) (vsize (retry_ (core s))) Hpc) as Hm.
    unfold shape, generation_of, owed_of in Hm |- *. simpl in *. by rewrite Hpc in Hm |- *.
  - eapply held_go; [apply frame_give_back|done|exact Hpc|done..|by left].
  - eapply held_go; [apply frame_forget_errors|done|exact Hpc|done..|by right].
Qed.

(** The other steps of [set_consent]. *)
Lemma late_step_performs s :
  sound (store (pipe s)) -> admission_held (consent_pc (impl s)) = false ->
  let s' := snd (consent_step s) in
  (exists w, shape s' = w /\ (w = shape s \/ client_move (shape s) w /\
     (needs_store (consent_pc (impl s)) = false -> v_store w = store (pipe s)))) /\
  sound (store (pipe s')) /\ schedule s' = schedule s.
Proof.
  intros Hs Hh.
  assert (forall pc s1 v1, admission_held pc = false -> v_pc v1 = v_pc (shape s) -> shape s1 = v1 -> schedule s1 = schedule s ->
    sound (v_store v1) -> client_move (shape s) (v_goto pc v1) ->
    (needs_store (consent_pc (impl s)) = false -> v_store v1 = store (pipe s)) ->
    (exists w, shape (snd (goto pc s1)) = w /\ (w = shape s \/ client_move (shape s) w /\
       (needs_store (consent_pc (impl s)) = false -> v_store w = store (pipe s)))) /\
    sound (store (pipe (snd (goto pc s1)))) /\ schedule (snd (goto pc s1)) = schedule s) as Hgo.
  { intros pc s1 v1 Hpc Ev Hsh Hsch Hs1 Hm Hst. subst v1. simpl in Ev.
    rewrite goto_shape; [|done|by rewrite Ev]. split; [eexists; split; [done|by right]|done]. }
  unfold consent_step. rewrite mget_then.
  destruct (consent_pc (impl s)) as [| | |n| |n| |g|g|g|] eqn:Hpc; try done.
  - split; [exists (shape s); split; [done|by left]|done].
  - destruct (purge_mark_shape s Hs) as (st' & Hs' & Hr & Hsh & Hsch). unfold mthen.
    destruct (purge_mark s) as [st s1]. simpl in Hsh, Hsch.
    apply (Hgo _ s1 (v_set_store st' (shape s))); [by destruct (ok st)|done|exact Hsh|done|done| |done].
    apply (mv_mark (shape s) g st'); [done|done|done|]. destruct (ok st); auto.
  - destruct (purge_delete_shape s Hs) as (st' & Hs' & Hr & Hsh & Hsch). unfold mthen.
    destruct (purge_delete s) as [st s1]. simpl in Hr, Hsh, Hsch.
    apply (Hgo _ s1 (v_set_store st' (shape s))); [by destruct (ok st)|done|exact Hsh|done|done| |done].
    apply (mv_purge (shape s) g st'); [done|done|]. destruct (ok st); auto.
  - eapply (Hgo _ _ (shape (snd (purge_finish s)))); [by destruct g|done|done|done|done| |done].
    pose proof (mv_finish (shape s) g Hpc) as Hm.
    unfold shape, v_goto, generation_of, owed_of in Hm |- *. simpl in *. by rewrite Hpc in Hm |- *.
  - eapply (Hgo _ _ (shape (snd (grant_section s)))); [done|done|done|done|done| |done].
    apply (mv_grant (shape s)). done.
Qed.

(** Any step of [set_consent]; without the store when it does not take its mutex. *)
Lemma consent_step_performs : performs client_move 1 consent_step.
Proof.
  intros s Hs. destruct (admission_held (consent_pc (impl s))) eqn:Hh.
  - destruct (held_step_performs s Hs Hh) as (Hm & ? & ?). split; [|done]. by apply still_is_move.
  - destruct (late_step_performs s Hs Hh) as ((w & Hw & Hor) & ? & ?). split; [|done]. rewrite Hw.
    destruct Hor as [->|[Hm _]]; [apply moves_none|by apply moves_one].
Qed.

Lemma light_step_performs s :
  sound (store (pipe s)) -> needs_store (consent_pc (impl s)) = false ->
  let s' := snd (consent_step s) in
  moves still_move 1 (shape s) (shape s') /\ sound (store (pipe s')) /\ schedule s' = schedule s.
Proof.
  intros Hs Hn s'. destruct (admission_held (consent_pc (impl s))) eqn:Hh; [by apply held_step_performs|].
  destruct (late_step_performs s Hs Hh) as ((w & Hw & Hor) & ? & ?). split; [|done]. unfold s'. rewrite Hw.
  destruct Hor as [->|[Hm Hst]]; [apply moves_none|].
  apply moves_one. split; [done|]. split; [by apply Hst|by right].
Qed.

Lemma consent_enter_performs c : performs still_move 1 (consent_enter c).
Proof.
  intros s Hs. unfold consent_enter. rewrite mget_then.
  destruct (consent_pc (impl s)) eqn:Hpc; try (split; [apply moves_none|done]).
  assert (forall w, client_move (shape s) w -> v_store w = store (pipe s) -> moves still_move 1 (shape s) w) as Hone.
  { intros w Hm Hst. apply moves_one. split; [done|]. split; [done|]. right. simpl. by rewrite Hpc. }
  destruct (decide (c = Granted)) as [->|Hc].
  - rewrite bool_decide_true, mget_then by done. rewrite goto_shape; [|by destruct (purge_required_ _)|by rewrite Hpc].
    split; [|done]. apply Hone; [|done]. pose proof (mv_ask (shape s) Hpc) as Hm. unfold v_goto, shape, owed_of in Hm |- *.
    simpl in *. by rewrite Hpc in Hm |- *.
  - rewrite bool_decide_false by done. split; [|done]. apply Hone; [|done].
    pose proof (mv_revoke (shape s) c Hpc Hc) as Hm. unfold shape, generation_of, owed_of in Hm |- *. simpl in *.
    by rewrite Hpc in Hm |- *.
Qed.

Lemma frame_sink {A} (m : M K A) : frame (with_sink m).
Proof. intros s. unfold with_sink. by destruct (m (sink (pipe s))). Qed.

(** ** Every step of another thread *)

Lemma admission_performs n (m : M Sy unit) : section n m -> performs still_move n (admission m).
Proof.
  intros Hm s Hs. unfold admission. rewrite mget_then. destruct (admission_held _) eqn:Hh; [split; [apply moves_none|done]|].
  destruct (Hm s Hs Hh) as (? & ? & ? & _). done.
Qed.

Lemma section_forget {A} n (m : M Sy A) : section n m -> section n (let* _ := m in mreturn tt).
Proof.
  intros Hm. rewrite <- (Nat.add_0_r n). apply section_then; [done|]. intros; apply frame_section, frame_return.
Qed.

Lemma drain_performs : performs still_move 1 drain_section.
Proof.
  unfold drain_section. apply performs_then0; [apply frame_get|]. intros life.
  destruct (bool_decide _); [apply frame_performs, frame_return|].
  intros s Hs. rewrite mget_then. unfold mthen. pose proof (submit_performs s Hs) as Hp.
  destruct (submit_flush (ordinal_ (impl s)) s) as [tok s1]. by destruct Hp as (? & ? & ? & _).
Qed.

Lemma other_performs a : a <> ActConsentStep -> performs still_move 2 (perform a).
Proof.
  intros Ha. destruct a; simpl; try done.
  - apply (performs_more _ 1); [lia|]. apply admission_performs, section_forget, track_section_performs.
  - apply admission_performs, section_forget, start_session_performs.
  - apply (performs_more _ 1); [lia|]. apply admission_performs, section_forget, end_section_performs.
  - apply (performs_more _ 1); [lia|]. apply consent_enter_performs.
  - apply (performs_more _ 1); [lia|]. apply admission_performs, section_forget, flush_section_performs.
  - apply (performs_more _ 1); [lia|]. apply drain_performs.
  - apply admission_performs, frame_section, frame_put. intros s.
    unfold on_impl, set_impl, shape, generation_of, owed_of. simpl. by destruct (bool_decide _).
  - apply frame_performs, frame_then; [apply frame_get|]. intros []; simpl; [|apply frame_return].
    apply frame_then; [apply frame_sink|intros; apply frame_return].
  - apply frame_performs, frame_then; [by apply frame_put|]. intros. apply frame_kick.
Qed.

Definition act_eq_step (a : Act) : {a = ActConsentStep} + {a <> ActConsentStep}.
Proof. destruct a; by (left + right). Defined.

Lemma perform_performs a : performs client_move 2 (perform a).
Proof.
  destruct (act_eq_step a) as [->|Ha]; [|by apply still_performs, other_performs].
  apply (performs_more _ 1); [lia|]. apply consent_step_performs.
Qed.

Lemma beside_performs a : performs still_move 2 (perform_beside_store a).
Proof.
  unfold perform_beside_store. intros s Hs. rewrite mget_then. destruct (act_eq_step a) as [->|Ha].
  - destruct (needs_store (consent_pc (impl s))) eqn:Hn; [split; [apply moves_none|done]|].
    destruct (light_step_performs s Hs Hn) as (? & ? & ?). split; [|done]. by apply (moves_weaken _ 1); [lia|].
  - pose proof (other_performs a Ha s Hs). by destruct a.
Qed.

Lemma perform_all_performs R step acts :
  (forall a, performs R 2 (step a)) -> performs R (2 * length acts) (perform_all step acts).
Proof.
  intros Hstep. induction acts as [|a acts IH]; [apply frame_performs, frame_return|].
  replace (2 * length (a :: acts))%nat with (2 + 2 * length acts)%nat by (simpl; lia).
  apply performs_then; [apply Hstep|done].
Qed.

(** The number of steps the schedule still holds. *)
Definition acts_left (s : Sy) : nat := length (concat (schedule s)).

(** An interleaving point: moves within what the schedule gives up. *)
Lemma interleave_moves R step s :
  (forall a, performs R 2 (step a)) -> sound (store (pipe s)) ->
  let s' := snd (interleave step s) in
  exists n, moves R n (shape s) (shape s') /\ (n + 2 * acts_left s' = 2 * acts_left s)%nat /\
    sound (store (pipe s')).
Proof.
  intros Hstep Hs. unfold interleave, acts_left. destruct (schedule s) as [|acts rest] eqn:Hsch; simpl.
  { exists 0%nat. rewrite Hsch. split; [apply moves_none|]. split; [done|done]. }
  destruct (perform_all_performs R step acts Hstep (set_schedule rest s) Hs) as (Hm & Hs' & Hsch').
  exists (2 * length acts)%nat. rewrite Hsch'. simpl. rewrite length_app. split; [exact Hm|]. split; [lia|done].
Qed.

(** While the worker holds [store_mutex] nobody else uses the store. *)
Lemma still_store n v w : moves still_move n v w -> v_store w = v_store v.
Proof. intros Hm. induction Hm as [|n v1 v2 v3 (_ & Hs & _) _ IH]; [done|congruence]. Qed.

Lemma beside_store s :
  sound (store (pipe s)) -> store (pipe (snd (interleave perform_beside_store s))) = store (pipe s).
Proof.
  intros Hs. destruct (interleave_moves still_move _ s beside_performs Hs) as (n & Hm & _). by apply still_store in Hm.
Qed.

End Spec.
