(* ===== verification/Invariant.v ===== *)
(** The invariant of the system and what the other threads cannot break.

    [Inv] holds at every interleaving point; every move of another thread
    preserves it. Assertions speak of the shape and of the room left for moves
    of other threads; [Stable] ones are those the moves preserve, so the worker
    may rely on them across an interleaving point. [Good f] is what the worker
    maintains while it holds the events [f]. *)
From S2P Require Import Prelude Types Serializer Validator Queue Ids Session SqlText Sqlite Store StoreSpec StoreIface Pipeline Admission AdmissionSpec Worker Tokens.

Local Open Scope Z_scope.
Local Open Scope pt_scope.

Section Invariant.
Context {S K : Type} `{!StoreOps S} `{!StoreLaws S} `{!SinkOps K}.
Context (dump : json -> library_call string).
(** The rows recovered from a previous run. *)
Context (recovered : list Row).
(** Room for moves that are not in the schedule. *)
Context (slack : nat).
#[local] Abbreviation Sy := (Sys S K).
#[local] Abbreviation Shape := (@Shape S).

(** * Definitions *)

(** An assertion: the room left for moves, and the shape. *)
#[local] Abbreviation Assertion := (nat -> Shape -> Prop).

(** The identifier of a queued event. *)
Definition qid (e : QueuedEvent) : string := event_id (qe_event e).

(** The text the serializer writes for an event. *)
Definition payload_of (e : QueuedEvent) : string := snd (serialize dump (qe_event e)).

(** The row carries the identifier, the ordinal and the text of the event. *)
Definition row_for (e : QueuedEvent) (r : Row) : Prop :=
  has_id (qid e) r = true /\ row_ordinal r = qe_ordinal e /\ row_payload r = SqlText (payload_of e).

(** No stored event may be older than the last revocation. *)
Definition clean_required (v : Shape) : Prop := v_owed v = false \/ exists g, v_pc v = CDone g.

(** Where a row comes from: an admitted event or a previous run. *)
Definition origin (v : Shape) (r : Row) : Prop :=
  (exists e, e ∈ v_admitted v /\ row_for e r) \/ r ∈ recovered.

(** A row of the current consent generation: an event admitted under it, or a
    recovered row when consent was never revoked. *)
Definition fresh (v : Shape) (r : Row) : Prop :=
  (exists e, e ∈ v_admitted v /\ qe_consent_generation e = v_gen v /\ row_for e r) \/
  v_gen v = 0 /\ r ∈ recovered.

(** What the sink is given: an admitted event as the serializer writes it, or a
    row of a previous run. *)
Definition genuine (v : Shape) (x : SerializedEvent) : Prop :=
  (exists e, e ∈ v_admitted v /\ x = mkSerialized (qid e) (payload_of e)) \/
  exists r, r ∈ recovered /\ row_event r = Some x.

(** The invariant, with room for [n] more moves in the 63- and 64-bit counters. *)
Record Inv (n : nat) (v : Shape) : Prop := {
  inv_sound : sound (v_store v);
  inv_order : in_order (v_retry v ++ v_queue v);
  inv_hist : forall e, e ∈ v_retry v ++ v_queue v -> e ∈ v_admitted v;
  inv_ord : forall e, e ∈ v_admitted v -> 0 < qe_ordinal e <= v_ord v;
  inv_gen : forall e, e ∈ v_admitted v -> qe_consent_generation e <= v_gen v;
  inv_keys : forall e, e ∈ v_admitted v -> valid_key (qid e);
  inv_revoked : v_consent v <> Granted ->
    forall e, e ∈ v_admitted v -> qe_consent_generation e < v_gen v;
  inv_owed : v_consent v = Granted -> v_owed v = false;
  inv_pc : match v_pc v with
           | CIdle => True
           | CGrant => v_owed v = false
           | _ => v_owed v = true
           end;
  inv_origin : Forall (origin v) (rows (v_store v));
  inv_rows : clean_required v -> Forall (fresh v) (rows (v_store v));
  inv_barrier : 0 <= v_barrier v <= v_ord v;
  inv_tokens : tokens_wf (v_seq v) (v_passes v);
  inv_batch : 0 <= v_batch v;
  inv_room : 0 <= v_ord v /\ v_ord v + Z.of_nat n < 9223372036854775808 /\
             0 <= v_gen v /\ v_gen v + Z.of_nat n < 18446744073709551616 /\
             v_seq v + Z.of_nat n < 18446744073709551616;
  inv_admitted : in_order (v_admitted v);
  inv_given : Forall (fun given => Forall (genuine v) (fst given)) (v_written v);
  inv_late : v_late v <= v_gen v
}.

(** The invariant together with an assertion, with room for every section of
    the schedule and for [slack] moves more. *)
Definition holds (P : Assertion) (s : Sy) : Prop :=
  Inv (2 * acts_left s + slack) (shape s) /\ P (2 * acts_left s + slack)%nat (shape s).

(** Assertions the moves of [R] cannot break. *)
Definition StableIn (R : Shape -> Shape -> Prop) (P : Assertion) : Prop :=
  (forall n m v, (m <= n)%nat -> P n v -> P m v) /\
  (forall n v w, Inv (Datatypes.S n) v -> R v w -> P (Datatypes.S n) v -> P n w).

(** Assertions no move of another thread can break; and those none can break
    while the worker holds [store_mutex]. *)
Definition Stable : Assertion -> Prop := StableIn client_move.
Definition StoreStable : Assertion -> Prop := StableIn still_move.

(** ** The worker's own work *)

(** Events the worker holds: already admitted, between the retry buffer and the
    queue in delivery order. *)
Definition Flight (f : list QueuedEvent) (v : Shape) : Prop :=
  in_order (v_retry v ++ f ++ v_queue v) /\ forall e, e ∈ f -> e ∈ v_admitted v.

(** The event is stored. *)
Definition stored (e : QueuedEvent) (v : Shape) : Prop :=
  exists r, r ∈ rows (v_store v) /\ row_for e r.

(** The sink took the event. *)
Definition sent (e : QueuedEvent) (v : Shape) : Prop :=
  exists batch st, (batch, st) ∈ v_written v /\ ok st = true /\ qid e ∈ se_event_id <$> batch.

(** The event cannot be serialized. *)
Definition hopeless (e : QueuedEvent) : Prop := ok (fst (serialize dump (qe_event e))) = false.

(** Another event has its 122-bit random identifier. *)
Definition collided (e : QueuedEvent) (v : Shape) : Prop :=
  (exists e', e' ∈ v_admitted v /\ qid e' = qid e /\ qe_ordinal e' <> qe_ordinal e) \/
  exists r, r ∈ recovered /\ has_id (qid e) r = true.

(** Nothing more is owed to the event: the sink took it, its consent was
    revoked, it cannot be serialized, or it shares its identifier. *)
Definition settled (e : QueuedEvent) (v : Shape) : Prop :=
  sent e v \/ qe_consent_generation e < v_gen v \/ hopeless e \/ collided e v.

(** Every admitted event is in the worker's hands, waiting, stored or settled. *)
Definition NoLoss (f : list QueuedEvent) (v : Shape) : Prop :=
  forall e, e ∈ v_admitted v ->
    e ∈ f \/ e ∈ v_retry v \/ e ∈ v_queue v \/ stored e v \/ settled e v.

(** Every stored row can be delivered. *)
Definition Usable (v : Shape) : Prop := Forall (fun r => row_event r <> None) (rows (v_store v)).

(** The work left, with room for [n] moves: an event costs three units while it
    is queued, two in the worker's hands and one when stored. *)
Definition work (f : list QueuedEvent) (n : nat) (v : Shape) : nat :=
  3 * length (v_queue v) + 2 * (length (v_retry v) + length f) + length (rows (v_store v)) + 3 * n.

(** At most [B] units of work are left, one less when the queue is shorter
    than [q]. *)
Definition Bounded (q B : nat) (f : list QueuedEvent) : Assertion := fun n v =>
  (work f n v + (if (length (v_queue v) <? q)%nat then 1 else 0) <= B)%nat.

(** What the worker knows about flushes: a lower bound of the barrier and of
    the last token submitted, the answers given so far, and some events that
    were admitted. *)
Record Mark : Type := mkMark {
  m_barrier : Z;
  m_token : Z;
  m_passes : Z * list (Z * Status);
  m_known : list QueuedEvent
}.

Definition Marked (k : Mark) (v : Shape) : Prop :=
  m_barrier k <= v_barrier v /\ m_token k <= v_seq v /\ v_passes v = m_passes k /\
  forall e, e ∈ m_known k -> e ∈ v_admitted v.

(** What the worker maintains while it holds the events [f]. *)
Record Good (k : Mark) (q B : nat) (f : list QueuedEvent) (n : nat) (v : Shape) : Prop := {
  good_flight : Flight f v;
  good_noloss : NoLoss f v;
  good_usable : Usable v;
  good_bound : Bounded q B f n v;
  good_marks : Marked k v
}.

(** Every event is revoked or still queued: what is stored may be purged. *)
Definition Stale (v : Shape) : Prop :=
  forall e, e ∈ v_admitted v -> qe_consent_generation e < v_gen v \/ e ∈ v_queue v.

(** Nothing has been revoked since generation [g], or the stored events are
    stale. *)
Definition Since (g : Z) (v : Shape) : Prop := v_gen v = g \/ Stale v.

(** Every event admitted up to ordinal [b] is settled. *)
Definition Settled (b : Z) (v : Shape) : Prop :=
  b <= v_ord v /\ forall e, e ∈ v_admitted v -> qe_ordinal e <= b -> settled e v.

(** * Lemmas *)

Lemma wrap64_succ z n : 0 <= z -> z + Z.of_nat (Datatypes.S n) < 18446744073709551616 -> wrap64 (z + 1) = z + 1.
Proof. intros. apply wrap64_small. lia. Qed.

Lemma in_order_snoc l e :
  in_order l -> (forall x, x ∈ l -> qe_ordinal x < qe_ordinal e) -> in_order (l ++ [e]).
Proof.
  intros Hl Hx. apply in_order_app. split; [done|]. split.
  - unfold in_order, ordinals. simpl. repeat constructor.
  - intros a b Ha Hb. apply list_elem_of_singleton in Hb as ->. by apply Hx.
Qed.

Lemma in_order_sublist l k : in_order k -> l `sublist_of` k -> in_order l.
Proof.
  unfold in_order, ordinals. intros Hk Hs. apply (fmap_sublist qe_ordinal) in Hs. revert Hs Hk.
  generalize (qe_ordinal <$> l), (qe_ordinal <$> k). clear l k.
  induction 1 as [|x l k Hs IH|x l k Hs IH]; intros Hk; [constructor| |];
    apply StronglySorted_inv in Hk as [Hk Hf]; [|by apply IH].
  constructor; [by apply IH|]. rewrite Forall_forall in *. intros y Hy. by eapply Hf, elem_of_sublist.
Qed.

(** Two admitted events with the same ordinal are the same. *)
Lemma in_order_inj l a b : in_order l -> a ∈ l -> b ∈ l -> qe_ordinal a = qe_ordinal b -> a = b.
Proof.
  intros Ho Ha Hb Heq. induction l as [|x l IH]; [by apply not_elem_of_nil in Ha|].
  unfold in_order, ordinals in Ho. rewrite fmap_cons in Ho. apply StronglySorted_inv in Ho as [Ho Hx].
  rewrite Forall_forall in Hx.
  assert (forall y, y ∈ l -> qe_ordinal x < qe_ordinal y) as Hlt by (intros y Hy; apply Hx, list_elem_of_fmap; eauto).
  apply elem_of_cons in Ha as [->|Ha]; apply elem_of_cons in Hb as [->|Hb]; [done|..].
  - specialize (Hlt b Hb). lia.
  - specialize (Hlt a Ha). lia.
  - by apply IH.
Qed.

Lemma fresh_more v w r :
  v_gen w = v_gen v -> (forall e, e ∈ v_admitted v -> e ∈ v_admitted w) -> fresh v r -> fresh w r.
Proof.
  intros Hg Ha [(e & He & Hge & Hid)|[H0 Hr]]; [left; exists e|right]; rewrite Hg; auto.
Qed.

Lemma origin_more v w r :
  (forall e, e ∈ v_admitted v -> e ∈ v_admitted w) -> origin v r -> origin w r.
Proof. intros Ha [(e & He & Hid)|Hr]; [left; exists e|right]; auto. Qed.

Lemma genuine_more v w x :
  (forall e, e ∈ v_admitted v -> e ∈ v_admitted w) -> genuine v x -> genuine w x.
Proof. intros Ha [(e & He & Hx)|Hr]; [left; exists e|right]; auto. Qed.

(** A usable row is given to the sink as what it holds. *)
Lemma origin_genuine v r x : origin v r -> row_event r = Some x -> genuine v x.
Proof.
  intros [(e & He & Hid & _ & Hp)|Hr] Hx; [left|right; eauto]. exists e. split; [done|].
  unfold has_id in Hid. destruct (row_event_id r) eqn:Hi; try done. apply bool_decide_eq_true in Hid as ->.
  by eapply law_row_event.
Qed.

Lemma settled_more v w e :
  (forall e, e ∈ v_admitted v -> e ∈ v_admitted w) -> v_written w = v_written v -> v_gen v <= v_gen w ->
  settled e v -> settled e w.
Proof.
  intros Ha Hw Hg [Hs|[Hr|[Hh|Hc]]]; [left|right; left|do 2 right; by left|do 3 right].
  - destruct Hs as (b & st & ?). exists b, st. by rewrite Hw.
  - lia.
  - destruct Hc as [(e' & ? & ?)|?]; [left; exists e'; auto|by right].
Qed.

(** ** Moves *)

(** What the rows of a move are. *)
Lemma move_rows v w : client_move v w -> rows (v_store w) = rows (v_store v) \/ rows (v_store w) = [].
Proof.
  intros [| | | | | | |v' g st' pc' ? ? Hr ?|v' g st' pc' ? ? Hr| | |]; simpl; auto. destruct Hr as [[_ ?]|[_ ?]]; auto.
Qed.

Lemma move_written v w : client_move v w -> v_written w = v_written v.
Proof. by intros []. Qed.

Lemma move_admitted v w e : client_move v w -> e ∈ v_admitted v -> e ∈ v_admitted w.
Proof. intros [] He; simpl; try done. by apply elem_of_app; left. Qed.

Lemma move_gen n v w : Inv (Datatypes.S n) v -> client_move v w -> v_gen v <= v_gen w.
Proof.
  intros Hi Hm. destruct (inv_room _ _ Hi) as (_ & _ & R3 & R4 & _).
  destruct Hm; simpl; try lia. rewrite wrap64_small; lia.
Qed.

Lemma move_origin v w : client_move v w -> Forall (origin v) (rows (v_store v)) -> Forall (origin w) (rows (v_store w)).
Proof.
  intros Hm Ho. destruct (move_rows v w Hm) as [-> | ->]; [|constructor].
  eapply Forall_impl; [exact Ho|]. intros r. apply origin_more. intros e. by apply move_admitted.
Qed.

Lemma move_given v w :
  client_move v w -> Forall (fun given => Forall (genuine v) (fst given)) (v_written v) ->
  Forall (fun given => Forall (genuine w) (fst given)) (v_written w).
Proof.
  intros Hm Hg. rewrite (move_written v w Hm). eapply Forall_impl; [exact Hg|]. intros [b st] Hb.
  eapply Forall_impl; [exact Hb|]. intros x. apply genuine_more. intros e. by apply move_admitted.
Qed.

(** A thread inside the section of a revocation owes a purge. *)
Lemma held_owed (pc : ConsentPc) (owed : bool) :
  match pc with CIdle => True | CGrant => owed = false | _ => owed = true end ->
  admission_held pc = true -> owed = true.
Proof. by destruct pc. Qed.

(** Every move preserves the invariant, at the cost of one unit of room. *)
Lemma move_inv n v w : Inv (Datatypes.S n) v -> client_move v w -> Inv n w.
Proof.
  intros [Hs Ho Hh Hord Hgen Hk Hrv How Hpc Hor Hr Hb Ht Hba (R1 & R2 & R3 & R4 & R5) Had Hgv Hla] Hm.
  assert (wrap64 (v_gen v) = v_gen v) as Hwg by (apply wrap64_small; lia).
  assert (wrap64 (v_ord v + 1) = v_ord v + 1) as Hwo by (apply wrap64_small; lia).
  pose proof (move_origin v w Hm Hor) as Hor'. pose proof (move_given v w Hm Hgv) as Hgv'.
  destruct Hm as [v qe Hc Hg Hq Hvk|v c Hp Hc|v Hp|v pc' Hp Hpc'|v n' Hp|v n' Hp|v Hp|v g st' pc' Hp Hst Hrs Hpc'|v g st' pc' Hp Hst Hrs|v g Hp|v Hp|v];
    constructor; simpl in *; auto; try lia.
  - (* push *) rewrite app_assoc. apply in_order_snoc; [done|]. intros x Hx. apply Hh, Hord in Hx. lia.
  - intros e He. specialize (Hh e). set_solver.
  - intros e. rewrite elem_of_app, list_elem_of_singleton. intros [He| ->]; [apply Hord in He|]; lia.
  - intros e. rewrite elem_of_app, list_elem_of_singleton. intros [He| ->]; [by apply Hgen|lia].
  - intros e. rewrite elem_of_app, list_elem_of_singleton. intros [He| ->]; [by apply Hk|done].
  - congruence.
  - intros Hcr. eapply Forall_impl; [by apply Hr|]. intros r. apply fresh_more; [done|].
    simpl. intros e He. by apply elem_of_app; left.
  - apply in_order_snoc; [done|]. intros x Hx. apply Hord in Hx. lia.
  - (* revoke *) intros e He. apply Hgen in He. lia.
  - intros _ e He. apply Hgen in He. lia.
  - done.
  - by intros [?|[g ?]].
  - (* bump *) by rewrite Hwg.
  - by rewrite Hwg.
  - by rewrite Hp in Hpc.
  - intros Hcr. rewrite Hp in Hpc. destruct Hcr as [?|[g Hg]]; simpl in *; congruence.
  - (* go *) apply held_owed in Hpc; [|done]. rewrite Hpc. by destruct Hpc' as [?| ->]; [destruct pc'|].
  - intros Hcr. apply held_owed in Hpc; [|done]. destruct Hcr as [?|[g Hg]]; simpl in *; [congruence|].
    subst pc'. by destruct Hpc' as [?|?].
  - (* clear *) rewrite app_nil_r. by apply in_order_app in Ho as (? & _ & _).
  - set_solver.
  - by rewrite Hp in Hpc.
  - intros Hcr. rewrite Hp in Hpc. destruct Hcr as [?|[g Hg]]; simpl in *; congruence.
  - (* discard *) by apply in_order_app in Ho as (_ & ? & _).
  - set_solver.
  - by rewrite Hp in Hpc.
  - intros Hcr. rewrite Hp in Hpc. destruct Hcr as [?|[g Hg]]; simpl in *; congruence.
  - (* ask *) destruct (v_owed v) eqn:E; done.
  - intros Hcr. eapply Forall_impl; [apply Hr|intros r; by apply fresh_more].
    destruct Hcr as [?|[g Hg]]; [by left|]. simpl in Hg. by destruct (v_owed v).
  - (* mark *) destruct Hpc' as [-> | ->]; [|done]. by rewrite Hp in Hpc.
  - intros Hcr. rewrite Hp in Hpc. destruct Hcr as [?|[g' Hg']]; simpl in *; [congruence|].
    destruct Hpc' as [-> | ->]; done.
  - (* purge *) rewrite Hp in Hpc. destruct Hrs as [[-> _]|[-> _]]; done.
  - intros Hcr. rewrite Hp in Hpc. destruct Hrs as [[-> ->]|[-> _]]; [constructor|].
    destruct Hcr as [?|[g' Hg']]; simpl in *; congruence.
  - (* finish *) by destruct g.
  - intros _. eapply Forall_impl; [apply Hr; right; eauto|intros r; by apply fresh_more].
  - (* grant *) intros _. by rewrite Hp in Hpc.
  - intros Hcr. eapply Forall_impl; [apply Hr|intros r; by apply fresh_more].
    left. by rewrite Hp in Hpc.
  - (* submit *) destruct Ht as (T1 & T2 & T3 & T4). rewrite wrap64_small by lia. split; [lia|done].
  - rewrite wrap64_small by (destruct Ht; lia). lia.
Qed.

Lemma inv_weaken n m v : (m <= n)%nat -> Inv n v -> Inv m v.
Proof. intros Hmn [? ? ? ? ? ? ? ? ? ? ? ? ? ? (? & ? & ? & ? & ?) ? ? ?]. constructor; try done. lia. Qed.

Lemma moves_inv n k v w : moves client_move n v w -> Inv (n + k) v -> Inv k w.
Proof.
  intros Hm. induction Hm as [n v|n v1 v2 v3 Hs _ IH]; intros Hi.
  - eapply inv_weaken; [|exact Hi]. lia.
  - apply IH. by eapply move_inv.
Qed.

Lemma moves_stable R n k P v w :
  (forall v w, R v w -> client_move v w) -> StableIn R P ->
  moves R n v w -> Inv (n + k) v -> P (n + k)%nat v -> P k w.
Proof.
  intros HR [HP1 HP2] Hm. induction Hm as [n v|n v1 v2 v3 Hs _ IH]; intros Hi Hv.
  - eapply HP1; [|exact Hv]. lia.
  - apply IH; [eapply move_inv; [done|by apply HR]|]. by eapply (HP2 (n + k)%nat).
Qed.

(** An interleaving point keeps the invariant and every stable assertion. *)
Lemma interleave_holds R step P :
  (forall v w, R v w -> client_move v w) -> (forall a, performs R 2 (step a)) ->
  StableIn R P -> hoare (holds P) (interleave step) (fun _ s => holds P s).
Proof.
  intros HR Hstep HP s [Hi Hv]. destruct (interleave_moves R step s Hstep (inv_sound _ _ Hi)) as (n & Hm & Hn & _).
  unfold holds in *. rewrite <- Hn, <- Nat.add_assoc in Hi, Hv.
  split; [eapply moves_inv; [by eapply moves_mono|done]|]. by eapply moves_stable.
Qed.

Lemma env_holds P : Stable P -> hoare (holds P) env (fun _ s => holds P s).
Proof. intros HP. apply (interleave_holds client_move); [done|apply perform_performs|done]. Qed.

Lemma beside_holds P : StoreStable P -> hoare (holds P) (interleave perform_beside_store) (fun _ s => holds P s).
Proof. intros HP. apply (interleave_holds still_move); [by intros v w [? _]|apply beside_performs|done]. Qed.

(** ** Rules for the worker's steps *)

Lemma holds_shared {A} P (m : M Sy A) Q : Stable P -> hoare (holds P) m Q -> hoare (holds P) (shared m) Q.
Proof. intros HP Hm. eapply hoare_then; [by apply env_holds|]. intros u. exact Hm. Qed.

Lemma holds_storing {A} P (m : M Sy A) Q : StoreStable P -> hoare (holds P) m Q -> hoare (holds P) (storing m) Q.
Proof. intros HP Hm. eapply hoare_then; [by apply beside_holds|]. intros u. exact Hm. Qed.

Lemma holds_frame {A} P (m : M Sy A) : frame m -> hoare (holds P) m (fun _ s => holds P s).
Proof.
  intros Hf s [Hi Hv]. destruct (Hf s) as [Hsh Hsch]. unfold holds, acts_left in *.
  by rewrite Hsh, Hsch.
Qed.

Lemma holds_frame_shared {A} P (m : M Sy A) :
  Stable P -> frame m -> hoare (holds P) (shared m) (fun _ s => holds P s).
Proof. intros HP Hf. apply holds_shared; [done|]. by apply holds_frame. Qed.

(** A read of the shape. *)
Lemma holds_read {A} (P : Assertion) (Q : A -> Assertion) (f : Sy -> A) (g : Shape -> A) :
  (forall s, f s = g (shape s)) ->
  (forall n v, Inv n v -> P n v -> Q (g v) n v) ->
  hoare (holds P) (mget f) (fun a s => holds (Q a) s).
Proof. intros Hf HQ s [Hi Hp]. split; [done|]. simpl. rewrite Hf. by apply HQ. Qed.

(** A step of the worker that rewrites the shape. *)
Lemma holds_step {A} (P : Assertion) (m : M Sy A) (Q : A -> Assertion) :
  (forall s n, Inv n (shape s) -> P n (shape s) ->
     Inv n (shape (snd (m s))) /\ Q (fst (m s)) n (shape (snd (m s)))) ->
  (forall s, schedule (snd (m s)) = schedule s) ->
  hoare (holds P) m (fun a s => holds (Q a) s).
Proof.
  intros Hm Hsch s [Hi Hv]. unfold holds, acts_left. rewrite Hsch. by apply Hm.
Qed.

Lemma holds_weaken (P Q : Assertion) s : (forall n v, Inv n v -> P n v -> Q n v) -> holds P s -> holds Q s.
Proof. intros HPQ [Hi Hp]. split; [done|]. by apply HPQ. Qed.

Lemma holds_pre {A} (P P' : Assertion) (m : M Sy A) Q :
  hoare (holds P') m Q -> (forall n v, Inv n v -> P n v -> P' n v) -> hoare (holds P) m Q.
Proof. intros Hm HP s Hs. apply Hm. by eapply holds_weaken. Qed.

Lemma holds_post {A} (P : Assertion) (Q Q' : A -> Assertion) (m : M Sy A) :
  hoare (holds P) m (fun a s => holds (Q' a) s) -> (forall a n v, Inv n v -> Q' a n v -> Q a n v) ->
  hoare (holds P) m (fun a s => holds (Q a) s).
Proof. intros Hm HQ s Hs. eapply holds_weaken; [|by apply Hm]. intros n v. apply HQ. Qed.

Lemma stable_still P : Stable P -> StoreStable P.
Proof. intros [HP1 HP2]. split; [done|]. intros n v w Hi [Hm _]. by apply HP2. Qed.

Lemma stable_in_and R P Q : StableIn R P -> StableIn R Q -> StableIn R (fun n v => P n v /\ Q n v).
Proof.
  intros [HP1 HP2] [HQ1 HQ2]. split.
  - intros n m v Hm [? ?]. split; [by eapply HP1|by eapply HQ1].
  - intros n v w Hi Hm [? ?]. split; [by eapply HP2|by eapply HQ2].
Qed.

Lemma stable_and P Q : Stable P -> Stable Q -> Stable (fun n v => P n v /\ Q n v).
Proof. apply stable_in_and. Qed.

(** A stable assertion about the shape alone. *)
Lemma stable_shape (P : Shape -> Prop) :
  (forall n v w, Inv (Datatypes.S n) v -> client_move v w -> P v -> P w) -> Stable (fun _ v => P v).
Proof. intros HP. split; [done|]. intros n v w. apply HP. Qed.

Lemma stable_impl (p : Prop) P : Stable P -> Stable (fun n v => p -> P n v).
Proof. intros [HP1 HP2]. split; [intros n m v Hm HP Hp; by eapply HP1, HP|intros n v w Hi Hm HP Hp; by eapply HP2, HP]. Qed.

Lemma stable_pure (p : Prop) : Stable (fun _ _ => p).
Proof. by split. Qed.

(** ** Stable assertions *)

(** A move that takes rows away happens after a revocation. *)
Lemma move_drops n v w :
  Inv (Datatypes.S n) v -> client_move v w -> rows (v_store w) = rows (v_store v) \/
  forall e, e ∈ v_admitted v -> qe_consent_generation e < v_gen w.
Proof.
  intros Hi Hm. destruct Hm as [| | | | | | |v g st' pc' Hp Hst Hr Hpc|v g st' pc' Hp Hst Hr| | |]; simpl; auto.
  right. apply (inv_revoked _ _ Hi). intros Hc. pose proof (inv_owed _ _ Hi Hc) as Ho.
  pose proof (inv_pc _ _ Hi) as Hpc. rewrite Hp in Hpc. congruence.
Qed.

(** The new ordinal of a push is above every ordinal so far. *)
Lemma push_ordinal n v qe :
  Inv (Datatypes.S n) v -> qe_ordinal qe = wrap64 (v_ord v + 1) -> qe_ordinal qe = v_ord v + 1.
Proof. intros Hi Hq. destruct (inv_room _ _ Hi) as (R1 & R2 & _). rewrite Hq. apply wrap64_small. lia. Qed.

Lemma gen_fits n v : Inv n v -> wrap64 (v_gen v) = v_gen v.
Proof. intros Hi. destruct (inv_room _ _ Hi) as (_ & _ & R3 & R4 & _). apply wrap64_small. lia. Qed.

(** A revocation makes every event so far stale. *)
Lemma revoke_gen n v e :
  Inv (Datatypes.S n) v -> e ∈ v_admitted v -> qe_consent_generation e < v_gen v + 1.
Proof. intros Hi He. apply (inv_gen _ _ Hi) in He. lia. Qed.

(** Inside the section of a revocation every event so far is stale. *)
Lemma held_gen n v e :
  Inv n v -> admission_held (v_pc v) = true -> e ∈ v_admitted v -> qe_consent_generation e < v_gen v.
Proof.
  intros Hi Hh. apply (inv_revoked _ _ Hi). intros Hc. pose proof (inv_owed _ _ Hi Hc) as Ho.
  pose proof (held_owed _ _ (inv_pc _ _ Hi) Hh). congruence.
Qed.

(** A waiting event goes on waiting until it is revoked. *)
Lemma move_waiting n v w e :
  Inv (Datatypes.S n) v -> client_move v w -> e ∈ v_admitted v ->
  (e ∈ v_retry v -> e ∈ v_retry w \/ qe_consent_generation e < v_gen w) /\
  (e ∈ v_queue v -> e ∈ v_queue w \/ qe_consent_generation e < v_gen w).
Proof.
  intros Hi Hm He. destruct Hm as [| | | |v m Hp|v m Hp| | | | | |]; simpl; auto.
  - split; [auto|]. intros Hq. left. by apply elem_of_app; left.
  - split; [auto|]. intros _. right. eapply held_gen; [exact Hi|by rewrite Hp|done].
  - split; [|auto]. intros _. right. eapply held_gen; [exact Hi|by rewrite Hp|done].
Qed.

Lemma stable_noretry : Stable (fun _ v => v_retry v = []).
Proof. apply stable_shape. intros n v w _ Hm Hr. by destruct Hm. Qed.

Lemma stable_passes p : Stable (fun _ v => v_passes v = p).
Proof. apply stable_shape. intros n v w _ Hm Hr. by destruct Hm. Qed.

Lemma stable_written w0 : Stable (fun _ v => w0 ∈ v_written v).
Proof. apply stable_shape. intros n v w _ Hm Hr. by rewrite (move_written v w Hm). Qed.

Lemma stable_genuine b : Stable (fun _ v => Forall (genuine v) b).
Proof.
  apply stable_shape. intros n v w _ Hm Hb. eapply Forall_impl; [exact Hb|]. intros x. apply genuine_more.
  intros e. by apply move_admitted.
Qed.

Lemma stable_seq t : Stable (fun _ v => t <= v_seq v).
Proof.
  apply stable_shape. intros n v w Hi Hm Ht. destruct Hm; simpl in *; try done.
  destruct (inv_room _ _ Hi) as (_ & _ & _ & _ & R). destruct (inv_tokens _ _ Hi) as [? _].
  rewrite wrap64_small; lia.
Qed.

Lemma stable_barrier b : Stable (fun _ v => b <= v_barrier v).
Proof. apply stable_shape. intros n v w Hi Hm Ht. destruct Hm; simpl in *; lia. Qed.

Lemma stable_ord b : Stable (fun _ v => b <= v_ord v).
Proof.
  apply stable_shape. intros n v w Hi Hm Ht. destruct Hm as [v qe ? ? Hq ?| | | | | | | | | | |]; simpl in *; try done.
  apply (push_ordinal n v qe Hi) in Hq. lia.
Qed.

Lemma stable_gen g : Stable (fun _ v => g <= v_gen v).
Proof. apply stable_shape. intros n v w Hi Hm Ht. pose proof (move_gen n v w Hi Hm). lia. Qed.

Lemma stable_flight f : Stable (fun _ => Flight f).
Proof.
  apply stable_shape. intros n v w Hi Hm [Ho Hf].
  split; [|intros e He; eapply move_admitted; [exact Hm|by apply Hf]].
  destruct Hm as [v qe Hc Hg Hq Hvk| | | |v m Hp|v m Hp| | | | | |]; simpl; try done.
  - rewrite !app_assoc in *. apply in_order_snoc; [done|]. intros x Hx.
    apply (push_ordinal n v qe Hi) in Hq.
    assert (qe_ordinal x <= v_ord v) as Hx'; [|lia].
    apply (inv_ord _ _ Hi). rewrite !elem_of_app in Hx.
    destruct Hx as [[?|?]|?]; [apply (inv_hist _ _ Hi), elem_of_app; by left|by apply Hf|
      apply (inv_hist _ _ Hi), elem_of_app; by right].
  - rewrite app_nil_r. rewrite app_assoc in Ho. by apply in_order_app in Ho as (? & _ & _).
  - by apply in_order_app in Ho as (_ & ? & _).
Qed.

Lemma stable_usable : Stable (fun _ => Usable).
Proof.
  apply stable_shape. intros n v w _ Hm Hu. unfold Usable in *. by destruct (move_rows v w Hm) as [-> | ->].
Qed.

Lemma stable_noloss f : Stable (fun _ => NoLoss f).
Proof.
  apply stable_shape. intros n v w Hi Hm Hn e He. pose proof (move_gen n v w Hi Hm) as Hg.
  assert (e ∈ v_admitted v -> e ∈ f \/ e ∈ v_retry w \/ e ∈ v_queue w \/ stored e w \/ settled e w) as Hold.
  { intros He'. destruct (Hn e He') as [?|[Hr|[Hq|[Hst|Hse]]]]; auto.
    - destruct (move_waiting n v w e Hi Hm He') as [Hw _]. destruct (Hw Hr); [auto|]. do 4 right. by right; left.
    - destruct (move_waiting n v w e Hi Hm He') as [_ Hw]. destruct (Hw Hq); [auto|]. do 4 right. by right; left.
    - destruct (move_drops n v w Hi Hm) as [Hr|Hr]; [|do 4 right; right; left; by apply Hr].
      do 3 right. left. destruct Hst as (r & ? & ?). exists r. by rewrite Hr.
    - do 4 right. eapply settled_more; [intros e'; by apply move_admitted|by apply move_written|done|done]. }
  destruct Hm; simpl in *; try (by apply Hold).
  apply elem_of_app in He as [He|He]; [by apply Hold|]. right; right; left. by apply elem_of_app; right.
Qed.

Lemma stable_bounded q B f : Stable (Bounded q B f).
Proof.
  unfold Bounded, work. split.
  - intros n m v Hm. destruct (_ <? _)%nat; lia.
  - intros n v w _ Hm Hb.
    assert (length (rows (v_store w)) <= length (rows (v_store v)))%nat as Hr
      by (destruct (move_rows v w Hm) as [-> | ->]; simpl; lia).
    destruct Hm; simpl in *; try (destruct (_ <? _)%nat; lia).
    + rewrite length_app. simpl. destruct (Nat.ltb_spec (length (v_queue v)) q);
        destruct (Nat.ltb_spec (length (v_queue v) + 1) q); lia.
    + destruct (0 <? q)%nat, (_ <? _)%nat; lia.
Qed.

Lemma stable_marked k : Stable (fun _ => Marked k).
Proof.
  destruct (stable_barrier (m_barrier k)) as [_ B2], (stable_seq (m_token k)) as [_ T2],
    (stable_passes (m_passes k)) as [_ P2].
  apply stable_shape. intros n v w Hi Hm (? & ? & ? & Hk). split; [by eapply B2|]. split; [by eapply T2|].
  split; [by eapply P2|]. intros e He. eapply move_admitted; [exact Hm|]. by apply Hk.
Qed.

Lemma stable_good k q B f : Stable (Good k q B f).
Proof.
  destruct (stable_flight f) as [F1 F2], (stable_noloss f) as [N1 N2], stable_usable as [U1 U2],
    (stable_bounded q B f) as [B1 B2], (stable_marked k) as [M1 M2].
  split.
  - intros n m v Hm [Hf Hn Hu Hb Hk]. constructor; [done|done|done| |done]. by eapply B1.
  - intros n v w Hi Hm [Hf Hn Hu Hb Hk].
    constructor; [by eapply F2|by eapply N2|by eapply U2|by eapply B2|by eapply M2].
Qed.

Lemma stable_stale : Stable (fun _ => Stale).
Proof.
  apply stable_shape. intros n v w Hi Hm Hs e He. pose proof (move_gen n v w Hi Hm) as Hg.
  assert (e ∈ v_admitted v -> qe_consent_generation e < v_gen w \/ e ∈ v_queue w) as Hold.
  { intros He'. destruct (Hs e He') as [?|Hq]; [left; lia|].
    destruct (move_waiting n v w e Hi Hm He') as [_ Hw]. destruct (Hw Hq); auto. }
  destruct Hm; simpl in *; try (by apply Hold).
  apply elem_of_app in He as [He|He]; [by apply Hold|]. right. by apply elem_of_app; right.
Qed.

(** While the generation stands, it is current; a revocation makes all stale. *)
Lemma stable_since g : Stable (fun _ => Since g).
Proof.
  destruct stable_stale as [_ S2]. apply stable_shape. intros n v w Hi Hm [Hg|Hs].
  - destruct Hm as [|v c Hp Hc|v Hp| | | | | | | | |]; simpl in *; try (by left).
    + right. intros e He. left. by eapply revoke_gen.
    + left. subst g. exact (gen_fits _ _ Hi).
  - right. by eapply S2.
Qed.

(** The worker has seen that consent is granted: a batch may go to the sink. One
    that goes after a revocation has begun is paid for by that revocation. *)
Definition Cleared (v : Shape) : Prop := v_consent v = Granted \/ v_late v < v_gen v.

Lemma stable_cleared : Stable (fun _ => Cleared).
Proof.
  apply stable_shape. intros n v w Hi Hm Hc. pose proof (move_gen n v w Hi Hm) as Hg. pose proof (inv_late _ _ Hi) as Hl.
  destruct Hc as [Hc|Hc].
  - destruct Hm; simpl in *; try (by left). right. simpl. lia.
  - right. assert (v_late w = v_late v) as -> by (by destruct Hm). lia.
Qed.

(** The insertion boundary: consent is granted and the generation is [g], or a
    revocation that still has to purge has begun. *)
Definition Boundary (g : Z) (v : Shape) : Prop := clean_required v -> v_consent v = Granted /\ v_gen v = g.

(** While the worker holds [store_mutex], a revocation cannot get past its purge. *)
Lemma stable_boundary g : StoreStable (fun _ => Boundary g).
Proof.
  split; [done|]. intros n v w Hi (Hm & _ & Hst) Hb Hc. pose proof (inv_pc _ _ Hi) as Hip.
  assert (forall g', v_pc v <> CDone g') as Hnd.
  { intros g' Hp. rewrite Hp in Hip. destruct Hb as [Hgr _]; [by right; exists g'|].
    pose proof (inv_owed _ _ Hi Hgr). congruence. }
  assert (forall w, v_owed w = v_owed v -> (forall g', v_pc w <> CDone g') -> clean_required w -> clean_required v) as Hsame.
  { intros w' Ho Hnd' [?|[g' ?]]; [left; congruence|by destruct (Hnd' g')]. }
  assert (v_pc v = CBump -> v_owed v = true) as Hbump by (intros Hp; by rewrite Hp in Hip).
  destruct Hm as [v qe| |v Hp|v pc' Hp Hpc'|v m Hp|v m Hp|v Hp|v g' st' pc' Hp|v g' st' pc' Hp ? Hpc'|v g' Hp|v Hp|v]; simpl in *.
  - apply Hsame in Hc; [by apply Hb|done|done].
  - by destruct Hc as [?|[? ?]].
  - destruct Hc as [Hc|[? ?]]; [|done]. simpl in Hc. rewrite Hbump in Hc; done.
  - apply Hsame in Hc; [by apply Hb|done|]. intros g' ?; simpl in *; subst pc'. by destruct Hpc'.
  - apply Hsame in Hc; [by apply Hb|done|done].
  - apply Hsame in Hc; [by apply Hb|done|done].
  - apply Hsame in Hc; [by apply Hb|done|]. intros g' ?; simpl in *. by destruct (v_owed v).
  - destruct Hst as [->|Hst]; [|by rewrite Hp in Hst]. apply Hsame in Hc; [by apply Hb|done|done].
  - destruct Hst as [->|Hst]; [|by rewrite Hp in Hst]. apply Hsame in Hc; [by apply Hb|done|done].
  - by destruct (Hnd g').
  - rewrite Hp in Hip. destruct Hb as [_ ?]; [by left|done].
  - apply Hsame in Hc; [by apply Hb|done|done].
Qed.

(** What a read of the generation gives: one that no event so far exceeds, and the
    current one unless everything is revoked. *)
Definition Read (g : Z) (v : Shape) : Prop :=
  g <= v_gen v /\ (forall e, e ∈ v_admitted v -> qe_consent_generation e <= g) /\
  (v_gen v = g \/ forall e, e ∈ v_admitted v -> qe_consent_generation e < v_gen v).

Lemma read_generation n (s : Sy) : Inv n (shape s) -> Read (consent_generation (pipe s)) (shape s).
Proof.
  intros Hi. destruct (admission_held (consent_pc (impl s))) eqn:Hh.
  - assert (forall e, e ∈ v_admitted (shape s) -> qe_consent_generation e < v_gen (shape s)) as Hr
      by (intros e; by apply (held_gen n)).
    assert (consent_generation (pipe s) <= v_gen (shape s) <= consent_generation (pipe s) + 1) as Hg
      by (simpl; unfold generation_of; destruct (consent_pc (impl s)); lia).
    split; [lia|]. split; [intros e He; specialize (Hr e He); lia|by right].
  - assert (v_gen (shape s) = consent_generation (pipe s)) as <-
      by (simpl; unfold generation_of; by destruct (consent_pc (impl s))).
    split; [done|]. split; [apply (inv_gen _ _ Hi)|by left].
Qed.

Lemma stable_settled b : Stable (fun _ => Settled b).
Proof.
  destruct (stable_ord b) as [_ O2]. apply stable_shape. intros n v w Hi Hm [Hb Hs].
  split; [by eapply O2|]. intros e He Hle.
  assert (e ∈ v_admitted v -> settled e w) as Hold.
  { intros He'. eapply settled_more; [intros e'; by apply move_admitted|by apply move_written|by eapply move_gen|].
    by apply Hs. }
  destruct Hm as [v qe ? ? Hq ?| | | | | | | | | | |]; simpl in *; try (by apply Hold).
  apply elem_of_app in He as [He|He]; [by apply Hold|]. apply list_elem_of_singleton in He as ->.
  apply (push_ordinal n v qe Hi) in Hq. lia.
Qed.

(** Nothing at or below the barrier is queued, held for retry, or stored. *)
Lemma stable_queue_above b : Stable (fun _ v => b <= v_ord v /\ forall e, e ∈ v_queue v -> b < qe_ordinal e).
Proof.
  destruct (stable_ord b) as [_ O2]. apply stable_shape. intros n v w Hi Hm [Hb Hs].
  split; [by eapply O2|]. destruct Hm as [v qe ? ? Hq ?| | | | | | | | | | |]; simpl in *; try done.
  - intros e. rewrite elem_of_app, list_elem_of_singleton. intros [?| ->]; [by apply Hs|].
    apply (push_ordinal n v qe Hi) in Hq. lia.
  - intros e He. by apply not_elem_of_nil in He.
Qed.

Lemma stable_retry_above b : Stable (fun _ v => forall e, e ∈ v_retry v -> b < qe_ordinal e).
Proof.
  apply stable_shape. intros n v w Hi Hm Hs. destruct Hm; simpl in *; try done.
  intros e He. by apply not_elem_of_nil in He.
Qed.

End Invariant.

#[export] Hint Resolve stable_and stable_impl stable_pure stable_noretry stable_passes stable_written stable_genuine stable_seq
  stable_barrier stable_ord stable_gen stable_good stable_stale stable_since stable_settled
  stable_queue_above stable_retry_above stable_cleared : playertrace.
