(* ===== verification/WorkerSpec.v ===== *)
(** The worker is safe and finishes its passes under every schedule.

    Each step of Worker.v is given a triple over the assertions of
    Invariant.v: it keeps the invariant, never loses an event, never keeps a
    revoked one in the store, and never uses more than the work that is left. *)
From S2P Require Import Prelude Types Serializer Validator Queue Ids Session SqlText Sqlite Store StoreSpec StoreIface Pipeline Admission AdmissionSpec Worker Tokens Invariant.

Local Open Scope Z_scope.
Local Open Scope pt_scope.

Section WorkerSpec.
Context {S K : Type} `{!StoreOps S} `{!StoreLaws S} `{!SinkOps K}.
Context (dump : json -> library_call string).
Context (recovered : list Row).
Context (slack : nat).
#[local] Abbreviation Sy := (Sys S K).
#[local] Abbreviation Shape := (@Shape S).
#[local] Abbreviation Inv := (Inv dump recovered).
Context (mk : Mark).
#[local] Abbreviation Good := (Good dump recovered mk).
#[local] Abbreviation holds := (@holds S K _ _ dump recovered slack).
#[local] Abbreviation Stable := (Stable dump recovered).
#[local] Abbreviation NoLoss := (NoLoss dump recovered).
#[local] Abbreviation Genuine b v := (Forall (genuine dump recovered v) b).
#[local] Abbreviation settled := (settled dump recovered).
#[local] Abbreviation Settled := (Settled dump recovered).

(** What the serializer writes can be read back: the payload of a serialized
    event is usable. *)
Context (Hjson : forall qe,
  ok (fst (serialize dump (qe_event qe))) = true -> valid_key (qid qe) ->
  row_event (row_of (record_of qe (snd (serialize dump (qe_event qe))))) <> None).

(** Every event so far is revoked. *)
Definition Revoked (v : Shape) : Prop := forall e, e ∈ v_admitted v -> qe_consent_generation e < v_gen v.

Lemma revoked_stale v : Revoked v -> Stale v.
Proof. intros Hr e He. left. by apply Hr. Qed.

(** * Parts of the shape the worker rewrites *)

Definition v_set_queue (q : list QueuedEvent) (v : Shape) : Shape :=
  mkShape (v_store v) q (v_retry v) (v_consent v) (v_gen v) (v_ord v) (v_owed v) (v_pc v)
    (v_barrier v) (v_admitted v) (v_written v) (v_seq v) (v_passes v) (v_batch v) (v_late v).
Definition v_set_retry (r : list QueuedEvent) (v : Shape) : Shape :=
  mkShape (v_store v) (v_queue v) r (v_consent v) (v_gen v) (v_ord v) (v_owed v) (v_pc v)
    (v_barrier v) (v_admitted v) (v_written v) (v_seq v) (v_passes v) (v_batch v) (v_late v).
Definition v_set_written (w : list (EventBatch * Status)) (late : Z) (v : Shape) : Shape :=
  mkShape (v_store v) (v_queue v) (v_retry v) (v_consent v) (v_gen v) (v_ord v) (v_owed v) (v_pc v)
    (v_barrier v) (v_admitted v) w (v_seq v) (v_passes v) (v_batch v) late.
Definition v_set_passes (p : Z * list (Z * Status)) (v : Shape) : Shape :=
  mkShape (v_store v) (v_queue v) (v_retry v) (v_consent v) (v_gen v) (v_ord v) (v_owed v) (v_pc v)
    (v_barrier v) (v_admitted v) (v_written v) (v_seq v) p (v_batch v) (v_late v).

(** ** The invariant after a rewrite *)

Lemma inv_set_waiting n v q r :
  Inv n v -> in_order (r ++ q) -> (forall e, e ∈ r ++ q -> e ∈ v_admitted v) ->
  Inv n (v_set_queue q (v_set_retry r v)).
Proof. intros [] Ho Hh. by constructor. Qed.

Lemma inv_set_written n v batch st late :
  Inv n v -> Forall (genuine dump recovered v) batch -> late <= v_gen v ->
  Inv n (v_set_written (v_written v ++ [(batch, st)]) late v).
Proof.
  intros [] Hb Hl. constructor; try done. simpl. apply Forall_app. split; [done|]. by apply Forall_singleton.
Qed.

Lemma inv_set_passes n v p : Inv n v -> tokens_wf (v_seq v) p -> Inv n (v_set_passes p v).
Proof. intros [] Hp. by constructor. Qed.

(** A store with other rows, each explained. *)
Lemma inv_set_store n v st :
  Inv n v -> sound st -> Forall (origin dump recovered v) (rows st) ->
  (clean_required v -> Forall (fresh dump recovered v) (rows st)) -> Inv n (v_set_store st v).
Proof. intros [] Hs Ho Hf. by constructor. Qed.

(** A store with fewer rows. *)
Lemma inv_fewer_rows n v st :
  Inv n v -> sound st -> (forall r, r ∈ rows st -> r ∈ rows (v_store v)) -> Inv n (v_set_store st v).
Proof.
  intros Hi Hs Hr. apply inv_set_store; [done|done| |].
  - apply Forall_forall. intros r Hin. pose proof (inv_origin _ _ _ _ Hi) as Ho.
    rewrite Forall_forall in Ho. by apply Ho, Hr.
  - intros Hc. apply Forall_forall. intros r Hin. pose proof (inv_rows _ _ _ _ Hi Hc) as Ho.
    rewrite Forall_forall in Ho. by apply Ho, Hr.
Qed.

(** ** The assertion after a rewrite *)

Lemma good_weaken q B q' B' f n v :
  Good q B f n v -> (B < B' \/ B <= B' /\ q' <= q)%nat -> Good q' B' f n v.
Proof.
  intros [Hf Hn Hu Hb Hmk] HB. constructor; [done|done|done| |done]. unfold Bounded in *.
  destruct (Nat.ltb_spec (length (v_queue v)) q), (Nat.ltb_spec (length (v_queue v)) q'); lia.
Qed.

(** Settled events leave the worker's hands. *)
Lemma good_drop q B f f' n v :
  Good q B f n v -> f' `sublist_of` f -> (forall e, e ∈ f -> e ∈ f' \/ settled e v) -> Good q B f' n v.
Proof.
  intros [[Ho Hf] Hn Hu Hb Hmk] Hsub Hd.
  assert (forall e, e ∈ f' -> e ∈ f) as Hin by (intros e He; by eapply elem_of_sublist).
  constructor; [split| |done| |done].
  - eapply in_order_sublist; [exact Ho|]. apply sublist_app; [done|]. by apply sublist_app.
  - intros e He. by apply Hf, Hin.
  - intros e He. destruct (Hn e He) as [Hef|Hr]; [|by right].
    destruct (Hd e Hef) as [?|?]; [by left|]. by do 4 right.
  - apply sublist_length in Hsub. unfold Bounded, work in *. lia.
Qed.

(** A store with the same rows. *)
Lemma good_same_rows q B f n v st :
  rows st = rows (v_store v) -> Good q B f n v -> Good q B f n (v_set_store st v).
Proof.
  intros Hr [Hf Hn Hu Hb Hmk]. constructor; [done| |by unfold Usable; simpl; rewrite Hr| |done].
  - intros e He. destruct (Hn e He) as [?|[?|[?|[Hst|?]]]]; auto. do 3 right. left.
    destruct Hst as (r & ? & ?). exists r. simpl. by rewrite Hr.
  - unfold Bounded, work in *. simpl. by rewrite Hr.
Qed.

(** The purge of a stale store. *)
Lemma good_purged q B n v st :
  Good q B [] n v -> Stale v -> rows st = [] -> Good q B [] n (v_set_store st v).
Proof.
  intros [Hf Hn Hu Hb Hmk] Hs Hr. constructor; [done| |by unfold Usable; simpl; rewrite Hr| |done].
  - intros e He. destruct (Hs e He) as [Hg|Hq]; [do 4 right; right; by left|do 2 right; by left].
  - unfold Bounded, work in *. simpl. rewrite Hr. simpl. lia.
Qed.

(** * Steps *)

(** Taking a batch from the queue. *)
Lemma pop_batch_shape (s : Sy) :
  0 <= v_batch (shape s) ->
  let k := Z.to_nat (v_batch (shape s)) in
  fst (pop_batch s) = take k (v_queue (shape s)) /\
  shape (snd (pop_batch s)) = v_set_queue (drop k (v_queue (shape s))) (shape s) /\
  schedule (snd (pop_batch s)) = schedule s.
Proof.
  intros Hb k. unfold pop_batch. rewrite mget_then. unfold with_queue.
  rewrite (pop_wait_spec (queue (pipe s)) _ []) by done. done.
Qed.

Lemma pop_batch_ok q B :
  hoare (holds (Good q B [])) (shared pop_batch)
    (fun out s => holds (fun n v => if bool_decide (out = []) then Good q B [] n v
                                    else Good 0 (B - 1) out n v) s).
Proof.
  clear Hjson.
  apply holds_shared; [auto with playertrace|]. apply holds_step.
  - intros s n Hi [[Ho Hf] Hn Hu Hb Hmk]. destruct (pop_batch_shape s (inv_batch _ _ _ _ Hi)) as (-> & -> & _).
    set (k := Z.to_nat _). pose proof (take_drop k (v_queue (shape s))) as Htd.
    set (out := take k _) in *. set (rest := drop k _) in *. simpl in Ho. split.
    + apply (inv_set_waiting n (shape s) rest (v_retry (shape s))); [done| |].
      * eapply in_order_sublist; [exact Ho|]. apply sublist_app; [done|]. apply sublist_drop.
      * intros e He. apply (inv_hist _ _ _ _ Hi). rewrite <- Htd. set_solver.
    + assert (Flight out (v_set_queue rest (shape s))) as Hfl.
      { split; simpl; [by rewrite Htd|]. intros e He. apply (inv_hist _ _ _ _ Hi). rewrite <- Htd. set_solver. }
      assert (NoLoss out (v_set_queue rest (shape s))) as Hnl.
      { intros e He. destruct (Hn e He) as [Hx|[Hr|[Hq|Hst]]]; [by apply not_elem_of_nil in Hx|auto| |auto].
        rewrite <- Htd, elem_of_app in Hq. destruct Hq; auto. }
      assert (length (v_queue (shape s)) = length out + length rest)%nat as Hlen
        by (by rewrite <- Htd, length_app).
      case_bool_decide as Hout; (constructor; [|by rewrite ?Hout in Hnl|done| |done]).
      * by rewrite Hout in Hfl.
      * unfold Bounded, work in *. simpl in *. rewrite Hout in Hlen. simpl in Hlen. by rewrite <- Hlen.
      * done.
      * assert (length out <> 0%nat) by (by destruct out).
        unfold Bounded, work in *. simpl in *. destruct (_ <? q)%nat; lia.
  - intros s. unfold pop_batch, with_queue. rewrite mget_then. by destruct (pop_wait _ _ _) as [[? ?] ?].
Qed.

(** Taking what an earlier pass held back. *)
Lemma take_retry_ok q B f :
  hoare (holds (Good q B f)) (shared take_retry)
    (fun held s => holds (fun n v => Good q B (held ++ f) n v /\ v_retry v = []) s).
Proof.
  apply holds_shared; [auto with playertrace|]. apply holds_step; [|done].
  intros s n Hi [[Ho Hf] Hn Hu Hb Hmk]. simpl. split.
  - apply (inv_set_waiting n (shape s) (v_queue (shape s)) []); [done| |].
    + apply in_order_app in Ho as (_ & Ho & _). by apply in_order_app in Ho as (_ & ? & _).
    + intros e He. apply (inv_hist _ _ _ _ Hi), elem_of_app. by right.
  - split; [|done]. constructor; [split; simpl| |done| |done].
    + by rewrite <- app_assoc.
    + intros e. rewrite elem_of_app. intros [He|He]; [|by apply Hf].
      apply (inv_hist _ _ _ _ Hi), elem_of_app. by left.
    + intros e He. destruct (Hn e He) as [Hx|[Hr|Hq]]; [left|left|by do 2 right]; apply elem_of_app; auto.
    + unfold Bounded, work in *. simpl in *. rewrite length_app. lia.
Qed.

(** Holding a batch back: nothing else is held. *)
Lemma hold_for_retry_ok q B f :
  hoare (holds (fun n v => Good q B f n v /\ v_retry v = [])) (shared (hold_for_retry f))
    (fun _ s => holds (Good q B []) s).
Proof.
  apply holds_shared; [auto with playertrace|]. apply (holds_step _ _ _ _ _ (fun _ => Good q B [])).
  - intros s n Hi [[[Ho Hf] Hn Hu Hb Hmk] Hr]. rewrite Hr in Ho. simpl in Ho.
    assert (shape (snd (hold_for_retry f s)) = v_set_retry f (shape s)) as ->.
    { simpl in Hr. destruct f as [|e f']; unfold shape, v_set_retry; simpl; by rewrite Hr. }
    split.
    + apply (inv_set_waiting n (shape s) (v_queue (shape s)) f); [done|done|].
      intros e. rewrite elem_of_app. intros [He|He]; [by apply Hf|].
      apply (inv_hist _ _ _ _ Hi), elem_of_app. by right.
    + constructor; [split; simpl; [done|intros e He; by apply not_elem_of_nil in He]| |done| |done].
      * intros e He. destruct (Hn e He) as [Hx|[Hx|Hq]]; [by right; left| |by do 2 right].
        rewrite Hr in Hx. by apply not_elem_of_nil in Hx.
      * unfold Bounded, work in *. rewrite Hr in Hb. simpl in *. lia.
  - intros s. by destruct f.
Qed.

(** ** Storing a batch *)

Lemma has_id_inj a b r : has_id a r = true -> has_id b r = true -> a = b.
Proof.
  unfold has_id. destruct (row_event_id r); try done. intros Ha%bool_decide_eq_true_1 Hb%bool_decide_eq_true_1.
  congruence.
Qed.

Lemma has_id_row_of x : has_id (sr_event_id x) (row_of x) = true.
Proof. by apply bool_decide_eq_true_2. Qed.

Lemma insert_all_elem recs l r :
  r ∈ foldl insert_one l recs -> r ∈ l \/ exists x, x ∈ recs /\ r = row_of x.
Proof.
  revert l. induction recs as [|x recs IH]; intros l; simpl; [by left|]. intros Hr.
  destruct (IH _ Hr) as [Hin|(y & Hy & ->)]; [|right; exists y; split; [by right|done]].
  unfold insert_one, insert_or_ignore in Hin. destruct (existsb _ _); [by left|].
  apply elem_of_app in Hin as [?|Hin]; [by left|]. apply list_elem_of_singleton in Hin as ->.
  right. exists x. split; [by left|done].
Qed.

Lemma insert_all_keeps recs l r : r ∈ l -> r ∈ foldl insert_one l recs.
Proof.
  revert l. induction recs as [|x recs IH]; intros l Hr; simpl; [done|]. apply IH.
  unfold insert_one, insert_or_ignore. destruct (existsb _ _); [done|]. by apply elem_of_app; left.
Qed.

Lemma insert_all_covers recs l x :
  x ∈ recs -> exists r, r ∈ foldl insert_one l recs /\ has_id (sr_event_id x) r = true.
Proof.
  revert l. induction recs as [|y recs IH]; intros l; [by intros ?%not_elem_of_nil|].
  intros [->|Hx]%elem_of_cons; simpl; [|by apply IH].
  assert (exists r, r ∈ insert_one l y /\ has_id (sr_event_id y) r = true) as (r & Hr & Hid).
  { unfold insert_one, insert_or_ignore. destruct (existsb _ _) eqn:E.
    - apply existsb_exists in E as (r & Hr%list_elem_of_In & Hid). by exists r.
    - exists (row_of y). split; [by apply elem_of_app; right; left|apply has_id_row_of]. }
  exists r. split; [by apply insert_all_keeps|done].
Qed.

Lemma insert_all_length recs l : (length (foldl insert_one l recs) <= length l + length recs)%nat.
Proof.
  revert l. induction recs as [|x recs IH]; intros l; simpl; [lia|]. specialize (IH (insert_one l x)).
  assert (length (insert_one l x) <= length l + 1)%nat; [|lia].
  unfold insert_one, insert_or_ignore. destruct (existsb _ _); [lia|]. by rewrite length_app.
Qed.

(** An event that is kept, with its record. *)
Definition Kept (g : Z) (k : QueuedEvent * StoredRecord) : Prop :=
  qe_consent_generation (fst k) = g /\ ok (fst (serialize dump (qe_event (fst k)))) = true /\
  snd k = record_of (fst k) (snd (serialize dump (qe_event (fst k)))).

Lemma kept_row n v g k :
  Inv n v -> Kept g k -> fst k ∈ v_admitted v ->
  row_for dump (fst k) (row_of (snd k)) /\ valid_record (snd k) /\ row_event (row_of (snd k)) <> None.
Proof.
  intros Hi (Hg & Hok & ->) Hin. split; [|split].
  - split; [apply (has_id_row_of (record_of _ _))|]. split; [|done]. simpl. apply (inv_ord _ _ _ _ Hi) in Hin.
    destruct (inv_room _ _ _ _ Hi) as (R1 & R2 & _). unfold to_int64. rewrite Z.mod_small; lia.
  - by apply (inv_keys _ _ _ _ Hi).
  - apply Hjson; [done|]. by apply (inv_keys _ _ _ _ Hi).
Qed.

(** The store after the insertion: explained, usable, and nothing is lost. *)
Lemma inserted_good q B g kept n v st :
  Inv n v -> Good q B (fst <$> kept) n v -> v_retry v = [] -> Forall (Kept g) kept ->
  Boundary g v -> sound st ->
  rows st = foldl insert_one (rows (v_store v)) (snd <$> kept) ->
  Inv n (v_set_store st v) /\ Good q B [] n (v_set_store st v).
Proof.
  intros Hi [[Ho Hf] Hn Hu Hb Hmk] Hr Hk Hbo Hs Hrows.
  assert (forall k, k ∈ kept -> Kept g k /\ fst k ∈ v_admitted v) as Hkept.
  { intros k Hin. rewrite Forall_forall in Hk. split; [by apply Hk|]. apply Hf, list_elem_of_fmap. eauto. }
  assert (forall r, r ∈ rows st -> r ∈ rows (v_store v) \/
    exists k, k ∈ kept /\ r = row_of (snd k)) as Helem.
  { intros r Hin. rewrite Hrows in Hin. apply insert_all_elem in Hin as [?|(x & Hx & ->)]; [by left|].
    apply list_elem_of_fmap in Hx as (k & -> & Hin). right. eauto. }
  assert (Inv n (v_set_store st v)) as Hi'.
  { apply inv_set_store; [done|done| |].
    - apply Forall_forall. intros r [Hin|(k & Hin & ->)]%Helem.
      + pose proof (inv_origin _ _ _ _ Hi) as Hor. rewrite Forall_forall in Hor. by apply Hor.
      + destruct (Hkept k Hin) as [HK Ha]. left. exists (fst k). split; [done|]. by eapply kept_row.
    - intros Hcr. apply Forall_forall. intros r [Hin|(k & Hin & ->)]%Helem.
      + pose proof (inv_rows _ _ _ _ Hi Hcr) as Hor. rewrite Forall_forall in Hor. by apply Hor.
      + destruct (Hkept k Hin) as [HK Ha]. left. exists (fst k). split; [done|].
        destruct (Hbo Hcr) as [_ Hg]. split; [simpl; rewrite Hg; apply HK|]. by eapply kept_row. }
  split; [done|]. constructor; [| | | |done].
  - split; [|intros e He; by apply not_elem_of_nil in He]. eapply in_order_sublist; [exact Ho|]. simpl.
    apply sublist_app; [done|]. apply sublist_inserts_l. done.
  - intros e He. destruct (Hn e He) as [Hx|[Hx|[Hx|[Hx|Hx]]]]; [|auto|auto| |auto].
    + apply list_elem_of_fmap in Hx as (k & -> & Hin).
      destruct (insert_all_covers (snd <$> kept) (rows (v_store v)) (snd k)) as (r & Hin' & Hid);
        [apply list_elem_of_fmap; eauto|]. rewrite <- Hrows in Hin'.
      destruct (Hkept k Hin) as [(_ & _ & Hrec) Ha]. rewrite Hrec in Hid. simpl in Hid.
      pose proof (inv_origin _ _ _ _ Hi') as Hor. rewrite Forall_forall in Hor.
      destruct (Hor r Hin') as [(e' & He' & Hrf)|Hrec']; [|do 4 right; do 3 right; right; by exists r].
      destruct (decide (qe_ordinal e' = qe_ordinal (fst k))) as [Heq|Hne].
      { do 3 right. left. exists r. split; [done|].
        by rewrite <- (in_order_inj (v_admitted v) e' (fst k) (inv_admitted _ _ _ _ Hi) He' Ha Heq). }
      do 4 right. do 3 right. left. exists e'. split; [done|]. split; [|done]. destruct Hrf as [Hid' _]. by eapply has_id_inj.
    + do 3 right. left. destruct Hx as (r & Hin & Hrf). exists r. split; [|done]. simpl. rewrite Hrows.
      by apply insert_all_keeps.
  - apply Forall_forall. intros r [Hin|(k & Hin & ->)]%Helem.
    + unfold Usable in Hu. rewrite Forall_forall in Hu. by apply Hu.
    + destruct (Hkept k Hin) as [HK Ha]. by eapply kept_row.
  - unfold Bounded, work in *. simpl in *. rewrite Hrows.
    pose proof (insert_all_length (snd <$> kept) (rows (v_store v))) as Hl.
    rewrite length_fmap in Hb. rewrite !length_fmap in Hl. lia.
Qed.

(** A store operation of the worker, from its law. *)
Lemma with_store_ok {A} (P : nat -> Shape -> Prop) (Q : A -> nat -> Shape -> Prop) (m : M S A) :
  (forall n v, Inv n v -> P n v ->
     let '(a, st) := m (v_store v) in Inv n (v_set_store st v) /\ Q a n (v_set_store st v)) ->
  hoare (holds P) (with_store m) (fun a s => holds (Q a) s).
Proof.
  intros Hm. apply holds_step; [|intros s; apply with_store_shape].
  intros s n Hi HP. destruct (with_store_shape m s) as (-> & _ & ->). specialize (Hm n (shape s) Hi HP).
  simpl in Hm. by destruct (m (store (pipe s))).
Qed.

(** ** The final consent boundary *)

(** Consent was granted when [store_mutex] was taken. *)
#[local] Abbreviation Consented := (fun (_ : nat) (v : Shape) => exists g, Boundary g v).

Lemma stable_consented : Invariant.StoreStable dump recovered Consented.
Proof.
  split; [done|]. intros n v w Hi Hm [g Hb]. exists g.
  destruct (stable_boundary dump recovered g) as [_ HP]. by eapply (HP n v w).
Qed.

(** An event of the batch that was refused at the boundary is revoked. *)
Lemma refused_good q B g kept n v :
  Good q B (fst <$> kept) n v -> Forall (Kept g) kept ->
  (forall e, e ∈ v_admitted v -> qe_consent_generation e = g -> qe_consent_generation e < v_gen v) ->
  Good q B [] n v.
Proof.
  intros HG Hk Hrev. apply (good_drop q B (fst <$> kept)); [done|apply sublist_nil_l|].
  intros e He. right. right; left. apply Hrev; [by apply (good_flight _ _ _ _ _ _ _ _ HG)|].
  apply list_elem_of_fmap in He as (k & -> & Hin). rewrite Forall_forall in Hk. by destruct (Hk k Hin).
Qed.

(** The insertion itself. *)
Lemma insert_ok q B g kept :
  Forall (Kept g) kept ->
  hoare (holds (fun n v => (Good q B (fst <$> kept) n v /\ v_retry v = []) /\ Boundary g v))
    (with_store (store_insert (snd <$> kept)))
    (fun st s => holds (fun n v =>
       if ok st then Good q B [] n v else Good q B (fst <$> kept) n v /\ v_retry v = []) s).
Proof.
  intros Hk. apply with_store_ok. intros n v Hi [[HG Hr] Hb].
  pose proof (law_insert (snd <$> kept) (v_store v) (inv_sound _ _ _ _ Hi)) as Hl.
  destruct (store_insert (snd <$> kept) (v_store v)) as [st st']. destruct Hl as (Hs & _ & Hrows).
  { apply Forall_fmap, Forall_forall. intros k Hin. rewrite Forall_forall in Hk. eapply kept_row; [done|by apply Hk|].
    apply (good_flight _ _ _ _ _ _ _ _ HG), list_elem_of_fmap. eauto. }
  destruct (ok st); [by eapply inserted_good|].
  split; [by apply inv_fewer_rows; [| |rewrite Hrows]|]. split; [|done]. by apply good_same_rows.
Qed.

Lemma insert_at_boundary_ok q B g kept :
  Forall (Kept g) kept ->
  hoare (holds (fun n v => Good q B (fst <$> kept) n v /\ v_retry v = []))
    (shared (insert_at_boundary g (snd <$> kept)))
    (fun r s => holds (fun n v =>
       match r with
       | None => Good q B [] n v
       | Some st => if ok st then Good q B [] n v else Good q B (fst <$> kept) n v /\ v_retry v = []
       end) s).
Proof.
  intros Hk. apply holds_shared; [auto with playertrace|]. unfold insert_at_boundary.
  (* the consent is read under [store_mutex] *)
  eapply (hoare_then _ (fun con s => holds (fun n v => (Good q B (fst <$> kept) n v /\ v_retry v = []) /\
    if bool_decide (con = Granted) then Consented n v else Revoked v) s)).
  { apply (holds_read _ _ _ _ _ _ v_consent); [done|]. intros n v Hi HG. split; [done|].
    case_bool_decide as Hc; [by exists (v_gen v)|]. exact (inv_revoked _ _ _ _ Hi Hc). }
  intros con. destruct (bool_decide (con = Granted)); simpl.
  2:{ apply hoare_return. intros s. apply holds_weaken. intros n v _ [[HG _] Hrev]. eapply refused_good; [done..|]. auto. }
  (* then the generation *)
  eapply (hoare_then _ (fun gen s => holds (fun n v => (Good q B (fst <$> kept) n v /\ v_retry v = []) /\
    if gen =? g then Boundary g v else Good q B [] n v) s)).
  { apply holds_storing; [apply stable_in_and; [apply stable_still; auto with playertrace|apply stable_consented]|].
    intros s [Hi [[HG Hr] [g' Hb]]]. split; [done|]. split; [done|]. simpl.
    pose proof (read_generation _ _ _ _ Hi) as (Hle & Hmax & Hor).
    destruct (Z.eqb_spec (consent_generation (pipe s)) g) as [Heq|Hne].
    - intros Hcl. destruct (Hb Hcl) as [Hgr _]. split; [done|]. pose proof (inv_owed _ _ _ _ Hi Hgr) as Ho.
      simpl in *. unfold generation_of, owed_of in *. by destruct (consent_pc (impl s)).
    - eapply refused_good; [exact HG|done|]. intros e He Hge. specialize (Hmax e He).
      destruct Hor as [Hor|Hor]; [lia|by apply Hor]. }
  intros gen. destruct (gen =? g); simpl.
  2:{ apply hoare_return. intros s. apply holds_weaken. by intros n v _ [_ ?]. }
  eapply hoare_then; [apply holds_storing; [|by apply insert_ok]|intros st; apply hoare_return; by intros s].
  apply stable_in_and; [apply stable_still; auto with playertrace|apply stable_boundary].
Qed.

Lemma frame_note_error st : frame (@note_error S K st).
Proof.
  apply frame_then; [apply frame_report_error|]. intros _. apply frame_put. intros s.
  unfold on_core, set_core, shape. simpl. by destruct (ok _).
Qed.

(** Steps that leave the shape alone. *)
Lemma then_frame {A B} P (m : M Sy A) (k : A -> M Sy B) Q :
  frame m -> (forall a, hoare (holds P) (k a) Q) -> hoare (holds P) (mthen m k) Q.
Proof. intros Hf Hk. eapply hoare_then; [by apply holds_frame|]. exact Hk. Qed.

Lemma then_shared_frame {A B} P (m : M Sy A) (k : A -> M Sy B) Q :
  Stable P -> frame m -> (forall a, hoare (holds P) (k a) Q) -> hoare (holds P) (mthen (shared m) k) Q.
Proof. intros HP Hf Hk. eapply hoare_then; [by apply holds_frame_shared|]. exact Hk. Qed.

(** [WorkerCore::purge_store], called only when the stored events are stale. *)
Lemma purge_store_ok q B :
  hoare (holds (fun n v => Good q B [] n v /\ Stale v)) purge_store (fun _ s => holds (Good q B []) s).
Proof.
  unfold purge_store. eapply (hoare_then _ (fun _ s => holds (Good q B []) s)).
  - apply holds_shared; [auto with playertrace|]. apply with_store_ok.
    intros n v Hi [HG Hs]. unfold purge_and_count, mthen.
    pose proof (law_purge (v_store v) (inv_sound _ _ _ _ Hi)) as Hl.
    destruct (store_purge_and_clear_revocation (v_store v)) as [[st d] st1]. destruct Hl as [Hs1 Hl].
    destruct (ok st); simpl.
    + pose proof (law_count st1 Hs1) as Hcn. destruct (store_count st1) as [[c m] st2].
      destruct Hcn as (Hs2 & _ & Hr2 & _). destruct Hl as [Hr1 _].
      split; [|apply good_purged; [done|done|congruence]]. apply inv_fewer_rows; [done|done|].
      intros r Hin. rewrite Hr2, Hr1 in Hin. by apply not_elem_of_nil in Hin.
    + destruct Hl as [Hr1 _]. split; [|by apply good_same_rows].
      apply inv_fewer_rows; [done|done|]. by rewrite Hr1.
  - intros [purged remaining]. destruct (ok purged); simpl; apply holds_frame_shared; auto with playertrace;
      [apply frame_reset_outstanding|apply frame_note_error].
Qed.

(** The consent the worker reads: unless it is granted, everything is stale. *)
Lemma get_consent_clears P :
  Stable P ->
  hoare (holds P) (shared get_consent)
    (fun con s => holds (fun n v => P n v /\ (con <> Granted -> Revoked v) /\ (con = Granted -> Cleared v)) s).
Proof.
  intros HP. apply holds_shared; [done|]. apply (holds_read _ _ _ _ _ _ v_consent); [done|].
  intros n v Hi Hp. split; [done|]. split; [exact (inv_revoked _ _ _ _ Hi)|by left].
Qed.

Lemma get_consent_ok P :
  Stable P ->
  hoare (holds P) (shared get_consent)
    (fun con s => holds (fun n v => P n v /\ (con <> Granted -> Revoked v)) s).
Proof. intros HP. eapply holds_post; [by apply get_consent_clears|]. by intros con n v _ (? & ? & _). Qed.

(** The generation the worker reads. *)
Lemma get_generation_ok P :
  Stable P ->
  hoare (holds P) (shared get_generation) (fun g s => holds (fun n v => P n v /\ Read g v) s).
Proof.
  intros HP. apply holds_shared; [done|]. intros s [Hi Hp]. split; [done|]. split; [done|]. by eapply read_generation.
Qed.

Lemma read_since g (v : Shape) : Read g v -> Since g v.
Proof. intros (_ & _ & [?|?]); [by left|right; by apply revoked_stale]. Qed.

(** The loop over the batch. *)
Lemma keep_loop_ok q B g acc batch :
  (forall e, e ∈ batch -> qe_consent_generation e <= g) ->
  hoare (holds (fun n v => (Good q B (acc ++ batch) n v /\ v_retry v = []) /\ g <= v_gen v))
    (keep_loop dump g batch)
    (fun kept s => Forall (Kept g) kept /\
       holds (fun n v => Good q B (acc ++ (fst <$> kept)) n v /\ v_retry v = []) s).
Proof.
  revert acc. induction batch as [|qe batch IH]; intros acc Hg; cbn [keep_loop].
  { apply hoare_return. intros s Hs. split; [constructor|]. eapply holds_weaken; [|exact Hs]. by intros n v _ [? _]. }
  assert (forall e, e ∈ batch -> qe_consent_generation e <= g) as Hg' by (intros e He; apply Hg; by right).
  assert (forall n v, Good q B (acc ++ qe :: batch) n v -> settled qe v -> Good q B (acc ++ batch) n v) as Hdrop.
  { intros n v HG Hs. eapply good_drop; [exact HG|by apply sublist_app, sublist_cons|].
    intros e. rewrite !elem_of_app, elem_of_cons. intros [?|[->|?]]; auto. }
  destruct (Z.eqb_spec (qe_consent_generation qe) g) as [Heq|Hne]; simpl.
  - destruct (serialize dump (qe_event qe)) as [st payload] eqn:Hse. destruct (ok st) eqn:Hok; simpl.
    + eapply (hoare_then _ (fun kept s => Forall (Kept g) kept /\
        holds (fun n v => Good q B ((acc ++ [qe]) ++ (fst <$> kept)) n v /\ v_retry v = []) s)).
      * eapply hoare_pre; [by apply (IH (acc ++ [qe]))|]. intros s. by rewrite <- app_assoc.
      * intros kept. apply hoare_return. intros s [Hk Hs]. rewrite fmap_cons. simpl.
        rewrite <- app_assoc in Hs. split; [|done]. constructor; [|done].
        split; [done|]. simpl. by rewrite Hse.
    + eapply (holds_pre _ _ _ _ (fun n v => (Good q B (acc ++ batch) n v /\ v_retry v = []) /\ g <= v_gen v)).
      * apply then_frame; [apply frame_report_error|]. intros _. apply then_frame; [apply frame_upd_stats|]. intros _.
        apply then_shared_frame; [auto with playertrace|apply frame_release_outstanding|]. intros _. by apply IH.
      * intros n v _ [[HG ?] ?]. split; [|done]. split; [|done]. apply Hdrop; [done|]. do 2 right. left.
        unfold hopeless. by rewrite Hse.
  - eapply (holds_pre _ _ _ _ (fun n v => (Good q B (acc ++ batch) n v /\ v_retry v = []) /\ g <= v_gen v)).
    + apply then_frame; [apply frame_upd_stats|]. intros _.
      apply then_shared_frame; [auto with playertrace|apply frame_release_outstanding|]. intros _. by apply IH.
    + intros n v _ [[HG ?] ?]. split; [|done]. split; [|done]. apply Hdrop; [done|]. right; left.
      assert (qe_consent_generation qe <= g) by (apply Hg; by left). lia.
Qed.

Lemma holds_fact {A} (p : Prop) P (m : M Sy A) Q :
  (p -> hoare (holds P) m Q) -> hoare (holds (fun n v => p /\ P n v)) m Q.
Proof. intros Hm s [Hi [Hp HP]]. by apply Hm. Qed.

(** [WorkerCore::process_incoming]: the batch is stored, held back or settled. *)
Lemma process_incoming_ok q B drained :
  hoare (holds (Good q B drained)) (process_incoming dump drained) (fun _ s => holds (Good q B []) s).
Proof.
  unfold process_incoming. eapply hoare_then; [apply take_retry_ok|]. intros held. simpl.
  destruct (held ++ drained) as [|e0 rest] eqn:Hbatch.
  { apply hoare_return. intros s. apply holds_weaken. by intros n v _ [? _]. }
  rewrite <- Hbatch. clear Hbatch. set (batch := held ++ drained).
  eapply hoare_then; [apply get_generation_ok; auto with playertrace|]. intros g. simpl.
  (* the generations of the batch, and the generation as a lower bound *)
  eapply (hoare_pre _ (fun s => (forall e, e ∈ batch -> qe_consent_generation e <= g) /\
     holds (fun n v => (Good q B batch n v /\ v_retry v = []) /\ g <= v_gen v) s)).
  2:{ intros s [Hi [[HG Hr] (Hle & Hmax & _)]]. split; [|done]. intros e He.
      apply Hmax. by apply (good_flight _ _ _ _ _ _ _ _ HG). }
  apply hoare_given. intros Hgens.
  eapply hoare_then; [apply get_consent_ok; auto with playertrace|]. intros con. simpl.
  destruct (bool_decide (con = Granted)) eqn:Hcon; simpl.
  - eapply (hoare_then _ (fun kept s => Forall (Kept g) kept /\
      holds (fun n v => Good q B (fst <$> kept) n v /\ v_retry v = []) s)).
    { eapply holds_pre; [by apply (keep_loop_ok q B g [] batch)|]. by intros n v _ [? _]. }
    intros kept. apply hoare_given. intros Hk. destruct kept as [|k0 kept'].
    { apply hoare_return. intros s. apply holds_weaken. by intros n v _ [? _]. }
    set (kept := k0 :: kept') in *. eapply hoare_then; [by apply insert_at_boundary_ok|].
    intros [st|]; simpl.
    + destruct (ok st); simpl.
      * apply holds_frame, frame_upd_stats.
      * apply then_shared_frame; [auto with playertrace|apply frame_note_error|]. intros _. apply hold_for_retry_ok.
    + apply then_frame; [apply frame_upd_stats|]. intros _.
      apply holds_frame_shared; [auto with playertrace|apply frame_release_outstanding].
  - apply bool_decide_eq_false_1 in Hcon.
    eapply (holds_pre _ _ _ _ (fun n v => Good q B [] n v /\ Stale v)).
    + apply then_frame; [apply frame_upd_stats|]. intros _.
      apply then_shared_frame; [auto with playertrace|apply frame_release_outstanding|]. intros _.
      apply purge_store_ok.
    + intros n v Hi [[[HG Hr] _] Hst]. specialize (Hst Hcon). split; [|by apply revoked_stale].
      eapply good_drop; [exact HG|apply sublist_nil_l|]. intros e He. right; right; left. apply Hst.
      by apply (good_flight _ _ _ _ _ _ _ _ HG).
Qed.

(** ** Delivery *)

(** The sink took a batch: nothing else changes. *)
Lemma good_set_written q B f n v x late :
  Good q B f n v -> Good q B f n (v_set_written (v_written v ++ [x]) late v).
Proof.
  intros [Hf Hn Hu Hb Hmk]. constructor; [done| |done|done|done].
  intros e He. destruct (Hn e He) as [?|[?|[?|[?|[Hs|?]]]]]; auto; do 4 right; [left|by right].
  destruct Hs as (b & st & Hin & ?). exists b, st. split; [|done]. by apply elem_of_app; left.
Qed.

(** The configured batch size. *)
Lemma batch_size_ok P :
  hoare (holds P) (mget (fun s => cfg_batch_size (config (pipe s)))) (fun z s => 0 <= z /\ holds P s).
Proof. intros s [Hi Hp]. split; [apply (inv_batch _ _ _ _ Hi)|done]. Qed.

(** Fetching changes nothing, as every row is usable, and gives genuine events. *)
Lemma fetch_ok q B size :
  0 <= size ->
  hoare (holds (Good q B [])) (shared (with_store (store_fetch_pending size)))
    (fun r s => holds (fun n v => Good q B [] n v /\ Genuine (fr_events r) v) s).
Proof.
  intros Hz. apply holds_shared; [auto with playertrace|].
  apply (with_store_ok _ (fun r n v => Good q B [] n v /\ Genuine (fr_events r) v)). intros n v Hi HG.
  pose proof (law_fetch size (v_store v) (inv_sound _ _ _ _ Hi) Hz) as Hl.
  destruct (store_fetch_pending size (v_store v)) as [r st]. destruct Hl as (Hs & _ & sorted & k & Hp & _ & _ & Hev & Hl).
  assert (rows st = rows (v_store v)) as Hr.
  { destruct Hl as [_ [[_ Hr]|(Hq & Hn & _)]]; [done|]. exfalso.
    destruct (filter (fun x => row_event x = None) (take k sorted)) as [|x l] eqn:Hbad;
      [rewrite vsize_nil in Hn; lia|].
    assert (x ∈ x :: l) as Hx by (by left). rewrite <- Hbad in Hx. apply list_elem_of_filter in Hx as [Hx Hin].
    apply subseteq_take in Hin. rewrite Hp in Hin.
    pose proof (good_usable _ _ _ _ _ _ _ _ HG) as Hu. unfold Usable in Hu. rewrite Forall_forall in Hu.
    by apply (Hu x Hin). }
  split; [apply inv_fewer_rows; [done|done|]; by rewrite Hr|]. split; [by apply good_same_rows|].
  apply Forall_forall. intros x Hx. rewrite Hev in Hx. apply list_elem_of_omap in Hx as (row & Hin & Hx).
  apply subseteq_take in Hin. rewrite Hp in Hin.
  pose proof (inv_origin _ _ _ _ Hi) as Hor. rewrite Forall_forall in Hor. by apply (origin_genuine dump recovered v row x (Hor row Hin)).
Qed.

(** The sink either refuses a batch or has it in its history. *)
Lemma safe_write_ok q B g events :
  hoare (holds (fun n v => ((Good q B [] n v /\ Since g v) /\ Genuine events v) /\ Cleared v)) (shared (safe_write events))
    (fun st s => holds (fun n v => (Good q B [] n v /\ Since g v) /\
       (ok st = true -> (events, st) ∈ v_written v)) s).
Proof.
  apply holds_shared; [auto with playertrace|]. apply holds_step.
  - intros s n Hi [[[HG Hg] Hev] Hcl]. unfold safe_write. rewrite mget_then.
    destruct (cfg_sink (config (pipe s))); simpl; [|done].
    unfold mthen, with_sink. destruct (sink_write events (sink (pipe s))) as [r k]. simpl.
    split.
    { apply (inv_set_written n (shape s) events); [done|done|]. pose proof (inv_late _ _ _ _ Hi). unfold Cleared in Hcl. simpl in *.
      case_bool_decide; [lia|]. destruct Hcl; [done|lia]. }
    split; [split|].
    + by apply (good_set_written q B [] n (shape s)).
    + done.
    + intros _. simpl. by apply elem_of_app; right; left.
  - intros s. unfold safe_write. rewrite mget_then. destruct (cfg_sink _); simpl; [|done].
    unfold mthen, with_sink. by destruct (sink_write events (sink (pipe s))).
Qed.

(** Rows the sink took are removed. *)
Lemma good_acknowledged q B events st n v st' :
  Good q B [] n v -> (events, st) ∈ v_written v -> ok st = true ->
  rows st' = filter (fun r => in_ids (se_event_id <$> events) r = false) (rows (v_store v)) ->
  Good q B [] n (v_set_store st' v).
Proof.
  intros [Hf Hn Hu Hb Hmk] Hw Hok Hr. constructor; [done| | | |done].
  - intros e He. destruct (Hn e He) as [?|[?|[?|[Hst|?]]]]; auto. destruct Hst as (r & Hin & Hrf).
    destruct (in_ids (se_event_id <$> events) r) eqn:Hids.
    + do 4 right. left. exists events, st. split; [done|]. split; [done|].
      apply existsb_exists in Hids as (id & Hid%list_elem_of_In & Hr'). destruct Hrf as [Hq _].
      by rewrite (has_id_inj (qid e) id r Hq Hr').
    + do 3 right. left. exists r. split; [|done]. simpl. rewrite Hr. by apply list_elem_of_filter.
  - unfold Usable in *. simpl. rewrite Hr. rewrite Forall_forall in *. intros r [_ Hin]%list_elem_of_filter. by apply Hu.
  - unfold Bounded, work in *. simpl. rewrite Hr.
    pose proof (length_filter (fun r => in_ids (se_event_id <$> events) r = false) (rows (v_store v))). lia.
Qed.

Lemma acknowledge_ok q B events st :
  events <> [] -> ok st = true ->
  hoare (holds (fun n v => Good q B [] n v /\ (events, st) ∈ v_written v))
    (shared (with_store (store_acknowledge (se_event_id <$> events))))
    (fun r s => holds (fun n v => (ok (fst r) = true -> (0 < B)%nat) /\
                         (if ok (fst r) then Good 0 (B - 1) [] else Good q B []) n v) s).
Proof.
  intros Hne Hok. apply holds_shared; [auto with playertrace|].
  apply (with_store_ok _ (fun r n v => (ok (fst r) = true -> (0 < B)%nat) /\
    (if ok (fst r) then Good 0 (B - 1) [] else Good q B []) n v)).
  intros n v Hi [HG Hw].
  pose proof (law_acknowledge (se_event_id <$> events) (v_store v) (inv_sound _ _ _ _ Hi)) as Hl.
  destruct (store_acknowledge _ (v_store v)) as [[ack m] st']. destruct Hl as (Hs & _ & Hyes & Hno). simpl.
  assert (rows st' = rows (v_store v) \/
    rows st' = filter (fun r => in_ids (se_event_id <$> events) r = false) (rows (v_store v))) as Hr.
  { destruct (ok ack); [right; by apply Hyes|by apply Hno]. }
  assert (Good q B [] n (v_set_store st' v)) as HG'.
  { destruct Hr as [Hr|Hr]; [by apply good_same_rows|by eapply good_acknowledged]. }
  assert (ok ack = true -> length (rows (v_store v)) = length (rows st') + length events)%nat as Hlen.
  { intros Ha. destruct (Hyes Ha) as [_ Hlen]. unfold vsize in Hlen. rewrite length_fmap in Hlen. lia. }
  assert (length events <> 0%nat) by (by destruct events). destruct HG as [_ _ _ Hb Hmk].
  split; [|split; [|destruct (ok ack); [|done]]].
  - apply inv_fewer_rows; [done|done|]. intros r. destruct Hr as [-> | ->]; [done|]. by intros [_ ?]%list_elem_of_filter.
  - intros Ha. specialize (Hlen Ha). unfold Bounded, work in Hb. lia.
  - specialize (Hlen eq_refl). destruct HG' as [Hf Hn Hu _ _]. constructor; [done|done|done| |done].
    unfold Bounded, work in *. simpl in *. destruct (_ <? q)%nat; lia.
Qed.

(** How a pass of delivery ends: something was delivered in it, or not. *)
Definition Delivered (q B : nat) (before : bool) (r : option bool) (s : Sy) : Prop :=
  exists d, r = Some d /\ (d && negb before = true -> (0 < B)%nat) /\
    holds (if d && negb before then Good 0 (B - 1) [] else Good q B []) s.

Lemma delivered_now q B b s : holds (Good q B []) s -> Delivered q B b (Some b) s.
Proof. intros Hs. exists b. rewrite andb_negb_r. done. Qed.

(** Ends of the delivery loop. *)
Lemma end_delivery q B b :
  hoare (holds (Good q B [])) (mreturn (Some b)) (Delivered q B b).
Proof. apply hoare_return. apply delivered_now. Qed.

Lemma end_with_purge q B b :
  hoare (holds (fun n v => Good q B [] n v /\ Stale v)) (purge_store ;; mreturn (Some b)) (Delivered q B b).
Proof. eapply hoare_then; [apply purge_store_ok|]. intros u. apply end_delivery. Qed.

(** An optional step. *)
Lemma keep_if P (c : bool) (m : M Sy unit) :
  hoare (holds P) m (fun _ s => holds P s) ->
  hoare (holds P) (if c then m else mreturn tt) (fun _ s => holds P s).
Proof. intros Hm. destruct c; [done|]. by apply hoare_return. Qed.

(** The part of the loop that has fetched events. *)
Definition deliver_events (again : M Sy (option bool)) (b : bool) (events : EventBatch) : M Sy (option bool) :=
  let* generation := shared get_generation in
  let* con := shared get_consent in
  if negb (bool_decide (con = Granted)) then purge_store ;; mreturn (Some b)
  else
  let* st := shared (safe_write events) in
  if negb (ok st) then
    shared (note_error st) ;; upd_stats (add_delivery_failures 1) ;; mreturn (Some b)
  else
  let* same := still_consented generation in
  if negb same
  then purge_store ;; mreturn (Some b)
  else
  let* (ack, _) := shared (with_store (store_acknowledge (se_event_id <$> events))) in
  if negb (ok ack) then shared (note_error ack) ;; mreturn (Some b)
  else
  upd_stats (add_delivered (vsize events)) ;; shared (release_outstanding (vsize events)) ;; again.

(** When the check fails, everything that is stored is stale. *)
Lemma still_consented_ok g (P : nat -> Shape -> Prop) :
  Stable P -> (forall n v, P n v -> Since g v) ->
  hoare (holds P) (still_consented g) (fun same s => holds (fun n v => P n v /\ (same = false -> Stale v)) s).
Proof.
  intros HP Hsince. unfold still_consented. eapply hoare_then; [by apply get_consent_ok|]. intros con. simpl.
  destruct (bool_decide (con = Granted)) eqn:Hcon; cbn [negb].
  2:{ apply bool_decide_eq_false_1 in Hcon. apply hoare_return. intros s. apply holds_weaken. intros n v _ [Hp Hr].
      split; [done|]. intros _. by apply revoked_stale, Hr. }
  eapply (holds_pre _ _ _ _ P); [|by intros n v _ [? _]].
  eapply hoare_then; [by apply get_generation_ok|]. intros gen. apply hoare_return. intros s. apply holds_weaken.
  intros n v _ [Hp Hg]. split; [done|]. intros E. apply Z.eqb_neq in E.
  destruct (Hsince n v Hp) as [Hsi|Hsi]; [|done]. destruct Hg as (_ & _ & [Hg|Hg]); [lia|by apply revoked_stale].
Qed.

(** After the sink took the events: the second consent check and the removal. *)
Lemma deliver_taken_ok q B b g events st again :
  events <> [] -> ok st = true ->
  ((0 < B)%nat -> hoare (holds (Good 0 (B - 1) [])) again (Delivered 0 (B - 1) true)) ->
  hoare (holds (fun n v => (Good q B [] n v /\ Since g v) /\ (events, st) ∈ v_written v))
    (let* same := still_consented g in
     if negb same
     then purge_store ;; mreturn (Some b)
     else
     let* (ack, _) := shared (with_store (store_acknowledge (se_event_id <$> events))) in
     if negb (ok ack) then shared (note_error ack) ;; mreturn (Some b)
     else
     upd_stats (add_delivered (vsize events)) ;; shared (release_outstanding (vsize events)) ;; again)
    (Delivered q B b).
Proof.
  intros Hne Hok Hagain.
  eapply hoare_then; [apply still_consented_ok; [auto with playertrace|by intros n v [[_ ?] _]]|]. intros same. simpl. destruct same; cbn [negb].
  2:{ eapply holds_pre; [apply end_with_purge|]. intros n v _ [[[HG Hsi] _] Hst]. split; [done|]. by apply Hst. }
  - eapply hoare_then.
    { eapply holds_pre; [by apply (acknowledge_ok q B events st)|]. by intros n v _ [[[? _] ?] _]. }
    intros [ack m]. simpl. apply holds_fact. intros HB. destruct (ok ack); simpl.
    + apply then_frame; [apply frame_upd_stats|]. intros _.
      apply then_shared_frame; [auto with playertrace|apply frame_release_outstanding|]. intros _.
      intros s Hs. destruct (Hagain (HB eq_refl) s Hs) as (d & Hd & _ & Hh). exists d. split; [done|]. split; [auto|].
      rewrite andb_false_r in Hh. destruct (d && negb b); [done|]. eapply holds_weaken; [|exact Hh].
      intros n v _ HG. eapply good_weaken; [exact HG|]. specialize (HB eq_refl). lia.
    + apply then_shared_frame; [auto with playertrace|apply frame_note_error|]. intros _. apply end_delivery.
Qed.

Lemma deliver_events_ok q B b events again :
  events <> [] ->
  ((0 < B)%nat -> hoare (holds (Good 0 (B - 1) [])) again (Delivered 0 (B - 1) true)) ->
  hoare (holds (fun n v => Good q B [] n v /\ Genuine events v)) (deliver_events again b events) (Delivered q B b).
Proof.
  intros Hne Hagain. unfold deliver_events.
  eapply hoare_then; [apply get_generation_ok; auto with playertrace|]. intros g. simpl.
  eapply (holds_pre _ _ _ _ (fun n v => (Good q B [] n v /\ Since g v) /\ Genuine events v));
    [|intros n v _ [[? ?] Hg]; split; [split; [done|by apply read_since]|done]].
  eapply hoare_then; [apply get_consent_clears; auto with playertrace|]. intros con. simpl.
  destruct (bool_decide (con = Granted)) eqn:Hcon; simpl.
  2:{ apply bool_decide_eq_false_1 in Hcon. eapply holds_pre; [apply end_with_purge|].
      intros n v _ [[[HG _] _] [Hr _]]. split; [done|]. by apply revoked_stale, Hr. }
  eapply (hoare_then _ _).
  { eapply holds_pre; [apply (safe_write_ok q B g events)|]. intros n v _ [? [_ Hc]].
    split; [done|]. by apply Hc, (bool_decide_eq_true_1 _ Hcon). }
  intros st. simpl. destruct (ok st) eqn:Hok; simpl.
  - eapply holds_pre; [by apply (deliver_taken_ok q B b g events st)|]. intros n v _ [? Hw]. split; [done|]. by apply Hw.
  - eapply (holds_pre _ _ _ _ (Good q B [])); [|by intros n v _ [[? _] _]].
    apply then_shared_frame; [auto with playertrace|apply frame_note_error|]. intros _.
    apply then_frame; [apply frame_upd_stats|]. intros _. apply end_delivery.
Qed.

(** [WorkerCore::deliver_all]: it ends once its bound exceeds the work left. *)
Lemma deliver_loop_ok fuel q B b :
  (B < fuel)%nat -> hoare (holds (Good q B [])) (deliver_loop fuel b) (Delivered q B b).
Proof.
  revert q B b. induction fuel as [|fuel IH]; intros q B b Hfuel; [lia|]. cbn [deliver_loop].
  eapply hoare_then; [apply get_consent_ok; auto with playertrace|]. intros con. cbv beta.
  destruct (bool_decide (con = Granted)) eqn:Hcon; cbn [negb].
  2:{ apply bool_decide_eq_false_1 in Hcon. eapply holds_pre; [apply end_with_purge|].
      intros n v _ [HG Hr]. split; [done|]. by apply revoked_stale, Hr. }
  eapply (holds_pre _ _ _ _ (Good q B [])); [|by intros n v _ [? _]].
  eapply hoare_then; [apply batch_size_ok|]. intros size. cbv beta. apply hoare_given. intros Hz.
  eapply hoare_then; [by apply fetch_ok|]. intros pending. cbv beta.
  eapply (hoare_then _ (fun _ s => holds (fun n v => Good q B [] n v /\ Genuine (fr_events pending) v) s)).
  { apply keep_if. apply then_shared_frame; [auto with playertrace|apply frame_release_outstanding|]. intros _.
    apply holds_frame, frame_upd_stats. }
  intros _. eapply (hoare_then _ (fun _ s => holds (fun n v => Good q B [] n v /\ Genuine (fr_events pending) v) s)).
  { apply keep_if, holds_frame_shared; [auto with playertrace|apply frame_note_error]. }
  intros _. destruct (fr_events pending) as [|ev evs] eqn:Hev.
  { eapply holds_pre; [apply end_delivery|]. by intros n v _ [? _]. }
  change (hoare (holds (fun n v => Good q B [] n v /\ Genuine (ev :: evs) v)) (deliver_events (deliver_loop fuel true) b (ev :: evs)) (Delivered q B b)).
  apply deliver_events_ok; [done|]. intros HB. apply IH. lia.
Qed.

(** ** Judging a flush *)

(** A flush barrier is an ordinal that was given out. *)
Lemma barrier_given q B f n v b :
  Inv n v -> Good q B f n v -> b <= m_barrier mk -> b <= v_ord v < 9223372036854775808.
Proof.
  intros Hi HG Hb. destruct (good_marks _ _ _ _ _ _ _ _ HG) as (Hm & _). pose proof (inv_barrier _ _ _ _ Hi).
  destruct (inv_room _ _ _ _ Hi) as (R1 & R2 & _). lia.
Qed.

(** Nothing waiting or stored at or below the barrier: every event is settled. *)
Lemma nothing_below q B n v b :
  Good q B [] n v -> b <= v_ord v ->
  (forall e, e ∈ v_queue v -> b < qe_ordinal e) -> (forall e, e ∈ v_retry v -> b < qe_ordinal e) ->
  Forall (fun r => b < row_ordinal r) (rows (v_store v)) -> Settled b v.
Proof.
  intros HG Hb Hq Hr Hrows. split; [done|]. intros e He Hle.
  destruct (good_noloss _ _ _ _ _ _ _ _ HG e He) as [Hx|[Hx|[Hx|[Hx|Hx]]]]; [| | | |done]; exfalso.
  - by apply not_elem_of_nil in Hx.
  - apply Hr in Hx. lia.
  - apply Hq in Hx. lia.
  - destruct Hx as (r & Hin & _ & Hro). rewrite Forall_forall in Hrows. apply Hrows in Hin. lia.
Qed.

(** The first event waits with the least ordinal. *)
Lemma first_least (l : list QueuedEvent) b :
  in_order l -> match l with [] => uint64_max | e :: _ => qe_ordinal e end <= b \/ forall e, e ∈ l -> b < qe_ordinal e.
Proof.
  destruct l as [|x l]; intros Ho; [right; by intros e ?%not_elem_of_nil|].
  destruct (Z.le_gt_cases (qe_ordinal x) b) as [?|Hb]; [by left|right].
  apply (in_order_app [x] l) in Ho as (_ & _ & Ho). intros e [->|He]%elem_of_cons; [lia|].
  specialize (Ho x e). assert (qe_ordinal x < qe_ordinal e); [|lia]. apply Ho; [by left|done].
Qed.

Lemma filter_empty_above b (l : list Row) :
  vsize (filter (fun r => row_ordinal r <= b) l) <= 0 -> Forall (fun r => b < row_ordinal r) l.
Proof.
  intros Hl. apply Forall_forall. intros r Hin. destruct (Z.le_gt_cases (row_ordinal r) b) as [Hle|]; [|lia].
  assert (r ∈ filter (fun r => row_ordinal r <= b) l) as Hf by (by apply list_elem_of_filter).
  destruct (filter _ l); [by apply not_elem_of_nil in Hf|]. rewrite vsize_cons in Hl.
  pose proof (vsize_nonneg l0). lia.
Qed.

(** [WorkerCore::work_remains_at_or_below]: when it says no, every event up to
    the barrier is settled. *)
(** The rows at or below the barrier, counted when nothing waits below it. *)
Lemma count_barrier_ok q B b :
  0 <= b <= m_barrier mk ->
  hoare (holds (fun n v => (Good q B [] n v /\ (b <= v_ord v /\ forall e, e ∈ v_queue v -> b < qe_ordinal e)) /\
      forall e, e ∈ v_retry v -> b < qe_ordinal e))
    (shared (with_store (store_count_up_to b)))
    (fun r s => holds (fun n v => Good q B [] n v /\ (ok (fst r) = true -> snd r <= 0 -> Settled b v)) s).
Proof.
  intros Hb.
  apply holds_shared; [auto with playertrace|]. apply with_store_ok. intros n v Hi [[HG [Hbo Hq]] Hr].
  pose proof (law_count_up_to b (v_store v) (inv_sound _ _ _ _ Hi)) as Hl.
  destruct (store_count_up_to b (v_store v)) as [[st m] st']. destruct Hl as (Hs & _ & Hrows & Hm).
  { pose proof (barrier_given _ _ _ _ _ b Hi HG). lia. }
  assert (Good q B [] n (v_set_store st' v)) as HG' by (by apply good_same_rows).
  split; [by apply inv_fewer_rows; [| |rewrite Hrows]|]. split; [done|]. simpl. intros Hok Hm0. rewrite Hok in Hm.
  apply (nothing_below q B n); [done|done|done|done|]. simpl. rewrite Hrows. apply filter_empty_above. lia.
Qed.

Lemma work_remains_ok q B b :
  0 <= b <= m_barrier mk ->
  hoare (holds (Good q B [])) (work_remains_at_or_below b)
    (fun r s => holds (fun n v => Good q B [] n v /\ (r = None -> Settled b v)) s).
Proof.
  intros Hb. unfold work_remains_at_or_below. destruct (Z.eqb_spec b 0) as [->|Hb0].
  { apply hoare_return. intros s. apply holds_weaken. intros n v Hi HG. split; [done|]. intros _.
    split; [by apply (inv_room _ _ _ _ Hi)|]. intros e He. apply (inv_ord _ _ _ _ Hi) in He. lia. }
  eapply hoare_then.
  { apply holds_shared; [auto with playertrace|].
    apply (holds_read _ _ _ _ (fun front n v => Good q B [] n v /\
      (front <= b \/ (b <= v_ord v /\ forall e, e ∈ v_queue v -> b < qe_ordinal e))) _
      (fun v => match v_queue v with [] => uint64_max | e :: _ => qe_ordinal e end)); [done|].
    intros n v Hi HG. split; [done|]. destruct (first_least (v_queue v) b) as [?|?]; [|by left|].
    - pose proof (inv_order _ _ _ _ Hi) as Ho. by apply in_order_app in Ho as (_ & ? & _).
    - right. split; [|done]. eapply barrier_given; [done|done|lia]. }
  intros front. cbv beta. destruct (Z.leb_spec front b) as [Hf|Hf].
  { apply hoare_return. intros s. apply holds_weaken. by intros n v _ [? _]. }
  eapply (holds_pre _ _ _ _ (fun n v => Good q B [] n v /\ (b <= v_ord v /\ forall e, e ∈ v_queue v -> b < qe_ordinal e)));
    [|intros n v _ [? [?|?]]; [lia|done]].
  eapply hoare_then.
  { apply holds_shared; [auto with playertrace|].
    apply (holds_read _ _ _ _ (fun held n v => (Good q B [] n v /\
        (b <= v_ord v /\ forall e, e ∈ v_queue v -> b < qe_ordinal e)) /\
        (held <= b \/ forall e, e ∈ v_retry v -> b < qe_ordinal e)) _
      (fun v => match v_retry v with [] => uint64_max | e :: _ => qe_ordinal e end)); [done|].
    intros n v Hi HG. split; [done|]. apply first_least.
    pose proof (inv_order _ _ _ _ Hi) as Ho. by apply in_order_app in Ho as (? & _ & _). }
  intros held. cbv beta. destruct (Z.leb_spec held b) as [Hh|Hh].
  { apply hoare_return. intros s. apply holds_weaken. by intros n v _ [[? _] _]. }
  eapply (holds_pre _ _ _ _ (fun n v => (Good q B [] n v /\
    (b <= v_ord v /\ forall e, e ∈ v_queue v -> b < qe_ordinal e)) /\ forall e, e ∈ v_retry v -> b < qe_ordinal e));
    [|intros n v _ [? [?|?]]; [lia|done]].
  eapply hoare_then; [by apply count_barrier_ok|].
  intros [st m]. simpl. destruct (ok st); simpl; [destruct (Z.ltb_spec 0 m)|]; apply hoare_return;
    intros s; apply holds_weaken; intros n v _ [? Hset]; (split; [done|]); [done| |done].
  intros _. by apply Hset.
Qed.

(** ** The drain loop *)

(** The length of the queue becomes the mark of [Bounded]. *)
Lemma queue_length_ok B :
  hoare (holds (Good 0 B [])) (shared (mget (fun s => queue_size (queue (pipe s)))))
    (fun z s => holds (Good (Z.to_nat z) B []) s).
Proof.
  apply holds_shared; [auto with playertrace|].
  apply (holds_read _ _ _ _ (fun z => Good (Z.to_nat z) B []) _ (fun v => vsize (v_queue v))); [done|].
  intros n v _ [Hf Hn Hu Hb Hmk]. constructor; [done|done|done| |done]. unfold Bounded, vsize in *.
  rewrite Nat2Z.id, Nat.ltb_irrefl. lia.
Qed.

(** A queue that became shorter: work was taken away. *)
Lemma queue_shrunk q B :
  hoare (holds (Good q B [])) (shared (mget (fun s => queue_size (queue (pipe s)))))
    (fun z s => holds (fun n v => Good 0 B [] n v /\ (z < Z.of_nat q -> (0 < B)%nat /\ Good 0 (B - 1) [] n v)) s).
Proof.
  apply holds_shared; [auto with playertrace|].
  apply (holds_read _ _ _ _ (fun z n v => Good 0 B [] n v /\ (z < Z.of_nat q -> (0 < B)%nat /\ Good 0 (B - 1) [] n v)) _
    (fun v => vsize (v_queue v))); [done|].
  intros n v _ HG. split; [eapply good_weaken; [exact HG|lia]|]. unfold vsize. intros Hz.
  destruct HG as [Hf Hn Hu Hb Hmk]. unfold Bounded in Hb.
  destruct (Nat.ltb_spec (length (v_queue v)) q); [|lia]. split; [lia|].
  constructor; [done|done|done| |done]. unfold Bounded. simpl. lia.
Qed.

(** The work of a batch that was taken from the queue. *)
Lemma popped_work B more s : holds (Good 0 (B - 1) more) s -> more <> [] -> (0 < B)%nat.
Proof.
  intros [_ [_ _ _ Hb _]] Hne. unfold Bounded, work in Hb. assert (length more <> 0%nat) by (by destruct more). lia.
Qed.

(** One round: the batch is processed, then everything stored is delivered. *)
Lemma round_ok {A} q B fuel (rest : bool -> M Sy (option A)) more Q :
  (B < fuel)%nat ->
  (forall d, (d = true -> (0 < B)%nat) -> hoare (holds (if d then Good 0 (B - 1) [] else Good q B [])) (rest d) Q) ->
  hoare (holds (Good q B more))
    (process_incoming dump more ;;
     let* d := deliver_all fuel in
     match d with None => mreturn None | Some d => rest d end) Q.
Proof.
  intros Hfuel Hrest. eapply hoare_then; [apply process_incoming_ok|]. intros u.
  eapply hoare_then; [by apply deliver_loop_ok|]. intros r s (d & -> & Hd & Hs).
  rewrite andb_true_r in *. by apply Hrest.
Qed.

(** The drain loop ends once its bounds exceed the work left. *)
Lemma drain_loop_ok b n fuel B :
  0 <= b <= m_barrier mk -> (B < n)%nat -> (B < fuel)%nat ->
  hoare (holds (Good 0 B [])) (drain_loop dump n fuel b) (fun r s => r = Some tt /\ holds (Good 0 B []) s).
Proof.
  intros Hb. revert B. induction n as [|n IH]; intros B Hn Hfuel; [lia|]. cbn [drain_loop].
  assert (forall B', (0 < B)%nat -> B' = (B - 1)%nat ->
    hoare (holds (Good 0 B' [])) (drain_loop dump n fuel b) (fun r s => r = Some tt /\ holds (Good 0 B []) s)) as Hless.
  { intros B' HB ->. eapply hoare_conseq; [apply (IH (B - 1)%nat); lia|done|]. intros r s [-> Hs]. split; [done|].
    eapply holds_weaken; [|exact Hs]. intros m v _ HG. eapply good_weaken; [exact HG|lia]. }
  eapply hoare_then; [by apply work_remains_ok|]. intros why. cbv beta.
  eapply (holds_pre _ _ _ _ (Good 0 B [])); [|by intros m v _ [? _]].
  destruct why as [why|]; [|by apply hoare_return].
  eapply hoare_then; [apply queue_length_ok|]. intros before. cbv beta. set (q := Z.to_nat before).
  eapply hoare_then; [apply pop_batch_ok|]. intros more. cbv beta. destruct (bool_decide (more = [])) eqn:Hmore.
  - apply bool_decide_eq_true_1 in Hmore as ->. apply round_ok; [done|]. intros d Hd. cbn [negb andb].
    destruct d; cbn [negb].
    + apply Hless; [by apply Hd|done].
    + eapply hoare_then; [apply queue_shrunk|]. intros now. cbv beta. destruct (Z.leb_spec before now).
      * apply hoare_return. intros s Hs. split; [done|]. eapply holds_weaken; [|exact Hs]. by intros m v _ [? _].
      * intros s [Hi [HG Hsh]]. destruct (Hsh ltac:(lia)) as [HB HG']. by apply (Hless (B - 1)%nat HB).
  - apply bool_decide_eq_false_1 in Hmore. intros s Hs. pose proof (popped_work B more s Hs Hmore) as HB. revert s Hs.
    change (hoare (holds (Good 0 (B - 1) more))
      (process_incoming dump more ;;
       let* d := deliver_all fuel in
       match d with None => mreturn None | Some d => (fun _ => drain_loop dump n fuel b) d end)
      (fun r s => r = Some tt /\ holds (Good 0 B []) s)).
    apply round_ok; [lia|]. intros d Hd. destruct d; [|by apply Hless].
    eapply holds_pre; [by apply (Hless (B - 1)%nat)|]. intros m v _ HG. eapply good_weaken; [exact HG|].
    specialize (Hd eq_refl). lia.
Qed.

End WorkerSpec.
