(* ===== verification/WorkerRun.v ===== *)
(** Whole runs of the worker (src/worker.cpp, [WorkerCore::run]) beside any
    schedule of the other threads: flush passes, the loop, and the theorems
    about consent, loss, flushing and termination. *)
From S2P Require Import Prelude Types Serializer Validator Queue Ids Session SqlText Sqlite Store StoreSpec StoreIface Pipeline Admission AdmissionSpec Worker Tokens Invariant WorkerSpec.

Local Open Scope Z_scope.
Local Open Scope pt_scope.

Section WorkerRun.
Context {S K : Type} `{!StoreOps S} `{!StoreLaws S} `{!SinkOps K}.
Context (dump : json -> library_call string).
Context (recovered : list Row).
Context (slack : nat).
(** Some events that were admitted before. *)
Context (known : list QueuedEvent).
#[local] Abbreviation Sy := (Sys S K).
#[local] Abbreviation Shape := (@Shape S).
#[local] Abbreviation Inv := (Inv dump recovered).
#[local] Abbreviation Good := (Good dump recovered).
#[local] Abbreviation holds := (@holds S K _ _ dump recovered slack).
#[local] Abbreviation mark b t p := (mkMark b t p known).
#[local] Abbreviation Settled := (Settled dump recovered).

Context (Hjson : forall qe,
  ok (fst (serialize dump (qe_event qe))) = true -> valid_key (qid qe) ->
  row_event (row_of (record_of qe (snd (serialize dump (qe_event qe))))) <> None).

(** ** A flush pass *)

Lemma frame_safe_flush_sink : frame (@safe_flush_sink S K _).
Proof.
  intros s. unfold safe_flush_sink. rewrite mget_then. destruct (cfg_sink _); simpl; [|done].
  unfold mthen, with_sink. destruct (sink_flush (sink (pipe s))) as [[?|?|] ?]; done.
Qed.

(** What the answers say about the tokens after [handled] up to [t0]: recent
    ones are answered, and one that is answered Ok has every event up to [b0]
    settled. *)
Definition Answers (b0 t0 handled : Z) (v : Shape) : Prop :=
  forall t, handled < t <= t0 ->
    (fst (v_passes v) - t < 256 -> is_Some (map_find t (snd (v_passes v)))) /\
    (forall st, map_find t (snd (v_passes v)) = Some st -> ok st = true -> Settled b0 v).

(** The worker between two iterations. *)
Definition Resting (b0 t0 : Z) (B : nat) (handled : Z) (n : nat) (v : Shape) : Prop :=
  fst (v_passes v) = handled /\ Good (mark b0 t0 (v_passes v)) 0 B [] n v.

Lemma good_remark k b t p q B f n v :
  Good k q B f n v -> b <= v_barrier v -> t <= v_seq v -> v_passes v = p -> m_known k = known ->
  Good (mark b t p) q B f n v.
Proof. intros [? ? ? ? (_ & _ & _ & ?)] ? ? ? <-. by constructor. Qed.

Lemma move_passes (v w : Shape) : client_move v w -> v_passes w = v_passes v.
Proof. by intros []. Qed.

Lemma stable_resting b0 t0 B handled : Stable dump recovered (Resting b0 t0 B handled).
Proof.
  split.
  - intros n m v Hm [Hp HG]. split; [done|]. by eapply (proj1 (stable_good dump recovered _ _ _ _)).
  - intros n v w Hi Hm [Hp HG]. unfold Resting. rewrite (move_passes v w Hm). split; [done|].
    by eapply (proj2 (stable_good dump recovered _ _ _ _)).
Qed.

Lemma stable_answers b0 t0 handled : Stable dump recovered (fun _ => Answers b0 t0 handled).
Proof.
  apply stable_shape. intros n v w Hi Hm Ha t Ht. rewrite (move_passes v w Hm).
  destruct (Ha t Ht) as [Hr Hs]. split; [done|]. intros st Hf Hok.
  eapply (proj2 (stable_settled dump recovered b0)); [done|done|]. by eapply Hs.
Qed.

(** Answering the tokens of a pass. *)
Lemma answer_ok b0 b t0 want p outcome B :
  fst p <= want -> b0 <= b -> t0 <= want ->
  hoare (holds (fun n v => Good (mark b want p) 0 B [] n v /\ (ok outcome = true -> Settled b v)))
    (shared (mput (on_core (answer_tokens (fst p) want outcome))))
    (fun _ s => holds (fun n v => Resting b0 t0 B want n v /\ Answers b0 t0 (fst p) v) s).
Proof.
  intros Hw Hb Ht. apply holds_shared; [auto with playertrace|]. apply (holds_step _ _ _ _ _ (fun _ n v => _)); [|done].
  intros s n Hi [HG Hset]. destruct (good_marks _ _ _ _ _ _ _ _ HG) as (Hm1 & Hm2 & Hm3 & Hm4). simpl in Hm1, Hm2, Hm3.
  assert (flush_done_ (core s) = fst p) as Hd by (by rewrite <- Hm3).
  pose proof (inv_tokens _ _ _ _ Hi) as Hwf. simpl in Hwf. change (tokens_wf (flush_seq_ (core s)) (core_tokens (core s))) in Hwf.
  assert (shape (snd (mput (on_core (answer_tokens (fst p) want outcome)) s)) =
    v_set_passes (core_tokens (answer_tokens (fst p) want outcome (core s))) (shape s)) as -> by done.
  split; [|split; [split|]].
  - apply inv_set_passes; [done|]. rewrite <- Hd. apply answer_tokens_wf; [done|]. rewrite Hd. simpl. lia.
  - done.
  - destruct HG as [? ? ? ? _]. constructor; [done|done|done|done|].
    split; [simpl; lia|]. split; [simpl; lia|done].
  - intros t Htt. simpl v_passes. rewrite <- Hd in *. split.
    + intros Hn. exists outcome. apply (answer_tokens_new (flush_seq_ (core s))); [done|simpl in *; lia|simpl in *; lia].
    + intros st Hf Hok. apply (answer_tokens_only (flush_seq_ (core s))) in Hf as ->; [|done|simpl; lia|lia].
      destruct (Hset Hok) as [H1 H2]. split; [simpl in *; lia|]. intros e He Hle. apply H2; [done|lia].
Qed.

(** The status a pass is answered with. *)
Definition verdict (residual : option Status) (outcome : Status) : Status :=
  match residual with
  | Some why => if ok outcome then why else outcome
  | None => outcome
  end.

(** The reasons of [work_remains_at_or_below] are never Ok. *)
Lemma work_remains_not_ok b (s : Sy) why : fst (work_remains_at_or_below b s) = Some why -> ok why = false.
Proof.
  unfold work_remains_at_or_below. destruct (b =? 0); [done|]. unfold mthen.
  destruct (shared (mget _) s) as [front s1]. destruct (front <=? b); [by intros [= <-]|].
  destruct (shared (mget _) s1) as [held s2]. destruct (held <=? b); [by intros [= <-]|].
  destruct (shared _ s2) as [[st m] s3]. destruct (ok st) eqn:Hok; simpl; [|by intros [= <-]].
  destruct (0 <? m); [by intros [= <-]|done].
Qed.

Lemma flush_pass_ok b0 t0 want p n fuel B :
  fst p <= want -> t0 <= want -> (B < n)%nat -> (B < fuel)%nat ->
  hoare (holds (Good (mark b0 want p) 0 B [])) (flush_pass dump n fuel (fst p) want)
    (fun r s => r = Some tt /\ holds (fun n v => Resting b0 t0 B want n v /\ Answers b0 t0 (fst p) v) s).
Proof.
  intros Hw Ht Hn Hf. unfold flush_pass.
  eapply (hoare_then _ (fun b s => (0 <= b /\ b0 <= b) /\ holds (Good (mark b want p) 0 B []) s)).
  { apply holds_shared; [auto with playertrace|]. intros s [Hi HG]. simpl.
    destruct (good_marks _ _ _ _ _ _ _ _ HG) as (Hm1 & Hm2 & Hm3 & Hm4). pose proof (inv_barrier _ _ _ _ Hi) as Hb. simpl in *.
    split; [lia|]. split; [done|]. simpl. by apply (good_remark (mark b0 want p)). }
  intros b. apply hoare_given. intros [Hb Hb0].
  eapply hoare_then; [apply (drain_loop_ok dump recovered _ _ Hjson b n fuel B); [simpl; lia|done|done]|].
  intros r. apply hoare_given. intros ->.
  apply then_shared_frame; [auto with playertrace|apply frame_safe_flush_sink|]. intros sf.
  eapply (hoare_then _ (fun _ s => holds (Good (mark b want p) 0 B []) s)).
  { apply keep_if, holds_frame_shared; [auto with playertrace|apply frame_note_error]. }
  intros _. apply then_shared_frame; [auto with playertrace| |].
  { apply frame_then; [apply frame_get|]. intros e. apply frame_then; [by apply frame_put|]. intros _. apply frame_return. }
  intros outcome.
  eapply (hoare_then _ (fun residual s => holds (fun n v => Good (mark b want p) 0 B [] n v /\
    (ok (verdict residual outcome) = true -> Settled b v)) s)).
  { intros s Hs. pose proof (work_remains_not_ok b s) as Hno.
    pose proof (work_remains_ok dump recovered _ (mark b want p) 0 B b ltac:(simpl; lia) s Hs) as Hh. simpl in Hh.
    destruct (work_remains_at_or_below b s) as [r s']. simpl in *. eapply holds_weaken; [|exact Hh].
    intros m v _ [HG Hset]. split; [done|]. destruct r as [why|]; [|by intros _; apply Hset].
    simpl. specialize (Hno why eq_refl). destruct (ok outcome) eqn:Ho; congruence. }
  intros residual. cbv beta. fold (verdict residual outcome). eapply hoare_then; [by apply (answer_ok b0 b t0 want p (verdict residual outcome) B)|].
  intros u. apply hoare_return. by intros s Hs.
Qed.

(** One iteration: it ends, and the tokens submitted before it are answered. *)
Lemma iteration_ok b0 t0 p n fuel B :
  fst p <= t0 -> (B < n)%nat -> (B < fuel)%nat ->
  hoare (holds (Good (mark b0 t0 p) 0 B [])) (iteration dump n fuel (fst p))
    (fun r s => exists stop handled, r = Some (stop, handled) /\
       holds (fun n v => Resting b0 t0 B handled n v /\ Answers b0 t0 (fst p) v) s).
Proof.
  intros Hp Hn Hf. unfold iteration.
  eapply (hoare_then _ (fun want s => t0 <= want /\ holds (Good (mark b0 want p) 0 B []) s)).
  { apply holds_shared; [auto with playertrace|]. intros s [Hi HG].
    destruct (good_marks _ _ _ _ _ _ _ _ HG) as (Hm1 & Hm2 & Hm3 & Hm4). split; [done|]. split; [done|].
    by apply (good_remark (mark b0 t0 p)). }
  intros want. apply hoare_given. intros Hw.
  eapply (hoare_then _ (fun _ s => holds (Good (mark b0 want p) 0 B []) s)).
  { apply keep_if, holds_frame_shared; [auto with playertrace|by apply frame_put]. }
  intros _. eapply hoare_then; [apply pop_batch_ok|]. intros drained. cbv beta.
  eapply (holds_pre _ _ _ _ (Good (mark b0 want p) 0 B drained)).
  2:{ intros m v _ HG. case_bool_decide as E; [by subst drained|]. eapply good_weaken; [exact HG|].
      destruct HG as [_ _ _ Hb _]. unfold Bounded, work in Hb. assert (length drained <> 0%nat) by (by destruct drained). lia. }
  eapply (round_ok dump recovered _ _ Hjson 0 B fuel); [done|]. intros d Hd.
  eapply (holds_pre _ _ _ _ (Good (mark b0 want p) 0 B [])).
  2:{ intros m v _ HG. destruct d; [|done]. eapply good_weaken; [exact HG|]. specialize (Hd eq_refl). lia. }
  eapply (hoare_then _ (fun r s => r = Some tt /\
    holds (fun n v => Resting b0 t0 B (if fst p <? want then want else fst p) n v /\ Answers b0 t0 (fst p) v) s)).
  { destruct (Z.ltb_spec (fst p) want); [by apply flush_pass_ok; lia|]. apply hoare_return. intros s Hs. split; [done|].
    eapply holds_weaken; [|exact Hs]. intros m v _ HG. pose proof (good_marks _ _ _ _ _ _ _ _ HG) as (Hm1 & Hm2 & Hm3 & Hm4).
    simpl in *. split; [split; [by rewrite Hm3|]|intros t Htt; lia].
    apply (good_remark (mark b0 want p)); [done|done|lia|done|done]. }
  intros r. apply hoare_given. intros ->.
  apply then_shared_frame; [apply stable_and; [apply stable_resting|apply stable_answers]|apply frame_get|].
  intros stop. apply hoare_return. intros s Hs. eauto.
Qed.

(** ** The loop *)

(** The last token the loop handled, when it did not run out of fuel. *)
Definition handled_at (e : loop_exit) : option Z :=
  match e with
  | Stopped_normally h | Threw h _ | Still_running h => Some h
  | Out_of_fuel => None
  end.

(** One iteration from rest to rest. *)
Lemma iteration_rests n fuel B handled :
  (B < n)%nat -> (B < fuel)%nat ->
  hoare (holds (Resting 0 0 B handled)) (iteration dump n fuel handled)
    (fun r s => exists stop handled', r = Some (stop, handled') /\ holds (Resting 0 0 B handled') s).
Proof.
  intros Hn Hf s [Hi [Hp HG]]. set (p := v_passes (shape s)) in *. rewrite <- Hp.
  destruct (iteration_ok 0 (fst p) p n fuel B (Z.le_refl _) Hn Hf s) as (stop & h & Hr & Hh).
  { split; [done|]. destruct (inv_tokens _ _ _ _ Hi) as [Ht _], (inv_barrier _ _ _ _ Hi).
    apply (good_remark (mark 0 0 p)); [done|done|apply Ht|done|done]. }
  exists stop, h. split; [done|]. eapply holds_weaken; [|exact Hh]. intros m v Hi' [[Hph HG'] _].
  split; [done|]. destruct (inv_tokens _ _ _ _ Hi') as [Ht _], (inv_barrier _ _ _ _ Hi').
  apply (good_remark (mark 0 (fst p) (v_passes v))); [done|done|lia|done|done].
Qed.

Definition Rested (B : nat) (e : loop_exit) (s : Sy) : Prop :=
  exists h, handled_at e = Some h /\ holds (Resting 0 0 B h) s.

Lemma stop_rests B h :
  hoare (holds (Resting 0 0 B h)) (log Info "playertrace worker stopped" ;; mreturn (Stopped_normally h)) (Rested B).
Proof. apply then_frame; [apply frame_log|]. intros u. apply hoare_return. intros s Hs. by exists h. Qed.

Lemma run_loop_ok rounds n fuel B crash handled :
  (B < n)%nat -> (B < fuel)%nat ->
  hoare (holds (Resting 0 0 B handled)) (run_loop dump rounds n fuel crash handled)
    (Rested B).
Proof.
  intros Hn Hf. revert crash handled.
  assert (forall e h, handled_at e = Some h ->
    hoare (holds (Resting 0 0 B h)) (mreturn e) (Rested B))
    as Hret by (intros e h He; apply hoare_return; intros s Hs; by exists h).
  induction rounds as [|rounds IH]; intros crash handled; cbn [run_loop].
  { destruct crash as [[[|?] ?]|]; by apply Hret. }
  assert (forall crash', hoare (holds (Resting 0 0 B handled))
    (let* r := iteration dump n fuel handled in
     match r with
     | None => mreturn Out_of_fuel
     | Some (true, handled') => log Info "playertrace worker stopped" ;; mreturn (Stopped_normally handled')
     | Some (false, handled') => run_loop dump rounds n fuel crash' handled'
     end) (Rested B)) as Hround.
  { intros crash'. eapply hoare_then; [by apply iteration_rests|]. intros r s (stop & h & -> & Hs).
    destruct stop; [by apply stop_rests|by apply IH]. }
  destruct crash as [[[|?] ?]|]; [by apply Hret|apply Hround|apply (Hround None)].
Qed.

(** The end of [run]. *)
Lemma run_epilogue_ok B handled :
  hoare (holds (Resting 0 0 B handled)) (run_epilogue handled)
    (fun _ s => holds (fun n v => exists h, Resting 0 0 B h n v) s).
Proof.
  unfold run_epilogue. apply then_shared_frame; [apply stable_resting|apply frame_get|]. intros terminal.
  eapply (hoare_then _ (fun _ s => holds (Resting 0 0 B handled) s)).
  { apply keep_if, then_shared_frame; [apply stable_resting|by apply frame_put|]. intros u.
    apply holds_frame, frame_report_error. }
  intros u. apply holds_shared; [apply stable_resting|]. apply (holds_step _ _ _ _ _ (fun _ n v => _)); [|done].
  intros s n Hi [Hp HG]. simpl in Hp. subst handled.
  pose proof (inv_tokens _ _ _ _ Hi) as Hwf. change (tokens_wf (flush_seq_ (core s)) (core_tokens (core s))) in Hwf.
  assert (tokens_wf (flush_seq_ (core s)) (core_tokens (answer_tokens (flush_done_ (core s)) (flush_seq_ (core s)) unserviced
    (set_finished_ true (core s))))) as Hwf'.
  { apply (answer_tokens_wf (flush_seq_ (core s)) (flush_seq_ (core s)) unserviced (set_finished_ true (core s))); [done|].
    destruct Hwf. simpl in *. lia. }
  split; [by apply (inv_set_passes dump recovered n (shape s))|].
  eexists. split; [done|]. destruct HG as [? ? ? ? (? & ? & _ & ?)]. by constructor.
Qed.

(** Once [run] is over, no token is left without an answer, and a token that no
    pass served is not answered Ok. *)
Definition Closed (h : Z) (s : Sy) : Prop :=
  finished_ (core s) = true /\
  forall t x, h < t -> map_find t (pass_results_ (core s)) = Some x -> ok x = false.

Lemma run_epilogue_closes B handled :
  hoare (holds (Resting 0 0 B handled)) (run_epilogue handled) (fun _ s => Closed handled s).
Proof.
  unfold run_epilogue. apply then_shared_frame; [apply stable_resting|apply frame_get|]. intros terminal.
  eapply (hoare_then _ (fun _ s => holds (Resting 0 0 B handled) s)).
  { apply keep_if, then_shared_frame; [apply stable_resting|by apply frame_put|]. intros u.
    apply holds_frame, frame_report_error. }
  intros u. apply holds_shared; [apply stable_resting|]. intros s [Hi [Hp HG]]. simpl in Hp. subst handled.
  split; [done|]. intros t x Ht Hf.
  apply (answer_tokens_only (flush_seq_ (core s)) _ _ (set_finished_ true (core s))) in Hf as ->; [done| | |done].
  - exact (inv_tokens _ _ _ _ Hi).
  - destruct (inv_tokens _ _ _ _ Hi) as [Ht' _]. simpl in *. lia.
Qed.

(** [WorkerCore::run]. *)
Definition Ended (B : nat) (e : loop_exit) (s : Sy) : Prop :=
  e <> Out_of_fuel /\ holds (fun n v => exists h, Resting 0 0 B h n v) s.

Lemma epilogue_ends B h e :
  e <> Out_of_fuel -> hoare (holds (Resting 0 0 B h)) (run_epilogue h ;; mreturn e) (Ended B).
Proof.
  intros He. eapply hoare_then; [apply run_epilogue_ok|]. intros u. apply hoare_return. intros s Hs. by split.
Qed.

Lemma run_ok rounds n fuel B crash :
  (B < n)%nat -> (B < fuel)%nat ->
  hoare (holds (Resting 0 0 B 0)) (run dump rounds n fuel crash) (Ended B).
Proof.
  intros Hn Hf. unfold run. apply then_frame; [apply frame_log|]. intros u.
  eapply hoare_then; [by apply run_loop_ok|]. intros e. intros s (h & He & Hs).
  destruct e as [h'|h' what|h'|]; simplify_eq/=.
  - by apply epilogue_ends.
  - assert (hoare (holds (Resting 0 0 B h)) (catch what ;; run_epilogue h ;; mreturn (Threw h what)) (Ended B)) as Hc.
    { apply then_frame; [by apply frame_put|]. intros u'. by apply epilogue_ends. }
    by apply Hc.
  - split; [done|]. eapply holds_weaken; [|exact Hs]. eauto.
Qed.

Definition Closes (e : loop_exit) (s : Sy) : Prop :=
  match e with
  | Stopped_normally h | Threw h _ => Closed h s
  | Still_running _ | Out_of_fuel => True
  end.

Lemma run_closes rounds n fuel B crash :
  (B < n)%nat -> (B < fuel)%nat ->
  hoare (holds (Resting 0 0 B 0)) (run dump rounds n fuel crash) Closes.
Proof.
  intros Hn Hf. unfold run. apply then_frame; [apply frame_log|]. intros u.
  eapply hoare_then; [by apply run_loop_ok|]. intros e. intros s (h & He & Hs).
  destruct e as [h'|h' what|h'|]; simplify_eq/=; [| |done].
  - assert (hoare (holds (Resting 0 0 B h)) (run_epilogue h ;; mreturn (Stopped_normally h)) Closes) as Hc; [|by apply Hc].
    eapply hoare_then; [apply run_epilogue_closes|]. intros u'. by apply hoare_return.
  - assert (hoare (holds (Resting 0 0 B h)) (catch what ;; run_epilogue h ;; mreturn (Threw h what)) Closes) as Hc; [|by apply Hc].
    apply then_frame; [by apply frame_put|]. intros u'.
    eapply hoare_then; [apply run_epilogue_closes|]. intros u2. by apply hoare_return.
Qed.

End WorkerRun.
