(* ===== verification/Guarantees.v ===== *)
(** What the whole system guarantees: a client that was just created, its
    worker, and any schedule of calls on other threads.

    Every theorem starts from [started]: the system ClientInternal::create
    leaves (src/client.cpp), with a schedule of the critical sections other
    threads run between the steps of the worker. *)
From S2P Require Import Prelude Types Serializer Validator Queue Ids Session SqlText Sqlite Store StoreSpec StoreIface Pipeline Admission Worker Tokens Paths Client AdmissionSpec Invariant WorkerSpec WorkerRun.

Local Open Scope Z_scope.
Local Open Scope pt_scope.

Section Guarantees.
Context {S K : Type} `{!StoreOps S} `{!StoreLaws S} `{!SinkOps K}.
Context (dump : json -> library_call string).
#[local] Abbreviation Sy := (Sys S K).

(** What the serializer writes can be read back. *)
Definition payload_usable : Prop := forall qe,
  ok (fst (serialize dump (qe_event qe))) = true -> valid_key (qid qe) ->
  row_event (row_of (record_of qe (snd (serialize dump (qe_event qe))))) <> None.

(** A new client beside a schedule. *)
Definition started (cfg : Config) (snk : K) (st : S) (rng : mt19937_64) (clock : list Z)
    (count highest : Z) (sched : list (list Act)) : Sy :=
  set_schedule sched (new_sys cfg snk st rng clock count highest).

(** What a start needs: a sound store with undamaged rows, and counters that
    the schedule cannot make overflow. *)
Record Startable (cfg : Config) (st : S) (highest : Z) (sched : list (list Act)) : Prop := {
  start_sound : sound st;
  start_rows : Forall (fun r => row_event r <> None) (rows st);
  start_batch : 0 <= cfg_batch_size cfg;
  start_room : 0 <= highest /\ highest + 2 * vsize (concat sched) + 1 < 9223372036854775808
}.

(** The work a start can ever cause: a bound for the loops of the worker. *)
Definition work_bound (st : S) (sched : list (list Act)) : nat :=
  length (rows st) + 6 * length (concat sched) + 3.

Section Runs.
Context (Hjson : payload_usable).
Context (cfg : Config) (snk : K) (st : S) (rng : mt19937_64) (clock : list Z) (count highest : Z).
Context (sched : list (list Act)) (Hst : Startable cfg st highest sched).
Context (rounds n fuel : nat) (Hn : (work_bound st sched < n)%nat) (Hf : (work_bound st sched < fuel)%nat).

#[local] Abbreviation start := (started cfg snk st rng clock count highest sched).
#[local] Abbreviation Rest := (Resting dump (rows st) [] 0 0 (work_bound st sched)).

Lemma start_rests : holds dump (rows st) 1 (Rest 0) start.
Proof using Hst.
  clear Hn Hf. destruct Hst as [Hs Hr Hb [Hh Hm]]. unfold vsize in Hm. split.
  - constructor; simpl; try done; try lia; try (by intros e ?%not_elem_of_nil).
    + constructor.
    + intros _ e He. by apply not_elem_of_nil in He.
    + apply Forall_forall. intros r Hin. by right.
    + intros _. apply Forall_forall. intros r Hin. by right.
    + split; [simpl; lia|]. split; [constructor|]. split; [constructor|]. unfold vsize, kMaxRetainedPasses. simpl. lia.
    + unfold acts_left. unfold generation_of. simpl. lia.
    + constructor.
  - split; [done|]. constructor; [split; [constructor|by intros e ?%not_elem_of_nil]| |done| |].
    + intros e He. by apply not_elem_of_nil in He.
    + unfold Bounded, work, work_bound, acts_left. simpl. lia.
    + split; [simpl; lia|]. split; [simpl; lia|]. split; [done|]. intros e He. by apply not_elem_of_nil in He.
Qed.

Lemma run_rests crash :
  let '(e, s) := run dump rounds n fuel crash start in
  e <> Out_of_fuel /\ exists m h, Inv dump (rows st) m (shape s) /\ Rest h m (shape s).
Proof using Hst Hn Hf Hjson.
  pose proof (run_ok dump (rows st) 1 [] Hjson rounds n fuel _ crash Hn Hf start start_rests) as [He [Hi [h Hr]]].
  destruct (run dump rounds n fuel crash start) as [e s]. simpl in *. eauto.
Qed.

(** C1: Privacy of storage. Whatever calls other threads make between the steps
    of the worker: while consent is granted, every stored event was admitted
    under the current consent generation (or was recovered and consent was
    never revoked); and once a revocation has been carried out, with consent
    not granted again and no call of set_consent in progress, nothing is stored. *)
Theorem revoked_events_not_stored crash :
  let s := snd (run dump rounds n fuel crash start) in
  (consent (pipe s) = Granted -> Forall (fresh dump (rows st) (shape s)) (rows (store (pipe s)))) /\
  (consent (pipe s) <> Granted -> purge_required_ (impl s) = false -> consent_pc (impl s) = CIdle ->
   0 < consent_generation (pipe s) -> rows (store (pipe s)) = []).
Proof using Hst Hn Hf Hjson.
  pose proof (run_rests crash) as Hr. destruct (run dump rounds n fuel crash start) as [e s].
  destruct Hr as (_ & m & h & Hi & _). simpl. split.
  - intros Hc. apply (inv_rows _ _ _ _ Hi). left. by apply (inv_owed _ _ _ _ Hi).
  - intros Hc Ho Hpc Hg. assert (v_owed (shape s) = false) as Hv by (simpl; unfold owed_of; by rewrite Hpc).
    pose proof (inv_rows _ _ _ _ Hi (or_introl Hv)) as Hfr. simpl in Hfr.
    destruct (rows (store (pipe s))) as [|r l]; [done|]. exfalso.
    apply Forall_cons in Hfr as [[(e' & Ha & Hge & _)|[H0 _]] _]; [|simpl in H0; unfold generation_of in H0; rewrite Hpc in H0; lia].
    pose proof (inv_revoked _ _ _ _ Hi Hc e' Ha). lia.
Qed.



(** C3: At most one batch per revocation. The sink can be given a batch after a
    revocation has begun only if the worker saw consent before it, and not twice:
    whatever other threads do, the number of batches given to the sink while
    consent is not granted never exceeds the number of revocations. *)
Theorem one_late_batch_per_revocation crash :
  let s := snd (run dump rounds n fuel crash start) in late s <= generation_of s.
Proof using Hst Hn Hf Hjson.
  pose proof (run_rests crash) as Hr. destruct (run dump rounds n fuel crash start) as [e s].
  destruct Hr as (_ & m & h & Hi & _). exact (inv_late _ _ _ _ Hi).
Qed.

(** C10: Every pass of the worker ends. The delivery loop and the drain loop of a
    flush never use more rounds than the stored events, plus six for every
    section other threads run: beside any schedule, with any failures, no
    iteration loops forever. *)
Theorem worker_passes_terminate crash :
  fst (run dump rounds n fuel crash start) <> Out_of_fuel.
Proof using Hst Hn Hf Hjson.
  pose proof (run_rests crash) as Hr. by destruct (run dump rounds n fuel crash start) as [e s], Hr.
Qed.

(** C24: No flush waits forever. When the worker thread has ended, normally or
    after an exception, every wait on a flush token is over; a token that no
    pass served is not answered Ok. *)
Theorem no_flush_waits_forever crash :
  let '(e, s) := run dump rounds n fuel crash start in
  match e with
  | Stopped_normally h | Threw h _ =>
      finished_ (core s) = true /\
      forall token, exists answer, fst (wait_flush token s) = Some answer /\ (h < token -> ok answer = false)
  | Still_running _ | Out_of_fuel => True
  end.
Proof using Hst Hn Hf Hjson.
  pose proof (run_closes dump (rows st) 1 [] Hjson rounds n fuel _ crash Hn Hf start start_rests) as Hc.
  destruct (run dump rounds n fuel crash start) as [e s]. simpl in Hc.
  assert (forall h, Closed h s -> finished_ (core s) = true /\
    forall token, exists answer, fst (wait_flush token s) = Some answer /\ (h < token -> ok answer = false)) as Hclosed.
  { intros h [Hfin Hno]. split; [done|]. intros token. unfold wait_flush. rewrite mget_then, Hfin, orb_true_r. simpl.
    eexists. split; [done|]. intros Ht. destruct (ok (terminal_status_ (core s))) eqn:Hterm; simpl; [|done].
    unfold flush_result_locked. destruct (map_find token (pass_results_ (core s))) eqn:Hfind; [by eapply Hno|].
    by destruct (finished_ (core s) && _). }
  by destruct e; [apply Hclosed|apply Hclosed|..].
Qed.

(** A flush is refused, or submitted with the last ordinal as its barrier. *)
Lemma flush_section_cases (s : Sy) :
  (exists r, flush_section s = (inl r, s) /\ ok r = false) \/
  flush_section s = (inr (wrap64 (flush_seq_ (core s) + 1)), snd (submit_flush (ordinal_ (impl s)) s)).
Proof using.
  unfold flush_section. rewrite mget_then.
  destruct (bool_decide (lifecycle_ (impl s) = Running)); cbn [negb]; [|left; eexists; by split].
  unfold mthen at 1. rewrite terminal_locked_run.
  destruct (ok (terminal_of s)) eqn:Ht; cbn [negb]; [|left; exists (terminal_of s); by split].
  right. unfold submit_flush, mthen, mget, mput, with_queue. rewrite terminal_locked_run, Ht. simpl. by destruct (_ <? _).
Qed.

(** The answer a waiting thread gets is Ok only when it is recorded. *)
Lemma wait_flush_ok (s : Sy) token :
  let '(r, s') := wait_flush token s in
  (forall x, r = Some x -> ok x = true -> map_find token (pass_results_ (core s)) = Some x) /\
  admitted s' = admitted s /\ written s' = written s /\ pipe s' = pipe s /\ impl s' = impl s.
Proof using.
  unfold wait_flush. rewrite mget_then. destruct (negb _); [done|]. simpl. split; [|done].
  intros x [= <-]. destruct (ok (terminal_status_ (core s))) eqn:Ht; simpl; [|congruence].
  unfold flush_result_locked. destruct (map_find token (pass_results_ (core s))); [done|].
  by destruct (finished_ (core s) && _).
Qed.

(** Settling depends on the history only. *)
Lemma settled_pipe (s s' : Sy) l e :
  admitted s' = admitted s -> written s' = written s -> pipe s' = pipe s -> impl s' = impl s ->
  settled dump l e (shape s) -> settled dump l e (shape s').
Proof using.
  intros Ha Hw Hp Hi. unfold settled, sent, collided. simpl. unfold generation_of. by rewrite Ha, Hw, Hp, Hi.
Qed.

(** The worker at rest, then a flush is submitted: one unit of room is used. *)
Lemma submitted_rests h (s s1 : Sy) :
  holds dump (rows st) 1 (Rest h) s -> s1 = snd (submit_flush (ordinal_ (impl s)) s) ->
  let p := v_passes (shape s) in
  flush_seq_ (core s) + 1 = wrap64 (flush_seq_ (core s) + 1) /\ fst p <= wrap64 (flush_seq_ (core s) + 1) /\
  holds dump (rows st) 0 (Good dump (rows st)
    (mkMark (ordinal_ (impl s)) (wrap64 (flush_seq_ (core s) + 1)) p (admitted s)) 0 (work_bound st sched) []) s1.
Proof using.
  clear Hn Hf. intros [Hi [Hp HG]] -> p. destruct (inv_tokens _ _ _ _ Hi) as [Ht _], (inv_room _ _ _ _ Hi) as (_ & _ & _ & _ & R).
  simpl in Ht, R. assert (wrap64 (flush_seq_ (core s) + 1) = flush_seq_ (core s) + 1) as Hw by (apply wrap64_small; lia).
  split; [done|]. split; [subst p; simpl; lia|].
  destruct (submit_flush_shape (ordinal_ (impl s)) s) as [Hsh Hsch]. unfold holds, acts_left. rewrite Hsch.
  fold (acts_left s). rewrite Nat.add_0_r. rewrite Nat.add_1_r in Hi, HG.
  assert (client_move (shape s) (shape (snd (submit_flush (ordinal_ (impl s)) s)))) as Hm
    by (rewrite Hsh; apply (mv_submit (shape s))).
  split; [by eapply move_inv|].
  pose proof (proj2 (stable_good dump (rows st) _ _ _ _) _ _ _ Hi Hm HG) as [? ? ? ? _]. constructor; [done|done|done|done|].
  rewrite Hsh. split; [simpl; lia|]. split; [simpl; lia|]. split; [done|]. done.
Qed.


End Runs.

End Guarantees.

(** * Witnesses *)

Section Sqlite.
Context {W : Type} `{!SqliteApi W} `{!SqliteSpec W} `{!RollbackReliable W}.
Context (accept : string -> library_call bool) (dump : json -> library_call string).

(** For the SQLite store it is enough that the JSON library accepts the text it
    writes. *)
Lemma sqlite_payload_usable :
  (forall j text, dump j = Value text -> accept text = Value true) ->
  @payload_usable (SqliteStore W) (sqlite_ops accept) (sqlite_laws accept) dump.
Proof.
  intros Hd qe Hok [Hid _]. simpl. unfold sqlite_row_event, bad_row, unusable, serialize in *.
  destruct (dump _) as [text| |] eqn:E; try done. simpl. unfold column_text, column, fetch_columns. simpl.
  rewrite !(spec_text W), bool_decide_false by done. unfold is_valid_json. by rewrite (Hd _ _ E).
Qed.
End Sqlite.

#[local] Existing Instance RefDb.api.
#[local] Existing Instance RefDb.spec.
#[local] Existing Instance RefDb.reliable.

(** A sink that takes everything, and a library that writes one text. *)
#[local] Instance open_sink : SinkOps unit := {
  sink_write := fun _ => mreturn (Value status_ok);
  sink_flush := mreturn (Value status_ok);
  sink_request_cancel := mreturn (Value tt)
}.
Definition sample_dump (j : json) : library_call string := Value "{}".
Definition sample_config : Config :=
  mkConfig "game" "db" Granted true 100 10 1000 1000 64 64 1024 128 false false None.
Definition sample_schedule : list (list Act) := 
  [[ActStartSession "p1"]; []; [ActSetConsent Denied; ActConsentStep; ActConsentStep];
   replicate 4 ActConsentStep ++ replicate 3 ActConsentStep].

#[local] Instance sample_ops : StoreOps (SqliteStore RefDb.conn) := sqlite_ops accept_all.
#[local] Instance sample_laws : StoreLaws (SqliteStore RefDb.conn) := sqlite_laws accept_all.

Lemma sample_usable : payload_usable (S := SqliteStore RefDb.conn) sample_dump.
Proof. by apply (sqlite_payload_usable accept_all). Qed.

Lemma sample_startable :
  Startable sample_config (ref_store empty_db) 0 sample_schedule.
Proof.
  constructor; [split; [done|constructor]|constructor|done|]. split; [done|]. vm_compute. reflexivity.
Qed.

#[local] Abbreviation sample_start :=
  (started sample_config tt (ref_store empty_db) (mkMt [] 0) [0] 0 0 sample_schedule).

Lemma revoked_events_not_stored_witness :
  let s := snd (run sample_dump 2 90 90 None sample_start) in
  consent (pipe s) = Denied /\ length (admitted s) = 1%nat /\ rows (store (pipe s)) = [].
Proof.
  intros s. split; [vm_compute; reflexivity|]. split; [vm_compute; reflexivity|].
  apply (proj2 (revoked_events_not_stored sample_dump sample_usable sample_config tt (ref_store empty_db) (mkMt [] 0)
    [0] 0 0 sample_schedule sample_startable 2 90 90 ltac:(vm_compute; lia) ltac:(vm_compute; lia) None)).
  - vm_compute. discriminate.
  - vm_compute. reflexivity.
  - vm_compute. reflexivity.
  - vm_compute. reflexivity.
Defined.


(** A run with a session, whose first event is delivered. *)
Definition quiet_schedule : list (list Act) := [[ActStartSession "p1"]].

Lemma quiet_startable :
  Startable sample_config (ref_store empty_db) 0 quiet_schedule.
Proof.
  constructor; [split; [done|constructor]|constructor|done|]. split; [done|]. vm_compute. reflexivity.
Qed.

Definition quiet_start : Sys (SqliteStore RefDb.conn) unit :=
  started sample_config tt (ref_store empty_db) (mkMt [] 0) [0] 0 0 quiet_schedule.


(** The revocation begins between the last check of consent and the write. *)
Definition late_schedule : list (list Act) :=
  [ActStartSession "p1"] :: replicate 11 [] ++ [[ActSetConsent Denied]].

Lemma late_startable : Startable sample_config (ref_store empty_db) 0 late_schedule.
Proof.
  constructor; [split; [done|constructor]|constructor|done|]. split; [done|]. vm_compute. reflexivity.
Qed.

Lemma one_late_batch_per_revocation_witness :
  let s := snd (run sample_dump 2 60 60 None
    (started sample_config tt (ref_store empty_db) (mkMt [] 0) [0] 0 0 late_schedule)) in
  late s = 1 /\ length (written s) = 1%nat /\ late s <= generation_of s.
Proof.
  split; [vm_compute; reflexivity|]. split; [vm_compute; reflexivity|].
  exact (one_late_batch_per_revocation sample_dump sample_usable sample_config tt (ref_store empty_db) (mkMt [] 0)
    [0] 0 0 late_schedule late_startable 2 60 60 ltac:(vm_compute; lia) ltac:(vm_compute; lia) None).
Defined.

Lemma worker_passes_terminate_witness :
  fst (run sample_dump 2 90 90 None sample_start) <> Out_of_fuel.
Proof.
  exact (worker_passes_terminate sample_dump sample_usable sample_config tt (ref_store empty_db) (mkMt [] 0)
    [0] 0 0 sample_schedule sample_startable 2 90 90 ltac:(vm_compute; lia) ltac:(vm_compute; lia) None).
Defined.

Lemma no_flush_waits_forever_witness :
  let s := snd (run sample_dump 2 90 90 (Some (1%nat, Some "boom")) sample_start) in
  exists answer, fst (wait_flush 7 s) = Some answer /\ (0 < 7 -> ok answer = false).
Proof.
  intros s. pose proof (no_flush_waits_forever sample_dump sample_usable sample_config tt (ref_store empty_db) (mkMt [] 0)
    [0] 0 0 sample_schedule sample_startable 2 90 90 ltac:(vm_compute; lia) ltac:(vm_compute; lia) (Some (1%nat, Some "boom"))) as Hw.
  rewrite (surjective_pairing (run _ _ _ _ _ _)) in Hw.
  assert (fst (run sample_dump 2 90 90 (Some (1%nat, Some "boom")) sample_start) = Threw 0 (Some "boom")) as E
    by (vm_compute; reflexivity).
  rewrite E in Hw. exact (proj2 Hw 7).
Defined.

