(* ===== verification/Accounting.v ===== *)
(** Durable storage stays within its cap.

    Pipeline keeps one number, [outstanding], for everything that was accepted
    and not yet disposed of; admission refuses an event when it has reached
    Config::max_pending_events (src/client.cpp, src/internal/pipeline.hpp). The
    worker gives room back at ten places (src/worker.cpp). This file shows that
    the number never falls below what is stored, queued, held for retry or in
    the hands of the worker, so that the store never outgrows the cap. Other
    threads may do anything but grant consent: Findings.v has a run in which
    a new grant makes the number too small. *)
From S2P Require Import Prelude Types Serializer Validator Queue Ids Session SqlText Sqlite Store StoreSpec StoreIface Pipeline Admission Worker Tokens Paths Client AdmissionSpec Invariant WorkerSpec WorkerRun Guarantees.

Local Open Scope Z_scope.
Local Open Scope pt_scope.

(** The lemmas on steps that leave the accounts alone. *)
Create HintDb accounts.

Section Accounting.
Context {S K : Type} `{!StoreOps S} `{!StoreLaws S} `{!SinkOps K}.
Context (dump : json -> library_call string).
Context (bound : Z) (Hbound : bound < 18446744073709551616).
#[local] Abbreviation Sy := (Sys S K).

(** * Definitions *)

(** Other threads do not grant consent. *)
Definition never_grants (acts : list Act) : Prop := Forall (fun a => a <> ActSetConsent Granted) acts.

(** A consent change in progress is a revocation, and it has taken effect. *)
Definition revoking (pc : ConsentPc) (con : ConsentState) : Prop :=
  match pc with
  | CIdle => True
  | CBump | CClear | CDiscard | CForget | CMark false | CPurge false | CDone false => con <> Granted
  | CRelease dropped | CReturn dropped => 0 <= dropped /\ con <> Granted
  | _ => False
  end.

(** What is stored, queued and held for retry. *)
Definition kept_total (s : Sy) : Z :=
  vsize (rows (store (pipe s))) + vsize (queue_ (queue (pipe s))) + vsize (retry_ (core s)).

(** An event with a usable identifier. *)
Definition keyed (e : QueuedEvent) : Prop := valid_key (qid e).

Record Books (s : Sy) : Prop := {
  bk_sound : sound (store (pipe s));
  bk_pc : revoking (consent_pc (impl s)) (consent (pipe s));
  bk_others : Forall never_grants (schedule s);
  bk_cap : max_pending_events_ (impl s) <= bound;
  bk_count : 0 <= outstanding (pipe s) <= bound;
  bk_rows : vsize (rows (store (pipe s))) <= bound;
  bk_queue : Forall keyed (queue_ (queue (pipe s)));
  bk_retry : Forall keyed (retry_ (core s));
  bk_batch : 0 <= cfg_batch_size (config (pipe s))
}.

(** The accounts while the worker owes [k]: events in its hands, or room it has
    yet to give back. While consent is granted, [p] holds of the generation. *)
Definition Acc (p : Z -> Prop) (k : Z) (s : Sy) : Prop :=
  Books s /\ (consent (pipe s) = Granted -> p (consent_generation (pipe s)) /\ kept_total s + k <= outstanding (pipe s)).

(** Consent is lost for good. *)
Definition lost (g : Z) : Prop := False.
Definition whatever (g : Z) : Prop := True.

(** The parts of the system the accounts are about. *)
Definition ledger (s : Sy) :=
  (store (pipe s), queue_ (queue (pipe s)), retry_ (core s), consent (pipe s), consent_generation (pipe s),
   consent_pc (impl s), outstanding (pipe s), max_pending_events_ (impl s), cfg_batch_size (config (pipe s)), schedule s).

Definition still {A} (m : M Sy A) : Prop := forall s, ledger (snd (m s)) = ledger s.

(** The computation keeps every account. *)
Definition keeps {A} (m : M Sy A) : Prop := forall p k, hoare (Acc p k) m (fun _ s => Acc p k s).

(** * Lemmas *)

(** ** Steps that leave the accounts alone *)

Lemma still_return {A} (a : A) : still (mreturn a).
Proof using. by intros s. Qed.

Lemma still_get {A} (f : Sy -> A) : still (mget f).
Proof using. by intros s. Qed.

Lemma still_put (f : Sy -> Sy) : (forall s, ledger (f s) = ledger s) -> still (mput f).
Proof using. intros Hf s. apply Hf. Qed.

Lemma still_then {A B} (m : M Sy A) (f : A -> M Sy B) : still m -> (forall a, still (f a)) -> still (mthen m f).
Proof using.
  intros Hm Hf s. unfold mthen. specialize (Hm s). destruct (m s) as [a s1]. rewrite <- Hm. apply Hf.
Qed.

Lemma still_if {A} (b : bool) (m n : M Sy A) : still m -> still n -> still (if b then m else n).
Proof using. by destruct b. Qed.

Lemma still_upd_stats f : still (upd_stats f).
Proof using. by apply still_put. Qed.

Lemma still_upd_session f : still (upd_session f).
Proof using. by apply still_put. Qed.

Lemma still_log l t : still (log l t).
Proof using. apply still_put. intros s. unfold on_pipe, set_pipe. simpl. by destruct (cfg_log_callback _). Qed.

Lemma still_report_error e : still (report_error e).
Proof using. apply still_put. intros s. unfold on_pipe, set_pipe. simpl. by destruct (cfg_error_callback _). Qed.

Lemma still_note_error e : still (note_error e).
Proof using.
  apply still_then; [apply still_report_error|]. intros _. apply still_put. intros s.
  unfold on_core, set_core, ledger. simpl. by destruct (ok _).
Qed.

Lemma still_forget_errors : still forget_errors.
Proof using. by apply still_put. Qed.

Lemma still_read_clock : still read_clock.
Proof using. intros s. unfold read_clock. by destruct (clock_ (impl s)) as [|? [|? ?]]. Qed.

Lemma still_kick : still (with_queue (fun q => (tt, kick q))).
Proof using. by intros s. Qed.

Lemma still_terminal_locked : still terminal_locked.
Proof using. intros s. by rewrite terminal_locked_run. Qed.

Lemma still_begin_session p : still (begin_session p).
Proof using.
  apply still_then; [apply still_read_clock|]. intros now s. by destruct (session_begin _ _ _ _) as [[? ?] ?].
Qed.

Lemma still_sink {A} (m : M K A) : still (with_sink m).
Proof using. intros s. unfold with_sink. by destruct (m (sink (pipe s))). Qed.

#[local] Hint Resolve still_return still_get still_then still_if still_upd_stats still_upd_session still_log
  still_report_error still_note_error still_forget_errors still_read_clock still_kick still_terminal_locked
  still_begin_session still_sink : accounts.

Lemma still_reserve n : still (reserve_locked n).
Proof using. unfold reserve_locked. auto 10 with accounts. Qed.

Lemma still_safe_write batch : still (safe_write batch).
Proof using.
  unfold safe_write. apply still_then; [auto with accounts|]. intros present. apply still_if; [auto with accounts|].
  apply still_then; [auto with accounts|]. intros r. apply still_then; [by apply still_put|]. auto with accounts.
Qed.

Lemma still_safe_flush_sink : still safe_flush_sink.
Proof using.
  unfold safe_flush_sink. apply still_then; [auto with accounts|]. intros present. apply still_if; [auto with accounts|].
  apply still_then; [auto with accounts|]. intros []; auto with accounts.
Qed.

Lemma still_submit_flush b : still (submit_flush b).
Proof using.
  unfold submit_flush. apply still_then.
  - apply still_put. intros s. unfold on_core, set_core, ledger. simpl. by destruct (_ <? _).
  - intros _. apply still_then; [auto with accounts|]. intros seq. apply still_then; [by apply still_put|].
    auto with accounts.
Qed.

Lemma still_flush_section : still flush_section.
Proof using.
  unfold flush_section. apply still_then; [auto with accounts|]. intros life. apply still_if; [auto with accounts|].
  apply still_then; [auto with accounts|]. intros t. apply still_if; [auto with accounts|].
  apply still_then; [auto with accounts|]. intros b. apply still_then; [apply still_submit_flush|]. auto with accounts.
Qed.

#[local] Hint Resolve still_reserve still_safe_write still_safe_flush_sink still_flush_section : accounts.

(** ** The accounts *)

Lemma still_keeps {A} (m : M Sy A) : still m -> keeps m.
Proof using.
  intros Hm p k s [[] Ha]. specialize (Hm s). unfold ledger in Hm.
  injection Hm as E1 E2 E3 E4 E5 E6 E7 E8 E9 E10. split.
  - constructor; congruence.
  - unfold kept_total in *. rewrite E1, E2, E3, E4, E5, E7. exact Ha.
Qed.

Lemma keeps_then {A B} (m : M Sy A) (f : A -> M Sy B) : keeps m -> (forall a, keeps (f a)) -> keeps (mthen m f).
Proof using. intros Hm Hf p k. eapply hoare_then; [apply Hm|]. intros a. apply Hf. Qed.

Lemma keeps_if {A} (b : bool) (m n : M Sy A) : keeps m -> keeps n -> keeps (if b then m else n).
Proof using. by destruct b. Qed.

Lemma acc_weaken p k p' k' s : (forall g, p g -> p' g) -> k' <= k -> Acc p k s -> Acc p' k' s.
Proof using. intros Hp Hk [Hb Ha]. split; [done|]. intros Hc. destruct (Ha Hc). split; [auto|lia]. Qed.

(** Without consent nothing more is claimed of the accounts. *)
Lemma acc_lost p k k' s : Acc lost k s -> Acc p k' s.
Proof using. intros [Hb Ha]. split; [done|]. intros Hc. by destruct (Ha Hc). Qed.

Lemma lost_intro k s : Books s -> consent (pipe s) <> Granted -> Acc lost k s.
Proof using. intros Hb Hc. split; [done|]. intros ?. done. Qed.

(** A store operation that removes at least [d] rows. *)
Lemma store_acc {A} (m : M S A) (d : A -> Z) (F : A -> Prop) p k :
  (forall st, sound st -> vsize (rows st) <= bound ->
     let '(a, st') := m st in
     sound st' /\ (0 <= d a /\ vsize (rows st') + d a <= vsize (rows st)) /\ F a) ->
  hoare (Acc p k) (with_store m) (fun a s => F a /\ Acc p (d a + k) s).
Proof using.
  intros Hm s [[] Ha]. unfold with_store. specialize (Hm (store (pipe s)) bk_sound0 bk_rows0).
  destruct (m (store (pipe s))) as [a st']. destruct Hm as (Hs & Hd & HF). split; [done|]. split.
  - constructor; simpl; try done. lia.
  - unfold kept_total in *. simpl. intros Hc. destruct (Ha Hc). split; [done|]. lia.
Qed.

(** A store operation that removes some rows, or none. *)
Lemma store_keeps {A} (m : M S A) :
  (forall st, sound st -> let '(_, st') := m st in sound st' /\ vsize (rows st') <= vsize (rows st)) ->
  keeps (with_store m).
Proof using.
  intros Hm p k. eapply hoare_conseq; [apply (store_acc m (fun _ => 0) (fun _ => True))|done|by intros a s [_ ?]].
  intros st Hs _. specialize (Hm st Hs). destruct (m st) as [a st']. destruct Hm. split; [done|]. split; [lia|done].
Qed.

Lemma release_acc n p k : 0 <= n -> hoare (Acc p (n + k)) (release_outstanding n) (fun _ s => Acc p k s).
Proof using.
  intros Hn. apply hoare_put. intros s [[] Ha]. split.
  - constructor; simpl; try done. destruct (Z.ltb_spec n (outstanding (pipe s))); lia.
  - unfold kept_total in *. simpl. intros Hc. destruct (Ha Hc) as [Hp Hk]. split; [done|].
    pose proof (vsize_nonneg (rows (store (pipe s)))). pose proof (vsize_nonneg (queue_ (queue (pipe s)))).
    pose proof (vsize_nonneg (retry_ (core s))). destruct (Z.ltb_spec n (outstanding (pipe s))); lia.
Qed.

Lemma release_lost n k : 0 <= n -> hoare (Acc lost k) (release_outstanding n) (fun _ s => Acc lost k s).
Proof using. intros Hn. eapply hoare_pre; [by apply release_acc|]. intros s. apply acc_lost. Qed.

(** ** The sections of other threads *)

Lemma admit_keeps name props : keeps (admit_locked name props).
Proof using Hbound.
  intros p k s Hs. destruct (refusal s) as [[st f]|] eqn:Hr.
  { destruct (admit_refused name props s st f Hr) as [-> _]. by apply (still_keeps (upd_stats f) (still_upd_stats f) p k s). }
  rewrite (admit_accepted name props s Hr).
  assert (outstanding (pipe s) < max_pending_events_ (impl s)) as Hroom.
  { unfold refusal in Hr. do 4 (case_match; [done|]). destruct (Z.leb_spec (max_pending_events_ (impl s)) (outstanding (pipe s))); [done|lia]. }
  destruct Hs as [[] Ha]. assert (wrap64 (outstanding (pipe s) + 1) = outstanding (pipe s) + 1) as Hw by (apply wrap64_small; lia).
  split.
  - constructor; simpl; try done; [lia|]. apply Forall_app. split; [done|]. apply Forall_singleton, uuid4_valid_key.
  - unfold kept_total in *. simpl. intros Hc. destruct (Ha Hc). split; [done|]. rewrite Hw, vsize_app, vsize_cons, vsize_nil. lia.
Qed.

#[local] Hint Resolve still_keeps admit_keeps : accounts.

(** A composition of steps that keep the accounts. *)
Ltac keep_accounts :=
  repeat first [solve [auto 10 with accounts] | apply keeps_then; [|intros ?] | apply keeps_if | case_match].

Lemma end_session_keeps : keeps end_session_locked.
Proof using Hbound. unfold end_session_locked. keep_accounts. Qed.

#[local] Hint Resolve end_session_keeps : accounts.

Lemma start_session_keeps player : keeps (start_session_locked player).
Proof using Hbound. unfold start_session_locked. keep_accounts. Qed.

Lemma end_section_keeps : keeps end_session_section.
Proof using Hbound. unfold end_session_section. keep_accounts. Qed.

Lemma track_section_keeps g name props : keeps (track_section g name props).
Proof using Hbound. unfold track_section. keep_accounts. Qed.

#[local] Hint Resolve start_session_keeps end_section_keeps track_section_keeps : accounts.

(** A step to another point of a revocation. *)
Lemma goto_lost pc k :
  (forall con, con <> Granted -> revoking pc con) -> hoare (Acc lost k) (goto pc) (fun _ s => Acc lost k s).
Proof using.
  intros Hpc. apply hoare_put. intros s [[] Ha].
  assert (consent (pipe s) <> Granted) as Hc by (intros Hc; by destruct (Ha Hc)).
  apply lost_intro; [|done]. constructor; simpl; try done. by apply Hpc.
Qed.

Lemma give_back_lost n k : 0 <= n -> hoare (Acc lost k) (give_back n) (fun _ s => Acc lost k s).
Proof using.
  intros Hn. unfold give_back. destruct (0 <? n); [|by apply hoare_return].
  eapply hoare_then; [apply still_keeps; auto with accounts|]. intros ?. by apply release_lost.
Qed.

(** A step on the ledger once consent is lost. *)
Lemma put_lost (f : Sy -> Sy) k :
  (forall s, Books s -> Books (f s)) -> (forall s, consent (pipe (f s)) = consent (pipe s)) ->
  hoare (Acc lost k) (mput f) (fun _ s => Acc lost k s).
Proof using.
  intros Hb Hc. apply hoare_put. intros s [HB Ha]. split; [by apply Hb|]. rewrite Hc. intros Hg. by destruct (Ha Hg).
Qed.

Lemma purge_mark_keeps : keeps purge_mark.
Proof using.
  unfold purge_mark. apply keeps_then; [|keep_accounts]. apply store_keeps. intros st Hs.
  pose proof (law_mark st Hs) as Hl. destruct (store_mark_revocation_pending st) as [a st']. destruct Hl as (? & -> & _). done.
Qed.

Lemma purge_delete_keeps : keeps purge_delete.
Proof using.
  unfold purge_delete. apply keeps_then; [|intros [? ?]; keep_accounts]. apply store_keeps. intros st Hs.
  pose proof (law_purge st Hs) as Hl. destruct (store_purge_and_clear_revocation st) as [[a n] st']. destruct Hl as [? Hl].
  split; [done|]. destruct (ok a), Hl as [-> _]; [|lia]. rewrite vsize_nil. apply vsize_nonneg.
Qed.

Lemma reset_lost n k : 0 <= n <= bound -> hoare (Acc lost k) (reset_outstanding n) (fun _ s => Acc lost k s).
Proof using.
  intros Hn. apply hoare_put. intros s [[] Ha]. split; [by constructor|]. intros Hg. by destruct (Ha Hg).
Qed.

(** A step of a revocation that has taken effect. *)
Lemma lost_keeps {A} (m : M Sy A) p k s :
  hoare (Acc lost 0) m (fun _ s => Acc lost 0 s) -> Books s -> consent (pipe s) <> Granted -> Acc p k (snd (m s)).
Proof using. intros Hm HB Hc. eapply acc_lost, (Hm s). by apply lost_intro. Qed.

Lemma consent_step_keeps : 0 <= bound -> keeps consent_step.
Proof using.
  intros H0 p k s [HB Ha]. unfold consent_step. rewrite mget_then. pose proof (bk_pc s HB) as Hpc.
  destruct (consent_pc (impl s)) as [| | |n| |n| |[]|[]|[]|]; simpl in Hpc; try done; apply lost_keeps; try done; try apply Hpc.
  - eapply (hoare_then _ (fun _ s => Acc lost 0 s)); [|intros ?; by apply goto_lost]. apply put_lost; [|done]. intros s' []. by constructor.
  - eapply (hoare_then _ (fun dropped s => 0 <= dropped /\ Acc lost 0 s)).
    { intros s' [[] Hl]. split; [apply vsize_nonneg|]. split; [by constructor|]. intros Hg. by destruct (Hl Hg). }
    intros dropped. apply hoare_given. intros Hd. by apply goto_lost.
  - eapply hoare_then; [apply give_back_lost, Hpc|]. intros ?. by apply goto_lost.
  - eapply hoare_then; [apply still_keeps; auto with accounts|]. intros ?.
    eapply hoare_then; [apply still_keeps; by apply still_put|]. intros ?.
    eapply (hoare_then _ (fun dropped s => 0 <= dropped /\ Acc lost 0 s)).
    { apply hoare_get. intros s' Hs. split; [apply vsize_nonneg|done]. }
    intros dropped. apply hoare_given. intros Hd. eapply (hoare_then _ (fun _ s => Acc lost 0 s)); [|intros ?; by apply goto_lost].
    apply put_lost; [|done]. intros s' []. by constructor.
  - eapply hoare_then; [apply give_back_lost, Hpc|]. intros ?. by apply goto_lost.
  - eapply hoare_then; [apply still_keeps; auto with accounts|]. intros ?. by apply goto_lost.
  - eapply hoare_then; [apply purge_mark_keeps|]. intros st. by apply goto_lost; destruct (ok st).
  - eapply hoare_then; [apply purge_delete_keeps|]. intros st. by apply goto_lost; destruct (ok st).
  - eapply (hoare_then _ (fun _ s => Acc lost 0 s)); [|intros ?; by apply goto_lost].
    eapply hoare_then; [apply still_keeps; by apply still_put|]. intros ?. by apply reset_lost.
Qed.

(** A revocation begins: from here on consent is lost. *)
Lemma consent_enter_keeps c : c <> Granted -> keeps (consent_enter c).
Proof using.
  intros Hc p k. unfold consent_enter. apply hoare_read. intros pc.
  destruct pc; try (eapply hoare_pre; [apply still_keeps, still_return|by intros s [Hs _]]).
  rewrite bool_decide_false by done. eapply (hoare_then _ (fun _ s => Acc lost 0 s)).
  - apply hoare_put. intros s [[[] _] Hpc]. apply lost_intro; [|done]. constructor; simpl; try done. by rewrite Hpc.
  - intros ?. eapply hoare_conseq; [apply (goto_lost CBump 0)|done|]; [done|]. intros u s. apply acc_lost.
Qed.

Lemma admission_keeps (m : M Sy unit) : keeps m -> keeps (admission m).
Proof using. intros Hm. unfold admission. keep_accounts. Qed.

#[local] Hint Resolve admission_keeps : accounts.

Lemma perform_keeps a : 0 <= bound -> a <> ActSetConsent Granted -> keeps (perform a).
Proof using Hbound.
  intros H0 Ha. destruct a; simpl; try (apply admission_keeps; keep_accounts).
  - apply consent_enter_keeps. congruence.
  - by apply consent_step_keeps.
  - unfold drain_section. apply keeps_then; [keep_accounts|]. intros life. apply keeps_if; [keep_accounts|].
    apply keeps_then; [keep_accounts|]. intros b. apply keeps_then; [apply still_keeps, still_submit_flush|keep_accounts].
  - apply still_keeps, still_put. intros s. unfold on_impl, set_impl, ledger. simpl. by destruct (bool_decide _).
  - unfold request_sink_cancel. keep_accounts.
  - unfold request_stop. apply keeps_then; [apply still_keeps; by apply still_put|]. intros ?. keep_accounts.
Qed.

Lemma beside_keeps a : 0 <= bound -> a <> ActSetConsent Granted -> keeps (perform_beside_store a).
Proof using Hbound.
  intros H0 Ha. unfold perform_beside_store. apply keeps_then; [keep_accounts|]. intros pc.
  pose proof (perform_keeps a H0 Ha) as Hp. destruct a; try done. by apply keeps_if; [keep_accounts|].
Qed.

Lemma perform_all_keeps step acts :
  (forall a, a <> ActSetConsent Granted -> keeps (step a)) -> never_grants acts -> keeps (perform_all step acts).
Proof using.
  intros Hstep. induction 1 as [|a acts Ha _ IH]; simpl; [keep_accounts|]. apply keeps_then; [by apply Hstep|]. by intros ?.
Qed.

Lemma interleave_keeps step :
  (forall a, 0 <= bound -> a <> ActSetConsent Granted -> keeps (step a)) -> keeps (interleave step).
Proof using.
  intros Hstep p k s [HB Ha]. unfold interleave. destruct (schedule s) as [|acts rest] eqn:E; [by split|].
  pose proof (bk_others s HB) as Ho. rewrite E in Ho. apply Forall_cons in Ho as [Hacts Hrest].
  apply (perform_all_keeps step acts); [|done|].
  - intros a. apply Hstep. pose proof (bk_count s HB). lia.
  - split; [|done]. destruct HB. by constructor.
Qed.

Lemma env_keeps : keeps env.
Proof using Hbound. apply interleave_keeps, perform_keeps. Qed.

(** While the worker holds [store_mutex], the store stays as it is. *)
Lemma acc_storing {A} st p k (m : M Sy A) Q :
  hoare (fun s => store (pipe s) = st /\ Acc p k s) m Q ->
  hoare (fun s => store (pipe s) = st /\ Acc p k s) (storing m) Q.
Proof using Hbound.
  intros Hm. unfold storing. eapply (hoare_then _ (fun _ s => store (pipe s) = st /\ Acc p k s)); [|by intros ?]. intros s [Hst Hs]. split.
  - rewrite beside_store; [done|]. by apply Hs.
  - exact (interleave_keeps perform_beside_store beside_keeps p k s Hs).
Qed.

(** ** Steps of the worker *)

Lemma acc_shared {A} p k (m : M Sy A) Q : hoare (Acc p k) m Q -> hoare (Acc p k) (shared m) Q.
Proof using Hbound. intros Hm. unfold shared. eapply hoare_then; [apply env_keeps|]. by intros ?. Qed.

Lemma keeps_shared {A} (m : M Sy A) : keeps m -> keeps (shared m).
Proof using Hbound. intros Hm p k. apply acc_shared, Hm. Qed.

#[local] Hint Resolve keeps_shared : accounts.

(** Either the worker reads that consent is granted, or it is lost. *)
Lemma consent_acc p k :
  hoare (Acc p k) (shared get_consent) (fun con s => Acc (if bool_decide (con = Granted) then p else lost) k s).
Proof using Hbound.
  apply acc_shared, hoare_get. intros s Hs. case_bool_decide as Hc; [done|]. by apply lost_intro; [apply Hs|].
Qed.

(** The generation cannot change while consent is granted. *)
Lemma generation_acc p k :
  hoare (Acc p k) (shared get_generation) (fun gen s => Acc (fun g => p g /\ g = gen) k s).
Proof using Hbound.
  apply acc_shared, hoare_get. intros s [HB Ha]. split; [done|]. intros Hc. destruct (Ha Hc). done.
Qed.

Lemma purge_store_acc p k : hoare (Acc lost 0) purge_store (fun _ s => Acc p k s).
Proof using Hbound.
  unfold purge_store. eapply (hoare_then _ (fun r s => 0 <= snd r <= bound /\ Acc lost (0 + 0) s)).
  { apply acc_shared, (store_acc _ (fun _ => 0) (fun r => 0 <= snd r <= bound)). intros st Hs Hr.
    unfold purge_and_count, mthen. pose proof (law_purge st Hs) as Hl. pose proof (vsize_nonneg (rows st)).
    destruct (store_purge_and_clear_revocation st) as [[a n] st1]. destruct Hl as [Hs1 Hl]. destruct (ok a); simpl.
    - pose proof (law_count st1 Hs1) as Hc. destruct (store_count st1) as [[c m] st2]. simpl.
      destruct Hc as (? & _ & -> & ->), Hl as [-> _].
      change (vsize []) with 0. split; [done|]. split; [lia|]. destruct (ok c); lia.
    - destruct Hl as [-> _]. split; [done|]. split; lia. }
  intros [purged remaining]. apply hoare_given. simpl. intros Hn.
  eapply (hoare_conseq _ (Acc lost 0) _ (fun _ s => Acc lost 0 s)); [|intros s; apply acc_lost|intros u s; apply acc_lost].
  destruct (ok purged); simpl; [by apply acc_shared, reset_lost|]. apply keeps_shared, still_keeps; auto with accounts.
Qed.

(** Events that leave the shared state for the hands of the worker. *)
Lemma pop_batch_acc p k :
  hoare (Acc p k) (shared pop_batch) (fun out s => Forall keyed out /\ Acc p (vsize out + k) s).
Proof using Hbound.
  apply acc_shared. intros s [[] Ha]. unfold pop_batch. rewrite mget_then. unfold with_queue.
  rewrite (pop_wait_spec (queue (pipe s)) _ []) by done. simpl. set (n := Z.to_nat _).
  rewrite <- (take_drop n (queue_ (queue (pipe s)))) in bk_queue0. apply Forall_app in bk_queue0 as [Hk1 Hk2].
  split; [done|]. split; [by constructor|]. unfold kept_total in *. simpl. intros Hc. destruct (Ha Hc) as [Hp Hk].
  split; [done|]. rewrite <- (take_drop n (queue_ (queue (pipe s)))), vsize_app in Hk. lia.
Qed.

Lemma take_retry_acc p k :
  hoare (Acc p k) (shared take_retry) (fun held s => Forall keyed held /\ Acc p (vsize held + k) s).
Proof using Hbound.
  apply acc_shared. intros s [[] Ha]. split; [done|]. split; [by constructor|]. unfold kept_total in *. simpl. intros Hc.
  destruct (Ha Hc). split; [done|]. rewrite vsize_nil. lia.
Qed.

(** The worker gives a batch back to be retried. *)
Lemma hold_acc f p k :
  Forall keyed f -> hoare (Acc p (vsize f + k)) (shared (hold_for_retry f)) (fun _ s => Acc p k s).
Proof using Hbound.
  intros Hf. apply acc_shared. intros s [[] Ha].
  assert (snd (hold_for_retry f s) = on_core (set_retry_ (f ++ retry_ (core s))) s) as ->.
  { clear. destruct s as [pi [r ? ? ? ? ? ? ? ? ?] im sc ad wr la], f as [|e f]; [done|]. destruct r; [|done].
    unfold on_core. simpl. by rewrite app_nil_r. }
  split; [constructor; simpl; try done; by apply Forall_app|]. unfold kept_total in *. simpl. intros Hc.
  destruct (Ha Hc). split; [done|]. rewrite vsize_app. lia.
Qed.

(** A kept event, with its record. *)
Definition filed (x : QueuedEvent * StoredRecord) : Prop := keyed (fst x) /\ valid_record (snd x).

Lemma keep_loop_acc g batch p k :
  Forall keyed batch ->
  hoare (Acc p (vsize batch + k)) (keep_loop dump g batch)
    (fun kept s => Forall filed kept /\ Acc p (vsize kept + k) s).
Proof using Hbound.
  intros Hb. revert k. induction Hb as [|e batch He _ IH]; intros k; cbn [keep_loop].
  { apply hoare_return. intros s Hs. by split. }
  assert (hoare (Acc p (vsize (e :: batch) + k)) (shared (release_outstanding 1) ;; keep_loop dump g batch)
    (fun kept s => Forall filed kept /\ Acc p (vsize kept + k) s)) as Hdrop.
  { eapply (hoare_then _ (fun _ s => Acc p (vsize batch + k) s)); [|intros u; apply IH].
    replace (vsize (e :: batch) + k) with (1 + (vsize batch + k)) by (rewrite vsize_cons; lia).
    by apply acc_shared, release_acc. }
  destruct (negb _).
  { eapply hoare_then; [apply still_keeps; auto with accounts|]. by intros u. }
  destruct (serialize dump (qe_event e)) as [st payload]. destruct (negb _).
  { eapply hoare_then; [apply still_keeps; auto with accounts|]. intros u.
    eapply hoare_then; [apply still_keeps; auto with accounts|]. by intros u'. }
  eapply (hoare_then _ (fun kept s => Forall filed kept /\ Acc p (vsize kept + (1 + k)) s)).
  { eapply hoare_pre; [apply IH|]. intros s. rewrite vsize_cons. by apply acc_weaken; [|lia]. }
  intros kept. apply hoare_given. intros Hk. apply hoare_return. intros s Hs. split; [by constructor|].
  eapply acc_weaken; [| |exact Hs]; [done|]. rewrite vsize_cons. lia.
Qed.

(** The insertion: what is not stored is still in the hands of the worker. *)
Lemma store_insert_acc st kept k :
  0 <= k -> Forall filed kept -> vsize (rows st) + vsize kept <= bound ->
  hoare (fun s => store (pipe s) = st /\ Acc whatever (vsize kept + k) s) (with_store (store_insert (snd <$> kept)))
    (fun a s => Acc whatever ((if ok a then 0 else vsize kept) + k) s).
Proof using Hbound.
  intros H0 Hk Hroom s [Est [[] Ha]]. unfold with_store.
  pose proof (law_insert (snd <$> kept) (store (pipe s)) bk_sound0) as Hl.
  destruct (store_insert (snd <$> kept) (store (pipe s))) as [a st']. simpl.
  destruct Hl as (Hs' & _ & Hr); [apply Forall_fmap; eapply Forall_impl; [exact Hk|by intros x [_ ?]]|].
  assert (vsize (rows st') <= vsize (rows (store (pipe s))) + if ok a then vsize kept else 0) as Hlen.
  { rewrite Hr. destruct (ok a); [|lia]. pose proof (insert_all_length (snd <$> kept) (rows (store (pipe s)))) as Hi.
    rewrite length_fmap in Hi. unfold vsize. lia. }
  split.
  - constructor; simpl; try done. rewrite Est in *. destruct (ok a); lia.
  - unfold kept_total in *. simpl. intros Hc. destruct (Ha Hc). split; [done|]. destruct (ok a); lia.
Qed.

(** The boundary. *)
Lemma insert_acc g kept k :
  0 <= k -> Forall filed kept ->
  hoare (Acc whatever (vsize kept + k)) (shared (insert_at_boundary g (snd <$> kept)))
    (fun o s => Acc whatever (match o with Some st => if ok st then 0 else vsize kept | None => vsize kept end + k) s).
Proof using Hbound.
  intros H0 Hk. apply acc_shared. intros s Hs. unfold insert_at_boundary, get_consent. rewrite mget_then.
  destruct (bool_decide (consent (pipe s) = Granted)) eqn:Hc; simpl; [|done]. apply bool_decide_eq_true_1 in Hc.
  assert (vsize (rows (store (pipe s))) + vsize kept <= bound) as Hroom.
  { destruct Hs as [[] Ha]. destruct (Ha Hc) as [_ Hle]. unfold kept_total in Hle.
    pose proof (vsize_nonneg (queue_ (queue (pipe s)))). pose proof (vsize_nonneg (retry_ (core s))). lia. }
  remember (store (pipe s)) as st eqn:Est.
  apply (hoare_then (fun s => store (pipe s) = st /\ Acc whatever (vsize kept + k) s)
    (fun _ s => store (pipe s) = st /\ Acc whatever (vsize kept + k) s)); [| |done].
  { by apply acc_storing, hoare_get. }
  intros gen. destruct (negb _); [by apply hoare_return; intros s' [_ ?]|].
  eapply hoare_then; [apply acc_storing; by apply store_insert_acc|]. intros a. by apply hoare_return.
Qed.

Lemma process_incoming_acc drained :
  Forall keyed drained ->
  hoare (Acc whatever (vsize drained)) (process_incoming dump drained) (fun _ s => Acc whatever 0 s).
Proof using Hbound.
  intros Hd. unfold process_incoming. eapply hoare_then; [apply take_retry_acc|]. intros held. apply hoare_given. intros Hh.
  assert (Forall keyed (held ++ drained)) as Hb by (by apply Forall_app).
  rewrite <- vsize_app. remember (held ++ drained) as batch. destruct batch as [|e batch]; [by apply hoare_return|].
  eapply hoare_then; [apply generation_acc|]. intros g. eapply hoare_then; [apply consent_acc|]. intros con.
  cbv beta. case_bool_decide; cbn [negb].
  2:{ eapply hoare_then; [apply still_keeps; auto with accounts|]. intros u.
      eapply hoare_then; [apply acc_shared, release_lost, vsize_nonneg|]. intros u'.
      eapply hoare_pre; [apply purge_store_acc|]. intros s. apply acc_lost. }
  eapply (hoare_pre _ (Acc whatever (vsize (e :: batch) + 0))); [|intros s; by apply acc_weaken; [|lia]].
  eapply hoare_then; [by apply keep_loop_acc|]. intros kept. apply hoare_given. intros Hk.
  destruct kept as [|x kept]; [by apply hoare_return|]. remember (x :: kept) as all eqn:Hall. clear Hall.
  eapply hoare_then; [by apply insert_acc|]. intros [st|].
  - destruct (ok st); cbn [negb].
    + apply still_keeps; auto with accounts.
    + eapply hoare_then; [apply keeps_shared, still_keeps; auto with accounts|]. intros u.
      replace (vsize all) with (vsize (fst <$> all)) by (unfold vsize; by rewrite length_fmap). apply hold_acc.
      apply Forall_fmap. eapply Forall_impl; [exact Hk|]. by intros y [? _].
  - eapply hoare_then; [apply still_keeps; auto with accounts|]. intros u. apply acc_shared, release_acc, vsize_nonneg.
Qed.

Lemma fetch_acc size p k :
  0 <= size ->
  hoare (Acc p k) (shared (with_store (store_fetch_pending size)))
    (fun r s => 0 <= fr_quarantined r /\ Acc p (fr_quarantined r + k) s).
Proof using Hbound.
  intros Hz. apply acc_shared, (store_acc _ fr_quarantined (fun r => 0 <= fr_quarantined r)). intros st Hs _.
  pose proof (law_fetch size st Hs Hz) as Hl. destruct (store_fetch_pending size st) as [r st'].
  destruct Hl as (Hs' & _ & sorted & n & _ & _ & _ & _ & _ & [[-> ->]|(Hq & Hn & Hp)]); [split; [done|]; split; lia|].
  split; [done|]. split; [|lia]. split; [lia|]. rewrite Hn. apply Permutation_length in Hp. rewrite length_app in Hp.
  unfold vsize. lia.
Qed.

Lemma acknowledge_acc ids p k :
  hoare (Acc p k) (shared (with_store (store_acknowledge ids)))
    (fun a s => Acc p ((if ok (fst a) then vsize ids else 0) + k) s).
Proof using Hbound.
  eapply hoare_conseq; [apply acc_shared, (store_acc _ (fun a => if ok (fst a) then vsize ids else 0) (fun _ => True))|done|by intros a s [_ ?]].
  intros st Hs _. pose proof (law_acknowledge ids st Hs) as Hl. destruct (store_acknowledge ids st) as [[a n] st'].
  destruct Hl as (Hs' & _ & Hok & Hno). split; [done|]. split; [|done]. simpl. pose proof (vsize_nonneg ids).
  destruct (ok a); [destruct (Hok eq_refl); lia|]. split; [done|].
  assert (forall f : Row -> bool, vsize (filter (fun r => f r = false) (rows st)) <= vsize (rows st)) as Hf.
  { intros f. unfold vsize. pose proof (length_filter (fun r => f r = false) (rows st)). lia. }
  destruct (Hno eq_refl) as [->| ->]; [lia|]. rewrite Z.add_0_r. apply Hf.
Qed.

(** Either consent has stood since the generation was read, or it is lost. *)
Lemma still_consented_acc g k :
  hoare (Acc (fun x => whatever x /\ x = g) k) (still_consented g) (fun same s => Acc (if same then whatever else lost) k s).
Proof using Hbound.
  unfold still_consented. eapply hoare_then; [apply consent_acc|]. intros con. cbv beta. case_bool_decide; cbn [negb]; [|by apply hoare_return].
  eapply hoare_then; [apply generation_acc|]. intros g'. apply hoare_return. intros s.
  destruct (Z.eqb_spec g' g) as [_|Hne]; apply acc_weaken; try done. intros x [[_ ->] ->]. done.
Qed.

Lemma deliver_events_acc again any events :
  hoare (Acc whatever 0) again (fun _ s => Acc whatever 0 s) ->
  hoare (Acc whatever 0) (deliver_events again any events) (fun _ s => Acc whatever 0 s).
Proof using Hbound.
  intros Hagain. unfold deliver_events.
  assert (hoare (Acc lost 0) (purge_store ;; mreturn (Some any)) (fun _ s => Acc whatever 0 s)) as Hpurge.
  { eapply hoare_then; [apply (purge_store_acc whatever 0)|]. intros u. by apply hoare_return. }
  eapply hoare_then; [apply generation_acc|]. intros g. eapply hoare_then; [apply consent_acc|]. intros con.
  cbv beta. case_bool_decide; cbn [negb]; [|exact Hpurge].
  eapply hoare_then; [apply keeps_shared, still_keeps; auto with accounts|]. intros st.
  assert (forall s, Acc (fun x => whatever x /\ x = g) 0 s -> Acc whatever 0 s) as Hw by (intros s; by apply acc_weaken).
  destruct (ok st); cbn [negb].
  2:{ eapply hoare_pre; [|exact Hw]. eapply hoare_then; [apply keeps_shared, still_keeps; auto with accounts|]. intros u.
      eapply hoare_then; [apply still_keeps; auto with accounts|]. intros u'. by apply hoare_return. }
  eapply hoare_then; [apply still_consented_acc|]. intros same. cbv beta. destruct same; cbn [negb]; [|exact Hpurge].
  eapply hoare_then; [apply acknowledge_acc|]. intros [ack n]. simpl fst. destruct (ok ack); cbn [negb].
  - eapply hoare_then; [apply still_keeps; auto with accounts|]. intros u.
    eapply (hoare_then _ (fun _ s => Acc whatever 0 s)); [|by intros u'].
    replace (vsize (se_event_id <$> events)) with (vsize events) by (unfold vsize; by rewrite length_fmap).
    apply acc_shared, release_acc, vsize_nonneg.
  - eapply hoare_then; [apply keeps_shared, still_keeps; auto with accounts|]. intros u. by apply hoare_return.
Qed.

Lemma deliver_loop_acc fuel any :
  hoare (Acc whatever 0) (deliver_loop fuel any) (fun _ s => Acc whatever 0 s).
Proof using Hbound.
  revert any. induction fuel as [|fuel IH]; intros any; cbn [deliver_loop]; [by apply hoare_return|].
  eapply hoare_then; [apply consent_acc|]. intros con. cbv beta. case_bool_decide; cbn [negb].
  2:{ eapply hoare_then; [apply (purge_store_acc whatever 0)|]. intros u. by apply hoare_return. }
  apply hoare_read. intros size.
  eapply (hoare_pre _ (fun s => 0 <= size /\ Acc whatever 0 s)); [|intros s [Hs <-]; by split; [apply Hs|]].
  apply hoare_given. intros Hz.
  eapply hoare_then; [by apply fetch_acc|]. intros r. apply hoare_given. intros Hq.
  eapply (hoare_then _ (fun _ s => Acc whatever 0 s)).
  { destruct (Z.ltb_spec 0 (fr_quarantined r)); [|apply hoare_return; intros s; by apply acc_weaken; [|lia]].
    eapply hoare_then; [by apply acc_shared, release_acc|]. intros u. apply still_keeps; auto with accounts. }
  intros u. eapply (hoare_then _ (fun _ s => Acc whatever 0 s)).
  { destruct (negb _); [apply keeps_shared, still_keeps; auto with accounts|by apply hoare_return]. }
  intros u'. destruct (fr_events r) as [|x l]; [by apply hoare_return|]. by apply (deliver_events_acc (deliver_loop fuel true)).
Qed.

(** ** Passes *)

Lemma count_up_to_keeps b : keeps (with_store (store_count_up_to b)).
Proof using.
  apply store_keeps. intros st Hs. pose proof (law_count_up_to_reads b st Hs) as Hl.
  destruct (store_count_up_to b st) as [r st']. destruct Hl as (? & _ & ->). done.
Qed.

#[local] Hint Resolve count_up_to_keeps : accounts.

Lemma work_remains_keeps b : keeps (work_remains_at_or_below b).
Proof using Hbound. unfold work_remains_at_or_below. keep_accounts. Qed.

(** Taking a batch, storing it, then delivering. *)
Lemma round_acc {A} fuel (k : list QueuedEvent -> option bool -> M Sy A) :
  (forall out d, hoare (Acc whatever 0) (k out d) (fun _ s => Acc whatever 0 s)) ->
  hoare (Acc whatever 0)
    (let* out := shared pop_batch in process_incoming dump out ;; let* d := deliver_all fuel in k out d)
    (fun _ s => Acc whatever 0 s).
Proof using Hbound.
  intros Hk. eapply hoare_then; [apply pop_batch_acc|]. intros out. apply hoare_given. intros Hout. rewrite Z.add_0_r.
  eapply hoare_then; [by apply process_incoming_acc|]. intros u.
  eapply hoare_then; [apply deliver_loop_acc|]. intros d. apply Hk.
Qed.

Lemma drain_loop_acc n fuel b :
  hoare (Acc whatever 0) (drain_loop dump n fuel b) (fun _ s => Acc whatever 0 s).
Proof using Hbound.
  induction n as [|n IH]; cbn [drain_loop]; [by apply hoare_return|].
  eapply hoare_then; [apply work_remains_keeps|]. intros [why|]; [|by apply hoare_return].
  eapply hoare_then; [apply keeps_shared, still_keeps; auto with accounts|]. intros before.
  apply (round_acc fuel (fun out d => match d with None => _ | Some _ => _ end)). intros out [d|]; [|by apply hoare_return].
  destruct (_ && _); [|exact IH].
  eapply hoare_then; [apply keeps_shared, still_keeps; auto with accounts|]. intros now.
  destruct (_ <=? _); [by apply hoare_return|exact IH].
Qed.

Lemma still_answer h want st : still (mput (on_core (answer_tokens h want st))).
Proof using. by apply still_put. Qed.

#[local] Hint Resolve still_answer : accounts.

Lemma flush_pass_acc n fuel h want :
  hoare (Acc whatever 0) (flush_pass dump n fuel h want) (fun _ s => Acc whatever 0 s).
Proof using Hbound.
  unfold flush_pass. eapply hoare_then; [apply keeps_shared, still_keeps; auto with accounts|]. intros b.
  eapply hoare_then; [apply drain_loop_acc|]. intros [d|]; [|by apply hoare_return].
  eapply hoare_then; [apply keeps_shared, still_keeps; auto with accounts|]. intros sf.
  eapply hoare_then; [apply keeps_if; auto with accounts|]. intros u.
  eapply hoare_then.
  { apply keeps_shared, still_keeps, still_then; [auto with accounts|]. intros e. apply still_then; [by apply still_put|].
    auto with accounts. }
  intros outcome. eapply hoare_then; [apply work_remains_keeps|]. intros residual.
  eapply hoare_then; [apply keeps_shared, still_keeps; auto with accounts|]. intros u'. by apply hoare_return.
Qed.

Lemma iteration_acc n fuel h :
  hoare (Acc whatever 0) (iteration dump n fuel h) (fun _ s => Acc whatever 0 s).
Proof using Hbound.
  unfold iteration. eapply hoare_then; [apply keeps_shared, still_keeps; auto with accounts|]. intros want.
  eapply (hoare_then _ (fun _ s => Acc whatever 0 s)).
  { destruct (h <? want); [apply keeps_shared, still_keeps; by apply still_put|by apply hoare_return]. }
  intros u. apply (round_acc fuel (fun _ d => match d with None => _ | Some _ => _ end)). intros _ [d|]; [|by apply hoare_return].
  eapply (hoare_then _ (fun _ s => Acc whatever 0 s)).
  { destruct (h <? want); [apply flush_pass_acc|by apply hoare_return]. }
  intros [f|]; [|by apply hoare_return].
  eapply hoare_then; [apply keeps_shared, still_keeps; auto with accounts|]. intros stop. by apply hoare_return.
Qed.

Lemma run_loop_acc rounds n fuel crash h :
  hoare (Acc whatever 0) (run_loop dump rounds n fuel crash h) (fun _ s => Acc whatever 0 s).
Proof using Hbound.
  revert crash h. induction rounds as [|rounds IH]; intros crash h; cbn [run_loop].
  { destruct crash as [[[|?] ?]|]; by apply hoare_return. }
  destruct crash as [[[|?] ?]|]; [by apply hoare_return|..].
  all: eapply hoare_then; [apply iteration_acc|]; intros [[[] h']|]; [|apply IH|by apply hoare_return].
  all: eapply hoare_then; [apply still_keeps; auto with accounts|]; intros u; by apply hoare_return.
Qed.

Lemma run_epilogue_acc h : hoare (Acc whatever 0) (run_epilogue h) (fun _ s => Acc whatever 0 s).
Proof using Hbound.
  unfold run_epilogue. eapply hoare_then; [apply keeps_shared, still_keeps; auto with accounts|]. intros terminal.
  eapply (hoare_then _ (fun _ s => Acc whatever 0 s)).
  { destruct (negb _); [|by apply hoare_return].
    eapply hoare_then; [apply keeps_shared, still_keeps; by apply still_put|]. intros u. apply still_keeps; auto with accounts. }
  intros u. apply keeps_shared, still_keeps. by apply still_put.
Qed.

Lemma run_acc rounds n fuel crash :
  hoare (Acc whatever 0) (run dump rounds n fuel crash) (fun _ s => Acc whatever 0 s).
Proof using Hbound.
  unfold run. eapply hoare_then; [apply still_keeps; auto with accounts|]. intros u.
  eapply hoare_then; [apply run_loop_acc|]. intros [h|h what|h|]; [| |by apply hoare_return..].
  - eapply hoare_then; [apply run_epilogue_acc|]. intros u'. by apply hoare_return.
  - eapply hoare_then; [apply still_keeps; by apply still_put|]. intros u'.
    eapply hoare_then; [apply run_epilogue_acc|]. intros u2. by apply hoare_return.
Qed.

End Accounting.

(** * The theorem *)

Section Bounded.
Context {S K : Type} `{!StoreOps S} `{!StoreLaws S} `{!SinkOps K}.
Context (dump : json -> library_call string).


End Bounded.

(** * Witness *)

#[local] Existing Instance RefDb.api.
#[local] Existing Instance RefDb.spec.
#[local] Existing Instance RefDb.reliable.
#[local] Existing Instance sample_ops.
#[local] Existing Instance sample_laws.

(** A sink that refuses everything, a cap of two events, and three events. *)
#[local] Instance closed_sink : SinkOps unit := {
  sink_write := fun _ => mreturn (Value (mkStatus SinkError "closed"));
  sink_flush := mreturn (Value status_ok);
  sink_request_cancel := mreturn (Value tt)
}.
Definition small_config : Config :=
  mkConfig "game" "db" Granted true 100 10 1000 2 64 64 1024 128 false false None.
Definition full_schedule : list (list Act) := [[ActStartSession "p1"; ActTrack 0 "jump" []; ActTrack 0 "run" []]].
Definition full_run : Sys (SqliteStore RefDb.conn) unit :=
  snd (run sample_dump 2 60 60 None
    (started small_config tt (ref_store empty_db) (mkMt [1; 2; 3; 4; 5; 6; 7; 8] 0) [0] (vsize (rows (ref_store empty_db))) 0
       full_schedule)).

