(* ===== verification/Delivery.v ===== *)
(** What the worker does to the sink, and a whole run over a FileSink.

    [sink_tracked] carries any relation between the state of the sink and the
    history of what it answered through a run of the worker beside any schedule,
    from the three calls of the Sink interface alone. With FileSink behind that
    interface this gives the end-to-end statement: the file contains what the
    worker was told it contains. *)
From S2P Require Import Prelude Types Serializer Validator Queue Ids Session SqlText Sqlite Store StoreSpec StoreIface Pipeline Admission Worker Tokens Paths Stdio FileSink FileSinkSpec FileSinkLog Client AdmissionSpec Invariant WorkerSpec WorkerRun Guarantees.

Local Open Scope Z_scope.
Local Open Scope pt_scope.

(** * Following the sink through a run *)

(** The status [safe_write] makes of what the sink does. *)
Definition answer_of (r : library_call Status) : Status :=
  match r with
  | Value st => st
  | StdException what => mkStatus SinkError ("sink threw: " +:+ what)
  | OtherException => mkStatus SinkError "sink threw an unknown exception"
  end.

(** Walks through a computation, down to the calls the hints know. *)
Ltac calmly :=
  repeat (intros; match goal with
  | |- preserves _ (mthen _ _) => apply preserves_then
  | |- preserves _ (if ?b then _ else _) => destruct b
  | |- preserves _ (match ?x with _ => _ end) => destruct x
  | |- preserves _ (let '_ := ?x in _) => destruct x
  | |- preserves _ _ => solve [auto with calm]
  end).

Create HintDb calm.

Section Tracking.
Context {S K : Type} `{!StoreOps S} `{!SinkOps K}.
Context (dump : json -> library_call string).
#[local] Abbreviation Sy := (Sys S K).

(** A relation between the sink and its history that the calls keep. *)
Context (J : K -> list (EventBatch * Status) -> Prop).
Context (Jwrite : forall batch k w, J k w ->
  let '(r, k') := sink_write batch k in J k' (w ++ [(batch, answer_of r)])).
Context (Jflush : forall k w, J k w -> J (snd (sink_flush k)) w).
Context (Jcancel : forall k w, J k w -> J (snd (sink_request_cancel k)) w).

Definition tracked (s : Sy) : Prop := J (sink (pipe s)) (written s).

(** An update of anything else. *)
Lemma calm_put f :
  (forall s : Sy, sink (pipe (f s)) = sink (pipe s) /\ written (f s) = written s) -> preserves tracked (mput f).
Proof using. intros Hf s Hs. unfold tracked, mput. simpl. destruct (Hf s) as [-> ->]. exact Hs. Qed.

Lemma calm_fun {A} (m : M Sy A) :
  (forall s, sink (pipe (snd (m s))) = sink (pipe s) /\ written (snd (m s)) = written s) -> preserves tracked m.
Proof using. intros Hf s Hs. unfold tracked. destruct (Hf s) as [-> ->]. exact Hs. Qed.

Lemma calm_with_store {A} (m : M S A) : preserves tracked (with_store m).
Proof using. apply calm_fun. intros s. unfold with_store. by destruct (m _). Qed.

Lemma calm_with_queue {A} (f : EventQueue -> A * EventQueue) : preserves tracked (with_queue f).
Proof using. apply calm_fun. intros s. unfold with_queue. by destruct (f _). Qed.

#[local] Hint Resolve preserves_return preserves_get @calm_with_store @calm_with_queue : calm.
#[local] Hint Extern 5 (preserves _ (mput _)) =>
  apply calm_put; intros ?; unfold on_pipe, on_core, on_impl; simpl; repeat case_match; done : calm.

Lemma calm_log l t : preserves tracked (log l t).
Proof using. unfold log. calmly. Qed.

Lemma calm_report_error e : preserves tracked (report_error e).
Proof using. unfold report_error. calmly. Qed.

Lemma calm_upd_stats f : preserves tracked (upd_stats f).
Proof using. unfold upd_stats. calmly. Qed.

Lemma calm_release n : preserves tracked (release_outstanding n).
Proof using. unfold release_outstanding. calmly. Qed.

Lemma calm_read_clock : preserves tracked read_clock.
Proof using. apply calm_fun. intros s. unfold read_clock. repeat case_match; done. Qed.

Lemma calm_take_next : preserves tracked take_next.
Proof using. apply calm_fun. intros s. unfold take_next. by destruct (session_next _). Qed.

Lemma calm_new_id : preserves tracked new_id.
Proof using. apply calm_fun. intros s. unfold new_id. by destruct (uuid4 _). Qed.

Lemma calm_begin p : preserves tracked (begin_session p).
Proof using.
  unfold begin_session. apply preserves_then; [apply calm_read_clock|]. intros now. apply calm_fun. intros s.
  by destruct (session_begin _ _ _ _) as [[? ?] ?].
Qed.

#[local] Hint Resolve calm_log calm_report_error calm_upd_stats calm_release calm_read_clock calm_take_next calm_new_id calm_begin : calm.

Lemma calm_terminal : preserves tracked terminal_locked.
Proof using. unfold terminal_locked. calmly. Qed.

#[local] Hint Resolve calm_terminal : calm.

Lemma calm_admit name props : preserves tracked (admit_locked name props).
Proof using. unfold admit_locked, next_ordinal, add_outstanding, push, upd_session. calmly. Qed.

#[local] Hint Resolve calm_admit : calm.

Lemma calm_start p : preserves tracked (start_session_locked p).
Proof using. unfold start_session_locked, reserve_locked, end_session_locked, upd_session. calmly. Qed.

Lemma calm_end : preserves tracked end_session_section.
Proof using. unfold end_session_section, end_session_locked, upd_session. calmly. Qed.

Lemma calm_consent_step : preserves tracked consent_step.
Proof using.
  unfold consent_step, bump_consent_generation, give_back, upd_session, forget_errors, purge_mark, purge_delete, purge_finish, grant_section, set_consent_state, reset_outstanding, goto. calmly.
Qed.

Lemma calm_consent_enter c : preserves tracked (consent_enter c).
Proof using.
  unfold consent_enter, set_consent_state, goto. calmly.
Qed.

Lemma calm_flush : preserves tracked flush_section.
Proof using. unfold flush_section, submit_flush. calmly. Qed.

Lemma calm_drain_section : preserves tracked drain_section.
Proof using. unfold drain_section, submit_flush. calmly. Qed.

Lemma calm_cancel : preserves tracked request_sink_cancel.
Proof using Jcancel.
  unfold request_sink_cancel. calmly. intros s Hs. unfold with_sink, tracked in *. pose proof (Jcancel _ _ Hs) as Hc.
  by destruct (sink_request_cancel (sink (pipe s))).
Qed.

#[local] Hint Resolve calm_start calm_end calm_consent_step calm_consent_enter calm_flush calm_drain_section calm_cancel : calm.

(** ** Other threads *)

Lemma calm_perform a : preserves tracked (perform a).
Proof using Jcancel. destruct a; simpl; unfold admission, track_section, request_stop; calmly. Qed.

Lemma calm_beside a : preserves tracked (perform_beside_store a).
Proof using Jcancel.
  unfold perform_beside_store. apply preserves_then; [calmly|]. intros pc. pose proof (calm_perform a). destruct a; by calmly.
Qed.

Lemma calm_interleave step : (forall a, preserves tracked (step a)) -> preserves tracked (interleave step).
Proof using.
  intros Hstep s Hs. unfold interleave. destruct (schedule s) as [|acts rest]; [exact Hs|].
  assert (preserves tracked (perform_all step acts)) as Hp.
  { induction acts as [|a acts IH]; [apply preserves_return|]. apply preserves_then; [apply Hstep|done]. }
  by apply Hp.
Qed.

Lemma calm_shared {A} (m : M Sy A) : preserves tracked m -> preserves tracked (shared m).
Proof using Jcancel. intros Hm. apply preserves_then; [apply calm_interleave, calm_perform|done]. Qed.

Lemma calm_storing {A} (m : M Sy A) : preserves tracked m -> preserves tracked (storing m).
Proof using Jcancel. intros Hm. apply preserves_then; [apply calm_interleave, calm_beside|done]. Qed.

#[local] Hint Resolve calm_shared calm_storing : calm.

(** ** The worker *)

Lemma calm_write batch : preserves tracked (safe_write batch).
Proof using Jwrite.
  unfold safe_write. apply preserves_then; [calmly|]. intros [|]; simpl; [|calmly].
  intros s Hs. unfold mthen, with_sink, tracked in *.
  pose proof (Jwrite batch _ _ Hs) as Hw. by destruct (sink_write batch (sink (pipe s))) as [r k].
Qed.

Lemma calm_sink_flush : preserves tracked safe_flush_sink.
Proof using Jflush.
  unfold safe_flush_sink. calmly. intros s Hs. unfold with_sink, tracked in *.
  pose proof (Jflush _ _ Hs) as Hf. by destruct (sink_flush (sink (pipe s))).
Qed.

Lemma calm_note_error e : preserves tracked (note_error e).
Proof using. unfold note_error. calmly. Qed.

Lemma calm_take_retry : preserves tracked take_retry.
Proof using. unfold take_retry. calmly. Qed.

Lemma calm_hold batch : preserves tracked (hold_for_retry batch).
Proof using. unfold hold_for_retry. calmly. Qed.

#[local] Hint Resolve calm_write calm_sink_flush calm_note_error calm_take_retry calm_hold : calm.

Lemma calm_purge : preserves tracked purge_store.
Proof using Jcancel. unfold purge_store, reset_outstanding. calmly. Qed.

Lemma calm_pop : preserves tracked pop_batch.
Proof using. unfold pop_batch. calmly. Qed.

Lemma calm_remains b : preserves tracked (work_remains_at_or_below b).
Proof using Jcancel. unfold work_remains_at_or_below. calmly. Qed.

Lemma calm_insert g r : preserves tracked (insert_at_boundary g r).
Proof using Jcancel. unfold insert_at_boundary, get_consent, get_generation. calmly. Qed.

Lemma calm_keep g batch : preserves tracked (keep_loop dump g batch).
Proof using Jcancel. induction batch as [|qe batch IH]; simpl; calmly. Qed.

#[local] Hint Resolve calm_purge calm_pop calm_remains calm_insert calm_keep : calm.

Lemma calm_incoming drained : preserves tracked (process_incoming dump drained).
Proof using Jcancel.
  unfold process_incoming, get_generation, get_consent. calmly.
Qed.

Lemma calm_deliver fuel b : preserves tracked (deliver_loop fuel b).
Proof using Jcancel Jwrite.
  revert b. induction fuel as [|fuel IH]; intros b; simpl; unfold still_consented, get_consent, get_generation; calmly.
Qed.

#[local] Hint Resolve calm_incoming calm_deliver : calm.

Lemma calm_drain n fuel b : preserves tracked (drain_loop dump n fuel b).
Proof using Jcancel Jwrite. induction n as [|n IH]; simpl; unfold deliver_all; calmly. Qed.

#[local] Hint Resolve calm_drain : calm.

Lemma calm_iteration n fuel h : preserves tracked (iteration dump n fuel h).
Proof using Jcancel Jwrite Jflush. unfold iteration, flush_pass, deliver_all. calmly. Qed.

#[local] Hint Resolve calm_iteration : calm.

Lemma calm_run_loop rounds n fuel crash h : preserves tracked (run_loop dump rounds n fuel crash h).
Proof using Jcancel Jwrite Jflush.
  revert crash h. induction rounds as [|rounds IH]; intros crash h; simpl; calmly.
Qed.

(** A run of the worker keeps the relation. *)
Lemma sink_tracked rounds n fuel crash : preserves tracked (run dump rounds n fuel crash).
Proof using Jcancel Jwrite Jflush.
  unfold run, run_epilogue, catch, mark_terminated. apply preserves_then; [apply calm_log|]. intros _.
  apply preserves_then; [apply calm_run_loop|]. calmly.
Qed.

End Tracking.

(** * The FileSink behind the Sink interface *)

Section Behind.
Context (lib : StdioLib) (Hlib : Dependable lib) (base : list Ascii.ascii) (Hbase : complete base).

(** FileSink overrides the three calls. The history of the file, which no call
    reads, starts anew with each of them. *)
Definition file_sink_ops : SinkOps FileSink := {|
  sink_write := fun batch k => let '(r, k') := write lib batch (forget k) in (Value r, k');
  sink_flush := fun k => let '(r, k') := flush_now lib (forget k) in (Value r, k');
  sink_request_cancel := fun k => (Value tt, snd (request_cancel k))
|}.
#[local] Existing Instance file_sink_ops.

(** The events of the batches that were answered Ok. *)
Definition acknowledged (w : list (EventBatch * Status)) : list SerializedEvent :=
  concat (fst <$> filter (fun given => ok (snd given) = true) w).

Lemma acknowledged_snoc w batch st :
  acknowledged (w ++ [(batch, st)]) = acknowledged w ++ if ok st then batch else [].
Proof using.
  unfold acknowledged. rewrite filter_app, fmap_app, concat_app. f_equal.
  rewrite filter_cons, filter_nil. simpl. destruct (ok st); simpl; by rewrite ?app_nil_r.
Qed.

(** The file shows what was there and what was acknowledged, also after a loss
    of power; a sink that has failed for good may show some lines more. *)
Definition file_follows (k : FileSink) (w : list (EventBatch * Status)) : Prop :=
  let l := base ++ ndjson (acknowledged w) in
  Z.of_nat (length l) < 9223372036854775808 ->
  Ready (lines_are l) true l (forget k) \/
  ok (failure_ k) = false /\ exists tail, file_lines k = l ++ tail.

Lemma follows_write batch k w :
  file_follows k w ->
  let '(r, k') := write lib batch (forget k) in file_follows k' (w ++ [(batch, r)]).
Proof using Hlib Hbase.
  unfold file_follows. set (l := base ++ ndjson (acknowledged w)). intros Hk.
  assert (complete l) as Hl by (subst l; auto with playertrace).
  destruct (write lib batch (forget k)) as [r k'] eqn:Hw. rewrite acknowledged_snoc, ndjson_app, app_assoc. fold l.
  intros Hlen. destruct Hk as [Hr|[Hf (tail & Ht)]]; [rewrite length_app in Hlen; lia| |].
  2:{ pose proof (failed_write lib batch (forget k) Hf) as Hfw. rewrite Hw in Hfw. destruct Hfw as [Hr ->].
      rewrite Hr, app_nil_r. right. split; [done|]. by exists tail. }
  assert (durable_sync_ (forget k) = true) as Hd by (by destruct Hr as [[[_ ?] _]|(o & [[_ ?] _] & _)]).
  pose proof (write_ok lib Hlib (lines_are l) (fun _ => True) l batch (forget k) ltac:(done) ltac:(done) ltac:(done)
    ltac:(rewrite length_app in Hlen; lia) ltac:(by rewrite Hd)) as Hwo.
  rewrite Hw, Hd in Hwo. destruct Hwo as [(Hok & Hc & Hu)|(Hok & Hrest)]; rewrite Hok.
  { left. eapply clean_settles; [done|auto with playertrace|by apply Hu]. }
  rewrite app_nil_r. destruct Hrest as [[Hc Hu]|[Hrd|(Hf & u & Hu & Hdead)]].
  - left. by eapply clean_settles.
  - left. by apply ready_forget.
  - right. rewrite Hf. split; [done|]. unfold file_lines, os_bytes.
    destruct Hdead as [(_ & _ & -> & _)|[-> (o & (_ & _ & -> & _) & ->)]]; simpl.
    + rewrite whole_lines_app by done. eauto.
    + exists []. by rewrite app_nil_r.
Qed.

Lemma follows_flush k w : file_follows k w -> file_follows (snd (flush_now lib (forget k))) w.
Proof using.
  unfold file_follows. intros Hk Hlen. destruct (Hk Hlen) as [Hr|[Hf (tail & Ht)]].
  - left. apply ready_forget, flush_now_ok, Hr.
  - right. rewrite (failed_flush lib (forget k) Hf). simpl. eauto.
Qed.

(** A run of the worker over a FileSink. *)
Lemma follows_run {S : Type} `{!StoreOps S} dump rounds n fuel crash (s : Sys S FileSink) :
  file_follows (sink (pipe s)) (written s) ->
  let s' := snd (run dump rounds n fuel crash s) in file_follows (sink (pipe s')) (written s').
Proof using Hlib Hbase.
  apply (sink_tracked dump file_follows).
  - intros batch k w Hk. simpl. pose proof (follows_write batch k w Hk) as Hw.
    by destruct (write lib batch (forget k)) as [r k'].
  - intros k w Hk. simpl. pose proof (follows_flush k w Hk) as Hf. by destruct (flush_now lib (forget k)) as [r k'].
  - intros k w Hk. exact Hk.
Qed.

End Behind.

(** * End to end *)

(** The file has the line of an event, at the start of a line. *)
Definition has_line (k : FileSink) (json : string) : Prop :=
  exists before after, complete before /\ file_lines k = before ++ chars json ++ [newline] ++ after.

Lemma acknowledged_line base tail k w x :
  complete base -> file_lines k = (base ++ ndjson (acknowledged w)) ++ tail -> x ∈ acknowledged w ->
  has_line k (se_json x).
Proof.
  intros Hb Hk Hx. apply list_elem_of_split in Hx as (l1 & l2 & Hl). rewrite Hl, ndjson_app, ndjson_cons in Hk.
  exists (base ++ ndjson l1), (ndjson l2 ++ tail). split; [auto with playertrace|]. by rewrite Hk, <- !app_assoc.
Qed.

Lemma elem_of_acknowledged w batch answer x :
  (batch, answer) ∈ w -> ok answer = true -> x ∈ batch -> x ∈ acknowledged w.
Proof.
  intros Hw Hok Hx. unfold acknowledged. apply list_elem_of_In, in_concat. exists batch. rewrite <- !list_elem_of_In. split; [|done].
  apply list_elem_of_fmap. exists (batch, answer). split; [done|]. by apply list_elem_of_filter.
Qed.

Section EndToEnd.
Context {S : Type} `{!StoreOps S} `{!StoreLaws S} `{!FsOps}.
Context (dump : json -> library_call string) (Hjson : payload_usable (S := S) dump).
Context (lib : StdioLib) (Hlib : Dependable lib).
#[local] Instance the_sink : SinkOps FileSink := file_sink_ops lib.

(** The sink the application made: a durable FileSink on any file. *)
Context (path : string) (o : option (list Ascii.ascii)) (perm : bool) (fs : list fate) (Ho : addressable o).
Definition app_sink : FileSink := fst (new_file_sink path true (mkOsFile o [] [] perm fs) ∅).

Context (cfg : Config) (st : S) (rng : mt19937_64) (clock : list Z) (count highest : Z).
Context (sched : list (list Act)) (Hst : Startable cfg st highest sched).
Context (rounds n fuel : nat) (Hn : (work_bound st sched < n)%nat) (Hf : (work_bound st sched < fuel)%nat).

(** Another event has the identifier of [e], or was delivered under it. *)
Definition shares_id (e : QueuedEvent) (s : Sys S FileSink) : Prop :=
  collided (rows st) e (shape s) \/
  exists r x, r ∈ rows st /\ row_event r = Some x /\ se_event_id x = event_id (qe_event e).

(** The event the sink took under the identifier of [e] is [e]. *)
Lemma sent_genuine m s e :
  Inv dump (rows st) m (shape s) -> e ∈ admitted s -> sent e (shape s) ->
  shares_id e s \/ mkSerialized (qid e) (payload_of dump e) ∈ acknowledged (written s).
Proof using.
  intros Hi He (batch & answer & Hw & Hok & Hid). simpl in Hw. apply list_elem_of_fmap in Hid as (x & Hx & Hin).
  pose proof (inv_given _ _ _ _ Hi) as Hg. rewrite Forall_forall in Hg. specialize (Hg _ Hw). simpl in Hg.
  rewrite Forall_forall in Hg. destruct (Hg x Hin) as [(e' & He' & ->)|(r & Hr & Hrx)]; [|left; right; by exists r, x].
  simpl in Hx, He'. destruct (decide (qe_ordinal e' = qe_ordinal e)) as [Heq|Hne].
  - right. rewrite (in_order_inj (admitted s) e' e (inv_admitted _ _ _ _ Hi) He' He Heq) in Hin.
    by eapply elem_of_acknowledged.
  - left. left. left. by exists e'.
Qed.

(** What the file shows after a run. *)
Lemma run_file crash :
  let s := snd (run dump rounds n fuel crash (started cfg app_sink st rng clock count highest sched)) in
  let lines := whole_lines (default [] o) ++ ndjson (acknowledged (written s)) in
  Z.of_nat (length lines) < 9223372036854775808 ->
  exists tail, file_lines (sink (pipe s)) = lines ++ tail /\
    (ok (failure_ (sink (pipe s))) = true ->
     tail = [] /\ Forall (fun c => whole_lines (default [] c) = lines) (after_power_loss (os (sink (pipe s))))).
Proof using Hlib Ho.
  intros s lines Hlen.
  assert (complete (whole_lines (default [] o))) as Hb by apply whole_lines_complete.
  assert (complete lines) as Hl by (subst lines; auto with playertrace).
  destruct (follows_run lib Hlib (whole_lines (default [] o)) Hb dump rounds n fuel crash
    (started cfg app_sink st rng clock count highest sched)) as [Hr|[Hfail (tail & Ht)]]; [|exact Hlen| |].
  - intros _. left. simpl. rewrite app_nil_r. apply (start_sim path o perm fs Ho).
  - exists []. rewrite app_nil_r. split; [exact (ready_present _ _ Hl Hr)|]. intros _. split; [done|].
    constructor; [exact (ready_present _ _ Hl Hr)|].
    by destruct Hr as [[_ (q & _ & _ & _ & [Hu _])]|(q & (_ & _ & _ & [Hu _]) & _)].
  - exists tail. split; [done|]. change (ok (failure_ (sink (pipe s))) = false) in Hfail. intros Hok. congruence.
Qed.


End EndToEnd.

(** * Witnesses *)

#[local] Existing Instance RefDb.api.
#[local] Existing Instance RefDb.spec.
#[local] Existing Instance RefDb.reliable.
#[local] Existing Instance flat_fs.
#[local] Existing Instance sample_ops.
#[local] Existing Instance sample_laws.
#[local] Instance plain_sink : SinkOps FileSink := file_sink_ops plain_lib.

(** A client over a file with a torn last line; a session is started. *)
Definition file_start : Sys (SqliteStore RefDb.conn) FileSink :=
  started sample_config (torn_sink []) (ref_store empty_db) (mkMt [] 0) [0] 0 0 quiet_schedule.

