(* ===== verification/Progress.v ===== *)
(** The worker delivers.

    The theorems of Guarantees.v hold whatever fails; this file shows that the
    worker gets its work done when nothing does. Beside no other thread, with a
    healthy store and a sink that takes what it is given ([SinkWorks]), the pass of
    a pending flush stores and delivers everything that waits, each event once and
    in order, and answers the flush Ok (WorkerCore::run, src/worker.cpp). *)
From S2P Require Import Prelude Types Serializer Validator Queue Ids Session SqlText Sqlite Store StoreSpec StoreIface StoreHealth Pipeline Admission Worker Tokens Paths Client AdmissionSpec Invariant WorkerSpec WorkerRun Guarantees.

Local Open Scope Z_scope.
Local Open Scope pt_scope.

(** * Definitions *)

(** The size of a batch as lines. *)
Definition batch_bytes (batch : EventBatch) : Z := foldr (fun x n => ssize (se_json x) + 1 + n) 0 batch.

(** A sink that has taken the events [l] and takes [n] bytes more. *)
Class SinkWorks (K : Type) `{!SinkOps K} : Type := {
  keen : EventBatch -> Z -> K -> Prop;
  keen_write l batch n k : 0 <= n -> keen l (batch_bytes batch + n) k ->
    let '(r, k') := sink_write batch k in (exists st, r = Value st /\ ok st = true) /\ keen (l ++ batch) n k';
  keen_flush l n k : keen l n k ->
    let '(r, k') := sink_flush k in (exists st, r = Value st /\ ok st = true) /\ keen l n k'
}.

Section Progress.
Context {S K : Type} `{!StoreOps S} `{!StoreLaws S} `{!StoreWorks S} `{!SinkOps K} `{!SinkWorks K}.
Context (dump : json -> library_call string).
#[local] Abbreviation Sy := (Sys S K).

(** A stored row that can be delivered. *)
Definition tidy (r : Row) : Prop :=
  row_event r <> None /\ exists id payload, row_event_id r = SqlText id /\ row_payload r = SqlText payload /\ fits id.

(** Rows that can be delivered, with their own identifiers. *)
Definition Tidy (l : list Row) : Prop := Forall tidy l /\ NoDup (row_event_id <$> l).

(** The events of rows. *)
Definition events_of (l : list Row) : EventBatch := omap row_event l.

(** The row an event becomes. *)
Definition entry (e : QueuedEvent) : Row := row_of (record_of e (payload_of dump e)).

(** An event that can be stored and delivered under generation [g]. *)
Definition ready (g : Z) (e : QueuedEvent) : Prop :=
  qe_consent_generation e = g /\ ok (fst (serialize dump (qe_event e))) = true /\ valid_key (qid e) /\
  fitting (record_of e (payload_of dump e)) /\ 0 < qe_ordinal e < 9223372036854775808.

Section Alone.
Context (g b : Z) (Hb : 0 < b) (w0 : list (EventBatch * Status)).

(** Nothing is in the way: no other thread, consent granted, a healthy store with
    the rows [R], a sink with [room] left that took [w] after [w0], the events [r] held
    for retry and [q] queued; the rest of the core is [c]. *)
Record Going (c : WorkerCore) (R : list Row) (w : list (EventBatch * Status)) (r q : list QueuedEvent)
    (room : Z) (s : Sy) : Prop := {
  go_alone : schedule s = [];
  go_granted : consent (pipe s) = Granted;
  go_gen : consent_generation (pipe s) = g;
  go_sink : cfg_sink (config (pipe s)) = true;
  go_batch : cfg_batch_size (config (pipe s)) = b;
  go_sound : sound (store (pipe s));
  go_healthy : healthy (store (pipe s));
  go_rows : rows (store (pipe s)) = R;
  go_keen : keen (concat (fst <$> w)) room (sink (pipe s));
  go_queue : queue_ (queue (pipe s)) = q;
  go_core : core s = set_retry_ r c;
  go_written : written s = w0 ++ w
}.

(** * Lemmas *)

(** ** Lists of rows *)

Lemma batch_bytes_app l k : batch_bytes (l ++ k) = batch_bytes l + batch_bytes k.
Proof using. induction l as [|x l IH]; simpl; [done|]. rewrite IH. lia. Qed.

Lemma batch_bytes_perm l k : l ≡ₚ k -> batch_bytes l = batch_bytes k.
Proof using. induction 1; simpl; lia. Qed.

Lemma batch_bytes_nonneg l : 0 <= batch_bytes l.
Proof using. induction l as [|x l IH]; simpl; [lia|]. unfold ssize. lia. Qed.

Lemma tidy_event r : tidy r -> exists id payload,
  row_event_id r = SqlText id /\ fits id /\ row_event r = Some (mkSerialized id payload).
Proof using.
  intros [Hev (id & payload & Hi & Hp & Hf)]. exists id, payload. split; [done|]. split; [done|].
  destruct (row_event r) as [x|] eqn:E; [|done]. by rewrite (law_row_event r x id payload E Hi Hp).
Qed.

Lemma events_cons r l : tidy r -> exists x, events_of (r :: l) = x :: events_of l /\ fits (se_event_id x) /\
  forall r', has_id (se_event_id x) r' = bool_decide (row_event_id r' = row_event_id r).
Proof using.
  intros (id & payload & Hi & Hf & He)%tidy_event. exists (mkSerialized id payload). unfold events_of. csimpl. rewrite He.
  split; [done|]. split; [done|]. intros r'. unfold has_id. rewrite Hi. simpl.
  destruct (row_event_id r') as [|z|t]; [by rewrite bool_decide_false..|]. by apply bool_decide_ext; split; [intros ->|intros [=]].
Qed.

Lemma events_app l k : events_of (l ++ k) = events_of l ++ events_of k.
Proof using. apply omap_app. Qed.

Lemma events_perm l k : l ≡ₚ k -> events_of l ≡ₚ events_of k.
Proof using. intros Hp. unfold events_of. by rewrite Hp. Qed.

Lemma tidy_perm l k : l ≡ₚ k -> Tidy l -> Tidy k.
Proof using. intros Hp [Hf Hn]. split; [by rewrite <- Hp|]. by rewrite <- Hp. Qed.

Lemma tidy_app l k : Tidy (l ++ k) -> Tidy l /\ Tidy k.
Proof using.
  intros [[Hl Hk]%Forall_app Hn]. rewrite fmap_app in Hn. apply NoDup_app in Hn as (Hn1 & _ & Hn2). done.
Qed.

(** The identifiers of a part of the rows select just that part. *)
Lemma ids_select T :
  Forall tidy T -> Forall fits (se_event_id <$> events_of T) /\ length (events_of T) = length T /\
  forall r, in_ids (se_event_id <$> events_of T) r = bool_decide (row_event_id r ∈ row_event_id <$> T).
Proof using.
  induction 1 as [|r T Hr _ (IH1 & IH2 & IH3)].
  { split; [constructor|]. split; [done|]. intros r. by rewrite bool_decide_false by apply not_elem_of_nil. }
  destruct (events_cons r T Hr) as (x & -> & Hf & Hid). rewrite fmap_cons. split; [by constructor|].
  split; [simpl; by rewrite IH2|]. intros r'. unfold in_ids in *. cbn [existsb]. rewrite Hid, IH3, <- bool_decide_or.
  apply bool_decide_ext. by rewrite fmap_cons, elem_of_cons.
Qed.

Lemma filter_none {A} (P : A -> Prop) `{!forall x, Decision (P x)} (l : list A) : (forall x, x ∈ l -> ~ P x) -> filter P l = [].
Proof using.
  induction l as [|x l IH]; intros Hn; [done|]. rewrite filter_cons, decide_False by (apply Hn; by left).
  apply IH. intros y Hy. apply Hn. by right.
Qed.

Lemma filter_all {A} (P : A -> Prop) `{!forall x, Decision (P x)} (l : list A) : (forall x, x ∈ l -> P x) -> filter P l = l.
Proof using.
  induction l as [|x l IH]; intros Hn; [done|]. rewrite filter_cons, decide_True by (apply Hn; by left).
  f_equal. apply IH. intros y Hy. apply Hn. by right.
Qed.

Lemma ids_split T D :
  Tidy (T ++ D) ->
  let f := in_ids (se_event_id <$> events_of T) in
  filter (fun r => f r = true) (T ++ D) = T /\ filter (fun r => f r = false) (T ++ D) = D.
Proof using.
  intros HT f. destruct (ids_select T (proj1 (proj1 (tidy_app _ _ HT)))) as (_ & _ & Hsel).
  assert (forall r, r ∈ T -> f r = true) as H1.
  { intros r Hr. unfold f. rewrite Hsel. apply bool_decide_eq_true_2. by apply list_elem_of_fmap_2. }
  assert (forall r, r ∈ D -> f r = false) as H2.
  { intros r Hr. unfold f. rewrite Hsel. apply bool_decide_eq_false_2. destruct HT as [_ Hn].
    rewrite fmap_app in Hn. apply NoDup_app in Hn as (_ & Hn & _). intros Hin. apply (Hn _ Hin). by apply list_elem_of_fmap_2. }
  rewrite !filter_app. split.
  - rewrite (filter_all _ T), (filter_none _ D); [by rewrite app_nil_r| |done]. intros r Hr. by rewrite (H2 r Hr).
  - rewrite (filter_none _ T), (filter_all _ D); [done|done|]. intros r Hr. by rewrite (H1 r Hr).
Qed.

(** A sorted first part, then anything sorted that is made of the rest. *)
Lemma sorted_resume k (sorted rest : list Row) :
  StronglySorted row_le sorted -> StronglySorted row_le rest -> rest ≡ₚ drop k sorted ->
  StronglySorted row_le (take k sorted ++ rest).
Proof using.
  intros Hs Hr Hp. rewrite <- (take_drop k sorted) in Hs. revert Hs Hp. generalize (take k sorted), (drop k sorted). intros T D Hs Hp.
  induction T as [|x T IH]; [done|]. simpl in *. apply StronglySorted_inv in Hs as [Hs Hx]. constructor; [by apply IH|].
  apply Forall_app in Hx as [? Hd]. apply Forall_app. split; [done|]. by rewrite Hp.
Qed.

(** ** Steps of the worker *)

Lemma alone {A} c R w r q room (m : M Sy A) Q :
  hoare (Going c R w r q room) m Q -> hoare (Going c R w r q room) (shared m) Q.
Proof using. intros Hm s Hs. unfold shared, env, interleave, mthen. rewrite (go_alone _ _ _ _ _ _ _ Hs). by apply Hm. Qed.

Lemma consent_goes c R w r q room :
  hoare (Going c R w r q room) (shared get_consent) (fun con s => con = Granted /\ Going c R w r q room s).
Proof using. apply alone, hoare_get. intros s Hs. split; [by destruct Hs|done]. Qed.

Lemma generation_goes c R w r q room :
  hoare (Going c R w r q room) (shared get_generation) (fun x s => x = g /\ Going c R w r q room s).
Proof using. apply alone, hoare_get. intros s Hs. split; [by destruct Hs|done]. Qed.

Lemma stats_goes f c R w r q room :
  hoare (Going c R w r q room) (upd_stats f) (fun _ s => Going c R w r q room s).
Proof using. apply hoare_put. intros s []. by constructor. Qed.

Lemma release_goes n c R w r q room :
  hoare (Going c R w r q room) (shared (release_outstanding n)) (fun _ s => Going c R w r q room s).
Proof using. apply alone, hoare_put. intros s []. by constructor. Qed.

(** A store operation: its laws and its success. *)
Lemma store_goes {A} (m : M S A) (Q : A -> list Row -> Prop) c R w r q room :
  (forall st, sound st -> healthy st -> rows st = R ->
     let '(a, st') := m st in sound st' /\ healthy st' /\ Q a (rows st')) ->
  hoare (Going c R w r q room) (shared (with_store m)) (fun a s => exists R', Q a R' /\ Going c R' w r q room s).
Proof using.
  intros Hm. apply alone. intros s Hs. destruct Hs. unfold with_store.
  specialize (Hm (store (pipe s)) go_sound0 go_healthy0 go_rows0). destruct (m (store (pipe s))) as [a st'].
  destruct Hm as (? & ? & ?). exists (rows st'). split; [done|]. by constructor.
Qed.

Lemma fetch_goes c R w r q room :
  Tidy R ->
  hoare (Going c R w r q room) (shared (with_store (store_fetch_pending b)))
    (fun p s => exists sorted k, (ok (fr_status p) = true /\ fr_quarantined p = 0 /\ sorted ≡ₚ R /\ StronglySorted row_le sorted /\
       (0 < k)%nat /\ fr_events p = events_of (take k sorted)) /\ Going c R w r q room s).
Proof using Hb.
  intros HR. eapply hoare_conseq; [apply (store_goes _ (fun p R' => R' = R /\ exists sorted k, ok (fr_status p) = true /\
    fr_quarantined p = 0 /\ sorted ≡ₚ R /\ StronglySorted row_le sorted /\ (0 < k)%nat /\ fr_events p = events_of (take k sorted)))|done|].
  2:{ intros p s (R' & [-> (sorted & k & H)] & Hs). by exists sorted, k. }
  intros st Hs Hh Hr.
  assert (Forall (fun x => row_event x <> None) (rows st)) as Hu
    by (rewrite Hr; eapply Forall_impl; [apply (proj1 HR)|by intros x [? _]]).
  pose proof (healthy_fetch b st Hs Hh ltac:(lia) Hu) as Hok. pose proof (law_fetch b st Hs ltac:(lia)) as Hl.
  destruct (store_fetch_pending b st) as [p st']. destruct Hok as [Hok Hh'].
  destruct Hl as (Hs' & _ & sorted & k & Hp & Hss & _ & Hev & Hst & Hrows). destruct (Hst Hok) as (Hk & _ & Hz).
  split; [done|]. split; [done|]. split; [destruct Hrows as [[_ ->]|[? _]]; [done|lia]|].
  exists sorted, k. rewrite Hr in Hp. repeat (split; [done|]). split; [unfold int_max in Hk; lia|done].
Qed.

Lemma write_goes batch c R w r q room :
  0 <= room ->
  hoare (Going c R w r q (batch_bytes batch + room)) (shared (safe_write batch))
    (fun st s => ok st = true /\ Going c R (w ++ [(batch, st)]) r q room s).
Proof using.
  intros Hroom. apply alone. intros s Hs. destruct Hs. unfold safe_write. rewrite mget_then, go_sink0. simpl.
  unfold mthen, with_sink. pose proof (keen_write _ batch room (sink (pipe s)) Hroom go_keen0) as Hk.
  destruct (sink_write batch (sink (pipe s))) as [res k']. destruct Hk as [(st & -> & Hok) Hk]. simpl.
  split; [done|]. constructor; simpl; try done; [|by rewrite go_written0, app_assoc].
  by rewrite fmap_app, concat_app; simpl; rewrite app_nil_r.
Qed.

Lemma acknowledge_goes T D c R w r q room :
  Tidy R -> T ++ D ≡ₚ R ->
  hoare (Going c R w r q room) (shared (with_store (store_acknowledge (se_event_id <$> events_of T))))
    (fun a s => exists R', (ok (fst a) = true /\ R' ≡ₚ D) /\ Going c R' w r q room s).
Proof using.
  intros HR Hp. pose proof (tidy_perm _ _ (symmetry Hp) HR) as HTD.
  destruct (ids_select T (proj1 (proj1 (tidy_app _ _ HTD)))) as (Hf & Hlen & _). destruct (ids_split T D HTD) as [Ht Hd].
  apply store_goes. intros st Hs Hh Hr.
  assert (vsize (filter (fun x => in_ids (se_event_id <$> events_of T) x = true) (rows st)) = vsize (se_event_id <$> events_of T)) as Hn.
  { rewrite Hr. unfold vsize. rewrite <- Hp, Ht, length_fmap, Hlen. done. }
  pose proof (healthy_acknowledge _ st Hs Hh Hf Hn) as Hok. pose proof (law_acknowledge (se_event_id <$> events_of T) st Hs) as Hl.
  destruct (store_acknowledge _ st) as [[a n] st']. destruct Hok as [Hok Hh']. destruct Hl as (Hs' & _ & Hrows & _).
  destruct (Hrows Hok) as [-> _]. repeat (split; [done|]). rewrite Hr, <- Hp. by rewrite Hd.
Qed.

(** What was delivered: these rows in order, in batches the sink took. *)
Definition delivers (R : list Row) (ws : list (EventBatch * Status)) : Prop :=
  exists sorted, sorted ≡ₚ R /\ StronglySorted row_le sorted /\
    concat (fst <$> ws) = events_of sorted /\ Forall (fun given => ok (snd given) = true) ws.

Lemma delivers_nil : delivers [] [].
Proof using. exists []. repeat split; constructor. Qed.

(** First all of one part, then all of a part that comes after it. *)
Lemma delivers_app R R' ws ws' :
  delivers R ws -> delivers R' ws' -> (forall x y, x ∈ R -> y ∈ R' -> row_le x y) -> delivers (R ++ R') (ws ++ ws').
Proof using.
  intros (l & Hp & Hs & He & Ho) (l' & Hp' & Hs' & He' & Ho') Hle. exists (l ++ l').
  split; [by rewrite Hp, Hp'|]. split; [|by rewrite fmap_app, concat_app, events_app, He, He'; split; [|apply Forall_app]].
  assert (forall x y, x ∈ l -> y ∈ l' -> row_le x y) as Hll by (intros x y Hx Hy; apply Hle; [by rewrite <- Hp|by rewrite <- Hp']).
  clear Hp He Ho. induction l as [|x l IH]; [done|]. apply StronglySorted_inv in Hs as [Hs Hx]. simpl. constructor.
  - apply IH; [done|]. intros a c Ha Hc. apply Hll; [by right|done].
  - apply Forall_app. split; [done|]. apply Forall_forall. intros y Hy. apply Hll; [by left|done].
Qed.

Lemma still_consented_goes c R w r q room :
  hoare (Going c R w r q room) (still_consented g) (fun same s => same = true /\ Going c R w r q room s).
Proof using.
  unfold still_consented. eapply hoare_then; [apply consent_goes|]. intros con. apply hoare_given. intros ->.
  rewrite bool_decide_true by done. cbn [negb]. eapply hoare_then; [apply generation_goes|]. intros gen. apply hoare_given. intros ->.
  apply hoare_return. intros s Hs. split; [by rewrite Z.eqb_refl|done].
Qed.

(** One batch: it is written, then acknowledged. *)
Lemma batch_goes T D again any c R w r q room Q :
  Tidy R -> T ++ D ≡ₚ R -> 0 <= room ->
  (forall R' st, R' ≡ₚ D -> ok st = true -> hoare (Going c R' (w ++ [(events_of T, st)]) r q room) again Q) ->
  hoare (Going c R w r q (batch_bytes (events_of T) + room)) (deliver_events again any (events_of T)) Q.
Proof using.
  intros HR Hp Hroom Hagain. unfold deliver_events.
  eapply hoare_then; [apply generation_goes|]. intros gen. apply hoare_given. intros ->.
  eapply hoare_then; [apply consent_goes|]. intros con. apply hoare_given. intros ->. rewrite bool_decide_true by done. cbn [negb].
  eapply hoare_then; [by apply write_goes|]. intros st. apply hoare_given. intros Hok. rewrite Hok. cbn [negb].
  eapply hoare_then; [apply still_consented_goes|]. intros same. apply hoare_given. intros ->. cbn [negb].
  eapply hoare_then; [by apply (acknowledge_goes T D)|]. intros [ack m]. apply hoare_exists. intros R'. apply hoare_given.
  intros [Hack HR']. simpl in Hack. rewrite Hack. cbn [negb].
  eapply hoare_then; [apply stats_goes|]. intros u. eapply hoare_then; [apply release_goes|]. intros u'. by apply Hagain.
Qed.

(** [WorkerCore::deliver_all] empties the store. *)
Lemma deliver_goes fuel any c R w r q room :
  Tidy R -> (length R < fuel)%nat -> 0 <= room ->
  hoare (Going c R w r q (batch_bytes (events_of R) + room)) (deliver_loop fuel any)
    (fun d s => exists ws, d = Some (any || negb (bool_decide (R = []))) /\ delivers R ws /\ Going c [] (w ++ ws) r q room s).
Proof using Hb.
  revert any R w. induction fuel as [|fuel IH]; intros any R w HR Hlen Hroom; [lia|]. cbn [deliver_loop].
  eapply hoare_then; [apply consent_goes|]. intros con. apply hoare_given. intros ->. cbn [negb]. rewrite bool_decide_true by done.
  cbn [negb]. apply hoare_read. intros size. intros s [Hs Hsize]. rewrite (go_batch _ _ _ _ _ _ _ Hs) in Hsize. subst size. revert s Hs.
  change (hoare (Going c R w r q (batch_bytes (events_of R) + room))
    (let* pending := shared (with_store (store_fetch_pending b)) in
     (if 0 <? fr_quarantined pending then
        shared (release_outstanding (fr_quarantined pending)) ;; upd_stats (add_dropped_invalid (fr_quarantined pending))
      else mreturn tt) ;;
     (if negb (ok (fr_status pending)) then shared (note_error (fr_status pending)) else mreturn tt) ;;
     match fr_events pending with
     | [] => mreturn (Some any)
     | events => deliver_events (deliver_loop fuel true) any events
     end)
    (fun d s => exists ws, d = Some (any || negb (bool_decide (R = []))) /\ delivers R ws /\ Going c [] (w ++ ws) r q room s)).
  eapply hoare_then; [by apply fetch_goes|]. intros p. apply hoare_exists. intros sorted. apply hoare_exists. intros k.
  apply hoare_given. intros (Hok & Hz & Hp & Hss & Hk & Hev). rewrite Hok, Hz, Hev. cbn [negb Z.ltb Z.compare].
  unfold mthen at 1 2, mreturn at 1 2. fold (@mreturn Sy unit tt).
  destruct (decide (R = [])) as [->|HRne].
  { apply Permutation_nil_r in Hp as ->. rewrite take_nil. simpl. intros s Hs. exists []. rewrite orb_false_r, app_nil_r.
    split; [done|]. split; [apply delivers_nil|]. done. }
  rewrite bool_decide_false by done. rewrite orb_true_r. set (T := take k sorted). set (D := drop k sorted).
  assert (T ++ D ≡ₚ R) as HTD by (unfold T, D; by rewrite take_drop).
  assert (events_of T <> [] /\ (length D < length R)%nat) as [Hne HD].
  { destruct sorted as [|x l]; [by apply Permutation_nil_l in Hp|]. destruct k as [|k]; [lia|]. unfold T, D. cbn [take drop].
    destruct (events_cons x (take k l)) as (e & -> & _).
    { pose proof (proj1 (tidy_perm _ _ (symmetry Hp) HR)) as Hf. by apply Forall_cons in Hf as [? _]. }
    split; [done|]. rewrite <- Hp. simpl. rewrite length_drop. lia. }
  replace (batch_bytes (events_of R)) with (batch_bytes (events_of T) + batch_bytes (events_of D))
    by (by rewrite <- batch_bytes_app, <- events_app; apply batch_bytes_perm, events_perm).
  rewrite <- Z.add_assoc. assert (match events_of T with [] => mreturn (Some any) | events => deliver_events (deliver_loop fuel true) any events end
    = deliver_events (deliver_loop fuel true) any (events_of T)) as -> by (by destruct (events_of T)).
  apply (batch_goes T D); [done|done|pose proof (batch_bytes_nonneg (events_of D)); lia|]. intros R' st HR' Hst.
  assert (batch_bytes (events_of D) = batch_bytes (events_of R')) as -> by (by apply batch_bytes_perm, events_perm).
  eapply hoare_conseq; [apply (IH true R'); [|rewrite HR'; lia|done]|done|].
  { eapply tidy_perm; [symmetry; exact HR'|]. by apply (tidy_app T D), (tidy_perm R). }
  intros d s (ws & -> & (rest & Hrp & Hrs & Hre & Hro) & Hs). exists ((events_of T, st) :: ws). split; [done|].
  rewrite <- app_assoc in Hs. split; [|done]. exists (T ++ rest). split; [by rewrite Hrp, HR'|].
  split; [apply sorted_resume; [done|done|by rewrite Hrp]|]. rewrite fmap_cons. simpl. rewrite Hre, events_app. by split; [|constructor].
Qed.

(** ** Storing what waits *)

Lemma insert_fresh l (records : list StoredRecord) :
  NoDup (row_event_id <$> l ++ (row_of <$> records)) -> foldl insert_one l records = l ++ (row_of <$> records).
Proof using.
  revert l. induction records as [|x records IH]; intros l Hn; [by rewrite app_nil_r|]. cbn [foldl].
  rewrite fmap_cons, cons_middle, app_assoc in Hn |- *.
  assert (insert_one l x = l ++ [row_of x]) as ->; [|by apply IH].
  unfold insert_one, insert_or_ignore. destruct (existsb _ _) eqn:E; [|done]. exfalso.
  apply existsb_exists in E as (r & Hr%list_elem_of_In & Hid). rewrite !fmap_app in Hn. apply NoDup_app in Hn as (Hn & _ & _).
  apply NoDup_app in Hn as (_ & Hn & _). apply (Hn (row_event_id r)); [by apply list_elem_of_fmap_2|].
  unfold has_id in Hid. destruct (row_event_id r) as [| |t]; try done. apply bool_decide_eq_true_1 in Hid as ->. by left.
Qed.

Lemma keep_goes batch c R w r q room :
  Forall (ready g) batch ->
  hoare (Going c R w r q room) (keep_loop dump g batch)
    (fun kept s => kept = (fun e => (e, record_of e (payload_of dump e))) <$> batch /\ Going c R w r q room s).
Proof using.
  induction 1 as [|e batch (Hg & Hok & _) _ IH]; simpl; [by apply hoare_return|].
  rewrite Hg, Z.eqb_refl. simpl. unfold payload_of. destruct (serialize dump (qe_event e)) as [st payload]. simpl in *. rewrite Hok. simpl.
  eapply hoare_then; [exact IH|]. intros rest. apply hoare_given. intros ->. by apply hoare_return.
Qed.

Lemma insert_goes records c R w r q room :
  Forall valid_record records -> Forall fitting records -> NoDup (row_event_id <$> R ++ (row_of <$> records)) ->
  hoare (Going c R w r q room) (shared (insert_at_boundary g records))
    (fun o s => exists st, (o = Some st /\ ok st = true) /\ Going c (R ++ (row_of <$> records)) w r q room s).
Proof using.
  intros Hv Hf Hn. apply alone. intros s []. unfold insert_at_boundary, get_consent, get_generation. rewrite mget_then.
  rewrite go_granted0, bool_decide_true by done. unfold storing, interleave, mthen, mget. simpl.
  rewrite go_alone0, go_gen0, Z.eqb_refl. simpl. rewrite go_alone0. unfold with_store.
  pose proof (law_insert records (store (pipe s)) go_sound0 Hv) as Hl. pose proof (healthy_insert records (store (pipe s)) go_sound0 go_healthy0 Hf) as Hh.
  destruct (store_insert records (store (pipe s))) as [st st']. destruct Hh as [Hok Hh]. destruct Hl as (Hs' & _ & Hr). rewrite Hok in Hr.
  simpl. exists st. split; [done|]. constructor; simpl; try done. rewrite Hr, go_rows0. by apply insert_fresh.
Qed.

(** [WorkerCore::process_incoming] stores everything held and taken. *)
Lemma process_goes drained c R w r q room :
  Forall (ready g) (r ++ drained) -> Tidy (R ++ (entry <$> r ++ drained)) ->
  hoare (Going c R w r q room) (process_incoming dump drained)
    (fun _ s => Going c (R ++ (entry <$> r ++ drained)) w [] q room s).
Proof using.
  intros Hr [_ Hn]. unfold process_incoming.
  eapply (hoare_then _ (fun held s => held = r /\ Going c R w [] q room s)).
  { apply alone. intros s []. unfold take_retry. rewrite mget_then. unfold mthen, mput, mreturn. simpl. rewrite go_core0.
    split; [done|]. constructor; simpl; try done. by rewrite go_core0. }
  intros held. apply hoare_given. intros ->. remember (r ++ drained) as batch eqn:Hbatch.
  destruct batch as [|e batch]; [apply hoare_return; intros s Hs; simpl; by rewrite app_nil_r|].
  eapply hoare_then; [apply generation_goes|]. intros gen. apply hoare_given. intros ->.
  eapply hoare_then; [apply consent_goes|]. intros con. apply hoare_given. intros ->. rewrite bool_decide_true by done. cbn [negb].
  eapply hoare_then; [by apply keep_goes|]. intros kept. apply hoare_given. intros ->. rewrite fmap_cons.
  set (all := (e, record_of e (payload_of dump e)) :: _).
  assert (snd <$> all = (fun e => record_of e (payload_of dump e)) <$> e :: batch) as ->
    by (unfold all; by rewrite !fmap_cons, <- list_fmap_compose).
  assert (entry <$> e :: batch = row_of <$> ((fun e => record_of e (payload_of dump e)) <$> e :: batch)) as Hall
    by (by rewrite <- list_fmap_compose).
  rewrite Hall in Hn |- *.
  eapply hoare_then; [apply insert_goes; [| |exact Hn]; apply Forall_fmap; (eapply Forall_impl; [exact Hr|]); by intros x (_ & _ & ? & ? & _)|].
  intros o. apply hoare_exists. intros st. apply hoare_given. intros [-> Hok]. rewrite Hok. cbn [negb]. apply stats_goes.
Qed.

(** ** The drain loop *)

Lemma remains_goes bar c w q room :
  0 <= bar < 9223372036854775808 -> Forall (ready g) q -> in_order q ->
  hoare (Going c [] w [] q room) (work_remains_at_or_below bar)
    (fun why s => match why with None => Forall (fun e => bar < qe_ordinal e) q
                             | Some _ => exists e, e ∈ q /\ qe_ordinal e <= bar end /\
                  Going c [] w [] q room s).
Proof using.
  intros Hbar Hq Ho. unfold work_remains_at_or_below. destruct (Z.eqb_spec bar 0) as [->|Hb0].
  { apply hoare_return. intros s Hs. split; [|done]. eapply Forall_impl; [exact Hq|]. by intros x (_ & _ & _ & _ & [? _]). }
  eapply hoare_then.
  { apply alone, hoare_get. intros s Hs. refine (conj _ Hs : (fun x s => x = match q with [] => uint64_max | e :: _ => qe_ordinal e end /\ _) _ s).
    unfold front_ordinal. by rewrite (go_queue _ _ _ _ _ _ _ Hs). }
  intros front. cbv beta. apply hoare_given. intros ->.
  destruct (Z.leb_spec (match q with [] => uint64_max | e :: _ => qe_ordinal e end) bar) as [Hle|Hgt].
  { apply hoare_return. intros s Hs. split; [|done]. destruct q as [|e q]; [unfold uint64_max in Hle; lia|]. exists e. split; [by left|done]. }
  eapply hoare_then.
  { apply alone, hoare_get. intros s Hs. refine (conj _ Hs : (fun x s => x = uint64_max /\ _) _ s).
    unfold retry_front_ordinal. by rewrite (go_core _ _ _ _ _ _ _ Hs). }
  intros held. cbv beta. apply hoare_given. intros ->. destruct (Z.leb_spec uint64_max bar); [unfold uint64_max in *; lia|].
  eapply hoare_then.
  { apply (store_goes _ (fun a R' => ok (fst a) = true /\ snd a = 0 /\ R' = [])). intros st Hs Hh Hr.
    pose proof (law_count_up_to bar st Hs Hbar) as Hl. pose proof (healthy_count_up_to bar st Hs Hh) as Hok.
    destruct (store_count_up_to bar st) as [[a m] st']. destruct Hok as [Hok ?]. destruct Hl as (? & _ & Hr' & Hm).
    rewrite Hok, Hr in Hm. split; [done|]. split; [done|]. by rewrite Hr', Hr. }
  intros [counted pending]. apply hoare_exists. intros R'. apply hoare_given. simpl. intros (-> & -> & ->). simpl.
  apply hoare_return. intros s Hs. split; [|done]. destruct (first_least q bar Ho) as [?|Hall]; [lia|]. by apply Forall_forall.
Qed.

Lemma pop_goes c R w r q room :
  let k := Z.to_nat b in
  hoare (Going c R w r q room) (shared pop_batch) (fun out s => out = take k q /\ Going c R w r (drop k q) room s).
Proof using Hb.
  intros k. apply alone. intros s Hs. destruct Hs. unfold pop_batch. rewrite mget_then. unfold with_queue.
  rewrite pop_wait_spec by lia. simpl. rewrite go_batch0, go_queue0. by split.
Qed.

Lemma entries_app l k : entry <$> l ++ k = (entry <$> l) ++ (entry <$> k).
Proof using. apply fmap_app. Qed.

Lemma entry_ordinal e : ready g e -> row_ordinal (entry e) = qe_ordinal e.
Proof using. intros (_ & _ & _ & _ & Ho). simpl. apply to_int64_small. lia. Qed.

(** Entries of events in order come in order. *)
Lemma entries_before l k :
  Forall (ready g) (l ++ k) -> in_order (l ++ k) -> forall x y, x ∈ entry <$> l -> y ∈ entry <$> k -> row_le x y.
Proof using.
  intros [Hl Hk]%Forall_app (_ & _ & Ho)%in_order_app x y (a & -> & Ha)%list_elem_of_fmap (d & -> & Hd)%list_elem_of_fmap.
  rewrite Forall_forall in Hl, Hk. unfold row_le. rewrite !entry_ordinal by auto. specialize (Ho a d Ha Hd). lia.
Qed.

(** The bytes that wait. *)
Definition waiting_bytes (q : list QueuedEvent) : Z := batch_bytes (events_of (entry <$> q)).

Lemma waiting_app l k : waiting_bytes (l ++ k) = waiting_bytes l + waiting_bytes k.
Proof using. unfold waiting_bytes. by rewrite entries_app, events_app, batch_bytes_app. Qed.

(** One round: a batch is stored and the store is emptied. *)
Lemma round_goes {A} drained fuel c R w r q room (rest : bool -> M Sy (option A)) Q :
  Forall (ready g) (r ++ drained) -> Tidy (R ++ (entry <$> r ++ drained)) ->
  (length R + length (r ++ drained) < fuel)%nat -> 0 <= room ->
  (forall any ws, delivers (R ++ (entry <$> r ++ drained)) ws -> hoare (Going c [] (w ++ ws) [] q room) (rest any) Q) ->
  hoare (Going c R w r q (batch_bytes (events_of R) + waiting_bytes (r ++ drained) + room))
    (process_incoming dump drained ;;
     let* d := deliver_all fuel in
     match d with None => mreturn None | Some d => rest d end) Q.
Proof using Hb.
  intros Hr HT Hfuel Hroom Hrest. unfold waiting_bytes. rewrite <- batch_bytes_app, <- events_app.
  eapply hoare_then; [by apply process_goes|]. intros u. eapply hoare_then.
  { apply deliver_goes; [done| |done]. by rewrite length_app, length_fmap. }
  intros d s (ws & -> & Hd & Hs). by apply (Hrest _ ws Hd).
Qed.

(** The drain loop delivers everything up to the barrier. *)
Lemma drain_goes bar n fuel c w q room :
  0 <= bar < 9223372036854775808 -> Forall (ready g) q -> in_order q -> Tidy (entry <$> q) ->
  (length q < n)%nat -> (length q < fuel)%nat -> 0 <= room ->
  hoare (Going c [] w [] q (waiting_bytes q + room)) (drain_loop dump n fuel bar)
    (fun res s => exists q1 q2 ws, res = Some tt /\ q = q1 ++ q2 /\ Forall (fun e => bar < qe_ordinal e) q2 /\
       delivers (entry <$> q1) ws /\ Going c [] (w ++ ws) [] q2 (waiting_bytes q2 + room) s).
Proof using Hb.
  intros Hbar. revert w q. induction n as [|n IH]; intros w q Hq Ho HT Hn Hfuel Hroom; [lia|]. cbn [drain_loop].
  eapply hoare_then; [by apply remains_goes|]. intros [why|]; apply hoare_given; intros Hwhy.
  2:{ apply hoare_return. intros s Hs. exists [], q, []. rewrite app_nil_r. repeat (split; [done|]). split; [apply delivers_nil|done]. }
  eapply (hoare_then _ (fun _ => Going c [] w [] q (waiting_bytes q + room))); [by apply alone, hoare_get|]. intros before.
  eapply hoare_then; [apply pop_goes|]. intros more. apply hoare_given. intros ->.
  set (q1 := take (Z.to_nat b) q). set (q2 := drop (Z.to_nat b) q).
  assert (q = q1 ++ q2) as Hsplit by (symmetry; apply take_drop).
  assert (q1 <> [] /\ (length q2 < length q)%nat) as [Hne Hlt].
  { destruct q as [|e q]; [by destruct Hwhy as (? & ?%not_elem_of_nil & _)|]. unfold q1, q2. destruct (Z.to_nat b) eqn:E; [lia|]. simpl. rewrite length_drop. split; [done|lia]. }
  rewrite bool_decide_false by done. cbn [negb andb]. rewrite Hsplit in Hq, Ho, HT. rewrite entries_app in HT.
  pose proof (proj1 (Forall_app _ _ _) Hq) as [Hq1 Hq2]. pose proof Ho as (_ & Ho2 & _)%in_order_app.
  destruct (tidy_app _ _ HT) as [HT1 HT2].
  assert (waiting_bytes q + room = batch_bytes (events_of []) + waiting_bytes ([] ++ q1) + (waiting_bytes q2 + room)) as ->
    by (rewrite Hsplit at 1; rewrite waiting_app; unfold events_of; simpl; lia).
  pose proof (batch_bytes_nonneg (events_of (entry <$> q2))) as Hq2b. fold (waiting_bytes q2) in Hq2b.
  apply (round_goes q1 fuel c [] w [] q2 _ (fun _ => drain_loop dump n fuel bar)); [done|done| |lia|].
  { simpl. apply (f_equal length) in Hsplit. rewrite length_app in Hsplit. lia. }
  intros any ws Hws. simpl in Hws. eapply hoare_conseq; [apply (IH (w ++ ws) q2); [done|done|done|lia|lia|done]|done|].
  intros res s (q3 & q4 & ws' & -> & Hq34 & Hb4 & Hd & Hs). exists (q1 ++ q3), q4, (ws ++ ws').
  split; [done|]. split; [by rewrite <- app_assoc, <- Hq34|]. split; [done|].
  rewrite app_assoc. split; [|done]. rewrite entries_app. apply delivers_app; [done|done|].
  rewrite Hq34, app_assoc in Hq, Ho. apply entries_before; [by apply Forall_app in Hq as [? _]|by apply in_order_app in Ho as (? & _ & _)].
Qed.

(** ** The pass of a flush *)

Lemma core_goes (f : WorkerCore -> WorkerCore) c R w r q room :
  (forall c, f (set_retry_ r c) = set_retry_ r (f c)) ->
  hoare (Going c R w r q room) (shared (mput (on_core f))) (fun _ => Going (f c) R w r q room).
Proof using. intros Hf. apply alone, hoare_put. intros s []. constructor; simpl; try done. by rewrite go_core0. Qed.

Lemma flush_sink_goes c R w r q room :
  hoare (Going c R w r q room) (shared safe_flush_sink) (fun st s => ok st = true /\ Going c R w r q room s).
Proof using.
  apply alone. intros s Hs. destruct Hs. unfold safe_flush_sink. rewrite mget_then, go_sink0. simpl. unfold mthen, with_sink.
  pose proof (keen_flush _ room (sink (pipe s)) go_keen0) as Hk. destruct (sink_flush (sink (pipe s))) as [res k'].
  destruct Hk as [(st & -> & Hok) Hk]. simpl. split; [done|]. by constructor.
Qed.

Lemma no_error c : pending_error_ c = status_ok -> set_pending_error_ status_ok c = c.
Proof using. destruct c. simpl. by intros ->. Qed.

Lemma outcome_goes c R w r q room :
  pending_error_ c = status_ok ->
  hoare (Going c R w r q room)
    (shared (let* e := mget (fun s => pending_error_ (core s)) in
             mput (on_core (set_pending_error_ status_ok)) ;; mreturn e))
    (fun e s => e = status_ok /\ Going c R w r q room s).
Proof using.
  intros Hc. apply alone. intros s []. rewrite mget_then. unfold mthen, mput, mreturn. simpl. rewrite go_core0. split; [done|].
  constructor; simpl; try done. rewrite go_core0. by apply (no_error (set_retry_ r c)).
Qed.

Lemma flush_pass_goes n fuel handled want c w q room :
  pending_error_ c = status_ok -> 0 <= flush_barrier_ c < 9223372036854775808 ->
  Forall (ready g) q -> in_order q -> Tidy (entry <$> q) -> (length q < n)%nat -> (length q < fuel)%nat -> 0 <= room ->
  hoare (Going c [] w [] q (waiting_bytes q + room)) (flush_pass dump n fuel handled want)
    (fun res s => exists q1 q2 ws, res = Some tt /\ q = q1 ++ q2 /\ Forall (fun e => flush_barrier_ c < qe_ordinal e) q2 /\
       delivers (entry <$> q1) ws /\ Going (answer_tokens handled want status_ok c) [] (w ++ ws) [] q2 (waiting_bytes q2 + room) s).
Proof using Hb.
  intros Hc Hbar Hq Ho HT Hn Hfuel Hroom. unfold flush_pass.
  eapply (hoare_then _ (fun bar s => bar = flush_barrier_ c /\ Going c [] w [] q (waiting_bytes q + room) s)).
  { apply alone, hoare_get. intros s Hs. split; [by rewrite (go_core _ _ _ _ _ _ _ Hs)|done]. }
  intros bar. apply hoare_given. intros ->. eapply hoare_then; [by apply drain_goes|]. intros res. cbv beta.
  apply hoare_exists. intros q1. apply hoare_exists. intros q2. apply hoare_exists. intros ws.
  apply hoare_given. intros ->. apply hoare_given. intros Hsplit. apply hoare_given. intros Hq2. apply hoare_given. intros Hd.
  eapply hoare_then; [apply flush_sink_goes|]. intros st. apply hoare_given. intros ->. cbn [negb].
  eapply (hoare_then _ (fun _ => Going c [] (w ++ ws) [] q2 (waiting_bytes q2 + room))); [by apply hoare_return|]. intros u.
  eapply hoare_then; [by apply outcome_goes|]. intros e. apply hoare_given. intros ->.
  assert (Forall (ready g) q2 /\ in_order q2) as [Hr2 Ho2].
  { rewrite Hsplit in Hq, Ho. apply Forall_app in Hq as [_ ?]. by apply in_order_app in Ho as (_ & ? & _). }
  eapply hoare_then; [by apply remains_goes|]. intros [why|]; apply hoare_given.
  { intros (e & He & Hle). rewrite Forall_forall in Hq2. specialize (Hq2 e He). lia. }
  intros _. eapply hoare_then; [by apply (core_goes (answer_tokens handled want status_ok))|]. intros u'. apply hoare_return.
  intros s Hs. by exists q1, q2, ws.
Qed.

(** One iteration with a flush pending. *)
Lemma iteration_goes n fuel handled c R w r q room :
  Forall (ready g) (r ++ q) -> in_order (r ++ q) -> Tidy (R ++ (entry <$> r ++ q)) ->
  (forall x e, x ∈ R -> e ∈ r ++ q -> row_ordinal x <= qe_ordinal e) ->
  0 <= flush_barrier_ c < 9223372036854775808 -> handled < flush_seq_ c ->
  (length q < n)%nat -> (length R + length (r ++ q) < fuel)%nat -> 0 <= room ->
  hoare (Going c R w r q (batch_bytes (events_of R) + waiting_bytes (r ++ q) + room)) (iteration dump n fuel handled)
    (fun res s => exists q1 q2 ws, res = Some (stop_ c, flush_seq_ c) /\ q = q1 ++ q2 /\
       Forall (fun e => flush_barrier_ c < qe_ordinal e) q2 /\ delivers (R ++ (entry <$> r ++ q1)) ws /\
       Going (answer_tokens handled (flush_seq_ c) status_ok (set_pending_error_ status_ok c)) [] (w ++ ws) [] q2 (waiting_bytes q2 + room) s).
Proof using Hb.
  intros Hq Ho HT HR Hbar Hpend Hn Hfuel Hroom. unfold iteration.
  eapply (hoare_then _ (fun want s => want = flush_seq_ c /\ Going c R w r q _ s)).
  { apply alone, hoare_get. intros s Hs. split; [by rewrite (go_core _ _ _ _ _ _ _ Hs)|exact Hs]. }
  intros want. apply hoare_given. intros ->. rewrite (proj2 (Z.ltb_lt _ _) Hpend).
  eapply hoare_then; [by apply (core_goes (set_pending_error_ status_ok))|]. intros u. set (c' := set_pending_error_ status_ok c).
  eapply hoare_then; [apply pop_goes|]. intros drained. apply hoare_given. intros ->.
  set (q1 := take (Z.to_nat b) q). set (q2 := drop (Z.to_nat b) q).
  assert (q = q1 ++ q2) as Hsplit by (symmetry; apply take_drop). clearbody q1 q2. subst q.
  assert (batch_bytes (events_of R) + waiting_bytes (r ++ q1 ++ q2) + room =
    batch_bytes (events_of R) + waiting_bytes (r ++ q1) + (waiting_bytes q2 + room)) as ->
    by (rewrite !waiting_app; lia).
  rewrite app_assoc in Hq, Ho, HT, HR, Hfuel. rewrite length_app in Hn. rewrite length_app in Hfuel.
  rewrite entries_app, app_assoc in HT. destruct (tidy_app _ _ HT) as [HT1 HT2].
  pose proof (proj1 (Forall_app _ _ _) Hq) as [Hq1 Hq2]. pose proof Ho as (_ & Ho2 & _)%in_order_app.
  pose proof (batch_bytes_nonneg (events_of (entry <$> q2))) as Hq2b. fold (waiting_bytes q2) in Hq2b.
  apply (round_goes q1 fuel c' R w r q2); [done|done|lia|lia|]. intros any ws Hws.
  eapply hoare_then; [apply (flush_pass_goes n fuel); [done|done|done|done|done|lia|lia|done]|]. intros res. cbv beta.
  apply hoare_exists. intros q3. apply hoare_exists. intros q4. apply hoare_exists. intros ws'.
  apply hoare_given. intros ->. apply hoare_given. intros Hq34. apply hoare_given. intros Hb4. apply hoare_given. intros Hd.
  eapply (hoare_then _ (fun stop s => stop = stop_ c /\ Going _ [] ((w ++ ws) ++ ws') [] q4 _ s)).
  { apply alone, hoare_get. intros s Hs. split; [by rewrite (go_core _ _ _ _ _ _ _ Hs)|exact Hs]. }
  intros stop. apply hoare_given. intros ->. apply hoare_return. intros s Hs. exists (q1 ++ q3), q4, (ws ++ ws').
  split; [done|]. split; [by rewrite Hq34, app_assoc|]. split; [done|]. rewrite <- app_assoc in Hs. split; [|done].
  rewrite (app_assoc r), entries_app, app_assoc. apply delivers_app; [done|done|].
  intros x y [Hx|Hx]%elem_of_app Hy.
  - apply list_elem_of_fmap in Hy as (e & -> & He). unfold row_le.
    assert (e ∈ q2) as He2 by (rewrite Hq34; by apply elem_of_app; left). rewrite Forall_forall in Hq2.
    rewrite (entry_ordinal e) by auto. apply HR; [done|]. by apply elem_of_app; right.
  - revert x y Hx Hy. rewrite Hq34, app_assoc in Hq, Ho.
    apply entries_before; [by apply Forall_app in Hq as [? _]|by apply in_order_app in Ho as (? & _ & _)].
Qed.

End Alone.

(** ** The call *)

(** What waits in the system. *)
Definition waits (s : Sy) : list QueuedEvent := retry_ (core s) ++ queue_ (queue (pipe s)).

(** Everything in the system, as rows. *)
Definition outstanding_rows (s : Sy) : list Row := rows (store (pipe s)) ++ (entry <$> waits s).

(** A running client in which nothing stands in the way of delivery: no other
    thread is in the middle of anything, consent is granted, store and sink work,
    and the events can be stored and delivered. *)
Record Able (s : Sy) : Prop := {
  able_alone : schedule s = [];
  able_running : lifecycle_ (impl s) = Running /\ terminated (pipe s) = false /\ ok (terminal_status_ (core s)) = true;
  able_granted : consent (pipe s) = Granted;
  able_config : cfg_sink (config (pipe s)) = true /\ 0 < cfg_batch_size (config (pipe s));
  able_store : sound (store (pipe s)) /\ healthy (store (pipe s));
  able_sink : keen [] (batch_bytes (events_of (outstanding_rows s))) (sink (pipe s));
  able_rows : Tidy (outstanding_rows s);
  able_events : Forall (ready (consent_generation (pipe s))) (waits s);
  able_order : in_order (waits s) /\
    forall x e, x ∈ rows (store (pipe s)) -> e ∈ waits s -> row_ordinal x <= qe_ordinal e;
  able_ordinals : (forall e, e ∈ waits s -> qe_ordinal e <= ordinal_ (impl s)) /\
    flush_barrier_ (core s) <= ordinal_ (impl s) < 9223372036854775808 /\ 0 <= flush_barrier_ (core s);
  able_tokens : tokens_wf (flush_seq_ (core s)) (core_tokens (core s)) /\ flush_seq_ (core s) + 1 < 18446744073709551616
}.

(** After the flush is submitted, with the worker about to run its pass. *)
Lemma submitted_goes s :
  Able s ->
  let c := core s in
  let s1 := snd (submit_flush (ordinal_ (impl s)) s) in
  flush_section s = (inr (flush_seq_ c + 1), s1) /\
  exists c', Going (consent_generation (pipe s)) (cfg_batch_size (config (pipe s))) (written s) c' (rows (store (pipe s))) []
      (retry_ c) (queue_ (queue (pipe s))) (batch_bytes (events_of (rows (store (pipe s)))) + waiting_bytes (waits s) + 0) s1 /\
    flush_barrier_ c' = ordinal_ (impl s) /\ flush_seq_ c' = flush_seq_ c + 1 /\ flush_done_ c' = flush_done_ c /\
    pass_results_ c' = pass_results_ c /\ terminal_status_ c' = terminal_status_ c.
Proof using.
  intros [Hal (Hrun & Hter & Hts) Hgr [Hsk Hbt] [Hso Hhe] Hke _ _ _ (_ & Hba & _) [[Ht _] Hw]]. simpl in Ht.
  assert (wrap64 (flush_seq_ (core s) + 1) = flush_seq_ (core s) + 1) as Hwr by (apply wrap64_small; lia).
  split.
  - unfold flush_section. rewrite mget_then, Hrun. simpl. unfold terminal_locked, mthen, mget. rewrite Hter. simpl.
    unfold submit_flush, mthen, mput, mget, mreturn, with_queue. simpl. destruct (_ <? _); simpl; by rewrite Hwr.
  - exists (set_flush_seq_ (flush_seq_ (core s) + 1) (set_flush_barrier_ (ordinal_ (impl s)) (core s))).
    assert (batch_bytes (events_of (rows (store (pipe s)))) + waiting_bytes (waits s) + 0 = batch_bytes (events_of (outstanding_rows s))) as ->
      by (unfold outstanding_rows, waiting_bytes; rewrite events_app, batch_bytes_app; lia).
    split; [|done]. unfold submit_flush, mthen, mput, mget, mreturn, with_queue. simpl. constructor; simpl; try done; [|by rewrite app_nil_r].
    destruct (Z.ltb_spec (flush_barrier_ (core s)) (ordinal_ (impl s))); simpl; rewrite Hwr; [done|].
    assert (ordinal_ (impl s) = flush_barrier_ (core s)) as -> by lia. by destruct (core s).
Qed.

(** The waiter finds the answer of its pass. *)
Lemma waiter_answered handled (c : WorkerCore) (s : Sy) :
  core s = answer_tokens handled (flush_seq_ c) status_ok c -> ok (terminal_status_ c) = true ->
  0 <= handled < flush_seq_ c -> StronglySorted Z.lt (fst <$> pass_results_ c) ->
  Forall (fun kv => 0 < fst kv <= handled) (pass_results_ c) ->
  exists s', wait_flush (flush_seq_ c) s = (Some status_ok, s') /\ pipe s' = pipe s /\
    retry_ (core s') = retry_ (core s) /\ written s' = written s.
Proof using.
  intros Hc Ht Hh Hm Hk. unfold wait_flush. rewrite mget_then, Hc. simpl. rewrite Z.leb_refl. simpl. rewrite Ht. simpl.
  assert (flush_result_locked (answer_tokens handled (flush_seq_ c) status_ok c) (flush_seq_ c) = status_ok) as ->.
  { unfold flush_result_locked. simpl.
    change (prune_pass_results_locked _) with (kept_answers handled (flush_seq_ c) status_ok (pass_results_ c)).
    rewrite (kept_recent handled (flush_seq_ c) status_ok (pass_results_ c) Hm Hk ltac:(lia) (flush_seq_ c) status_ok); [done| |lia].
    unfold all_answers. apply elem_of_app. right. apply list_elem_of_fmap. exists (flush_seq_ c). split; [done|].
    apply elem_of_seqZ. lia. }
  unfold mthen, mput, mreturn. eexists. split; [reflexivity|]. simpl. by rewrite Hc.
Qed.

Lemma flush_delivered n fuel s :
  Able s -> (length (outstanding_rows s) < n)%nat -> (length (outstanding_rows s) < fuel)%nat ->
  let '(answer, s') := flush false (let* _ := iteration dump n fuel (flush_done_ (core s)) in mreturn tt) s in
  answer = status_ok /\ rows (store (pipe s')) = [] /\ waits s' = [] /\
  exists ws, written s' = written s ++ ws /\ delivers (outstanding_rows s) ws /\ keen (concat (fst <$> ws)) 0 (sink (pipe s')).
Proof using.
  intros Hs Hn Hfuel. destruct (submitted_goes s Hs) as (Hsec & c & Hgo & Hbar & Hseq & Hdone & Hres & Hter).
  destruct Hs as [_ (_ & _ & Hts) _ [_ Hb] _ _ HT Hev [Ho HR] (Hord & Hba & Hba0) [((Ht0 & Ht1) & Htm & Htk & _) _]].
  simpl in Ht0, Ht1, Htm, Htk. unfold outstanding_rows in Hn, Hfuel, HT. rewrite length_app, length_fmap in Hn, Hfuel.
  unfold waits in Hn. rewrite length_app in Hn.
  unfold flush, mthen. rewrite Hsec.
  pose proof (iteration_goes _ _ Hb (written s) n fuel (flush_done_ (core s)) c (rows (store (pipe s))) [] (retry_ (core s))
    (queue_ (queue (pipe s))) 0 Hev Ho HT HR ltac:(lia) ltac:(lia) ltac:(lia) Hfuel ltac:(lia) _ Hgo) as Hit.
  destruct (iteration dump n fuel _ _) as [res s2]. destruct Hit as (q1 & q2 & ws & _ & Hq & Hq2 & Hd & Hs2). simpl in Hs2. unfold mreturn.
  assert (q2 = []) as ->.
  { destruct q2 as [|e q2]; [done|]. apply Forall_cons in Hq2 as [He _]. rewrite Hbar in He.
    specialize (Hord e). assert (e ∈ waits s) as Hin; [|specialize (Hord Hin); lia].
    unfold waits. rewrite Hq, !elem_of_app. right. right. by left. }
  rewrite app_nil_r in Hq. subst q1.
  destruct (waiter_answered (flush_done_ (core s)) (set_retry_ [] (set_pending_error_ status_ok c)) s2) as (s3 & Hw & Hp & Hr & Hwr).
  { rewrite (go_core _ _ _ _ _ _ _ _ _ _ Hs2). done. }
  { simpl. by rewrite Hter. }
  { simpl. lia. }
  { simpl. by rewrite Hres. }
  { simpl. by rewrite Hres. }
  simpl in Hw. rewrite Hseq in Hw. rewrite Hw. split; [done|]. rewrite Hp, (go_rows _ _ _ _ _ _ _ _ _ _ Hs2). split; [done|].
  split; [unfold waits; by rewrite Hp, Hr, (go_queue _ _ _ _ _ _ _ _ _ _ Hs2), (go_core _ _ _ _ _ _ _ _ _ _ Hs2)|].
  exists ws. rewrite Hwr, (go_written _ _ _ _ _ _ _ _ _ _ Hs2). split; [done|]. split; [done|].
  exact (go_keen _ _ _ _ _ _ _ _ _ _ Hs2).
Qed.

(** C6: A flush delivers. When a running client with consent granted has a store
    and a sink that work, and no other thread interferes, flush() answers Ok
    after one pass of the worker, and the pass has delivered everything: every
    stored row and every waiting event exactly once, in the order of their
    ordinals; nothing is left in the queue, for retry or in the store. *)
Theorem flush_delivers_everything n fuel s :
  Able s -> (length (outstanding_rows s) < n)%nat -> (length (outstanding_rows s) < fuel)%nat ->
  let '(answer, s') := flush false (let* _ := iteration dump n fuel (flush_done_ (core s)) in mreturn tt) s in
  answer = status_ok /\ rows (store (pipe s')) = [] /\ waits s' = [] /\
  exists ws, written s' = written s ++ ws /\ delivers (outstanding_rows s) ws /\ keen (concat (fst <$> ws)) 0 (sink (pipe s')).
Proof using. apply flush_delivered. Qed.

(** A revocation completes when the store works: set_consent answers Ok, nothing
    is stored or waits, the marker is gone, and the next grant is accepted. *)
Theorem revocation_completes c s :
  c <> Granted -> sound (store (pipe s)) -> healthy (store (pipe s)) ->
  let '(answer, s') := Client.set_consent c s in
  answer = status_ok /\ consent (pipe s') = c /\ rows (store (pipe s')) = [] /\ marked (store (pipe s')) = false /\
  waits s' = [] /\ outstanding (pipe s') = 0 /\ ok (fst (Client.set_consent Granted s')) = true.
Proof using.
  intros Hc Hs Hh. unfold Client.set_consent, set_consent_locked. rewrite bool_decide_false by done.
  destruct (revoke_effect c s) as (Est & Eq & Er & Ec & _). unfold mthen at 1. destruct (revoke_section c s) as [u s1].
  cbn [snd] in *.
  unfold run_purge, purge_mark, purge_delete, mthen, with_store. rewrite Est.
  pose proof (law_mark _ Hs) as Hl1. pose proof (healthy_mark _ Hs Hh) as Hh1.
  destruct (store_mark_revocation_pending (store (pipe s))) as [st1 x1]. destruct Hl1 as (Hs1 & _), Hh1 as [Hok1 Hh1].
  rewrite Hok1. simpl. pose proof (law_purge _ Hs1) as Hl2. pose proof (healthy_purge _ Hs1 Hh1) as Hh2.
  destruct (store_purge_and_clear_revocation x1) as [[st2 n] x2]. destruct Hl2 as (Hs2 & Hl2), Hh2 as [Hok2 _].
  rewrite Hok2 in *. simpl. destruct Hl2. unfold waits. simpl. rewrite Eq, Er. done.
Qed.

End Progress.

(** * Witnesses *)

#[local] Existing Instance RefDb.api.
#[local] Existing Instance RefDb.spec.
#[local] Existing Instance RefDb.reliable.
#[local] Existing Instance sample_ops.
#[local] Existing Instance sample_laws.
#[local] Instance sample_works : StoreWorks (SqliteStore RefDb.conn) := sqlite_works accept_all.
#[local] Existing Instance open_sink.

(** A sink that takes everything. *)
#[local] Instance open_works : SinkWorks unit.
Proof.
  refine {| keen := fun _ _ _ => True |}.
  - intros l batch n k _ _. split; [by eexists|done].
  - intros l n k _. split; [by eexists|done].
Defined.

(** A client with a session and one more event, over a store with a row from an
    earlier run; the worker has not run yet. *)
Definition old_row : Row := mkRow 1 (SqlText "id-0") "s" 0 5 0 (SqlText "{}").
Definition busy_rng : mt19937_64 := mkMt [1; 2; 3; 4; 5; 6; 7; 8] 0.
Definition busy {K} `{!SinkOps K} (snk : K) : Sys (SqliteStore RefDb.conn) K :=
  snd (perform_all perform [ActStartSession "p1"; ActTrack 0 "jump" []]
    (started sample_config snk (ref_store (set_events empty_db [old_row])) busy_rng [0; 0] 1 5 [])).

Definition busy_rows : list Row := Eval vm_compute in outstanding_rows sample_dump (busy tt).
Definition busy_waits : list QueuedEvent := Eval vm_compute in waits (busy tt).

Lemma busy_rows_eq {K} `{!SinkOps K} (snk : K) : outstanding_rows sample_dump (busy snk) = busy_rows.
Proof. vm_compute. reflexivity. Qed.

Lemma busy_waits_eq {K} `{!SinkOps K} (snk : K) : waits (busy snk) = busy_waits.
Proof. vm_compute. reflexivity. Qed.

Lemma busy_tidy : Tidy busy_rows.
Proof.
  split; [|apply (bool_decide_unpack _); vm_compute; exact I].
  apply Forall_forall. intros r Hr. unfold busy_rows in Hr.
  repeat (apply elem_of_cons in Hr as [->|Hr]); [..|by apply not_elem_of_nil in Hr];
    (split; [vm_compute; discriminate|]); do 2 eexists; (split; [reflexivity|]); (split; [reflexivity|]); vm_compute; discriminate.
Qed.

Lemma busy_ready e : e ∈ busy_waits -> ready sample_dump 0 e /\ 5 <= qe_ordinal e <= 7.
Proof.
  intros He. unfold busy_waits in He.
  repeat (apply elem_of_cons in He as [->|He]); [..|by apply not_elem_of_nil in He];
    (split; [|vm_compute; split; discriminate]); repeat split; try (vm_compute; discriminate);
    refine (bool_decide_unpack (_ ∉ _) _); vm_compute; exact I.
Qed.

Lemma busy_able {K} `{!SinkOps K} `{!SinkWorks K} (snk : K) :
  keen [] (batch_bytes (events_of busy_rows)) snk -> Able sample_dump (busy snk).
Proof.
  intros Hk.
  assert (sink (pipe (busy snk)) = snk) as Hsk by (vm_compute; reflexivity).
  assert (rows (store (pipe (busy snk))) = [strip old_row]) as Hrows by (vm_compute; reflexivity).
  assert (consent_generation (pipe (busy snk)) = 0) as Hg by (vm_compute; reflexivity).
  assert (ordinal_ (impl (busy snk)) = 7) as Hord by (vm_compute; reflexivity).
  constructor; rewrite ?busy_rows_eq, ?busy_waits_eq, ?Hsk, ?Hrows, ?Hg, ?Hord.
  - vm_compute. reflexivity.
  - vm_compute. by repeat split.
  - vm_compute. reflexivity.
  - vm_compute. by repeat split.
  - split; [|vm_compute; by split]. split; [vm_compute; reflexivity|]. apply (bool_decide_unpack _). vm_compute. exact I.
  - exact Hk.
  - exact busy_tidy.
  - apply Forall_forall. intros e He. by apply busy_ready.
  - split; [vm_compute; repeat constructor|]. intros x e [->|Hx%not_elem_of_nil]%elem_of_cons He; [|done]. by apply busy_ready.
  - split; [intros e He; by apply busy_ready|]. vm_compute. split; [split; [discriminate|reflexivity]|discriminate].
  - split; [|vm_compute; reflexivity]. split; [vm_compute; split; discriminate|]. split; [vm_compute; constructor|].
    split; [vm_compute; constructor|]. vm_compute. discriminate.
Qed.

Lemma flush_delivers_everything_witness :
  let '(answer, s') := flush false (let* _ := iteration sample_dump 10 10 0 in mreturn tt) (busy tt) in
  answer = status_ok /\ rows (store (pipe s')) = [] /\ waits s' = [] /\
  exists ws, written s' = ws /\ delivers busy_rows ws.
Proof.
  pose proof (flush_delivers_everything sample_dump 10 10 (busy tt) (busy_able tt I)) as Hf. rewrite busy_rows_eq in Hf.
  specialize (Hf ltac:(vm_compute; lia) ltac:(vm_compute; lia)).
  assert (flush_done_ (core (busy tt)) = 0) as E by (vm_compute; reflexivity). rewrite E in Hf.
  assert (written (busy tt) = []) as Ew by (vm_compute; reflexivity). rewrite Ew in Hf.
  destruct (flush false _ (busy tt)) as [answer s']. destruct Hf as (? & ? & ? & ws & Hw & Hd & _).
  repeat (split; [assumption|]). exists ws. split; assumption.
Defined.
