(* ===== verification/FileProgress.v ===== *)
(** FileSink takes what it is given, and a flush reaches the file.

    When no call to stdio fails, no hook is installed and the file may be opened,
    every write and flush of FileSink (src/file_sink.cpp) answers Ok; so FileSink
    is a sink that works in the sense of Progress.v, and a flush of a client over
    it puts one line per event into the file, in order. *)
From S2P Require Import Prelude Types Serializer Validator Queue Ids Session SqlText Sqlite Store StoreSpec StoreIface StoreHealth Pipeline Admission Worker Tokens Paths Stdio FileSink FileSinkSpec FileSinkLog Client AdmissionSpec Invariant WorkerSpec WorkerRun Guarantees Delivery Progress.

Local Open Scope Z_scope.
Local Open Scope pt_scope.

(** * Stdio without failures *)

(** No call to come breaks, and the file may be opened. *)
Definition sure (f : OsFile) : Prop := Forall (fun x => exists m, x = Works m) (fates f) /\ permitted f = true.

Section Sure.
Context (lib : StdioLib).

Lemma sure_fate : hoare sure next_fate (fun x f => (exists m, x = Works m) /\ sure f).
Proof using.
  intros f [Hf Hp]. unfold next_fate. destruct (fates f) as [|x l] eqn:E; simpl; [split; [by eexists|by split; [rewrite E|]]|].
  apply Forall_cons in Hf as [? ?]. by split.
Qed.

Lemma sure_write off bs f : sure f -> sure (os_write off bs f).
Proof using. revert off f. induction bs as [|x bs IH]; intros off f Hf; simpl; [done|]. by apply IH. Qed.

Lemma sure_drain st : hoare sure (drain lib st) (fun r f => fst r = true /\ sure f).
Proof using.
  unfold drain. eapply hoare_then; [apply sure_fate|]. intros x. apply hoare_given. intros [m ->].
  intros f Hf. simpl. split; [done|]. by apply sure_write.
Qed.

Lemma sure_fwrite data st : hoare sure (fwrite lib data st) (fun r f => fst r = length data /\ sure f).
Proof using.
  unfold fwrite. eapply hoare_then; [apply sure_fate|]. intros x. apply hoare_given. intros [m ->].
  intros f Hf. simpl. split; [done|]. by apply sure_write.
Qed.

Lemma sure_fputc c st : hoare sure (fputc lib c st) (fun r f => fst r = true /\ sure f).
Proof using.
  unfold fputc. eapply hoare_then; [apply sure_fwrite|]. intros [n st']. apply hoare_given. simpl. intros ->. by apply hoare_return.
Qed.

Lemma sure_fseeko off from st : 0 <= off -> hoare sure (fseeko lib off from st) (fun r f => fst r = true /\ sure f).
Proof using.
  intros Ho. unfold fseeko. eapply hoare_then; [apply sure_drain|]. intros [b st']. apply hoare_given. simpl. intros ->. simpl.
  apply hoare_read. intros size f [Hf <-].
  destruct (Z.ltb_spec (match from with SEEK_SET => off | SEEK_END => Z.of_nat (length (os_bytes f)) + off end) 0);
    [destruct from; lia|done].
Qed.

Lemma sure_fread want st : hoare sure (fread want st) (fun _ f => sure f).
Proof using.
  unfold fread. eapply hoare_then; [apply sure_fate|]. intros x. apply hoare_given. intros [m ->].
  apply hoare_read. intros c. apply hoare_return. by intros f [? _].
Qed.

Lemma sure_fileno st : hoare sure (fileno st) (fun r f => r = true /\ sure f).
Proof using. unfold fileno. eapply hoare_then; [apply sure_fate|]. intros x. apply hoare_given. intros [m ->]. by apply hoare_return. Qed.

Lemma sure_fsync : hoare sure fsync (fun r f => r = true /\ sure f).
Proof using. unfold fsync. eapply hoare_then; [apply sure_fate|]. intros x. apply hoare_given. intros [m ->]. by intros f [? ?]. Qed.

Lemma sure_ftruncate n : 0 <= n -> hoare sure (ftruncate n) (fun r f => r = true /\ sure f).
Proof using.
  intros Hn. unfold ftruncate. eapply hoare_then; [apply sure_fate|]. intros x. apply hoare_given. intros [m ->].
  destruct (Z.ltb_spec n 0); [lia|]. by intros f [? ?].
Qed.

(** * FileSink without failures *)

(** No hook, an open file, and nothing that fails. *)
Definition Easy (s : FileSink) : Prop := fault_hook s = None /\ is_Some (file_ s) /\ sure (os s).

Lemma easy_file {A} (null : A) op (Q : A -> Prop) :
  (forall st, hoare sure (op st) (fun r f => Q (fst r) /\ sure f)) ->
  hoare Easy (with_file null op) (fun a s => Q a /\ Easy s).
Proof using.
  intros Hop s (Hh & [st Hst] & Hs). unfold with_file. rewrite Hst. specialize (Hop st (os s) Hs).
  destruct (op st (os s)) as [[a st'] f]. destruct Hop as [? ?]. simpl. split; [done|]. split; [done|]. split; [by eexists|done].
Qed.

Lemma easy_fd {A} (m : M OsFile A) (Q : A -> Prop) :
  hoare sure m (fun a f => Q a /\ sure f) -> hoare Easy (with_fd m) (fun a s => Q a /\ Easy s).
Proof using.
  intros Hm s (Hh & Hst & Hs). unfold with_fd. specialize (Hm (os s) Hs). destruct (m (os s)) as [a f].
  destruct Hm as [? ?]. by split.
Qed.

Lemma easy_fault op : hoare Easy (sink_fault op) (fun r s => r = false /\ Easy s).
Proof using. intros s Hs. unfold sink_fault. destruct Hs as (Hh & ? & ?). by rewrite Hh. Qed.

Lemma easy_seek off from : 0 <= off -> hoare Easy (seek_offset lib off from) (fun r s => r = true /\ Easy s).
Proof using. intros Ho. apply (easy_file false _ (fun r => r = true)). intros st. by apply sure_fseeko. Qed.

Lemma easy_flush : hoare Easy (flush_stream lib) (fun r s => r = true /\ Easy s).
Proof using. apply (easy_file false _ (fun r => r = true)). intros st. apply sure_drain. Qed.

Lemma easy_clear : hoare Easy clear_error (fun _ s => Easy s).
Proof using.
  intros s (Hh & [st Hst] & Hs). unfold clear_error, with_file. rewrite Hst. simpl. split; [done|]. split; [by eexists|done].
Qed.

Lemma easy_descriptor : hoare Easy descriptor (fun r s => r = true /\ Easy s).
Proof using.
  apply (easy_file false _ (fun r => r = true)). intros st. eapply hoare_then; [apply sure_fileno|]. intros fd.
  apply hoare_given. intros ->. by apply hoare_return.
Qed.

Lemma easy_sync : hoare Easy sync_to_disk (fun r s => r = true /\ Easy s).
Proof using.
  unfold sync_to_disk. eapply hoare_then; [apply easy_descriptor|]. intros fd. apply hoare_given. intros ->. simpl.
  apply (easy_fd _ (fun r => r = true)), sure_fsync.
Qed.

Lemma easy_truncate n : 0 <= n -> hoare Easy (truncate_to n) (fun r s => r = true /\ Easy s).
Proof using.
  intros Hn. unfold truncate_to. eapply hoare_then; [apply easy_descriptor|]. intros fd. apply hoare_given. intros ->. simpl.
  by apply (easy_fd _ (fun r => r = true)), sure_ftruncate.
Qed.

Lemma easy_events start events : hoare Easy (write_events lib start events) (fun r s => r = None /\ Easy s).
Proof using.
  induction events as [|e events IH]; cbn [write_events]; [by apply hoare_return|].
  apply hoare_read. intros path. eapply hoare_pre; [|by intros s [Hs _]; exact Hs].
  eapply hoare_then; [apply easy_fault|]. intros torn. apply hoare_given. intros ->.
  eapply hoare_then; [apply easy_fault|]. intros injected. apply hoare_given. intros ->.
  eapply (hoare_then _ (fun short s => short = false /\ Easy s)).
  { case_bool_decide; [|by apply hoare_return]. eapply hoare_then.
    - apply (easy_file 0%nat _ (fun n => n = length (chars (se_json e)))). intros st. apply sure_fwrite.
    - intros n. apply hoare_given. intros ->. rewrite bool_decide_true by done. by apply hoare_return. }
  intros short. apply hoare_given. intros ->.
  eapply hoare_then; [apply (easy_file false _ (fun r => r = true)); intros st; apply sure_fputc|].
  intros ended. apply hoare_given. intros ->. exact IH.
Qed.

Lemma easy_commit start : hoare Easy (write_commit lib start) (fun r s => r = status_ok /\ Easy s).
Proof using.
  unfold write_commit. apply hoare_read. intros path. eapply hoare_pre; [|by intros s [Hs _]; exact Hs].
  eapply hoare_then; [apply easy_fault|]. intros injected. apply hoare_given. intros ->.
  eapply hoare_then; [apply easy_flush|]. intros flushed. apply hoare_given. intros ->. simpl.
  apply hoare_read. intros durable. eapply hoare_pre; [|by intros s [Hs _]; exact Hs]. destruct durable; [|by apply hoare_return]. simpl.
  eapply hoare_then; [apply easy_fault|]. intros injected. apply hoare_given. intros ->.
  eapply hoare_then; [apply easy_sync|]. intros synced. apply hoare_given. intros ->. by apply hoare_return.
Qed.

(** [FileSink::Impl::flush_now] answers Ok. *)
Lemma easy_flush_now s :
  ok (failure_ s) = true -> fault_hook s = None -> sure (os s) ->
  let '(r, s') := flush_now lib s in r = status_ok /\ fault_hook s' = None /\ sure (os s').
Proof using.
  intros Hf Hh Hs. destruct (file_ s) as [st|] eqn:Hfile.
  2:{ unfold flush_now. rewrite mget_then, Hf. cbn [negb]. rewrite !mget_then. by rewrite Hfile. }
  enough (hoare (fun s => Easy s /\ ok (failure_ s) = true) (flush_now lib) (fun r s => r = status_ok /\ Easy s)) as He.
  { destruct (He s) as [Hr (? & _ & ?)]; [split; [|done]; split; [done|]; split; [by rewrite Hfile; eexists|done]|].
    by destruct (flush_now lib s). }
  clear. unfold flush_now. apply hoare_read. intros failure.
  apply hoare_pre with (P' := fun s => ok failure = true /\ Easy s); [|by intros s [[? ?] <-]]. apply hoare_given. intros ->. cbn [negb].
  apply hoare_read. intros file. apply hoare_read. intros path.
  apply hoare_pre with (P' := fun s => file <> None /\ Easy s).
  2:{ intros s [[He <-] _]. split; [|done]. destruct He as (_ & [st ->] & _). done. }
  apply hoare_given. intros Hn. rewrite bool_decide_false by done.
  eapply hoare_then; [apply easy_fault|]. intros injected. apply hoare_given. intros ->.
  eapply hoare_then; [apply easy_flush|]. intros flushed. apply hoare_given. intros ->. simpl.
  apply hoare_read. intros durable. eapply hoare_pre; [|by intros s [Hs _]; exact Hs]. destruct durable; [|by apply hoare_return]. simpl.
  eapply hoare_then; [apply easy_fault|]. intros injected. apply hoare_given. intros ->.
  eapply hoare_then; [apply easy_sync|]. intros synced. apply hoare_given. intros ->. by apply hoare_return.
Qed.

(** ** Opening *)

Section Opening.
Context (Hlib : Dependable lib) (d : bool).
#[local] Abbreviation Cleanly := (Clean (fun _ => True) d).

(** The file is open with content [c], nothing waits and nothing fails. *)
Definition Set_ (c : list Ascii.ascii) (s : FileSink) : Prop := Cleanly c s /\ Easy s.

Lemma set_end c :
  Z.of_nat (length c) < 9223372036854775808 ->
  hoare (Set_ c) (seek_to_end lib) (fun z s => z = Z.of_nat (length c) /\ Set_ c s).
Proof using.
  intros Hc. unfold seek_to_end. eapply hoare_then; [apply hoare_conj; [apply clean_seek_end|by apply (easy_seek 0 SEEK_END)]|].
  intros moved s [[_ Ho] [-> He]]. specialize (Ho eq_refl). simpl. unfold tell_offset.
  destruct (clean_tell (fun _ => True) d c Hc s Ho) as [Ho' Hz]. destruct He as (Hh & [st Hst] & Hs).
  assert (Easy (snd (tell_offset s)) /\ fst (tell_offset s) <> kBadOffset) as [He Hb].
  { unfold tell_offset, mthen, with_file, ftello, mthen. rewrite Hst. pose proof (sure_fate (os s) Hs) as Hf.
    destruct (next_fate (os s)) as [x f]. destruct Hf as [[m Hm] Hf]. simpl in Hm. subst x. simpl.
    split; [split; [done|split; [by eexists|done]]|].
    destruct Ho as [_ (st' & Hst' & [Hoff Hw _ _])]. assert (st' = st) as -> by congruence. rewrite Hoff, Hw. simpl. rewrite Nat.add_0_r.
    unfold kBadOffset. destruct (Z.ltb_spec (Z.of_nat (length c)) 0); [lia|]. rewrite to_int64_small by lia. lia. }
  fold tell_offset. split; [by apply Hz|]. split; [by apply open_clean|done].
Qed.

Lemma easy_scan fuel pos : 0 <= pos < 9223372036854775808 -> hoare Easy (scan_blocks lib fuel pos) (fun _ s => Easy s).
Proof using.
  revert pos. induction fuel as [|fuel IH]; intros pos Hpos; simpl; destruct (Z.ltb_spec 0 pos); simpl; try by apply hoare_return.
  set (chunk := if pos <? kBlock then pos else kBlock).
  assert (0 < chunk <= pos) as Hc by (subst chunk; unfold kBlock; destruct (Z.ltb_spec pos 65536); lia).
  rewrite (to_int64_small (pos - chunk)) by lia.
  eapply hoare_then; [apply easy_seek; lia|]. intros moved. apply hoare_given. intros ->. simpl.
  eapply hoare_then; [apply (easy_file [] _ (fun _ => True))|].
  { intros st. eapply hoare_conseq; [apply sure_fread|done|done]. }
  intros buffer. apply hoare_given. intros _. destruct (negb _); [by apply hoare_return|].
  destruct (newline_before _ _); [by apply hoare_return|]. apply IH. lia.
Qed.

Lemma set_find c :
  Z.of_nat (length c) < 9223372036854775808 ->
  hoare (Set_ c) (find_last_complete_line_end lib (Z.of_nat (length c)))
    (fun r s => r = Some (Z.of_nat (length (whole_lines c))) /\ Set_ c s).
Proof using Hlib.
  intros Hc s [Hcl He]. destruct (find_last_ok lib Hlib (fun _ => True) d c Hc s Hcl) as [Hcl' Hg].
  pose proof (find_last_steady lib Hlib d c Hc s (conj Hcl (proj1 (proj2 (proj2 He))))) as Hne.
  assert (Easy (snd (find_last_complete_line_end lib (Z.of_nat (length c)) s))) as He'.
  { unfold find_last_complete_line_end, mthen. pose proof (easy_scan (Z.to_nat (Z.of_nat (length c) / kBlock + 1)) (Z.of_nat (length c)) ltac:(lia) s He) as Hs.
    by destruct (scan_blocks _ _ _ _). }
  split; [|done]. destruct (fst _) as [g|]; [|done]. by rewrite (Hg g eq_refl).
Qed.

Lemma easy_fails m : hoare Easy m (fun r s => r = true /\ Easy s) -> hoare Easy (fails m) (fun r s => r = false /\ Easy s).
Proof using. intros Hm. eapply hoare_then; [exact Hm|]. intros r. apply hoare_given. intros ->. by apply hoare_return. Qed.

Lemma easy_or m m' :
  hoare Easy m (fun r s => r = false /\ Easy s) -> hoare Easy m' (fun r s => r = false /\ Easy s) ->
  hoare Easy (or_else m m') (fun r s => r = false /\ Easy s).
Proof using. intros Hm Hm'. eapply hoare_then; [exact Hm|]. intros r. apply hoare_given. by intros ->. Qed.

Lemma repair_goes c :
  Z.of_nat (length c) < 9223372036854775808 -> hoare (Set_ c) (repair_tail lib) (fun r s => r = status_ok /\ Easy s).
Proof using Hlib.
  intros Hc. unfold repair_tail. apply hoare_read. intros path. eapply hoare_pre; [|by intros s [Hs _]; exact Hs].
  eapply hoare_then; [by apply set_end|]. intros size. apply hoare_given. intros ->. unfold kBadOffset.
  destruct (Z.eqb_spec (Z.of_nat (length c)) (-1)); [lia|]. destruct (Z.eqb_spec (Z.of_nat (length c)) 0); [by apply hoare_return; intros s [_ ?]|].
  eapply hoare_then; [by apply set_find|]. intros good. apply hoare_given. intros ->. eapply hoare_pre; [|by intros s [_ Hs]; exact Hs].
  destruct (_ =? _).
  - eapply hoare_then; [apply easy_seek; lia|]. intros moved. apply hoare_given. intros ->. by apply hoare_return.
  - eapply hoare_then; [apply easy_flush|]. intros flushed. apply hoare_given. intros ->.
    eapply hoare_then; [apply easy_clear|]. intros u.
    eapply (hoare_then _ (fun broken s => broken = false /\ Easy s)).
    { apply easy_or; [apply easy_fault|]. apply easy_or; [apply easy_fails, easy_truncate; lia|].
      apply easy_or; [apply easy_fails, easy_sync|]. apply easy_fails, easy_seek. lia. }
    intros broken. apply hoare_given. intros ->. by apply hoare_return.
Qed.

(** Opening a file that is there, or a new one. *)
Lemma open_update_goes (s : FileSink) :
  fault_hook s = None -> sure (os s) ->
  let s' := snd (open_into (fopen_update lib) s) in
  fault_hook s' = None /\ sure (os s') /\ (file_ s' = None <-> present (os s) = None) /\ present (os s') = present (os s).
Proof using.
  intros Hh Hs. unfold open_into, with_fd, fopen_update, mthen. pose proof (sure_fate (os s) Hs) as Hf.
  assert (present (snd (next_fate (os s))) = present (os s)) as Hp by (unfold next_fate; by destruct (fates (os s))).
  destruct (next_fate (os s)) as [x f]. destruct Hf as [[m Hm] [Hf Hper]]. simpl in Hm, Hp. subst x. simpl in Hf, Hper.
  unfold mget, mreturn, mput, id. simpl. rewrite Hp, Hper. destruct (present (os s)); simpl; by repeat split.
Qed.

Lemma open_truncate_goes (s : FileSink) :
  fault_hook s = None -> sure (os s) -> present (os s) = None ->
  let s' := snd (open_into (fopen_truncate lib) s) in Easy s'.
Proof using.
  intros Hh Hs Hp0. unfold open_into, with_fd, fopen_truncate, mthen. pose proof (sure_fate (os s) Hs) as Hf.
  assert (present (snd (next_fate (os s))) = present (os s)) as Hp by (unfold next_fate; by destruct (fates (os s))).
  destruct (next_fate (os s)) as [x f]. destruct Hf as [[m Hm] [Hf Hper]]. simpl in Hm, Hp. subst x. simpl in Hf, Hper.
  unfold mget, mreturn, mput, id. simpl. rewrite Hp, Hp0, Hper. simpl. split; [done|]. split; [by eexists|done].
Qed.

(** The sink can take a batch after the lines [base], and nothing fails. *)
Definition Eager (base : list Ascii.ascii) (s : FileSink) : Prop :=
  Ready (fun _ => True) d base s /\ fault_hook s = None /\ sure (os s).

(** The file is not open yet. *)
Definition Closed (o : option (list Ascii.ascii)) (s : FileSink) : Prop :=
  Shut (fun _ => True) d o s /\ fault_hook s = None /\ sure (os s).

Lemma update_goes o :
  hoare (Closed o) (open_into (fopen_update lib))
    (fun _ s => match o with Some c => Set_ c s | None => Closed None s end).
Proof using Hlib.
  intros s (Hsh & Hh & Hs). pose proof (open_update_goes s Hh Hs) as (Hh' & Hs' & Hiff & _).
  pose proof (fopen_update_ok lib Hlib (fun _ => True) d o s Hsh) as Hok.
  pose proof Hsh as (_ & _ & Hp & _). rewrite Hp in Hiff. destruct o as [c|].
  - destruct Hok as [[_ [?|Hno]]|Hc]; [done|destruct Hs' as [_ ?]; congruence|]. split; [done|]. split; [done|].
    split; [|done]. destruct Hc as [_ (st & -> & _)]. by eexists.
  - destruct Hok as [[? _]|[_ (st & Hst & _)]]; [by split|]. rewrite Hst in Hiff. destruct Hiff as [_ Hi]. by specialize (Hi eq_refl).
Qed.

Lemma truncate_goes : hoare (Closed None) (open_into (fopen_truncate lib)) (fun _ => Set_ []).
Proof using Hlib.
  intros s (Hsh & Hh & Hs). pose proof Hsh as (_ & _ & Hp & _). pose proof (open_truncate_goes s Hh Hs Hp) as He.
  destruct (fopen_truncate_ok lib Hlib (fun _ => True) d [] (fun _ _ => I) None eq_refl s (conj Hsh (or_introl eq_refl))) as [(_ & Hn & _)|Hc];
    [|by split]. destruct He as (_ & [st Hst] & _). simpl in Hst. congruence.
Qed.

Lemma ensure_open_goes base :
  Z.of_nat (length base) < 9223372036854775808 -> hoare (Eager base) (ensure_open lib) (fun r s => r = status_ok /\ Easy s).
Proof using Hlib.
  intros Hbase. unfold ensure_open. apply hoare_read. intros failure.
  apply hoare_pre with (P' := fun s => ok failure = true /\ Eager base s).
  2:{ intros s [Hs <-]. split; [|done]. by destruct Hs as [[[[? _] _]|(o & [[? _] _] & _)] _]. }
  apply hoare_given. intros ->. cbn [negb]. apply hoare_read. intros file. case_bool_decide as Hfile.
  { apply hoare_return. by intros s [(_ & ? & ?) <-]. }
  apply hoare_pre with (P' := fun s => exists o, Closed o s /\ Z.of_nat (length (default [] o)) < 9223372036854775808).
  2:{ intros s [(Hr & Hh & Hs) <-]. destruct Hr as [[_ (st & Hst & _)]|(o & Hsh & _ & Hlen)]; [rewrite Hst in Hfile; by destruct Hfile|].
      by exists o. }
  apply hoare_exists. intros o. apply hoare_fact. intros Hlen.
  eapply (hoare_then _ (fun f s => f = false /\ Closed o s)).
  { intros s Hs. unfold sink_fault. destruct Hs as (? & Hh & ?). by rewrite Hh. }
  intros f. apply hoare_given. intros ->. eapply hoare_then; [apply update_goes|]. intros u. cbv beta.
  apply hoare_read. intros opened.
  eapply (hoare_then _ (fun _ s => Set_ (default [] o) s)).
  { destruct o as [c|].
    - intros s [[Hcl He] <-]. destruct He as (? & [st Hst] & ?). rewrite Hst. rewrite bool_decide_false by done.
      split; [done|]. split; [done|]. split; [by eexists|done].
    - intros s [Hc <-]. pose proof Hc as [(_ & Hn & _) _]. rewrite Hn. simpl. by apply truncate_goes. }
  intros u'. apply hoare_read. intros file'. apply hoare_read. intros path.
  apply hoare_pre with (P' := fun s => file' <> None /\ Set_ (default [] o) s).
  2:{ intros s [[Hs <-] _]. split; [|done]. destruct Hs as [_ (_ & [st Hst] & _)]. by rewrite Hst. }
  apply hoare_given. intros Hne. rewrite bool_decide_false by done. by apply repair_goes.
Qed.

(** [FileSink::Impl::write] answers Ok. *)
Lemma file_write_goes base batch s :
  Z.of_nat (length base) < 9223372036854775808 -> cancelled_ s = false -> Eager base s -> durable_sync_ s = d ->
  fst (write lib batch s) = status_ok /\ Easy (snd (write lib batch s)).
Proof using Hlib.
  intros Hlen Hcan HE Hd. unfold write. rewrite !mget_then, Hcan.
  destruct (ensure_open_goes base Hlen s HE) as [Hr He].
  pose proof (ensure_open_ok lib Hlib (fun _ => True) d base (fun _ _ => I) s (proj1 HE)) as Hok.
  unfold mthen at 1 4. destruct (ensure_open lib s) as [r s1]. simpl in Hr, He. subst r. simpl.
  destruct Hok as [[_ Hcl]|[? _]]; [|done]. simpl in Hcl.
  destruct (set_end base Hlen s1 (conj Hcl He)) as [Hz Hs]. unfold mthen. destruct (seek_to_end lib s1) as [z s2]. simpl in Hz, Hs. subst z.
  unfold kBadOffset. destruct (Z.eqb_spec (Z.of_nat (length base)) (-1)); [lia|].
  destruct (easy_events (Z.of_nat (length base)) batch s2 (proj2 Hs)) as [Hn He2].
  destruct (write_events lib _ batch s2) as [o s3]. simpl in Hn, He2. subst o. by apply easy_commit.
Qed.

End Opening.

(** No call but request_cancel changes [cancelled_]. *)
Section Uncancelled.
Context (x : bool).
#[local] Abbreviation same := (fun s => cancelled_ s = x).

Lemma same_file {A} (null : A) op : preserves same (with_file null op).
Proof using. intros s Hs. unfold with_file. destruct (file_ s); [|done]. by destruct (op _ _) as [[? ?] ?]. Qed.

Lemma same_fd {A} (m : M OsFile A) : preserves same (with_fd m).
Proof using. intros s Hs. unfold with_fd. by destruct (m _). Qed.

Lemma same_fault op : preserves same (sink_fault op).
Proof using. intros s Hs. unfold sink_fault. by destruct (fault_hook s) as [[|? ?]|]. Qed.

Lemma same_put f : (forall s, cancelled_ (f s) = cancelled_ s) -> preserves same (mput f).
Proof using. intros Hf s Hs. simpl. by rewrite Hf. Qed.

Lemma same_close : preserves same (close_file lib).
Proof using.
  intros s Hs. unfold close_file. destruct (file_ s); [|done]. destruct (fflush _ _ _) as [[? ?] ?]. by destruct (fclose _ _ _).
Qed.

(** Goes through a computation made of such steps. *)
Ltac stays :=
  repeat first
    [ progress intros
    | apply preserves_return | apply preserves_get | apply same_file | apply same_fd | apply same_fault | apply same_close
    | apply same_put; done
    | match goal with |- preserves _ (mthen _ _) => apply preserves_then end
    | match goal with |- preserves _ (if ?c then _ else _) => destruct c end
    | match goal with |- preserves _ (match ?c with _ => _ end) => destruct c end ].

Lemma same_fail message : preserves same (fail_hard lib message).
Proof using. unfold fail_hard. stays. Qed.

Lemma same_roll good message : preserves same (roll_back lib good message).
Proof using.
  unfold roll_back, clear_error, flush_stream, or_else, fails, truncate_to, sync_to_disk, descriptor, seek_offset.
  stays; apply same_fail.
Qed.

Lemma same_scan fuel pos : preserves same (scan_blocks lib fuel pos).
Proof using. revert pos. induction fuel as [|fuel IH]; intros pos; simpl; unfold seek_offset; stays; apply IH. Qed.

Lemma same_repair : preserves same (repair_tail lib).
Proof using.
  unfold repair_tail, seek_to_end, tell_offset, find_last_complete_line_end, clear_error, flush_stream, or_else, fails, truncate_to,
    sync_to_disk, descriptor, seek_offset. stays; first [apply same_fail|apply same_scan].
Qed.

Lemma same_open : preserves same (ensure_open lib).
Proof using. unfold ensure_open, open_into. stays; apply same_repair. Qed.

Lemma same_events start events : preserves same (write_events lib start events).
Proof using. induction events as [|e events IH]; simpl; stays; first [apply same_roll|apply IH]. Qed.

Lemma same_write batch : preserves same (write lib batch).
Proof using.
  unfold write, seek_to_end, tell_offset, seek_offset, write_commit, flush_stream, sync_to_disk, descriptor.
  stays; first [apply same_open|apply same_fail|apply same_events|apply same_roll].
Qed.

Lemma same_flush_now : preserves same (flush_now lib).
Proof using. unfold flush_now, flush_stream, sync_to_disk, descriptor. stays. Qed.

End Uncancelled.

(** * FileSink as a sink that works *)

Section Works.
Context (Hlib : Dependable lib) (base : list Ascii.ascii) (Hbase : complete base).
#[local] Instance the_ops : SinkOps FileSink := file_sink_ops lib.

(** The file has the lines [base] and those of [l], and [n] bytes more fit. *)
Definition file_keen (l : EventBatch) (n : Z) (k : FileSink) : Prop :=
  Eager (durable_sync_ k) (base ++ ndjson l) k /\ cancelled_ k = false /\
  0 <= n /\ Z.of_nat (length (base ++ ndjson l)) + n < 9223372036854775808.

Lemma ndjson_bytes batch : Z.of_nat (length (ndjson batch)) = batch_bytes batch.
Proof using.
  induction batch as [|e batch IH]; [done|]. rewrite ndjson_cons, !length_app. simpl. rewrite <- IH. unfold ssize.
  rewrite length_chars. lia.
Qed.

Lemma eager_forget d b k : Eager d b k -> Eager d b (forget k).
Proof using.
  intros (Hr & Hh & Hs). split; [|done].
  destruct Hr as [[Hl (st & H1 & H2 & H3 & _)]|(o & (Hl & H1 & H2 & _) & Ho)].
  - left. split; [done|]. exists st. repeat split; try done; by apply Forall_true.
  - right. exists o. split; [|done]. repeat split; try done; try apply Hl; by apply Forall_true.
Qed.

#[export] Instance file_works : SinkWorks FileSink.
Proof using Hlib Hbase.
  refine {| keen := file_keen |}.
  - intros l batch n k Hn (HE & Hc & _ & Hlen). pose proof (batch_bytes_nonneg batch) as Hbb. simpl.
    apply eager_forget in HE. set (k0 := forget k) in *.
    pose proof (file_write_goes Hlib (durable_sync_ k) (base ++ ndjson l) batch k0 ltac:(lia) Hc HE eq_refl) as [Hok He].
    pose proof (write_ok lib Hlib (fun _ => True) (fun _ => True) (base ++ ndjson l) batch k0 ltac:(done) ltac:(done) ltac:(done) ltac:(lia) (proj1 HE)) as Hw.
    pose proof (same_write (cancelled_ k) batch k0 eq_refl) as Hsc.
    destruct (write lib batch k0) as [r k']. simpl in Hok, He, Hsc. subst r. split; [by eexists|].
    destruct Hw as [(_ & Hcl & _)|[? _]]; [|done]. destruct He as (Hh & _ & Hs).
    assert (durable_sync_ k' = durable_sync_ k) as Hd by (by destruct Hcl as [[_ ?] _]).
    rewrite <- app_assoc, <- ndjson_app in Hcl. split; [|split; [congruence|split; [done|]]].
    + rewrite Hd. split; [by left|done].
    + rewrite ndjson_app, app_assoc, length_app, Nat2Z.inj_add, ndjson_bytes. lia.
  - intros l n k (HE & Hc & Hn & Hlen). simpl. apply eager_forget in HE. set (k0 := forget k) in *.
    destruct HE as (Hr & Hh & Hs).
    assert (ok (failure_ k0) = true) as Hf by (by destruct Hr as [[[? _] _]|(o & [[? _] _] & _)]).
    pose proof (easy_flush_now k0 Hf Hh Hs) as Hok. pose proof (flush_now_ok lib (fun _ => True) (durable_sync_ k) (base ++ ndjson l) k0 Hr) as Hr'.
    pose proof (same_flush_now (cancelled_ k) k0 eq_refl) as Hsc.
    destruct (flush_now lib k0) as [r k']. destruct Hok as (-> & Hh' & Hs'). simpl in Hr', Hsc. split; [by eexists|].
    assert (durable_sync_ k' = durable_sync_ k) as Hd by (by destruct Hr' as [[[_ ?] _]|(o & [[_ ?] _] & _)]).
    split; [rewrite Hd; by split|]. split; [congruence|done].
Defined.

End Works.

End Sure.

(** * A flush reaches the file *)

Section EndToEnd.
Context {S : Type} `{!StoreOps S} `{!StoreLaws S} `{!StoreWorks S}.
Context (dump : json -> library_call string) (lib : StdioLib) (Hlib : Dependable lib).
Context (base : list Ascii.ascii) (Hbase : complete base).
#[local] Instance the_sink : SinkOps FileSink := file_sink_ops lib.
#[local] Instance the_sink_works : SinkWorks FileSink := file_works lib Hlib base Hbase.

Lemma keen_lines l n k : file_keen base l n k -> complete (base ++ ndjson l) -> file_lines k = base ++ ndjson l.
Proof using.
  intros [[Hr _] _] Hc. destruct Hr as [[_ (st & _ & _ & Hp & _)]|(o & (_ & _ & Hp & _) & Ho & _)];
    unfold file_lines, os_bytes; rewrite Hp; [|done]. exact Hc.
Qed.

(** C18: A flush reaches the file. When a client over a FileSink has its consent, its
    store works, no call to stdio fails and no other thread interferes, flush()
    answers Ok, and the file then shows the lines it had before followed by
    exactly one line for every event that was stored or waiting, in the order of
    their ordinals; nothing is left to deliver. *)
Theorem flush_reaches_file n fuel (s : Sys S FileSink) :
  Able dump s -> (length (outstanding_rows dump s) < n)%nat -> (length (outstanding_rows dump s) < fuel)%nat ->
  let '(answer, s') := flush false (let* _ := iteration dump n fuel (flush_done_ (core s)) in mreturn tt) s in
  answer = status_ok /\ rows (store (pipe s')) = [] /\ waits s' = [] /\
  exists sorted, sorted ≡ₚ outstanding_rows dump s /\ StronglySorted row_le sorted /\
    file_lines (sink (pipe s')) = file_lines (sink (pipe s)) ++ ndjson (events_of sorted).
Proof using.
  intros Hs Hn Hf. pose proof (flush_delivered dump n fuel s Hs Hn Hf) as Hd.
  destruct (flush false _ s) as [answer s']. destruct Hd as (Ha & Hr & Hw & ws & _ & (sorted & Hp & Hss & He & _) & Hk).
  repeat (split; [done|]). exists sorted. split; [done|]. split; [done|].
  pose proof (able_sink _ _ Hs) as Hk0. rewrite He in Hk.
  rewrite (keen_lines _ _ _ Hk), (keen_lines _ _ _ Hk0) by auto with playertrace. by rewrite app_nil_r.
Qed.

End EndToEnd.

(** * Witnesses *)

#[local] Existing Instance RefDb.api.
#[local] Existing Instance RefDb.spec.
#[local] Existing Instance RefDb.reliable.
#[local] Existing Instance sample_ops.
#[local] Existing Instance sample_laws.
#[local] Existing Instance sample_works.

(** The line that is in the file before the client writes to it. *)
Definition old_line : list Ascii.ascii := chars "old" ++ [newline].

Lemma old_line_complete : complete old_line.
Proof. apply complete_line. Qed.

#[local] Instance plain_sink : SinkOps FileSink := file_sink_ops plain_lib.
#[local] Instance plain_works : SinkWorks FileSink := file_works plain_lib plain_dependable old_line old_line_complete.

Lemma torn_keen : file_keen old_line [] (batch_bytes (events_of busy_rows)) (torn_sink []).
Proof.
  split; [|split; [reflexivity|vm_compute; split; [discriminate|reflexivity]]].
  split; [|split; [reflexivity|split; [constructor|reflexivity]]].
  right. exists (present (torn_file [])). split; [|split; [vm_compute; reflexivity|vm_compute; reflexivity]].
  split; [split; reflexivity|]. split; [reflexivity|]. split; [reflexivity|]. split; constructor.
Qed.

(** A file that ends in a torn line, a stored row and two waiting events. *)
Lemma flush_reaches_file_witness :
  let s' := snd (flush false (let* _ := iteration sample_dump 10 10 0 in mreturn tt) (busy (torn_sink []))) in
  waits s' = [] /\
  exists sorted, sorted ≡ₚ busy_rows /\ file_lines (sink (pipe s')) = old_line ++ ndjson (events_of sorted).
Proof.
  pose proof (flush_reaches_file sample_dump plain_lib plain_dependable old_line old_line_complete 10 10 (busy (torn_sink []))
    (busy_able (torn_sink []) torn_keen)) as Hf. rewrite busy_rows_eq in Hf.
  specialize (Hf ltac:(vm_compute; lia) ltac:(vm_compute; lia)).
  assert (flush_done_ (core (busy (torn_sink []))) = 0) as E by (vm_compute; reflexivity). rewrite E in Hf.
  assert (file_lines (sink (pipe (busy (torn_sink [])))) = old_line) as Ew by (vm_compute; reflexivity). rewrite Ew in Hf.
  rewrite (surjective_pairing (flush false _ (busy (torn_sink [])))) in Hf.
  destruct Hf as (_ & _ & Hw & sorted & Hp & _ & Hl). split; [exact Hw|]. exists sorted. split; [exact Hp|exact Hl].
Defined.
