(* ===== verification/ClientSpec.v ===== *)
(** The client's operations meet their contracts: admission, sessions, consent,
    recovery, configuration and shutdown (src/client.cpp). *)
From S2P Require Import Prelude Types Serializer Validator Queue Ids Session SqlText Sqlite Store StoreSpec StoreIface Paths Pipeline Admission Worker Client AdmissionSpec.

Local Open Scope Z_scope.
Local Open Scope pt_scope.

(** * Configuration *)

(** The documented limits of a configuration. *)
Record config_ok (c : Config) : Prop := {
  cok_app_id : cfg_app_id c <> "" /\ ssize (cfg_app_id c) <= 64;
  cok_app_chars : forall ch, ch ∈ chars (cfg_app_id c) -> app_id_char ch = true;
  cok_path : cfg_storage_path c <> "";
  cok_counts : Forall (fun z => 1 <= z <= kMaxConfigCount)
    [cfg_max_queue_size c; cfg_batch_size c; cfg_max_pending_events c;
     cfg_max_name_length c; cfg_max_string_length c; cfg_max_player_id_length c];
  cok_properties : cfg_max_properties c <= kMaxConfigCount;
  cok_interval : 0 < cfg_batch_interval c;
  cok_batch : cfg_batch_size c <= cfg_max_queue_size c
}.

(** The counts are [std::size_t]. *)
Definition config_unsigned (c : Config) : Prop :=
  Forall (fun z => 0 <= z)
    [cfg_max_queue_size c; cfg_batch_size c; cfg_max_pending_events c; cfg_max_properties c;
     cfg_max_name_length c; cfg_max_string_length c; cfg_max_player_id_length c].

(** One check of the chain. *)
Lemma ok_check (b : bool) msg r : ok (if b then invalid_config msg else r) = true <-> b = false /\ ok r = true.
Proof. destruct b; [|tauto]. split; [done|]. by intros [? _]. Qed.

Lemma code_check (b : bool) msg r :
  code r = Ok \/ code r = InvalidConfig ->
  code (if b then invalid_config msg else r) = Ok \/ code (if b then invalid_config msg else r) = InvalidConfig.
Proof. destruct b; [by right|done]. Qed.

(** [validate_config] accepts exactly the configurations within the
    documented limits, and refuses every other one with InvalidConfig. *)
Theorem validate_config_correct c :
  config_unsigned c ->
  (ok (validate_config c) = true <-> config_ok c) /\
  (ok (validate_config c) = false -> code (validate_config c) = InvalidConfig).
Proof.
  intros Hu. unfold config_unsigned in Hu. rewrite !Forall_cons in Hu.
  destruct Hu as (U1 & U2 & U3 & U4 & U5 & U6 & U7 & _). split.
  - unfold validate_config. rewrite !ok_check. cbn [existsb].
    rewrite !orb_false_iff, !bool_decide_eq_false, !Z.eqb_neq, !Z.ltb_ge, !Z.leb_gt, negb_false_iff, forallb_forall.
    split.
    + intros (A1 & A2 & A3 & P & Q1 & Q2 & Q3 & Q4 & Q5 & Q6 & I & (M1 & M2 & M3 & M4 & M5 & M6 & M7 & _) & B & _).
      constructor; [done| |done| |done|done|done].
      * intros ch Hch. by apply A3, list_elem_of_In.
      * rewrite !Forall_cons. repeat split; try lia. constructor.
    + intros [[A1 A2] A3 P C M I B]. rewrite !Forall_cons in C. destruct C as (C1 & C2 & C3 & C4 & C5 & C6 & _).
      repeat split; try done; try lia. intros ch Hch. by apply A3, list_elem_of_In.
  - intros Hno. assert (code (validate_config c) = Ok \/ code (validate_config c) = InvalidConfig) as [E|E]; [|by apply ok_false in Hno|done].
    unfold validate_config. do 13 (apply code_check). by left.
Qed.

Lemma validate_config_correct_witness :
  config_ok (mkConfig "game" "db" Granted true 100 10 1000 1000 64 64 1024 128 false false None).
Proof.
  apply validate_config_correct; [|reflexivity]. repeat constructor; discriminate.
Defined.

Section ClientSpec.
Context {S K : Type} `{!StoreOps S} `{!SinkOps K}.
#[local] Abbreviation Sy := (Sys S K).

(** * Admission *)

(** The conditions of admission. *)
Definition admissible (s : Sy) : Prop :=
  terminated (pipe s) = false /\ lifecycle_ (impl s) = Running /\ consent (pipe s) = Granted /\
  active_ (session_ (impl s)) = true /\ outstanding (pipe s) < max_pending_events_ (impl s) /\
  queue_size (queue (pipe s)) < capacity_ (queue (pipe s)).

(** The durable cap and the queue's capacity are respected. *)
Definition within_limits (s : Sy) : Prop :=
  0 <= outstanding (pipe s) <= max_pending_events_ (impl s) /\
  max_pending_events_ (impl s) < 18446744073709551616 /\ queue_wf (queue (pipe s)).

Lemma terminal_of_ok (s : Sy) : ok (terminal_of s) = true <-> terminated (pipe s) = false.
Proof.
  unfold terminal_of. destruct (terminated (pipe s)); simpl; [|done].
  destruct (ok (terminal_status_ (core s))) eqn:E; simpl; [done|]. rewrite E. done.
Qed.

Lemma refusal_none (s : Sy) : refusal s = None <-> admissible s.
Proof.
  unfold refusal, admissible. destruct (ok (terminal_of s)) eqn:Ht; simpl.
  2:{ split; [done|]. intros [Hx _]. apply terminal_of_ok in Hx. congruence. }
  apply terminal_of_ok in Ht. destruct (bool_decide_reflect (lifecycle_ (impl s) = Running)); simpl; [|naive_solver].
  destruct (bool_decide_reflect (consent (pipe s) = Granted)); simpl; [|naive_solver].
  destruct (active_ (session_ (impl s))); simpl; [|naive_solver].
  destruct (Z.leb_spec (max_pending_events_ (impl s)) (outstanding (pipe s))).
  { split; [done|]. intros (_ & _ & _ & _ & ? & _). lia. }
  unfold queue_full. destruct (Z.leb_spec (capacity_ (queue (pipe s))) (queue_size (queue (pipe s)))).
  - split; [done|]. intros (_ & _ & _ & _ & _ & ?). lia.
  - by intuition.
Qed.

(** What admission leaves alone when it refuses. *)
Definition unchanged (s s' : Sy) : Prop :=
  admitted s' = admitted s /\ queue (pipe s') = queue (pipe s) /\ outstanding (pipe s') = outstanding (pipe s) /\
  impl s' = impl s /\ store (pipe s') = store (pipe s) /\ consent (pipe s') = consent (pipe s).

(** C19: Admission is exact. An event is accepted if and only if the worker is
    alive, the client is running, consent is granted, a session is active, the
    durable cap leaves room and the queue is not full. An accepted event is
    appended once, with the next ordinal, the current consent generation and
    the session's next sequence number, and is counted; a refused one changes
    counters only. The durable cap and the queue capacity are never exceeded. *)
Theorem admission_exact name props (s : Sy) :
  within_limits s ->
  let '(st, s') := admit_locked name props s in
  within_limits s' /\ (ok st = true <-> admissible s) /\ (ok st = false -> unchanged s s') /\
  (ok st = true -> exists qe,
     admitted s' = admitted s ++ [qe] /\ queue_ (queue (pipe s')) = queue_ (queue (pipe s)) ++ [qe] /\
     qe_ordinal qe = wrap64 (ordinal_ (impl s) + 1) /\ ordinal_ (impl s') = qe_ordinal qe /\
     qe_consent_generation qe = consent_generation (pipe s) /\
     Types.name (qe_event qe) = name /\ properties (qe_event qe) = props /\
     sequence (qe_event qe) = sequence_ (session_ (impl s)) /\
     sequence_ (session_ (impl s')) = wrap64 (sequence_ (session_ (impl s)) + 1) /\
     outstanding (pipe s') = outstanding (pipe s) + 1 /\
     accepted (stats (pipe s')) = wrap64 (accepted (stats (pipe s)) + 1)).
Proof.
  intros (Ho & Hm & Hq). destruct (refusal s) as [[st f]|] eqn:Hr.
  - destruct (admit_refused name props s st f Hr) as [-> Hno].
    split; [done|]. split; [|by rewrite Hno].
    rewrite Hno. split; [done|]. rewrite <- refusal_none. congruence.
  - rewrite (admit_accepted name props s Hr). pose proof (proj1 (refusal_none s) Hr) as (H1 & H2 & H3 & H4 & H5 & H6).
    assert (wrap64 (outstanding (pipe s) + 1) = outstanding (pipe s) + 1) as Hw by (apply wrap64_small; lia).
    split; [|split; [|split; [done|]]].
    + split; [simpl; rewrite Hw; lia|]. split; [done|]. destruct Hq as [Hc Hsz]. split; [done|].
      unfold queue_size in *. simpl. rewrite vsize_app, vsize_cons, vsize_nil. lia.
    + split; [|done]. intros _. by apply refusal_none.
    + intros _. exists (new_event name props s). repeat split; [|done].
      simpl. unfold session_next. by rewrite H4.
Qed.

(** * Sessions *)

Lemma read_clock_run (s : Sy) : exists now c, read_clock s = (now, on_impl (set_clock_ c) s).
Proof.
  assert (s = on_impl (set_clock_ (clock_ (impl s))) s) as Hs by (by destruct s as [? ? [] ? ? ? ?]).
  unfold read_clock. destruct (clock_ (impl s)) as [|now [|now' rest]]; [exists 0, []|exists now, [now]|].
  - by rewrite <- Hs.
  - by rewrite <- Hs.
  - by exists now, (now' :: rest).
Qed.

(** Enough room for [n] more events, which admission will not refuse. *)
Definition room_for (n : Z) (s : Sy) : Prop :=
  terminated (pipe s) = false /\ lifecycle_ (impl s) = Running /\ consent (pipe s) = Granted /\
  active_ (session_ (impl s)) = true /\ outstanding (pipe s) + n <= max_pending_events_ (impl s) /\
  queue_size (queue (pipe s)) + n <= capacity_ (queue (pipe s)) /\
  0 <= outstanding (pipe s) /\ max_pending_events_ (impl s) < 18446744073709551616.

(** One event of a reservation: it is admitted, and one less is reserved. *)
Lemma admit_reserved name props n (s : Sy) :
  0 < n -> room_for n s ->
  exists s', admit_locked name props s = (status_ok, s') /\ room_for (n - 1) s' /\
    admitted s' = admitted s ++ [new_event name props s] /\
    session_ (impl s') = snd (session_next (session_ (impl s))) /\ ordinal_ (impl s') = wrap64 (ordinal_ (impl s) + 1).
Proof.
  intros Hn (H1 & H2 & H3 & H4 & H5 & H6 & H7 & H8).
  assert (refusal s = None) as Hr by (apply refusal_none; repeat split; try done; lia).
  exists (after_admit (new_event name props s) s). split; [by apply admit_accepted|]. split; [|done].
  unfold room_for, after_admit, session_next, queue_size in *. simpl. rewrite H4. simpl.
  rewrite wrap64_small, vsize_app, vsize_cons, vsize_nil by lia. repeat split; try done; lia.
Qed.

(** The room is not affected by the clock or by the session that replaces an
    active one. *)
Lemma room_for_clock n c (s : Sy) : room_for n s -> room_for n (on_impl (set_clock_ c) s).
Proof. done. Qed.

(** Ending a session for which room is reserved. *)
Lemma end_session_reserved n (s : Sy) :
  0 < n -> room_for n s ->
  exists s' e, end_session_locked s = (status_ok, s') /\ admitted s' = admitted s ++ [e] /\
    Types.name (qe_event e) = "session_end" /\ session_id (qe_event e) = session_id_ (session_ (impl s)) /\
    qe_ordinal e = wrap64 (ordinal_ (impl s) + 1) /\ ordinal_ (impl s') = qe_ordinal e /\
    (forall se, active_ se = true -> room_for (n - 1) (on_impl (set_session_ se) s')).
Proof.
  intros Hn Hroom. pose proof Hroom as (_ & _ & _ & Ha & _).
  unfold end_session_locked. rewrite mget_then, Ha. unfold mthen at 1.
  destruct (read_clock_run s) as (now & c & ->). set (s1 := on_impl (set_clock_ c) s).
  rewrite mget_then. unfold peek_duration. change (session_ (impl s1)) with (session_ (impl s)). rewrite Ha. cbn [negb].
  unfold mthen at 1.
  destruct (admit_reserved "session_end" [("session_seconds", PVDouble (seconds_of (now - started_ms_ (session_ (impl s)))))]
    n s1 Hn (room_for_clock n c s Hroom)) as (s2 & -> & (R1 & R2 & R3 & R4 & R5 & R6 & R7 & R8) & Hadm & Hse & Hord).
  cbn [ok bool_decide negb]. simpl ok. cbn [negb].
  eexists _, _. split; [reflexivity|]. split; [exact Hadm|]. repeat split; try done.
Qed.

(** A reservation that succeeds gives the room. *)
Lemma reserve_cases n (s : Sy) :
  within_limits s -> max_pending_events_ (impl s) <= kMaxConfigCount -> 0 <= n <= 2 ->
  let '(st, s') := reserve_locked n s in
  (ok st = true -> s' = s /\ outstanding (pipe s) + n <= max_pending_events_ (impl s) /\
     queue_size (queue (pipe s)) + n <= capacity_ (queue (pipe s))) /\
  (ok st = false -> unchanged s s').
Proof.
  unfold kMaxConfigCount. intros (Ho & Hm & Hq) Hk Hn. unfold reserve_locked. rewrite !mget_then.
  rewrite wrap64_small by lia.
  destruct (Z.ltb_spec (max_pending_events_ (impl s)) (outstanding (pipe s) + n)); [done|].
  rewrite mget_then. destruct (has_room_for (queue (pipe s)) n) eqn:Hr; simpl; [|done].
  apply has_room_for_iff in Hr; [|done]. split; [|done]. done.
Qed.


End ClientSpec.

(** * Consent *)

Section Consent.
Context {S K : Type} `{!StoreOps S} `{!StoreLaws S} `{!SinkOps K}.
#[local] Abbreviation Sy := (Sys S K).

(** What the store sections of a purge leave alone. *)
Definition calm (s s' : Sy) : Prop :=
  impl s' = impl s /\ core s' = core s /\ consent (pipe s') = consent (pipe s) /\
  consent_generation (pipe s') = consent_generation (pipe s) /\ queue (pipe s') = queue (pipe s) /\
  admitted s' = admitted s.

Lemma purge_mark_calm (s : Sy) :
  sound (store (pipe s)) ->
  let '(st, s') := purge_mark s in
  calm s s' /\ sound (store (pipe s')) /\ rows (store (pipe s')) = rows (store (pipe s)) /\
  (ok st = true -> marked (store (pipe s')) = true).
Proof.
  intros Hs. pose proof (law_mark (store (pipe s)) Hs) as Hl. unfold purge_mark, mthen, with_store.
  destruct (store_mark_revocation_pending (store (pipe s))) as [st st']. destruct Hl as (Hs' & Hr & Hm).
  destruct (ok st); simpl; [done|].
  unfold report_error, log, mput, on_pipe, set_pipe. simpl.
  destruct (cfg_error_callback _); simpl; destruct (cfg_log_callback _); simpl; done.
Qed.

Lemma purge_delete_calm (s : Sy) :
  sound (store (pipe s)) ->
  let '(st, s') := purge_delete s in
  calm s s' /\ sound (store (pipe s')) /\
  (if ok st then rows (store (pipe s')) = [] /\ marked (store (pipe s')) = false
   else rows (store (pipe s')) = rows (store (pipe s)) /\ marked (store (pipe s')) = marked (store (pipe s))).
Proof.
  intros Hs. pose proof (law_purge (store (pipe s)) Hs) as Hl. unfold purge_delete, mthen, with_store.
  destruct (store_purge_and_clear_revocation (store (pipe s))) as [[st n] st']. destruct Hl as (Hs' & Hr).
  destruct (ok st); simpl; [done|].
  unfold report_error, log, mput, on_pipe, set_pipe. simpl.
  destruct (cfg_error_callback _); simpl; destruct (cfg_log_callback _); simpl; done.
Qed.

(** [Client::Impl::run_purge]: on success nothing is stored and nothing is
    owed; on failure what was owed stays owed, and once the marker is durable
    it stays until a purge succeeds. *)
Lemma run_purge_spec (s : Sy) :
  sound (store (pipe s)) ->
  let '(st, s') := run_purge s in
  sound (store (pipe s')) /\ core s' = core s /\ consent (pipe s') = consent (pipe s) /\
  consent_generation (pipe s') = consent_generation (pipe s) /\ queue (pipe s') = queue (pipe s) /\
  session_ (impl s') = session_ (impl s) /\ admitted s' = admitted s /\
  (if ok st
   then rows (store (pipe s')) = [] /\ marked (store (pipe s')) = false /\
        purge_required_ (impl s') = false /\ outstanding (pipe s') = 0
   else rows (store (pipe s')) = rows (store (pipe s)) /\ purge_required_ (impl s') = purge_required_ (impl s)).
Proof.
  intros Hs. unfold run_purge, mthen. pose proof (purge_mark_calm s Hs) as Hm.
  destruct (purge_mark s) as [st1 s1]. destruct Hm as ((I1 & C1 & N1 & G1 & Q1 & A1) & Hs1 & Hr1 & Hmk).
  destruct (ok st1) eqn:Hok1; simpl.
  2:{ rewrite Hok1, I1. by repeat split. }
  pose proof (purge_delete_calm s1 Hs1) as Hd. destruct (purge_delete s1) as [st2 s2].
  destruct Hd as ((I2 & C2 & N2 & G2 & Q2 & A2) & Hs2 & Hr2).
  destruct (ok st2) eqn:Hok2; simpl.
  - destruct Hr2 as [Hr2 Hm2]. rewrite I2, I1. repeat split; congruence.
  - rewrite Hok2, I2, I1. destruct Hr2 as [Hr2 _]. repeat split; congruence.
Qed.

(** C21: Consent fails closed. Revoking consent closes admission at once
    (consent is the new state, the generation advances, the queue, the retry
    buffer and the session are cleared); it answers Ok only when nothing is
    stored and no purge is owed, and otherwise records that the purge is owed.
    Granting consent while a purge is owed first carries it out; if that fails,
    consent stays what it was and the purge stays owed. *)
Theorem consent_fails_closed state (s : Sy) :
  sound (store (pipe s)) ->
  let '(st, s') := set_consent state s in
  sound (store (pipe s')) /\
  (state <> Granted ->
     consent (pipe s') = state /\ consent_generation (pipe s') = wrap64 (consent_generation (pipe s) + 1) /\
     queue_ (queue (pipe s')) = [] /\ retry_ (core s') = [] /\ active_ (session_ (impl s')) = false /\
     (ok st = true -> rows (store (pipe s')) = [] /\ purge_required_ (impl s') = false /\ outstanding (pipe s') = 0) /\
     (ok st = false -> purge_required_ (impl s') = true)) /\
  (state = Granted ->
     (ok st = true -> consent (pipe s') = Granted /\ purge_required_ (impl s') = false /\
        (purge_required_ (impl s) = true -> rows (store (pipe s')) = [])) /\
     (ok st = false -> consent (pipe s') = consent (pipe s) /\ purge_required_ (impl s') = true)).
Proof.
  intros Hs. unfold set_consent, set_consent_locked. destruct (bool_decide_reflect (state = Granted)) as [->|Hne].
  - rewrite mget_then. unfold mthen at 1. destruct (purge_required_ (impl s)) eqn:Ho.
    + pose proof (run_purge_spec s Hs) as Hp. destruct (run_purge s) as [st s1].
      destruct Hp as (Hs1 & _ & Hc & _ & _ & _ & _ & Hr). destruct (ok st); simpl.
      * destruct Hr as (? & _ & ? & _). done.
      * destruct Hr as (_ & Hr). rewrite Ho in Hr. by repeat split.
    + simpl. by repeat split.
  - unfold mthen at 1. destruct (revoke_effect state s) as (E1 & E2 & E3 & E4 & E5 & E6 & E7).
    assert (active_ (session_ (impl (snd (revoke_section state s)))) = false) as Hact.
    { unfold revoke_section, discard_in_flight, mthen, with_queue, queue_clear, mget, mput. simpl.
      by repeat (rewrite !give_back_run; simpl). }
    destruct (revoke_section state s) as [u s1]. cbn [snd] in *.
    assert (sound (store (pipe s1))) as Hs1 by (by rewrite E1).
    pose proof (run_purge_spec s1 Hs1) as Hp. destruct (run_purge s1) as [st s2].
    destruct Hp as (Hs2 & Hco & Hc & Hg & Hq & Hse & _ & Hr). split; [done|]. split; [|done]. intros _.
    rewrite Hc, Hg, Hq, Hse, Hco. do 5 (split; [done|]). split.
    + intros Hok. rewrite Hok in Hr. destruct Hr as (? & _ & ? & ?). done.
    + intros Hok. rewrite Hok in Hr. destruct Hr as [_ ->]. done.
Qed.

(** ** The call and its steps *)

(** The purge of [set_consent] as steps of another thread, from its first point. *)
Lemma purge_steps grant s :
  consent_pc (impl s) = CMark grant ->
  let '(st, s1) := run_purge (snd (goto CIdle s)) in
  snd (perform_all perform (replicate 3 ActConsentStep) s) =
  snd (goto (if ok st && grant then CGrant else CIdle) s1).
Proof.
  intros Hpc. destruct s as [p [c1 c2 c3 c4 c5 c6 c7 c8 c9 c10] [i1 i2 i3 i4 i5 i6 i7 i8 pc] sc ad wr la]. simpl in Hpc. subst pc.
  unfold run_purge, purge_mark, purge_delete, mthen, with_store. simpl. unfold consent_step, mthen, mget, mput, goto. simpl.
  unfold purge_mark, mthen, with_store. simpl. destruct (store_mark_revocation_pending (store p)) as [st1 x1].
  destruct (ok st1) eqn:H1; simpl; [|done]. unfold purge_delete, mthen, with_store. simpl.
  destruct (store_purge_and_clear_revocation x1) as [[st2 n] x2]. destruct (ok st2) eqn:H2; simpl; [|done].
  by destruct grant.
Qed.

Lemma goto_same (s : Sy) pc : consent_pc (impl s) = pc -> snd (goto pc s) = s.
Proof. intros <-. by destruct s as [? ? [] ? ? ? ?]. Qed.

Lemma goto_idle pc (s : Sy) : consent_pc (impl s) = CIdle -> snd (goto CIdle (snd (goto pc s))) = s.
Proof. intros Hpc. by apply (goto_same s CIdle). Qed.

Lemma run_purge_pc (s : Sy) : consent_pc (impl (snd (run_purge s))) = consent_pc (impl s).
Proof.
  unfold run_purge, purge_mark, purge_delete, mthen, with_store. destruct (store_mark_revocation_pending _) as [st1 x1].
  destruct (ok st1) eqn:H1; simpl; [|done]. destruct (store_purge_and_clear_revocation x1) as [[st2 n] x2].
  by destruct (ok st2) eqn:H2.
Qed.

(** Giving back reservations is an update of the pipeline alone. *)
Lemma give_back_on : exists g, forall n (s : Sy), give_back n s = (tt, on_pipe (g n) s).
Proof. eexists. intros n s. apply give_back_run. Qed.

(** Its first section, one access to shared state at a time. *)
Lemma revoke_steps c s :
  consent_pc (impl s) = CIdle -> c <> Granted ->
  snd (perform_all perform (ActSetConsent c :: replicate 6 ActConsentStep) s) =
  snd (goto (CMark false) (snd (revoke_section c s))).
Proof.
  intros Hpc Hc. destruct give_back_on as [g Hg].
  destruct s as [p [c1 c2 c3 c4 c5 c6 c7 c8 c9 c10] [i1 i2 i3 i4 i5 i6 i7 i8 pc] sc ad wr la].
  simpl in Hpc. subst pc. simpl. unfold consent_enter, mthen, mget. simpl. rewrite bool_decide_false by done.
  unfold revoke_section, discard_in_flight, mthen, mget, mput. simpl. repeat (rewrite !Hg; simpl).
  repeat match goal with |- context [consent_step ?s] =>
    eassert (consent_step s = (tt, _)) as ->
      by (unfold consent_step, mthen, mget; simpl; rewrite ?Hg; simpl; reflexivity); simpl end.
  done.
Qed.

Lemma perform_all_app (step : Act -> M Sy unit) l1 l2 s :
  snd (perform_all step (l1 ++ l2) s) = snd (perform_all step l2 (snd (perform_all step l1 s))).
Proof.
  revert s. induction l1 as [|a l1 IH]; intros s; [done|]. simpl. unfold mthen. destruct (step a s) as [u s1]. apply IH.
Qed.

(** No call of set_consent is in progress: further steps of one do nothing. *)
Lemma idle_steps n (s : Sy) :
  consent_pc (impl s) = CIdle -> snd (perform_all perform (replicate n ActConsentStep) s) = s.
Proof.
  intros Hpc. induction n as [|n IH]; [done|]. simpl. unfold mthen, consent_step at 1. rewrite mget_then, Hpc. exact IH.
Qed.

Lemma grant_steps n (s : Sy) :
  consent_pc (impl s) = CIdle ->
  snd (perform_all perform (ActConsentStep :: replicate n ActConsentStep) (snd (goto CGrant s))) = snd (grant_section s).
Proof.
  intros Hpc. change (ActConsentStep :: replicate n ActConsentStep) with ([ActConsentStep] ++ replicate n ActConsentStep).
  rewrite perform_all_app, idle_steps by done. destruct s as [? ? [] ? ? ? ?]. simpl in Hpc. by subst.
Qed.


(** * Recovery *)

(** The purge before opening. *)
Lemma recover_purge (purging : bool) (st : S) :
  sound st ->
  let '(o, st') := (if purging then let* (p, _) := store_purge_and_clear_revocation in mreturn p
                    else mreturn status_ok) st in
  sound st' /\ (rows st' = rows st \/ rows st' = []) /\
  (ok o = true -> rows st' = (if purging then [] else rows st) /\
                  marked st' = (if purging then false else marked st)).
Proof.
  intros Hs. destruct purging; [|unfold mreturn; by auto]. unfold mthen. pose proof (law_purge st Hs) as Hl.
  destruct (store_purge_and_clear_revocation st) as [[p k] st']. destruct Hl as [Hs' Hl].
  unfold mreturn. split; [done|]. destruct (ok p); [destruct Hl; auto|]. destruct Hl as [Hr _]. split; [by left|done].
Qed.

(** [ClientInternal::create] up to the construction of the client. *)
Lemma recover_spec initial (st : S) :
  sound st ->
  let '(r, st') := recover initial st in
  match r with
  | inl e => ok e = false /\ (rows st' = rows st \/ rows st' = [])
  | inr (n, highest) =>
      sound st' /\ marked st' = false /\
      rows st' = (if marked st || negb (bool_decide (initial = Granted)) then [] else rows st) /\
      n = vsize (rows st') /\ 0 <= highest /\ Forall (fun r => row_ordinal r <= highest) (rows st')
  end.
Proof.
  intros Hs. unfold recover. unfold mthen at 1. pose proof (law_open st Hs) as Hl.
  destruct (store_open st) as [o st1]. destruct Hl as (Hr1 & Hm1 & Hs1).
  destruct (ok o) eqn:Ho; cbn [negb]; [specialize (Hs1 eq_refl)|simpl; by auto]. unfold mthen at 1.
  pose proof (law_revocation_pending st1 Hs1) as Hl. destruct (store_revocation_pending st1) as [[o2 owed] st2].
  destruct Hl as (Hs2 & Hm2 & Hr2 & Hb). destruct (ok o2) eqn:Ho2; cbn [negb]; [|simpl; split; [done|left; congruence]].
  rewrite Hm1 in Hb. specialize (Hb eq_refl). subst owed. unfold mthen at 1.
  set (purging := marked st || negb (bool_decide (initial = Granted))).
  pose proof (recover_purge purging st2 Hs2) as Hp.
  destruct ((if purging then let* (p, _) := store_purge_and_clear_revocation in mreturn p else mreturn status_ok) st2)
    as [o3 st3]. destruct Hp as (Hs3 & Hr3 & Hok3).
  rewrite Hr2, Hr1 in Hr3, Hok3.
  assert (ok o3 = true -> marked st3 = false) as Hclear.
  { intros Hok. destruct (Hok3 Hok) as [_ ->]. destruct purging eqn:Hpg; [done|].
    apply orb_false_iff in Hpg as [? _]. congruence. }
  destruct (ok o3); cbn [negb]; [destruct (Hok3 eq_refl) as [Hr _]; specialize (Hclear eq_refl)|simpl; by auto].
  unfold mthen.
  pose proof (law_count st3 Hs3) as Hl. destruct (store_count st3) as [[o4 n] st4]. destruct Hl as (Hs4 & Hm4 & Hr4 & Hn).
  destruct (ok o4) eqn:Ho4; simpl; [|split; [done|destruct Hr3; [left|right]; congruence]].
  pose proof (law_max_ordinal st4 Hs4) as Hl. destruct (store_max_ordinal st4) as [[o5 h] st5].
  destruct Hl as (Hs5 & Hm5 & Hr5 & Hh).
  destruct (ok o5) eqn:Ho5; simpl; [|split; [done|destruct Hr3; [left|right]; congruence]].
  destruct (Hh eq_refl) as [H0 Hall]. rewrite Hr5, Hr4. split; [done|]. split; [congruence|]. split; [done|].
  split; [congruence|]. split; [done|]. by rewrite Hr4 in Hall.
Qed.

(** C23: Recovery honours an unfinished revocation. When a client is created on
    a store that records an owed purge, or without granted consent, it opens
    only after everything stored has been deleted; otherwise it keeps exactly
    the stored events. What it reports is the number of stored events and an
    ordinal no stored event exceeds, and no purge is left owed. A refusal is an
    error and never loses events other than by that purge. *)
Theorem recovery_honours_revocation initial (st : S) :
  sound st ->
  let '(r, st') := recover initial st in
  match r with
  | inl e => ok e = false /\ (rows st' = rows st \/ rows st' = [])
  | inr (n, highest) =>
      sound st' /\ marked st' = false /\
      rows st' = (if marked st || negb (bool_decide (initial = Granted)) then [] else rows st) /\
      n = vsize (rows st') /\ 0 <= highest /\ Forall (fun r => row_ordinal r <= highest) (rows st')
  end.
Proof. apply recover_spec. Qed.

(** * Creation *)

(** Taking and giving back a path. *)
Lemma acquire_fresh `{FsOps} path kind registry :
  let '((refused, c), registry') := acquire no_claim path kind registry in
  match refused with
  | Some _ => registry' = registry
  | None => snd (release c registry') = registry /\
      (is_in_memory path = true /\ registry' = registry \/
       is_in_memory path = false /\ (normalize path ∉ registry) /\ registry' = ({[normalize path]} ∪ registry))
  end.
Proof.
  unfold acquire, mthen, release. simpl. destruct (is_in_memory path) eqn:Hm; simpl; [by auto|].
  case_bool_decide as Hin; simpl; [done|]. split; [|by right]. set_solver.
Qed.

(** The journal-mode warning changes nothing else. *)
Lemma new_impl_keeps cfg (snk : K) (st : S) rng clock n h :
  let s := new_impl cfg snk st rng clock n h in
  impl s = impl (new_sys cfg snk st rng clock n h) /\ store (pipe s) = st /\
  consent (pipe s) = cfg_consent cfg /\ outstanding (pipe s) = n.
Proof.
  unfold new_impl. match goal with |- context [if ?b then _ else _] => destruct b end; [|done].
  unfold log, mput, on_pipe, set_pipe. simpl. by destruct (cfg_log_callback cfg).
Qed.

(** A client that was created owns its path and knows its store; one that
    was refused leaves no trace. On refusal the status is an error and the
    registry of paths is as before. On success the configuration is valid, the
    path was free and is now claimed (unless it is in memory), the client runs
    with the configured consent, and its count of outstanding events is the
    number of stored events, whose ordinals are all below the next one. *)
Theorem create_owns_path `{FsOps} cfg has_clock (snk file_sink : K) failed (st : S) rng clock registry :
  sound st ->
  let '(r, registry') := create cfg has_clock snk file_sink failed st rng clock registry in
  match r with
  | inl e => ok e = false /\ registry' = registry
  | inr s =>
      ok (validate_config cfg) = true /\
      (is_in_memory (cfg_storage_path cfg) = true /\ registry' = registry \/
       is_in_memory (cfg_storage_path cfg) = false /\ (normalize (cfg_storage_path cfg) ∉ registry) /\
       registry' = ({[normalize (cfg_storage_path cfg)]} ∪ registry)) /\
      lifecycle_ (impl s) = Running /\ consent (pipe s) = cfg_consent cfg /\
      sound (store (pipe s)) /\ outstanding (pipe s) = vsize (rows (store (pipe s))) /\
      Forall (fun r => row_ordinal r <= ordinal_ (impl s)) (rows (store (pipe s))) /\
      (cfg_consent cfg <> Granted -> rows (store (pipe s)) = [])
  end.
Proof.
  intros Hs. unfold create. destruct (ok (validate_config cfg)) eqn:Hcfg; cbn [negb]; [|done].
  destruct has_clock; cbn [negb]; [|done]. unfold mthen at 1.
  pose proof (acquire_fresh (cfg_storage_path cfg) Storage registry) as Hacq.
  destruct (acquire no_claim (cfg_storage_path cfg) Storage registry) as [[refused c] registry1].
  destruct refused as [msg|]; [done|]. destruct Hacq as [Hrel Hreg].
  assert (forall e, ok e = false ->
    let '(r, registry') := (let* _ := release c in mreturn (inl e : Status + Sy)) registry1 in
    match r with inl e => ok e = false /\ registry' = registry | inr _ => False end) as Hback.
  { intros e He. unfold mthen. destruct (release c registry1) as [c' registry2]. by simpl in *. }
  destruct (negb (cfg_sink cfg) && negb (ok failed)) eqn:Hsink.
  { bool_to_prop. specialize (Hback failed H1). unfold mthen in *. by destruct (release c registry1). }
  pose proof (recover_spec (cfg_consent cfg) st Hs) as Hrec.
  destruct (recover (cfg_consent cfg) st) as [[e|[n h]] st'].
  { specialize (Hback e (proj1 Hrec)). unfold mthen in *. by destruct (release c registry1). }
  destruct Hrec as (Hs' & Hm & Hr & Hn & Hh & Hall). split; [done|]. split; [done|].
  assert (cfg_consent cfg <> Granted -> rows st' = []) as Hdenied.
  { intros Hc. rewrite Hr, bool_decide_false, orb_true_r by done. done. }
  set (cfg' := mkConfig _ _ _ _ _ _ _ _ _ _ _ _ _ _ _).
  destruct (new_impl_keeps cfg' (if cfg_sink cfg then snk else file_sink) st' rng clock n h) as (Hi & Hst & Hco & Hou).
  rewrite Hi, Hst, Hco, Hou. by repeat split.
Qed.

End Consent.

(** * Tracking and shutdown *)

Section Calls.
Context {S K : Type} `{!StoreOps S} `{!SinkOps K}.
#[local] Abbreviation Sy := (Sys S K).

(** The loop of [apply_filter] keeps the properties the callback approved. *)
Lemma filter_properties_approved keep props kv :
  kv ∈ filter_properties keep props <-> kv ∈ props /\ keep (fst kv) (snd kv) = Returns true.
Proof.
  induction props as [|[k v] props IH]; simpl.
  - split; [by intros ?%not_elem_of_nil|]. by intros [?%not_elem_of_nil _].
  - assert (forall r, keep k v = r -> r <> Returns true ->
      kv ∈ props /\ keep (fst kv) (snd kv) = Returns true <->
      kv ∈ (k, v) :: props /\ keep (fst kv) (snd kv) = Returns true) as Hdrop.
    { intros r Hk Hr. rewrite elem_of_cons. split; [by intros [? ?]; auto|]. intros [[->|?] Hkeep]; [|done].
      simpl in Hkeep. congruence. }
    destruct (keep k v) as [[]|] eqn:E; [|rewrite IH; by apply (Hdrop (Returns false))|rewrite IH; by apply (Hdrop Throws)].
    rewrite !elem_of_cons, IH. split; [intros [->|[? ?]]; auto|]. intros [[->|?] ?]; auto.
Qed.

(** C29: What track() admits was checked. Whatever other threads do between the
    validation and the critical section: if track() answers Ok then the name
    and the properties passed validation, and exactly one event was admitted,
    with that name, under the consent generation track() started with, whose
    properties are the given ones the property filter approved (a filter that
    throws approves nothing). *)
Theorem tracked_event_checked event_name props (s : Sy) :
  let '(st, s') := track event_name props s in
  ok st = true ->
  ok (validate_name (validator_ (impl s)) event_name) = true /\
  ok (validate_properties (validator_ (impl s)) props) = true /\
  exists qe before, admitted s' = before ++ [qe] /\ before = admitted (snd (env s)) /\
    Types.name (qe_event qe) = event_name /\ qe_consent_generation qe = consent_generation (pipe s) /\
    match cfg_property_filter (config (pipe s)) with
    | None => properties (qe_event qe) = props
    | Some keep => forall kv, kv ∈ properties (qe_event qe) <->
                              kv ∈ props /\ keep (fst kv) (snd kv) = Returns true
    end.
Proof.
  unfold track. rewrite !mget_then.
  destruct (ok (validate_name (validator_ (impl s)) event_name)) eqn:Hn; cbn [negb]; [|by simpl; rewrite Hn].
  destruct (ok (validate_properties (validator_ (impl s)) props)) eqn:Hp; cbn [negb]; [|by simpl; rewrite Hp].
  rewrite mget_then. unfold mthen at 1. destruct (env s) as [u s1]. cbn [snd]. unfold track_section. rewrite mget_then.
  destruct (Z.eqb_spec (consent_generation (pipe s1)) (consent_generation (pipe s))) as [Hg|]; cbn [negb]; [|done].
  destruct (refusal s1) as [[st f]|] eqn:Hr.
  - destruct (admit_refused event_name (apply_filter (cfg_property_filter (config (pipe s))) props) s1 st f Hr) as [-> Hno].
    by rewrite Hno.
  - rewrite (admit_accepted _ _ s1 Hr). intros _. split; [done|]. split; [done|].
    eexists _, _. split; [done|]. split; [done|]. split; [done|]. split; [done|]. simpl.
    destruct (cfg_property_filter (config (pipe s))) as [keep|]; [|done]. intros kv. apply filter_properties_approved.
Qed.

(** C30: shutdown() never claims more than it did. Whatever happens during its
    two waits: when the worker has not finished, it answers Timeout and leaves
    the worker joinable; when it has, the thread is joined, the client is
    Stopped, a terminal failure of the worker is reported, nothing is ever
    admitted again, and a further shutdown() answers Ok and changes nothing. *)
Theorem shutdown_contract (drain_wait exit_wait : M Sy unit) (s : Sy) :
  lifecycle_ (impl s) <> Stopped ->
  let '(st, s') := shutdown false drain_wait exit_wait s in
  (finished_ (core s') = false -> code st = Timeout) /\
  (finished_ (core s') = true ->
     joined_ (core s') = true /\ lifecycle_ (impl s') = Stopped /\
     (ok (terminal_status_ (core s')) = false -> st = terminal_status_ (core s')) /\
     (forall name props, ok (fst (admit_locked name props s')) = false /\
        admitted (snd (admit_locked name props s')) = admitted s') /\
     (forall drain exit, shutdown false drain exit s' = (status_ok, s'))).
Proof.
  intros Hl. unfold shutdown at 1. rewrite mget_then, bool_decide_false by done.
  unfold mthen, set_life, mput, mget. destruct (request_sink_cancel _) as [u1 s1].
  destruct (submit_flush (ordinal_ (impl s1)) s1) as [token s2].
  destruct (drain_wait s2) as [u2 s3]. destruct (wait_flush token s3) as [drained s4]. simpl.
  destruct (exit_wait _) as [u3 s5]. unfold wait_and_join. rewrite mget_then.
  destruct (finished_ (core s5)) eqn:Hfin; simpl; [|by rewrite Hfin]. rewrite Hfin. split; [done|]. intros _.
  split; [done|]. split; [done|]. split; [|split].
  - intros Hno. unfold shutdown_verdict. by rewrite Hno.
  - intros name props. set (s6 := on_impl _ _). destruct (refusal s6) as [[st f]|] eqn:Hr.
    + destruct (admit_refused name props s6 st f Hr) as [-> Hno]. done.
    + apply refusal_none in Hr as (_ & Hrun & _). done.
  - done.
Qed.

End Calls.

(** * Witnesses *)

Section Witnesses.
#[local] Existing Instance RefDb.api.
#[local] Existing Instance RefDb.spec.
#[local] Existing Instance RefDb.reliable.
#[local] Instance demo_ops : StoreOps (SqliteStore RefDb.conn) := sqlite_ops accept_all.
#[local] Instance demo_laws : StoreLaws (SqliteStore RefDb.conn) := sqlite_laws accept_all.
#[local] Instance demo_sink : SinkOps unit := {
  sink_write := fun _ => mreturn (Value status_ok);
  sink_flush := mreturn (Value status_ok);
  sink_request_cancel := mreturn (Value tt)
}.

Definition demo_config : Config :=
  mkConfig "game" "db" Granted true 100 10 1000 1000 64 64 1024 128 false false None.

(** A new client, and the same client in a session. *)
Definition demo_new : Sys (SqliteStore RefDb.conn) unit :=
  new_sys demo_config tt (ref_store empty_db) (mkMt [] 0) [5; 7] 0 0.
Definition demo_playing : Sys (SqliteStore RefDb.conn) unit := snd (start_session_locked "p1" demo_new).

Lemma demo_limits : within_limits demo_playing.
Proof. split; [vm_compute; split; discriminate|]. split; [reflexivity|]. split; vm_compute; discriminate. Qed.

Lemma demo_sound : sound (store (pipe demo_playing)).
Proof. split; [reflexivity|]. constructor. Qed.

Lemma admission_exact_witness :
  ok (fst (admit_locked "jump" [] demo_playing)) = true /\ admissible demo_playing.
Proof.
  assert (ok (fst (admit_locked "jump" [] demo_playing)) = true) as E by (vm_compute; reflexivity).
  split; [exact E|]. pose proof (admission_exact "jump" [] demo_playing demo_limits) as Ha.
  rewrite (surjective_pairing (admit_locked "jump" [] demo_playing)) in Ha.
  destruct Ha as (_ & Hiff & _). apply Hiff. exact E.
Defined.


Lemma consent_fails_closed_witness :
  ok (fst (set_consent Denied demo_playing)) = true /\
  rows (store (pipe (snd (set_consent Denied demo_playing)))) = [].
Proof.
  split; [vm_compute; reflexivity|].
  pose proof (consent_fails_closed Denied demo_playing demo_sound) as Ha.
  rewrite (surjective_pairing (set_consent Denied demo_playing)) in Ha. destruct Ha as (_ & Hd & _).
  destruct (Hd ltac:(discriminate)) as (_ & _ & _ & _ & _ & Hok & _).
  exact (proj1 (Hok ltac:(vm_compute; reflexivity))).
Defined.


(** A store with one row and an owed purge. *)
Definition owed_db : Db :=
  let d := with_schema empty_db in
  mkDb [sample_row] (<[kRevocationKey := "1"]> (db_meta d)) (db_schema d).

Lemma recovery_honours_revocation_witness :
  fst (recover Granted (ref_store owed_db)) = inr (0, 0) /\
  rows (ref_store owed_db) <> [] /\ rows (snd (recover Granted (ref_store owed_db))) = [].
Proof.
  assert (sound (ref_store owed_db)) as Hs by (split; [reflexivity|apply NoDup_singleton]).
  assert (fst (recover Granted (ref_store owed_db)) = inr (0, 0)) as E by (vm_compute; reflexivity).
  split; [exact E|]. split; [discriminate|].
  pose proof (recovery_honours_revocation Granted (ref_store owed_db) Hs) as Ha.
  rewrite (surjective_pairing (recover Granted (ref_store owed_db))), E in Ha.
  destruct Ha as (_ & _ & Hr & _). exact Hr.
Defined.

#[local] Instance demo_fs : FsOps := {
  fs_absolute := fun p => Value (Some p);
  fs_weakly_canonical := fun p => Value (Some p);
  fs_lexically_normal := fun p => Value p
}.

Lemma create_owns_path_witness :
  let '(r, registry') := create demo_config false tt tt status_ok (ref_store empty_db) (mkMt [] 0) [0] {["other"]} in
  match r with inl e => ok e = false /\ registry' = {["other"]} | inr _ => True end.
Proof.
  assert (sound (ref_store empty_db)) as Hs by (split; [reflexivity|constructor]).
  pose proof (create_owns_path demo_config false tt tt status_ok (ref_store empty_db) (mkMt [] 0) [0] {["other"]} Hs) as Ha.
  destruct (create _ _ _ _ _ _ _ _ _) as [[e|s] registry']; [exact Ha|exact I].
Defined.

Lemma tracked_event_checked_witness :
  ok (fst (track "jump" [] demo_playing)) = true /\
  ok (validate_name (validator_ (impl demo_playing)) "jump") = true.
Proof.
  assert (ok (fst (track "jump" [] demo_playing)) = true) as E by (vm_compute; reflexivity).
  split; [exact E|]. pose proof (tracked_event_checked "jump" [] demo_playing) as Ha.
  rewrite (surjective_pairing (track "jump" [] demo_playing)) in Ha. exact (proj1 (Ha E)).
Defined.

Lemma shutdown_contract_witness :
  let r := shutdown false (mreturn tt) (mreturn tt) demo_playing in code (fst r) = Timeout.
Proof.
  intros r. pose proof (shutdown_contract (mreturn tt) (mreturn tt) demo_playing ltac:(vm_compute; discriminate)) as Ha.
  rewrite (surjective_pairing (shutdown false (mreturn tt) (mreturn tt) demo_playing)) in Ha.
  exact (proj1 Ha ltac:(vm_compute; reflexivity)).
Defined.
End Witnesses.
