(* ===== verification/Game.v ===== *)
(** The example program: examples/simulated_game.cpp.

    A game plays one session while its output is unavailable and shuts down;
    after a restart it opens the same database with a FileSink and flushes. The
    program composes nearly every part of the library, so it is written out here
    over the definitions of the other files: create, sessions, tracking, flush,
    shutdown and the destructor, SqliteStore over the reference connection and
    FileSink over a C stream. The worker runs while the program waits for it. *)
From S2P Require Import Prelude Types Serializer Validator Queue Ids Session SqlText Sqlite Store StoreSpec StoreIface Pipeline Admission Worker Paths Stdio FileSink FileSinkSpec FileSinkLog Client AdmissionSpec Invariant WorkerSpec WorkerRun Guarantees Delivery.

Local Open Scope Z_scope.
Local Open Scope pt_scope.

(** * Definitions *)

(** [class FailingSink]; [flush] and [request_cancel] are those of [Sink]. *)
Definition FailingSink : SinkOps unit := {|
  sink_write := fun _ => mreturn (Value (mkStatus SinkError "simulated unavailable output"));
  sink_flush := mreturn (Value status_ok);
  sink_request_cancel := mreturn (Value tt)
|}.

Definition kDbPath : string := "./simulated_game.db".
Definition kOutPath : string := "./simulated_game-events.ndjson".

(** [std::getline] until the end of the file: the lines; a last line without an
    end is one too, unless it is empty. *)
Fixpoint getlines (line : list Ascii.ascii) (c : list Ascii.ascii) : list (list Ascii.ascii) :=
  match c with
  | [] => match line with [] => [] | _ => [line] end
  | b :: c' => if Ascii.eqb b newline then line :: getlines [] c' else getlines (line ++ [b]) c'
  end.

(** [count_lines]: the lines that are not empty. *)
Definition count_lines (c : list Ascii.ascii) : Z :=
  vsize (filter (fun line => line <> []) (getlines [] c)).

(** A decimal literal with one digit after the point. *)
Definition decimal (tenths : Z) : double := double_div (double_of_int tenths) (double_of_int 10).

Section Session.
Context {S K : Type} `{!StoreOps S} `{!SinkOps K}.
#[local] Abbreviation Sy := (Sys S K).

(** [play_session]. *)
Definition play_session : M Sy unit :=
  let* _ := start_session "anonymous-player-42" in
  let* _ := track "level_started" [("level_id", PVString "forest_01"); ("difficulty", PVString "hard")] in
  let* _ := track "player_death"
    [("level_id", PVString "forest_01"); ("cause", PVString "fell_off_ledge");
     ("x", PVDouble (decimal 1285)); ("y", PVDouble (decimal 420))] in
  let* _ := track "currency_transaction"
    [("currency", PVString "gold"); ("delta", PVInt (-50)); ("reason", PVString "revive"); ("balance", PVInt 120)] in
  let* _ := track "level_completed"
    [("level_id", PVString "forest_01"); ("completion_seconds", PVDouble (decimal 1837));
     ("deaths", PVInt 1); ("stars", PVInt 2)] in
  let* _ := track "achievement_unlocked"
    [("achievement_id", PVString "first_forest_clear"); ("hidden", PVBool false)] in
  let* _ := track "photo_mode_used" [("filter", PVString "sepia"); ("shots_taken", PVInt 4)] in
  let* _ := end_session in
  mreturn tt.

Context (dump : json -> library_call string).

(** What the worker does while the program waits: one iteration, and its last
    iteration when it was asked to stop. *)
Definition worker_turn : M Sy unit :=
  let* handled := mget (fun s => flush_done_ (core s)) in
  let* r := iteration dump 20 20 handled in
  match r with
  | Some (true, handled') => run_epilogue handled'
  | _ => mreturn tt
  end.

(** [client->flush(...)], [client->shutdown(...)] and the destructor. *)
Definition game_flush : M Sy Status := flush false worker_turn.
Definition game_shutdown : M Sy Status := shutdown false worker_turn worker_turn.
Definition game_destroy : M Sy unit := destroy worker_turn worker_turn (mreturn tt).

End Session.

(** * The program *)

#[local] Existing Instance RefDb.api.
#[local] Existing Instance RefDb.spec.
#[local] Existing Instance flat_fs.
#[local] Instance game_ops : StoreOps (SqliteStore RefDb.conn) := sqlite_ops accept_all.
#[local] Existing Instance FailingSink.
#[local] Abbreviation Store := (SqliteStore RefDb.conn).

Section Game.
Context (dump : json -> library_call string) (lib : StdioLib).
#[local] Instance game_sink : SinkOps FileSink := file_sink_ops lib.

(** The configuration of both runs; only the first has an error callback. *)
Definition game_config (error_callback : bool) : Config :=
  mkConfig "simulated-game" kDbPath Granted true 10000 100 1000 100000 64 64 1024 128 false error_callback None.

(** The calls of the error callback that counted a sink failure. *)
Definition counts_failure (n : notice) : bool :=
  match n with Reported st => bool_decide (code st = SinkError) | Logged _ _ => false end.
Definition sink_failures (l : list notice) : Z := vsize (filter (fun n => counts_failure n = true) l).

(** The first run: what it returned, the failures it counted, the store it left. *)
Definition run_1 (db : Store) (rng : mt19937_64) (clock : list Z) : M (gset string) (Status + Z * Store) :=
  let* created := create (game_config true) true tt tt status_ok db rng clock in
  match created with
  | inl refused => mreturn (inl refused)
  | inr client =>
      let '(_, s) := (play_session ;; (let* _ := game_flush dump in game_shutdown dump)) client in
      let failures := sink_failures (notices (pipe s)) in
      let '(_, s) := game_destroy dump s in
      let* _ := release (mkClaim (normalize kDbPath) true) in
      mreturn (inr (failures, store (pipe s)))
  end.

(** The second run: the status of the flush, the number of lines in the file and
    the store that is left. *)
Definition run_2 (db : Store) (out : OsFile) (rng : mt19937_64) (clock : list Z)
    : M (gset string) (Status + Status * Z * Store) :=
  let* snk := new_file_sink kOutPath true out in
  let* created := create (game_config false) true snk snk status_ok db rng clock in
  match created with
  | inl refused => mreturn (inl refused)
  | inr client =>
      let '(flushed, s) := game_flush dump client in
      let '(_, s) := game_shutdown dump s in
      let delivered := count_lines (os_bytes (os (sink (pipe s)))) in
      let '(_, s) := game_destroy dump s in
      let* _ := release (mkClaim (normalize kDbPath) true) in
      let* _ := destroy_file_sink lib (sink (pipe s)) in
      mreturn (inr (flushed, delivered, store (pipe s)))
  end.

(** [main]: the exit status, with what the runs printed. The database and the
    output file have been removed; the second run opens the database the first
    one left. *)
Definition main (rng1 rng2 : mt19937_64) (clock1 clock2 : list Z)
    : M (gset string) (Z * option (Z * Status * Z * list Row)) :=
  let* first := run_1 (ref_store empty_db) rng1 clock1 in
  match first with
  | inl _ => mreturn (1, None)
  | inr (failures, db) =>
      let* second := run_2 (ref_store (dur db)) (mkOsFile None [] [] true []) rng2 clock2 in
      match second with
      | inl _ => mreturn (1, None)
      | inr (flushed, delivered, db') =>
          mreturn (if delivered =? 0 then 1 else 0, Some (failures, flushed, delivered, db_events (dur db')))
      end
  end.

End Game.

(** The program does what its comment promises: the first run counts the sink
    failures and stores the eight events of the session, the second one delivers
    exactly these, its flush answers Ok and the store is left empty; [main]
    returns 0 and both paths are free again. *)
Theorem simulated_game_recovers :
  main (fun _ => Value "{}") (mkStdioLib false false) (mt_seed 1) (mt_seed 2) [0; 1000; 2000] [5000] ∅ =
    (0, Some (5, status_ok, 8, []), ∅).
Proof. vm_compute. reflexivity. Qed.
