(* ===== verification/Findings.v ===== *)
(** Runs the promises of the documentation do not survive.

    Concrete runs of the definitions. Two are interleavings: a revocation and a
    new grant that complete between two steps of the worker. One is about the
    longest time limits. Three are about
    FileSink: what its two assumptions about stdio are needed for, and a flush
    after a cancellation. *)
From S2P Require Import Prelude Types Serializer Validator Queue Ids Session SqlText Sqlite Store StoreSpec StoreIface Pipeline Admission Worker Paths Stdio FileSink FileSinkSpec FileSinkLog Client AdmissionSpec Deadlines.

Local Open Scope Z_scope.
Local Open Scope pt_scope.

#[local] Existing Instance RefDb.api.
#[local] Instance race_ops : StoreOps (SqliteStore RefDb.conn) := sqlite_ops accept_all.

(** A sink that takes everything. *)
#[local] Instance race_sink : SinkOps unit := {
  sink_write := fun _ => mreturn (Value status_ok);
  sink_flush := mreturn (Value status_ok);
  sink_request_cancel := mreturn (Value tt)
}.

#[local] Abbreviation Sy := (Sys (SqliteStore RefDb.conn) unit).

Definition race_dump (j : json) : library_call string := Value "{}".

(** A client whose durable cap is [cap]. *)
Definition race_client (cap : Z) : Sy :=
  new_sys (mkConfig "game" "db" Granted true 100 10 1000 cap 64 64 1024 128 false false None)
    tt (ref_store empty_db) (mkMt [] 0) [0] 0 0.

(** set_consent(Denied): the six steps of its section and the three of the purge. *)
Definition revoke_fully : list Act := ActSetConsent Denied :: replicate 9 ActConsentStep.

(** set_consent(Denied) and then set_consent(Granted), both to the end. *)
Definition revoke_and_regrant : list Act :=
  revoke_fully ++ [ActSetConsent Granted; ActConsentStep].

(** One event is admitted and stored. *)
Definition one_stored : Sy :=
  snd ((perform (ActStartSession "p1") ;;
        let* more := pop_batch in process_incoming race_dump more) (race_client 1000)).

(** The interleaving points of [deliver_loop] are, in order: the consent check,
    the fetch, the read of the generation. The other thread runs just before
    the third. *)
Definition fetched_then_revoked : Sy :=
  snd (deliver_loop 5 false (set_schedule [[]; []; revoke_and_regrant] one_stored)).


(** The worker finds consent denied and purges; before it resets the count,
    consent is granted again and an event is admitted. *)
Definition purged_then_regranted : Sy :=
  let s := snd (perform_all perform revoke_fully (race_client 1)) in
  snd (deliver_loop 5 false
         (set_schedule [[]; []; [ActSetConsent Granted; ActConsentStep; ActStartSession "p1"]] s)).

(** [purge_store] overwrites the count of outstanding events (src/worker.cpp:548)
    with a number that was read before the event was admitted, so the event is
    not counted and the durable cap, here one event, lets another one in. *)
Theorem regrant_race_undercounts :
  vsize (queue_ (queue (pipe purged_then_regranted))) = 1 /\ outstanding (pipe purged_then_regranted) = 0 /\
  max_pending_events_ (impl purged_then_regranted) = 1 /\
  ok (fst (admit_locked "jump" [] purged_then_regranted)) = true.
Proof. vm_compute. repeat split. Qed.

(** ** Time limits *)

(** A configuration whose batch interval is std::chrono::milliseconds::max(). *)
Definition endless_config : Config :=
  mkConfig "game" "db" Granted true 100 10 9223372036854775807 1000 64 64 1024 128 false false None.

(** [validate_config] sets no upper limit to batch_interval (src/client.cpp:833),
    and flush() and shutdown() none to their timeout; the wait that follows adds
    it to the time of the steady clock, in nanoseconds, and the sum is not a
    64-bit number: a signed overflow instead of a wait that never ends. *)
Theorem endless_interval_overflows :
  ok (validate_config endless_config) = true /\
  forall now, 0 <= now -> representable (deadline_after 1000000 now (cfg_batch_interval endless_config)) = false.
Proof.
  split; [vm_compute; reflexivity|]. intros now Hnow. unfold representable, deadline_after. simpl.
  apply andb_false_iff. right. apply Z.ltb_ge. lia.
Qed.

(** ** FileSink *)

(** A library that keeps the bytes a failed flush could not write. The flush of
    the batch writes two bytes and fails; the flush in [roll_back] fails too. *)
Definition keeping_lib : StdioLib := mkStdioLib true false.
Definition kept_bytes : list fate := replicate 17 (Works 0) ++ [Breaks 2 0; Breaks 0 0].

(** [roll_back] ignores the result of its flush (src/file_sink.cpp:371). When the
    library keeps the bytes, the seek after the truncation writes them past the
    new end: the write is refused, the sink goes on, and the file holds a line
    with zero bytes that no event has. *)
Theorem kept_bytes_survive_roll_back :
  let '(r, s') := write keeping_lib sample_batch (torn_sink kept_bytes) in
  ok r = false /\ ok (failure_ s') = true /\
  os_bytes (os s') = chars "old" ++ [newline] ++ [Ascii.zero; Ascii.zero; newline] ++ chars "c" ++ [newline].
Proof. vm_compute. done. Qed.

(** A library whose fopen can fail for a passing reason. *)
Definition passing_lib : StdioLib := mkStdioLib false true.

(** [ensure_open] takes any failure of the first fopen for a missing file
    (src/file_sink.cpp:314) and opens it again with truncation: when the failure
    was a passing one, the lines that were acknowledged before are erased, and
    the write answers Ok. *)
Theorem passing_open_failure_erases_file :
  let '(r, s') := write passing_lib sample_batch (torn_sink [Breaks 0 0]) in
  ok r = true /\ file_lines (torn_sink [Breaks 0 0]) = chars "old" ++ [newline] /\
  os_bytes (os s') = ndjson sample_batch.
Proof. vm_compute. done. Qed.

(** [flush_now] does not look at [cancelled_] (src/file_sink.cpp:258): after
    request_cancel() a write is refused at once, a flush is carried out. *)
Theorem flush_ignores_cancel :
  let s := snd (request_cancel (snd (write plain_lib sample_batch (torn_sink [])))) in
  ok (fst (write plain_lib sample_batch s)) = false /\ ok (fst (flush_now plain_lib s)) = true.
Proof. vm_compute. done. Qed.
